(* ===== verification/_CoqProject ===== *)
-Q . S2P
Prelude.v
SimpleString.v
Chain.v
Extras.v
Headers.v
Mpscq.v
Sender.v
Channel.v
ChannelGate.v
ChannelRing.v
ChannelProps.v
Registry.v
Metrics.v
Stream.v
StreamRing.v
StreamOps.v
Flow.v
Options.v
Agent.v
AgentWorld.v
AgentProps.v
AgentStop.v
AgentSample.v
Submit.v
AgentHistory.v
CurlUv.v
CurlUvSockets.v
CurlUvSteps.v
CurlUvLife.v
