(* ===== verification/Prelude.v ===== *)
(** * hcurl: the native transfer core

    hcurl is an HTTP client for Haskell.  Its core, [cbits/] and the queue in
    [third-party/include/waitfree-mpsc-queue/], is C: an agent thread runs a libuv
    loop that drives a libcurl multi handle; Haskell threads submit transfers to
    it, cancel and resume them, read and write their bodies, and wait for headers
    and results.  This library models that core and proves what makes it correct.

    ** The program's parts and where they are modelled

    - [cbits/simple_string.c]: [SimpleString.v], the bounded buffer of a response.
    - [cbits/extras.c]: [Extras.v], Modules [Waker] (the one-shot wake-up),
      [EasyData] (the completion record), [GlobalInit] (initialising libcurl once)
      and [Slist] (the one-node overlay over a header list).  [Chain.v] has the
      lists in memory that this and the registry share.
    - [cbits/headers.c]: [Headers.v], Modules [Buffer], [Lines] (the parsing of
      status lines and the substring search) and [HeaderData] (the record that
      the header callback fills and a reader waits for).
    - [mpsc.c], [mpscq.h]: [Mpscq.v], the bounded control queue.
    - [cbits/message_chan.c], the sender: [Sender.v] has the reference counter and
      the word of the gate; [Channel.v] interleaves any number of threads in
      [enqueue_outer_message] with the agent that takes messages, closes the sender
      and drains the queue, one step per shared access; [ChannelGate.v],
      [ChannelRing.v] and [ChannelProps.v] are its invariant and theorems;
      [Submit.v] is [enqueue_outer_message] as a whole, with the messages in
      memory, and shows that ring, blocks and gate implement the list of messages
      that [Agent.v] uses.
    - [cbits/message_chan.c], the registry: [Registry.v], the hash table.
    - [cbits/curl_metrics.c]: [Metrics.v].
    - [cbits/stream.c]: [Stream.v] has every operation, composed from one
      definition per section under the mutex; [StreamRing.v] and [StreamOps.v]
      prove them against a list of chunks, for any sequence of operations;
      [Flow.v] interleaves the threads of a stream with the agent, one step per
      section and per call between sections.
    - [cbits/options.c]: [Options.v], the adapters before [curl_easy_setopt].
    - [cbits/message_chan.c], the agent, and [check_multi_info] of
      [cbits/curl_uv.c]: [Agent.v] has the handlers over the memory they reach
      ([world]: the registry, the queued messages, the completion records, streams,
      header records and metrics, libcurl's state); [AgentWorld.v] the completion
      of one transfer, [AgentProps.v] the handlers, [AgentStop.v] the shutdown,
      [AgentHistory.v] the theorems about histories, [AgentSample.v] a libcurl that
      satisfies the laws.
    - [cbits/curl_uv.c] and the set-up and tear-down of [cbits/message_chan.c]:
      [CurlUv.v] has the callbacks of libcurl and libuv and the life of the agent;
      [CurlUvSockets.v] and [CurlUvSteps.v] its histories, [CurlUvLife.v] set-up and
      tear-down.

    Definitions keep the names of the C functions; a part of a function that is a
    definition of its own is named after what it does.  A [struct] is a [Record]
    with the same fields, an [enum] an [Inductive].

    ** How the code is modelled

    A C function is a function in the monad [M S A] below: from the state of the
    object it works on to its result, the new state and the calls into the GHC
    runtime, libuv and libcurl that a theorem speaks about; [None] is undefined
    behaviour - an access outside a block, a freed or wrong pointer, a failed
    [assert].  So every theorem that says that a run is [Some] says that the code is
    free of it.  Integers are 64 bit (LP64): a [Z] with [u64] where the code may
    wrap.  [malloc] is a parameter of each operation ([Allocator]), so sequences
    meet any pattern of failures.  A loop that is not structural takes fuel that is
    computed from the state it runs on (the length of the queue, the number of
    transfers, of buckets or of messages that libcurl has, 64 doublings), and
    theorems show that the run does not exhaust it.

    Code under one mutex is one atomic action.  Where threads meet without a common
    mutex the accesses are separate steps and the schedule is arbitrary: the gate
    and the queue in [Channel.v], the sections of a stream in [Flow.v], the counters
    in [Metrics.v], other threads' work on shared records in [AgentHistory.v].
    Atomics are sequentially consistent.

    libcurl is the interface [Libcurl] of [Agent.v] with the laws [LibcurlLaws] -
    what its manual says of private pointers, of adding and removing handles and of
    messages; during a call it may call back in any order ([library] in [CurlUv.v]),
    and the condition [lawful] of [CurlUvSteps.v] says that such a call drives
    transfers but adds or removes none, and answers [CURLM_BAD_SOCKET] only for a
    socket that it does not know.  What libuv answers and when it calls back are
    inputs; its poll handles follow the contract of its manual, whose misuse is
    undefined.  [curl_easy_getinfo], [curl_version_info] and the [curl_slist]
    functions are parameters.

    ** What is shown

    - Messages: each accepted message has its own ticket and is received once, in
      the order of tickets; no assertion of the queue fails and the cleared async
      handle is never used; the closer waits only for producers on their way out;
      what a shutdown has drained is exactly what was accepted; an idle agent with
      a message has an event pending ([ChannelProps.v]).  The queue alone is a
      bounded FIFO ([Mpscq.v]), the sender is freed by the last reference
      ([Sender.v]), and no message block leaks ([Submit.v]).
    - Transfers: in every history of the agent each submitted handle is cleaned up
      exactly once and each completion record is answered; every handler is defined
      and returns; a duplicate id fails alone; completions and cancellations reach
      only their transfer ([AgentHistory.v]).  The registry is a finite map under
      any allocation failures ([Registry.v]).
    - The reactor: every history of it is a history of the agent; each callback of
      libuv does exactly the completions, or the shutdown and the stop, that
      libcurl's answer calls for, and each callback of libcurl leaves the socket
      watched as asked; the callbacks are safe, and fatal errors end everything
      ([CurlUvSteps.v]); set-up takes everything or nothing and tear-down gives
      everything back ([CurlUvLife.v]).
    - Bodies: bytes come out in order, none lost, within the capacity; an ended
      stream says so; waiters are woken once - also for installed streams and when
      a transfer cannot be paused ([StreamOps.v]); and under every interleaving no
      resume is lost ([Flow.v]).
    - Headers, results, metrics: blocks of two responses are never mixed, and which
      responses wake the reader at once and which leave it to the body or the end
      is stated in terms of status and text ([Headers.v]); the first result is the
      one read and the StablePtr is consumed once ([Extras.v]); counters saturate,
      conversions are exact up to one rounding, and the metrics of a transfer are
      those that libcurl reports ([Metrics.v]); the response buffer is what was
      delivered, within its limit ([SimpleString.v]); the adapters of library
      options pass arguments of the type that libcurl reads, the raw ones what
      the caller says ([Options.v]).

    Two disagreements are shown: the tear-down of an agent that could not be bound
    frees [loop->data], which nobody has set ([CurlUvLife.v]); and the raw option
    adapters are not type-safe although a comment says so ([Options.v]).

    ** What is not modelled

    - Branches for old versions of libcurl: those that call [drive_legacy_multi]
      (before 7.32.0) and [curl_multi_socket_all] (before 7.19.1).  The branches of
      [Metrics.v] and [Options.v] are there for every version.
    - [header_data_install] and [simple_string_install]: calls of
      [curl_easy_setopt] that change nothing of the core.  [mpscq_destroy],
      [simple_string_destroy] and [curl_metrics_context_destroy] only free.
    - Tests for NULL contexts that the agent itself never passes: [context],
      [loop] and [multi] of the agent's handlers exist.
    - Weak memory: the orders given to the atomic accesses are not used.  The
      metrics of a delivered chunk are counted in the step after its section.
    - The closing of the sender in [shutdown_message_context] is in [Channel.v],
      where other threads are in the gate, and is left out in [Agent.v].
    - [uv_walk] and the loop of the tear-down run over the poll handles; the timer
      and the async handle have no close callback that does anything.
    - The Haskell library, its tests and the build: they are not C.  What the C core
      relies on them for - a valid pointer in every message, one submission per
      handle - is a hypothesis of the histories ([Step_submit] and [interference]
      in [AgentHistory.v]). *)

From Stdlib Require Export ZArith Lia Ascii.
From stdpp Require Export base tactics numbers option list strings gmap.

#[export] Set Default Goal Selector "!".

Open Scope Z_scope.

(** ** Record updates

    [r <| f := v |>] is the C assignment [r.f = v].  A record declares its eta
    expansion once ([Eta]); the setter of a field is computed from it. *)

Class Eta (R : Type) := eta_expand : R → R.
Class Setter {R E : Type} (getter : R → E) := set_field : (E → E) → R → R.
Arguments set_field {R E} getter {_} _ _ /.

Ltac solve_setter R getter :=
  let e := constr:(_ : Eta R) in
  let e := eval hnf in e in
  lazymatch eval pattern getter in e with
  | ?ctx _ =>
      let s := eval cbv beta in (fun f => ctx (fun r => f (getter r))) in exact s
  end.

#[export] Hint Extern 1 (@Setter ?R _ ?getter) =>
  (solve_setter R getter) : typeclass_instances.

Declare Scope record_scope.
Delimit Scope record_scope with rec.
Open Scope record_scope.
Notation "r <| f := v |>" := (set_field f (λ _, v) r)
  (at level 1, f at next level, v at level 200, left associativity,
   format "r <| f  :=  v |>") : record_scope.
Notation "r <| f ::= g |>" := (set_field f g r)
  (at level 1, f at next level, g at level 200, left associativity,
   format "r <| f  ::=  g |>") : record_scope.

(** ** Machine integers

    [size_t], [uint64_t] and [transfer_id_t] are 64 bit (LP64): a value is a [Z]
    and every operation that may wrap is followed by [u64]. *)

Abbreviation SIZE_MAX := 18446744073709551615.
Abbreviation INT64_MAX := 9223372036854775807.

Definition u64 (z : Z) : Z := z mod 18446744073709551616.

Lemma u64_small z : 0 ≤ z ≤ SIZE_MAX → u64 z = z.
Proof. intros ?. apply Z.mod_small. lia. Qed.

Lemma u64_bounds z : 0 ≤ u64 z ≤ SIZE_MAX.
Proof. pose proof (Z.mod_pos_bound z 18446744073709551616). unfold u64. lia. Qed.

(** The guard [size != 0 && count > SIZE_MAX / size] of the curl callbacks
    refuses exactly the products that do not fit a [size_t]. *)
Lemma mul_overflow_guard size count :
  0 ≤ size → 0 ≤ count →
  size ≠ 0 ∧ SIZE_MAX / size < count ↔ SIZE_MAX < size * count.
Proof.
  intros Hs Hc. split.
  - intros [Hn Hlt]. apply Z.nle_gt. intros Hle.
    assert (count ≤ SIZE_MAX / size); [|lia].
    apply Z.div_le_lower_bound; lia.
  - intros Hlt. split; [nia|]. apply Z.div_lt_upper_bound; nia.
Qed.

(** ** Addresses and bytes

    A C pointer is an [option ptr], [None] being [NULL].  A memory block is the
    list of its bytes. *)

Abbreviation ptr := positive.
Abbreviation bytes := (list ascii).
Abbreviation Zlen l := (Z.of_nat (length l)).

Definition NUL : ascii := Ascii.zero.

(** [memcpy(dst + off, src, |src|)]; [None] is an access outside the block. *)
Definition memcpy (dst : bytes) (off : Z) (src : bytes) : option bytes :=
  if bool_decide (0 ≤ off ∧ off + Zlen src ≤ Zlen dst) then
    Some (take (Z.to_nat off) dst ++ src ++ drop (Z.to_nat off + length src) dst)
  else None.

(** The [n] bytes at [src]; [None] is an access outside the block. *)
Definition read_bytes (src : bytes) (n : Z) : option bytes :=
  if bool_decide (0 ≤ n ≤ Zlen src) then Some (take (Z.to_nat n) src) else None.

Lemma memcpy_ok dst off src :
  0 ≤ off → off + Zlen src ≤ Zlen dst →
  ∃ dst', memcpy dst off src = Some dst' ∧ length dst' = length dst ∧
    take (Z.to_nat off + length src) dst' = take (Z.to_nat off) dst ++ src.
Proof.
  intros H1 H2. unfold memcpy. rewrite bool_decide_true by lia.
  eexists; split; [done|]. split.
  - rewrite !length_app, length_take, length_drop. lia.
  - rewrite app_assoc, take_app_length'; [done|].
    rewrite length_app, length_take. lia.
Qed.

Lemma memcpy_take dst off src dst' n :
  memcpy dst off src = Some dst' → Z.of_nat n ≤ off → take n dst' = take n dst.
Proof.
  unfold memcpy. case_bool_decide as H; [|done]. intros [= <-] Hn.
  rewrite take_app_le by (rewrite length_take; lia).
  rewrite take_take. f_equal. lia.
Qed.

Lemma memcpy_lookup dst off src dst' i :
  memcpy dst off src = Some dst' → (i < length src)%nat →
  dst' !! (Z.to_nat off + i)%nat = src !! i.
Proof.
  unfold memcpy. case_bool_decide as H; [|done]. intros [= <-] Hi.
  assert (Hl : length (take (Z.to_nat off) dst) = Z.to_nat off)
    by (rewrite length_take; lia).
  rewrite lookup_app_r by lia. rewrite lookup_app_l by lia.
  f_equal. lia.
Qed.

Lemma read_bytes_take src n :
  0 ≤ n ≤ Zlen src → read_bytes src n = Some (take (Z.to_nat n) src).
Proof. intros. unfold read_bytes. by rewrite bool_decide_true. Qed.

Lemma read_bytes_all src : read_bytes src (Zlen src) = Some src.
Proof.
  unfold read_bytes. rewrite bool_decide_true by lia.
  rewrite Nat2Z.id, take_ge; [done|lia].
Qed.

(** ** The C allocator

    [malloc n] is [None] ([NULL]) or a block of [n] bytes of unknown content.
    Every operation takes the allocator it runs with, so that a sequence of
    operations meets any pattern of allocation failures. *)

Class Allocator := {
  malloc : Z → option bytes;
  malloc_length n b : 0 ≤ n → malloc n = Some b → Zlen b = n
}.

Definition realloc `{Allocator} (old : bytes) (n : Z) : option bytes :=
  b ← malloc n;
  Some (take (Z.to_nat n) old ++ drop (length old) b).

Lemma realloc_ok `{Allocator} old n b :
  Zlen old ≤ n → realloc old n = Some b →
  Zlen b = n ∧ take (length old) b = old.
Proof.
  unfold realloc. intros Hn. destruct (malloc n) as [b'|] eqn:E; [|done].
  cbn. intros [= <-]. apply malloc_length in E; [|lia].
  rewrite (take_ge old) by lia. rewrite length_app, length_drop.
  split; [lia|]. by rewrite take_app_length.
Qed.

(** [calloc(n, size)]: whether the [n] zeroed elements are there; a product that
    does not fit is refused. *)
Definition calloc `{Allocator} (n size : Z) : bool :=
  if bool_decide (SIZE_MAX < n * size) then false
  else match malloc (n * size) with Some _ => true | None => false end.

(** An allocator that never fails, and one that always does. *)
#[program] Definition alloc_always : Allocator :=
  {| malloc n := Some (replicate (Z.to_nat n) NUL) |}.
Next Obligation. intros n b ? [= <-]. rewrite length_replicate. lia. Qed.

#[program] Definition alloc_never : Allocator := {| malloc n := None |}.
Next Obligation. done. Qed.

(** Buffers grow by doubling up to the size required, which is used as it is
    when doubling would wrap. *)
Fixpoint double_until (fuel : nat) (capacity required : Z) : option Z :=
  if bool_decide (capacity < required) then
    match fuel with
    | O => None
    | S fuel =>
        if bool_decide (SIZE_MAX / 2 < capacity) then Some required
        else double_until fuel (u64 (capacity * 2)) required
    end
  else Some capacity.

Lemma double_until_ok fuel capacity required :
  0 < capacity ≤ SIZE_MAX → required ≤ SIZE_MAX →
  SIZE_MAX < capacity * 2 ^ Z.of_nat fuel →
  ∃ c, double_until fuel capacity required = Some c ∧
    required ≤ c ∧ capacity ≤ c ≤ SIZE_MAX.
Proof.
  revert capacity. induction fuel as [|fuel IH]; intros c Hc Hr Hf; simpl.
  - rewrite bool_decide_false by lia. exists c. split; [done|]. lia.
  - case_bool_decide as H1; [|exists c; split; [done|]; lia].
    case_bool_decide as H2; [exists required; split; [done|]; lia|].
    assert (SIZE_MAX / 2 = INT64_MAX) as E by reflexivity. rewrite E in H2.
    rewrite u64_small by lia.
    destruct (IH (c * 2)) as (c' & -> & ?); [lia|lia| |exists c'; split; [done|]; lia].
    rewrite Nat2Z.inj_succ, Z.pow_succ_r in Hf by lia. nia.
Qed.

#[global] Arguments double_until : simpl never.

(** 64 doublings are enough from any non-zero capacity. *)
Lemma double_until_64 capacity required :
  0 < capacity ≤ SIZE_MAX → required ≤ SIZE_MAX →
  ∃ c, double_until 64 capacity required = Some c ∧
    required ≤ c ∧ capacity ≤ c ≤ SIZE_MAX.
Proof.
  intros. apply double_until_ok; [done..|].
  change (2 ^ Z.of_nat 64) with 18446744073709551616. lia.
Qed.

(** ** libcurl result codes (the numeric table of [Raw/Curl.chs]) *)

Abbreviation CURLE_OK := 0.
Abbreviation CURLE_FAILED_INIT := 2.
Abbreviation CURLE_OUT_OF_MEMORY := 27.
Abbreviation CURLE_OPERATION_TIMEDOUT := 28.
Abbreviation CURLE_ABORTED_BY_CALLBACK := 42.
Abbreviation CURLE_BAD_FUNCTION_ARGUMENT := 43.
Abbreviation CURLE_RECV_ERROR := 56.

(** ** Effects

    The calls into the GHC runtime, libuv and libcurl that a result depends on
    are recorded in order. *)

(** [enum outer_message_types] and [enum enqueue_message_result]. *)
Inductive outer_message_types := EXECUTE | CANCEL_REQUEST | RESUME_REQUEST | STOP_AGENT.
Inductive enqueue_message_result :=
  | ENQUEUE_MESSAGE_OK | ENQUEUE_MESSAGE_FULL | ENQUEUE_MESSAGE_OUT_OF_MEMORY
  | ENQUEUE_MESSAGE_CLOSED.
#[export] Instance outer_message_types_eq_dec : EqDecision outer_message_types.
Proof. solve_decision. Defined.

Inductive event :=
  | Ev_enqueue_outer_message (tag : outer_message_types) (transfer_id : Z)
  | Ev_hs_try_putmvar (capability : Z) (mvar : ptr)
  | Ev_hs_free_stable_ptr (mvar : ptr)
  | Ev_uv_async_send
  | Ev_uv_stop
  | Ev_curl_easy_pause (easy : ptr) (mask : Z)
  | Ev_curl_multi_remove_handle (easy : ptr)
  | Ev_curl_easy_cleanup (easy : ptr).

#[export] Instance event_eq_dec : EqDecision event.
Proof. solve_decision. Defined.

(** The StablePtrs that a sequence of calls hands to the runtime. *)
Definition fired_of (e : event) : option ptr :=
  match e with Ev_hs_try_putmvar _ p => Some p | _ => None end.
Definition fired (es : list event) : list ptr := omap fired_of es.

Lemma fired_app es1 es2 : fired (es1 ++ es2) = fired es1 ++ fired es2.
Proof. apply omap_app. Qed.

(** Books that balance before and after an exchange balance over both. *)
Lemma balance_trans {A} (f1 f2 r1 r2 p0 p1 p2 a1 a2 : list A) :
  f1 ++ r1 ++ p1 ≡ₚ a1 ++ p0 → f2 ++ r2 ++ p2 ≡ₚ a2 ++ p1 →
  (f1 ++ f2) ++ (r1 ++ r2) ++ p2 ≡ₚ (a1 ++ a2) ++ p0.
Proof.
  intros H1 H2. transitivity ((f1 ++ r1) ++ (f2 ++ r2 ++ p2)); [solve_Permutation|].
  rewrite H2. transitivity (a2 ++ (f1 ++ r1 ++ p1)); [solve_Permutation|].
  rewrite H1. solve_Permutation.
Qed.

(** A C function on an object of type [S]: from the object's state, either
    undefined behaviour ([None]), or the result, the new state and the calls
    made, in order. *)

Definition M (S A : Type) : Type := S → option (A * S * list event).

#[export] Instance M_ret S : MRet (M S) := λ A a s, Some (a, s, []).
#[export] Instance M_bind S : MBind (M S) := λ A B k m s,
  match m s with
  | Some (a, s1, e1) =>
      match k a s1 with
      | Some (b, s2, e2) => Some (b, s2, e1 ++ e2)
      | None => None
      end
  | None => None
  end.

Definition fault {S A} : M S A := λ _, None.
Definition gets {S A} (f : S → A) : M S A := λ s, Some (f s, s, []).
Definition modify {S} (f : S → S) : M S () := λ s, Some ((), f s, []).
Definition emit {S} (e : event) : M S () := λ s, Some ((), s, [e]).
Definition emits {S} (es : list event) : M S () := λ s, Some ((), s, es).
(** A C expression that is undefined when it is [None]. *)
Definition defined {S A} (o : option A) : M S A :=
  λ s, match o with Some a => Some (a, s, []) | None => None end.

(** [if (!p) return dflt;] before the body of a function on [*p]. *)
Definition unless_null {S A} (dflt : A) (m : M S A) : M (option S) A := λ o,
  match o with
  | None => Some (dflt, None, [])
  | Some s =>
      match m s with
      | Some (a, s', es) => Some (a, Some s', es)
      | None => None
      end
  end.

(** A helper called on the address of a field. *)
Definition on_field {R F A} (get : R → F) `{Setter R F get} (m : M F A) : M R A := λ r,
  match m (get r) with
  | Some (a, f, es) => Some (a, r <| get := f |>, es)
  | None => None
  end.

(** The code between [uv_mutex_lock] and [uv_mutex_unlock]: one atomic action. *)
Definition locked {S A} (m : M S A) : M S A := m.

(** ** Weakest preconditions

    [wp m Q s]: run from [s], [m] is free of undefined behaviour and ends with
    a result, a state and effects that satisfy [Q]. *)

Definition wp {S A} (m : M S A) (Q : A → S → list event → Prop) (s : S) : Prop :=
  match m s with
  | Some (a, s', es) => Q a s' es
  | None => False
  end.

Section wp.
Context {S : Type}.

Lemma wp_run {A} (m : M S A) Q (s : S) :
  wp m Q s ↔ ∃ a s' es, m s = Some (a, s', es) ∧ Q a s' es.
Proof.
  unfold wp. split.
  - destruct (m s) as [[[a s'] es]|]; [eauto 10|done].
  - by intros (a & s' & es & -> & ?).
Qed.

Lemma wp_ret {A} (a : A) Q (s : S) : Q a s [] → wp (mret a : M S A) Q s.
Proof. done. Qed.

Lemma wp_bind {A B} (m : M S A) (k : A → M S B) Q (s : S) :
  wp m (λ a s1 e1, wp (k a) (λ b s2 e2, Q b s2 (e1 ++ e2)) s1) s →
  wp (m ≫= k) Q s.
Proof.
  unfold wp, mbind, M_bind. destruct (m s) as [[[a s1] e1]|]; [|done].
  by destruct (k a s1) as [[[b s2] e2]|].
Qed.

Lemma wp_mono {A} (m : M S A) (Q Q' : A → S → list event → Prop) s :
  wp m Q s → (∀ a s' es, Q a s' es → Q' a s' es) → wp m Q' s.
Proof. unfold wp. destruct (m s) as [[[a s1] e1]|]; eauto. Qed.

Lemma wp_modify (f : S → S) Q (s : S) : Q () (f s) [] → wp (modify f) Q s.
Proof. done. Qed.

Lemma wp_gets {A} (f : S → A) Q (s : S) : Q (f s) s [] → wp (gets f) Q s.
Proof. done. Qed.

Lemma wp_emit e Q (s : S) : Q () s [e] → wp (emit e) Q s.
Proof. done. Qed.

Lemma wp_defined {A} (o : option A) a Q (s : S) :
  o = Some a → Q a s [] → wp (defined o) Q s.
Proof. by intros ->. Qed.

Lemma wp_unless_null {A} (d : A) (m : M S A) Q s :
  wp m (λ a s' es, Q a (Some s') es) s → wp (unless_null d m) Q (Some s).
Proof. unfold wp, unless_null. by destruct (m s) as [[[a s1] e1]|]. Qed.
End wp.

Lemma wp_on_field {R F A} (get : R → F) `{!Setter get} (m : M F A) Q (r : R) :
  wp m (λ a f es, Q a (r <| get := f |>) es) (get r) → wp (on_field get m) Q r.
Proof. unfold wp, on_field. by destruct (m (get r)) as [[[a f] es]|]. Qed.

Create HintDb hcurl.
#[export] Hint Resolve wp_ret wp_modify wp_gets wp_emit : hcurl.

(** Symbolic execution: runs the straight-line part of a goal [wp m Q s]. *)
Ltac wp_step :=
  lazymatch goal with
  | |- wp (_ ≫= _) _ _ => apply wp_bind
  | |- wp (locked _) _ _ => unfold locked
  | |- wp (mret _) _ _ => apply wp_ret
  | |- wp (modify _) _ _ => apply wp_modify
  | |- wp (gets _) _ _ => apply wp_gets
  | |- wp (emit _) _ _ => apply wp_emit
  | |- wp (unless_null _ _) _ (Some _) => apply wp_unless_null
  | |- wp (if decide ?P then _ else _) _ _ => destruct (decide P)
  | |- wp (if bool_decide ?P then _ else _) _ _ => destruct (bool_decide_reflect P)
  | |- wp (match ?x with _ => _ end) _ _ => destruct x eqn:?
  end.
Ltac wp_steps := repeat (wp_step; cbn beta iota).

(** Evaluates monadic code on a concrete state. *)
Ltac run_m :=
  cbv [mbind M_bind mret M_ret gets modify emit emits unless_null locked fault
       defined id]; cbn.

(** ** Relations that code keeps

    [keeps R m]: every run of [m] leads to a state related to the first one. *)

Definition keeps {S A} (R : S → S → Prop) (m : M S A) : Prop :=
  ∀ s a s' es, m s = Some (a, s', es) → R s s'.

Section keeps.
Context {S : Type} (R : S → S → Prop) `{!Reflexive R, !Transitive R}.

Lemma keeps_bind {A B} (m : M S A) (k : A → M S B) :
  keeps R m → (∀ a, keeps R (k a)) → keeps R (m ≫= k).
Proof.
  intros Hm Hk s b s' es. unfold mbind, M_bind. destruct (m s) as [[[a s1] e1]|] eqn:E1; [|done].
  destruct (k a s1) as [[[b2 s2] e2]|] eqn:E2; [|done]. intros [= <- <- <-].
  transitivity s1; [by eapply Hm|by eapply Hk].
Qed.
Lemma keeps_ret {A} (a : A) : keeps R (mret a : M S A).
Proof. by intros s b s' es [= <- <- <-]. Qed.
Lemma keeps_fault {A} : keeps R (fault : M S A).
Proof. done. Qed.
Lemma keeps_gets {A} (f : S → A) : keeps R (gets f).
Proof. by intros s b s' es [= <- <- <-]. Qed.
Lemma keeps_defined {A} (o : option A) : keeps R (defined o : M S A).
Proof. intros s b s' es. by destruct o; [intros [= <- <- <-]|]. Qed.
Lemma keeps_modify (f : S → S) : (∀ s, R s (f s)) → keeps R (modify f).
Proof. intros Hf s b s' es [= <- <- <-]. apply Hf. Qed.
End keeps.

Ltac keeps_tac :=
  repeat match goal with
  | |- keeps ?R (_ ≫= _) => apply (keeps_bind R); [|intros]
  | |- keeps ?R (mret _) => apply (keeps_ret R)
  | |- keeps ?R fault => apply (keeps_fault R)
  | |- keeps ?R (gets _) => apply (keeps_gets R)
  | |- keeps ?R (defined _) => apply (keeps_defined R)
  | |- keeps ?R (modify _) => apply (keeps_modify R); intros
  | |- keeps ?R (if ?b then _ else _) => destruct b eqn:?
  | |- keeps ?R (match ?x with _ => _ end) => destruct x eqn:?
  end.

(** [says P m]: every call that [m] makes satisfies [P]. *)
Definition says {S A} (P : event → Prop) (m : M S A) : Prop :=
  ∀ s a s' es, m s = Some (a, s', es) → Forall P es.

Section says.
Context {S : Type} (P : event → Prop).

Lemma says_bind {A B} (m : M S A) (k : A → M S B) :
  says P m → (∀ a, says P (k a)) → says P (m ≫= k).
Proof.
  intros Hm Hk s b s' es. unfold mbind, M_bind. destruct (m s) as [[[a s1] e1]|] eqn:E1; [|done].
  destruct (k a s1) as [[[b2 s2] e2]|] eqn:E2; [|done]. intros [= <- <- <-].
  apply Forall_app. split; [by eapply Hm|by eapply Hk].
Qed.
Lemma says_quiet {A} (m : M S A) : (∀ s a s' es, m s = Some (a, s', es) → es = []) → says P m.
Proof. intros Hm s a s' es E. by rewrite (Hm _ _ _ _ E). Qed.
Lemma says_ret {A} (a : A) : says P (mret a : M S A).
Proof. apply says_quiet. by intros ???? [= <- <- <-]. Qed.
Lemma says_gets {A} (f : S → A) : says P (gets f).
Proof. apply says_quiet. by intros ???? [= <- <- <-]. Qed.
Lemma says_modify (f : S → S) : says P (modify f).
Proof. apply says_quiet. by intros ???? [= <- <-]. Qed.
Lemma says_defined {A} (o : option A) : says P (defined o : M S A).
Proof. apply says_quiet. intros ????. by destruct o; [intros [= <- <- <-]|]. Qed.
Lemma says_fault {A} : says P (fault : M S A).
Proof. done. Qed.
Lemma says_emit e : P e → says P (emit e : M S ()).
Proof. intros He s a s' es [= <- <- <-]. by constructor. Qed.
Lemma says_emits es : Forall P es → says P (emits es : M S ()).
Proof. intros He s a s' es' [= <- <- <-]. done. Qed.
Lemma says_unless_null {A} (d : A) (m : M S A) : says P m → says P (unless_null d m).
Proof.
  intros Hm [s|] a s' es; cbn; [|by intros [= <- <- <-]].
  destruct (m s) as [[[b t] e]|] eqn:E; [|done]. intros [= <- <- <-]. by eapply Hm.
Qed.
End says.

Lemma says_on_field {R F A} P (get : R → F) `{!Setter get} (m : M F A) :
  says P m → says P (on_field get m).
Proof.
  intros Hm r a r' es. unfold on_field. destruct (m (get r)) as [[[b f] e]|] eqn:E; [|done].
  intros [= <- <- <-]. by eapply Hm.
Qed.

Lemma wp_keeps {S A} (R : S → S → Prop) (m : M S A) Q (s : S) :
  keeps R m → wp m Q s → wp m (λ a s' es, Q a s' es ∧ R s s') s.
Proof. intros Hm. unfold wp. destruct (m s) as [[[a s'] es]|] eqn:E; [|done]. split; [done|by eapply Hm]. Qed.
Lemma wp_says {S A} P (m : M S A) Q (s : S) :
  says P m → wp m Q s → wp m (λ a s' es, Q a s' es ∧ Forall P es) s.
Proof. intros Hm. unfold wp. destruct (m s) as [[[a s'] es]|] eqn:E; [|done]. split; [done|by eapply Hm]. Qed.

Ltac says_tac :=
  repeat match goal with
  | |- says _ (_ ≫= _) => apply says_bind; [|intros]
  | |- says _ (mret _) => apply says_ret
  | |- says _ fault => apply says_fault
  | |- says _ (gets _) => apply says_gets
  | |- says _ (defined _) => apply says_defined
  | |- says _ (modify _) => apply says_modify
  | |- says _ (emit _) => apply says_emit
  | |- says _ (emits _) => apply says_emits
  | |- says _ (unless_null _ _) => apply says_unless_null
  | |- says _ (on_field _ _) => apply says_on_field
  | |- says _ (locked _) => unfold locked
  | |- says _ (if ?b then _ else _) => destruct b
  | |- says _ (match ?x with _ => _ end) => destruct x
  end.

(** ** Counting threads

    Sums over the entries of a thread table, and the number that satisfy a test. *)
Section count.
Context {A : Type}.
Implicit Types (P Q : A → bool) (th : gmap nat A).

Definition total (w : A → Z) th : Z := map_fold (λ _ a n, w a + n) 0 th.
Definition cnt P th : Z := total (λ a, Z.b2z (P a)) th.

Lemma total_new w th t a : th !! t = None → total w (<[t := a]> th) = w a + total w th.
Proof.
  intros Ht. unfold total. rewrite map_fold_insert_L; [done| |done].
  intros. lia.
Qed.

Lemma total_update w th t a b :
  th !! t = Some a → total w (<[t := b]> th) = total w th - w a + w b.
Proof.
  intros Ht. rewrite <- (insert_delete_id th t a) at 2 by done.
  rewrite <- (insert_delete_eq th t b), !total_new by apply lookup_delete_eq. lia.
Qed.

Lemma cnt_empty P : cnt P ∅ = 0.
Proof. apply map_fold_empty. Qed.

Lemma cnt_new P th t a : th !! t = None → cnt P (<[t := a]> th) = Z.b2z (P a) + cnt P th.
Proof. apply total_new. Qed.

Lemma cnt_update P th t a b :
  th !! t = Some a → cnt P (<[t := b]> th) = cnt P th - Z.b2z (P a) + Z.b2z (P b).
Proof. apply total_update. Qed.

(** A positive count has a thread. *)
Lemma cnt_exists P th : 0 < cnt P th → ∃ t a, th !! t = Some a ∧ P a = true.
Proof.
  induction th as [|t a th Ht IH] using map_ind; [rewrite cnt_empty; lia|].
  rewrite cnt_new by done. destruct (P a) eqn:Ha; intros Hp.
  - exists t, a. by rewrite lookup_insert_eq.
  - destruct (IH ltac:(cbn in Hp; lia)) as (t' & a' & Ht' & Ha'). exists t', a'.
    rewrite lookup_insert_ne; [done|congruence].
Qed.

Lemma cnt_nonneg P th : 0 ≤ cnt P th.
Proof.
  induction th as [|t a th Ht IH] using map_ind; [by rewrite cnt_empty|].
  rewrite cnt_new by done. destruct (P a); cbn; lia.
Qed.

Lemma cnt_mono P Q th : (∀ a, P a = true → Q a = true) → cnt P th ≤ cnt Q th.
Proof.
  intros H. induction th as [|t a th Ht IH] using map_ind; [by rewrite !cnt_empty|].
  rewrite !cnt_new by done. specialize (H a).
  destruct (P a); [rewrite H by done; cbn; lia|]. destruct (Q a); cbn; lia.
Qed.

Lemma cnt_pos P th t a : th !! t = Some a → P a = true → 0 < cnt P th.
Proof.
  intros Ht Hp. rewrite <- (insert_delete_id th t a) by done.
  rewrite cnt_new by apply lookup_delete_eq. rewrite Hp.
  pose proof (cnt_nonneg P (delete t th)). cbn. lia.
Qed.
End count.
