(* ===== verification/SimpleString.v ===== *)
(** * The bounded response buffer ([cbits/simple_string.c])

    A NUL-terminated byte string that grows by doubling and refuses to exceed
    [max_len]; libcurl's write callback for buffered responses appends to it. *)

From S2P Require Import Prelude.

Open Scope Z_scope.
Open Scope record_scope.

Module SimpleString.

(** [struct simple_string_s]; [ptr] is the block of [capacity] bytes. *)
Record simple_string := Mk {
  ptr : option bytes;
  len : Z;
  capacity : Z;
  max_len : Z
}.

#[export] Instance simple_string_eta : Eta simple_string :=
  λ s, Mk (ptr s) (len s) (capacity s) (max_len s).

Definition sizeof_simple_string : Z := 32.

(** The outer [option] is undefined behaviour, the inner one a [NULL] result. *)
Definition simple_string_create `{Allocator} (max_len : Z) :
    option (option simple_string) :=
  match malloc sizeof_simple_string with
  | None => Some None
  | Some _ =>
      let capacity := 4096 in
      let capacity :=
        if bool_decide (max_len ≠ SIZE_MAX ∧ u64 (max_len + 1) < capacity)
        then u64 (max_len + 1) else capacity in
      let capacity := if bool_decide (capacity = 0) then 1 else capacity in
      match malloc capacity with
      | None => Some None
      | Some block =>
          block ← memcpy block 0 [NUL];
          Some (Some (Mk (Some block) 0 capacity max_len))
      end
  end.

(** [len_out] is whether the caller passes a place for the length; the result
    is the pointer handed over and the length stored there. *)
Definition simple_string_take (len_out : bool) :
    M (option simple_string) (option bytes * option Z) :=
  unless_null (None, None)
    (if len_out then
       str ← gets id;
       modify (λ s, s <| ptr := None |> <| len := 0 |> <| capacity := 0 |>);;
       mret (ptr str, Some (len str))
     else mret (None, None)).

(** The [realloc] of [simple_string_writefunc]: make room for [new_len] bytes
    and the terminator, or fail. *)
Definition ensure_capacity `{Allocator} (block : bytes) (new_len : Z) :
    M simple_string (option bytes) :=
  str ← gets id;
  if bool_decide (capacity str < u64 (new_len + 1)) then
    let cap0 := if bool_decide (capacity str = 0) then 4096 else capacity str in
    cap ← defined (double_until 64 cap0 (u64 (new_len + 1)));
    match realloc block cap with
    | None => mret None
    | Some resized =>
        modify (λ s, s <| ptr := Some resized |> <| capacity := cap |>);;
        mret (Some resized)
    end
  else mret (Some block).

Definition simple_string_writefunc `{Allocator}
    (data : option bytes) (size nmemb : Z) : M (option simple_string) Z :=
  unless_null 0
    (str ← gets id;
     match ptr str with
     | None => mret 0
     | Some block =>
         if bool_decide (size ≠ 0 ∧ SIZE_MAX / size < nmemb) then mret 0 else
         let appended := u64 (size * nmemb) in
         if bool_decide (appended = 0) then mret 0 else
         match data with
         | None => mret 0
         | Some src =>
             if bool_decide (u64 (SIZE_MAX - len str) < appended) then mret 0 else
             let new_len := u64 (len str + appended) in
             if bool_decide (max_len str < new_len) then mret 0 else
             if bool_decide (new_len = SIZE_MAX) then mret 0 else
             room ← ensure_capacity block new_len;
             match room with
             | None => mret 0
             | Some block =>
                 chunk ← defined (read_bytes src appended);
                 block ← defined (memcpy block (len str) chunk);
                 block ← defined (memcpy block new_len [NUL]);
                 modify (λ s, s <| ptr := Some block |> <| len := new_len |>);;
                 mret appended
             end
         end
     end).

(** ** Invariant *)

(** The bytes accumulated so far. *)
Definition text (s : simple_string) : bytes :=
  match ptr s with Some block => take (Z.to_nat (len s)) block | None => [] end.

(** A string that still owns its block: the length is within the limit, there
    is room for the terminator, and the terminator is there. *)
Record wf (s : simple_string) (block : bytes) : Prop := {
  wf_ptr : ptr s = Some block;
  wf_block : Zlen block = capacity s;
  wf_len : 0 ≤ len s < capacity s;
  wf_max : len s ≤ max_len s ≤ SIZE_MAX;
  wf_cap : capacity s ≤ SIZE_MAX;
  wf_nul : block !! Z.to_nat (len s) = Some NUL
}.

Lemma string_text_length s block : wf s block → Zlen (text s) = len s.
Proof.
  intros []. unfold text. rewrite wf_ptr0, length_take. lia.
Qed.

(** The abstract buffer: a byte sequence with a limit, that takes a whole chunk
    or nothing. *)
Definition bounded_append (limit : Z) (acc chunk : bytes) : option bytes :=
  if bool_decide (Zlen acc + Zlen chunk ≤ limit ∧ Zlen acc + Zlen chunk < SIZE_MAX)
  then Some (acc ++ chunk) else None.

(** ** Creation and hand-over *)

Lemma string_create_wf `{Allocator} limit :
  0 ≤ limit ≤ SIZE_MAX →
  ∃ r, simple_string_create limit = Some r ∧
    ∀ s, r = Some s → text s = [] ∧ max_len s = limit ∧ ∃ block, wf s block.
Proof.
  intros Hl. unfold simple_string_create.
  destruct (malloc sizeof_simple_string); [|eexists; split; [done|intros ? [=]]].
  set (c := if bool_decide (limit ≠ SIZE_MAX ∧ _) then _ else _).
  assert (0 < c ≤ 4096) as Hc.
  { unfold c. case_bool_decide as E; [|lia]. destruct E as [? E].
    rewrite u64_small in * by lia. lia. }
  rewrite bool_decide_false by lia.
  destruct (malloc c) as [b|] eqn:E; [|eexists; split; [done|intros ? [=]]].
  apply malloc_length in E; [|lia].
  destruct (memcpy_ok b 0 [NUL]) as (b' & Hb & Hlen & Htk); [done|cbn; lia|].
  rewrite Hb. cbn. eexists; split; [done|]. intros s [= <-].
  split; [done|]. split; [done|]. exists b'. split; cbn; try lia; [done|].
  by apply (memcpy_lookup _ 0 [NUL] _ 0) in Hb; [|simpl; lia].
Qed.

(** ** Appending *)

Lemma ensure_capacity_spec `{Allocator} s block n :
  wf s block → len s ≤ n < SIZE_MAX →
  wp (ensure_capacity block n) (λ r s' es, es = [] ∧
    match r with
    | None => s' = s ∧ ∃ k, malloc k = None
    | Some b => wf s' b ∧ text s' = text s ∧ len s' = len s ∧
        max_len s' = max_len s ∧ n < capacity s'
    end) s.
Proof.
  intros Hwf Hn. pose proof Hwf as [Hp Hb Hl Hm Hc Hz].
  unfold ensure_capacity. wp_steps; rewrite ?u64_small in * by lia; cbn in *;
    [|split; [done|]; split; [done|]; repeat split; lia].
  rewrite bool_decide_false by lia.
  destruct (double_until_64 (capacity s) (n + 1)) as (c & E & ? & ?); [lia..|].
  eapply wp_defined; [exact E|]. cbn beta.
  destruct (realloc block c) as [b|] eqn:Er.
  - destruct (realloc_ok block c b ltac:(lia) Er) as [Hlb Htk]. wp_steps. cbn.
    assert (take (Z.to_nat (len s)) b = take (Z.to_nat (len s)) block) as Ht.
    { rewrite <- Htk, take_take. f_equal. lia. }
    assert (b !! Z.to_nat (len s) = block !! Z.to_nat (len s)) as Hlk.
    { rewrite <- Htk, lookup_take_lt by lia. done. }
    repeat split; cbn; try lia; [by rewrite Hlk|]. unfold text. by rewrite Hp.
  - wp_steps. split; [done|]. split; [done|]. exists c.
    unfold realloc in Er. by destruct (malloc c).
Qed.

(** What a write of [chunk] to [s] may do: take it all, as the abstract buffer
    does, or leave the string as it was, because the chunk is empty, the
    abstract buffer refuses it, or an allocation fails. *)
Definition write_outcome `{Allocator} (s : simple_string) (chunk : bytes)
    (r : Z) (s' : option simple_string) : Prop :=
  (r = Zlen chunk ∧ 0 < r ∧
     ∃ s1 b1, s' = Some s1 ∧ wf s1 b1 ∧ max_len s1 = max_len s ∧
       bounded_append (max_len s) (text s) chunk = Some (text s1)) ∨
  (r = 0 ∧ s' = Some s ∧
     (chunk = [] ∨ bounded_append (max_len s) (text s) chunk = None ∨
      ∃ k, malloc k = None)).

Lemma reject `{Allocator} s chunk :
  chunk = [] ∨ bounded_append (max_len s) (text s) chunk = None ∨
    (∃ k, malloc k = None) →
  [] = @nil event ∧ write_outcome s chunk 0 (Some s).
Proof. intros ?. split; [done|]. by right. Qed.

(** The write callback on a live string, on every branch. *)
Lemma writefunc_spec `{Allocator} s block data size nmemb :
  wf s block → 0 ≤ size ≤ SIZE_MAX → 0 ≤ nmemb ≤ SIZE_MAX →
  size * nmemb ≤ Zlen data →
  wp (simple_string_writefunc (Some data) size nmemb) (λ r s' es, es = [] ∧
    write_outcome s (take (Z.to_nat (size * nmemb)) data) r s') (Some s).
Proof.
  intros Hwf Hsz Hnm Hd. pose proof Hwf as [Hp Hb Hl Hm Hc Hz].
  pose proof (string_text_length _ _ Hwf) as Htl.
  set (chunk := take (Z.to_nat (size * nmemb)) data).
  assert (Zlen chunk = size * nmemb) as Hch by (unfold chunk; rewrite length_take; nia).
  assert (max_len s < len s + size * nmemb ∨ SIZE_MAX ≤ len s + size * nmemb →
    bounded_append (max_len s) (text s) chunk = None) as Hrej.
  { intros ?. unfold bounded_append. by rewrite Htl, Hch, bool_decide_false by lia. }
  unfold simple_string_writefunc. wp_step. wp_step. wp_step. cbn [id]. rewrite Hp.
  destruct (Z_lt_ge_dec SIZE_MAX (size * nmemb)).
  { rewrite bool_decide_true by (rewrite mul_overflow_guard; lia).
    wp_steps. apply reject. right. left. apply Hrej. lia. }
  rewrite bool_decide_false by (rewrite mul_overflow_guard; lia).
  rewrite (u64_small (size * nmemb)) by nia.
  wp_step; [wp_steps; apply reject; left; apply nil_length_inv; lia|].
  rewrite (u64_small (SIZE_MAX - len s)) by lia.
  wp_step; [wp_steps; apply reject; right; left; apply Hrej; lia|].
  rewrite (u64_small (len s + _)) by nia.
  wp_step; [wp_steps; apply reject; right; left; apply Hrej; lia|].
  wp_step; [wp_steps; apply reject; right; left; apply Hrej; lia|].
  wp_step. eapply wp_mono; [apply ensure_capacity_spec; [done|nia]|].
  intros [b|] s1 es; cbn; [|intros (-> & -> & ?); wp_steps; apply reject; tauto].
  intros (-> & Hwf1 & Htx & Hlen1 & Hmx1 & Hn1).
  pose proof Hwf1 as [Hp1 Hb1 Hl1 Hm1 Hc1 Hz1].
  wp_step. eapply wp_defined; [apply read_bytes_take; nia|]. cbn beta. fold chunk.
  destruct (memcpy_ok b (len s) chunk) as (b2 & E2 & Hl2 & Ht2); [lia..|].
  destruct (memcpy_ok b2 (len s + size * nmemb) [NUL]) as (b3 & E3 & Hl3 & Ht3);
    [lia|cbn; lia|].
  wp_step. eapply wp_defined; [exact E2|]. cbn beta.
  wp_step. eapply wp_defined; [exact E3|]. cbn beta.
  wp_steps. split; [done|]. left. split; [lia|]. split; [lia|].
  assert (take (Z.to_nat (len s + size * nmemb)) b3 = text s ++ chunk) as Hfin.
  { rewrite (memcpy_take _ _ _ _ _ E3) by lia.
    replace (Z.to_nat (len s + _)) with (Z.to_nat (len s) + length chunk)%nat by lia.
    rewrite Ht2. f_equal. rewrite <- Htx. unfold text. by rewrite Hp1, Hlen1. }
  eexists _, b3. split; [done|]. split; [split; cbn; try lia; [done|]|].
  - pose proof (memcpy_lookup _ _ _ _ 0 E3 ltac:(simpl; lia)) as Hk.
    by rewrite Nat.add_0_r in Hk.
  - split; [done|]. unfold bounded_append. rewrite Htl, bool_decide_true by lia.
    unfold text at 2. cbn. by rewrite Hfin.
Qed.

(** libcurl delivers the body chunk by chunk and aborts the transfer at the
    first short write; the result is whether every chunk was taken. *)
Fixpoint deliver `{Allocator} (chunks : list bytes) : M (option simple_string) bool :=
  match chunks with
  | [] => mret true
  | chunk :: chunks =>
      r ← simple_string_writefunc (Some chunk) 1 (Zlen chunk);
      if bool_decide (r = Zlen chunk) then deliver chunks else mret false
  end.

(** The same delivery into the abstract buffer. *)
Fixpoint spec_deliver (limit : Z) (acc : bytes) (chunks : list bytes) : bool * bytes :=
  match chunks with
  | [] => (true, acc)
  | chunk :: chunks =>
      match bounded_append limit acc chunk with
      | Some acc => spec_deliver limit acc chunks
      | None => (false, acc)
      end
  end.

Lemma deliver_refines `{Allocator} chunks s block :
  (∀ k, is_Some (malloc k)) → wf s block →
  Forall (λ c, 0 < Zlen c ≤ SIZE_MAX) chunks →
  wp (deliver chunks) (λ ok s' es, ∃ s1 b1, s' = Some s1 ∧ wf s1 b1 ∧ es = [] ∧
    spec_deliver (max_len s) (text s) chunks = (ok, text s1)) (Some s).
Proof.
  intros Hm Hwf Hc. revert s block Hwf. induction Hc as [|c chunks Hc _ IH]; cbn;
    intros s block Hwf; [by wp_steps; eauto 10|].
  wp_step. eapply wp_mono.
  { apply (writefunc_spec s block); [done|lia..]. }
  cbn beta. rewrite Z.mul_1_l, Nat2Z.id, firstn_all.
  intros r s' es (-> & [(-> & _ & s1 & b1 & -> & Hwf1 & Hmx & ->)|(-> & -> & Hrej)]).
  - rewrite bool_decide_true by done. rewrite <- Hmx. by eapply IH.
  - rewrite bool_decide_false by lia. wp_steps.
    destruct Hrej as [->|[->|[k Hk]]]; [cbn in Hc; lia|by eauto 10|].
    destruct (Hm k) as [? Hk']. congruence.
Qed.

Lemma spec_deliver_total limit acc chunks :
  Zlen (acc ++ concat chunks) ≤ limit → Zlen (acc ++ concat chunks) < SIZE_MAX →
  spec_deliver limit acc chunks = (true, acc ++ concat chunks).
Proof.
  revert acc. induction chunks as [|c cs IH]; cbn; intros acc Hl Hs;
    [by rewrite app_nil_r|].
  rewrite !length_app in *. unfold bounded_append.
  rewrite bool_decide_true by lia. rewrite IH; rewrite ?length_app; [|lia..].
  by rewrite app_assoc.
Qed.

Lemma spec_deliver_limit limit acc chunks ok out :
  Zlen acc ≤ limit → spec_deliver limit acc chunks = (ok, out) → Zlen out ≤ limit.
Proof.
  revert acc. induction chunks as [|c cs IH]; cbn; intros acc Hl; [by intros [= <- <-]|].
  unfold bounded_append. case_bool_decide as Hd; [|by intros [= <- <-]].
  apply IH. rewrite length_app. lia.
Qed.

Lemma create_some `{Allocator} limit :
  (∀ k, is_Some (malloc k)) → 0 ≤ limit ≤ SIZE_MAX →
  ∃ s, simple_string_create limit = Some (Some s) ∧ text s = [] ∧
    max_len s = limit ∧ ∃ block, wf s block.
Proof.
  intros Hm Hl. destruct (string_create_wf limit Hl) as (r & Hr & Hs). rewrite Hr.
  destruct r as [s|]; [by eauto|]. exfalso. unfold simple_string_create in Hr.
  destruct (malloc sizeof_simple_string) eqn:E1;
    [|destruct (Hm sizeof_simple_string); congruence].
  case_match eqn:E2; [|rewrite eq_None_not_Some in E2; by destruct (E2 (Hm _))].
  by destruct (memcpy _ _ _).
Qed.

Lemma chunks_fit (chunks : list bytes) :
  Forall (λ c, c ≠ []) chunks → Zlen (concat chunks) < SIZE_MAX →
  Forall (λ c, 0 < Zlen c ≤ SIZE_MAX) chunks.
Proof.
  induction 1 as [|c cs Hc _ IH]; constructor; cbn in *; rewrite length_app in *.
  - destruct c; [done|]. cbn in *. lia.
  - apply IH. lia.
Qed.

(** ** The contract of a buffered response *)

(** C31: create, deliver, take.  When no allocation fails and the body fits the
    limit, every chunk is taken and the buffer handed over is exactly the
    concatenation of the chunks, NUL-terminated, with its length; the string is
    left empty and its later writes are refused.  The callbacks never touch
    memory outside their blocks. *)
Theorem simple_string_roundtrip `{Allocator} limit chunks :
  (∀ k, is_Some (malloc k)) →
  0 ≤ limit ≤ SIZE_MAX → Forall (λ c : bytes, c ≠ []) chunks →
  Zlen (concat chunks) ≤ limit → Zlen (concat chunks) < SIZE_MAX →
  ∃ s, simple_string_create limit = Some (Some s) ∧
  wp (ok ← deliver chunks; r ← simple_string_take true; mret (ok, r))
    (λ '(ok, (block, length)) s' es,
      ok = true ∧ es = [] ∧ length = Some (Zlen (concat chunks)) ∧
      (∃ b, block = Some b ∧ take (List.length (concat chunks)) b = concat chunks ∧
        b !! List.length (concat chunks) = Some NUL) ∧
      ∀ data size n, simple_string_writefunc data size n s' = Some (0, s', []))
    (Some s).
Proof.
  intros Hm Hl Hc Ht Hs.
  destruct (create_some limit Hm Hl) as (s & Hcr & Htx & Hmx & block & Hwf).
  exists s. split; [done|].
  wp_step. eapply wp_mono; [apply (deliver_refines _ _ block); [done..|]|].
  - by apply chunks_fit.
  - intros ok s' es (s1 & b1 & -> & [] & -> & Hd). rewrite Hmx, Htx in Hd.
    rewrite spec_deliver_total in Hd by (cbn; lia). injection Hd as <- Hd.
    cbn in Hd. unfold text in Hd. rewrite wf_ptr0 in Hd.
    assert (length (concat chunks) = Z.to_nat (len s1)) as El
      by (rewrite Hd, length_take; lia).
    unfold simple_string_take. wp_steps. cbn. rewrite wf_ptr0.
    repeat split; [f_equal; lia|]. exists b1. by rewrite El, Hd.
Qed.

Definition roundtrip_chunks : list bytes :=
  [String.list_ascii_of_string "hello "; String.list_ascii_of_string "world"].

Lemma simple_string_roundtrip_witness :
  ∃ s, simple_string_create (H := alloc_always) 16 = Some (Some s) ∧
  wp (ok ← deliver (H := alloc_always) roundtrip_chunks;
      r ← simple_string_take true; mret (ok, r))
    (λ '(ok, (block, length)) s' es,
      ok = true ∧ es = [] ∧ length = Some (Zlen (concat roundtrip_chunks)) ∧
      (∃ b, block = Some b ∧
        take (List.length (concat roundtrip_chunks)) b = concat roundtrip_chunks ∧
        b !! List.length (concat roundtrip_chunks) = Some NUL) ∧
      ∀ data size n,
        simple_string_writefunc (H := alloc_always) data size n s' = Some (0, s', []))
    (Some s).
Proof.
  apply (simple_string_roundtrip (H := alloc_always) 16 roundtrip_chunks);
    [intros k; cbn; eauto|lia|repeat constructor; done|done|done].
Defined.

(** C32: the limit is enforced.  Whatever is delivered, and whichever allocations
    fail or succeed, a live string never holds more than [max_len] bytes and
    stays within its block; a chunk is taken whole or not at all, and a
    non-empty one is refused only over the limit or when an allocation fails. *)
Theorem simple_string_bounded `{Allocator} s block data size nmemb :
  wf s block → 0 ≤ size ≤ SIZE_MAX → 0 ≤ nmemb ≤ SIZE_MAX →
  size * nmemb ≤ Zlen data →
  wp (simple_string_writefunc (Some data) size nmemb) (λ r s' es,
    es = [] ∧ ∃ s1 b1, s' = Some s1 ∧ wf s1 b1 ∧ max_len s1 = max_len s ∧
      Zlen (text s1) ≤ max_len s ∧
      (r = size * nmemb ∧ text s1 = text s ++ take (Z.to_nat r) data ∨
       r = 0 ∧ s1 = s ∧
         (max_len s < Zlen (text s) + size * nmemb ∨
          SIZE_MAX ≤ Zlen (text s) + size * nmemb ∨ ∃ k, malloc k = None))) (Some s).
Proof.
  intros Hwf Hs Hn Hd. eapply wp_mono; [by apply (writefunc_spec s block)|].
  set (chunk := take _ data).
  assert (Zlen chunk = size * nmemb) as Hch by (unfold chunk; rewrite length_take; nia).
  intros r s' es [-> [(-> & Hr & s1 & b1 & -> & Hwf1 & Hmx & Hap)|(-> & -> & Hrej)]];
    (split; [done|]).
  - exists s1, b1. repeat split; try apply Hwf1; [done| |].
    + rewrite (string_text_length _ _ Hwf1), <- Hmx. apply Hwf1.
    + left. split; [done|]. unfold bounded_append in Hap.
      case_bool_decide; [|done]. injection Hap as <-. f_equal.
      by rewrite Hch.
  - exists s, block. rewrite (string_text_length _ _ Hwf). repeat split; try apply Hwf.
    unfold bounded_append in Hrej. rewrite (string_text_length _ _ Hwf), Hch in Hrej.
    destruct Hrej as [Hz|[Hap|Hk]]; [|case_bool_decide; [done|]; right; split_and!; [done..|lia]|tauto].
    left. rewrite Hz in Hch. cbn in Hch. rewrite <- Hch. cbn. by rewrite app_nil_r.
Qed.

Lemma simple_string_bounded_witness :
  let s := Mk (Some (String.list_ascii_of_string "abc" ++ [NUL])) 3 4 4 in
  ∃ r s1, simple_string_writefunc (H := alloc_always)
    (Some (String.list_ascii_of_string "de")) 1 2 (Some s) = Some (r, Some s1, []) ∧
  Zlen (text s1) ≤ 4.
Proof.
  pose (s := Mk (Some (String.list_ascii_of_string "abc" ++ [NUL])) 3 4 4).
  assert (wf s (String.list_ascii_of_string "abc" ++ [NUL])) as Hwf
    by (split; cbn; done || lia).
  pose proof (simple_string_bounded (H := alloc_always) s _
    (String.list_ascii_of_string "de") 1 2 Hwf ltac:(lia) ltac:(lia) ltac:(done)) as Hb.
  apply wp_run in Hb as (r & s' & es & Hrun & -> & s1 & b1 & -> & _ & _ & Hlen & _).
  exists r, s1. split; [exact Hrun|exact Hlen].
Defined.

End SimpleString.
