(* ===== verification/Chain.v ===== *)
(** * Singly linked lists in memory

    A NULL-terminated chain of nodes linked by their [next] field, as libcurl's
    [curl_slist] and the buckets of the transfer registry are. *)

From S2P Require Import Prelude.

Section chain.
Context {A : Type} (next : A → option ptr).
Implicit Types (h : gmap ptr A) (l : list ptr).

(** From [p], following [next] in [h] visits exactly the nodes [l] and ends. *)
Fixpoint chain h (p : option ptr) l : Prop :=
  match l with
  | [] => p = None
  | q :: l => p = Some q ∧ ∃ a, h !! q = Some a ∧ chain h (next a) l
  end.

Lemma chain_det h p l1 l2 : chain h p l1 → chain h p l2 → l1 = l2.
Proof.
  revert p l2. induction l1 as [|q l1 IH]; intros p [|q2 l2]; cbn.
  - done.
  - intros -> [? _]. done.
  - intros [-> _] [=].
  - intros [-> (a & Ha & H1)] [[= <-] (a2 & Ha2 & H2)].
    rewrite Ha in Ha2. injection Ha2 as <-. f_equal. eauto.
Qed.

Lemma chain_app h p l1 l2 :
  chain h p (l1 ++ l2) → ∃ p2, chain h p2 l2 ∧
    (l1 = [] → p2 = p) ∧ (∀ q, last l1 = Some q → ∃ a, h !! q = Some a ∧ next a = p2).
Proof.
  revert p. induction l1 as [|q l1 IH]; cbn; intros p H; [exists p; split_and!; [done|done|intros ? [=]]|].
  destruct H as [-> (a & Ha & H)]. destruct (IH _ H) as (p2 & H2 & He & Hl).
  exists p2. split; [done|]. split; [done|]. intros q'.
  destruct l1 as [|q1 l1]; [intros [= <-]; rewrite He; eauto|apply Hl].
Qed.

Lemma chain_nodup h p l : chain h p l → NoDup l.
Proof.
  revert p. induction l as [|q l IH]; cbn; intros p H; [constructor|].
  destruct H as [-> (a & Ha & H)]. constructor; [|by eapply IH].
  intros Hin. apply list_elem_of_split in Hin as (l1 & l2 & ->).
  destruct (chain_app _ _ _ _ H) as (p2 & [-> (a2 & Ha2 & Hc)] & _).
  rewrite Ha in Ha2. injection Ha2 as <-.
  pose proof (chain_det _ _ _ _ H Hc) as E.
  apply (f_equal length) in E. rewrite length_app in E. cbn in E. lia.
Qed.

Lemma chain_live h p l q : chain h p l → q ∈ l → is_Some (h !! q).
Proof.
  revert p. induction l as [|q' l IH]; cbn; intros p H; [by intros ?%elem_of_nil|].
  destruct H as (-> & a & Ha & H). intros [->|?]%elem_of_cons; eauto.
Qed.

Lemma chain_length h p l : chain h p l → (length l ≤ size h)%nat.
Proof.
  intros H. pose proof (chain_nodup _ _ _ H) as Hn.
  rewrite <- size_dom, <- (size_list_to_set (C := gset ptr)) by done.
  apply subseteq_size. intros q Hq%elem_of_list_to_set.
  apply elem_of_dom. by eapply chain_live.
Qed.

(** Changes elsewhere in memory do not affect a chain. *)
Lemma chain_frame h h' p l :
  (∀ q, q ∈ l → h' !! q = h !! q) → chain h p l → chain h' p l.
Proof.
  revert p. induction l as [|q l IH]; cbn; intros p Hf H; [done|].
  destruct H as (-> & a & Ha & H). split; [done|]. exists a. split.
  - rewrite Hf; [done|]. set_solver.
  - apply IH; [|done]. intros ??. apply Hf. set_solver.
Qed.

(** Only the links of a chain's nodes matter. *)
Lemma chain_links h h' p l :
  (∀ q a, q ∈ l → h !! q = Some a → ∃ a', h' !! q = Some a' ∧ next a' = next a) →
  chain h p l → chain h' p l.
Proof.
  revert p. induction l as [|q l IH]; cbn; intros p Hf H; [done|].
  destruct H as (-> & a & Ha & H). split; [done|].
  destruct (Hf q a ltac:(set_solver) Ha) as (a' & Ha' & Hn). exists a'. split; [done|].
  rewrite Hn. apply IH; [|done]. intros r b Hr. apply Hf. set_solver.
Qed.

Lemma chain_insert h p l q a : q ∉ l → chain h p l → chain (<[q := a]> h) p l.
Proof.
  intros Hq. apply chain_frame. intros q' Hq'. rewrite lookup_insert_ne; [done|].
  by intros ->.
Qed.

Lemma chain_delete h p l q : q ∉ l → chain h p l → chain (delete q h) p l.
Proof.
  intros Hq. apply chain_frame. intros q' Hq'. rewrite lookup_delete_ne; [done|].
  by intros ->.
Qed.

(** A value whose link is unchanged can replace a node. *)
Lemma chain_update h p l q a a' :
  h !! q = Some a → next a' = next a → chain h p l → chain (<[q := a']> h) p l.
Proof.
  intros Hq Hn. revert p. induction l as [|q' l IH]; cbn; intros p H; [done|].
  destruct H as (-> & b & Hb & H). split; [done|].
  destruct (decide (q' = q)) as [->|Hne].
  - rewrite lookup_insert_eq. exists a'. split; [done|].
    rewrite Hn. rewrite Hq in Hb. injection Hb as ->. auto.
  - rewrite lookup_insert_ne by done. eauto.
Qed.

Lemma chain_cons h p l q a :
  q ∉ l → next a = p → chain h p l → chain (<[q := a]> h) (Some q) (q :: l).
Proof.
  intros Hq Hn H. split; [done|]. exists a. rewrite lookup_insert_eq.
  split; [done|]. rewrite Hn. by apply chain_insert.
Qed.

(** Unlinking the node after [r]. *)
Lemma chain_unlink h p l1 r q l2 ar aq ar' :
  chain h p (l1 ++ r :: q :: l2) → h !! r = Some ar → h !! q = Some aq →
  next ar' = next aq → chain (<[r := ar']> h) p (l1 ++ r :: l2).
Proof.
  intros H Hr Hq Hn. pose proof (chain_nodup _ _ _ H) as Hd. revert p H.
  induction l1 as [|q1 l1 IH]; cbn in *; intros p H.
  - destruct H as (-> & a & Ha & E & b & Hb & H). split; [done|].
    exists ar'. rewrite lookup_insert_eq. split; [done|]. rewrite Hn.
    rewrite Hq in Hb. injection Hb as <-. apply chain_insert; [|done].
    apply NoDup_cons in Hd as [Hd _]. set_solver.
  - destruct H as (-> & a & Ha & H). apply NoDup_cons in Hd as [Hq1 Hd].
    split; [done|]. exists a. rewrite lookup_insert_ne by set_solver. auto.
Qed.
End chain.

#[export] Hint Resolve chain_nodup chain_live chain_insert chain_delete : hcurl.
