(* ===== verification/Extras.v ===== *)
(** * Wake-ups, completion records and header overlays ([cbits/extras.c])

    The one-shot waker that hands a [StablePtr] to the GHC runtime, the
    completion record ([hs_easy_data_t]) through which a finished transfer is
    published to Haskell, one-time initialisation of libcurl, and the one-node
    overlay over a borrowed [curl_slist]. *)

From S2P Require Import Prelude Chain.

Open Scope Z_scope.
Open Scope record_scope.

(** ** The waker *)
Module Waker.

(** [hs_waker_t]; [mvar] is an [HsStablePtr], [None] being [NULL]. *)
Record hs_waker := Mk {
  mvar : option ptr;
  capability : Z;
  waked : bool
}.

#[export] Instance hs_waker_eta : Eta hs_waker :=
  λ w, Mk (mvar w) (capability w) (waked w).

(** The zeroed waker [{0}]. *)
Definition zero : hs_waker := Mk None 0 false.

Definition wake_up_waker : M (option hs_waker) () :=
  unless_null ()
    (w ← gets id;
     match mvar w with
     | Some p =>
         if waked w then mret ()
         else
           modify (λ w, w <| waked := true |>);;
           emit (Ev_hs_try_putmvar (capability w) p)
     | None => mret ()
     end).

(** The call of [wake_up_waker] on a local copy of a waker: only its effect on
    the runtime is left. *)
Definition wake_copy {S} (w : hs_waker) : M S () :=
  match wake_up_waker (Some w) with
  | Some (_, _, es) => emits es
  | None => fault
  end.

Lemma wake_copy_eq {S} (w : hs_waker) :
  wake_copy (S := S) w = emits
    (match mvar w with
     | Some p => if waked w then [] else [Ev_hs_try_putmvar (capability w) p]
     | None => []
     end).
Proof. destruct w as [[p|] c [|]]; reflexivity. Qed.

End Waker.

(** ** The completion record *)
Module EasyData.
Import Waker.

(** [hs_easy_data_t]. *)
Record hs_easy_data := Mk {
  curl_code : Z;
  response_code : Z;
  waker : hs_waker;
  waker_fired : bool;
  completed : bool
}.

#[export] Instance hs_easy_data_eta : Eta hs_easy_data :=
  λ d, Mk (curl_code d) (response_code d) (waker d) (waker_fired d) (completed d).

Definition sizeof_hs_easy_data : Z := 40.

Definition hs_easy_data_create `{Allocator} (mvar : option ptr) (capability : Z) :
    option hs_easy_data :=
  match malloc sizeof_hs_easy_data with
  | None => None
  | Some _ => Some (Mk CURLE_OK 0 (Waker.Mk mvar capability false) false false)
  end.

(** The record is freed; what is left is what happens to the StablePtr. *)
Definition hs_easy_data_destroy (data : option hs_easy_data) : list event :=
  match data with
  | None => []
  | Some d =>
      match mvar (waker d) with
      | Some p => if waker_fired d then [] else [Ev_hs_free_stable_ptr p]
      | None => []
      end
  end.

(** [response_info] is what [curl_easy_getinfo(easy, CURLINFO_RESPONSE_CODE)]
    answers for a non-[NULL] [easy]: its code, and the value it stores. *)
Definition hs_easy_data_set_result (response_info : option (Z * Z)) (code : Z) :
    M (option hs_easy_data) () :=
  unless_null ()
    (d ← gets id;
     if completed d then mret ()
     else
       modify (λ d, d <| curl_code := code |>);;
       match response_info with
       | Some (rc, status) =>
           if bool_decide (rc = CURLE_OK)
           then modify (λ d, d <| response_code := status |>)
           else mret ()
       | None => mret ()
       end;;
       modify (λ d, d <| completed := true |>)).

Definition hs_easy_data_wake : M (option hs_easy_data) () :=
  unless_null ()
    (d ← gets id;
     if negb (completed d) then mret ()
     else if waker_fired d then mret ()
     else
       modify (λ d, d <| waker_fired := true |>);;
       (* wake_up_waker(&data->waker) *)
       d ← gets id;
       match wake_up_waker (Some (waker d)) with
       | Some (_, Some w, es) =>
           modify (λ d, d <| waker := w |>);; emits es
       | _ => fault
       end).

Definition hs_easy_data_code (data : option hs_easy_data) : Z :=
  match data with None => CURLE_FAILED_INIT | Some d => curl_code d end.

Definition hs_easy_data_response_code (data : option hs_easy_data) : Z :=
  match data with None => 0 | Some d => response_code d end.

(** *** Sequences of calls on one record *)

Inductive call :=
  | Set_result (response_info : option (Z * Z)) (code : Z)
  | Wake.

Definition run_call (c : call) : M (option hs_easy_data) () :=
  match c with
  | Set_result info code => hs_easy_data_set_result info code
  | Wake => hs_easy_data_wake
  end.

Fixpoint run_calls (cs : list call) : M (option hs_easy_data) () :=
  match cs with
  | [] => mret ()
  | c :: cs => run_call c;; run_calls cs
  end.

(** The first result published by a sequence of calls, if any. *)
Fixpoint first_result (cs : list call) : option (option (Z * Z) * Z) :=
  match cs with
  | [] => None
  | Set_result info code :: _ => Some (info, code)
  | Wake :: cs => first_result cs
  end.

(** Whether a wake-up follows a published result. *)
Fixpoint wakes (published : bool) (cs : list call) : bool :=
  match cs with
  | [] => false
  | Set_result _ _ :: cs => wakes true cs
  | Wake :: cs => published || wakes published cs
  end.

Definition status_of (info : option (Z * Z)) : Z :=
  match info with
  | Some (rc, status) => if bool_decide (rc = CURLE_OK) then status else 0
  | None => 0
  end.

(** A record whose waker has not been fired or destroyed yet. *)
Definition fresh (p : ptr) (cap : Z) : hs_easy_data :=
  Mk CURLE_OK 0 (Waker.Mk (Some p) cap false) false false.

(** The record after a result, and after its wake-up. *)
Definition settled (p : ptr) (cap : Z) (info : option (Z * Z)) (code : Z)
    (fired : bool) : hs_easy_data :=
  Mk code (status_of info) (Waker.Mk (Some p) cap fired) fired true.

Lemma run_settled p cap info code fired cs :
  run_calls cs (Some (settled p cap info code fired)) =
    Some ((), Some (settled p cap info code (fired || wakes true cs)),
          if negb fired && wakes true cs then [Ev_hs_try_putmvar cap p] else []).
Proof.
  revert fired. induction cs as [|c cs IH]; intros fired.
  - cbn. by rewrite orb_false_r, andb_false_r.
  - pose proof (IH fired) as Hf. pose proof (IH true) as Ht. unfold settled in *.
    destruct c, fired; cbn; unfold hs_easy_data_set_result, hs_easy_data_wake, wake_up_waker;
      run_m; rewrite ?Hf, ?Ht; done.
Qed.

Lemma run_fresh p cap cs :
  run_calls cs (Some (fresh p cap)) =
    match first_result cs with
    | None => Some ((), Some (fresh p cap), [])
    | Some (info, code) =>
        Some ((), Some (settled p cap info code (wakes false cs)),
              if wakes false cs then [Ev_hs_try_putmvar cap p] else [])
    end.
Proof.
  induction cs as [|c cs IH]; [done|].
  destruct c as [info code|]; cbn [run_calls run_call first_result wakes].
  - unfold hs_easy_data_set_result. run_m.
    pose proof (run_settled p cap info code false cs) as Hs. unfold settled in *. cbn in Hs.
    destruct info as [[rc st]|]; cbn in *; [|by rewrite Hs].
    case_bool_decide; cbn in *; by rewrite Hs.
  - unfold hs_easy_data_wake. run_m. rewrite IH.
    by destruct (first_result cs) as [[??]|].
Qed.

(** C29: whatever sequence of [set_result] and [wake] calls completion,
    cancellation and shutdown make on a record, the first result published is
    the one Haskell reads (with the HTTP status only when libcurl gave one), a
    wake-up before any result is ignored, and the waker is fired exactly once
    when a wake-up follows a result and never otherwise. *)
Theorem easy_data_first_result_one_wake p cap cs :
  ∃ d, run_calls cs (Some (fresh p cap)) = Some ((), Some d,
      if wakes false cs then [Ev_hs_try_putmvar cap p] else []) ∧
    completed d = bool_decide (is_Some (first_result cs)) ∧
    waker_fired d = wakes false cs ∧
    ∀ info code, first_result cs = Some (info, code) →
      hs_easy_data_code (Some d) = code ∧
      hs_easy_data_response_code (Some d) = status_of info.
Proof.
  rewrite run_fresh. destruct (first_result cs) as [[info code]|] eqn:E.
  - eexists. split; [done|]. split; [done|]. split; [done|]. by intros ?? [= <- <-].
  - assert (wakes false cs = false) as ->.
    { induction cs as [|[] cs IH]; cbn in *; [done..|by apply IH]. }
    eexists. split; [done|]. split; [done|]. split; [done|]. done.
Qed.

(** C30: the StablePtr of a record is released exactly once over the record's
    life: either a wake-up consumed it, or destroying the record frees it. *)
Theorem easy_data_stable_ptr_linear `{Allocator} p cap cs d es :
  hs_easy_data_create (Some p) cap = Some d →
  ∀ d', run_calls cs (Some d) = Some ((), d', es) →
  es ++ hs_easy_data_destroy d' =
    [if wakes false cs then Ev_hs_try_putmvar cap p else Ev_hs_free_stable_ptr p].
Proof.
  unfold hs_easy_data_create. destruct (malloc _); [|done]. intros [= <-] d' Hr.
  fold (fresh p cap) in Hr. rewrite run_fresh in Hr.
  destruct (first_result cs) as [[info code]|] eqn:E.
  - injection Hr as <- <-. cbn. by destruct (wakes false cs).
  - injection Hr as <- <-. cbn.
    assert (wakes false cs = false) as ->; [|done].
    induction cs as [|[] cs IH]; cbn in *; [done..|by apply IH].
Qed.

Lemma easy_data_stable_ptr_linear_witness :
  [Ev_hs_try_putmvar 3 7%positive] ++
    hs_easy_data_destroy (Some (settled 7 3 (Some (0, 200)) 0 true)) =
  [Ev_hs_try_putmvar 3 7%positive].
Proof.
  apply (easy_data_stable_ptr_linear (H := alloc_always) 7 3
    [Wake; Set_result (Some (0, 200)) 0; Wake; Set_result None 42; Wake]
    (fresh 7 3) _ eq_refl); reflexivity.
Defined.

End EasyData.

(** ** One-time initialisation of libcurl *)
Module GlobalInit.

(** [global_init_once] and [global_init_result]. *)
Record global := Mk { once_done : bool; global_init_result : Z }.
#[export] Instance global_eta : Eta global :=
  λ g, Mk (once_done g) (global_init_result g).

Definition initial : global := Mk false CURLE_FAILED_INIT.

Section init.
(** The answer of [curl_global_init(CURL_GLOBAL_DEFAULT)]. *)
Context (curl_global_init : Z).

Definition initialize_curl_global : M global () :=
  modify (λ g, g <| global_init_result := curl_global_init |>).

(** [uv_once] runs its function on the first call only. *)
Definition uv_once (f : M global ()) : M global () :=
  g ← gets once_done;
  if (g : bool) then mret () else f;; modify (λ g, g <| once_done := true |>).

Definition hcurl_global_init_once : M global Z :=
  uv_once initialize_curl_global;;
  gets global_init_result.
End init.

End GlobalInit.

(** ** Header overlays *)
Module Slist.

(** [struct curl_slist]: the string (without its terminator) and the link. *)
Record curl_slist := Node { data : option bytes; next : option ptr }.
#[export] Instance curl_slist_eta : Eta curl_slist := λ n, Node (data n) (next n).
Abbreviation heap := (gmap ptr curl_slist).

Definition ascii_lower (value : ascii) : ascii :=
  let n := N_of_ascii value in
  if bool_decide (65 ≤ n ≤ 90)%N then ascii_of_N (n + 32) else value.

(** The loop of [header_name_equal]; the end of the candidate's bytes is its
    terminator. *)
Fixpoint name_loop (candidate header : bytes) (name_length : nat) {struct name_length} : bool :=
  match name_length with
  | O => true
  | S n =>
      match candidate, header with
      | c :: candidate, h :: header =>
          if decide (ascii_lower c = ascii_lower h)
          then name_loop candidate header n else false
      | _, _ => false
      end
  end.

Definition header_name_equal (candidate header : option bytes) (name_length : nat) : bool :=
  match candidate, header with
  | Some c, Some h => name_loop c h name_length
  | _, _ => false
  end.

(** [strchr(s, ':')] as an offset. *)
Fixpoint strchr_colon (s : bytes) : option nat :=
  match s with
  | [] => None
  | c :: s => if decide (c = ":"%char) then Some O else S <$> strchr_colon s
  end.

(** The comparison is a case-insensitive prefix test. *)
Lemma name_loop_spec candidate header n :
  (n ≤ length header)%nat →
  name_loop candidate header n =
    bool_decide ((ascii_lower <$> take n header) `prefix_of` (ascii_lower <$> candidate)).
Proof.
  revert candidate header. induction n as [|n IH]; intros c h Hl.
  - rewrite bool_decide_eq_true_2; [done|]. apply prefix_nil.
  - destruct h as [|x h]; cbn in Hl; [lia|]. destruct c as [|y c]; cbn.
    + rewrite bool_decide_eq_false_2; [done|]. apply prefix_nil_not.
    + case_decide as E.
      * rewrite IH by lia. apply bool_decide_ext. rewrite E. split.
        -- apply prefix_cons.
        -- apply prefix_cons_inv_2.
      * rewrite bool_decide_eq_false_2; [done|]. intros Hp%prefix_cons_inv_1.
        congruence.
Qed.

Lemma strchr_colon_lt s n : strchr_colon s = Some n → (n < length s)%nat.
Proof.
  revert n. induction s as [|c s IH]; intros n; cbn; [done|].
  case_decide; [intros [= <-]; lia|].
  destruct (strchr_colon s); cbn; [|done]. intros [= <-].
  specialize (IH _ eq_refl). lia.
Qed.

Section overlay.
(** libcurl: [curl_slist_append(NULL, header)] and [curl_slist_free_all]. *)
Context (curl_slist_append : heap → bytes → option (ptr * heap)).
Context (curl_slist_free_all : heap → ptr → heap).

(** The scan of the borrowed list; [fuel] bounds its length. *)
Fixpoint scan (fuel : nat) (h : heap) (cursor : option ptr)
    (header : bytes) (name_length : nat) : option bool :=
  match cursor with
  | None => Some false
  | Some p =>
      match fuel, h !! p with
      | S fuel, Some node =>
          if header_name_equal (data node) (Some header) name_length then Some true
          else scan fuel h (next node) header name_length
      | _, _ => None
      end
  end.

(** The new head and memory; the outer [None] is undefined behaviour. *)
Definition hcurl_slist_overlay_header (h : heap) (borrowed : option ptr)
    (header : option bytes) : option (option ptr * heap) :=
  match header with
  | None => Some (None, h)
  | Some header =>
      match strchr_colon header with
      | None => Some (None, h)
      | Some colon =>
          let name_length := (colon + 1)%nat in
          found ← scan (S (size h)) h borrowed header name_length;
          if found : bool then Some (borrowed, h)
          else
            match curl_slist_append h header with
            | None => Some (None, h)
            | Some (prefix, h) =>
                node ← h !! prefix;
                Some (Some prefix, <[prefix := node <| next := borrowed |>]> h)
            end
      end
  end.

Definition hcurl_slist_free_overlay (h : heap) (head borrowed : option ptr) :
    option heap :=
  match head with
  | Some p =>
      if decide (head = borrowed) then Some h
      else
        node ← h !! p;
        Some (curl_slist_free_all (<[p := node <| next := None |>]> h) p)
  | None => Some h
  end.

(** Documented behaviour of libcurl: an append to NULL allocates one node
    that holds a copy of the string, or fails; freeing a one-node list frees
    that node. *)
Hypothesis append_spec : ∀ h s p h', curl_slist_append h s = Some (p, h') →
  h !! p = None ∧ h' = <[p := Node (Some s) None]> h.
Hypothesis free_all_spec : ∀ h p d, h !! p = Some (Node d None) →
  curl_slist_free_all h p = delete p h.

(** Some entry of the list starts with the first [n] bytes of [header], in
    any case. *)
Definition has_name (h : heap) (header : bytes) (n : nat) (l : list ptr) : bool :=
  existsb (λ p, match h !! p with
    | Some (Node (Some d) _) =>
        bool_decide ((ascii_lower <$> take n header) `prefix_of` (ascii_lower <$> d))
    | _ => false end) l.

Lemma scan_spec h p l header n fuel :
  (n ≤ length header)%nat → chain next h p l → (length l < fuel)%nat →
  scan fuel h p header n = Some (has_name h header n l).
Proof.
  intros Hn. revert p l. induction fuel as [|fuel IH]; intros p l Hc Hf; [lia|].
  destruct l as [|q l]; cbn in Hc; [by subst|].
  destruct Hc as (-> & [[d|] nx] & Hq & Hc); cbn; rewrite Hq; cbn.
  - rewrite name_loop_spec by done.
    case_bool_decide; [done|]. apply IH; [done|cbn in Hf; lia].
  - apply IH; [done|cbn in Hf; lia].
Qed.

(** C33: the overlay lends, it never owns.  When the borrowed list already has
  an entry with the header's name (compared without case, colon included) the
  list itself is returned and memory is untouched; otherwise one new node
  holding the header is put in front of the very same borrowed nodes.  Freeing
  the overlay gives the memory back exactly as it was in both cases. *)
Theorem overlay_roundtrip h borrowed l header colon :
  chain next h borrowed l → strchr_colon header = Some colon →
  ∃ head h', hcurl_slist_overlay_header h borrowed (Some header) = Some (head, h') ∧
    (if has_name h header (colon + 1) l then head = borrowed ∧ h' = h
     else head = None ∧ h' = h ∧ curl_slist_append h header = None ∨
       ∃ p, head = Some p ∧ h !! p = None ∧
         h' = <[p := Node (Some header) borrowed]> h ∧ chain next h' head (p :: l)) ∧
    hcurl_slist_free_overlay h' head borrowed = Some h.
Proof using append_spec free_all_spec.
  intros Hc Hs. unfold hcurl_slist_overlay_header. rewrite Hs.
  pose proof (strchr_colon_lt _ _ Hs) as Hlt.
  rewrite (scan_spec _ _ l) by
    (done || lia || (pose proof (chain_length _ _ _ _ Hc); lia)).
  cbn. destruct (has_name h header (colon + 1) l) eqn:Hn.
  - exists borrowed, h. split_and!; [done..|]. unfold hcurl_slist_free_overlay.
    destruct borrowed; [|done]. by rewrite decide_True.
  - destruct (curl_slist_append h header) as [[p h1]|] eqn:Ha.
    + destruct (append_spec _ _ _ _ Ha) as [Hp ->].
      assert (p ∉ l) as Hpl by (intros Hin; destruct (chain_live _ _ _ _ _ Hc Hin); congruence).
      cbn. rewrite lookup_insert_eq. cbn. rewrite insert_insert_eq.
      eexists _, _. split; [done|]. split.
      * right. exists p. do 3 (split; [done|]). by apply (chain_cons next h borrowed l).
      * cbn. rewrite decide_False.
        2:{ intros <-. destruct l as [|q l]; cbn in Hc; [done|].
            destruct Hc as ([= <-] & ? & ? & _). congruence. }
        rewrite lookup_insert_eq. cbn. rewrite insert_insert_eq.
        erewrite free_all_spec by apply lookup_insert_eq.
        by rewrite delete_insert_id.
    + eexists _, _. split; [done|]. by split; [left|].
Qed.
End overlay.

(** A memory allocator for nodes, for concrete runs. *)
Definition sample_append (h : heap) (s : bytes) : option (ptr * heap) :=
  let p := fresh (dom h) in Some (p, <[p := Node (Some s) None]> h).
Definition sample_free_all (h : heap) (p : ptr) : heap := delete p h.

Definition sample_heap : heap :=
  {[ 1%positive := Node (Some (String.list_ascii_of_string "X-A: 1")) (Some 2%positive);
     2%positive := Node (Some (String.list_ascii_of_string "X-B: 2")) None ]}.

Lemma overlay_roundtrip_witness :
  ∃ head h', hcurl_slist_overlay_header sample_append sample_heap (Some 1%positive)
      (Some (String.list_ascii_of_string "Expect:")) = Some (head, h') ∧
    head ≠ Some 1%positive ∧
    hcurl_slist_free_overlay sample_free_all h' head (Some 1%positive) = Some sample_heap.
Proof.
  destruct (overlay_roundtrip sample_append sample_free_all) with
    (h := sample_heap) (borrowed := Some 1%positive)
    (l := [1%positive; 2%positive]) (header := String.list_ascii_of_string "Expect:")
    (colon := 6%nat) as (head & h' & Hrun & Hhead & Hfree).
  - intros h s p h' [= <- <-]. split; [|done].
    apply not_elem_of_dom, is_fresh.
  - done.
  - repeat (split; [done|]; eexists; split; [reflexivity|]). done.
  - reflexivity.
  - exists head, h'. split; [exact Hrun|]. split; [|exact Hfree].
    cbn in Hhead. destruct Hhead as [(-> & _)|(p & -> & Hp & _)]; [done|].
    intros [= ->]. done.
Defined.

End Slist.
