(* ===== verification/Headers.v ===== *)
(** * Response header blocks ([cbits/headers.c])

    libcurl's header callback collects the lines of one response at a time; the
    last completed block is kept apart, trailers are appended to it, and a
    one-shot waiter is woken when a response is announced, or by the body or the end. *)

From S2P Require Import Prelude Extras.
Import Waker.

Open Scope Z_scope.
Open Scope record_scope.

(** ** Growing byte buffers ([reserve] and [append]) *)
Module Buffer.

(** The triple (pointer, length, capacity) the helpers work on. *)
Record buffer := Mk { block : bytes; size : Z; capacity : Z }.
#[export] Instance buffer_eta : Eta buffer :=
  λ b, Mk (block b) (size b) (capacity b).

Definition reserve `{Allocator} (required : Z) : M buffer bool :=
  b ← gets id;
  if bool_decide (required ≤ capacity b) then mret true
  else
    let grown := if bool_decide (0 < capacity b) then capacity b else 1 in
    grown ← defined (double_until 64 grown required);
    match realloc (block b) grown with
    | None => mret false
    | Some resized =>
        modify (λ b, b <| block := resized |> <| capacity := grown |>);;
        mret true
    end.

Definition append `{Allocator} (data : bytes) (data_length : Z) : M buffer bool :=
  b ← gets id;
  if bool_decide (u64 (SIZE_MAX - size b - 1) < data_length) then mret false
  else
    let required := u64 (size b + data_length + 1) in
    ok ← reserve required;
    if negb ok then mret false
    else
      b ← gets id;
      chunk ← defined (read_bytes data data_length);
      block1 ← defined (memcpy (block b) (size b) chunk);
      let length1 := u64 (size b + data_length) in
      block2 ← defined (memcpy block1 length1 [NUL]);
      modify (λ b, b <| block := block2 |> <| size := length1 |>);;
      mret true.

(** [length = 0; buffer[0] = '\0']. *)
Definition clear : M buffer () :=
  b ← gets id;
  block0 ← defined (memcpy (block b) 0 [NUL]);
  modify (λ b, b <| block := block0 |> <| size := 0 |>).

Definition text (b : buffer) : bytes := take (Z.to_nat (size b)) (block b).

Record wf (b : buffer) : Prop := {
  wf_block : Zlen (block b) = capacity b;
  wf_size : 0 ≤ size b < capacity b;
  wf_cap : capacity b ≤ SIZE_MAX;
  wf_nul : block b !! Z.to_nat (size b) = Some NUL
}.

Lemma buffer_text_length b : wf b → Zlen (text b) = size b.
Proof. intros []. unfold text. rewrite length_take. lia. Qed.

Lemma reserve_spec `{Allocator} b n :
  wf b → size b ≤ n ≤ SIZE_MAX →
  wp (reserve n) (λ ok b' es, es = [] ∧ wf b' ∧ text b' = text b ∧ size b' = size b ∧
    if ok : bool then n ≤ capacity b' else b' = b ∧ ∃ k, malloc k = None) b.
Proof.
  intros Hwf Hn. pose proof Hwf as [Hb Hs Hc Hz].
  unfold reserve. wp_step. wp_step. cbn [id]. wp_step; [by wp_steps|].
  rewrite bool_decide_true by lia.
  destruct (double_until_64 (capacity b) n) as (c & E & ? & ?); [lia..|].
  wp_step. eapply wp_defined; [exact E|]. cbn beta.
  destruct (realloc (block b) c) as [r|] eqn:Er.
  - destruct (realloc_ok (block b) c r ltac:(lia) Er) as [Hlr Htk]. wp_steps.
    assert (take (Z.to_nat (size b)) r = take (Z.to_nat (size b)) (block b)) as Ht
      by (rewrite <- Htk, take_take; f_equal; lia).
    assert (r !! Z.to_nat (size b) = block b !! Z.to_nat (size b)) as Hlk
      by (rewrite <- Htk, lookup_take_lt by lia; done).
    repeat split; cbn; try lia; [by rewrite Hlk|done].
  - wp_steps. do 5 (split; [done|]). exists c. unfold realloc in Er.
    by destruct (malloc c).
Qed.

(** A failed append leaves the buffer as it was; it fails only when the sum
    would not fit or the allocator gives up. *)
Lemma append_spec `{Allocator} b data :
  wf b → 0 ≤ Zlen data ≤ SIZE_MAX →
  wp (append data (Zlen data)) (λ ok b' es, es = [] ∧ wf b' ∧
    if ok : bool then text b' = text b ++ data
    else text b' = text b ∧
      (SIZE_MAX ≤ Zlen (text b) + Zlen data ∨ ∃ k, malloc k = None)) b.
Proof.
  intros Hwf Hd. pose proof Hwf as [Hb Hs Hc Hz]. pose proof (buffer_text_length _ Hwf) as Htl.
  unfold append. wp_step. wp_step. cbn [id].
  rewrite (u64_small (SIZE_MAX - size b - 1)) by lia.
  wp_step; [wp_steps; do 3 (split; [done|]); left; lia|].
  rewrite (u64_small (size b + Zlen data + 1)) by lia.
  wp_step. eapply wp_mono; [apply reserve_spec; [done|lia]|].
  intros [] b1 es (-> & Hwf1 & Ht1 & Hs1 & Hcap); cbn [negb].
  2:{ wp_steps. split; [done|]. split; [done|]. split; [done|]. right. by destruct Hcap. }
  pose proof Hwf1 as [Hb1 _ Hc1 _]. wp_step. wp_step. cbn [id].
  wp_step. eapply wp_defined; [apply read_bytes_all|]. cbn beta. rewrite Hs1.
  destruct (memcpy_ok (block b1) (size b) data) as (b2 & E2 & Hl2 & Ht2); [lia..|].
  destruct (memcpy_ok b2 (size b + Zlen data) [NUL]) as (b3 & E3 & Hl3 & Ht3);
    [lia|cbn; lia|].
  wp_step. eapply wp_defined; [exact E2|]. cbn beta.
  rewrite (u64_small (size b + Zlen data)) by lia.
  wp_step. eapply wp_defined; [exact E3|]. cbn beta. wp_steps.
  split; [done|]. split; [split; cbn; try lia|].
  - pose proof (memcpy_lookup _ _ _ _ 0 E3 ltac:(simpl; lia)) as Hk.
    by rewrite Nat.add_0_r in Hk.
  - unfold text at 1. cbn. rewrite (memcpy_take _ _ _ _ _ E3) by lia.
    replace (Z.to_nat (size b + _)) with (Z.to_nat (size b) + length data)%nat by lia.
    rewrite Ht2. f_equal. by rewrite <- Ht1, <- Hs1.
Qed.

Lemma clear_spec b :
  wf b → wp clear (λ _ b' es, es = [] ∧ wf b' ∧ text b' = [] ∧ capacity b' = capacity b) b.
Proof.
  intros [Hb Hs Hc Hz]. unfold clear. wp_step. wp_step. cbn [id].
  destruct (memcpy_ok (block b) 0 [NUL]) as (b1 & E1 & Hl1 & _); [done|cbn; lia|].
  wp_step. eapply wp_defined; [exact E1|]. cbn beta. wp_steps.
  split; [done|]. split; [|done]. split; cbn; try lia.
  by apply (memcpy_lookup _ 0 [NUL] _ 0) in E1; [|simpl; lia].
Qed.

End Buffer.

(** ** Parsing helpers *)
Module Lines.

(** [is_status_line(line, length)], on the bytes of the line. *)
Definition is_status_line (line : bytes) : bool :=
  bool_decide (5 ≤ Zlen line) &&
  bool_decide (take 5 line = String.list_ascii_of_string "HTTP/").

(** [memchr(line, ' ', length)]: the rest of the line from the first space. *)
Fixpoint memchr_space (line : bytes) : option bytes :=
  match line with
  | [] => None
  | c :: rest => if decide (c = " "%char) then Some line else memchr_space rest
  end.

(** [while (space < end && *space == ' ') ++space]. *)
Fixpoint skip_spaces (line : bytes) : bytes :=
  match line with
  | c :: rest => if decide (c = " "%char) then skip_spaces rest else line
  | [] => []
  end.

(** The digit loop: the value and how many digits were read (three at most). *)
Fixpoint digit_loop (line : bytes) (status digits : Z) : Z * Z :=
  match line with
  | c :: rest =>
      let n := Z.of_N (N_of_ascii c) in
      if bool_decide (48 ≤ n) && bool_decide (n ≤ 57) && bool_decide (digits < 3)
      then digit_loop rest (status * 10 + (n - 48)) (digits + 1)
      else (status, digits)
  | [] => (status, digits)
  end.

Definition parse_status (line : bytes) : Z :=
  match memchr_space line with
  | None => 0
  | Some space =>
      let '(status, digits) := digit_loop (skip_spaces space) 0 0 in
      if bool_decide (digits = 3) then status else 0
  end.

Definition CR : ascii := ascii_of_N 13.
Definition LF : ascii := ascii_of_N 10.

Definition is_blank_line (line : bytes) : bool :=
  bool_decide (line = [LF]) || bool_decide (line = [CR; LF]).

Definition ascii_lower (value : ascii) : ascii :=
  let n := N_of_ascii value in
  if bool_decide (65 ≤ n ≤ 90)%N then ascii_of_N (n + 32) else value.

(** The inner loop: [needle] matches at the front of [data]. *)
Fixpoint match_here (data needle : bytes) {struct needle} : bool :=
  match needle, data with
  | [], _ => true
  | n :: needle, d :: data =>
      if decide (ascii_lower d = ascii_lower n) then match_here data needle else false
  | _ :: _, [] => false
  end.

(** The outer loop, over the offsets [0 .. length - needle_length]. *)
Fixpoint search_from (count : nat) (data needle : bytes) : bool :=
  if match_here data needle then true
  else match count with
       | O => false
       | S count => search_from count (drop 1 data) needle
       end.

Definition contains_ascii_case_insensitive (data needle : bytes) : bool :=
  if bool_decide (needle = []) || bool_decide (Zlen data < Zlen needle) then false
  else search_from (length data - length needle) data needle.

(** *** What the helpers compute *)

Lemma digit_loop_bounds line status digits :
  0 ≤ digits ≤ 3 → 0 ≤ status < 10 ^ digits →
  let '(s, d) := digit_loop line status digits in 0 ≤ d ≤ 3 ∧ 0 ≤ s < 10 ^ d.
Proof.
  revert status digits. induction line as [|c line IH]; intros st d Hd Hs; cbn; [done|].
  case_bool_decide as H1; [|done]. case_bool_decide as H2; [|done].
  case_bool_decide as H3; [|done]. cbn. apply IH; [lia|].
  rewrite Z.pow_add_r, Z.pow_1_r by lia. lia.
Qed.

Lemma parse_status_bounds line : 0 ≤ parse_status line ≤ 999.
Proof.
  unfold parse_status. destruct (memchr_space line) as [sp|]; [|lia].
  pose proof (digit_loop_bounds (skip_spaces sp) 0 0 ltac:(lia) ltac:(lia)) as H.
  destruct (digit_loop _ _ _) as [s d]. case_bool_decide; [subst; lia|lia].
Qed.

(** The decimal digit of [d]. *)
Definition digit (d : Z) : ascii := ascii_of_N (Z.to_N (48 + d)).

Lemma digit_value d : 0 ≤ d ≤ 9 → Z.of_N (N_of_ascii (digit d)) = 48 + d.
Proof.
  intros Hd. unfold digit. rewrite N_ascii_embedding by lia. lia.
Qed.

Lemma memchr_space_app word rest :
  " "%char ∉ word → memchr_space (word ++ " "%char :: rest) = Some (" "%char :: rest).
Proof.
  induction word as [|c word IH]; intros Hw; cbn.
  - done.
  - rewrite decide_False by set_solver. apply IH. set_solver.
Qed.

Lemma match_here_spec data needle :
  match_here data needle =
    bool_decide ((ascii_lower <$> needle) `prefix_of` (ascii_lower <$> data)).
Proof.
  revert data. induction needle as [|n needle IH]; intros data; cbn.
  - rewrite bool_decide_eq_true_2; [done|]. apply prefix_nil.
  - destruct data as [|d data]; cbn.
    + rewrite bool_decide_eq_false_2; [done|]. apply prefix_nil_not.
    + case_decide as E.
      * rewrite IH. apply bool_decide_ext. rewrite E.
        split; [apply prefix_cons|apply prefix_cons_inv_2].
      * rewrite bool_decide_eq_false_2; [done|]. intros Hp%prefix_cons_inv_1.
        congruence.
Qed.

Lemma search_from_spec count data needle :
  search_from count data needle = true ↔
    ∃ k, (k ≤ count)%nat ∧
      (ascii_lower <$> needle) `prefix_of` (ascii_lower <$> drop k data).
Proof.
  revert data. induction count as [|count IH]; intros data; cbn;
    rewrite match_here_spec; case_bool_decide as H.
  - split; [|done]. intros _. exists 0%nat. split; [lia|by rewrite drop_0].
  - split; [done|]. intros (k & Hk & Hp). assert (k = 0)%nat as -> by lia.
    by rewrite drop_0 in Hp.
  - split; [|done]. intros _. exists 0%nat. split; [lia|by rewrite drop_0].
  - rewrite IH. split.
    + intros (k & Hk & Hp). exists (S k). split; [lia|]. by rewrite drop_drop in Hp.
    + intros ([|k] & Hk & Hp); [by rewrite drop_0 in Hp|].
      exists k. split; [lia|]. by rewrite drop_drop.
Qed.

(** C34: the status code of a status line is the three digits that follow the
    first run of spaces, whatever the protocol word before it and the bytes
    after it. *)
Theorem parse_status_line word n d1 d2 d3 rest :
  " "%char ∉ word → 0 ≤ d1 ≤ 9 → 0 ≤ d2 ≤ 9 → 0 ≤ d3 ≤ 9 →
  parse_status (word ++ " "%char :: replicate n " "%char ++
                digit d1 :: digit d2 :: digit d3 :: rest) =
    100 * d1 + 10 * d2 + d3.
Proof.
  intros Hw H1 H2 H3. unfold parse_status. rewrite memchr_space_app by done.
  assert (∀ d l, 0 ≤ d ≤ 9 → skip_spaces (digit d :: l) = digit d :: l) as Hd.
  { intros d l Hd. cbn. rewrite decide_False; [done|]. intros E.
    pose proof (digit_value d Hd) as Hv. rewrite E in Hv. cbn in Hv. lia. }
  cbn [skip_spaces]. rewrite decide_True by done.
  assert (skip_spaces (replicate n " "%char ++ digit d1 :: digit d2 :: digit d3 :: rest) =
    digit d1 :: digit d2 :: digit d3 :: rest) as ->.
  { induction n as [|n IH]; [by apply Hd|]. cbn. done. }
  cbn [digit_loop]. rewrite !digit_value by done.
  rewrite !(bool_decide_eq_true_2 (48 ≤ _)), !(bool_decide_eq_true_2 (_ ≤ 57)) by lia.
  cbn [andb]. rewrite !(bool_decide_eq_true_2 (_ < 3)) by lia.
  destruct rest as [|c rest]; cbn [digit_loop];
    [|rewrite (bool_decide_eq_false_2 (_ < 3)) by lia; rewrite andb_false_r];
    rewrite bool_decide_eq_true_2 by lia; lia.
Qed.

Lemma parse_status_line_witness :
  parse_status (String.list_ascii_of_string "HTTP/1.1  404 Not Found") = 404.
Proof.
  apply (parse_status_line (String.list_ascii_of_string "HTTP/1.1") 1 4 0 4
    (String.list_ascii_of_string " Not Found")); [|lia..].
  rewrite list_elem_of_In. cbn. intuition discriminate.
Defined.

(** Some segment of [data] is [needle], up to ASCII case. *)
Definition occurs (needle data : bytes) : Prop :=
  ∃ pre mid post, data = pre ++ mid ++ post ∧ ascii_lower <$> mid = ascii_lower <$> needle.

Lemma contains_occurs data needle :
  contains_ascii_case_insensitive data needle = true ↔ needle ≠ [] ∧ occurs needle data.
Proof.
  unfold contains_ascii_case_insensitive.
  case_bool_decide as Hn; [subst; cbn; split; [done|by intros [? _]]|].
  assert (∀ pre mid post, data = pre ++ mid ++ post →
    ascii_lower <$> mid = ascii_lower <$> needle →
    length data = (length pre + length needle + length post)%nat) as Hlen.
  { intros pre mid post -> Hm%(f_equal length). rewrite !length_fmap in Hm.
    rewrite !length_app. lia. }
  case_bool_decide as Hl; cbn.
  { split; [done|]. intros (_ & pre & mid & post & Hd & Hm).
    specialize (Hlen _ _ _ Hd Hm). lia. }
  rewrite search_from_spec. split.
  - intros (k & Hk & post & Hp). split; [done|].
    exists (take k data), (take (length needle) (drop k data)),
      (drop (length needle) (drop k data)). split; [by rewrite !take_drop|].
    rewrite fmap_take, Hp, take_app_length'; [done|]. by rewrite length_fmap.
  - intros (_ & pre & mid & post & Hd & Hm). exists (length pre).
    specialize (Hlen _ _ _ Hd Hm). split; [lia|].
    exists (ascii_lower <$> post). rewrite Hd, drop_app_length, fmap_app. by rewrite Hm.
Qed.

(** C35: the substring test is the mathematical one: some segment of the data
    equals the needle up to ASCII case. *)
Theorem contains_ascii_spec data needle :
  contains_ascii_case_insensitive data needle = true ↔
    needle ≠ [] ∧ ∃ pre mid post, data = pre ++ mid ++ post ∧
      ascii_lower <$> mid = ascii_lower <$> needle.
Proof. apply contains_occurs. Qed.

End Lines.

(** ** The header record *)
Module HeaderData.
Import Buffer Lines.

(** [struct header_data_s]; the mutex is the atomicity of [locked]. *)
Record header_data := Mk {
  current : buffer;
  completed : buffer;
  current_status : Z;
  completed_status : Z;
  in_block : bool;
  ready : bool;
  response_available : bool;
  transfer_completed : bool;
  terminal_code : Z;
  waiter_present : bool;
  waiter : hs_waker
}.

#[export] Instance header_data_eta : Eta header_data := λ h,
  Mk (current h) (completed h) (current_status h) (completed_status h) (in_block h)
     (ready h) (response_available h) (transfer_completed h) (terminal_code h)
     (waiter_present h) (waiter h).

Definition sizeof_header_data : Z := 168.

(** [uv_mutex_init] is libuv's answer. *)
Definition header_data_create `{Allocator} (uv_mutex_init : Z) (initial_capacity : Z) :
    option (option header_data) :=
  let capacity := if bool_decide (0 < initial_capacity) then initial_capacity else 1 in
  match malloc sizeof_header_data with
  | None => Some None
  | Some _ =>
      match malloc capacity, malloc capacity with
      | Some cur, Some comp =>
          if bool_decide (uv_mutex_init ≠ 0) then Some None
          else
            cur ← memcpy cur 0 [NUL];
            comp ← memcpy comp 0 [NUL];
            Some (Some (Mk (Buffer.Mk cur 0 capacity) (Buffer.Mk comp 0 capacity)
                           0 0 false false false false CURLE_OK false Waker.zero))
      | _, _ => Some None
      end
  end.

(** [if (headers->waiter_present) { waiter = headers->waiter; ... }]: the waiter
    to wake once the lock is released. *)
Definition take_waiter : M header_data (option hs_waker) :=
  h ← gets id;
  if waiter_present h then
    modify (λ h, h <| waiter_present := false |>);;
    mret (Some (waiter h))
  else mret None.

Definition wake_taken {S} (w : option hs_waker) : M S () :=
  match w with Some w => wake_copy w | None => mret () end.

(** The object is freed afterwards. *)
Definition free_header_data : M (option header_data) () :=
  unless_null ()
    (w ← locked take_waiter;
     wake_taken w).

(** Whether a completed block is published at once: not an informational, a
    redirect, an authentication or a proxy [CONNECT] block. *)
Definition publish_early (status : Z) (completed : bytes) : bool :=
  let proxy_connect :=
    bool_decide (status = 200) &&
    contains_ascii_case_insensitive completed
      (String.list_ascii_of_string "connection established") in
  (bool_decide (status = 101) || bool_decide (200 ≤ status))
  && negb (bool_decide (300 ≤ status) && bool_decide (status < 400))
  && bool_decide (status ≠ 401) && bool_decide (status ≠ 407)
  && negb proxy_connect.

(** The blank line that ends a block: the finished block becomes [completed],
    and the old one is the next [current]. *)
Definition finish_block : M header_data (option hs_waker) :=
  h ← gets id;
  modify (λ h, h <| completed := current h |>
                 <| completed_status := current_status h |>
                 <| current := completed h |>);;
  on_field current clear;;
  modify (λ h, h <| in_block := false |>);;
  h ← gets id;
  let status := completed_status h in
  if publish_early status (text (completed h)) then
    modify (λ h, h <| response_available := true |> <| ready := true |>);;
    take_waiter
  else mret None.

(** A status line starts a new block. *)
Definition begin_block (line : bytes) : M header_data () :=
  if is_status_line line then
    on_field current clear;;
    modify (λ h, h <| current_status := parse_status line |> <| in_block := true |>)
  else mret ().

(** The line is stored in the open block, or after the completed one as a
    trailer: whether there was room, and the waiter to wake. *)
Definition collect_line `{Allocator} (line : bytes) (total : Z) :
    M header_data (bool * option hs_waker) :=
  h ← gets id;
  if in_block h then
    success ← on_field current (append line total);
    if success && is_blank_line line then
      w ← finish_block;
      mret (true, w)
    else mret (success, None)
  else if bool_decide (0 < Buffer.size (completed h)) then
    success ← on_field completed (append line total);
    mret (success, None)
  else mret (true, None).

Definition header_callback `{Allocator} (buffer : bytes) (size nitems : Z) :
    M (option header_data) Z :=
  unless_null 0
    (if bool_decide (size ≠ 0 ∧ SIZE_MAX / size < nitems) then mret 0 else
     let total := u64 (size * nitems) in
     if bool_decide (total = 0) then mret 0 else
     line ← defined (read_bytes buffer total);
     out ← locked (begin_block line;; collect_line line total);
     let '(success, w) := out in
     wake_taken w;;
     mret (if success : bool then total else 0)).

Record snapshot := Snapshot {
  sn_buffer : bytes;
  sn_length : Z;
  sn_status_code : Z;
  sn_terminal_before_response : Z;
  sn_terminal_code : Z
}.

(** The out-parameters are all given, as the Haskell caller does; [None] is the
    result [false]. *)
Definition header_data_snapshot `{Allocator} : M (option header_data) (option snapshot) :=
  unless_null None
    (locked (
       h ← gets id;
       let snapshot_length := Buffer.size (completed h) in
       match malloc (u64 (snapshot_length + 1)) with
       | None => mret None
       | Some blk =>
           data ← defined (read_bytes (block (completed h)) snapshot_length);
           blk ← defined (memcpy blk 0 data);
           blk ← defined (memcpy blk snapshot_length [NUL]);
           mret (Some (Snapshot blk snapshot_length (completed_status h)
             (if transfer_completed h && negb (response_available h) then 1 else 0)
             (terminal_code h)))
       end)).

Inductive header_wait_result := HEADER_WAIT_REGISTERED | HEADER_WAIT_READY | HEADER_WAIT_INVALID.
#[export] Instance header_wait_result_eq_dec : EqDecision header_wait_result.
Proof. solve_decision. Defined.

Definition header_data_wait (mvar : option ptr) (capability : Z) :
    M (option header_data) header_wait_result :=
  unless_null HEADER_WAIT_INVALID
    (match mvar with
     | None => mret HEADER_WAIT_INVALID
     | Some _ => locked (
         h ← gets id;
         if ready h then mret HEADER_WAIT_READY
         else if waiter_present h then mret HEADER_WAIT_INVALID
         else
           modify (λ h, h <| waiter := Waker.Mk mvar capability false |>
                          <| waiter_present := true |>);;
           mret HEADER_WAIT_REGISTERED)
     end).

Definition header_data_cancel_wait (mvar : option ptr) : M (option header_data) bool :=
  unless_null false
    (match mvar with
     | None => mret false
     | Some _ => locked (
         h ← gets id;
         if waiter_present h && bool_decide (Waker.mvar (waiter h) = mvar) then
           modify (λ h, h <| waiter_present := false |>
                          <| waiter ::= λ w, w <| Waker.mvar := None |> |>);;
           mret true
         else mret false)
     end).

Definition mark_ready (available : bool) : M (option header_data) () :=
  unless_null ()
    (w ← locked (
       modify (λ h,
         if available && bool_decide (completed_status h ≠ 0)
         then h <| response_available := true |> else h);;
       modify (λ h, h <| ready := true |>);;
       take_waiter);
     wake_taken w).

Definition header_data_mark_body_started : M (option header_data) () := mark_ready true.

Definition header_data_mark_complete (code : Z) : M (option header_data) () :=
  unless_null ()
    (w ← locked (
       modify (λ h, h <| transfer_completed := true |> <| terminal_code := code |>
                      <| ready := true |>);;
       take_waiter);
     wake_taken w).

(** ** The invariant *)

(** Both buffers are well formed, statuses have three digits, and a waiter is
    registered only while nothing is ready, with a pointer not consumed yet. *)
Record wf (h : header_data) : Prop := {
  wf_current : Buffer.wf (current h);
  wf_completed : Buffer.wf (completed h);
  wf_current_status : 0 ≤ current_status h ≤ 999;
  wf_completed_status : 0 ≤ completed_status h ≤ 999;
  wf_waiter : waiter_present h = true →
    ready h = false ∧ ∃ p cap, waiter h = Waker.Mk (Some p) cap false;
  wf_idle : in_block h = false → text (current h) = []
}.

(** ** The abstract header parser *)

(** The block being collected with its status, the last completed block with
    its trailers, and whether a response was published. *)
Record blocks := Blocks {
  open_block : option (Z * bytes);
  done_block : bytes;
  done_status : Z;
  published : bool
}.

Definition spec_line (line : bytes) (b : blocks) : blocks :=
  let cur := if is_status_line line then Some (parse_status line, []) else open_block b in
  match cur with
  | Some (status, acc) =>
      if is_blank_line line then
        Blocks None (acc ++ line) status
          (published b || publish_early status (acc ++ line))
      else Blocks (Some (status, acc ++ line)) (done_block b) (done_status b) (published b)
  | None =>
      Blocks None (if decide (done_block b = []) then [] else done_block b ++ line)
        (done_status b) (published b)
  end.

Definition abs (h : header_data) : blocks :=
  Blocks (if in_block h then Some (current_status h, text (current h)) else None)
    (text (completed h)) (completed_status h) (response_available h).

(** The wake-up owed to a registered waiter. *)
Definition pending_event (h : header_data) : list event :=
  if waiter_present h then
    match Waker.mvar (waiter h) with
    | Some p => [Ev_hs_try_putmvar (capability (waiter h)) p]
    | None => []
    end
  else [].

Definition taken (h : header_data) : option hs_waker :=
  if waiter_present h then Some (waiter h) else None.

Lemma take_waiter_eq h :
  take_waiter h = Some (taken h, h <| waiter_present := false |>, []).
Proof.
  unfold take_waiter, taken. run_m. destruct h; cbn. by destruct waiter_present0.
Qed.

Lemma wake_taken_eq {S} h (s : S) :
  (waiter_present h = true → ∃ p cap, waiter h = Waker.Mk (Some p) cap false) →
  wake_taken (taken h) s = Some ((), s, pending_event h).
Proof.
  unfold taken, pending_event. destruct (waiter_present h); [|done].
  intros [p [cap Hw]]; [done|]. rewrite Hw. cbn. by rewrite wake_copy_eq.
Qed.

Lemma wp_wake_taken {S} h (s : S) Q :
  (waiter_present h = true → ∃ p cap, waiter h = Waker.Mk (Some p) cap false) →
  Q () s (pending_event h) → wp (wake_taken (taken h)) Q s.
Proof. intros Hw HQ. unfold wp. by rewrite wake_taken_eq. Qed.

Lemma wp_take_waiter h Q :
  Q (taken h) (h <| waiter_present := false |>) [] → wp take_waiter Q h.
Proof. intros HQ. unfold wp. by rewrite take_waiter_eq. Qed.

(** The end of a block, seen from the abstract parser. *)
Lemma finish_block_spec h :
  wf h → wp finish_block (λ w h' es, es = [] ∧ wf h' ∧
    abs h' = Blocks None (text (current h)) (current_status h)
      (response_available h || publish_early (current_status h) (text (current h))) ∧
    transfer_completed h' = transfer_completed h ∧
    terminal_code h' = terminal_code h ∧
    if publish_early (current_status h) (text (current h)) then
      w = taken h ∧ waiter_present h' = false ∧ ready h' = true
    else w = None ∧ waiter_present h' = waiter_present h ∧ waiter h' = waiter h ∧
      ready h' = ready h) h.
Proof.
  intros [Hc Hd Hcs Hds Hw Hi]. unfold finish_block. wp_step. wp_step. wp_step. wp_step.
  cbn [id]. wp_step. apply wp_on_field. eapply wp_mono; [by apply clear_spec|].
  intros [] b es (-> & Hb & Htx & _). wp_step. wp_step. wp_step. wp_step. cbn [id].
  cbn. destruct (publish_early _ _) eqn:Hp.
  - wp_step. wp_step. apply wp_take_waiter. cbn.
    split; [done|]. split; [by split; cbn|]. rewrite orb_true_r. unfold abs. by cbn.
  - wp_steps. cbn. split; [done|]. split; [by split; cbn|].
    rewrite orb_false_r. unfold abs. by cbn.
Qed.

(** A status line empties [current] and opens a block. *)
Lemma begin_block_spec h line :
  wf h →
  wp (begin_block line) (λ _ h' es, es = [] ∧ wf h' ∧
    ∃ c, text c = [] ∧
      h' = if is_status_line line
           then h <| current := c |> <| current_status := parse_status line |>
                  <| in_block := true |>
           else h) h.
Proof.
  intros Hwf. pose proof Hwf as [Hc Hd Hcs Hds Hw Hi]. unfold begin_block. wp_step.
  - wp_step. apply wp_on_field. eapply wp_mono; [by apply clear_spec|].
    intros [] c es (-> & Hb & Htx & _). wp_steps. cbn. split; [done|].
    split; [split; cbn; auto using parse_status_bounds|]. by exists c.
  - wp_steps. split; [done|]. split; [done|]. by exists (Buffer.Mk [] 0 0).
Qed.

(** What became of the waiter and of readiness: untouched, or published. *)
Definition wake_outcome (h h1 : header_data) (es : list event) : Prop :=
  ready h1 = ready h ∧ response_available h1 = response_available h ∧
    waiter_present h1 = waiter_present h ∧ waiter h1 = waiter h ∧ es = [] ∨
  ready h1 = true ∧ response_available h1 = true ∧ waiter_present h1 = false ∧
    es = pending_event h.

(** The allocator or the size limit refused [line]. *)
Definition refusal `{Allocator} (h : header_data) (line : bytes) : Prop :=
  (∃ k, malloc k = None) ∨ SIZE_MAX ≤ Zlen (text (current h)) + Zlen line ∨
  SIZE_MAX ≤ Zlen (text (completed h)) + Zlen line.

Lemma collect_line_spec `{Allocator} h line :
  wf h → 0 < Zlen line ≤ SIZE_MAX →
  (is_status_line line = true → in_block h = true ∧ text (current h) = [] ∧
     current_status h = parse_status line) →
  wp (collect_line line (Zlen line)) (λ '(ok, w) h1 es, es = [] ∧ wf h1 ∧
    transfer_completed h1 = transfer_completed h ∧ terminal_code h1 = terminal_code h ∧
    (ready h1 = ready h ∧ response_available h1 = response_available h ∧
       waiter_present h1 = waiter_present h ∧ waiter h1 = waiter h ∧ w = None ∨
     ready h1 = true ∧ response_available h1 = true ∧ waiter_present h1 = false ∧
       w = taken h) ∧
    if ok : bool then abs h1 = spec_line line (abs h)
    else done_block (abs h1) = done_block (abs h) ∧
      done_status (abs h1) = done_status (abs h) ∧
      published (abs h1) = published (abs h) ∧ refusal h line) h.
Proof.
  intros Hwf Hl Hst. pose proof Hwf as [Hc Hd Hcs Hds Hw Hi]. unfold collect_line.
  assert (in_block h = true → spec_line line (abs h) =
    if is_blank_line line then Blocks None (text (current h) ++ line) (current_status h)
      (response_available h || publish_early (current_status h) (text (current h) ++ line))
    else Blocks (Some (current_status h, text (current h) ++ line)) (text (completed h))
      (completed_status h) (response_available h)) as Hspec.
  { intros Hin. unfold spec_line, abs. cbn. destruct (is_status_line line).
    - destruct Hst as (_ & -> & ->); done.
    - by rewrite Hin. }
  wp_step. wp_step. cbn [id]. wp_step; rename Heqb into Hin.
  - wp_step. apply wp_on_field. eapply wp_mono; [apply append_spec; [done|lia]|].
    intros [] c es (-> & Hwc & Htx); cbn [andb].
    + wp_step; rename Heqb into Hbl.
      * wp_step. eapply wp_mono; [apply finish_block_spec; split; cbn; (done || congruence || auto)|].
        intros w h1 es (-> & Hwf1 & Habs & Htc & Hco & Hpub). wp_steps.
        cbn in Htc, Hco, Habs, Hpub. split; [done|]. do 3 (split; [done|]).
        rewrite Hspec by done. rewrite Htx in *. split; [|done].
        destruct (publish_early _ _).
        -- right. destruct Hpub as (-> & ? & ?). split; [done|]. split; [|done].
           apply (f_equal published) in Habs. cbn in Habs. by rewrite orb_true_r in Habs.
        -- left. destruct Hpub as (-> & ? & ? & ?). apply (f_equal published) in Habs.
           cbn in Habs. by rewrite orb_false_r in Habs.
      * wp_steps. cbn. split; [done|]. split; [split; cbn; (done || congruence || auto)|]. do 2 (split; [done|]).
        split; [by left|]. rewrite Hspec by done.
        unfold abs. cbn. by rewrite Hin, Htx.
    + wp_steps. cbn. split; [done|]. split; [split; cbn; (done || congruence || auto)|]. do 2 (split; [done|]).
      split; [by left|]. do 3 (split; [done|]). unfold refusal. tauto.
  - assert (is_status_line line = false) as Hns.
    { destruct (is_status_line line); [|done]. destruct Hst; congruence. }
    assert (spec_line line (abs h) = Blocks None (if decide (text (completed h) = []) then []
       else text (completed h) ++ line) (completed_status h) (response_available h)) as Hsp.
    { unfold spec_line, abs. cbn. by rewrite Hns, Hin. }
    pose proof (buffer_text_length _ Hd) as Htl. wp_step.
    + wp_step. apply wp_on_field. eapply wp_mono; [apply append_spec; [done|lia]|].
      intros [] c es (-> & Hwc & Htx); wp_steps; cbn; (split; [done|]);
        (split; [split; cbn; (done || congruence || auto)|]); do 2 (split; [done|]); (split; [by left|]).
      * rewrite Hsp, decide_False by (intros E; rewrite E in Htl; cbn in Htl; lia).
        unfold abs. cbn. by rewrite Hin, Htx.
      * destruct Htx as [Htx ?]. rewrite Htx. do 3 (split; [done|]). unfold refusal. tauto.
    + wp_steps. split; [done|]. do 3 (split; [done|]). split; [by left|].
      assert (text (completed h) = []) as E.
      { apply nil_length_inv. destruct Hd. lia. }
      rewrite Hsp, E, decide_True by done. unfold abs. by rewrite Hin, E.
Qed.

(** The header callback on a live record, for one header line. *)
Lemma header_callback_spec `{Allocator} h line size nitems :
  wf h → 0 ≤ size → 0 ≤ nitems → Zlen line = size * nitems → 0 < Zlen line ≤ SIZE_MAX →
  wp (header_callback line size nitems) (λ r h' es, ∃ h1, h' = Some h1 ∧ wf h1 ∧
    transfer_completed h1 = transfer_completed h ∧ terminal_code h1 = terminal_code h ∧
    wake_outcome h h1 es ∧
    (r = Zlen line ∧ abs h1 = spec_line line (abs h) ∨
     r = 0 ∧ done_block (abs h1) = done_block (abs h) ∧
       done_status (abs h1) = done_status (abs h) ∧
       published (abs h1) = published (abs h) ∧ refusal h line)) (Some h).
Proof.
  intros Hwf Hsz Hni Hl Hr. unfold header_callback. apply wp_unless_null.
  rewrite bool_decide_false by (rewrite mul_overflow_guard; lia).
  rewrite <- Hl, (u64_small (Zlen line)) by lia. rewrite bool_decide_false by lia.
  wp_step. eapply wp_defined; [apply read_bytes_all|]. cbn beta.
  wp_step. unfold locked. wp_step. eapply wp_mono; [by apply begin_block_spec|].
  intros [] h0 es (-> & Hwf0 & c & Hc & ->).
  set (h0 := if is_status_line line then _ else h) in *.
  assert (transfer_completed h0 = transfer_completed h ∧
    terminal_code h0 = terminal_code h ∧ ready h0 = ready h ∧
    waiter_present h0 = waiter_present h ∧ waiter h0 = waiter h ∧
    response_available h0 = response_available h ∧ completed h0 = completed h ∧
    completed_status h0 = completed_status h ∧
    (text (current h0) = text (current h) ∨ text (current h0) = []) ∧
    spec_line line (abs h0) = spec_line line (abs h)) as
    (E1 & E2 & E3 & E4 & E5 & E6 & E7 & E8 & E9 & E10).
  { unfold h0, spec_line, abs. destruct (is_status_line line); cbn; rewrite ?Hc; tauto. }
  eapply wp_mono.
  { apply collect_line_spec; [done|done|]. intros Hst. unfold h0. by rewrite Hst. }
  intros [ok w] h1 es (-> & Hwf1 & Htc & Hco & Hwake & Hok). cbn beta iota. wp_step.
  assert (wp (wake_taken w) (λ _ h2 es, h2 = h1 ∧ wake_outcome h h1 es) h1) as Hwp.
  { destruct Hwake as [(? & ? & ? & ? & ->)|(? & ? & ? & ->)].
    - apply wp_ret. split; [done|]. left. split_and!; congruence.
    - unfold taken. rewrite E4, E5. fold (taken h). apply wp_wake_taken.
      + intros Hp. by apply (wf_waiter _ Hwf).
      + split; [done|]. by right. }
  eapply wp_mono; [exact Hwp|]. intros [] h2 es [-> Hout]. wp_steps. exists h1.
  split; [done|]. split; [done|]. do 2 (split; [congruence|]).
  rewrite !app_nil_r, app_nil_l. split; [done|]. destruct ok.
  - left. split; [done|]. congruence.
  - right. split; [done|]. destruct Hok as (D1 & D2 & D3 & Href).
    unfold abs in D1, D2, D3. cbn in D1, D2, D3. unfold abs. cbn.
    rewrite D1, D2, D3, E6, E7, E8. do 3 (split; [done|]).
    unfold refusal in *. rewrite E7 in Href. destruct E9 as [E9|E9]; rewrite E9 in Href;
      [done|]. destruct Href as [?|[Hz|?]]; [by left|right; left; cbn in Hz; lia|tauto].
Qed.


(** ** Deliveries *)

Lemma headers_create_wf `{Allocator} mutex cap :
  (∀ k, is_Some (malloc k)) → mutex = 0 → cap ≤ SIZE_MAX →
  ∃ h, header_data_create mutex cap = Some (Some h) ∧ wf h ∧
    abs h = Blocks None [] 0 false ∧ pending_event h = [] ∧ waiter_present h = false ∧
    ready h = false ∧ transfer_completed h = false ∧ terminal_code h = CURLE_OK.
Proof.
  intros Hm -> Hc. unfold header_data_create.
  destruct (malloc sizeof_header_data) eqn:E0; [|destruct (Hm sizeof_header_data); congruence].
  set (c := if bool_decide (0 < cap) then cap else 1).
  assert (0 < c ≤ SIZE_MAX) as Hcap by (unfold c; case_bool_decide; lia).
  destruct (malloc c) as [blk|] eqn:E1; [|destruct (Hm c); congruence].
  apply malloc_length in E1; [|lia]. rewrite bool_decide_false by lia.
  destruct (memcpy_ok blk 0 [NUL]) as (b1 & E2 & Hl1 & _); [done|cbn; lia|].
  rewrite E2. cbn. eexists. split; [done|].
  assert (Buffer.wf (Buffer.Mk b1 0 c)) as Hb.
  { split; cbn; [lia..|]. by apply (memcpy_lookup _ 0 [NUL] _ 0) in E2; [|simpl; lia]. }
  split; [by split|]. by unfold abs.
Qed.

Lemma wake_outcome_trans h h1 h2 es1 es2 :
  wake_outcome h h1 es1 → wake_outcome h1 h2 es2 → wake_outcome h h2 (es1 ++ es2).
Proof.
  intros [(H1 & H2 & H3 & H4 & ->)|(H1 & H2 & H3 & ->)]
         [(G1 & G2 & G3 & G4 & ->)|(G1 & G2 & G3 & ->)].
  - left. split_and!; congruence || done.
  - right. split_and!; [done..|]. unfold pending_event. by rewrite H3, H4.
  - right. rewrite app_nil_r. split_and!; congruence.
  - right. split_and!; [done..|]. unfold pending_event at 2. by rewrite H3, app_nil_r.
Qed.

(** libcurl delivers complete lines and aborts at the first short result. *)
Fixpoint deliver_lines `{Allocator} (lines : list bytes) : M (option header_data) bool :=
  match lines with
  | [] => mret true
  | line :: lines =>
      r ← header_callback line 1 (Zlen line);
      if bool_decide (r = Zlen line) then deliver_lines lines else mret false
  end.

(** Neither block is longer than [n]. *)
Definition within (n : Z) (b : blocks) : Prop :=
  Zlen (from_option snd [] (open_block b)) ≤ n ∧ Zlen (done_block b) ≤ n.

Lemma spec_line_within n line b : within n b → within (n + Zlen line) (spec_line line b).
Proof.
  destruct b as [cur done st pub]. unfold within, spec_line. cbn. intros [H1 H2].
  set (c := if is_status_line line then _ else cur).
  assert (Zlen (from_option snd [] c) ≤ n) as Hc.
  { unfold c. destruct (is_status_line line); cbn; lia. }
  destruct c as [[s acc]|]; cbn in *.
  - destruct (is_blank_line line); cbn; rewrite length_app; lia.
  - case_decide; subst; cbn; [lia|]. rewrite length_app. lia.
Qed.

Lemma within_refusal `{Allocator} n h line :
  (∀ k, is_Some (malloc k)) → within n (abs h) → (in_block h = false → text (current h) = []) →
  n + Zlen line < SIZE_MAX → ¬ refusal h line.
Proof.
  intros Hm [H1 H2] Hc Hn. unfold abs in *. cbn in *.
  intros [[k Hk]|[Hr|Hr]]; [destruct (Hm k); congruence| |lia].
  destruct (in_block h); [cbn in H1; lia|]. rewrite Hc in Hr by done. cbn in Hr. lia.
Qed.


(** With an allocator that does not fail and lines that fit memory, a delivery
    is the abstract parser run over the lines, and the waiter is woken at most
    once, when something is published. *)
Lemma deliver_lines_spec `{Allocator} lines n h :
  (∀ k, is_Some (malloc k)) → wf h → within n (abs h) → 0 ≤ n →
  Forall (λ l, l ≠ []) lines → n + Zlen (concat lines) < SIZE_MAX →
  wp (deliver_lines lines) (λ ok h' es, ∃ h1, h' = Some h1 ∧ wf h1 ∧ ok = true ∧
    transfer_completed h1 = transfer_completed h ∧ terminal_code h1 = terminal_code h ∧
    abs h1 = foldl (flip spec_line) (abs h) lines ∧
    within (n + Zlen (concat lines)) (abs h1) ∧
    wake_outcome h h1 es) (Some h).
Proof.
  intros Hm Hwf Hn Hn0 Hne. revert n h Hwf Hn Hn0.
  induction Hne as [|line lines Hne _ IH]; intros n h Hwf Hn Hn0 Hs; cbn in *.
  - wp_steps. exists h. rewrite Z.add_0_r. do 7 (split; [done|]). by left.
  - rewrite length_app in Hs.
    assert (0 < Zlen line) by (destruct line; [done|cbn; lia]).
    wp_step. eapply wp_mono; [apply (header_callback_spec h line 1); [done|lia..]|].
    intros r h' es (h1 & -> & Hwf1 & Htc & Hco & Hw1 & Hr).
    destruct Hr as [[-> Habs]|(_ & _ & _ & _ & Href)].
    2:{ exfalso. by apply (within_refusal n h line); [done|done|apply Hwf|lia|]. }
    rewrite bool_decide_true by done.
    eapply wp_mono; [apply (IH (n + Zlen line)); [done| |lia|lia]|].
    { rewrite Habs. by apply spec_line_within. }
    intros ok h'' es2 (h2 & -> & Hwf2 & -> & Htc2 & Hco2 & Habs2 & Hn2 & Hw2).
    exists h2. do 3 (split; [done|]). do 2 (split; [congruence|]).
    split; [by rewrite Habs2, Habs|]. rewrite length_app, Nat2Z.inj_add, Z.add_assoc.
    split; [done|]. by eapply wake_outcome_trans.
Qed.

(** One response as the server sends it: a status line, header fields and the
    blank line. *)
Record response := Response { status_line : bytes; fields : list bytes; blank : bytes }.

Definition response_lines (r : response) : list bytes :=
  status_line r :: fields r ++ [blank r].

Definition plain (l : bytes) : Prop :=
  l ≠ [] ∧ is_status_line l = false ∧ is_blank_line l = false.

Record response_ok (r : response) : Prop := {
  ok_status : is_status_line (status_line r) = true;
  ok_fields : Forall plain (fields r);
  ok_blank : is_blank_line (blank r) = true
}.

Lemma blank_not_status l : is_blank_line l = true → is_status_line l = false ∧ l ≠ [].
Proof.
  unfold is_blank_line, is_status_line. rewrite orb_true_iff, !bool_decide_eq_true.
  by intros [->| ->].
Qed.

Lemma status_not_blank l : is_status_line l = true → is_blank_line l = false ∧ l ≠ [].
Proof.
  intros Hs. split.
  - destruct (is_blank_line l) eqn:E; [|done].
    destruct (blank_not_status _ E). congruence.
  - by intros ->.
Qed.

Lemma spec_fields b st acc fs :
  Forall plain fs → open_block b = Some (st, acc) →
  foldl (flip spec_line) b fs =
    Blocks (Some (st, acc ++ concat fs)) (done_block b) (done_status b) (published b).
Proof.
  intros Hf. revert b acc. induction Hf as [|f fs (_ & Hs & Hb) _ IH]; intros b acc Ho;
    cbn [foldl concat].
  - rewrite app_nil_r, <- Ho. by destruct b.
  - assert (flip spec_line b f = Blocks (Some (st, acc ++ f)) (done_block b)
      (done_status b) (published b)) as ->.
    { unfold flip, spec_line. by rewrite Hs, Ho, Hb. }
    rewrite (IH _ (acc ++ f)) by done. cbn. by rewrite app_assoc.
Qed.

(** A whole response replaces the completed block. *)
Lemma spec_response b r :
  response_ok r →
  foldl (flip spec_line) b (response_lines r) =
    Blocks None (concat (response_lines r)) (parse_status (status_line r))
      (published b || publish_early (parse_status (status_line r))
                                    (concat (response_lines r))).
Proof.
  intros [Hs Hf Hb]. unfold response_lines. cbn [foldl].
  destruct (status_not_blank _ Hs) as [Hsb _]. destruct (blank_not_status _ Hb) as [Hbs _].
  rewrite foldl_app.
  assert (flip spec_line b (status_line r) = Blocks
    (Some (parse_status (status_line r), status_line r)) (done_block b) (done_status b)
    (published b)) as ->.
  { unfold flip, spec_line. by rewrite Hs, Hsb. }
  rewrite (spec_fields _ (parse_status (status_line r)) (status_line r) (fields r)) by done.
  cbn [foldl]. unfold flip, spec_line. rewrite Hbs, Hb. cbn.
  rewrite concat_app. cbn. by rewrite app_nil_r, app_assoc.
Qed.

Lemma spec_responses b rs :
  Forall response_ok rs → open_block b = None →
  open_block (foldl (flip spec_line) b (concat (response_lines <$> rs))) = None.
Proof.
  intros Hr. revert b. induction Hr as [|r rs Hr _ IH]; intros b Ho; [done|].
  cbn [fmap list_fmap concat]. rewrite foldl_app, spec_response by done. by apply IH.
Qed.

Lemma spec_trailers b ts :
  Forall (λ t, is_status_line t = false) ts → open_block b = None → done_block b ≠ [] →
  foldl (flip spec_line) b ts =
    Blocks None (done_block b ++ concat ts) (done_status b) (published b).
Proof.
  intros Ht. revert b. induction Ht as [|t ts Ht _ IH]; intros b Ho Hd;
    cbn [foldl concat].
  - rewrite app_nil_r, <- Ho. by destruct b.
  - assert (flip spec_line b t = Blocks None (done_block b ++ t) (done_status b)
      (published b)) as ->.
    { unfold flip, spec_line. by rewrite Ht, Ho, decide_False. }
    rewrite IH; cbn; [by rewrite app_assoc|done|].
    intros E. apply app_nil in E. tauto.
Qed.

Lemma response_lines_nonempty r : response_ok r → Forall (λ l, l ≠ []) (response_lines r).
Proof.
  intros [Hs Hf Hb]. apply Forall_cons. split; [by apply status_not_blank|].
  apply Forall_app. split; [by eapply Forall_impl; [done|intros ? []]|].
  apply Forall_singleton. by apply blank_not_status.
Qed.

Lemma snapshot_spec `{Allocator} h :
  (∀ k, is_Some (malloc k)) → wf h →
  ∃ blk, header_data_snapshot (Some h) = Some (Some (Snapshot blk
      (Zlen (text (completed h))) (completed_status h)
      (if transfer_completed h && negb (response_available h) then 1 else 0)
      (terminal_code h)), Some h, []) ∧
    blk = text (completed h) ++ [NUL].
Proof.
  intros Hm Hwf. destruct (wf_completed _ Hwf) as [Hb Hs Hc _].
  pose proof (Buffer.buffer_text_length _ (wf_completed _ Hwf)) as Htl.
  unfold header_data_snapshot. run_m. rewrite u64_small by lia.
  destruct (malloc _) as [blk|] eqn:E;
    [|destruct (Hm (Buffer.size (completed h) + 1)); congruence].
  apply malloc_length in E; [|lia]. rewrite read_bytes_take by lia.
  fold (text (completed h)).
  destruct (memcpy_ok blk 0 (text (completed h))) as (b1 & E1 & Hl1 & Ht1); [lia..|].
  rewrite E1.
  destruct (memcpy_ok b1 (Buffer.size (completed h)) [NUL]) as (b2 & E2 & Hl2 & Ht2);
    [lia|cbn; lia|].
  rewrite E2. cbn. exists b2. rewrite Htl. split; [done|].
  rewrite take_ge in Ht2 by (cbn; lia). rewrite Ht2. f_equal.
  cbn in Ht1. replace (Z.to_nat (Buffer.size (completed h))) with
    (length (text (completed h))) by lia. done.
Qed.


(** ** The contract of the header record *)

(** C26: blocks are replaced, never mixed.  After any number of earlier responses
    (informational, redirects, authentication rounds), a last response and its
    trailers, delivered line by line, every callback accepts its line and the
    snapshot is exactly the last response's block followed by the trailers,
    NUL-terminated, with that response's status. *)
Theorem header_blocks_never_mixed `{Allocator} cap earlier last trailers :
  (∀ k, is_Some (malloc k)) → cap ≤ SIZE_MAX →
  Forall response_ok earlier → response_ok last →
  Forall (λ t, is_status_line t = false ∧ t ≠ []) trailers →
  let lines := concat (response_lines <$> earlier) ++ response_lines last ++ trailers in
  let body := concat (response_lines last) ++ concat trailers in
  Zlen (concat lines) < SIZE_MAX →
  ∃ h, header_data_create 0 cap = Some (Some h) ∧
    wp (ok ← deliver_lines lines; sn ← header_data_snapshot; mret (ok, sn))
      (λ '(ok, sn) _ _, ok = true ∧ ∃ s, sn = Some s ∧
        sn_buffer s = body ++ [NUL] ∧ sn_length s = Zlen body ∧
        sn_status_code s = parse_status (status_line last)) (Some h).
Proof.
  intros Hm Hc He Hl Ht lines body Hsz.
  destruct (headers_create_wf 0 cap Hm eq_refl Hc) as (h & Hcr & Hwf & Habs & _).
  exists h. split; [done|]. wp_step. eapply wp_mono.
  { apply (deliver_lines_spec lines 0); [done|done|by rewrite Habs|done| |lia].
    apply Forall_app. split; [|apply Forall_app; split].
    - apply Forall_concat, Forall_fmap. eapply Forall_impl; [exact He|].
      apply response_lines_nonempty.
    - by apply response_lines_nonempty.
    - eapply Forall_impl; [exact Ht|]. by intros ? []. }
  intros ok h' es (h1 & -> & Hwf1 & -> & _ & _ & Hab & _ & _).
  unfold lines in Hab. rewrite !foldl_app, Habs in Hab.
  rewrite (spec_response _ last) in Hab by done.
  rewrite spec_trailers in Hab; cbn in Hab; [| |done|].
  2:{ eapply Forall_impl; [exact Ht|]. by intros ? []. }
  2:{ pose proof (response_lines_nonempty _ Hl) as Hne. unfold response_lines in *.
      inversion Hne; subst. cbn. by destruct (status_line last). }
  fold body in Hab. destruct (snapshot_spec h1 Hm Hwf1) as (blk & Hsn & ->).
  wp_step. unfold wp at 1. rewrite Hsn. wp_steps. split; [done|]. eexists. split; [done|].
  unfold abs in Hab. destruct (in_block h1); [done|].
  injection Hab as Hd Hs _. cbn. by rewrite Hd, Hs.
Qed.

Definition line (s : string) : bytes := String.list_ascii_of_string s ++ [CR; LF].
Definition redirect : response := Response (line "HTTP/1.1 302 Found")
  [line "Location: /b"] (line "").
Definition answer : response := Response (line "HTTP/1.1 200 OK")
  [line "Content-Length: 2"; line "Server: s"] (line "").

Lemma sample_responses_ok : response_ok redirect ∧ response_ok answer.
Proof. split; (split; [reflexivity| |reflexivity]); repeat constructor; done. Qed.

Lemma header_blocks_never_mixed_witness :
  ∃ h, header_data_create (H := alloc_always) 0 1 = Some (Some h) ∧
    wp (ok ← deliver_lines (H := alloc_always)
          (concat (response_lines <$> [redirect]) ++ response_lines answer ++ [line "X-T: 1"]);
        sn ← header_data_snapshot (H := alloc_always); mret (ok, sn))
      (λ '(ok, sn) _ _, ok = true ∧ ∃ s, sn = Some s ∧
        sn_buffer s = (concat (response_lines answer) ++ concat [line "X-T: 1"]) ++ [NUL] ∧
        sn_length s = Zlen (concat (response_lines answer) ++ concat [line "X-T: 1"]) ∧
        sn_status_code s = parse_status (status_line answer)) (Some h).
Proof.
  apply (header_blocks_never_mixed (H := alloc_always) 1 [redirect] answer [line "X-T: 1"]).
  - intros k. cbn. eauto.
  - lia.
  - constructor; [apply sample_responses_ok|constructor].
  - apply sample_responses_ok.
  - repeat constructor; done.
  - reflexivity.
Defined.

Lemma mark_body_started_spec h :
  wf h → wp header_data_mark_body_started (λ _ h' es, ∃ h1, h' = Some h1 ∧ wf h1 ∧
    ready h1 = true ∧ es = pending_event h ∧ waiter_present h1 = false ∧
    response_available h1 =
      (response_available h || bool_decide (completed_status h ≠ 0)) ∧
    completed h1 = completed h ∧ completed_status h1 = completed_status h) (Some h).
Proof.
  intros Hwf. unfold header_data_mark_body_started, mark_ready.
  apply wp_unless_null. wp_step. unfold locked. wp_step. wp_step. wp_step. wp_step.
  apply wp_take_waiter. cbn [andb].
  set (h1 := if bool_decide _ then _ else h).
  assert (taken (h1 <| ready := true |>) = taken h) as Ht.
  { unfold h1. by case_bool_decide. }
  rewrite Ht. apply wp_wake_taken; [intros Hp; by apply (wf_waiter _ Hwf)|].
  eexists. split; [done|]. destruct Hwf as [Hc Hd Hcs Hds Hw Hi].
  unfold h1. case_bool_decide; cbn; (split; [split; cbn; (done || congruence)|]);
    rewrite ?orb_true_r, ?orb_false_r; done.
Qed.

Lemma mark_complete_spec h code :
  wf h → wp (header_data_mark_complete code) (λ _ h' es, ∃ h1, h' = Some h1 ∧ wf h1 ∧
    ready h1 = true ∧ es = pending_event h ∧ waiter_present h1 = false ∧
    transfer_completed h1 = true ∧ terminal_code h1 = code ∧
    response_available h1 = response_available h ∧
    completed h1 = completed h ∧ completed_status h1 = completed_status h) (Some h).
Proof.
  intros Hwf. unfold header_data_mark_complete.
  apply wp_unless_null. wp_step. unfold locked. wp_step. wp_step. apply wp_take_waiter.
  assert (taken (h <| transfer_completed := true |> <| terminal_code := code |>
            <| ready := true |>) = taken h) as -> by done.
  apply wp_wake_taken; [intros Hp; by apply (wf_waiter _ Hwf)|].
  eexists. split; [done|]. destruct Hwf as [Hc Hd Hcs Hds Hw Hi].
  cbn. split; [split; cbn; (done || congruence)|]. done.
Qed.

(** The responses that are announced as soon as their block is complete: a protocol
    switch, a success or an error, but no authentication round and no answer to a
    proxy [CONNECT].  Other informational blocks are followed by another one; a
    redirect, 401 or 407 may be. *)
Definition announced (status : Z) (block : bytes) : Prop :=
  (status = 101 ∨ 200 ≤ status < 300 ∨ 400 ≤ status) ∧ status ≠ 401 ∧ status ≠ 407 ∧
  ¬ (status = 200 ∧ occurs (String.list_ascii_of_string "connection established") block).

Lemma publish_early_announced status block :
  publish_early status block = true ↔ announced status block.
Proof.
  unfold publish_early, announced.
  pose proof (contains_occurs block (String.list_ascii_of_string "connection established")) as Hc.
  destruct (contains_ascii_case_insensitive _ _).
  - assert (occurs (String.list_ascii_of_string "connection established") block) as Ho by (by apply Hc).
    repeat case_bool_decide; cbn; split; (done || lia || intuition (done || lia)).
  - assert (¬ occurs (String.list_ascii_of_string "connection established") block) as Ho
      by (intros Ho; enough (false = true) by done; apply Hc; by split).
    repeat case_bool_decide; cbn; split; (done || lia || intuition (done || lia)).
Qed.

(** A reader waits with the waker [w], and nothing was published. *)
Definition waits (w : hs_waker) (h : header_data) : Prop :=
  ready h = false ∧ response_available h = false ∧ waiter_present h = true ∧ waiter h = w.

Lemma wake_outcome_waits w h h1 es :
  waits w h → wake_outcome h h1 es → response_available h1 = false → es = [] ∧ waits w h1.
Proof.
  intros (H1 & H2 & H3 & H4) [(E1 & E2 & E3 & E4 & ->)|(_ & E & _)] Hr; [|congruence].
  split; [done|]. split_and!; congruence.
Qed.

Lemma waits_pending p cap h :
  waits (Waker.Mk (Some p) cap false) h → pending_event h = [Ev_hs_try_putmvar cap p].
Proof. intros (_ & _ & Hp & Hw). unfold pending_event. by rewrite Hp, Hw. Qed.

Lemma abs_within h :
  within (Zlen (text (current h)) + Zlen (text (completed h))) (abs h).
Proof. split; unfold abs; cbn; [|lia]. destruct (in_block h); cbn; lia. Qed.

(** C27: which responses wake the reader at their end.  While the status line and
    the fields of a response arrive, a waiting reader stays registered and nothing
    is fired.  The callback of the blank line fires its waker, once, and makes the
    response available when the response is announced: a 101, a 2xx or a 4xx or 5xx
    that is neither 401 nor 407, and no 200 whose block says that a connection was
    established.  After any other response nothing is fired and the reader waits on;
    should it be the last one, the first byte of the body or the end of the transfer
    wakes it, once. *)
Theorem response_wakes_iff_final `{Allocator} h r p cap :
  (∀ k, is_Some (malloc k)) → wf h → response_ok r →
  waits (Waker.Mk (Some p) cap false) h →
  Zlen (text (current h)) + Zlen (text (completed h)) +
    Zlen (concat (response_lines r)) < SIZE_MAX →
  let wakes (h' : option header_data) (es : list event) :=
    es = [Ev_hs_try_putmvar cap p] ∧ ∃ h1, h' = Some h1 ∧ ready h1 = true ∧ waiter_present h1 = false in
  let final := announced (parse_status (status_line r)) (concat (response_lines r)) in
  wp (deliver_lines (status_line r :: fields r)) (λ ok h' es, ok = true ∧ es = [] ∧ ∃ h1, h' = Some h1 ∧
    waits (Waker.Mk (Some p) cap false) h1 ∧
    wp (deliver_lines [blank r]) (λ ok h' es, ok = true ∧ ∃ h2, h' = Some h2 ∧
      (final → wakes h' es ∧ response_available h2 = true) ∧
      (¬ final → es = [] ∧ waits (Waker.Mk (Some p) cap false) h2 ∧
        wp header_data_mark_body_started (λ _ h' es, wakes h' es) (Some h2) ∧
        ∀ code, wp (header_data_mark_complete code) (λ _ h' es, wakes h' es) (Some h2)))
      (Some h1)) (Some h).
Proof.
  intros Hm Hwf Hr Hwt Hsz wakes final.
  pose proof (response_lines_nonempty _ Hr) as Hne.
  pose proof Hr as [Hs Hf Hb].
  change (response_lines r) with ((status_line r :: fields r) ++ [blank r]) in Hne, Hsz.
  rewrite concat_app, length_app in Hsz. apply Forall_app in Hne as [Hne Hneb].
  eapply wp_mono; [eapply deliver_lines_spec; [done|done|apply abs_within|lia|done|lia]|].
  intros ok h' es (h1 & -> & Hwf1 & -> & _ & _ & Hab & Hin & Hw).
  assert (abs h1 = Blocks (Some (parse_status (status_line r), status_line r ++ concat (fields r)))
    (text (completed h)) (completed_status h) false) as Hab1.
  { rewrite Hab. cbn [foldl]. rewrite (spec_fields _ (parse_status (status_line r)) (status_line r)); [|done|].
    - unfold flip, spec_line. destruct Hwt as (_ & Hav & _). rewrite Hs, (proj1 (status_not_blank _ Hs)). cbn. by rewrite Hav.
    - unfold flip, spec_line. by rewrite Hs, (proj1 (status_not_blank _ Hs)). }
  destruct (wake_outcome_waits _ _ _ _ Hwt Hw (f_equal published Hab1)) as [-> Hwt1].
  split; [done|]. split; [done|]. exists h1. split; [done|]. split; [done|].
  eapply wp_mono; [eapply deliver_lines_spec; [done|done|exact Hin|lia|done|lia]|].
  intros ok h' es (h2 & -> & Hwf2 & -> & _ & _ & Hab2 & _ & Hw2).
  split; [done|]. exists h2. split; [done|].
  rewrite Hab, <- foldl_app in Hab2.
  change ((status_line r :: fields r) ++ [blank r]) with (response_lines r) in Hab2.
  rewrite (spec_response (abs h) r Hr) in Hab2. apply (f_equal published) in Hab2. cbn [abs published] in Hab2.
  destruct Hwt as (_ & Hav & _). rewrite Hav, orb_false_l in Hab2.
  pose proof (publish_early_announced (parse_status (status_line r)) (concat (response_lines r))) as Hpub.
  fold final in Hpub. split.
  - intros Hfin. apply Hpub in Hfin. rewrite <- Hab2 in Hfin. split; [|done].
    destruct Hw2 as [(_ & E & _)|(E1 & _ & E2 & ->)]; [destruct Hwt1; intuition congruence|].
    split; [by apply waits_pending|]. by exists h2.
  - intros Hfin. assert (response_available h2 = false) as Hav2.
    { destruct (response_available h2) eqn:E; [|done]. destruct Hfin. apply Hpub. by rewrite <- Hab2. }
    destruct (wake_outcome_waits _ _ _ _ Hwt1 Hw2 Hav2) as [-> Hwt2].
    split; [done|]. split; [done|]. split; [|intros code].
    + eapply wp_mono; [by apply mark_body_started_spec|].
      intros _ h' es (h3 & -> & _ & Hr3 & -> & Hp3 & _). split; [by apply waits_pending|by exists h3].
    + eapply wp_mono; [by apply mark_complete_spec|].
      intros _ h' es (h3 & -> & _ & Hr3 & -> & Hp3 & _). split; [by apply waits_pending|by exists h3].
Qed.

(** A record on which a reader waits. *)
Definition waiting : header_data :=
  Mk (Buffer.Mk [NUL] 0 1) (Buffer.Mk [NUL] 0 1) 0 0 false false false false 0
     true (Waker.Mk (Some 9%positive) 2 false).

Lemma waiting_wf : wf waiting.
Proof.
  assert (Buffer.wf (Buffer.Mk [NUL] 0 1)) as Hb by (split; cbn; [lia..|done]).
  split; cbn; [done|done|lia|lia|eauto|done].
Qed.

(** A 200 wakes the reader; a 302 does not, and then the body does. *)
Lemma response_wakes_iff_final_witness :
  wp (deliver_lines (H := alloc_always) (status_line answer :: fields answer)) (λ _ h' _,
    wp (deliver_lines (H := alloc_always) [blank answer]) (λ _ _ es, es = [Ev_hs_try_putmvar 2 9]) h')
    (Some waiting) ∧
  wp (deliver_lines (H := alloc_always) (status_line redirect :: fields redirect)) (λ _ h' _,
    wp (deliver_lines (H := alloc_always) [blank redirect]) (λ _ h' es, es = [] ∧
      wp header_data_mark_body_started (λ _ _ es, es = [Ev_hs_try_putmvar 2 9]) h') h')
    (Some waiting).
Proof.
  split.
  - eapply wp_mono; [apply (response_wakes_iff_final (H := alloc_always) waiting answer 9 2
      ltac:(intros k; cbn; eauto) waiting_wf (proj2 sample_responses_ok)); repeat split|].
    intros _ h' _ (_ & _ & h1 & -> & _ & Hb). eapply wp_mono; [exact Hb|].
    intros _ h2 es (_ & h3 & -> & Hfin & _). apply Hfin, publish_early_announced. vm_compute. reflexivity.
  - eapply wp_mono; [apply (response_wakes_iff_final (H := alloc_always) waiting redirect 9 2
      ltac:(intros k; cbn; eauto) waiting_wf (proj1 sample_responses_ok)); repeat split|].
    intros _ h' _ (_ & _ & h1 & -> & _ & Hb). eapply wp_mono; [exact Hb|].
    intros _ h2 es (_ & h3 & -> & _ & Hnot). destruct Hnot as (-> & _ & Hbody & _).
    { intros Hfin%publish_early_announced. vm_compute in Hfin. discriminate. }
    split; [done|]. eapply wp_mono; [exact Hbody|]. by intros _ h4 es [-> _].
Defined.


(** *** The life of a waiter's StablePtr *)

(** The calls made on one record: by libcurl, by a reader, at completion. *)
Inductive op :=
  | Op_callback (line : bytes)
  | Op_wait (p : ptr) (cap : Z)
  | Op_cancel (p : ptr)
  | Op_body_started
  | Op_complete (code : Z).

(** The pointers an operation takes from its caller and gives back to it. *)
Record ledger := Ledger { accepted : list ptr; returned : list ptr }.
Definition ledger_app (a b : ledger) : ledger :=
  Ledger (accepted a ++ accepted b) (returned a ++ returned b).
Definition nothing : ledger := Ledger [] [].

Definition run_op `{Allocator} (o : op) : M (option header_data) ledger :=
  match o with
  | Op_callback line => header_callback line 1 (Zlen line);; mret nothing
  | Op_wait p cap =>
      r ← header_data_wait (Some p) cap;
      mret (Ledger (if decide (r = HEADER_WAIT_REGISTERED) then [p] else []) [])
  | Op_cancel p =>
      r ← header_data_cancel_wait (Some p);
      mret (Ledger [] (if r : bool then [p] else []))
  | Op_body_started => header_data_mark_body_started;; mret nothing
  | Op_complete code => header_data_mark_complete code;; mret nothing
  end.

Fixpoint run_ops `{Allocator} (os : list op) : M (option header_data) ledger :=
  match os with
  | [] => mret nothing
  | o :: os => l1 ← run_op o; l2 ← run_ops os; mret (ledger_app l1 l2)
  end.

Definition pending (h : header_data) : list ptr := fired (pending_event h).

Lemma pending_wf h :
  wf h → pending h = if waiter_present h then option_list (Waker.mvar (waiter h)) else [].
Proof.
  intros Hwf. unfold pending, pending_event. destruct (waiter_present h) eqn:Hp; [|done].
  destruct (wf_waiter _ Hwf Hp) as (_ & p & cap & ->). done.
Qed.

Lemma wake_outcome_pending h h1 es :
  wake_outcome h h1 es → fired es ++ pending h1 = pending h.
Proof.
  unfold pending. intros [(_ & _ & H1 & H2 & ->)|(_ & _ & H1 & ->)].
  - unfold pending_event. by rewrite H1, H2.
  - unfold pending_event at 2. by rewrite H1, app_nil_r.
Qed.

Definition op_ok (o : op) : Prop :=
  match o with Op_callback line => Zlen line ≤ SIZE_MAX | _ => True end.

(** One operation balances the books. *)
Lemma run_op_balance `{Allocator} o h :
  wf h → op_ok o →
  wp (run_op o) (λ l h' es, ∃ h1, h' = Some h1 ∧ wf h1 ∧
    fired es ++ returned l ++ pending h1 ≡ₚ accepted l ++ pending h) (Some h).
Proof.
  intros Hwf Ho. destruct o as [line|p cap|p| |code]; cbn [run_op op_ok] in *.
  - wp_step. destruct (decide (line = [])) as [->|Hne].
    { apply wp_unless_null. wp_steps; exists h; done. }
    assert (0 < Zlen line) by (destruct line; [done|cbn; lia]).
    eapply wp_mono; [apply (header_callback_spec h line 1); [done|lia..]|].
    intros r h' es (h1 & -> & Hwf1 & _ & _ & Hw & _). wp_steps.
    exists h1. do 2 (split; [done|]). cbn. rewrite app_nil_r.
    by rewrite (wake_outcome_pending _ _ _ Hw).
  - wp_step. unfold header_data_wait. apply wp_unless_null. unfold locked. wp_step.
    wp_step. cbn [id]. wp_step; [wp_steps; by exists h|]. wp_step; [wp_steps; by exists h|].
    wp_steps. eexists. split; [done|]. cbn. split.
    + destruct Hwf. split; cbn; (done || eauto).
    + by rewrite (pending_wf _ Hwf), Heqb0.
  - wp_step. unfold header_data_cancel_wait. apply wp_unless_null. unfold locked.
    wp_step. wp_step. cbn [id]. wp_step; [|wp_steps; by exists h].
    apply andb_true_iff in Heqb as [Hp Hm%bool_decide_eq_true]. wp_steps.
    eexists. split; [done|]. split; [destruct Hwf; split; cbn; done|].
    cbn. by rewrite (pending_wf _ Hwf), Hp, Hm.
  - wp_step. eapply wp_mono; [by apply mark_body_started_spec|].
    intros [] h' es (h1 & -> & Hwf1 & _ & -> & Hp & _). wp_steps. exists h1.
    do 2 (split; [done|]). cbn. rewrite (pending_wf _ Hwf1), Hp, !app_nil_r. done.
  - wp_step. eapply wp_mono; [by apply mark_complete_spec|].
    intros [] h' es (h1 & -> & Hwf1 & _ & -> & Hp & _). wp_steps. exists h1.
    do 2 (split; [done|]). cbn. rewrite (pending_wf _ Hwf1), Hp, !app_nil_r. done.
Qed.

Lemma run_ops_balance `{Allocator} os h :
  wf h → Forall op_ok os →
  wp (run_ops os) (λ l h' es, ∃ h1, h' = Some h1 ∧ wf h1 ∧
    fired es ++ returned l ++ pending h1 ≡ₚ accepted l ++ pending h) (Some h).
Proof.
  intros Hwf Hos. revert h Hwf. induction Hos as [|o os Ho _ IH]; intros h Hwf; cbn.
  - wp_steps. by exists h.
  - wp_step. eapply wp_mono; [by apply run_op_balance|].
    intros l1 h' es1 (h1 & -> & Hwf1 & Hb1). wp_step.
    eapply wp_mono; [by apply IH|]. intros l2 h'' es2 (h2 & -> & Hwf2 & Hb2). wp_steps.
    exists h2. do 2 (split; [done|]). cbn. rewrite app_nil_r, fired_app.
    by eapply balance_trans.
Qed.

Lemma free_header_data_spec h :
  wf h → wp free_header_data (λ _ _ es, es = pending_event h) (Some h).
Proof.
  intros Hwf. unfold free_header_data. apply wp_unless_null. wp_step. unfold locked.
  apply wp_take_waiter. apply wp_wake_taken; [intros Hp; by apply (wf_waiter _ Hwf)|done].
Qed.

(** A created record is well formed and has no waiter. *)
Lemma created_wf `{Allocator} cap h :
  header_data_create 0 cap = Some (Some h) → cap ≤ SIZE_MAX → wf h ∧ pending h = [].
Proof.
  unfold header_data_create. intros Hcr Hc.
  destruct (malloc sizeof_header_data); [|done].
  set (c := if bool_decide (0 < cap) then cap else 1) in *.
  assert (0 < c ≤ SIZE_MAX) as Hcap by (clear Hcr; unfold c; case_bool_decide; lia).
  clearbody c. destruct (malloc c) as [blk|] eqn:E1; [|done].
  apply malloc_length in E1; [|lia]. rewrite bool_decide_false in Hcr by lia.
  destruct (memcpy_ok blk 0 [NUL]) as (b1 & E2 & Hl1 & _); [done|cbn; lia|].
  rewrite E2 in Hcr. cbn in Hcr. injection Hcr as <-.
  assert (Buffer.wf (Buffer.Mk b1 0 c)) as Hb.
  { split; cbn; [lia..|]. by apply (memcpy_lookup _ 0 [NUL] _ 0) in E2; [|simpl; lia]. }
  split; [|done]. by split.
Qed.

(** C28: no StablePtr is lost or used twice.  Over any sequence of callbacks,
    waits, cancellations, body starts and completions on a record, and its final
    destruction, under any allocation failures, the pointers handed to a
    registered wait are exactly those fired through the runtime plus those a
    cancellation gave back: each once. *)
Theorem header_waiter_linear `{Allocator} cap os h0 :
  header_data_create 0 cap = Some (Some h0) → cap ≤ SIZE_MAX → Forall op_ok os →
  wp (l ← run_ops os; free_header_data;; mret l)
    (λ l _ es, fired es ++ returned l ≡ₚ accepted l) (Some h0).
Proof.
  intros Hcr Hc Hos. destruct (created_wf _ _ Hcr Hc) as [Hwf Hp].
  wp_step. eapply wp_mono; [by apply run_ops_balance|].
  intros l h' es (h1 & -> & Hwf1 & Hb). wp_step.
  eapply wp_mono; [by apply free_header_data_spec|]. intros [] h'' es2 ->. wp_steps.
  rewrite app_nil_r, fired_app. fold (pending h1). rewrite Hp, app_nil_r in Hb.
  rewrite <- Hb. solve_Permutation.
Qed.

(** A reader gives up, another waits, and the transfer is aborted. *)
Definition sample_ops : list op :=
  [Op_wait 5 0; Op_cancel 5; Op_callback (status_line redirect); Op_wait 6 1;
   Op_complete CURLE_ABORTED_BY_CALLBACK; Op_wait 7 1].

Lemma header_waiter_linear_witness :
  ∃ h0, header_data_create (H := alloc_always) 0 16 = Some (Some h0) ∧
    wp (l ← run_ops (H := alloc_always) sample_ops; free_header_data;; mret l)
      (λ l _ es, fired es ++ returned l ≡ₚ accepted l) (Some h0).
Proof.
  eexists. split; [reflexivity|].
  apply (header_waiter_linear (H := alloc_always) 16); [reflexivity|lia|].
  repeat constructor; vm_compute; discriminate.
Defined.

End HeaderData.
