(* ===== verification/Mpscq.v ===== *)
(** * The bounded control queue ([third-party/.../mpsc.c])

    A wait-free multi-producer, single-consumer ring.  The atomic accesses are
    functions on the queue of their own; the operations are their composition,
    and the interleaving model of [Channel.v] schedules the same accesses. *)

From S2P Require Import Prelude.

Open Scope Z_scope.
Open Scope record_scope.

Module Mpscq.

(** [struct mpscq]; the slots of [buffer] hold object pointers. *)
Record mpscq := Mk {
  count : Z;
  head : Z;
  tail : Z;
  max : Z;
  buffer : list (option ptr);
  flags : bool  (* MPSCQ_MALLOC *)
}.

#[export] Instance mpscq_eta : Eta mpscq :=
  λ q, Mk (count q) (head q) (tail q) (max q) (buffer q) (flags q).

Definition sizeof_mpscq : Z := 48.
Definition sizeof_slot : Z := 8.

(** [given] is whether the caller passes the structure to initialise. *)
Definition mpscq_create `{Allocator} (given : bool) (capacity : Z) : option mpscq :=
  if bool_decide (capacity < 2) || negb (bool_decide (Z.land capacity (capacity - 1) = 0))
     || bool_decide (SIZE_MAX / sizeof_slot < capacity)
  then None
  else
    let allocated := if given then Some [] else malloc sizeof_mpscq in
    match allocated with
    | None => None
    | Some _ =>
        match malloc (capacity * sizeof_slot) with
        | None => None
        | Some _ => Some (Mk 0 0 0 capacity (replicate (Z.to_nat capacity) None) (negb given))
        end
    end.

(** ** The atomic accesses *)

Definition fetch_add_count : M mpscq Z :=
  c ← gets count;
  modify (λ q, q <| count := u64 (c + 1) |>);;
  mret c.

Definition fetch_sub_count : M mpscq Z :=
  c ← gets count;
  modify (λ q, q <| count := u64 (c - 1) |>);;
  mret c.

Definition fetch_add_head : M mpscq Z :=
  h ← gets head;
  modify (λ q, q <| head := u64 (h + 1) |>);;
  mret h.

Definition load_slot (i : Z) : M mpscq (option ptr) :=
  q ← gets id;
  defined (if bool_decide (0 ≤ i) then buffer q !! Z.to_nat i else None).

Definition exchange_slot (i : Z) (v : option ptr) : M mpscq (option ptr) :=
  old ← load_slot i;
  modify (λ q, q <| buffer := <[Z.to_nat i := v]> (buffer q) |>);;
  mret old.

(** A failed [assert] aborts the program. *)
Definition assert (b : bool) : M mpscq () := if b then mret () else fault.

(** The publication of an object in the slot of its ticket: the assertion on
    the slot, then the exchange. *)
Definition assert_free (h : Z) : M mpscq () :=
  q ← gets id;
  cur ← load_slot (h mod max q);
  assert (bool_decide (cur = None)).

Definition put_slot (obj : ptr) (h : Z) : M mpscq () :=
  q ← gets id;
  rv ← exchange_slot (h mod max q) (Some obj);
  assert (bool_decide (rv = None)).

Definition publish (obj : ptr) (h : Z) : M mpscq () := assert_free h;; put_slot obj h.

(** The consumer moves to the next slot. *)
Definition advance_tail : M mpscq () :=
  q ← gets id;
  let tail := u64 (tail q + 1) in
  modify (λ q, q <| Mpscq.tail := if bool_decide (max q ≤ tail) then 0 else tail |>).

(** ** The operations *)

Definition mpscq_enqueue (obj : option ptr) : M (option mpscq) bool :=
  unless_null false
    (match obj with
     | None => mret false
     | Some obj =>
         q ← gets id;
         c ← fetch_add_count;
         if bool_decide (max q ≤ c) then
           fetch_sub_count;;
           mret false
         else
           h ← fetch_add_head;
           publish obj h;;
           mret true
     end).

Definition mpscq_dequeue : M (option mpscq) (option ptr) :=
  unless_null None
    (q ← gets id;
     ret ← exchange_slot (tail q) None;
     match ret with
     | None => mret None
     | Some obj =>
         advance_tail;;
         r ← fetch_sub_count;
         assert (bool_decide (0 < r));;
         mret (Some obj)
     end).

Definition mpscq_count (q : option mpscq) : Z := from_option count 0 q.
Definition mpscq_capacity (q : option mpscq) : Z := from_option max 0 q.

(** ** Ring arithmetic *)

(** Capacities are powers of two that divide the range of [size_t], so that a
    wrapped ticket still names its slot. *)
Definition capacity_ok (m : Z) : Prop := 2 ≤ m ≤ SIZE_MAX / sizeof_slot ∧ (m | 2 ^ 64).

Lemma u64_mod m h : (m | 2 ^ 64) → 0 < m → u64 h mod m = h mod m.
Proof.
  intros Hd Hm. unfold u64. change 18446744073709551616 with (2 ^ 64).
  apply Z.mod_mod_divide. exact Hd.
Qed.

(** Tickets less than a capacity apart have different slots. *)
Lemma slot_inj m i j : 0 < m → i ≤ j < i + m → i mod m = j mod m → i = j.
Proof.
  intros Hm Hij He.
  pose proof (Z.div_mod i m ltac:(lia)). pose proof (Z.div_mod j m ltac:(lia)).
  assert (j / m = i / m ∨ j / m ≠ i / m) as [E|E] by lia; [rewrite E in *; lia|]. nia.
Qed.

(** Clearing the lowest set bit gives zero only for powers of two. *)
Lemma land_pred_pow2 z : 0 < z → Z.land z (z - 1) = 0 → ∃ k, 0 ≤ k ∧ z = 2 ^ k.
Proof.
  intros Hz Hl. exists (Z.log2 z). pose proof (Z.log2_nonneg z). split; [done|].
  destruct (Z.log2_spec z Hz) as [H1 H2].
  destruct (decide (z = 2 ^ Z.log2 z)) as [|Hne]; [done|exfalso].
  assert (Z.log2 (z - 1) = Z.log2 z) as Hlog.
  { apply Z.log2_unique; [done|]. lia. }
  assert (Z.testbit (Z.land z (z - 1)) (Z.log2 z) = true) as Hb.
  { rewrite Z.land_spec, Z.bit_log2 by done. cbn. rewrite <- Hlog.
    apply Z.bit_log2. lia. }
  rewrite Hl, Z.bits_0 in Hb. done.
Qed.

Lemma create_capacity_ok `{Allocator} given capacity q :
  mpscq_create given capacity = Some q →
  capacity_ok (max q) ∧ max q = capacity ∧ count q = 0 ∧ head q = 0 ∧ tail q = 0 ∧
  buffer q = replicate (Z.to_nat capacity) None.
Proof.
  unfold mpscq_create, capacity_ok, sizeof_slot.
  destruct (_ || _) eqn:E; [done|]. destruct (if given then _ else _); [|done].
  destruct (malloc _); [|done]. intros [= <-]. cbn.
  apply orb_false_iff in E as [[E1 E2]%orb_false_iff E3].
  apply bool_decide_eq_false in E1, E3. apply negb_false_iff, bool_decide_eq_true in E2.
  split; [|done]. split; [lia|].
  destruct (land_pred_pow2 capacity) as (k & Hk & ->); [lia|done|].
  assert (k ≤ 64) as Hk64.
  { apply Z.nlt_ge. intros Hlt. apply E3. apply Z.lt_trans with (2 ^ 64); [reflexivity|].
    apply Z.pow_lt_mono_r; lia. }
  exists (2 ^ (64 - k)). rewrite <- Z.pow_add_r by lia. f_equal. lia.
Qed.

(** ** Contents of the ring *)

(** From ticket [t] on, the [m] slots hold [f t .. f (t + m - 1)]. *)
Definition window (buf : list (option ptr)) (m t : Z) (f : Z → option ptr) : Prop :=
  Zlen buf = m ∧ ∀ i, t ≤ i < t + m → buf !! Z.to_nat (i mod m) = Some (f i).

Lemma window_lookup buf m t f i :
  window buf m t f → t ≤ i < t + m → buf !! Z.to_nat (i mod m) = Some (f i).
Proof. intros [_ H]. apply H. Qed.

Lemma window_set buf m t f i v :
  0 < m → window buf m t f → t ≤ i < t + m →
  window (<[Z.to_nat (i mod m) := v]> buf) m t (λ j, if decide (j = i) then v else f j).
Proof.
  intros Hm [Hl Hw] Hi. split; [by rewrite length_insert|]. intros j Hj.
  pose proof (Z.mod_pos_bound i m Hm). pose proof (Z.mod_pos_bound j m Hm).
  case_decide as E; [subst; rewrite list_lookup_insert_eq by lia; done|].
  rewrite list_lookup_insert_ne; [by apply Hw|].
  intros He%Z2Nat.inj; [|lia..]. destruct (decide (i ≤ j)).
  - apply E. symmetry. by apply (slot_inj m); [|lia|].
  - apply E. by apply (slot_inj m); [|lia|].
Qed.

Lemma window_shift buf m t f f' :
  0 < m → window buf m t f → (∀ i, t < i < t + m → f' i = f i) → f' (t + m) = f t →
  window buf m (t + 1) f'.
Proof.
  intros Hm [Hl Hw] Hf He. split; [done|]. intros i Hi.
  destruct (decide (i = t + m)) as [->|].
  - replace ((t + m) mod m) with (t mod m); [rewrite He; apply Hw; lia|].
    rewrite <- (Z.mul_1_l m) at 2. by rewrite Z.mod_add by lia.
  - rewrite Hf by lia. apply Hw. lia.
Qed.

Lemma window_ext buf m t f f' :
  window buf m t f → (∀ i, t ≤ i < t + m → f i = f' i) → window buf m t f'.
Proof. intros [Hl Hw] Hf. split; [done|]. intros i Hi. rewrite <- Hf by done. by apply Hw. Qed.

Lemma window_empty m t : 0 < m → window (replicate (Z.to_nat m) None) m t (λ _, None).
Proof.
  intros Hm. split; [rewrite length_replicate; lia|]. intros i Hi.
  pose proof (Z.mod_pos_bound i m Hm). apply lookup_replicate. split; [done|lia].
Qed.

(** The tail is the consumer's ticket modulo the capacity, kept by a compare
    and reset. *)
Lemma advance_tail_eq q t :
  0 < max q ≤ SIZE_MAX → tail q = t mod max q →
  advance_tail q = Some ((), q <| tail := (t + 1) mod max q |>, []).
Proof.
  intros Hm Ht. unfold advance_tail. run_m. rewrite Ht.
  pose proof (Z.mod_pos_bound t (max q) ltac:(lia)).
  rewrite u64_small by lia. do 3 f_equal.
  destruct q as [c h tl m b fl]. cbn in *. f_equal.
  pose proof (Z.div_mod t m ltac:(lia)) as Hd. case_bool_decide as E.
  - apply (Z.mod_unique _ _ (t / m + 1)); lia.
  - apply (Z.mod_unique _ _ (t / m)); lia.
Qed.

Lemma exchange_slot_eq q i f t v :
  window (buffer q) (max q) t f → 0 < max q → t ≤ i < t + max q →
  exchange_slot (i mod max q) v q =
    Some (f i, q <| buffer := <[Z.to_nat (i mod max q) := v]> (buffer q) |>, []).
Proof.
  intros Hw Hm Hi. unfold exchange_slot, load_slot. run_m.
  pose proof (Z.mod_pos_bound i (max q) Hm). rewrite bool_decide_true by lia.
  by rewrite (window_lookup _ _ _ _ _ Hw Hi).
Qed.

Lemma load_slot_eq q i f t :
  window (buffer q) (max q) t f → 0 < max q → t ≤ i < t + max q →
  load_slot (i mod max q) q = Some (f i, q, []).
Proof.
  intros Hw Hm Hi. unfold load_slot. run_m.
  pose proof (Z.mod_pos_bound i (max q) Hm). rewrite bool_decide_true by lia.
  by rewrite (window_lookup _ _ _ _ _ Hw Hi).
Qed.

(** Publishing in a free slot of the window succeeds: both assertions hold. *)
Lemma assert_free_eq q h i f t :
  window (buffer q) (max q) t f → 0 < max q → (max q | 2 ^ 64) → h = u64 i →
  t ≤ i < t + max q → f i = None → assert_free h q = Some ((), q, []).
Proof.
  intros Hw Hm Hd -> Hi Hf. unfold assert_free. cbv [mbind M_bind gets id]. cbn.
  by rewrite u64_mod, (load_slot_eq q i f t Hw Hm Hi), Hf by done.
Qed.

Lemma put_slot_eq q h i f t obj :
  window (buffer q) (max q) t f → 0 < max q → (max q | 2 ^ 64) → h = u64 i →
  t ≤ i < t + max q → f i = None →
  put_slot obj h q = Some ((), q <| buffer :=
    <[Z.to_nat (i mod max q) := Some obj]> (buffer q) |>, []).
Proof.
  intros Hw Hm Hd -> Hi Hf. unfold put_slot. cbv [mbind M_bind gets id]. cbn.
  by rewrite u64_mod, (exchange_slot_eq q i f t (Some obj) Hw Hm Hi), Hf by done.
Qed.

Lemma publish_eq q h i f t obj :
  window (buffer q) (max q) t f → 0 < max q → (max q | 2 ^ 64) → h = u64 i →
  t ≤ i < t + max q → f i = None →
  publish obj h q = Some ((), q <| buffer :=
    <[Z.to_nat (i mod max q) := Some obj]> (buffer q) |>, []).
Proof.
  intros. unfold publish. cbv [mbind M_bind].
  by erewrite assert_free_eq, put_slot_eq.
Qed.

(** ** Sequential behaviour *)

(** The queue holds the objects [l], oldest first. *)
Definition holds (q : mpscq) (l : list ptr) : Prop :=
  capacity_ok (max q) ∧ Zlen l ≤ max q ∧ count q = Zlen l ∧
  ∃ t, 0 ≤ t ∧ head q = u64 (t + Zlen l) ∧ tail q = t mod max q ∧
    window (buffer q) (max q) t (λ i, l !! Z.to_nat (i - t)).

Inductive queue_op := Enqueue (obj : option ptr) | Dequeue.

(** A call and its answer: whether the object was taken, or the object given. *)
Definition run_queue_op (o : queue_op) : M (option mpscq) (bool * option ptr) :=
  match o with
  | Enqueue obj => b ← mpscq_enqueue obj; mret (b, None)
  | Dequeue => r ← mpscq_dequeue; mret (false, r)
  end.

(** The bounded first-in first-out queue. *)
Definition spec_queue_op (m : Z) (o : queue_op) (l : list ptr) :
    bool * option ptr * list ptr :=
  match o with
  | Enqueue None => (false, None, l)
  | Enqueue (Some obj) =>
      if bool_decide (Zlen l < m) then (true, None, l ++ [obj]) else (false, None, l)
  | Dequeue => match l with [] => (false, None, []) | x :: l => (false, Some x, l) end
  end.

Fixpoint run_queue_ops (os : list queue_op) : M (option mpscq) (list (bool * option ptr)) :=
  match os with
  | [] => mret []
  | o :: os => r ← run_queue_op o; rs ← run_queue_ops os; mret (r :: rs)
  end.

Fixpoint spec_queue_ops (m : Z) (os : list queue_op) (l : list ptr) :
    list (bool * option ptr) :=
  match os with
  | [] => []
  | o :: os => let '(b, r, l') := spec_queue_op m o l in (b, r) :: spec_queue_ops m os l'
  end.

Lemma capacity_bounds m : capacity_ok m → 2 ≤ m ≤ 2305843009213693951 ∧ 0 < m.
Proof. unfold capacity_ok, sizeof_slot. change (SIZE_MAX / 8) with 2305843009213693951. lia. Qed.

Lemma enqueue_refines q l obj :
  holds q l →
  wp (mpscq_enqueue (Some obj)) (λ r q' es, ∃ q1, q' = Some q1 ∧ es = [] ∧ max q1 = max q ∧
    r = bool_decide (Zlen l < max q) ∧ holds q1 (if r : bool then l ++ [obj] else l)) (Some q).
Proof.
  intros (Hok & Hlen & Hc & t & Ht & Hh & Htl & Hw).
  destruct (capacity_bounds _ Hok) as [Hb Hm]. unfold mpscq_enqueue.
  apply wp_unless_null. wp_step. wp_step. cbn [id]. unfold fetch_add_count, fetch_sub_count,
    fetch_add_head. wp_step. wp_step. wp_step. wp_step. wp_step. wp_step. rewrite Hc.
  wp_step.
  - wp_steps. cbn. rewrite (u64_small (Zlen l + 1)), (u64_small (_ + 1 - 1)) by lia.
    eexists. do 3 (split; [done|]). rewrite bool_decide_false by lia. split; [done|].
    split; [done|]. split; [done|]. split; [cbn; lia|]. by exists t.
  - do 6 wp_step. cbn. wp_step.
    set (q1 := Mk _ _ _ _ _ _).
    assert (publish obj (head q) q1 = Some ((), q1 <| buffer :=
       <[Z.to_nat ((t + Zlen l) mod max q) := Some obj]> (buffer q) |>, [])) as Hp.
    { apply (publish_eq q1 _ (t + Zlen l) (λ i, l !! Z.to_nat (i - t)) t); cbn; try done.
      - apply Hok.
      - lia.
      - apply lookup_ge_None_2. lia. }
    unfold wp at 1. rewrite Hp. wp_steps. eexists. do 2 (split; [done|]). split; [done|].
    rewrite bool_decide_true by lia. split; [done|]. split; [done|]. cbn.
    rewrite length_app. cbn. rewrite (u64_small (Zlen l + 1)) by lia.
    split; [lia|]. split; [lia|]. exists t. split; [done|]. split.
    { rewrite Hh. unfold u64. rewrite Zplus_mod_idemp_l. f_equal. lia. }
    split; [done|]. eapply window_ext; [by apply window_set; [|exact Hw|lia]|].
    intros i Hi. cbn. case_decide as E.
    + subst. rewrite lookup_app_r by lia. replace (_ - _)%nat with 0%nat by lia. done.
    + destruct (decide (i < t + Zlen l)); [rewrite lookup_app_l by lia; done|].
      rewrite !lookup_ge_None_2; [done|rewrite length_app; cbn|]; lia.
Qed.

Lemma dequeue_refines q l :
  holds q l →
  wp mpscq_dequeue (λ r q' es, ∃ q1, q' = Some q1 ∧ es = [] ∧ max q1 = max q ∧
    r = hd_error l ∧ holds q1 (tl l)) (Some q).
Proof.
  intros (Hok & Hlen & Hc & t & Ht & Hh & Htl & Hw).
  destruct (capacity_bounds _ Hok) as [Hb Hm]. unfold mpscq_dequeue.
  apply wp_unless_null. wp_step. wp_step. cbn [id]. wp_step. unfold wp at 1.
  rewrite Htl, (exchange_slot_eq q t _ t None Hw Hm) by lia. rewrite Z.sub_diag.
  change (Z.to_nat 0) with 0%nat. destruct l as [|x l]; simpl lookup; cbn iota.
  - wp_steps. eexists. do 4 (split; [done|]). cbn.
    split; [done|]. do 2 (split; [done|]). exists t. do 3 (split; [done|]). cbn.
    eapply window_ext; [by apply window_set; [|exact Hw|lia]|].
    intros i Hi. cbn. by case_decide.
  - wp_step. unfold wp at 1. rewrite (advance_tail_eq _ t) by (cbn; done || lia). cbn.
    unfold fetch_sub_count. wp_steps. cbn [count].
    rewrite Hc, bool_decide_true by (cbn; lia). cbn [assert]. wp_steps.
    eexists. do 2 (split; [done|]). cbn in *. do 2 (split; [done|]).
    split; [done|]. cbn. rewrite u64_small by lia. split; [lia|]. split; [lia|].
    exists (t + 1). split; [lia|]. split; [rewrite Hh; f_equal; lia|]. split; [done|].
    eapply window_shift; [done|by apply window_set; [|exact Hw|lia]| |].
    + intros i Hi. cbn. rewrite decide_False by lia.
      by replace (Z.to_nat (i - t)) with (S (Z.to_nat (i - (t + 1)))) by lia.
    + cbn. rewrite decide_True by done. apply lookup_ge_None_2. lia.
Qed.

Lemma create_holds `{Allocator} given capacity q :
  mpscq_create given capacity = Some q → holds q [] ∧ max q = capacity.
Proof.
  intros Hc. destruct (create_capacity_ok _ _ _ Hc) as (Hok & Hm & H1 & H2 & H3 & H4).
  split; [|done]. destruct (capacity_bounds _ Hok). split; [done|]. split; [cbn; lia|].
  split; [done|]. exists 0. rewrite H2, H3, H4, <- Hm, Z.mod_0_l by lia.
  do 3 (split; [done|]). eapply window_ext; [by apply window_empty|done].
Qed.

Lemma queue_ops_refine os q l :
  holds q l →
  wp (run_queue_ops os) (λ rs _ es, es = [] ∧ rs = spec_queue_ops (max q) os l) (Some q).
Proof.
  revert q l. induction os as [|o os IH]; intros q l Hq; [by wp_steps|].
  assert (wp (run_queue_op o) (λ r q' es, ∃ q1, q' = Some q1 ∧ es = [] ∧
    max q1 = max q ∧ r = (spec_queue_op (max q) o l).1 ∧
    holds q1 (spec_queue_op (max q) o l).2) (Some q)) as Ho.
  { destruct o as [[obj|]|]; cbn [run_queue_op spec_queue_op].
    - wp_step. eapply wp_mono; [by apply enqueue_refines|].
      intros r q' es (q1 & -> & -> & Hm & -> & Hq1). wp_steps. exists q1.
      do 3 (split; [done|]). by case_bool_decide.
    - wp_step. apply wp_unless_null. wp_steps. by exists q.
    - wp_step. eapply wp_mono; [by apply dequeue_refines|].
      intros r q' es (q1 & -> & -> & Hm & -> & Hq1). wp_steps. exists q1.
      do 3 (split; [done|]). by destruct l. }
  cbn [run_queue_ops spec_queue_ops]. wp_step. eapply wp_mono; [exact Ho|].
  intros r q' es (q1 & -> & -> & Hm & -> & Hq1).
  destruct (spec_queue_op (max q) o l) as [[b x] l']. cbn in *.
  wp_step. eapply wp_mono; [by apply IH|]. intros rs q2 es2 [-> ->]. wp_steps.
  by rewrite Hm.
Qed.

(** C24: used by one thread at a time, a new queue behaves on every sequence of
    calls as the bounded FIFO of its capacity, and no assertion ever fails. *)
Theorem mpscq_fifo `{Allocator} given capacity q os :
  mpscq_create given capacity = Some q →
  wp (run_queue_ops os) (λ rs _ es, es = [] ∧ rs = spec_queue_ops capacity os [])
    (Some q).
Proof.
  intros Hc. destruct (create_holds _ _ _ Hc) as [Hq <-]. by apply queue_ops_refine.
Qed.

(** Two messages, one too many, and a wrap around the ring. *)
Definition sample_queue_ops : list queue_op :=
  [Enqueue (Some 1%positive); Enqueue (Some 2%positive); Enqueue (Some 3%positive);
   Dequeue; Enqueue (Some 4%positive); Dequeue; Dequeue; Dequeue].

Lemma mpscq_fifo_witness :
  ∃ q, mpscq_create (H := alloc_always) false 2 = Some q ∧
    wp (run_queue_ops sample_queue_ops)
      (λ rs _ es, es = [] ∧ rs = [(true, None); (true, None); (false, None);
         (false, Some 1%positive); (true, None); (false, Some 2%positive);
         (false, Some 4%positive); (false, None)]) (Some q).
Proof.
  eexists. split; [reflexivity|].
  apply (mpscq_fifo (H := alloc_always) false 2). reflexivity.
Defined.

End Mpscq.
