(* ===== verification/Sender.v ===== *)
(** * The message sender ([message_sender_t] of [cbits/message_chan.c])

    A reference-counted gate in front of the control queue.  One word holds the
    closed bit and the number of producers inside; closing waits for them. *)

From S2P Require Import Prelude.

Open Scope Z_scope.
Open Scope record_scope.

Module Sender.

Definition SENDER_CLOSED_BIT : Z := Z.shiftl 1 63.
Definition SENDER_PRODUCER_MASK : Z := SENDER_CLOSED_BIT - 1.

(** [struct message_sender_s]: the atomics and whether [async_handle] is set.
    The queue pointer never changes; the mutex and the condition are scheduled
    by [Channel.v]. *)
Record message_sender := Mk {
  references : Z;
  state : Z;
  async_handle : bool
}.
#[export] Instance message_sender_eta : Eta message_sender :=
  λ s, Mk (references s) (state s) (async_handle s).

Definition sizeof_message_sender : Z := 128.

(** [uv_mutex_init] and [uv_cond_init] are libuv's answers. *)
Definition message_sender_create `{Allocator} (uv_mutex_init uv_cond_init : Z) :
    option message_sender :=
  match malloc sizeof_message_sender with
  | None => None
  | Some _ =>
      if bool_decide (uv_mutex_init ≠ 0) then None
      else if bool_decide (uv_cond_init ≠ 0) then None
      else Some (Mk 1 0 false)
  end.

(** The retry loop takes effect at its successful compare-and-swap. *)
Definition message_sender_retain : M (option message_sender) bool :=
  unless_null false
    (s ← gets id;
     if bool_decide (references s = 0) || bool_decide (references s = SIZE_MAX)
     then mret false
     else
       modify (λ s, s <| references ::= λ r, r + 1 |>);;
       mret true).

(** The result is whether the sender was freed. *)
Definition message_sender_release : M (option message_sender) bool :=
  unless_null false
    (s ← gets id;
     modify (λ s, s <| references ::= λ r, u64 (r - 1) |>);;
     mret (bool_decide (references s = 1))).

(** *** The state word *)

Definition is_closed (st : Z) : bool := negb (bool_decide (Z.land st SENDER_CLOSED_BIT = 0)).
Definition producers (st : Z) : Z := Z.land st SENDER_PRODUCER_MASK.

(** [message_sender_enter] refuses a closed sender, or one more producer than
    the word can count. *)
Definition enter_refused (st : Z) : bool :=
  is_closed st || bool_decide (producers st = SENDER_PRODUCER_MASK).

(** [message_sender_leave] signals when it was the last producer of a closed
    sender; [previous] is the word before the subtraction. *)
Definition last_producer (previous : Z) : bool :=
  is_closed previous && bool_decide (producers previous = 1).

(** Without interference: [message_sender_enter], [message_sender_leave] (the
    result is whether the closer is signalled) and [message_sender_close]. *)
Definition message_sender_enter : M message_sender bool :=
  s ← gets id;
  if enter_refused (state s) then mret false
  else modify (λ s, s <| state ::= λ st, u64 (st + 1) |>);; mret true.

Definition message_sender_leave : M message_sender bool :=
  s ← gets id;
  modify (λ s, s <| state ::= λ st, u64 (st - 1) |>);;
  mret (last_producer (state s)).

Definition message_sender_close : M (option message_sender) () :=
  unless_null ()
    (modify (λ s, s <| state ::= λ st, Z.lor st SENDER_CLOSED_BIT |>);;
     s ← gets id;
     if bool_decide (producers (state s) ≠ 0) then fault (* waits *)
     else modify (λ s, s <| async_handle := false |>)).

(** The word of a sender with [n] producers. *)
Definition word (closed : bool) (n : Z) : Z := (if closed then 2 ^ 63 else 0) + n.

Lemma closed_bit_eq : SENDER_CLOSED_BIT = 2 ^ 63.
Proof. reflexivity. Qed.

Lemma mask_eq : SENDER_PRODUCER_MASK = 2 ^ 63 - 1.
Proof. reflexivity. Qed.

Lemma producers_word c n : 0 ≤ n < 2 ^ 63 → producers (word c n) = n.
Proof.
  intros Hn. unfold producers, word. rewrite mask_eq.
  change (2 ^ 63 - 1) with (Z.ones 63). rewrite Z.land_ones by lia.
  destruct c.
  - rewrite <- (Z.mul_1_l (2 ^ 63)) at 1. rewrite Z.add_comm, Z.mod_add by lia.
    by apply Z.mod_small.
  - by apply Z.mod_small.
Qed.

Lemma testbit_word c n : 0 ≤ n < 2 ^ 63 → Z.testbit (word c n) 63 = c.
Proof.
  intros Hn. unfold word. destruct c.
  - apply Z.testbit_true; [lia|]. rewrite <- (Z.mul_1_l (2 ^ 63)) at 1.
    rewrite Z.div_add_l, Z.div_small by lia. done.
  - apply Z.testbit_false; [lia|]. rewrite Z.div_small by lia. done.
Qed.

Lemma is_closed_word c n : 0 ≤ n < 2 ^ 63 → is_closed (word c n) = c.
Proof.
  intros Hn. unfold is_closed. rewrite closed_bit_eq.
  transitivity (Z.testbit (word c n) 63); [|by apply testbit_word].
  destruct (Z.testbit (word c n) 63) eqn:E.
  - rewrite bool_decide_eq_false_2; [done|]. intros H0.
    assert (Z.testbit (Z.land (word c n) (2 ^ 63)) 63 = true) as H1
      by (by rewrite Z.land_spec, E).
    by rewrite H0 in H1.
  - rewrite bool_decide_eq_true_2; [done|]. apply Z.bits_inj'. intros k Hk.
    rewrite Z.land_spec, Z.bits_0, Z.pow2_bits_eqb by lia.
    destruct (Z.eqb_spec 63 k) as [<-|]; [by rewrite E|apply andb_false_r].
Qed.

Lemma close_word c n : 0 ≤ n < 2 ^ 63 → Z.lor (word c n) SENDER_CLOSED_BIT = word true n.
Proof.
  intros Hn. rewrite closed_bit_eq. apply Z.bits_inj'. intros k Hk.
  rewrite Z.lor_spec, Z.pow2_bits_eqb by lia.
  destruct (Z.eqb_spec 63 k) as [<-|Hne].
  - by rewrite orb_true_r, testbit_word.
  - rewrite orb_false_r. unfold word. destruct c; [done|].
    rewrite Z.add_0_l. destruct (Z.lt_ge_cases k 63) as [Hlt|Hge].
    + rewrite <- (Z.mod_pow2_bits_low n 63 k), <- (Z.mod_pow2_bits_low (_ + n) 63 k) by lia.
      rewrite <- (Z.mul_1_l (2 ^ 63)) at 2. rewrite (Z.add_comm _ n), Z.mod_add by lia. done.
    + rewrite !Z.bits_above_log2; [done| | | |]; try lia.
      * destruct (decide (2 ^ 63 + n = 0)); [lia|]. apply Z.log2_lt_pow2; [lia|].
        assert (2 ^ 64 ≤ 2 ^ k) by (apply Z.pow_le_mono_r; lia).
        change (2 ^ 64) with (2 ^ 63 + 2 ^ 63) in *. lia.
      * destruct (decide (n = 0)) as [->|]; [cbn; lia|]. apply Z.log2_lt_pow2; [lia|].
        assert (2 ^ 64 ≤ 2 ^ k) by (apply Z.pow_le_mono_r; lia).
        change (2 ^ 64) with (2 ^ 63 + 2 ^ 63) in *. lia.
Qed.

Lemma enter_word c n :
  0 ≤ n < 2 ^ 63 → enter_refused (word c n) = false →
  c = false ∧ n + 1 < 2 ^ 63 ∧ u64 (word c n + 1) = word c (n + 1).
Proof.
  intros Hn. unfold enter_refused. rewrite is_closed_word, producers_word by done.
  intros [-> Hm%bool_decide_eq_false]%orb_false_iff. rewrite mask_eq in Hm.
  split; [done|]. split; [lia|]. unfold word. rewrite u64_small; lia.
Qed.

Lemma leave_word c n :
  0 < n < 2 ^ 63 → u64 (word c n - 1) = word c (n - 1) ∧
    last_producer (word c n) = c && bool_decide (n = 1).
Proof.
  intros Hn. unfold last_producer. rewrite is_closed_word, producers_word by lia.
  split; [|done]. unfold word. destruct c; rewrite u64_small; lia.
Qed.

(** ** References *)

Inductive ref_op := Retain | Release.

(** The references granted and given back by a history of calls; the object is
    freed by the call that gives back the last one. *)
Fixpoint run_refs (os : list ref_op) : M (option message_sender) (list bool) :=
  match os with
  | [] => mret []
  | Retain :: os => r ← message_sender_retain; rs ← run_refs os; mret (r :: rs)
  | Release :: os => r ← message_sender_release; rs ← run_refs os; mret (r :: rs)
  end.

(** The references held after a history from [n], each retain being granted. *)
Fixpoint held (n : Z) (os : list ref_op) : Z :=
  match os with
  | [] => n
  | Retain :: os => held (n + 1) os
  | Release :: os => held (n - 1) os
  end.

(** A history in which only references that are held are given back. *)
Fixpoint disciplined (n : Z) (os : list ref_op) : Prop :=
  match os with
  | [] => True
  | Retain :: os => 0 < n < SIZE_MAX ∧ disciplined (n + 1) os
  | Release :: os => 0 < n ∧ disciplined (n - 1) os
  end.

(** Which call frees the object. *)
Fixpoint frees (n : Z) (os : list ref_op) : list bool :=
  match os with
  | [] => []
  | Retain :: os => true :: frees (n + 1) os
  | Release :: os => bool_decide (n = 1) :: frees (n - 1) os
  end.

Lemma run_refs_spec os s :
  0 ≤ references s ≤ SIZE_MAX → disciplined (references s) os →
  run_refs os (Some s) =
    Some (frees (references s) os, Some (s <| references := held (references s) os |>), []).
Proof.
  revert s. induction os as [|[] os IH]; intros [r st ah] Hr Hd; cbn in *; [done| |].
  - destruct Hd as [Hn Hd]. unfold message_sender_retain. run_m.
    rewrite !bool_decide_false by lia. cbn. rewrite IH by (cbn; done || lia). done.
  - destruct Hd as [Hn Hd]. unfold message_sender_release. run_m.
    rewrite (u64_small (r - 1)) by lia.
    rewrite IH by (cbn; done || lia). done.
Qed.

Lemma frees_lookup n os i :
  os !! i = Some Release →
  frees n os !! i = Some (bool_decide (held n (take (S i) os) = 0)).
Proof.
  revert n i. induction os as [|o os IH]; intros n [|i] Ho; cbn in *; try done.
  - injection Ho as ->. cbn. rewrite take_0. cbn. f_equal.
    apply bool_decide_ext. lia.
  - destruct o; cbn; by apply IH.
Qed.

(** C25: In every history of retains and releases in which only references that
    are held are used, every retain is granted and a release frees the sender
    exactly when it gives back the last reference. *)
Theorem sender_freed_by_last_release os s :
  references s = 1 → disciplined 1 os →
  ∃ rs, run_refs os (Some s) = Some (rs, Some (s <| references := held 1 os |>), []) ∧
    (∀ i, os !! i = Some Retain → rs !! i = Some true) ∧
    (∀ i, os !! i = Some Release →
      rs !! i = Some (bool_decide (held 1 (take (S i) os) = 0))).
Proof.
  intros Hr Hd. exists (frees 1 os). split; [|split].
  - rewrite <- Hr in *. apply run_refs_spec; [lia|done].
  - clear. generalize 1. induction os as [|o os IH]; intros n [|i] Ho; cbn in *; try done.
    + by simplify_eq.
    + destruct o; cbn; by apply IH.
  - intros i. apply frees_lookup.
Qed.

Lemma sender_freed_by_last_release_witness :
  ∃ rs, run_refs [Retain; Release; Release] (Some (Mk 1 0 true)) =
    Some (rs, Some (Mk 0 0 true), []) ∧ rs !! 2%nat = Some true.
Proof.
  destruct (sender_freed_by_last_release [Retain; Release; Release] (Mk 1 0 true))
    as (rs & H & _ & H2); [reflexivity|cbn; lia|].
  exists rs. split; [exact H|]. apply (H2 2%nat). reflexivity.
Defined.

End Sender.
