(* ===== verification/Channel.v ===== *)
(** * Producers, the closer and the drain, interleaved

    [enqueue_outer_message] runs on any number of threads while the agent thread
    dequeues, closes the sender and drains the queue.  Every shared access of
    the code is one step; the schedule and the outcomes of [calloc] and of weak
    compare-and-swap are arbitrary.  Memory is sequentially consistent. *)

From S2P Require Import Prelude Mpscq Sender.
Import Mpscq Sender.

Open Scope Z_scope.
Open Scope record_scope.

Module Channel.

(** [enum enqueue_message_result]; a message taken carries its ticket, the
    position at which it entered the queue. *)
Inductive result := R_ok (ticket : nat) | R_full | R_out_of_memory | R_closed.

(** Where a producer is in [enqueue_outer_message]; [m] is its message. *)
Inductive pc :=
  | E_check (m : ptr)                        (* load state, test the closed bit *)
  | E_alloc (m : ptr)                        (* calloc the message *)
  | E_enter (m : ptr)                        (* enter: load state *)
  | E_cas (m : ptr) (expected : Z)           (* enter: test, compare-and-swap *)
  | E_count (m : ptr)                        (* enqueue: fetch_add count *)
  | E_backoff (m : ptr)                      (* enqueue: full, fetch_sub count *)
  | E_head (m : ptr)                         (* enqueue: fetch_add head *)
  | E_assert (m : ptr) (h : Z) (i : nat)     (* enqueue: assert the slot is free *)
  | E_put (m : ptr) (h : Z) (i : nat)        (* enqueue: exchange the slot *)
  | E_send (m : ptr) (i : nat)               (* uv_async_send(sender->async_handle) *)
  | E_leave (m : ptr) (r : result)           (* leave: fetch_sub state *)
  | E_lock (m : ptr) (r : result)            (* leave: lock close_mutex *)
  | E_signal (m : ptr) (r : result)          (* leave: signal producers_done *)
  | E_unlock (m : ptr) (r : result)          (* leave: unlock close_mutex *)
  | E_ret (m : ptr) (r : result)             (* returned *)
  | E_bad.                                   (* failed assertion, or NULL handle *)

(** Where the agent thread is: dequeuing in the event loop or in the drain of
    the shutdown, or in [message_sender_close]. *)
Inductive apc :=
  | A_loop
  | A_take (drain : bool)                    (* dequeue: exchange the tail slot *)
  | A_advance (drain : bool) (m : ptr)       (* dequeue: next slot *)
  | A_release (drain : bool) (m : ptr)       (* dequeue: fetch_sub count *)
  | A_handle (m : ptr)                       (* the handler of a message *)
  | A_close                                  (* close: fetch_or closed bit *)
  | A_lock                                   (* close: lock close_mutex *)
  | A_check                                  (* close: load state *)
  | A_sleep                                  (* close: about to uv_cond_wait *)
  | A_wait                                   (* close: in uv_cond_wait *)
  | A_clear                                  (* close: async_handle = NULL *)
  | A_unlock                                 (* close: unlock close_mutex *)
  | A_bad.                                   (* failed assertion *)

Inductive owner := By_agent | By_thread (t : nat).

#[export] Instance owner_eq_dec : EqDecision owner.
Proof. solve_decision. Defined.

(** [async_pending]: [uv_async_send] was called and its callback has not started.
    [waiting]: the closer sleeps on [producers_done] and was not signalled.
    [drained]: the shutdown has emptied the queue ([registry.buckets] is NULL).
    [tickets] and [received] record the messages by the order of their tickets
    and the messages the agent took. *)
Record sys := Sys {
  sender : message_sender;
  mutex : option owner;
  waiting : bool;
  async_pending : bool;
  queue : mpscq;
  threads : gmap nat pc;
  agent : apc;
  drained : bool;
  tickets : list ptr;
  received : list ptr
}.
#[export] Instance sys_eta : Eta sys := λ s,
  Sys (sender s) (mutex s) (waiting s) (async_pending s) (queue s) (threads s) (agent s)
      (drained s) (tickets s) (received s).

Definition goto (t : nat) (p : pc) (s : sys) : sys :=
  s <| threads ::= λ th, <[t := p]> th |>.

Definition set_state (st : Z) (s : sys) : sys :=
  s <| sender ::= λ d, d <| state := st |> |>.

(** One access to the queue by thread [t], which fails an assertion if the
    access is not defined. *)
Definition access {A} (t : nat) (m : M mpscq A) (k : A → sys → sys) (s : sys) : sys :=
  match m (queue s) with
  | Some (a, q, _) => k a (s <| queue := q |>)
  | None => goto t E_bad s
  end.

(** One step of thread [t]; [b] is the outcome of [calloc] or of a weak
    compare-and-swap; [None] when the thread has finished or is blocked. *)
Definition thread_step (t : nat) (b : bool) (s : sys) : option sys :=
  match threads s !! t with
  | Some (E_check m) =>
      Some (goto t (if is_closed (state (sender s)) then E_ret m R_closed else E_alloc m) s)
  | Some (E_alloc m) => Some (goto t (if b then E_enter m else E_ret m R_out_of_memory) s)
  | Some (E_enter m) => Some (goto t (E_cas m (state (sender s))) s)
  | Some (E_cas m expected) =>
      if enter_refused expected then Some (goto t (E_ret m R_closed) s)
      else if bool_decide (state (sender s) = expected) && b then
        Some (goto t (E_count m) (set_state (u64 (expected + 1)) s))
      else Some (goto t (E_cas m (state (sender s))) s)
  | Some (E_count m) =>
      Some (access t fetch_add_count (λ c s',
        goto t (if bool_decide (max (queue s) ≤ c) then E_backoff m else E_head m) s') s)
  | Some (E_backoff m) =>
      Some (access t fetch_sub_count (λ _ s, goto t (E_leave m R_full) s) s)
  | Some (E_head m) =>
      Some (access t fetch_add_head (λ h s',
        goto t (E_assert m h (length (tickets s))) (s' <| tickets ::= λ l, l ++ [m] |>)) s)
  | Some (E_assert m h i) =>
      Some (access t (assert_free h) (λ _ s, goto t (E_put m h i) s) s)
  | Some (E_put m h i) =>
      Some (access t (put_slot m h) (λ _ s, goto t (E_send m i) s) s)
  | Some (E_send m i) =>
      Some (if async_handle (sender s)
            then goto t (E_leave m (R_ok i)) (s <| async_pending := true |>)
            else goto t E_bad s)
  | Some (E_leave m r) =>
      let previous := state (sender s) in
      Some (goto t (if last_producer previous then E_lock m r else E_ret m r)
              (set_state (u64 (previous - 1)) s))
  | Some (E_lock m r) =>
      match mutex s with
      | None => Some (goto t (E_signal m r) (s <| mutex := Some (By_thread t) |>))
      | Some _ => None
      end
  | Some (E_signal m r) => Some (goto t (E_unlock m r) (s <| waiting := false |>))
  | Some (E_unlock m r) => Some (goto t (E_ret m r) (s <| mutex := None |>))
  | Some (E_ret _ _) | Some E_bad | None => None
  end.

Definition at_agent (a : apc) (s : sys) : sys := s <| agent := a |>.

(** One step of the agent; [b] chooses what it does next in the event loop
    (dispatch a pending async event, or another callback that shuts down) or
    after a message, and lets [uv_cond_wait] return without a signal.  A handler
    that shut down goes on dequeuing, which needs no event. *)
Definition agent_step (b : bool) (s : sys) : option sys :=
  match agent s with
  | A_loop =>
      if b then
        if async_pending s || drained s
        then Some (at_agent (A_take false) (s <| async_pending := false |>))
        else None
      else Some (at_agent A_close s)
  | A_take drain =>
      match exchange_slot (tail (queue s)) None (queue s) with
      | Some (None, q, _) =>
          let s := s <| queue := q |> in
          Some (at_agent A_loop (if drain then s <| drained := true |> else s))
      | Some (Some m, q, _) => Some (at_agent (A_advance drain m) (s <| queue := q |>))
      | None => Some (at_agent A_bad s)
      end
  | A_advance drain m =>
      match advance_tail (queue s) with
      | Some (_, q, _) => Some (at_agent (A_release drain m) (s <| queue := q |>))
      | None => Some (at_agent A_bad s)
      end
  | A_release drain m =>
      match (r ← fetch_sub_count; assert (bool_decide (0 < r))) (queue s) with
      | Some (_, q, _) =>
          Some (at_agent (if drain then A_take true else A_handle m)
            (s <| queue := q |> <| received ::= λ l, l ++ [m] |>))
      | None => Some (at_agent A_bad s)
      end
  | A_handle m => Some (at_agent (if b then A_take false else A_close) s)
  | A_close =>
      Some (at_agent A_lock (set_state (Z.lor (state (sender s)) SENDER_CLOSED_BIT) s))
  | A_lock =>
      match mutex s with
      | None => Some (at_agent A_check (s <| mutex := Some By_agent |>))
      | Some _ => None
      end
  | A_check =>
      if bool_decide (producers (state (sender s)) = 0) then Some (at_agent A_clear s)
      else Some (at_agent A_sleep s)
  | A_sleep => Some (at_agent A_wait (s <| mutex := None |> <| waiting := true |>))
  | A_wait =>
      if negb (waiting s) || b then
        match mutex s with
        | None =>
            Some (at_agent A_check (s <| mutex := Some By_agent |> <| waiting := false |>))
        | Some _ => None
        end
      else None
  | A_clear =>
      Some (at_agent A_unlock (s <| sender ::= λ d, d <| async_handle := false |> |>))
  | A_unlock =>
      Some (at_agent (if drained s then A_loop else A_take true) (s <| mutex := None |>))
  | A_bad => None
  end.

(** A new call of [enqueue_outer_message], a step of a thread, or of the agent. *)
Inductive action := Spawn (t : nat) (m : ptr) | Thread (t : nat) (b : bool) | Agent (b : bool).

Definition act (a : action) (s : sys) : option sys :=
  match a with
  | Spawn t m =>
      match threads s !! t with
      | None => Some (goto t (E_check m) s)
      | Some _ => None
      end
  | Thread t b => thread_step t b s
  | Agent b => agent_step b s
  end.

Definition step (s s' : sys) : Prop := ∃ a, act a s = Some s'.

Fixpoint run (acts : list action) (s : sys) : option sys :=
  match acts with
  | [] => Some s
  | a :: acts => s ← act a s; run acts s
  end.

(** The state after [init_async_check_messages]: an empty queue, an open sender
    with its handle. *)
Definition initial (q : mpscq) : sys :=
  Sys (Sender.Mk 1 0 true) None false false q ∅ A_loop false [] [].

Definition reachable (q : mpscq) (s : sys) : Prop := rtc step (initial q) s.

Lemma run_reachable q acts s : run acts (initial q) = Some s → reachable q s.
Proof.
  unfold reachable. generalize (initial q). induction acts as [|a acts IH]; intros s0 Hr.
  - injection Hr as ->. apply rtc_refl.
  - cbn in Hr. destruct (act a s0) as [s1|] eqn:E; [|done].
    eapply rtc_l; [by exists a|]. by apply IH.
Qed.

(** ** Classes of program points *)

(** Between [message_sender_enter] and the subtraction of [message_sender_leave]. *)
Definition in_region (p : pc) : bool :=
  match p with
  | E_count _ | E_backoff _ | E_head _ | E_assert _ _ _ | E_put _ _ _
  | E_send _ _ | E_leave _ _ => true
  | _ => false
  end.
Definition is_backoff (p : pc) : bool := match p with E_backoff _ => true | _ => false end.
Definition is_head (p : pc) : bool := match p with E_head _ => true | _ => false end.
(** About to signal the closer. *)
Definition signalling (p : pc) : bool :=
  match p with E_lock _ _ | E_signal _ _ => true | _ => false end.
Definition holds_mutex (p : pc) : bool :=
  match p with E_signal _ _ | E_unlock _ _ => true | _ => false end.
(** A message with a ticket that is not in its slot yet. *)
Definition pending_of (p : pc) : option (ptr * Z * nat) :=
  match p with E_assert m h i | E_put m h i => Some (m, h, i) | _ => None end.
(** A message that is in the queue, with its ticket. *)
Definition delivered_of (p : pc) : option (ptr * nat) :=
  match p with
  | E_send m i => Some (m, i)
  | E_leave m (R_ok i) | E_lock m (R_ok i) | E_signal m (R_ok i) | E_unlock m (R_ok i)
  | E_ret m (R_ok i) => Some (m, i)
  | _ => None
  end.
(** The ticket of a message that entered the queue. *)
Definition ticket_of (p : pc) : option nat :=
  match pending_of p with
  | Some (_, _, i) => Some i
  | None => snd <$> delivered_of p
  end.

(** The message taken from its slot and not counted as received yet. *)
Definition in_hand (a : apc) : list ptr :=
  match a with A_advance _ m | A_release _ m => [m] | _ => [] end.
Definition advanced (a : apc) : Z := match a with A_release _ _ => 1 | _ => 0 end.
Definition agent_holds (a : apc) : bool :=
  match a with A_check | A_sleep | A_clear | A_unlock => true | _ => false end.
Definition draining (a : apc) : bool :=
  match a with A_take d | A_advance d _ | A_release d _ => d | _ => false end.
(** Past the test that found no producer left. *)
Definition quiet (a : apc) : bool :=
  match a with A_clear | A_unlock => true | _ => draining a end.
(** After the closed bit is set. *)
Definition closing (a : apc) : bool :=
  match a with A_lock | A_check | A_sleep | A_wait => true | _ => quiet a end.

(** Steps left to a producer until it has returned from [message_sender_leave]
    or its message is out. *)
Definition busy (p : pc) : bool := in_region p || signalling p || holds_mutex p.
Definition rank (p : pc) : Z :=
  match p with
  | E_count _ => 9 | E_head _ => 8 | E_assert _ _ _ => 7 | E_put _ _ _ => 6
  | E_send _ _ => 5 | E_backoff _ => 5 | E_leave _ _ => 4 | E_lock _ _ => 3
  | E_signal _ _ => 2 | E_unlock _ _ => 1 | _ => 0
  end.
Definition work (s : sys) : Z := total rank (threads s).

(** In [message_sender_close], before or after the wait. *)
Definition in_close (a : apc) : bool :=
  match a with A_lock | A_check | A_sleep | A_wait | A_clear | A_unlock => true | _ => false end.

End Channel.
