(* ===== verification/ChannelGate.v ===== *)
(** * The invariant of the sender's gate

    What the word of the sender, its mutex and its condition say about the
    producers and the closer, and how each step preserves it. *)

From S2P Require Import Prelude Mpscq Sender Channel.
Import Mpscq Sender Channel.

Open Scope Z_scope.
Open Scope record_scope.

Module ChannelGate.

(** The sender's word counts the producers inside; past the test of the closer
    nobody is inside and nobody enters. *)
Definition sealed (sd : message_sender) (a : apc) (dr : bool) : bool :=
  quiet a || dr || negb (async_handle sd).

Record gate (sd : message_sender) (mx : option owner) (w : bool) (th : gmap nat pc)
    (a : apc) (dr : bool) : Prop := Gate {
  gate_count : 0 ≤ cnt in_region th < 2 ^ 63;
  gate_word : ∃ c, state sd = word c (cnt in_region th) ∧
    (closing a || sealed sd a dr = true → c = true);
  gate_sealed : sealed sd a dr = true → cnt in_region th = 0;
  gate_agent : agent_holds a = bool_decide (mx = Some By_agent);
  gate_threads : map_Forall (λ t p,
    holds_mutex p = bool_decide (mx = Some (By_thread t))) th;
  gate_owner t : mx = Some (By_thread t) → is_Some (th !! t);
  gate_signal : a = A_sleep ∨ w = true →
    0 < cnt in_region th ∨ map_Exists (λ _ p, signalling p = true) th;
  gate_waiting : w = true → a = A_wait
}.

Lemma map_Forall_update {A} (P : nat → A → Prop) (th : gmap nat A) t a :
  map_Forall P th → P t a → map_Forall P (<[t := a]> th).
Proof. intros. by apply map_Forall_insert_2. Qed.

(** Another thread than the one that moved still satisfies what it did. *)
Lemma map_Exists_update {A} (P : A → Prop) (th : gmap nat A) t a b :
  th !! t = Some a → (P a → P b) → map_Exists (λ _, P) th →
  map_Exists (λ _, P) (<[t := b]> th).
Proof.
  intros Ht Hab (t' & p & Hp & HP). destruct (decide (t' = t)) as [->|].
  - exists t, b. rewrite lookup_insert_eq. naive_solver.
  - exists t', p. by rewrite lookup_insert_ne.
Qed.

(** A step of a producer that touches neither the word nor the mutex. *)
Lemma gate_move sd mx w th a dr t p p' :
  gate sd mx w th a dr → th !! t = Some p → in_region p' = in_region p →
  holds_mutex p' = holds_mutex p → (signalling p = true → signalling p' = true) →
  gate sd mx w (<[t := p']> th) a dr.
Proof.
  intros [Hn Hw Hs Ha Ht Ho Hg Hwa] Hp Hr Hm Hsig.
  assert (cnt in_region (<[t := p']> th) = cnt in_region th) as Hc
    by (rewrite (cnt_update _ _ _ p) by done; rewrite Hr; lia).
  split; rewrite ?Hc; try done.
  - apply map_Forall_update; [done|]. rewrite Hm. by apply (Ht t p).
  - intros t' Ht'. destruct (decide (t' = t)) as [->|].
    + rewrite lookup_insert_eq. eauto.
    + rewrite lookup_insert_ne by done. eauto.
  - intros H. destruct (Hg H); [by left|right].
    by apply (map_Exists_update (λ p, signalling p = true) _ _ p).
Qed.

(** A new thread, or one that has only looked. *)
Lemma gate_spawn sd mx w th a dr t m :
  gate sd mx w th a dr → th !! t = None → gate sd mx w (<[t := E_check m]> th) a dr.
Proof.
  intros [Hn Hw Hs Ha Ht Ho Hg Hwa] Hp.
  assert (cnt in_region (<[t := E_check m]> th) = cnt in_region th) as Hc
    by (rewrite cnt_new by done; cbn; lia).
  split; rewrite ?Hc; try done.
  - apply map_Forall_update; [done|]. cbn. symmetry. apply bool_decide_eq_false.
    intros (p & Hp')%Ho. congruence.
  - intros t' (p & Hp')%Ho. destruct (decide (t' = t)) as [->|]; [congruence|].
    rewrite lookup_insert_ne by done. eauto.
  - intros H. destruct (Hg H) as [|(t' & p & Ht' & Hp')]; [by left|right].
    exists t', p. rewrite lookup_insert_ne by (intros ->; congruence). done.
Qed.

Lemma gate_closed_cases sd mx w th a dr :
  gate sd mx w th a dr → ∃ c, 0 ≤ cnt in_region th < 2 ^ 63 ∧
    state sd = word c (cnt in_region th) ∧ is_closed (state sd) = c ∧
    producers (state sd) = cnt in_region th ∧
    (closing a || sealed sd a dr = true → c = true).
Proof.
  intros [Hn (c & Hw & Hc) _ _ _ _ _ _]. exists c. rewrite Hw.
  rewrite is_closed_word, producers_word by done. done.
Qed.

Lemma gate_enter sd mx w th a dr t m expected :
  gate sd mx w th a dr → th !! t = Some (E_cas m expected) →
  enter_refused expected = false → state sd = expected →
  gate (sd <| state := u64 (expected + 1) |>) mx w (<[t := E_count m]> th) a dr.
Proof.
  intros Hg Hp Hr <-. destruct (gate_closed_cases _ _ _ _ _ _ Hg) as (c & Hn & Hw & _ & _ & Hc).
  rewrite Hw in Hr. apply enter_word in Hr as (-> & Hlt & He); [|done].
  destruct Hg as [_ _ Hs Ha Ht Ho Hg Hwa].
  assert (cnt in_region (<[t := E_count m]> th) = cnt in_region th + 1) as Hcnt
    by (rewrite (cnt_update _ _ _ (E_cas m (state sd))) by done; cbn; lia).
  assert (closing a || sealed sd a dr = false) as Hf
    by (destruct (closing a || sealed sd a dr); [by specialize (Hc eq_refl)|done]).
  split; rewrite ?Hcnt; try done.
  - lia.
  - exists false. cbn. rewrite Hw, He. split; [done|]. by intros ?%Hc.
  - change (sealed (sd <| state := u64 (state sd + 1) |>) a dr) with (sealed sd a dr).
    apply orb_false_iff in Hf as [_ ->]. done.
  - apply map_Forall_update; [done|]. by apply (Ht t _ Hp).
  - intros t' Ht'. destruct (decide (t' = t)) as [->|].
    + rewrite lookup_insert_eq. eauto.
    + rewrite lookup_insert_ne by done. eauto.
  - intros ?. left. lia.
Qed.

Lemma gate_leave sd mx w th a dr t m r :
  gate sd mx w th a dr → th !! t = Some (E_leave m r) →
  gate (sd <| state := u64 (state sd - 1) |>) mx w
    (<[t := if last_producer (state sd) then E_lock m r else E_ret m r]> th) a dr.
Proof.
  intros Hg Hp. destruct (gate_closed_cases _ _ _ _ _ _ Hg) as (c & Hn & Hw & _ & _ & Hc).
  assert (0 < cnt in_region th) as Hpos by (by apply (cnt_pos _ _ t (E_leave m r))).
  destruct (leave_word c (cnt in_region th)) as [He Hl]; [lia|].
  destruct Hg as [_ _ Hs Ha Ht Ho Hg Hwa]. rewrite Hw, He, Hl.
  set (p' := if c && _ then E_lock m r else E_ret m r).
  assert (in_region p' = false ∧ holds_mutex p' = false) as [Hr' Hm']
    by (unfold p'; by destruct (_ && _)).
  assert (cnt in_region (<[t := p']> th) = cnt in_region th - 1) as Hcnt.
  { rewrite (cnt_update _ _ _ (E_leave m r)) by done. rewrite Hr'. cbn. lia. }
  split; rewrite ?Hcnt; try done.
  - lia.
  - by exists c.
  - intros Hse%Hs. lia.
  - apply map_Forall_update; [done|]. rewrite Hm'. by apply (Ht t _ Hp).
  - intros t' Ht'. destruct (decide (t' = t)) as [->|].
    + rewrite lookup_insert_eq. eauto.
    + rewrite lookup_insert_ne by done. eauto.
  - intros Hw'. assert (c = true) as ->.
    { apply Hc. destruct Hw' as [->|Hwt]; [done|]. by rewrite (Hwa Hwt). }
    unfold p'. case_bool_decide as H1; [right|left; lia].
    exists t, (E_lock m r). by rewrite lookup_insert_eq.
Qed.

Lemma gate_lock sd w th a dr t m r :
  gate sd None w th a dr → th !! t = Some (E_lock m r) →
  gate sd (Some (By_thread t)) w (<[t := E_signal m r]> th) a dr.
Proof.
  intros [Hn Hw Hs Ha Ht Ho Hg Hwa] Hp.
  assert (cnt in_region (<[t := E_signal m r]> th) = cnt in_region th) as Hcnt
    by (rewrite (cnt_update _ _ _ (E_lock m r)) by done; cbn; lia).
  split; rewrite ?Hcnt; try done.
  - intros t' p'. destruct (decide (t' = t)) as [->|].
    + rewrite lookup_insert_eq. intros [= <-]. cbn. by rewrite bool_decide_true.
    + rewrite lookup_insert_ne by done. intros Hp'. rewrite (Ht t' p' Hp').
      rewrite !bool_decide_false; congruence.
  - intros t' [= <-]. rewrite lookup_insert_eq. eauto.
  - intros H. destruct (Hg H); [by left|right].
    by apply (map_Exists_update (λ p, signalling p = true) _ _ (E_lock m r)).
Qed.

Lemma gate_mutex sd mx w th a dr t p :
  gate sd mx w th a dr → th !! t = Some p → holds_mutex p = true →
  mx = Some (By_thread t).
Proof.
  intros Hg Hp Hm. rewrite (gate_threads _ _ _ _ _ _ Hg t p Hp) in Hm.
  by apply bool_decide_eq_true in Hm.
Qed.

(** The closer holds the mutex until it sleeps, so that the signal finds it
    asleep. *)
Lemma gate_signal_step sd mx w th a dr t m r :
  gate sd mx w th a dr → th !! t = Some (E_signal m r) →
  gate sd mx false (<[t := E_unlock m r]> th) a dr.
Proof.
  intros HG Hp. pose proof HG as [Hn Hw Hs Ha Ht Ho Hg Hwa].
  assert (cnt in_region (<[t := E_unlock m r]> th) = cnt in_region th) as Hcnt
    by (rewrite (cnt_update _ _ _ (E_signal m r)) by done; cbn; lia).
  assert (mx = Some (By_thread t)) as Hmx
    by (by apply (gate_mutex _ _ _ _ _ _ _ _ HG Hp)).
  split; rewrite ?Hcnt; try done.
  - apply map_Forall_update; [done|]. by apply (Ht t _ Hp).
  - intros t' Ht'. destruct (decide (t' = t)) as [->|].
    + rewrite lookup_insert_eq. eauto.
    + rewrite lookup_insert_ne by done. eauto.
  - intros [->|]; [|done]. rewrite Hmx in Ha. cbn in Ha. done.
Qed.

Lemma gate_unlock sd mx w th a dr t m r :
  gate sd mx w th a dr → th !! t = Some (E_unlock m r) →
  gate sd None w (<[t := E_ret m r]> th) a dr.
Proof.
  intros HG Hp. pose proof HG as [Hn Hw Hs Ha Ht Ho Hg Hwa].
  assert (cnt in_region (<[t := E_ret m r]> th) = cnt in_region th) as Hcnt
    by (rewrite (cnt_update _ _ _ (E_unlock m r)) by done; cbn; lia).
  assert (mx = Some (By_thread t)) as ->
    by (by apply (gate_mutex _ _ _ _ _ _ _ _ HG Hp)).
  split; rewrite ?Hcnt; try done.
  - intros t' p'. destruct (decide (t' = t)) as [->|].
    + rewrite lookup_insert_eq. by intros [= <-].
    + rewrite lookup_insert_ne by done. intros Hp'. rewrite (Ht t' p' Hp').
      rewrite !bool_decide_false; congruence.
  - intros H. destruct (Hg H); [by left|right].
    by apply (map_Exists_update (λ p, signalling p = true) _ _ (E_unlock m r)).
Qed.

Lemma gate_drained sd mx w th a dr :
  gate sd mx w th a dr → dr = true → cnt in_region th = 0.
Proof.
  intros Hg ->. apply (gate_sealed _ _ _ _ _ _ Hg). unfold sealed. by rewrite orb_true_r.
Qed.

(** The handle is there as long as a producer is inside. *)
Lemma gate_handle sd mx w th a dr t p :
  gate sd mx w th a dr → th !! t = Some p → in_region p = true → async_handle sd = true.
Proof.
  intros Hg Hp Hin. destruct (async_handle sd) eqn:Ha; [done|].
  pose proof (cnt_pos in_region _ _ _ Hp Hin).
  pose proof (gate_sealed _ _ _ _ _ _ Hg) as H0. unfold sealed in H0.
  rewrite Ha, orb_true_r in H0. specialize (H0 eq_refl). lia.
Qed.

(** A step of the agent, which hands the mutex to no thread. *)
Lemma gate_agent_step sd mx w th a dr sd' mx' w' a' dr' :
  gate sd mx w th a dr → state sd' = state sd →
  (∀ t, mx' = Some (By_thread t) ↔ mx = Some (By_thread t)) →
  agent_holds a' = bool_decide (mx' = Some By_agent) →
  (closing a' || sealed sd' a' dr' = true → closing a || sealed sd a dr = true) →
  (sealed sd' a' dr' = true → cnt in_region th = 0) →
  (a' = A_sleep ∨ w' = true →
    0 < cnt in_region th ∨ map_Exists (λ _ p, signalling p = true) th) →
  (w' = true → a' = A_wait) →
  gate sd' mx' w' th a' dr'.
Proof.
  intros [Hn (c & Hw & Hc) Hs Ha Ht Ho Hg Hwa] Hsd Hmx Ha' Hc' Hs' Hg' Hw'.
  split; try done.
  - exists c. rewrite Hsd. auto.
  - intros t p Hp. rewrite (Ht t p Hp). apply bool_decide_ext. by rewrite Hmx.
  - intros t Hm%Hmx. by apply Ho.
Qed.

Lemma gate_close sd mx w th dr :
  gate sd mx w th A_close dr →
  gate (sd <| state := Z.lor (state sd) SENDER_CLOSED_BIT |>) mx w th A_lock dr.
Proof.
  intros Hg. destruct (gate_closed_cases _ _ _ _ _ _ Hg) as (c & Hn & Hw & _ & _ & Hc).
  destruct Hg as [_ _ Hs Ha Ht Ho Hg Hwa]. split; try done.
  - exists true. cbn. rewrite Hw, close_word by done. done.
  - intros [|Hwt]; [done|]. by specialize (Hwa Hwt).
  - intros Hwt. by specialize (Hwa Hwt).
Qed.

End ChannelGate.
