(* ===== verification/ChannelRing.v ===== *)
(** * The invariant of the shared queue

    What the counters and slots of the queue hold at every point of the
    interleaving, and how each access preserves it. *)

From S2P Require Import Prelude Mpscq Sender Channel ChannelGate.
Import Mpscq Sender Channel ChannelGate.

Open Scope Z_scope.
Open Scope record_scope.

Module ChannelRing.

#[local] Coercion Z.of_nat : nat >-> Z.

Definition thread_ok (tk : list ptr) (T : Z) (f : Z → option ptr) (p : pc) : Prop :=
  p ≠ E_bad ∧
  (∀ m h i, pending_of p = Some (m, h, i) →
    h = u64 i ∧ T ≤ i ∧ tk !! i = Some m ∧ f i = None) ∧
  (∀ m i, delivered_of p = Some (m, i) → tk !! i = Some m).

(** Messages [rc] were received and the next one may be in the agent's hand;
    the window starts at the ticket [T] of the next message to take.  A slot of
    the window holds the message with its ticket unless a thread is about to put
    it there. *)
Record ring (q : mpscq) (th : gmap nat pc) (a : apc) (dr : bool) (tk rc : list ptr)
    (T : Z) (f : Z → option ptr) : Prop := Ring {
  ring_capacity : capacity_ok (max q);
  ring_T : T = Zlen rc + Zlen (in_hand a);
  ring_head : head q = u64 (Zlen tk);
  ring_tail : tail q = (Zlen rc + advanced a) mod max q;
  ring_prefix : rc ++ in_hand a `prefix_of` tk;
  ring_count : count q = Zlen tk - Zlen rc + cnt is_backoff th + cnt is_head th;
  ring_bound : Zlen tk - Zlen rc + cnt is_head th ≤ max q;
  ring_window : window (buffer q) (max q) T f;
  ring_beyond : ∀ i, Zlen tk ≤ i → f i = None;
  ring_slot : ∀ i : nat, T ≤ i < Zlen tk → f i = tk !! i ∨
    ∃ t p m h, th !! t = Some p ∧ pending_of p = Some (m, h, i);
  ring_threads : map_Forall (λ _, thread_ok tk T f) th;
  ring_unique : ∀ t1 t2 p1 p2 i, th !! t1 = Some p1 → ticket_of p1 = Some i →
    th !! t2 = Some p2 → ticket_of p2 = Some i → t1 = t2;
  ring_owner : ∀ i : nat, i < Zlen tk → ∃ t p, th !! t = Some p ∧ ticket_of p = Some i;
  ring_drained : dr = true → rc = tk;
  ring_agent : a ≠ A_bad
}.

(** The ticket of a thread stays the ticket of a thread. *)
Lemma ticket_update (th : gmap nat pc) t p p' t1 p1 i :
  th !! t = Some p → (ticket_of p = Some i → ticket_of p' = Some i) →
  th !! t1 = Some p1 → ticket_of p1 = Some i →
  ∃ t2 p2, <[t := p']> th !! t2 = Some p2 ∧ ticket_of p2 = Some i.
Proof.
  intros Hp Hi Hp1 Hi1. destruct (decide (t1 = t)) as [->|].
  - exists t, p'. rewrite lookup_insert_eq. simplify_eq. auto.
  - exists t1, p1. by rewrite lookup_insert_ne.
Qed.

Lemma ticket_bound tk T f p i : thread_ok tk T f p → ticket_of p = Some i → i < Zlen tk.
Proof.
  intros (_ & Hp & Hd). unfold ticket_of.
  destruct (pending_of p) as [[[m h] j]|] eqn:E1.
  - intros [= <-]. destruct (Hp _ _ _ eq_refl) as (_ & _ & Hl & _).
    apply lookup_lt_Some in Hl. lia.
  - destruct (delivered_of p) as [[m j]|] eqn:E2; [|done]. intros [= <-].
    specialize (Hd _ _ eq_refl). apply lookup_lt_Some in Hd. cbn. lia.
Qed.

(** A step of a producer that leaves the slots alone. *)
Lemma ring_counts q q' th a dr tk rc T f t p p' :
  ring q th a dr tk rc T f → th !! t = Some p → p' ≠ E_bad →
  max q' = max q → head q' = head q → tail q' = tail q → buffer q' = buffer q →
  count q' = Zlen tk - Zlen rc + cnt is_backoff (<[t := p']> th) +
    cnt is_head (<[t := p']> th) →
  Zlen tk - Zlen rc + cnt is_head (<[t := p']> th) ≤ max q →
  pending_of p' = pending_of p → ticket_of p' = ticket_of p →
  (∀ m i, delivered_of p' = Some (m, i) → tk !! i = Some m) →
  ring q' (<[t := p']> th) a dr tk rc T f.
Proof.
  intros [] Hp Hb Hm Hh Ht Hbuf Hc1 Hc2 Hpe Hti Hd.
  assert (∀ t1 p1, <[t := p']> th !! t1 = Some p1 →
    ∃ p0, th !! t1 = Some p0 ∧ ticket_of p0 = ticket_of p1) as Hsame.
  { intros t1 p1. destruct (decide (t1 = t)) as [->|].
    - rewrite lookup_insert_eq. intros [= <-]. eauto.
    - rewrite lookup_insert_ne by done. eauto. }
  split; rewrite ?Hm, ?Hh, ?Ht, ?Hbuf; try done.
  - intros i Hi. destruct (ring_slot0 i Hi) as [|(t1 & p1 & m & h & Hp1 & Hpe1)]; [by left|].
    right. destruct (decide (t1 = t)) as [->|].
    + exists t, p', m, h. rewrite lookup_insert_eq. split; [done|]. by simplify_eq; rewrite Hpe.
    + exists t1, p1, m, h. by rewrite lookup_insert_ne.
  - apply map_Forall_update; [done|]. destruct (ring_threads0 t p Hp) as (_ & H & _).
    split; [done|]. by rewrite Hpe.
  - intros t1 t2 p1 p2 i (q1 & H1 & E1)%Hsame Hq1 (q2 & H2 & E2)%Hsame Hq2.
    rewrite <- E1 in Hq1. rewrite <- E2 in Hq2. by eapply ring_unique0.
  - intros i (t1 & p1 & Hp1 & Hi)%ring_owner0. apply (ticket_update th t p p' t1 p1); [done| |done..]. by rewrite Hti.
Qed.

(** A step of a producer that does not touch the queue. *)
Lemma ring_move q th a dr tk rc T f t p p' :
  ring q th a dr tk rc T f → th !! t = Some p → p' ≠ E_bad →
  is_backoff p' = is_backoff p → is_head p' = is_head p → pending_of p' = pending_of p →
  ticket_of p' = ticket_of p →
  (∀ m i, delivered_of p' = Some (m, i) → tk !! i = Some m) →
  ring q (<[t := p']> th) a dr tk rc T f.
Proof.
  intros Hr Hp Hb Hbo Hh Hpe Hti Hd. pose proof Hr as [].
  eapply (ring_counts q q); try done.
  - rewrite !(cnt_update _ _ _ p) by done. rewrite Hbo, Hh. lia.
  - rewrite !(cnt_update _ _ _ p) by done. rewrite Hh. lia.
Qed.

(** The number of slots claimed never overflows its word. *)
Lemma ring_count_small q th a dr tk rc T f :
  ring q th a dr tk rc T f → cnt in_region th < 2 ^ 63 →
  0 ≤ count q ∧ count q + 1 ≤ SIZE_MAX ∧ Zlen rc + Zlen (in_hand a) ≤ Zlen tk ∧
  0 < max q ≤ 2305843009213693951 ∧ (max q | 2 ^ 64).
Proof.
  intros [] Hn. destruct (capacity_bounds _ ring_capacity0) as [? ?].
  destruct ring_capacity0 as [_ Hd].
  pose proof (prefix_length _ _ ring_prefix0) as Hl. rewrite length_app in Hl.
  pose proof (cnt_nonneg is_backoff th). pose proof (cnt_nonneg is_head th).
  pose proof (cnt_mono is_backoff in_region th ltac:(by intros [])).
  change (2 ^ 63) with 9223372036854775808 in *.
  split; [lia|]. split; [lia|]. split; [lia|]. split; [lia|]. done.
Qed.

Lemma ring_add_count q th a dr tk rc T f t m :
  ring q th a dr tk rc T f → th !! t = Some (E_count m) → cnt in_region th < 2 ^ 63 →
  ring (q <| count := u64 (count q + 1) |>)
    (<[t := if bool_decide (max q ≤ count q) then E_backoff m else E_head m]> th)
    a dr tk rc T f.
Proof.
  intros Hr Hp Hn. destruct (ring_count_small _ _ _ _ _ _ _ _ Hr Hn) as (H0 & H1 & _).
  pose proof Hr as []. pose proof (cnt_nonneg is_backoff th).
  case_bool_decide; eapply (ring_counts q _ _ _ _ _ _ _ _ _ (E_count m)); try done;
    rewrite ?(cnt_update _ _ _ (E_count m)) by done; cbn; rewrite ?u64_small by lia; lia.
Qed.

Lemma ring_sub_count q th a dr tk rc T f t m :
  ring q th a dr tk rc T f → th !! t = Some (E_backoff m) → cnt in_region th < 2 ^ 63 →
  ring (q <| count := u64 (count q - 1) |>) (<[t := E_leave m R_full]> th) a dr tk rc T f.
Proof.
  intros Hr Hp Hn. destruct (ring_count_small _ _ _ _ _ _ _ _ Hr Hn) as (H0 & H1 & H2 & _).
  pose proof Hr as []. pose proof (cnt_pos is_backoff th t _ Hp eq_refl).
  pose proof (cnt_nonneg is_head th).
  eapply (ring_counts q _ _ _ _ _ _ _ _ _ (E_backoff m)); try done;
    rewrite ?(cnt_update _ _ _ (E_backoff m)) by done; cbn; rewrite ?u64_small by lia; lia.
Qed.

Lemma ring_spawn q th a dr tk rc T f t m :
  ring q th a dr tk rc T f → th !! t = None →
  ring q (<[t := E_check m]> th) a dr tk rc T f.
Proof.
  intros [] Hp.
  assert (cnt is_backoff (<[t := E_check m]> th) = cnt is_backoff th) as Hc1
    by (rewrite cnt_new by done; cbn; lia).
  assert (cnt is_head (<[t := E_check m]> th) = cnt is_head th) as Hc2
    by (rewrite cnt_new by done; cbn; lia).
  split; rewrite ?Hc1, ?Hc2; try done.
  - intros i Hi. destruct (ring_slot0 i Hi) as [|(t1 & p1 & m1 & h & Hp1 & Hpe1)]; [by left|].
    right. exists t1, p1, m1, h. rewrite lookup_insert_ne by (intros ->; congruence). done.
  - by apply map_Forall_update.
  - intros t1 t2 p1 p2 i.
    destruct (decide (t1 = t)) as [->|], (decide (t2 = t)) as [->|];
      rewrite ?lookup_insert_eq, ?lookup_insert_ne by done; try (intros [= <-]; done).
    + intros ?? [= <-]. done.
    + by apply ring_unique0.
  - intros i (t1 & p1 & Hp1 & Hi)%ring_owner0. exists t1, p1.
    rewrite lookup_insert_ne; [done|congruence].
Qed.

(** A ticket: the message enters the queue's order, its slot still empty. *)
Lemma ring_ticket q th a dr tk rc T f t m :
  ring q th a dr tk rc T f → th !! t = Some (E_head m) → cnt in_region th < 2 ^ 63 →
  (dr = true → cnt in_region th = 0) →
  ring (q <| head := u64 (head q + 1) |>) (<[t := E_assert m (head q) (length tk)]> th)
    a dr (tk ++ [m]) rc T f.
Proof.
  intros Hr Hp Hn Hdr. destruct (ring_count_small _ _ _ _ _ _ _ _ Hr Hn) as (_ & _ & H2 & _).
  destruct Hr. pose proof (cnt_pos is_head th t _ Hp eq_refl) as Hpos.
  pose proof (cnt_pos in_region th t _ Hp eq_refl).
  assert (Zlen (tk ++ [m]) = Zlen tk + 1) as Hl by (rewrite length_app; cbn; lia).
  split; rewrite ?Hl, ?(cnt_update _ _ _ (E_head m)) by done; cbn; try done; try lia.
  - rewrite ring_head0. unfold u64. by rewrite Zplus_mod_idemp_l.
  - by apply prefix_app_r.
  - intros i Hi. apply ring_beyond0. lia.
  - intros i Hi. destruct (decide (i = length tk)) as [->|].
    + right. exists t, (E_assert m (head q) (length tk)), m, (head q).
      by rewrite lookup_insert_eq.
    + destruct (ring_slot0 i ltac:(lia)) as [|(t1 & p1 & m1 & h & Hp1 & Hpe1)].
      * left. rewrite lookup_app_l; [done|lia].
      * right. exists t1, p1, m1, h. rewrite lookup_insert_ne; [done|].
        intros ->. by simplify_eq.
  - apply map_Forall_update.
    + intros t1 p1 (Hb & Hpe & Hd)%ring_threads0. split; [done|]. split.
      * intros m1 h1 i (-> & ? & Hi & ?)%Hpe. pose proof (lookup_lt_Some _ _ _ Hi).
        by rewrite lookup_app_l.
      * intros m1 i Hi%Hd. pose proof (lookup_lt_Some _ _ _ Hi). by rewrite lookup_app_l.
    + split; [done|]. split; [|done]. intros m1 h1 i [= <- <- <-].
      split; [done|]. split; [lia|]. split; [apply list_lookup_middle; done|].
      by apply ring_beyond0.
  - assert (∀ t1 p1 i, th !! t1 = Some p1 → ticket_of p1 = Some i → i < length tk) as Hlt.
    { intros t1 p1 i H1%ring_threads0 Hi. by apply (ticket_bound _ _ _ _ _ H1 Hi). }
    intros t1 t2 p1 p2 i.
    destruct (decide (t1 = t)) as [->|], (decide (t2 = t)) as [->|];
      rewrite ?lookup_insert_eq, ?lookup_insert_ne by done; [done| | |].
    + intros [= <-] [= <-] H3 H4. specialize (Hlt _ _ _ H3 H4). lia.
    + intros H3 H4 [= <-] [= <-]. specialize (Hlt _ _ _ H3 H4). lia.
    + by apply ring_unique0.
  - intros i Hi. destruct (decide (i = length tk)) as [->|].
    + exists t, (E_assert m (head q) (length tk)). by rewrite lookup_insert_eq.
    + destruct (ring_owner0 i ltac:(lia)) as (t1 & p1 & Hp1 & Hi1).
      eapply ticket_update; [exact Hp| |exact Hp1|]; done.
  - intros Hd%Hdr. lia.
Qed.

(** The slot of a pending message is free. *)
Lemma ring_pending q th a dr tk rc T f t p m h i :
  ring q th a dr tk rc T f → th !! t = Some p → cnt in_region th < 2 ^ 63 →
  pending_of p = Some (m, h, i) →
  T ≤ i < T + max q ∧ f i = None ∧ h = u64 i ∧ 0 < max q ∧ (max q | 2 ^ 64) ∧ tk !! i = Some m.
Proof.
  intros Hr Hp Hn Hpi.
  destruct (ring_count_small _ _ _ _ _ _ _ _ Hr Hn) as (_ & _ & H2 & Hmax & Hd).
  destruct Hr. pose proof (cnt_nonneg is_head th).
  destruct (ring_threads0 t _ Hp) as (_ & Hpe & _).
  destruct (Hpe m h i Hpi) as (-> & HT & Hi & Hf).
  pose proof (lookup_lt_Some _ _ _ Hi) as Hlt.
  split; [lia|]. split; [done|]. split; [done|]. split; [lia|]. done.
Qed.

(** Filling the slot delivers the message. *)
Lemma ring_put q th a dr tk rc T f t m h i :
  ring q th a dr tk rc T f → th !! t = Some (E_put m h i) → cnt in_region th < 2 ^ 63 →
  ring (q <| buffer := <[Z.to_nat (i mod max q) := Some m]> (buffer q) |>)
    (<[t := E_send m i]> th) a dr tk rc T (λ j, if decide (j = i) then Some m else f j).
Proof.
  intros Hr Hp Hn.
  destruct (ring_pending _ _ _ _ _ _ _ _ _ _ m h i Hr Hp Hn eq_refl)
    as (Hrange & Hf & -> & Hmax & _ & Hi).
  pose proof (lookup_lt_Some _ _ _ Hi) as Hlt. destruct Hr.
  split; rewrite ?(cnt_update _ _ _ (E_put m (u64 i) i)) by done; cbn; try done; try lia.
  - apply window_set; [lia|done|done].
  - intros j Hj. rewrite decide_False by lia. by apply ring_beyond0.
  - intros j Hj. case_decide as Hij.
    + left. apply Nat2Z.inj in Hij as ->. done.
    + destruct (ring_slot0 j Hj) as [|(t1 & p1 & m1 & h1 & Hp1 & Hpe1)]; [by left|].
      right. exists t1, p1, m1, h1. rewrite lookup_insert_ne; [done|].
      intros ->. by simplify_eq/=.
  - intros t1 p1. destruct (decide (t1 = t)) as [->|Hne].
    + rewrite lookup_insert_eq. intros [= <-]. split; [done|]. split; [done|].
      by intros m1 i1 [= <- <-].
    + rewrite lookup_insert_ne by done. intros Hp1.
      destruct (ring_threads0 t1 p1 Hp1) as (Hb & Hpe1 & Hd).
      split; [done|]. split; [|done]. intros m1 h1 i1 H1.
      destruct (Hpe1 m1 h1 i1 H1) as (? & ? & ? & ?). split; [done|]. split; [done|].
      split; [done|]. rewrite decide_False; [done|]. intros ->%Nat2Z.inj.
      apply Hne. apply (ring_unique0 _ _ p1 (E_put m (u64 i) i) i); try done.
      unfold ticket_of. by rewrite H1.
  - intros t1 t2 p1 p2 i1 H1 H2 H3 H4.
    assert (∀ t0 p0, <[t := E_send m i]> th !! t0 = Some p0 → ∃ p', th !! t0 = Some p' ∧
      ticket_of p' = ticket_of p0) as Hsame.
    { intros t0 p0. destruct (decide (t0 = t)) as [->|].
      - rewrite lookup_insert_eq. intros [= <-]. eauto.
      - rewrite lookup_insert_ne by done. eauto. }
    apply Hsame in H1 as (q1 & H1 & E1), H3 as (q2 & H3 & E2).
    eapply ring_unique0; [exact H1| |exact H3|]; by rewrite ?E1, ?E2.
  - intros i1 (t1 & p1 & Hp1 & Hi1)%ring_owner0. eapply ticket_update; [exact Hp| |exact Hp1|]; done.
Qed.

Lemma prefix_next {A} (l k : list A) x :
  l `prefix_of` k → k !! length l = Some x → l ++ [x] `prefix_of` k.
Proof.
  intros [k' ->]. rewrite lookup_app_r, Nat.sub_diag by lia. intros Hk.
  destruct k' as [|y k']; [done|]. cbn in Hk. injection Hk as ->.
  exists k'. by rewrite <- app_assoc.
Qed.

(** A step of the agent outside the queue. *)
Lemma ring_agent_move q th a dr tk rc T f a' :
  ring q th a dr tk rc T f → in_hand a' = in_hand a → advanced a' = advanced a →
  a' ≠ A_bad → ring q th a' dr tk rc T f.
Proof. intros [] Hh Ha Hb. split; rewrite ?Hh, ?Ha; done. Qed.

(** Nobody pending: an empty tail slot means an empty queue. *)
Lemma ring_empty q th a dr tk rc T f :
  ring q th a dr tk rc T f → cnt in_region th = 0 → in_hand a = [] → f T = None → rc = tk.
Proof.
  intros Hr Hn Hh HT. destruct (ring_count_small _ _ _ _ _ _ _ _ Hr ltac:(lia)) as (_ & _ & H2 & _).
  destruct Hr. rewrite Hh, ?app_nil_r in *. cbn in *.
  destruct (decide (length rc = length tk)) as [He|Hne].
  - destruct ring_prefix0 as [k ->]. rewrite length_app in He.
    destruct k; [by rewrite app_nil_r|]. cbn in He. lia.
  - replace T with (Z.of_nat (length rc)) in * by lia.
    destruct (ring_slot0 (length rc) ltac:(lia)) as [Hf|(t & p & m & h & Hp & Hpe)].
    + rewrite HT in Hf. symmetry in Hf. apply lookup_ge_None in Hf. lia.
    + assert (in_region p = true) as Hreg by (by destruct p).
      pose proof (cnt_pos in_region th t p Hp Hreg). lia.
Qed.

Lemma ring_take q th d dr tk rc T f :
  ring q th (A_take d) dr tk rc T f → cnt in_region th < 2 ^ 63 →
  let q' := q <| buffer := <[Z.to_nat (T mod max q) := None]> (buffer q) |> in
  exchange_slot (tail q) None q = Some (f T, q', []) ∧
  match f T with
  | None => ring q' th A_loop dr tk rc T f
  | Some m => ∃ f', ring q' th (A_advance d m) dr tk rc (T + 1) f'
  end.
Proof.
  intros Hr Hn. cbn zeta.
  destruct (ring_count_small _ _ _ _ _ _ _ _ Hr Hn) as (_ & _ & H2 & Hmax & _).
  destruct Hr. pose proof (cnt_nonneg is_head th). cbn in *.
  assert (T = Zlen rc) as HT by lia. rewrite Z.add_0_r, <- HT in ring_tail0.
  split.
  { transitivity (exchange_slot (T mod max q) None q); [by rewrite <- ring_tail0|].
    apply (exchange_slot_eq q T f T None ring_window0); lia. }
  pose proof (window_set (buffer q) (max q) T f T None ltac:(lia) ring_window0 ltac:(lia)) as Hw.
  destruct (f T) as [m|] eqn:Hf.
  - exists (λ j, if decide (j = T) then None else f j).
    assert (Zlen rc < Zlen tk) as Hlt.
    { apply Z.nle_gt. intros Hge. rewrite ring_beyond0 in Hf by lia. done. }
    assert (tk !! length rc = Some m) as Hm.
    { rewrite HT in Hf. destruct (ring_slot0 (length rc) ltac:(lia)) as [E|(t & p & m1 & h & Hp & Hpe)].
      - congruence.
      - destruct (ring_threads0 t p Hp) as (_ & Hk & _). destruct (Hk _ _ _ Hpe) as (_ & _ & _ & E).
        rewrite <- HT in E. congruence. }
    split; cbn; try done; try lia.
    + rewrite Z.add_0_r. by rewrite <- HT.
    + rewrite app_nil_r in ring_prefix0. by apply prefix_next.
    + apply (window_shift _ _ T (λ j, if decide (j = T) then None else f j)); [lia|done|done|].
      rewrite (decide_True (P := T = T)) by done. case_decide; [done|].
      apply ring_beyond0. lia.
    + intros j Hj. case_decide; [done|]. by apply ring_beyond0.
    + intros j Hj. rewrite decide_False by lia. apply ring_slot0. lia.
    + intros t p Hp. destruct (ring_threads0 t p Hp) as (Hb & Hpe & Hd).
      split; [done|]. split; [|done]. intros m1 h1 i H1.
      destruct (Hpe m1 h1 i H1) as (? & ? & ? & E).
      assert (Z.of_nat i ≠ T) by (intros Hi; rewrite Hi in E; congruence).
      rewrite decide_False by done. split; [done|]. split; [lia|]. done.
  - split; cbn; try done; try lia.
    + by rewrite Z.add_0_r, <- HT.
    + eapply window_ext; [apply Hw|]. intros j Hj. cbn. by case_decide as E; [subst j|].
Qed.

Lemma ring_advance q th d m dr tk rc T f :
  ring q th (A_advance d m) dr tk rc T f → cnt in_region th < 2 ^ 63 →
  ∃ q', advance_tail q = Some ((), q', []) ∧ ring q' th (A_release d m) dr tk rc T f.
Proof.
  intros Hr Hn.
  destruct (ring_count_small _ _ _ _ _ _ _ _ Hr Hn) as (_ & _ & H2 & Hmax & _).
  destruct Hr. cbn in *. rewrite Z.add_0_r in ring_tail0.
  eexists. split; [apply (advance_tail_eq q (Zlen rc)); [lia|done]|].
  split; cbn; done.
Qed.

Lemma ring_release q th d m dr tk rc T f :
  ring q th (A_release d m) dr tk rc T f → cnt in_region th < 2 ^ 63 →
  ∃ q', (r ← fetch_sub_count; assert (bool_decide (0 < r))) q = Some ((), q', []) ∧
    max q' = max q ∧ ∀ a', in_hand a' = [] → advanced a' = 0 → a' ≠ A_bad →
      ring q' th a' dr tk (rc ++ [m]) T f.
Proof.
  intros Hr Hn.
  destruct (ring_count_small _ _ _ _ _ _ _ _ Hr Hn) as (H0 & H1 & H2 & Hmax & _).
  destruct Hr. pose proof (cnt_nonneg is_backoff th). pose proof (cnt_nonneg is_head th).
  cbn in *. assert (0 < count q) as Hc by lia.
  exists (q <| count := u64 (count q - 1) |>). split.
  { unfold fetch_sub_count, assert. run_m. by rewrite bool_decide_true by done. }
  split; [done|]. intros a' Hh Ha Hb.
  assert (Zlen (rc ++ [m]) = Zlen rc + 1) as Hl by (rewrite length_app; cbn; lia).
  split; rewrite ?Hl, ?Hh, ?Ha, ?app_nil_r; cbn; try done; try lia.
  - rewrite ring_tail0. f_equal. lia.
  - rewrite u64_small by lia. lia.
  - intros Hd. rewrite (ring_drained0 Hd) in H2. lia.
Qed.

End ChannelRing.
