(* ===== verification/ChannelProps.v ===== *)
(** * What producers, closer and drain guarantee together

    The invariant of the interleaved system and the theorems about every
    reachable state. *)

From S2P Require Import Prelude Mpscq Sender Channel ChannelGate ChannelRing.
Import Mpscq Sender Channel ChannelGate ChannelRing.

Open Scope Z_scope.
Open Scope record_scope.

Module ChannelProps.

#[local] Coercion Z.of_nat : nat >-> Z.

(** ** The invariant *)

Definition is_send (p : pc) : bool := match p with E_send _ _ => true | _ => false end.

(** In the event loop with no event pending, a message at the tail still has
    its [uv_async_send] to come. *)
Definition awake (a : apc) (pending : bool) (th : gmap nat pc) (T : Z)
    (f : Z → option ptr) : Prop :=
  a = A_loop → pending = false → f T ≠ None → map_Exists (λ _ p, is_send p = true) th.

Definition inv (s : sys) : Prop :=
  gate (sender s) (mutex s) (waiting s) (threads s) (agent s) (drained s) ∧
  ∃ T f, ring (queue s) (threads s) (agent s) (drained s) (tickets s) (received s) T f ∧
    awake (agent s) (async_pending s) (threads s) T f.

Lemma awake_move a pending th T f t p p' :
  awake a pending th T f → th !! t = Some p → (is_send p = true → is_send p' = true) →
  awake a pending (<[t := p']> th) T f.
Proof.
  intros Hw Hp Hs H1 H2 H3. apply (map_Exists_update (λ p, is_send p = true) _ _ p); auto.
Qed.

Lemma initial_inv q : capacity_ok (max q) → count q = 0 → head q = 0 → tail q = 0 →
  buffer q = replicate (Z.to_nat (max q)) None → inv (initial q).
Proof.
  intros Hc Hn Hh Ht Hb. destruct (capacity_bounds _ Hc) as [H2 Hm].
  split; [|exists 0, (λ _, None); split; [split|]]; cbn; try done; try lia.
  - split; cbn; rewrite ?cnt_empty; try done; try lia; [by exists false|]. by intros [|].
  - rewrite cnt_empty. lia.
  - rewrite Hb. by apply window_empty.
  - by intros _ _.
Qed.

(** A step of a producer that leaves the shared state alone. *)
Lemma inv_move s t p p' :
  inv s → threads s !! t = Some p → p' ≠ E_bad → in_region p' = in_region p →
  holds_mutex p' = holds_mutex p → signalling p = false → is_backoff p' = is_backoff p →
  is_head p' = is_head p → pending_of p' = pending_of p →
  (delivered_of p' = delivered_of p) → is_send p = false → inv (goto t p' s).
Proof.
  intros [Hg (T & f & Hr & Hw)] Hp Hb H1 H2 H3 H4 H5 H6 H7 H8. split.
  - cbn. apply (gate_move _ _ _ _ _ _ _ p); try done. congruence.
  - exists T, f. split.
    + cbn. apply (ring_move _ _ _ _ _ _ _ _ _ p); try done.
      { unfold ticket_of. by rewrite H6, H7. }
      intros m i. rewrite H7. by apply (ring_threads _ _ _ _ _ _ _ _ Hr t p Hp).
    + cbn. apply (awake_move _ _ _ _ _ _ p); [done..|]. congruence.
Qed.

(** The points at which a producer touches the queue. *)
Definition at_queue (p : pc) : bool :=
  match p with
  | E_count _ | E_backoff _ | E_head _ | E_assert _ _ _ | E_put _ _ _ => true
  | _ => false
  end.

(** The producer's step changes the sender or the mutex, as [gate_*] allow, and
    leaves the queue alone. *)
Lemma inv_gate_step s s' t p p' :
  inv s → threads s !! t = Some p → threads s' = <[t := p']> (threads s) →
  gate (sender s') (mutex s') (waiting s') (threads s') (agent s) (drained s) →
  queue s' = queue s → agent s' = agent s → drained s' = drained s →
  tickets s' = tickets s → received s' = received s →
  async_pending s' = async_pending s ∨ async_pending s' = true →
  p' ≠ E_bad → is_backoff p = is_backoff p' → is_head p = is_head p' →
  pending_of p = pending_of p' → ticket_of p = ticket_of p' →
  (∀ m i, delivered_of p' = Some (m, i) → delivered_of p = Some (m, i)) →
  (is_send p = true → async_pending s' = true) → inv s'.
Proof.
  intros [_ (T & f & Hr & Hw)] Hp Ht Hg Hq Ha Hd Htk Hrc Hap Hb H1 H2 H3 H4 H5 H6.
  split; [by rewrite Ha, Hd|]. exists T, f. rewrite Hq, Ht, Ha, Hd, Htk, Hrc. split.
  - apply (ring_move _ _ _ _ _ _ _ _ _ p); try done.
    intros m i Hi%H5. by apply (ring_threads _ _ _ _ _ _ _ _ Hr t p Hp).
  - destruct (async_pending s') eqn:E; [by intros ? ?|]. destruct Hap as [Hap|]; [|done].
    rewrite Hap. apply (awake_move _ _ _ _ _ _ p); [done..|]. by intros ?%H6.
Qed.

Lemma producer_gate_inv t b s s' p :
  inv s → threads s !! t = Some p → at_queue p = false →
  thread_step t b s = Some s' → inv s'.
Proof.
  intros Hi Hp Hq Hs. unfold thread_step in Hs. rewrite Hp in Hs. pose proof Hi as [Hg _].
  destruct p; try done.
  - (* check *) injection Hs as <-. destruct (is_closed _); by apply (inv_move _ _ _ _ Hi Hp).
  - (* alloc *) injection Hs as <-. destruct b; by apply (inv_move _ _ _ _ Hi Hp).
  - (* enter *) injection Hs as <-. by apply (inv_move _ _ _ _ Hi Hp).
  - (* cas *)
    destruct (enter_refused expected) eqn:Hre;
      [injection Hs as <-; by apply (inv_move _ _ _ _ Hi Hp)|].
    destruct (bool_decide_reflect (state (sender s) = expected)) as [He|He];
      [destruct b|]; injection Hs as <-; [|by apply (inv_move _ _ _ _ Hi Hp)..].
    apply (inv_gate_step _ _ t _ (E_count m) Hi Hp); try done; [|by left].
    by apply (gate_enter _ _ _ _ _ _ _ _ _ Hg Hp).
  - (* send *) injection Hs as <-.
    rewrite (gate_handle _ _ _ _ _ _ _ _ Hg Hp eq_refl).
    apply (inv_gate_step _ _ t _ (E_leave m (R_ok i)) Hi Hp); try done; [|by right].
    by apply (gate_move _ _ _ _ _ _ _ _ _ Hg Hp).
  - (* leave *) injection Hs as <-.
    apply (inv_gate_step _ _ t _ (if last_producer (state (sender s)) then E_lock m r
      else E_ret m r) Hi Hp); try done; try (by destruct (last_producer _)); [|by left].
    by apply gate_leave.
  - (* lock *) destruct (mutex s) eqn:Hm; [done|]. injection Hs as <-.
    apply (inv_gate_step _ _ t _ (E_signal m r) Hi Hp); try done; [|by left]. by apply gate_lock.
  - (* signal *) injection Hs as <-.
    apply (inv_gate_step _ _ t _ (E_unlock m r) Hi Hp); try done; [|by left].
    by apply (gate_signal_step _ _ _ _ _ _ _ _ _ Hg).
  - (* unlock *) injection Hs as <-.
    apply (inv_gate_step _ _ t _ (E_ret m r) Hi Hp); try done; [|by left].
    by apply (gate_unlock _ _ _ _ _ _ _ _ _ Hg).
Qed.

Lemma producer_queue_inv t b s s' p :
  inv s → threads s !! t = Some p → at_queue p = true →
  thread_step t b s = Some s' → inv s'.
Proof.
  intros Hi Hp Hq Hs. unfold thread_step in Hs. rewrite Hp in Hs.
  pose proof Hi as [Hg (T & f & Hr & Hw)].
  pose proof (gate_count _ _ _ _ _ _ Hg) as [_ Hn].
  destruct p; try done; injection Hs as <-.
  - (* count *) split.
    + cbn. apply (gate_move _ _ _ _ _ _ _ _ _ Hg Hp); by destruct (bool_decide _).
    + exists T, f. split; [by apply ring_add_count|]. by apply (awake_move _ _ _ _ _ _ _ _ Hw Hp).
  - (* backoff *) split.
    + by apply (gate_move _ _ _ _ _ _ _ _ _ Hg Hp).
    + exists T, f. split; [by apply (ring_sub_count _ _ _ _ _ _ _ _ _ m)|].
      by apply (awake_move _ _ _ _ _ _ _ _ Hw Hp).
  - (* head *) split.
    + by apply (gate_move _ _ _ _ _ _ _ _ _ Hg Hp).
    + exists T, f. split; [|by apply (awake_move _ _ _ _ _ _ _ _ Hw Hp)].
      apply ring_ticket; [done..|]. apply (gate_drained _ _ _ _ _ _ Hg).
  - (* assert *) unfold access.
    destruct (ring_pending _ _ _ _ _ _ _ _ _ _ m h i Hr Hp Hn eq_refl)
      as (Hrange & Hf & Hh & Hmax & Hd & _).
    rewrite (assert_free_eq (queue s) h i f T (ring_window _ _ _ _ _ _ _ _ Hr)) by done.
    by apply (inv_move (s <| queue := queue s |>) t _ _ Hi Hp).
  - (* put *) unfold access.
    destruct (ring_pending _ _ _ _ _ _ _ _ _ _ m h i Hr Hp Hn eq_refl)
      as (Hrange & Hf & Hh & Hmax & Hd & _).
    rewrite (put_slot_eq (queue s) h i f T m (ring_window _ _ _ _ _ _ _ _ Hr)) by done.
    split; [by apply (gate_move _ _ _ _ _ _ _ _ _ Hg Hp)|].
    eexists T, _. split; [by apply (ring_put _ _ _ _ _ _ _ _ _ _ _ _ Hr Hp)|].
    intros _ _ _. exists t, (E_send m i). cbn. by rewrite lookup_insert_eq.
Qed.

Lemma thread_step_inv t b s s' : inv s → thread_step t b s = Some s' → inv s'.
Proof.
  intros Hi Hs. destruct (threads s !! t) as [p|] eqn:Hp.
  - destruct (at_queue p) eqn:Hq; [by eapply producer_queue_inv|by eapply producer_gate_inv].
  - unfold thread_step in Hs. by rewrite Hp in Hs.
Qed.

(** A step of the agent outside the queue. *)
Lemma agent_outside s s' :
  inv s → queue s' = queue s → threads s' = threads s → drained s' = drained s →
  tickets s' = tickets s → received s' = received s →
  in_hand (agent s') = [] → in_hand (agent s) = [] →
  advanced (agent s') = advanced (agent s) → agent s' ≠ A_bad →
  (agent s' = A_loop → drained s = true) →
  gate (sender s') (mutex s') (waiting s') (threads s) (agent s') (drained s) → inv s'.
Proof.
  intros [_ (T & f & Hr & _)] Hq Ht Hd Htk Hrc Hh Hh0 Ha Hb Hl Hg. split.
  - by rewrite Ht, Hd.
  - exists T, f. rewrite Hq, Ht, Hd, Htk, Hrc.
    split; [apply (ring_agent_move _ _ _ _ _ _ _ _ _ Hr); congruence|].
    intros HA _ []. destruct Hr. apply ring_beyond0.
    rewrite <- (ring_drained0 (Hl HA)), ring_T0, Hh0. cbn. lia.
Qed.

(** Discharges the conditions of [gate_agent_step] that evaluate. *)
Ltac gate_agent Hg :=
  apply (gate_agent_step _ _ _ _ _ _ _ _ _ _ _ Hg); cbn; try done;
  try (intros [|]; done); try exact (gate_agent _ _ _ _ _ _ Hg).

Lemma waiting_false sd mx w th a dr : gate sd mx w th a dr → a ≠ A_wait → w = false.
Proof.
  intros Hg Ha. destruct w; [|done]. by specialize (gate_waiting _ _ _ _ _ _ Hg eq_refl).
Qed.

Lemma agent_mutex sd mx w th a dr :
  gate sd mx w th a dr → agent_holds a = true → mx = Some By_agent.
Proof.
  intros Hg Ha. rewrite (gate_agent _ _ _ _ _ _ Hg) in Ha. by apply bool_decide_eq_true in Ha.
Qed.

Lemma agent_outside_inv b s s' :
  inv s → match agent s with A_take _ | A_advance _ _ | A_release _ _ => False | _ => True end →
  agent_step b s = Some s' → inv s'.
Proof.
  intros Hi Hno Hs. unfold agent_step in Hs. pose proof Hi as [Hg _].
  pose proof (gate_sealed _ _ _ _ _ _ Hg) as Hse.
  destruct s as [sd mx w ap q th a dr tk rc]. cbn in *.
  pose proof (waiting_false _ _ _ _ _ _ Hg) as Hwf.
  pose proof (agent_mutex _ _ _ _ _ _ Hg) as Hmx.
  destruct a; try done; try specialize (Hwf ltac:(done)); try specialize (Hmx eq_refl); subst.
  - (* loop *) destruct b; [destruct (ap || dr); [|done]|]; injection Hs as <-;
      apply (agent_outside _ _ Hi); try done; gate_agent Hg.
  - (* handle *) injection Hs as <-.
    destruct b; apply (agent_outside _ _ Hi); try done; gate_agent Hg.
  - (* close *) injection Hs as <-. apply (agent_outside _ _ Hi); try done. by apply gate_close.
  - (* lock *) destruct mx; [done|]. injection Hs as <-.
    apply (agent_outside _ _ Hi); try done; gate_agent Hg.
  - (* check *)
    destruct (gate_closed_cases _ _ _ _ _ _ Hg) as (c & Hn & _ & _ & Hpr & Hc).
    rewrite Hpr in Hs. case_bool_decide as H0; injection Hs as <-;
      apply (agent_outside _ _ Hi); try done; gate_agent Hg.
    intros _. left. lia.
  - (* sleep *) injection Hs as <-. apply (agent_outside _ _ Hi); try done; gate_agent Hg.
    intros _. apply (gate_signal _ _ _ _ _ _ Hg). by left.
  - (* wait *) destruct (negb w || b); [|done]. destruct mx; [done|]. injection Hs as <-.
    apply (agent_outside _ _ Hi); try done; gate_agent Hg.
  - (* clear *) injection Hs as <-. apply (agent_outside _ _ Hi); try done; gate_agent Hg.
  - (* unlock *) injection Hs as <-.
    destruct dr; apply (agent_outside _ _ Hi); try done; gate_agent Hg.
Qed.

Lemma agent_queue_inv b s s' :
  inv s → match agent s with A_take _ | A_advance _ _ | A_release _ _ => True | _ => False end →
  agent_step b s = Some s' → inv s'.
Proof.
  intros Hi Hno Hs. unfold agent_step in Hs. pose proof Hi as [Hg (T & f & Hr & _)].
  pose proof (gate_count _ _ _ _ _ _ Hg) as [_ Hn].
  pose proof (gate_sealed _ _ _ _ _ _ Hg) as Hse.
  destruct s as [sd mx w ap q th a dr tk rc]. cbn in *.
  pose proof (waiting_false _ _ _ _ _ _ Hg) as Hwf.
  destruct a as [|d|d m|d m| | | | | | | | |]; try done; specialize (Hwf ltac:(done)); subst w.
  - (* take *) destruct (ring_take _ _ _ _ _ _ _ _ Hr Hn) as [E Hr']. rewrite E in Hs.
    destruct (f T) as [m|] eqn:Hf; injection Hs as <-; cbn.
    + destruct Hr' as [f' Hr']. split; [gate_agent Hg|]. exists (T + 1), f'. done.
    + split; [destruct d; cbn; gate_agent Hg|]. exists T, f. split; [|by intros _ _].
      destruct d; [|done]. cbn.
      pose proof (ring_empty _ _ _ _ _ _ _ _ Hr (Hse eq_refl) eq_refl Hf). by destruct Hr'.
  - (* advance *) destruct (ring_advance _ _ _ _ _ _ _ _ _ Hr Hn) as (q' & E & Hr').
    rewrite E in Hs. injection Hs as <-. split; [cbn; gate_agent Hg|]. by exists T, f.
  - (* release *) destruct (ring_release _ _ _ _ _ _ _ _ _ Hr Hn) as (q' & E & _ & Hr').
    rewrite E in Hs. injection Hs as <-. cbn.
    split; [destruct d; gate_agent Hg|]. exists T, f.
    destruct d; (split; [by apply Hr'|done]).
Qed.

Lemma step_inv s s' : inv s → step s s' → inv s'.
Proof.
  intros Hi [[t m|t b|b] Hs].
  - cbn in Hs. destruct (threads s !! t) eqn:Ht; [done|]. injection Hs as <-.
    destruct Hi as [Hg (T & f & Hr & Hw)]. split; [by apply gate_spawn|].
    exists T, f. split; [by apply ring_spawn|]. intros H1 H2 H3.
    destruct (Hw H1 H2 H3) as (t' & p & Hp & Hp'). exists t', p.
    cbn. rewrite lookup_insert_ne; [done|]. congruence.
  - by apply (thread_step_inv t b s).
  - destruct (agent s) eqn:Ha; try (apply (agent_outside_inv b s); by rewrite ?Ha);
      apply (agent_queue_inv b s); by rewrite ?Ha.
Qed.

Lemma reachable_inv `{Allocator} given capacity q s :
  mpscq_create given capacity = Some q → reachable q s → inv s.
Proof.
  intros (Hc & Hm & H1 & H2 & H3 & H4)%create_capacity_ok Hr.
  assert (inv (initial q)) as H0 by (apply initial_inv; rewrite ?Hm in *; done).
  clear -Hr H0. induction Hr as [|s s1 s2 Hs _ IH]; [done|]. apply IH. by eapply step_inv.
Qed.

(** The capacity never changes. *)
Definition same_max (q q' : mpscq) : Prop := max q' = max q.
#[export] Instance same_max_refl : Reflexive same_max.
Proof. done. Qed.
#[export] Instance same_max_trans : Transitive same_max.
Proof. unfold same_max. intros q1 q2 q3. congruence. Qed.
Abbreviation keeps_max := (keeps same_max).

Lemma keeps_accesses h m v i :
  keeps_max fetch_add_count ∧ keeps_max fetch_sub_count ∧ keeps_max fetch_add_head ∧
  keeps_max (assert_free h) ∧ keeps_max (put_slot m h) ∧ keeps_max (exchange_slot i v) ∧
  keeps_max advance_tail ∧
  keeps_max (r ← fetch_sub_count; assert (bool_decide (0 < r))).
Proof.
  unfold fetch_add_count, fetch_sub_count, fetch_add_head, assert_free, put_slot,
    exchange_slot, load_slot, advance_tail, assert.
  repeat split; by keeps_tac.
Qed.

Lemma max_access {A} t (m : M mpscq A) k s :
  keeps_max m → (∀ a s', max (queue (k a s')) = max (queue s')) →
  max (queue (access t m k s)) = max (queue s).
Proof.
  intros Hm Hk. unfold access. destruct (m (queue s)) as [[[a q] es]|] eqn:E; [|done].
  rewrite Hk. by apply (Hm _ _ _ _ E).
Qed.

Lemma max_step s s' : step s s' → max (queue s') = max (queue s).
Proof.
  intros [[t m|t b|b] Hs]; cbn in Hs.
  - destruct (threads s !! t); [done|]. by injection Hs as <-.
  - unfold thread_step in Hs.
    destruct (threads s !! t) as [[]|]; try (by repeat case_match; simplify_eq);
      injection Hs as <-; apply max_access; try done;
      by apply (keeps_accesses h m None 0) || by apply (keeps_accesses 0 m None 0).
  - unfold agent_step in Hs.
    destruct (agent s); try (by repeat case_match; simplify_eq).
    + destruct (exchange_slot _ _ _) as [[[[m|] q] es]|] eqn:E; injection Hs as <-; try done;
        [|destruct drain]; by apply (keeps_accesses 0 1%positive None (tail (queue s))) in E.
    + destruct (advance_tail _) as [[[[] q] es]|] eqn:E; injection Hs as <-; [|done].
      by apply (keeps_accesses 0 m None 0) in E.
    + match type of Hs with match ?x with _ => _ end = _ => destruct x as [[[[] q] es]|] eqn:E end;
        injection Hs as <-; [|done].
      by apply (keeps_accesses 0 m None 0) in E.
Qed.

Lemma max_reachable q s : reachable q s → max (queue s) = max q.
Proof.
  unfold reachable. change (max q) with (max (queue (initial q))).
  induction 1 as [|s0 s1 s2 Hs _ IH]; [done|]. rewrite IH. by apply max_step.
Qed.

(** ** Theorems *)

(** C20: Whatever the interleaving of producers, the consuming agent and the
    closing of the sender, no assertion of the queue fails and
    [uv_async_send] is never given the handle that [message_sender_close]
    cleared. *)
Theorem channel_safe `{Allocator} given capacity q s :
  mpscq_create given capacity = Some q → reachable q s →
  agent s ≠ A_bad ∧ ∀ t, threads s !! t ≠ Some E_bad.
Proof.
  intros Hc Hr. destruct (reachable_inv _ _ _ _ Hc Hr) as [_ (T & f & R & _)].
  split; [apply (ring_agent _ _ _ _ _ _ _ _ R)|].
  intros t Ht. by destruct (ring_threads _ _ _ _ _ _ _ _ R t _ Ht).
Qed.

(** C9: Every accepted message has a ticket of its own and the agent receives
    the messages in ticket order, each exactly once; there are never more
    messages in between than the capacity. *)
Theorem channel_exactly_once `{Allocator} given capacity q s :
  mpscq_create given capacity = Some q → reachable q s →
  received s `prefix_of` tickets s ∧
  Zlen (tickets s) - Zlen (received s) ≤ capacity ∧
  (∀ t p m i, threads s !! t = Some p → delivered_of p = Some (m, i) →
    tickets s !! i = Some m) ∧
  (∀ t1 t2 p1 p2 i, threads s !! t1 = Some p1 → ticket_of p1 = Some i →
    threads s !! t2 = Some p2 → ticket_of p2 = Some i → t1 = t2).
Proof.
  intros Hc Hr. destruct (reachable_inv _ _ _ _ Hc Hr) as [_ (T & f & R & _)].
  pose proof (create_capacity_ok _ _ _ Hc) as (_ & Hm & _).
  assert (max (queue s) = capacity) as Hq.
  { rewrite <- Hm. by apply max_reachable. }
  destruct R. split; [|split; [|split]].
  - etransitivity; [|exact ring_prefix0]. by apply prefix_app_r.
  - pose proof (cnt_nonneg is_head (threads s)). lia.
  - intros t p m i Hp. by apply (ring_threads0 t p Hp).
  - exact ring_unique0.
Qed.

(** C2: When the shutdown has drained the queue, no producer is inside and the
    received messages are exactly those whose enqueue succeeded: none is lost. *)
Theorem shutdown_loses_nothing `{Allocator} given capacity q s :
  mpscq_create given capacity = Some q → reachable q s → drained s = true →
  (∀ t p, threads s !! t = Some p → in_region p = false) ∧
  ∀ i m, received s !! i = Some m ↔
    ∃ t p, threads s !! t = Some p ∧ delivered_of p = Some (m, i).
Proof.
  intros Hc Hr Hd. destruct (reachable_inv _ _ _ _ Hc Hr) as [G (T & f & R & _)].
  pose proof (gate_drained _ _ _ _ _ _ G Hd) as Hn.
  assert (∀ t p, threads s !! t = Some p → in_region p = false) as Hout.
  { intros t p Hp. destruct (in_region p) eqn:E; [|done].
    pose proof (cnt_pos in_region _ _ _ Hp E). lia. }
  split; [done|]. intros i m. destruct R. rewrite (ring_drained0 Hd). split.
  - intros Hi. pose proof (lookup_lt_Some _ _ _ Hi).
    destruct (ring_owner0 i ltac:(lia)) as (t & p & Hp & Ht). exists t, p. split; [done|].
    destruct (ring_threads0 t p Hp) as (_ & _ & Hdel). unfold ticket_of in Ht.
    destruct (pending_of p) as [[[m1 h] j]|] eqn:E; [by destruct p; specialize (Hout _ _ Hp)|].
    destruct (delivered_of p) as [[m1 j]|]; [|done]. injection Ht as ->.
    specialize (Hdel _ _ eq_refl). congruence.
  - intros (t & p & Hp & Hdel). by apply (ring_threads0 t p Hp).
Qed.

(** C21: When the agent sleeps in its event loop and no async event is pending,
    a message at the tail of the queue still has the [uv_async_send] of its
    producer, or of a later one, to come: no wake-up is lost. *)
Theorem enqueue_wakes_agent `{Allocator} given capacity q s m :
  mpscq_create given capacity = Some q → reachable q s →
  agent s = A_loop → async_pending s = false →
  buffer (queue s) !! Z.to_nat (tail (queue s)) = Some (Some m) →
  ∃ t m' i, threads s !! t = Some (E_send m' i).
Proof.
  intros Hc Hr Ha Hp Hb. destruct (reachable_inv _ _ _ _ Hc Hr) as [G (T & f & R & W)].
  destruct (ring_count_small _ _ _ _ _ _ _ _ R (proj2 (gate_count _ _ _ _ _ _ G)))
    as (_ & _ & _ & Hmax & _).
  destruct R. rewrite Ha in *. cbn in *.
  assert (T = Zlen (received s)) as HT by lia. rewrite Z.add_0_r, <- HT in ring_tail0.
  rewrite ring_tail0, (window_lookup _ _ _ _ T ring_window0) in Hb by lia.
  destruct (W eq_refl Hp) as (t & p & Ht & Hs); [congruence|].
  destruct p; try done. by eexists _, _, _.
Qed.

Lemma rank_nonneg th : 0 ≤ total rank th.
Proof.
  induction th as [|t p th Ht IH] using map_ind; [done|].
  rewrite total_new by done. destruct p; cbn; lia.
Qed.

Definition descends (p p' : pc) : Prop :=
  if busy p then rank p' < rank p else rank p' ≤ rank p.

Lemma access_threads {A} t (m : M mpscq A) k s p :
  (∀ a q, ∃ p', threads (k a (s <| queue := q |>)) = <[t := p']> (threads s) ∧ descends p p') →
  descends p E_bad →
  ∃ p', threads (access t m k s) = <[t := p']> (threads s) ∧ descends p p'.
Proof.
  intros Hk Hb. unfold access. destruct (m (queue s)) as [[[a q] es]|]; [apply Hk|].
  by exists E_bad.
Qed.

(** Once the sender is closed no step takes a producer further from leaving. *)
Lemma thread_descends t b s s' p :
  thread_step t b s = Some s' → threads s !! t = Some p →
  is_closed (state (sender s)) = true →
  ∃ p', threads s' = <[t := p']> (threads s) ∧ descends p p'.
Proof.
  intros Hs Hp Hc. unfold thread_step in Hs. rewrite Hp in Hs.
  destruct p; try done; try (injection Hs as <-; apply access_threads; [|done]; intros a q);
    try (by eexists; split; [reflexivity|];
         first [done | by destruct (bool_decide _)]).
  - injection Hs as <-. rewrite Hc. by eexists.
  - injection Hs as <-. destruct b; by eexists.
  - injection Hs as <-. by eexists.
  - destruct (enter_refused expected) eqn:Hr; [injection Hs as <-; by eexists|].
    case_bool_decide as He; [|injection Hs as <-; by eexists].
    unfold enter_refused in Hr. by rewrite <- He, Hc in Hr.
  - injection Hs as <-. destruct (async_handle _); by eexists.
  - injection Hs as <-. destruct (last_producer _); by eexists.
  - destruct (mutex s); [done|]. injection Hs as <-. by eexists.
  - injection Hs as <-. by eexists.
  - injection Hs as <-. by eexists.
Qed.

(** A busy producer is never stuck, unless it needs the mutex. *)
Lemma busy_enabled t s p :
  threads s !! t = Some p → busy p = true → holds_mutex p = true ∨ mutex s = None ∨ in_region p = true →
  ∃ s', thread_step t true s = Some s'.
Proof.
  intros Hp Hb Hm. unfold thread_step. rewrite Hp. destruct p; try done; try by eexists.
  destruct Hm as [|[->|]]; try done. by eexists.
Qed.

(** Whoever owns the mutex instead of the agent moves. *)
Lemma owner_enabled s :
  inv s → agent_holds (agent s) = false → mutex s ≠ None →
  ∃ t p s', threads s !! t = Some p ∧ busy p = true ∧ thread_step t true s = Some s'.
Proof.
  intros [G _] Ha Hm. destruct (mutex s) as [[|t]|] eqn:E; [| |done].
  - rewrite (gate_agent _ _ _ _ _ _ G) in Ha. done.
  - destruct (gate_owner _ _ _ _ _ _ G t eq_refl) as [p Hp].
    pose proof (gate_threads _ _ _ _ _ _ G t p Hp) as Hh. cbn in Hh.
    rewrite bool_decide_true in Hh by done.
    assert (busy p = true) as Hb by (unfold busy; by rewrite Hh, orb_true_r).
    destruct (busy_enabled t s p Hp Hb ltac:(by left)) as [s' Hs']. by exists t, p, s'.
Qed.

(** C22: [message_sender_close] waits only for producers that are on their way
    out: while it has not finished, the closer or such a producer can take a
    step, no step of a producer adds to the work left to them and a step of one
    of them reduces it; so the closer is never left asleep. *)
Theorem close_progress `{Allocator} given capacity q s :
  mpscq_create given capacity = Some q → reachable q s → in_close (agent s) = true →
  ((∃ s', agent_step false s = Some s') ∨
   ∃ t p s', threads s !! t = Some p ∧ busy p = true ∧ thread_step t true s = Some s') ∧
  ∀ t b p s', threads s !! t = Some p → thread_step t b s = Some s' →
    0 ≤ work s' ≤ work s ∧ (busy p = true → work s' < work s).
Proof.
  intros Hc Hr Ha. pose proof (reachable_inv _ _ _ _ Hc Hr) as Hi.
  pose proof Hi as [G _]. split.
  - destruct (decide (mutex s = None)) as [Hm|Hm]; cycle 1.
    + destruct (agent_holds (agent s)) eqn:Hh; [left|right; by apply owner_enabled].
      unfold agent_step. destruct (agent s); try done; try (by eexists).
      case_match; by eexists.
    + unfold agent_step. destruct (agent s) eqn:Hag; try done; try (left; by eexists).
      * left. rewrite Hm. by eexists.
      * left. case_match; by eexists.
      * rewrite Hm, orb_false_r. destruct (waiting s) eqn:Hw; [|left; by eexists]. right.
        assert (∃ t p, threads s !! t = Some p ∧ busy p = true) as (t & p & Hp & Hb).
        { destruct (gate_signal _ _ _ _ _ _ G ltac:(by right)) as [(t & p & Hp & H1)%cnt_exists|
            (t & p & Hp & H1)]; exists t, p; (split; [done|]); unfold busy; rewrite H1;
            by rewrite ?orb_true_r. }
        destruct (busy_enabled t s p Hp Hb ltac:(by right; left)) as [s' Hs'].
        by exists t, p, s'.
  - intros t b p s' Hp Hs.
    assert (is_closed (state (sender s)) = true) as Hcl.
    { destruct (gate_closed_cases _ _ _ _ _ _ G) as (c & _ & _ & -> & _ & H1).
      apply H1. by destruct (agent s). }
    destruct (thread_descends t b s s' p Hs Hp Hcl) as (p' & Ht & Hd).
    pose proof (rank_nonneg (threads s')) as Hn. unfold work, descends in *.
    rewrite Ht, (total_update _ _ _ _ _ Hp) in *. destruct (busy p); split; try lia; done.
Qed.

(** ** Instances *)

(** [k] steps of one thread, and of the agent. *)
Definition goes (t k : nat) : list action := replicate k (Thread t true).
Definition agent_goes (k : nat) : list action := replicate k (Agent false).

Definition sample_queue : mpscq := Mpscq.Mk 0 0 0 2 [None; None] true.

(** Thread 0 delivers message 7 except for its wake-up. *)
Definition before_send : list action := Spawn 0 7%positive :: goes 0 8.

(** Thread 1 is inside with message 8 when the agent closes and falls asleep. *)
Definition closer_asleep : list action :=
  before_send ++ goes 0 2 ++ Spawn 1 8%positive :: goes 1 5 ++ agent_goes 5.

(** Thread 1 leaves and signals; the agent drains both messages. *)
Definition all_drained : list action := closer_asleep ++ goes 1 8 ++ agent_goes 11.

Definition after (acts : list action) : sys := default (initial sample_queue) (run acts (initial sample_queue)).

Lemma sample_created : mpscq_create (H := alloc_always) false 2 = Some sample_queue.
Proof. reflexivity. Qed.

Lemma after_reachable acts :
  is_Some (run acts (initial sample_queue)) → reachable sample_queue (after acts).
Proof.
  unfold after. intros [s Hs]. rewrite Hs. by apply (run_reachable _ acts).
Qed.

Example run_closer_asleep :
  agent (after closer_asleep) = A_wait ∧ waiting (after closer_asleep) = true ∧
  producers (state (sender (after closer_asleep))) = 1.
Proof. vm_compute. done. Qed.

Example run_all_drained :
  agent (after all_drained) = A_loop ∧ drained (after all_drained) = true ∧
  received (after all_drained) = [7; 8]%positive.
Proof. vm_compute. done. Qed.

Lemma channel_safe_witness :
  agent (after all_drained) ≠ A_bad ∧ ∀ t, threads (after all_drained) !! t ≠ Some E_bad.
Proof.
  apply (channel_safe (H := alloc_always) false 2 sample_queue); [apply sample_created|].
  apply after_reachable. vm_compute. by eexists.
Defined.

Lemma channel_exactly_once_witness :
  received (after all_drained) `prefix_of` tickets (after all_drained).
Proof.
  destruct (channel_exactly_once (H := alloc_always) false 2 sample_queue (after all_drained))
    as [H _]; [apply sample_created| |exact H].
  apply after_reachable. vm_compute. by eexists.
Defined.

Lemma shutdown_loses_nothing_witness :
  ∃ t p, threads (after all_drained) !! t = Some p ∧ delivered_of p = Some (8%positive, 1%nat).
Proof.
  destruct (shutdown_loses_nothing (H := alloc_always) false 2 sample_queue (after all_drained))
    as [_ H]; [apply sample_created| |vm_compute; reflexivity|].
  - apply after_reachable. vm_compute. by eexists.
  - apply H. vm_compute. reflexivity.
Defined.

Lemma enqueue_wakes_agent_witness :
  ∃ t m' i, threads (after before_send) !! t = Some (E_send m' i).
Proof.
  apply (enqueue_wakes_agent (H := alloc_always) false 2 sample_queue _ 7%positive);
    [apply sample_created| |vm_compute; reflexivity..].
  apply after_reachable. vm_compute. by eexists.
Defined.

Lemma close_progress_witness :
  ∃ t p s', threads (after closer_asleep) !! t = Some p ∧ busy p = true ∧
    thread_step t true (after closer_asleep) = Some s'.
Proof.
  destruct (close_progress (H := alloc_always) false 2 sample_queue (after closer_asleep))
    as [[[s' H]|H] _]; [apply sample_created| |vm_compute; reflexivity| |exact H].
  - apply after_reachable. vm_compute. by eexists.
  - exfalso. vm_compute in H. discriminate H.
Defined.

End ChannelProps.
