(* ===== verification/Registry.v ===== *)
(** * The transfer registry ([transfer_registry_t] of [cbits/message_chan.c])

    A hash table with chaining over the transfers in memory, from transfer ids
    to transfers, which grows by doubling when an allocation allows it. *)

From S2P Require Import Prelude Chain.

Open Scope Z_scope.
Open Scope record_scope.

Module Registry.

Definition INITIAL_BUCKET_COUNT : Z := 64.

(** [struct transfer_s]. *)
Record transfer := Transfer {
  id : Z;
  easy : ptr;
  result : ptr;
  metrics : option ptr;
  download_stream : option ptr;
  upload_stream : option ptr;
  active : bool;
  next : option ptr
}.
#[global] Instance transfer_eta : Eta transfer := λ t,
  Transfer (id t) (easy t) (result t) (metrics t) (download_stream t) (upload_stream t)
    (active t) (next t).

Record transfer_registry := Mk {
  buckets : option (list (option ptr));
  bucket_count : Z;
  count : Z
}.
#[global] Instance registry_eta : Eta transfer_registry :=
  λ r, Mk (buckets r) (bucket_count r) (count r).

(** The registry and the transfers in memory. *)
Record store := Store {
  nodes : gmap ptr transfer;
  registry : transfer_registry
}.
#[global] Instance store_eta : Eta store := λ s, Store (nodes s) (registry s).

Definition sizeof_pointer : Z := 8.

Definition hash_transfer_id (id : Z) : Z :=
  let value := id in
  let value := Z.lxor value (Z.shiftr value 30) in
  let value := u64 (value * 0xbf58476d1ce4e5b9) in
  let value := Z.lxor value (Z.shiftr value 27) in
  let value := u64 (value * 0x94d049bb133111eb) in
  Z.lxor value (Z.shiftr value 31).

(** [transfer->...]: undefined when the transfer is not in memory. *)
Definition node (p : ptr) : M store transfer :=
  s ← gets (λ s, s); defined (nodes s !! p).
Definition set_next (p : ptr) (n : option ptr) : M store () :=
  t ← node p; modify (λ s, s <| nodes ::= <[p := t <| next := n |>]> |>).

Definition set_registry (r : transfer_registry) : M store () :=
  modify (λ s, s <| registry := r |>).

(** [registry->buckets[bucket]]. *)
Definition load_bucket (bucket : Z) : M store (option ptr) :=
  r ← gets registry;
  bs ← defined (buckets r);
  defined (bs !! Z.to_nat bucket).
Definition store_bucket (bucket : Z) (p : option ptr) : M store () :=
  r ← gets registry;
  bs ← defined (buckets r);
  if bool_decide (0 ≤ bucket < Zlen bs)
  then modify (λ s, s <| registry ::= λ r, r <| buckets := Some (<[Z.to_nat bucket := p]> bs) |> |>)
  else fault.

Definition registry_init `{Allocator} : M store bool :=
  if calloc INITIAL_BUCKET_COUNT sizeof_pointer then
    set_registry (Mk (Some (replicate (Z.to_nat INITIAL_BUCKET_COUNT) None))
      INITIAL_BUCKET_COUNT 0);;
    mret true
  else set_registry (Mk None 0 0);; mret false.

Definition registry_destroy : M store () := set_registry (Mk None 0 0).

(** The walk along a bucket; the fuel bounds its length. *)
Fixpoint find_loop (fuel : nat) (transfer : option ptr) (id : Z) : M store (option ptr) :=
  match transfer, fuel with
  | None, _ => mret None
  | Some _, O => fault
  | Some p, S fuel =>
      t ← node p;
      if bool_decide (Registry.id t = id) then mret (Some p) else find_loop fuel (next t) id
  end.

(** The number of transfers in memory, which a chain cannot exceed. *)
Definition walk : M store nat := gets (λ s, size (nodes s)).

Definition registry_find (id : Z) : M store (option ptr) :=
  r ← gets registry;
  if bool_decide (buckets r = None) || bool_decide (bucket_count r = 0) then mret None
  else
    let bucket := Z.land (hash_transfer_id id) (bucket_count r - 1) in
    head ← load_bucket bucket;
    fuel ← walk;
    find_loop fuel head id.

(** The inner loop of [registry_resize]: moves a chain to the new buckets. *)
Fixpoint move_loop (fuel : nat) (transfer : option ptr) (new_count : Z)
    (new_buckets : list (option ptr)) : M store (list (option ptr)) :=
  match transfer, fuel with
  | None, _ => mret new_buckets
  | Some _, O => fault
  | Some p, S fuel =>
      t ← node p;
      let next := Registry.next t in
      let bucket := Z.to_nat (Z.land (hash_transfer_id (id t)) (new_count - 1)) in
      first ← defined (new_buckets !! bucket);
      set_next p first;;
      move_loop fuel next new_count (<[bucket := Some p]> new_buckets)
  end.

(** The outer loop, over the old buckets. *)
Fixpoint resize_loop (fuel : nat) (old : list (option ptr)) (new_count : Z)
    (new_buckets : list (option ptr)) : M store (list (option ptr)) :=
  match old with
  | [] => mret new_buckets
  | transfer :: old =>
      new_buckets ← move_loop fuel transfer new_count new_buckets;
      resize_loop fuel old new_count new_buckets
  end.

Definition registry_resize `{Allocator} : M store () :=
  r ← gets registry;
  if bool_decide (SIZE_MAX / 2 < bucket_count r) then mret ()
  else
    let new_count := bucket_count r * 2 in
    if calloc new_count sizeof_pointer then
      old ← defined (buckets r);
      fuel ← walk;
      new_buckets ← resize_loop fuel (take (Z.to_nat (bucket_count r)) old) new_count
        (replicate (Z.to_nat new_count) None);
      modify (λ s, s <| registry ::= λ r,
        r <| buckets := Some new_buckets |> <| bucket_count := new_count |> |>)
    else mret ().

Definition registry_insert `{Allocator} (transfer : option ptr) : M store bool :=
  r ← gets registry;
  match buckets r, transfer with
  | None, _ | _, None => mret false
  | Some _, Some p =>
      t ← node p;
      found ← registry_find (id t);
      match found with
      | Some _ => mret false
      | None =>
          (if bool_decide (bucket_count r ≤ SIZE_MAX / 2)
              && bool_decide (u64 (bucket_count r * 2) ≤ count r)
           then registry_resize else mret ());;
          r ← gets registry;
          let bucket := Z.land (hash_transfer_id (id t)) (bucket_count r - 1) in
          first ← load_bucket bucket;
          set_next p first;;
          store_bucket bucket (Some p);;
          modify (λ s, s <| registry ::= λ r, r <| count ::= λ c, u64 (c + 1) |> |>);;
          mret true
      end
  end.

(** [transfer_t **cursor] points to a bucket or to the link of a transfer. *)
Inductive cursor := Bucket (bucket : Z) | Link (p : ptr).

Definition load_cursor (c : cursor) : M store (option ptr) :=
  match c with
  | Bucket b => load_bucket b
  | Link p => t ← node p; mret (next t)
  end.
Definition store_cursor (c : cursor) (p : option ptr) : M store () :=
  match c with
  | Bucket b => store_bucket b p
  | Link q => set_next q p
  end.

Fixpoint remove_loop (fuel : nat) (c : cursor) (id : Z) : M store (option ptr) :=
  at_cursor ← load_cursor c;
  match at_cursor, fuel with
  | None, _ => mret None
  | Some _, O => fault
  | Some p, S fuel =>
      t ← node p;
      if bool_decide (Registry.id t = id) then
        store_cursor c (next t);;
        set_next p None;;
        modify (λ s, s <| registry ::= λ r, r <| count ::= λ n, u64 (n - 1) |> |>);;
        mret (Some p)
      else remove_loop fuel (Link p) id
  end.

Definition registry_remove (id : Z) : M store (option ptr) :=
  r ← gets registry;
  if bool_decide (buckets r = None) || bool_decide (bucket_count r = 0) then mret None
  else
    fuel ← walk;
    remove_loop fuel (Bucket (Z.land (hash_transfer_id id) (bucket_count r - 1))) id.

(** ** Memory up to links *)

(** What the registry never changes in a transfer: all but [next]. *)
Definition data (h : gmap ptr transfer) : gmap ptr transfer := (λ t, t <| next := None |>) <$> h.

Lemma data_lookup h h' q t :
  data h' = data h → h !! q = Some t →
  ∃ t', h' !! q = Some t' ∧ t' <| next := None |> = t <| next := None |>.
Proof.
  intros Hd Hq. assert (data h' !! q = Some (t <| next := None |>)) as H1
    by (unfold data in *; by rewrite Hd, lookup_fmap, Hq).
  unfold data in H1. rewrite lookup_fmap in H1.
  destruct (h' !! q) as [t'|]; [|done]. exists t'. split; [done|]. by apply (inj Some).
Qed.

Lemma data_id h h' q t :
  data h' = data h → h !! q = Some t → ∃ t', h' !! q = Some t' ∧ id t' = id t.
Proof.
  intros Hd Hq. destruct (data_lookup h h' q t Hd Hq) as (t' & H1 & H2). exists t'.
  split; [done|]. by apply (f_equal id) in H2.
Qed.

Lemma data_set_next h q t n : h !! q = Some t → data (<[q := t <| next := n |>]> h) = data h.
Proof.
  intros Hq. unfold data. rewrite fmap_insert. apply insert_id.
  by rewrite lookup_fmap, Hq.
Qed.

Lemma data_size h h' : data h' = data h → size h' = size h.
Proof.
  intros Hd. apply (f_equal size) in Hd. unfold data in Hd. by rewrite !map_size_fmap in Hd.
Qed.

(** ** The table *)

Definition bucket_of (n id : Z) : nat := Z.to_nat (Z.land (hash_transfer_id id) (n - 1)).

(** Bucket [i] is the chain [ls i] and every transfer is in the bucket of its id. *)
Definition table (h : gmap ptr transfer) (bs : list (option ptr)) (ls : nat → list ptr) : Prop :=
  ∀ i p, bs !! i = Some p → chain next h p (ls i) ∧
    ∀ q, q ∈ ls i → ∃ t, h !! q = Some t ∧ bucket_of (Zlen bs) (id t) = i.

Definition member (bs : list (option ptr)) (ls : nat → list ptr) (q : ptr) : Prop :=
  ∃ i, (i < length bs)%nat ∧ q ∈ ls i.

(** The finite map that the table stores. *)
Definition contents (h : gmap ptr transfer) bs ls (m : gmap Z ptr) : Prop :=
  ∀ k q, m !! k = Some q ↔ member bs ls q ∧ ∃ t, h !! q = Some t ∧ id t = k.

Definition pow2 (n : Z) : Prop := ∃ k, 0 ≤ k ≤ 63 ∧ n = 2 ^ k.

Record registry_ok (s : store) (m : gmap Z ptr) : Prop := RegOk {
  ok_count : count (registry s) = u64 (Z.of_nat (size m));
  ok_table : ∃ bs ls, buckets (registry s) = Some bs ∧ Zlen bs = bucket_count (registry s) ∧
    pow2 (Zlen bs) ∧ table (nodes s) bs ls ∧ contents (nodes s) bs ls m
}.

Lemma bucket_of_bound n i : pow2 n → (bucket_of n i < Z.to_nat n)%nat.
Proof.
  intros (k & Hk & ->). unfold bucket_of.
  replace (2 ^ k - 1) with (Z.ones k) by (rewrite Z.ones_equiv; lia).
  rewrite Z.land_ones by lia. pose proof (Z.mod_pos_bound (hash_transfer_id i) (2 ^ k)).
  assert (0 < 2 ^ k) by lia. lia.
Qed.

Lemma pow2_pos n : pow2 n → 0 < n.
Proof. intros (k & Hk & ->). lia. Qed.

(** The walk along a chain. *)
Lemma find_loop_spec fuel p l i s :
  chain next (nodes s) p l → (length l ≤ fuel)%nat →
  ∃ r, find_loop fuel p i s = Some (r, s, []) ∧
    match r with
    | Some q => q ∈ l ∧ ∃ t, nodes s !! q = Some t ∧ id t = i
    | None => ∀ q t, q ∈ l → nodes s !! q = Some t → id t ≠ i
    end.
Proof.
  revert p l. induction fuel as [|fuel IH]; intros p [|q l]; cbn; try lia.
  - intros -> _. exists None. split; [done|]. by intros q t ?%elem_of_nil.
  - intros -> _. exists None. split; [done|]. by intros q t ?%elem_of_nil.
  - intros (-> & t & Ht & Hc) Hl. unfold node. run_m. rewrite Ht. cbn.
    case_bool_decide as He.
    + exists (Some q). split; [done|]. split; [set_solver|]. eauto.
    + destruct (IH _ _ Hc ltac:(lia)) as (r & -> & Hr). exists r. split; [done|].
      destruct r as [q'|]; [destruct Hr; split; [set_solver|done]|].
      intros q' t' [->|Hin]%elem_of_cons Ht'; [congruence|]. by apply (Hr q').
Qed.

Lemma load_bucket_eq s bs i p :
  buckets (registry s) = Some bs → bs !! Z.to_nat i = Some p →
  load_bucket i s = Some (p, s, []).
Proof. intros Hb Hp. unfold load_bucket. run_m. rewrite Hb. cbn. by rewrite Hp. Qed.

Lemma lookup_bucket (bs : list (option ptr)) i : pow2 (Zlen bs) → is_Some (bs !! bucket_of (Zlen bs) i).
Proof. intros Hp. apply lookup_lt_is_Some. pose proof (bucket_of_bound _ i Hp). lia. Qed.

(** [registry_find] looks the id up. *)
Lemma registry_find_eq s m i : registry_ok s m → registry_find i s = Some (m !! i, s, []).
Proof.
  intros [_ (bs & ls & Hb & Hn & Hp & Ht & Hc)]. unfold registry_find.
  pose proof (pow2_pos _ Hp). destruct (lookup_bucket bs i Hp) as [p Hi].
  destruct (Ht _ _ Hi) as [Hch Hin].
  destruct (find_loop_spec (size (nodes s)) p _ i s Hch (chain_length _ _ _ _ Hch)) as (r & Hr & Hspec).
  cbv [mbind M_bind gets mret M_ret walk]. cbn.
  rewrite (bool_decide_false (buckets (registry s) = None)) by congruence.
  rewrite (bool_decide_false (bucket_count (registry s) = 0)) by lia. cbn.
  rewrite <- Hn, (load_bucket_eq s bs _ p Hb Hi). cbn. rewrite Hr. cbn.
  do 3 f_equal. destruct r as [q|].
  - symmetry. apply Hc. destruct Hspec as [Hq Hid]. split; [|done].
    exists (bucket_of (Zlen bs) i). split; [|done]. by apply lookup_lt_Some in Hi.
  - destruct (m !! i) as [q|] eqn:E; [|done]. apply Hc in E as [(j & Hj & Hq) (t & Htq & <-)].
    destruct (proj2 (lookup_lt_is_Some bs j) Hj) as [p' Hp'].
    destruct (Ht _ _ Hp') as [_ Hin']. destruct (Hin' _ Hq) as (t' & Htq' & Hj').
    rewrite Htq in Htq'. injection Htq' as <-. subst j. by destruct (Hspec q t Hq Htq).
Qed.

(** ** Insertion *)

Definition push (ls : nat → list ptr) (i : nat) (q : ptr) : nat → list ptr :=
  λ j, if decide (j = i) then q :: ls i else ls j.

(** A transfer not in the table goes in front of the chain of its bucket. *)
Lemma table_push h bs ls q t first :
  table h bs ls → h !! q = Some t → ¬ member bs ls q →
  bs !! bucket_of (Zlen bs) (id t) = Some first →
  let i := bucket_of (Zlen bs) (id t) in
  table (<[q := t <| next := first |>]> h) (<[i := Some q]> bs) (push ls i q) ∧
  ∀ r, member (<[i := Some q]> bs) (push ls i q) r ↔ member bs ls r ∨ r = q.
Proof.
  intros Ht Hq Hm Hf i. pose proof (lookup_lt_Some _ _ _ Hf) as Hi.
  assert (∀ j, (j < length bs)%nat → q ∉ ls j) as Hnot by (intros j Hj Hin; apply Hm; by exists j).
  split.
  - intros j p Hp. rewrite length_insert. unfold push.
    destruct (decide (j = i)) as [->|Hne].
    + rewrite list_lookup_insert_eq in Hp by done. injection Hp as <-.
      destruct (Ht _ _ Hf) as [Hch Hin]. split; [eapply chain_cons; [by apply Hnot|done|done]|].
      intros r [->|Hr]%elem_of_cons.
      * rewrite lookup_insert_eq. by eexists.
      * destruct (decide (r = q)) as [->|]; [by destruct (Hnot _ Hi)|].
        rewrite lookup_insert_ne by done. by apply Hin.
    + rewrite list_lookup_insert_ne in Hp by done. destruct (Ht _ _ Hp) as [Hch Hin].
      apply lookup_lt_Some in Hp. split; [apply chain_insert; [by apply Hnot|done]|].
      intros r Hr. rewrite lookup_insert_ne; [by apply Hin|]. intros ->. by apply (Hnot j).
  - intros r. unfold member, push. rewrite length_insert. split.
    + intros (j & Hj & Hr). case_decide; [subst j|left; eauto].
      apply elem_of_cons in Hr as [->|]; [by right|left; eauto].
    + intros [(j & Hj & Hr)| ->].
      * exists j. split; [done|]. case_decide; [subst j; by apply elem_of_cons; right|done].
      * exists i. split; [done|]. rewrite decide_True by done. by apply elem_of_cons; left.
Qed.

Lemma set_next_eq s q t n :
  nodes s !! q = Some t →
  set_next q n s = Some ((), s <| nodes := <[q := t <| next := n |>]> (nodes s) |>, []).
Proof. intros Hq. unfold set_next, node. run_m. by rewrite Hq. Qed.

Lemma move_loop_spec fuel p l s nb ls :
  chain next (nodes s) p l → (length l ≤ fuel)%nat → pow2 (Zlen nb) →
  table (nodes s) nb ls → (∀ q, q ∈ l → ¬ member nb ls q) →
  ∃ nb' ls' s', move_loop fuel p (Zlen nb) nb s = Some (nb', s', []) ∧
    Zlen nb' = Zlen nb ∧ registry s' = registry s ∧ data (nodes s') = data (nodes s) ∧
    (∀ q, q ∉ l → nodes s' !! q = nodes s !! q) ∧ table (nodes s') nb' ls' ∧
    ∀ q, member nb' ls' q ↔ member nb ls q ∨ q ∈ l.
Proof.
  revert fuel p s nb ls. induction l as [|q l IH]; intros fuel p s nb ls Hc Hf Hp Ht Hd.
  - cbn in Hc. subst p. exists nb, ls, s. destruct fuel; (split; [done|]); set_solver.
  - pose proof (chain_nodup _ _ _ _ Hc) as [Hql _]%NoDup_cons.
    destruct Hc as (-> & t & Hq & Hc). destruct fuel as [|fuel]; [cbn in Hf; lia|].
    destruct (lookup_bucket nb (id t) Hp) as [first Hfirst].
    destruct (table_push _ _ _ _ _ _ Ht Hq (Hd q ltac:(set_solver)) Hfirst) as [Ht' Hm'].
    set (i := bucket_of (Zlen nb) (id t)) in *.
    set (s1 := s <| nodes := <[q := t <| next := first |>]> (nodes s) |>).
    destruct (IH fuel (next t) s1 (<[i := Some q]> nb) (push ls i q))
      as (nb' & ls' & s' & Hrun & Hlen & Hreg & Hdata & Hout & Htab & Hmem).
    + by apply chain_insert.
    + cbn in Hf. lia.
    + by rewrite length_insert.
    + done.
    + intros r Hr [Hr'| ->]%Hm'; [|done]. by apply (Hd r); [set_solver|].
    + exists nb', ls', s'. rewrite length_insert in *. split.
      { cbn. cbv [mbind M_bind defined mret]. unfold node. run_m. rewrite Hq. cbn.
        fold (bucket_of (Zlen nb) (id t)). fold i. rewrite Hfirst. cbn.
        rewrite (set_next_eq s q t first Hq). cbn.
        match goal with |- context [move_loop _ _ _ _ ?x] => change x with s1 end.
        by rewrite Hrun. }
      split; [done|]. split; [by rewrite Hreg|].
      split; [rewrite Hdata; by apply data_set_next|].
      split; [|split; [done|]].
      * intros r Hr. rewrite Hout by set_solver. cbn.
        by rewrite lookup_insert_ne by set_solver.
      * intros r. rewrite Hmem, Hm'. set_solver.
Qed.

(** The chains of different buckets share no transfer. *)
Lemma table_disjoint h bs ls i j q :
  table h bs ls → (i < length bs)%nat → (j < length bs)%nat → q ∈ ls i → q ∈ ls j → i = j.
Proof.
  intros Ht [p Hi]%lookup_lt_is_Some [p' Hj]%lookup_lt_is_Some Hqi Hqj.
  destruct (Ht _ _ Hi) as [_ H1], (Ht _ _ Hj) as [_ H2].
  destruct (H1 _ Hqi) as (t & Ht1 & <-), (H2 _ Hqj) as (t' & Ht2 & <-). congruence.
Qed.

Lemma resize_loop_spec fuel old lo s nb ls :
  (∀ i p, old !! i = Some p → chain next (nodes s) p (lo i) ∧ (length (lo i) ≤ fuel)%nat) →
  (∀ i j q, (i < length old)%nat → (j < length old)%nat → q ∈ lo i → q ∈ lo j → i = j) →
  pow2 (Zlen nb) → table (nodes s) nb ls →
  (∀ q, member old lo q → ¬ member nb ls q) →
  ∃ nb' ls' s', resize_loop fuel old (Zlen nb) nb s = Some (nb', s', []) ∧
    Zlen nb' = Zlen nb ∧ registry s' = registry s ∧ data (nodes s') = data (nodes s) ∧
    table (nodes s') nb' ls' ∧ ∀ q, member nb' ls' q ↔ member nb ls q ∨ member old lo q.
Proof.
  revert lo s nb ls. induction old as [|p old IH]; intros lo s nb ls Hch Hdis Hp Ht Hnot.
  - exists nb, ls, s. do 5 (split; [done|]). intros q. split; [by left|].
    intros [|(i & Hi & _)]; [done|]. cbn in Hi. lia.
  - destruct (Hch 0%nat p eq_refl) as [Hc Hf].
    assert (∀ q, q ∈ lo 0%nat → member (p :: old) lo q) as H0
      by (intros q Hq; exists 0%nat; split; [cbn; lia|done]).
    destruct (move_loop_spec fuel p (lo 0%nat) s nb ls Hc Hf Hp Ht)
      as (nb1 & ls1 & s1 & Hrun & Hlen & Hreg & Hdata & Hout & Htab & Hmem); [by auto|].
    assert (∀ i q, (i < length old)%nat → q ∈ lo (S i) → q ∉ lo 0%nat) as Hapart.
    { intros i q Hi Hq Hq0. by specialize (Hdis (S i) 0%nat q ltac:(cbn; lia) ltac:(cbn; lia) Hq Hq0). }
    destruct (IH (λ i, lo (S i)) s1 nb1 ls1) as (nb2 & ls2 & s2 & Hrun2 & Hlen2 & Hreg2 & Hdata2 & Htab2 & Hmem2).
    + intros i p' Hi. destruct (Hch (S i) p' Hi) as [Hc' Hf']. split; [|done].
      apply lookup_lt_Some in Hi. apply (chain_frame _ (nodes s)); [|done].
      intros q Hq. apply Hout. by apply (Hapart i).
    + intros i j q Hi Hj Hqi Hqj.
      by specialize (Hdis (S i) (S j) q ltac:(cbn; lia) ltac:(cbn; lia) Hqi Hqj) as [= ->].
    + by rewrite Hlen.
    + done.
    + intros q (i & Hi & Hq) [H|H]%Hmem; [|by apply (Hapart i q)].
      apply (Hnot q); [exists (S i); split; [cbn; lia|done]|done].
    + exists nb2, ls2, s2. split.
      { cbn. cbv [mbind M_bind]. rewrite Hrun. rewrite <- Hlen. by rewrite Hrun2. }
      split; [congruence|]. split; [congruence|]. split; [congruence|]. split; [done|].
      intros q. rewrite Hmem2, Hmem. split.
      * intros [[|]|(i & Hi & Hq)]; [by left|right; by apply H0|right].
        exists (S i). split; [cbn; lia|done].
      * intros [|([|i] & Hi & Hq)]; [by left; left|by left; right|right].
        exists i. split; [cbn in Hi; lia|done].
Qed.

Lemma contents_data h h' bs bs' ls ls' m :
  contents h bs ls m → data h' = data h → (∀ q, member bs' ls' q ↔ member bs ls q) →
  contents h' bs' ls' m.
Proof.
  intros Hc Hd Hm k q. rewrite (Hc k q), Hm.
  split; intros [Hq (t & Ht & <-)]; (split; [done|]).
  - destruct (data_id _ _ _ _ Hd Ht) as (t' & ? & ?). eauto.
  - destruct (data_id _ _ _ _ (eq_sym Hd) Ht) as (t' & ? & ?). eauto.
Qed.

Lemma table_empty h n : table h (replicate n None) (λ _, []).
Proof.
  intros i p [-> _]%lookup_replicate. split; [done|]. by intros q ?%elem_of_nil.
Qed.

(** Resizing keeps the map, whether the allocation succeeds or not. *)
Lemma registry_resize_ok `{Allocator} s m :
  registry_ok s m → ∃ s', registry_resize s = Some ((), s', []) ∧ registry_ok s' m ∧
    data (nodes s') = data (nodes s).
Proof.
  intros Hok. pose proof Hok as [Hct (bs & ls & Hb & Hn & Hp & Ht & Hc)].
  unfold registry_resize. cbv [mbind M_bind gets mret M_ret walk defined modify]. cbn.
  case_bool_decide as Hbig; [by exists s|].
  destruct (calloc _ _); [|by exists s]. cbn. rewrite Hb.
  set (nb := replicate (Z.to_nat (bucket_count (registry s) * 2)) None).
  assert (Zlen nb = bucket_count (registry s) * 2) as Hnb
    by (unfold nb; rewrite length_replicate; pose proof (pow2_pos _ Hp); lia).
  assert (pow2 (Zlen nb)) as Hp'.
  { destruct Hp as (k & Hk & Hkn). exists (k + 1). rewrite Hnb, <- Hn, Hkn.
    rewrite Z.pow_add_r by lia. split; [|lia].
    assert (k ≠ 63) by (intros ->; apply Hbig; rewrite <- Hn, Hkn; reflexivity). lia. }
  rewrite take_ge by lia.
  destruct (resize_loop_spec (size (nodes s)) bs ls s nb (λ _, []))
    as (nb' & ls' & s' & Hrun & Hlen & Hreg & Hdata & Htab & Hmem).
  - intros i p Hi. destruct (Ht _ _ Hi) as [Hch _]. split; [done|]. by eapply chain_length.
  - intros i j q. by apply table_disjoint with (h := nodes s).
  - done.
  - apply table_empty.
  - intros q _ (i & _ & Hq). by apply elem_of_nil in Hq.
  - rewrite <- Hnb, Hrun. eexists. split; [reflexivity|]. split; [|done].
    split; [by rewrite <- Hct, <- Hreg|]. exists nb', ls'. cbn. rewrite Hlen.
    do 4 (split; [done|]). apply (contents_data (nodes s) _ bs _ ls); [done..|].
    intros q. rewrite Hmem. split; [|by right]. intros [(i & _ & Hq)|]; [|done].
    by apply elem_of_nil in Hq.
Qed.

Lemma store_bucket_eq s bs i p :
  buckets (registry s) = Some bs → 0 ≤ i → (Z.to_nat i < length bs)%nat →
  store_bucket i p s = Some ((), s <| registry ::= λ r,
    r <| buckets := Some (<[Z.to_nat i := p]> bs) |> |>, []).
Proof.
  intros Hb Hi Hl. unfold store_bucket. run_m. rewrite Hb. cbn.
  by rewrite bool_decide_true by lia.
Qed.

Lemma bucket_nonneg n i : pow2 n → 0 ≤ Z.land (hash_transfer_id i) (n - 1).
Proof. intros Hp%pow2_pos. apply Z.land_nonneg. right. lia. Qed.

Lemma contents_push h bs ls (m : gmap Z ptr) q t first bs' ls' :
  contents h bs ls m → h !! q = Some t → m !! id t = None →
  (∀ r, member bs' ls' r ↔ member bs ls r ∨ r = q) →
  contents (<[q := t <| next := first |>]> h) bs' ls' (<[id t := q]> m).
Proof.
  intros Hc Hq Hm Hmem k r. rewrite Hmem.
  destruct (decide (r = q)) as [->|Hr].
  - rewrite lookup_insert_eq. destruct (decide (k = id t)) as [->|Hk].
    + rewrite lookup_insert_eq. split; [|done]. intros _. split; [by right|]. by eexists.
    + rewrite lookup_insert_ne by done. split.
      * intros [Hmq (t' & Ht' & <-)]%Hc. congruence.
      * intros [_ (t' & [= <-] & E)]. by destruct Hk.
  - rewrite (lookup_insert_ne h) by congruence. destruct (decide (k = id t)) as [->|Hk].
    + rewrite (lookup_insert_eq m). split; [intros [= ->]; done|].
      intros [[Hmr|] (t' & Ht' & E)]; [|done].
      assert (m !! id t = Some r) as Hr' by (apply Hc; split; [done|]; by exists t').
      congruence.
    + rewrite lookup_insert_ne by done. rewrite (Hc k r). split; [intros [? ?]; auto|].
      intros [[|] ?]; [auto|done].
Qed.

Lemma u64_succ n : u64 (u64 n + 1) = u64 (n + 1).
Proof. unfold u64. by rewrite Zplus_mod_idemp_l. Qed.
Lemma u64_pred n : u64 (u64 n - 1) = u64 (n - 1).
Proof. unfold u64. by rewrite Zminus_mod_idemp_l. Qed.

Lemma registry_insert_ok `{Allocator} s m q t :
  registry_ok s m → nodes s !! q = Some t →
  ∃ s', registry_insert (Some q) s = Some (bool_decide (m !! id t = None), s', []) ∧
    data (nodes s') = data (nodes s) ∧
    registry_ok s' (if decide (m !! id t = None) then <[id t := q]> m else m).
Proof.
  intros Hok Hq. pose proof Hok as [_ (bs0 & ls0 & Hb0 & _)].
  unfold registry_insert. cbv [mbind M_bind gets mret M_ret]. cbn. rewrite Hb0.
  unfold node at 1. run_m. rewrite Hq. cbn. rewrite (registry_find_eq s m (id t) Hok). cbn.
  destruct (m !! id t) as [q'|] eqn:Hm; [exists s; by rewrite bool_decide_false|].
  match goal with |- context [match (if ?b then _ else _) s with _ => _ end] => set (c := b) end.
  assert (∃ s1, (if c then registry_resize else (λ s, Some ((), s, []))) s = Some ((), s1, []) ∧
    registry_ok s1 m ∧ data (nodes s1) = data (nodes s)) as (s1 & Hr & Hok1 & Hd1).
  { destruct c; [by apply registry_resize_ok|by exists s]. }
  rewrite Hr. clear Hr c. destruct (data_id _ _ _ _ Hd1 Hq) as (t1 & Hq1 & Hid). rewrite <- Hid in *.
  destruct Hok1 as [Hct (bs & ls & Hb & Hn & Hp & Ht & Hc)].
  destruct (lookup_bucket bs (id t1) Hp) as [first Hf]. rewrite <- Hn.
  rewrite (load_bucket_eq s1 bs _ first Hb Hf). cbn. rewrite (set_next_eq s1 q t1 first Hq1). cbn.
  rewrite (store_bucket_eq _ bs) by
    first [done | by apply bucket_nonneg | by apply lookup_lt_Some in Hf]. cbn.
  destruct (table_push _ _ _ q t1 first Ht Hq1) as [Ht' Hm']; [|done|].
  { intros Hmem. assert (m !! id t1 = Some q) as E by (apply Hc; split; [done|]; by exists t1).
    congruence. }
  eexists. split; [reflexivity|]. cbn.
  split; [rewrite <- Hd1; by apply data_set_next|]. case_decide; [|done]. split.
  - cbn. rewrite Hct, u64_succ, map_size_insert_None by done. f_equal. lia.
  - eexists _, _. cbn. split; [reflexivity|]. rewrite length_insert. do 2 (split; [done|]).
    split; [exact Ht'|]. by apply (contents_push _ bs ls).
Qed.

(** ** Removal *)

Definition decrement : M store () :=
  modify (λ s, s <| registry ::= λ r, r <| count ::= λ n, u64 (n - 1) |> |>).

(** The walk stops at the first transfer with the id, with the cursor at the
    pointer that leads to it. *)
Lemma remove_loop_spec fuel c i s p l :
  load_cursor c s = Some (p, s, []) → chain next (nodes s) p l → (length l ≤ fuel)%nat →
  (remove_loop fuel c i s = Some (None, s, []) ∧
    ∀ q t, q ∈ l → nodes s !! q = Some t → id t ≠ i) ∨
  ∃ l1 q l2 t, l = l1 ++ q :: l2 ∧ nodes s !! q = Some t ∧ id t = i ∧
    remove_loop fuel c i s =
      (store_cursor (from_option Link c (last l1)) (next t);; set_next q None;; decrement;;
       mret (Some q)) s.
Proof.
  revert fuel c p. induction l as [|q l IH]; intros fuel c p Hl Hc Hf.
  - cbn in Hc. subst p. left. split; [|by intros q t ?%elem_of_nil].
    destruct fuel; cbn; cbv [mbind M_bind]; by rewrite Hl.
  - destruct Hc as (-> & t & Ht & Hc). destruct fuel as [|fuel]; [cbn in Hf; lia|].
    assert (remove_loop (S fuel) c i s =
      (if bool_decide (id t = i) then
        (store_cursor c (next t);; set_next q None;; decrement;; mret (Some q)) s
      else remove_loop fuel (Link q) i s)) as Hstep.
    { cbn. cbv [mbind M_bind]. rewrite Hl. unfold node at 1. run_m. rewrite Ht. cbn.
      case_bool_decide; [|by destruct (remove_loop fuel (Link q) i s) as [[[? ?] ?]|]].
      destruct (store_cursor c (next t) s) as [[[? s1] ?]|]; [|done].
      by destruct (set_next q None s1) as [[[? ?] ?]|]. }
    rewrite Hstep.
    destruct (decide (id t = i)) as [Hid|Hid].
    + right. exists [], q, l, t. do 3 (split; [done|]). by rewrite bool_decide_true by done.
    + destruct (IH fuel (Link q) (next t)) as [[Hr Hno]|(l1 & q' & l2 & t' & -> & Hq' & Hi & Hr)].
      * cbn. cbv [mbind M_bind mret M_ret]. unfold node. run_m. by rewrite Ht.
      * done.
      * cbn in Hf. lia.
      * left. split; [by rewrite bool_decide_false by done|].
        intros q' t' [->|Hin]%elem_of_cons Ht'; [congruence|by apply (Hno q')].
      * right. exists (q :: l1), q', l2, t'. do 3 (split; [done|]).
        rewrite bool_decide_false by done. rewrite Hr. rewrite last_cons. by destruct (last l1).
Qed.

(** The table after the removal of [q], which was in bucket [i]. *)
Definition drop_node (ls : nat → list ptr) (i : nat) (l : list ptr) : nat → list ptr :=
  λ j, if decide (j = i) then l else ls j.

Lemma table_drop h h' bs bs' ls b l :
  table h bs ls → length bs' = length bs → (b < length bs)%nat → data h' = data h →
  (∀ j p, j ≠ b → bs' !! j = Some p → bs !! j = Some p ∧ chain next h' p (ls j)) →
  (∀ p, bs' !! b = Some p → chain next h' p l) → (∀ q, q ∈ l → q ∈ ls b) →
  table h' bs' (drop_node ls b l).
Proof.
  intros Ht Hl Hb Hd Hj Hb' Hin j p Hp. unfold drop_node. rewrite Hl.
  destruct (decide (j = b)) as [->|Hne].
  - split; [by apply Hb'|]. intros q Hq%Hin.
    destruct (proj2 (lookup_lt_is_Some bs b) Hb) as [p0 Hp0].
    destruct (Ht _ _ Hp0) as [_ H]. destruct (H q Hq) as (t & Htq & E).
    destruct (data_id _ _ _ _ Hd Htq) as (t' & Ht' & Hid). exists t'. by rewrite Hid.
  - destruct (Hj _ _ Hne Hp) as [Hp0 Hch]. split; [done|]. intros q Hq.
    destruct (Ht _ _ Hp0) as [_ H]. destruct (H q Hq) as (t & Htq & E).
    destruct (data_id _ _ _ _ Hd Htq) as (t' & Ht' & Hid). exists t'. by rewrite Hid.
Qed.

(** The removal of [q] from the chain of bucket [b]: the links and the counter. *)
Definition unlinked (s : store) (bs : list (option ptr)) (h : gmap ptr transfer) (q : ptr)
    (t : transfer) : store :=
  Store (<[q := t <| next := None |>]> h)
    (Mk (Some bs) (bucket_count (registry s)) (u64 (count (registry s) - 1))).

Lemma run_unlink_first s bs b q t :
  buckets (registry s) = Some bs → (b < length bs)%nat → nodes s !! q = Some t →
  (store_cursor (Bucket (Z.of_nat b)) (next t);; set_next q None;; decrement;;
    mret (Some q)) s = Some (Some q, unlinked s (<[b := next t]> bs) (nodes s) q t, []).
Proof.
  intros Hbs Hb Hq. cbv [mbind M_bind store_cursor].
  rewrite (store_bucket_eq s bs), Nat2Z.id by (done || lia).
  by rewrite (set_next_eq _ q t).
Qed.

Lemma run_unlink_later s bs r q t tr :
  buckets (registry s) = Some bs → nodes s !! r = Some tr → nodes s !! q = Some t → r ≠ q →
  (store_cursor (Link r) (next t);; set_next q None;; decrement;; mret (Some q)) s =
    Some (Some q, unlinked s bs (<[r := tr <| next := next t |>]> (nodes s)) q t, []).
Proof.
  intros Hbs Hr Hq Hne. cbv [mbind M_bind store_cursor].
  rewrite (set_next_eq _ r tr) by done. rewrite (set_next_eq _ q t).
  - cbn. unfold unlinked. by rewrite <- Hbs.
  - cbn. by rewrite lookup_insert_ne.
Qed.

Lemma unlink_ok s bs ls b p l1 q l2 t :
  buckets (registry s) = Some bs → table (nodes s) bs ls → bs !! b = Some p →
  ls b = l1 ++ q :: l2 → nodes s !! q = Some t →
  ∃ bs' h, (store_cursor (from_option Link (Bucket (Z.of_nat b)) (last l1)) (next t);;
      set_next q None;; decrement;; mret (Some q)) s =
        Some (Some q, unlinked s bs' h q t, []) ∧
    length bs' = length bs ∧ data (<[q := t <| next := None |>]> h) = data (nodes s) ∧
    table (<[q := t <| next := None |>]> h) bs' (drop_node ls b (l1 ++ l2)).
Proof.
  intros Hbs Ht Hb Hls Hq. destruct (Ht _ _ Hb) as [Hch _]. rewrite Hls in Hch.
  pose proof (lookup_lt_Some _ _ _ Hb) as Hlt. pose proof (chain_nodup _ _ _ _ Hch) as Hnd.
  assert (∀ j r, (j < length bs)%nat → j ≠ b → r ∈ ls b → r ∉ ls j) as Hother
    by (intros j r Hj Hne H1 H2; apply Hne; by apply (table_disjoint (nodes s) bs ls j b r)).
  assert (q ∈ ls b) as Hqb by (rewrite Hls; set_solver).
  assert (∀ r, r ∈ l1 ++ l2 → r ∈ ls b) as Hsub by (rewrite Hls; set_solver).
  assert (q ∉ l1 ++ l2) as Hqn by (apply NoDup_app in Hnd as (_ & H1 & [H2 _]%NoDup_cons); set_solver).
  destruct l1 as [|r l1 _] using rev_ind.
  - eexists _, _. split; [by apply run_unlink_first|]. split; [apply length_insert|].
    split; [by apply data_set_next|].
    destruct Hch as (-> & t' & Hq' & Hch). rewrite Hq in Hq'. injection Hq' as <-.
    apply (table_drop (nodes s) _ bs); try done; [apply length_insert|by apply data_set_next| |].
    + intros j p' Hne Hp'. rewrite list_lookup_insert_ne in Hp' by done. split; [done|].
      destruct (Ht _ _ Hp') as [Hc _]. apply lookup_lt_Some in Hp'.
      apply chain_insert; [by apply Hother|done].
    + intros p'. rewrite list_lookup_insert_eq by done. intros [= <-]. by apply chain_insert.
  - rewrite last_snoc. cbn. rewrite <- app_assoc in Hch, Hqn |- *. cbn in Hch, Hqn |- *.
    destruct (chain_live _ _ _ _ r Hch ltac:(set_solver)) as [tr Hr].
    assert (r ≠ q) as Hrq by set_solver.
    assert (r ∈ ls b) as Hrb by (apply Hsub; set_solver).
    eexists bs, _. split; [by apply run_unlink_later|]. split; [done|].
    assert (data (<[q := t <| next := None |>]> (<[r := tr <| next := next t |>]> (nodes s))) =
      data (nodes s)) as Hd.
    { rewrite data_set_next by (by rewrite lookup_insert_ne). by apply data_set_next. }
    split; [done|]. apply (table_drop (nodes s) _ bs); try done.
    + intros j p' Hne Hp'. split; [done|]. destruct (Ht _ _ Hp') as [Hc _].
      apply lookup_lt_Some in Hp'. by do 2 (apply chain_insert; [by apply Hother|]).
    + intros p' Hp'. rewrite Hb in Hp'. injection Hp' as <-.
      apply chain_insert; [done|]. by apply (chain_unlink _ _ _ _ _ q _ tr t).
    + intros r' Hr'. apply Hsub. by rewrite <- app_assoc.
Qed.

Lemma contents_drop h h' bs bs' ls b l1 q l2 (m : gmap Z ptr) t :
  contents h bs ls m → data h' = data h → length bs' = length bs → (b < length bs)%nat →
  table h bs ls → ls b = l1 ++ q :: l2 → NoDup (ls b) → h !! q = Some t →
  contents h' bs' (drop_node ls b (l1 ++ l2)) (delete (id t) m).
Proof.
  intros Hc Hd Hl Hb Ht Hls Hnd Hq k r.
  assert (∀ j, (j < length bs)%nat → q ∉ drop_node ls b (l1 ++ l2) j) as Hgone.
  { intros j Hj. unfold drop_node. case_decide as E.
    - rewrite Hls in Hnd. apply NoDup_app in Hnd as (_ & H1 & [H2 _]%NoDup_cons). set_solver.
    - intros Hin. apply E. apply (table_disjoint h bs ls j b q); try done. rewrite Hls. set_solver. }
  assert (r ≠ q → member bs' (drop_node ls b (l1 ++ l2)) r ↔ member bs ls r) as Hsame.
  { intros Hr. unfold member, drop_node. rewrite Hl.
    split; intros (j & Hj & Hin); exists j; (split; [done|]); case_decide; subst; try done;
      rewrite Hls in *; set_solver. }
  assert (∃ t', h' !! q = Some t' ∧ id t' = id t) as (tq & Hq' & Hidq) by by eapply data_id.
  destruct (decide (r = q)) as [->|Hr].
  - split.
    + intros [Hk Hm]%lookup_delete_Some. apply Hc in Hm as [_ (t' & Ht' & <-)]. congruence.
    + intros [(j & Hj & Hin) _]. rewrite Hl in Hj. by apply (Hgone j) in Hin.
  - rewrite Hsame by done. rewrite lookup_delete_Some, (Hc k r).
    split; [intros [Hk [Hm (t' & Ht' & <-)]]|intros [Hm (t' & Ht' & <-)]].
    + split; [done|]. destruct (data_id _ _ _ _ Hd Ht') as (t2 & ? & ?). eauto.
    + destruct (data_id _ _ _ _ (eq_sym Hd) Ht') as (t2 & Ht2 & E2). rewrite <- E2.
      split; [|split; [done|by eexists]]. intros E.
      assert (m !! id t = Some q) as H1 by (apply Hc; split; [|by eexists]; exists b; rewrite Hls;
        split; [done|]; set_solver).
      assert (m !! id t = Some r) as H2 by (apply Hc; split; [done|]; exists t2; by rewrite E).
      congruence.
Qed.

Lemma registry_remove_ok s m i :
  registry_ok s m →
  ∃ s', registry_remove i s = Some (m !! i, s', []) ∧ registry_ok s' (delete i m) ∧
    data (nodes s') = data (nodes s) ∧ (m !! i = None → s' = s).
Proof.
  intros Hok. pose proof Hok as [Hct (bs & ls & Hb & Hn & Hp & Ht & Hc)].
  unfold registry_remove. pose proof (pow2_pos _ Hp).
  destruct (lookup_bucket bs i Hp) as [p Hi]. destruct (Ht _ _ Hi) as [Hch _].
  pose proof (lookup_lt_Some _ _ _ Hi) as Hlt.
  cbv [mbind M_bind gets mret M_ret walk]. cbn.
  rewrite (bool_decide_false (buckets (registry s) = None)) by congruence.
  rewrite (bool_decide_false (bucket_count (registry s) = 0)) by lia. cbn. rewrite <- Hn.
  assert (Z.land (hash_transfer_id i) (Zlen bs - 1) = Z.of_nat (bucket_of (Zlen bs) i)) as Hbk
    by (unfold bucket_of; rewrite Z2Nat.id; [done|by apply bucket_nonneg]).
  rewrite Hbk.
  destruct (remove_loop_spec (size (nodes s)) (Bucket (Z.of_nat (bucket_of (Zlen bs) i))) i s p
    (ls (bucket_of (Zlen bs) i))) as [[Hr Hno]|(l1 & q & l2 & t & Hls & Hq & Hid & Hr)].
  - cbn. apply (load_bucket_eq s bs); [done|]. by rewrite Nat2Z.id.
  - done.
  - by eapply chain_length.
  - rewrite Hr. exists s.
    assert (m !! i = None) as Hm.
    { destruct (m !! i) as [q|] eqn:E; [|done]. apply Hc in E as [(j & Hj & Hq) (t & Htq & <-)].
      destruct (proj2 (lookup_lt_is_Some bs j) Hj) as [p' Hp'].
      destruct (Ht _ _ Hp') as [_ Hin']. destruct (Hin' _ Hq) as (t' & Htq' & Hj').
      rewrite Htq in Htq'. injection Htq' as <-. subst j. by destruct (Hno q t Hq Htq). }
    rewrite Hm, delete_id by done. done.
  - rewrite Hr. destruct (unlink_ok s bs ls _ p l1 q l2 t Hb Ht Hi Hls Hq)
      as (bs' & h & Hrun & Hl & Hd & Ht'). rewrite Hrun.
    assert (m !! i = Some q) as Hm.
    { rewrite <- Hid. apply Hc. split; [|by eexists]. eexists. split; [exact Hlt|].
      rewrite Hls. set_solver. }
    eexists. split; [by rewrite Hm|]. split; [|split; [done|congruence]]. split.
    + cbn. rewrite Hct, u64_pred, map_size_delete, Hm. cbn.
      assert (size m ≠ 0%nat) by (intros E%map_size_empty_inv; subst m; done).
      f_equal. lia.
    + eexists bs', _. cbn. split; [done|]. rewrite Hl. split; [done|]. split; [done|].
      split; [exact Ht'|]. rewrite <- Hid. apply (contents_drop (nodes s) _ bs bs' ls _ l1 q l2 m t); try done.
      * by rewrite Hid.
      * by rewrite Hid.
      * rewrite Hid. by eapply chain_nodup.
Qed.

Lemma registry_init_ok `{Allocator} s s' :
  registry_init s = Some (true, s', []) → registry_ok s' ∅ ∧ nodes s' = nodes s.
Proof.
  unfold registry_init. destruct (calloc _ _); [|done]. intros [= <-]. split; [|done].
  split; [done|]. exists (replicate 64 None), (λ _, []). split; [reflexivity|]. rewrite length_replicate.
  split; [done|]. split; [by exists 6|]. split; [apply table_empty|].
  intros k q. rewrite lookup_empty. split; [done|]. intros [(i & _ & Hq) _].
  by apply elem_of_nil in Hq.
Qed.

(** Memory may change around the table, and its transfers but for ids and links. *)
Lemma registry_ok_frame s h m :
  registry_ok s m →
  (∀ k q t, m !! k = Some q → nodes s !! q = Some t →
    ∃ t', h !! q = Some t' ∧ id t' = id t ∧ next t' = next t) →
  registry_ok (s <| nodes := h |>) m.
Proof.
  intros [Hct (bs & ls & Hb & Hn & Hp & Ht & Hc)] Hf.
  assert (∀ q t, member bs ls q → nodes s !! q = Some t →
    ∃ t', h !! q = Some t' ∧ id t' = id t ∧ next t' = next t) as Hf'.
  { intros q t Hq Hq'. apply (Hf (id t)); [|done]. apply Hc. eauto. }
  split; [done|]. exists bs, ls. split; [done|]. split; [done|]. split; [done|]. split.
  - intros i p Hi. destruct (Ht i p Hi) as [Hch Hin].
    assert (∀ q, q ∈ ls i → member bs ls q) as Hmem.
    { intros q Hq. exists i. split; [by eapply lookup_lt_Some|done]. }
    split.
    + apply (chain_links next (nodes s)); [|done]. intros q t Hq Hq'.
      destruct (Hf' q t (Hmem q Hq) Hq') as (t' & ? & _ & ?). eauto.
    + intros q Hq. destruct (Hin q Hq) as (t & Hq' & Hbk).
      destruct (Hf' q t (Hmem q Hq) Hq') as (t' & ? & Hid & _). exists t'. by rewrite Hid.
  - intros k q. rewrite (Hc k q). cbn. split; intros [Hq (t & Hqt & <-)]; (split; [done|]).
    + destruct (Hf' q t Hq Hqt) as (t' & ? & ? & _). eauto.
    + destruct Hq as (i & Hi & Hin). destruct (lookup_lt_is_Some_2 bs i Hi) as [p Hp'].
      destruct (Ht i p Hp') as [_ Hls]. destruct (Hls q Hin) as (u & Hu & _).
      assert (member bs ls q) as Hm by (by exists i).
      destruct (Hf' q u Hm Hu) as (t' & Ht' & Hid & _). rewrite Hqt in Ht'. injection Ht' as <-.
      eauto.
Qed.

(** ** The registry is a finite map *)

Inductive registry_op := Find (i : Z) | Insert (q : ptr) | Remove (i : Z).

(** An answer: the transfer found or removed, or whether it was inserted. *)
Definition answer : Type := option ptr + bool.

(** One call, with the allocator it meets. *)
Definition run_op (c : Allocator * registry_op) : M store answer :=
  let '(a, o) := c in
  match o with
  | Find i => r ← registry_find i; mret (inl r)
  | Insert q => b ← registry_insert (H := a) (Some q); mret (inr b)
  | Remove i => r ← registry_remove i; mret (inl r)
  end.

Fixpoint run_ops (cs : list (Allocator * registry_op)) : M store (list answer) :=
  match cs with
  | [] => mret []
  | c :: cs => r ← run_op c; rs ← run_ops cs; mret (r :: rs)
  end.

(** The same calls on a finite map, where transfer [q] has the id [ids q]. *)
Definition spec_op (ids : ptr → Z) (o : registry_op) (m : gmap Z ptr) : answer * gmap Z ptr :=
  match o with
  | Find i => (inl (m !! i), m)
  | Insert q =>
      match m !! ids q with
      | None => (inr true, <[ids q := q]> m)
      | Some _ => (inr false, m)
      end
  | Remove i => (inl (m !! i), delete i m)
  end.

Fixpoint spec_ops (ids : ptr → Z) (cs : list (Allocator * registry_op)) (m : gmap Z ptr) :
    list answer * gmap Z ptr :=
  match cs with
  | [] => ([], m)
  | (_, o) :: cs =>
      let '(r, m1) := spec_op ids o m in
      let '(rs, m2) := spec_ops ids cs m1 in (r :: rs, m2)
  end.

(** The transfers inserted are in memory, with their ids. *)
Definition live_ids (ids : ptr → Z) (cs : list (Allocator * registry_op)) (s : store) : Prop :=
  ∀ a q, (a, Insert q) ∈ cs → ∃ t, nodes s !! q = Some t ∧ id t = ids q.

Lemma live_ids_step ids c cs s s' :
  live_ids ids (c :: cs) s → data (nodes s') = data (nodes s) → live_ids ids cs s'.
Proof.
  intros Hl Hd a q Hq. destruct (Hl a q) as (t & Ht & E); [by apply elem_of_cons; right|].
  destruct (data_id _ _ _ _ Hd Ht) as (t' & ? & ?). exists t'. split; [done|congruence].
Qed.

Lemma run_op_refines ids a o cs s m :
  registry_ok s m → live_ids ids ((a, o) :: cs) s →
  ∃ s', run_op (a, o) s = Some ((spec_op ids o m).1, s', []) ∧
    registry_ok s' (spec_op ids o m).2 ∧ data (nodes s') = data (nodes s).
Proof.
  intros Hok Hl. destruct o as [i|q|i]; cbn; cbv [mbind M_bind].
  - rewrite (registry_find_eq s m i Hok). by exists s.
  - destruct (Hl a q) as (t & Hq & E); [by apply elem_of_cons; left|].
    destruct (registry_insert_ok (H := a) s m q t Hok Hq) as (s' & -> & Hd & Hok').
    rewrite E in *. exists s'.
    destruct (m !! ids q); case_decide; try done.
  - destruct (registry_remove_ok s m i Hok) as (s' & -> & Hok' & Hd & _). by exists s'.
Qed.

Lemma run_ops_refines ids cs s m :
  registry_ok s m → live_ids ids cs s →
  ∃ s', run_ops cs s = Some ((spec_ops ids cs m).1, s', []) ∧
    registry_ok s' (spec_ops ids cs m).2 ∧ data (nodes s') = data (nodes s).
Proof.
  revert s m. induction cs as [|[a o] cs IH]; intros s m Hok Hl; [by exists s|].
  destruct (run_op_refines ids a o cs s m Hok Hl) as (s1 & H1 & Hok1 & Hd1).
  destruct (IH s1 _ Hok1 (live_ids_step _ _ _ _ _ Hl Hd1)) as (s2 & H2 & Hok2 & Hd2).
  exists s2. cbn [run_ops spec_ops]. destruct (spec_op ids o m) as [r m1]. cbn [fst snd] in *.
  destruct (spec_ops ids cs m1) as [rs m2]. cbn [fst snd] in *.
  cbv [mbind M_bind]. rewrite H1, H2. by rewrite Hd2.
Qed.

(** C23: From a successful initialisation, every sequence of finds, insertions
    and removals, whatever allocations fail when the table grows, answers
    exactly as the finite map from ids to transfers does (an id that is present
    is refused and the older transfer kept), terminates without undefined
    behaviour and changes no field of a transfer but its link. *)
Theorem registry_refines_map `{Allocator} ids cs s0 s :
  registry_init s0 = Some (true, s, []) → live_ids ids cs s0 →
  ∃ s', run_ops cs s = Some ((spec_ops ids cs ∅).1, s', []) ∧
    data (nodes s') = data (nodes s0).
Proof.
  intros [Hok Hn]%registry_init_ok Hl.
  destruct (run_ops_refines ids cs s ∅ Hok) as (s' & Hr & _ & Hd).
  - intros a q Hq. rewrite Hn. by eapply Hl.
  - exists s'. by rewrite Hd, Hn.
Qed.

Definition sample_transfer (i : Z) : transfer :=
  Transfer i 1%positive 1%positive None None None false None.
Definition sample_store : store :=
  Store {[ 1%positive := sample_transfer 7; 2%positive := sample_transfer 7;
           3%positive := sample_transfer 71 ]} (Mk None 0 0).
Definition sample_calls : list (Allocator * registry_op) :=
  [(alloc_always, Insert 1%positive); (alloc_never, Insert 3%positive);
   (alloc_always, Insert 2%positive); (alloc_always, Find 7); (alloc_always, Remove 7);
   (alloc_always, Insert 2%positive)].
Definition sample_ids (q : ptr) : Z := if decide (q = 3%positive) then 71 else 7.

Lemma registry_refines_map_witness :
  ∃ s', run_ops sample_calls (Store (nodes sample_store) (Mk (Some (replicate 64 None)) 64 0)) =
    Some ([inr true; inr true; inr false; inl (Some 1%positive); inl (Some 1%positive);
           inr true], s', []).
Proof.
  destruct (registry_refines_map (H := alloc_always) sample_ids sample_calls sample_store
    (Store (nodes sample_store) (Mk (Some (replicate 64 None)) 64 0))) as (s' & Hr & _).
  - reflexivity.
  - intros a q Hq. unfold sample_calls in Hq. rewrite !elem_of_cons, elem_of_nil in Hq.
    destruct_or! Hq; simplify_eq; vm_compute; eexists; (split; reflexivity).
  - exists s'. exact Hr.
Defined.

End Registry.
