(* ===== verification/Metrics.v ===== *)
(** * Transfer metrics ([cbits/curl_metrics.c])

    Saturating byte counters shared by the callbacks and the reader, and the
    values copied from libcurl when a transfer ends. *)

From Stdlib Require Import SpecFloat.
From S2P Require Import Prelude.

Open Scope Z_scope.
Open Scope record_scope.

Module Metrics.

(** [curl_metrics_t]. *)
Record curl_metrics := Mk {
  upload_progress : Z;
  upload_total : Z;
  download_progress : Z;
  download_total : Z;
  upload_speed : Z;
  download_speed : Z;
  namelookup_time : Z;
  connect_time : Z;
  appconnect_time : Z;
  pretransfer_time : Z;
  starttransfer_time : Z;
  total_time : Z;
  redirect_time : Z
}.
#[export] Instance curl_metrics_eta : Eta curl_metrics := λ m,
  Mk (upload_progress m) (upload_total m) (download_progress m) (download_total m)
    (upload_speed m) (download_speed m) (namelookup_time m) (connect_time m)
    (appconnect_time m) (pretransfer_time m) (starttransfer_time m) (total_time m)
    (redirect_time m).

(** [struct curl_metrics_context_s]. *)
Record curl_metrics_context := Context {
  metrics : curl_metrics;
  streamed_download : bool;
  streamed_upload : bool
}.
#[export] Instance curl_metrics_context_eta : Eta curl_metrics_context :=
  λ c, Context (metrics c) (streamed_download c) (streamed_upload c).

Definition sizeof_metrics_context : Z := 112.

Definition curl_metrics_context_create `{Allocator} : option curl_metrics_context :=
  match malloc sizeof_metrics_context with
  | None => None
  | Some _ => Some (Context (Mk 0 0 0 0 0 0 0 0 0 0 0 0 0) false false)
  end.

Definition curl_metrics_streamed_download : M (option curl_metrics_context) () :=
  unless_null () (modify (λ c, c <| streamed_download := true |>)).
Definition curl_metrics_streamed_upload : M (option curl_metrics_context) () :=
  unless_null () (modify (λ c, c <| streamed_upload := true |>)).

(** One turn of the loop of [add_bytes]: the value to store over [current]. *)
Definition next_count (current bytes : Z) : Z :=
  let increment := if bool_decide (INT64_MAX < bytes) then INT64_MAX else bytes in
  if bool_decide (INT64_MAX - increment < current) then INT64_MAX else current + increment.

(** The loop of [add_bytes] against other writers: [interference] gives what
    each failed compare-and-swap finds in the counter; the last one succeeds. *)
Fixpoint add_bytes_loop (current bytes : Z) (interference : list Z) : Z :=
  match interference with
  | [] => next_count current bytes
  | seen :: interference => add_bytes_loop seen bytes interference
  end.

Definition add_bytes (bytes current : Z) : Z := add_bytes_loop current bytes [].

Definition curl_metrics_add_downloaded (bytes : Z) : M (option curl_metrics_context) () :=
  unless_null () (modify (λ c, c <| metrics ::=
    λ m, m <| download_progress ::= add_bytes bytes |> |>)).
Definition curl_metrics_add_uploaded (bytes : Z) : M (option curl_metrics_context) () :=
  unless_null () (modify (λ c, c <| metrics ::=
    λ m, m <| upload_progress ::= add_bytes bytes |> |>)).

(** ** IEEE doubles *)

Abbreviation prec := 53.
Abbreviation emax := 1024.
Abbreviation double := spec_float.

(** An integer as a double, rounded to nearest. *)
Definition double_of_Z (z : Z) : double := binary_normalize prec emax z 0 false.
Definition mul : double → double → double := SFmul prec emax.
Definition div : double → double → double := SFdiv prec emax.

(** [(int64_t)value]: the truncation, undefined out of range. *)
Definition trunc (m : positive) (e : Z) : Z :=
  if bool_decide (0 ≤ e) then Zpos m * 2 ^ e else Zpos m / 2 ^ (- e).
Definition int64_of_double (value : double) : option Z :=
  match value with
  | S754_zero _ => Some 0
  | S754_finite s m e =>
      let z := if s then - trunc m e else trunc m e in
      if bool_decide (- INT64_MAX - 1 ≤ z ≤ INT64_MAX) then Some z else None
  | S754_infinity _ | S754_nan => None
  end.

Definition nonnegative_double_to_int64 (value scale : double) : option Z :=
  if negb (SFltb (S754_zero false) value) then Some 0
  else if SFleb (div (double_of_Z INT64_MAX) scale) value then Some INT64_MAX
  else int64_of_double (mul value scale).

(** ** What libcurl reports *)

(** The quantities asked for; each has an integer and a double version. *)
Inductive CURLINFO :=
  | SIZE_UPLOAD | CONTENT_LENGTH_UPLOAD | SIZE_DOWNLOAD | CONTENT_LENGTH_DOWNLOAD
  | SPEED_UPLOAD | SPEED_DOWNLOAD | NAMELOOKUP_TIME | CONNECT_TIME | APPCONNECT_TIME
  | PRETRANSFER_TIME | STARTTRANSFER_TIME | TOTAL_TIME | REDIRECT_TIME.

(** libcurl: the version compiled against and the one running ([None]: no
    version data), and [curl_easy_getinfo] with a [curl_off_t] or a [double]
    ([None]: not [CURLE_OK]).  Doubles are IEEE binary64 values. *)
Class CurlInfo := {
  LIBCURL_VERSION_NUM : Z;
  runtime_version_num : option Z;
  getinfo_off_t : ptr → CURLINFO → option Z;
  getinfo_double : ptr → CURLINFO → option double;
  getinfo_double_valid easy info v :
    getinfo_double easy info = Some v → valid_binary prec emax v = true
}.

Section finish.
Context `{CurlInfo}.

Definition get_off_t_info (easy : ptr) (info : CURLINFO) : Z :=
  match getinfo_off_t easy info with
  | Some value =>
      if bool_decide (value ≤ 0) then 0
      else if bool_decide (INT64_MAX ≤ value) then INT64_MAX else value
  | None => 0
  end.

Definition get_double_info (easy : ptr) (info : CURLINFO) (scale : Z) : option Z :=
  match getinfo_double easy info with
  | Some value => nonnegative_double_to_int64 value (double_of_Z scale)
  | None => Some 0
  end.

Definition runtime_version : Z := default 0 runtime_version_num.

(** [STORE_SIZE_INFO] and [STORE_TIME_INFO]: the value stored; the integer
    version is used when both the headers and the library have it. *)
Definition size_info (easy : ptr) (info : CURLINFO) : option Z :=
  if bool_decide (0x073700 ≤ LIBCURL_VERSION_NUM) && bool_decide (0x073700 ≤ runtime_version)
  then Some (get_off_t_info easy info) else get_double_info easy info 1.
Definition time_info (easy : ptr) (info : CURLINFO) : option Z :=
  if bool_decide (0x073d00 ≤ LIBCURL_VERSION_NUM) && bool_decide (0x073d00 ≤ runtime_version)
  then Some (get_off_t_info easy info) else get_double_info easy info 1000000.

Definition store (f : curl_metrics → Z) `{Setter curl_metrics Z f} (v : option Z) :
    M curl_metrics_context () :=
  z ← defined v; modify (λ c, c <| metrics ::= λ m, m <| f := z |> |>).

Definition curl_metrics_finish (easy : option ptr) : M (option curl_metrics_context) () :=
  unless_null ()
    (match easy with
     | None => mret ()
     | Some easy =>
         c ← gets id;
         (if negb (streamed_upload c) then store upload_progress (size_info easy SIZE_UPLOAD)
          else mret ());;
         store upload_total (size_info easy CONTENT_LENGTH_UPLOAD);;
         (if negb (streamed_download c)
          then store download_progress (size_info easy SIZE_DOWNLOAD) else mret ());;
         store download_total (size_info easy CONTENT_LENGTH_DOWNLOAD);;
         store upload_speed (size_info easy SPEED_UPLOAD);;
         store download_speed (size_info easy SPEED_DOWNLOAD);;
         store namelookup_time (time_info easy NAMELOOKUP_TIME);;
         store connect_time (time_info easy CONNECT_TIME);;
         (if bool_decide (0x071300 ≤ LIBCURL_VERSION_NUM)
             && bool_decide (0x071300 ≤ runtime_version)
          then store appconnect_time (time_info easy APPCONNECT_TIME) else mret ());;
         store pretransfer_time (time_info easy PRETRANSFER_TIME);;
         store starttransfer_time (time_info easy STARTTRANSFER_TIME);;
         store total_time (time_info easy TOTAL_TIME);;
         store redirect_time (time_info easy REDIRECT_TIME)
     end).
End finish.

(** [output] is always given; the result is its new content. *)
Definition curl_metrics_snapshot (context : option curl_metrics_context) : list Z :=
  match context with
  | None => replicate 13 0
  | Some c =>
      let m := metrics c in
      [upload_progress m; upload_total m; download_progress m; download_total m;
       upload_speed m; download_speed m; namelookup_time m; connect_time m;
       appconnect_time m; pretransfer_time m; starttransfer_time m; total_time m;
       redirect_time m]
  end.

(** ** The conversion of doubles *)

Lemma digits2_bounds p : 2 ^ (Zpos (digits2_pos p) - 1) ≤ Zpos p < 2 ^ Zpos (digits2_pos p).
Proof.
  induction p as [p IH|p IH|]; cbn [digits2_pos]; [| |cbn; lia];
    rewrite Pos2Z.inj_succ, <- Z.add_1_r, Z.add_simpl_r, (Z.pow_add_r 2 _ 1) by lia;
    change (2 ^ 1) with 2;
    replace (Zpos (digits2_pos p)) with (Zpos (digits2_pos p) - 1 + 1) by lia;
    rewrite Z.pow_add_r by lia; change (2 ^ 1) with 2;
    replace (Zpos (digits2_pos p)) with (Zpos (digits2_pos p) - 1 + 1) in IH at 2 by lia;
    rewrite Z.pow_add_r in IH by lia; change (2 ^ 1) with 2 in IH; lia.
Qed.

Lemma iter_pos_nat {A} (f : A → A) p x : SpecFloat.iter_pos f p x = Nat.iter (Pos.to_nat p) f x.
Proof.
  revert x. induction p as [p IH|p IH|]; intros x; cbn [SpecFloat.iter_pos]; [| |done].
  - rewrite !IH, Pos2Nat.inj_xI. rewrite <- Nat.add_1_r, Nat.iter_add. change (Nat.iter 1 f x) with (f x).
    replace (2 * Pos.to_nat p)%nat with (Pos.to_nat p + Pos.to_nat p)%nat by lia.
    by rewrite Nat.iter_add.
  - rewrite !IH, Pos2Nat.inj_xO.
    replace (2 * Pos.to_nat p)%nat with (Pos.to_nat p + Pos.to_nat p)%nat by lia.
    by rewrite Nat.iter_add.
Qed.

Lemma shr_1_spec m r s :
  0 ≤ m → shr_1 (Build_shr_record m r s) = Build_shr_record (m / 2) (Z.odd m) (r || s).
Proof. intros Hm. rewrite <- Z.div2_div. by destruct m as [|[p|p|]|p]. Qed.

Lemma shr_spec m e n :
  0 ≤ m → ∃ k mrs, 0 ≤ k ∧ k = Z.max 0 n ∧
    shr (Build_shr_record m false false) e n = (mrs, e + k) ∧ shr_m mrs = m / 2 ^ k ∧
    ((2 ^ k | m) → mrs = Build_shr_record (m / 2 ^ k) false false).
Proof.
  intros Hm. assert (∀ k, let mrs := Nat.iter k shr_1 (Build_shr_record m false false) in
    shr_m mrs = m / 2 ^ Z.of_nat k ∧
    ((2 ^ Z.of_nat k | m) → mrs = Build_shr_record (m / 2 ^ Z.of_nat k) false false)) as Hit.
  { induction k as [|k [IH1 IH2]]; cbn zeta in *.
    - cbn. rewrite Z.div_1_r. done.
    - rewrite Nat.iter_succ. set (mrs := Nat.iter k shr_1 _) in *. clearbody mrs.
      rewrite Nat2Z.inj_succ, Z.pow_succ_r by lia.
      assert (0 ≤ m / 2 ^ Z.of_nat k) as Hpos by (apply Z.div_pos; lia).
      assert (m / 2 ^ Z.of_nat k / 2 = m / (2 * 2 ^ Z.of_nat k)) as Hdiv
        by (rewrite Z.div_div by lia; f_equal; lia).
      split.
      + destruct mrs as [m' r s]. cbn in IH1. subst m'. rewrite shr_1_spec by done. by cbn.
      + intros [c Hc]. rewrite IH2 by (exists (c * 2); lia).
        rewrite shr_1_spec by done. rewrite Hdiv. f_equal.
        rewrite Hc. replace (c * (2 * 2 ^ Z.of_nat k)) with ((2 * c) * 2 ^ Z.of_nat k) by lia.
        rewrite Z.div_mul by lia. by rewrite Z.odd_mul. }
  destruct n as [|p|p]; cbn [shr].
  - exists 0, (Build_shr_record m false false). cbn. rewrite Z.div_1_r, Z.add_0_r. auto with lia.
  - exists (Zpos p), (SpecFloat.iter_pos shr_1 p (Build_shr_record m false false)).
    rewrite iter_pos_nat. destruct (Hit (Pos.to_nat p)) as [H1 H2].
    rewrite positive_nat_Z in *. split; [lia|]. split; [lia|]. done.
  - exists 0, (Build_shr_record m false false). cbn. rewrite Z.div_1_r, Z.add_0_r. auto with lia.
Qed.

(** The value [m * 2 ^ e], scaled to an integer. *)
Definition val (m e : Z) : Z := m * 2 ^ (e + 2000).

Lemma val_shift m e k : 0 ≤ m → 0 ≤ k → -2000 ≤ e → val (m / 2 ^ k) (e + k) ≤ val m e.
Proof.
  intros Hm Hk He. unfold val. replace (e + k + 2000) with (k + (e + 2000)) by lia.
  rewrite Z.pow_add_r, Z.mul_assoc by lia.
  apply Z.mul_le_mono_nonneg_r; [lia|]. rewrite Z.mul_comm. apply Z.mul_div_le. lia.
Qed.

(** The integer part of a scaled value. *)
Definition floor (v : Z) : Z := v / 2 ^ 2000.

Lemma floor_val z : floor (val z 0) = z.
Proof. unfold floor, val. rewrite Z.add_0_l. by apply Z.div_mul. Qed.
Lemma floor_bounds v : val (floor v) 0 ≤ v < val (floor v) 0 + val 1 0.
Proof.
  unfold floor, val. rewrite Z.add_0_l. change (0 + 2000) with 2000.
  pose proof (Z.div_mod v (2 ^ 2000) ltac:(done)). pose proof (Z.mod_pos_bound v (2 ^ 2000) ltac:(done)). lia.
Qed.

Lemma trunc_floor m e : -2000 ≤ e → trunc m e = floor (val (Zpos m) e).
Proof.
  intros He. unfold trunc, floor, val. case_bool_decide as H0.
  - rewrite Z.pow_add_r, Z.mul_assoc by lia. by rewrite Z.div_mul.
  - assert (2 ^ 2000 = 2 ^ (- e) * 2 ^ (e + 2000)) as -> by (rewrite <- Z.pow_add_r by lia; f_equal; lia).
    rewrite Z.div_mul_cancel_r; [done|apply Z.pow_nonzero; lia..].
Qed.

Lemma floor_lt v z : 0 ≤ v < val z 0 → 0 ≤ floor v < z.
Proof.
  unfold floor, val. rewrite Z.add_0_l. intros [Hv0 Hv]. split; [by apply Z.div_pos|].
  apply Z.div_lt_upper_bound; [done|lia].
Qed.

Lemma nearest_bound m l : m ≤ round_nearest_even m l ≤ m + 1.
Proof. unfold round_nearest_even. destruct l as [|[]]; try lia. destruct (Z.even m); lia. Qed.

(** The bits that rounding drops from [M * 2 ^ E]. *)
Definition dropped (M E : Z) : Z := Z.max 0 (fexp prec emax (Zdigits2 M + E) - E).

(** Rounding changes the mantissa kept by at most one unit, and by nothing when
    the bits dropped are zero; a result below [2 ^ 63] converts to its integer
    part. *)
Lemma round_to_int64 M E :
  0 < M → -1900 ≤ E →
  ∃ m1, M / 2 ^ dropped M E ≤ m1 ≤ M / 2 ^ dropped M E + 1 ∧
    ((2 ^ dropped M E | M) → m1 = M / 2 ^ dropped M E) ∧
    (val m1 (E + dropped M E) < val (2 ^ 63) 0 →
      int64_of_double (binary_round_aux prec emax false M E loc_Exact) =
        Some (floor (val m1 (E + dropped M E)))).
Proof.
  intros HM HE. unfold binary_round_aux, shr_fexp at 1, shr_record_of_loc.
  destruct (shr_spec M E (fexp prec emax (Zdigits2 M + E) - E)) as (k & mrs & Hk & Hk' & -> & Hm & Hex); [lia|].
  fold (dropped M E) in Hk'. rewrite <- Hk'.
  set (m1 := round_nearest_even (shr_m mrs) (loc_of_shr_record mrs)). exists m1.
  pose proof (nearest_bound (shr_m mrs) (loc_of_shr_record mrs)) as Hn. fold m1 in Hn. rewrite Hm in Hn.
  split; [done|]. split; [intros Hd; unfold m1; by rewrite (Hex Hd)|]. intros Hlt.
  assert (0 ≤ M / 2 ^ k) by (apply Z.div_pos; lia).
  assert (m1 ≤ 2 ^ 53) as Hm53.
  { assert (M / 2 ^ k < 2 ^ 53); [|lia]. apply Z.div_lt_upper_bound; [lia|].
    destruct M as [|M|]; try lia. pose proof (digits2_bounds M) as [_ Hd].
    apply Z.lt_le_trans with (2 ^ Zpos (digits2_pos M)); [done|]. rewrite <- Z.pow_add_r by lia.
    apply Z.pow_le_mono_r; [lia|]. subst k. unfold dropped, fexp. cbn [Zdigits2]. lia. }
  assert (-1074 ≤ E + k) as Hemin by (subst k; unfold dropped, fexp, emin; lia).
  clearbody m1. unfold shr_fexp, shr_record_of_loc.
  destruct (shr_spec m1 (E + k) (fexp prec emax (Zdigits2 m1 + (E + k)) - (E + k)))
    as (k2 & mrs2 & Hk2 & Hk2' & -> & Hm2 & _); [lia|].
  assert (val (shr_m mrs2) (E + k + k2) = val m1 (E + k)) as Hv.
  { assert ((2 ^ k2 | m1)) as [c Hc].
    { destruct (decide (k2 = 0)) as [->|Hne]; [by exists m1; lia|].
      destruct m1 as [|p|]; [by exists 0|..|lia]. cbn [Zdigits2] in Hk2'.
      pose proof (digits2_bounds p) as [Hd _]. unfold fexp, emin in Hk2'.
      assert (53 < Zpos (digits2_pos p)) as H53 by lia.
      assert (2 ^ 53 ≤ 2 ^ (Zpos (digits2_pos p) - 1)) by (apply Z.pow_le_mono_r; lia).
      assert (Zpos (digits2_pos p) - 1 < 54) by (apply (Z.pow_lt_mono_r_iff 2); lia).
      assert (Zpos p = 2 ^ 53) as -> by lia. assert (k2 = 1) as -> by lia. by exists (2 ^ 52). }
    rewrite Hm2, Hc, Z.div_mul by (apply Z.pow_nonzero; lia). unfold val.
    rewrite <- Z.mul_assoc, <- Z.pow_add_r by lia. do 2 f_equal. lia. }
  rewrite <- Hv in Hlt |- *. assert (0 ≤ shr_m mrs2) as Hpos by (rewrite Hm2; apply Z.div_pos; lia).
  destruct (shr_m mrs2) as [|m2|m2]; [by unfold floor, val; rewrite Z.mul_0_l| |lia].
  pose proof (floor_lt (val (Zpos m2) (E + k + k2)) (2 ^ 63)) as Hf.
  assert (0 ≤ val (Zpos m2) (E + k + k2)) as Hnn by (unfold val; apply Z.mul_nonneg_nonneg; lia).
  specialize (Hf (conj Hnn Hlt)). change (2 ^ 63) with 9223372036854775808 in Hf.
  assert (E + k + k2 < 63) as He2.
  { apply Z.nle_gt. intros Hge. assert (2 ^ 63 * 2 ^ 2000 ≤ val (Zpos m2) (E + k + k2)) as Hbig.
    { unfold val. rewrite <- Z.pow_add_r by lia. transitivity (1 * 2 ^ (E + k + k2 + 2000));
        [rewrite Z.mul_1_l; apply Z.pow_le_mono_r; lia|]. apply Z.mul_le_mono_nonneg_r; lia. }
    unfold val at 2 in Hlt. rewrite Z.add_0_l in Hlt. lia. }
  rewrite (proj2 (Z.leb_le _ _)) by lia. cbn [int64_of_double]. rewrite trunc_floor by lia.
  rewrite bool_decide_true by lia. done.
Qed.

(** What a valid double's exponent says about its mantissa. *)
Lemma valid_mantissa m e :
  valid_binary prec emax (S754_finite false m e) = true →
  -1074 ≤ e ∧ Zpos m < 2 ^ 53 ∧ (-1074 < e → 2 ^ 52 ≤ Zpos m) ∧
  fexp prec emax (Zpos (digits2_pos m) + e) = e.
Proof.
  cbn. unfold bounded, canonical_mantissa. intros [Hc%Z.eqb_eq _]%andb_true_iff.
  pose proof (digits2_bounds m) as Hd. pose proof Hc as Hf.
  unfold fexp, emin in Hc. split; [lia|].
  assert (Zpos (digits2_pos m) ≤ 53) as Hle by lia.
  split; [|split; [|done]].
  - apply Z.lt_le_trans with (2 ^ Zpos (digits2_pos m)); [lia|]. apply Z.pow_le_mono_r; lia.
  - intros He. assert (Zpos (digits2_pos m) = 53) as E by lia. rewrite E in Hd. cbn in Hd. lia.
Qed.

(** Doubles are compared by their values. *)
Lemma leb_val mb eb m e :
  valid_binary prec emax (S754_finite false mb eb) = true →
  valid_binary prec emax (S754_finite false m e) = true →
  SFleb (S754_finite false mb eb) (S754_finite false m e) = bool_decide (val (Zpos mb) eb ≤ val (Zpos m) e).
Proof.
  intros (Hb & Hmb & Hmb' & _)%valid_mantissa (He & Hm & Hm' & _)%valid_mantissa.
  assert (∀ x d y f, -1074 ≤ d < f → Zpos x < 2 ^ 53 → 2 ^ 52 ≤ Zpos y → val (Zpos x) d < val (Zpos y) f) as Hlt.
  { intros x d y f Hdf Hx Hy. unfold val. apply Z.lt_le_trans with (2 ^ 53 * 2 ^ (d + 2000)).
    - apply Z.mul_lt_mono_pos_r; lia.
    - transitivity (2 ^ 52 * 2 ^ (f + 2000)); [|apply Z.mul_le_mono_nonneg_r; lia].
      rewrite <- !Z.pow_add_r by lia. apply Z.pow_le_mono_r; lia. }
  symmetry. unfold SFleb, SFcompare. destruct (Z.compare_spec eb e) as [<-|H|H].
  - change (Pos.compare_cont Eq mb m) with (Pos.compare mb m). unfold val.
    destruct (Pos.compare_spec mb m) as [<-|H|H].
    + by rewrite bool_decide_true.
    + rewrite bool_decide_true; [done|]. apply Z.mul_le_mono_nonneg_r; lia.
    + rewrite bool_decide_false; [done|]. apply Z.lt_nge, Z.mul_lt_mono_pos_r; lia.
  - rewrite bool_decide_true; [done|]. apply Z.lt_le_incl, Hlt; lia.
  - rewrite bool_decide_false; [done|]. apply Z.lt_nge, Hlt; lia.
Qed.

(** What the result of a conversion has to be: below and at zero it is 0; from
    [INT64_MAX] on it is [INT64_MAX]; in between it is the product [value * scale]
    up to the rounding of one multiplication and the truncation - the integer part
    itself for a scale of one, and the product itself whenever it is an integer
    below [2 ^ 53].  [val] scales everything by [2 ^ 2000]. *)
Definition converts (value : double) (scale r : Z) : Prop :=
  match value with
  | S754_finite false m e =>
      let product := val (Zpos m * scale) e in
      let capped := Z.min product (val INT64_MAX 0) in
      (scale = 1 → r = floor capped) ∧
      Z.abs (val r 0 - capped) * 2 ^ 52 ≤ val 1 0 * 2 ^ 52 + capped ∧
      (∀ z, z < 2 ^ 53 → product = val z 0 → r = z)
  | S754_infinity false => r = INT64_MAX
  | _ => r = 0
  end.

(** The unit in the last place kept of [M * 2 ^ E]. *)
Lemma ulp_bound M E :
  0 < M → -1900 ≤ E → dropped M E ≠ 0 →
  val 1 (E + dropped M E) * 2 ^ 52 ≤ val M E ∨
  val 1 (E + dropped M E) ≤ val 1 0 ∧ val M E ≤ val 1 0.
Proof.
  intros HM HE Hd. destruct M as [|M|]; try lia. pose proof (digits2_bounds M) as [Hl Hu].
  revert Hd. unfold dropped, fexp, emin. cbn [Zdigits2]. intros Hd.
  destruct (decide (-1074 ≤ Zpos (digits2_pos M) + E - 53)).
  - left. assert (Z.max 0 (Z.max (Zpos (digits2_pos M) + E - prec) (3 - emax - prec) - E) =
      Zpos (digits2_pos M) - 53) as -> by lia. unfold val. rewrite Z.mul_1_l, <- Z.pow_add_r by lia.
    transitivity (2 ^ (Zpos (digits2_pos M) - 1) * 2 ^ (E + 2000)); [|apply Z.mul_le_mono_nonneg_r; lia].
    rewrite <- Z.pow_add_r by lia. apply Z.pow_le_mono_r; lia.
  - right. assert (Z.max 0 (Z.max (Zpos (digits2_pos M) + E - prec) (3 - emax - prec) - E) =
      -1074 - E) as -> by lia. unfold val. rewrite !Z.mul_1_l. split; [apply Z.pow_le_mono_r; lia|].
    transitivity (2 ^ Zpos (digits2_pos M) * 2 ^ (E + 2000)); [apply Z.mul_le_mono_nonneg_r; lia|].
    rewrite <- Z.pow_add_r by lia. apply Z.pow_le_mono_r; lia.
Qed.

Lemma ulp_below M E :
  0 < M → -1900 ≤ E → val M E < val (2 ^ 63) 0 → val 1 (E + dropped M E) ≤ val 1024 0 ∨ dropped M E = 0.
Proof.
  intros HM HE Hlt. destruct (decide (dropped M E = 0)) as [|Hd]; [by right|left].
  destruct (ulp_bound M E HM HE Hd) as [H|[H _]].
  - revert H Hlt. unfold val. rewrite !Z.mul_1_l, !Z.add_0_l.
    change (1024 * 2 ^ 2000) with (2 ^ 2010). intros H Hlt.
    assert (2 ^ (E + dropped M E + 2000) * 2 ^ 52 < 2 ^ 63 * 2 ^ 2000) as Hp by lia.
    assert (0 ≤ E + dropped M E + 2000) by (unfold dropped; lia).
    rewrite <- !Z.pow_add_r in Hp by lia. apply Z.pow_lt_mono_r_iff in Hp; [|lia..].
    apply Z.pow_le_mono_r; lia.
  - unfold val in *. lia.
Qed.

(** A rounded product converts to the product. *)
Lemma product_ok M E :
  0 < M → -1900 ≤ E → val M E < val (2 ^ 63) 0 →
  (2 ^ dropped M E | M) ∨ val M E + val 1024 0 < val (2 ^ 63) 0 →
  ∃ r, int64_of_double (binary_round_aux prec emax false M E loc_Exact) = Some r ∧ 0 ≤ r < 2 ^ 63 ∧
    ((2 ^ dropped M E | M) → r = floor (val M E)) ∧
    Z.abs (val r 0 - val M E) * 2 ^ 52 ≤ val 1 0 * 2 ^ 52 + val M E.
Proof.
  intros HM HE Hlt Hb. destruct (round_to_int64 M E HM HE) as (m1 & Hm1 & Hex & Hr).
  set (D := dropped M E) in *. assert (0 ≤ D) as HD by (unfold D, dropped; lia).
  assert (val M E = M / 2 ^ D * 2 ^ (E + D + 2000) + M mod 2 ^ D * 2 ^ (E + 2000)) as Hsplit.
  { unfold val. rewrite (Z.div_mod M (2 ^ D)) at 1 by (apply Z.pow_nonzero; lia).
    replace (E + D + 2000) with (D + (E + 2000)) by lia. rewrite (Z.pow_add_r 2 D) by lia. ring. }
  pose proof (Z.mod_pos_bound M (2 ^ D) ltac:(lia)) as Hmod.
  assert (0 ≤ M mod 2 ^ D * 2 ^ (E + 2000) < val 1 (E + D)) as Hrest.
  { unfold val. replace (E + D + 2000) with (D + (E + 2000)) by lia. rewrite (Z.pow_add_r 2 D), Z.mul_1_l by lia.
    split; [apply Z.mul_nonneg_nonneg; lia|]. apply Z.mul_lt_mono_pos_r; lia. }
  assert (val m1 (E + D) ≤ val M E + val 1 (E + D) ∧ val M E - val 1 (E + D) ≤ val m1 (E + D)) as [Hup Hlo].
  { unfold val in *. rewrite Hsplit. assert (0 < 2 ^ (E + D + 2000)) by lia. split; nia. }
  assert ((2 ^ D | M) → val m1 (E + D) = val M E) as Hexact.
  { intros Hd. rewrite (Hex Hd), Hsplit, (proj2 (Z.mod_divide M (2 ^ D) ltac:(lia)) Hd). unfold val. lia. }
  assert (D = 0 → val m1 (E + D) = val M E) as Hexact0.
  { intros E0. apply Hexact. rewrite E0. by exists M; lia. }
  assert (val m1 (E + D) < val (2 ^ 63) 0) as Hlt1.
  { destruct Hb as [Hd|Hb]; [by rewrite Hexact|]. destruct (ulp_below M E HM HE Hlt) as [Hu|E0].
    - fold D in Hu. lia.
    - by rewrite Hexact0. }
  assert (0 ≤ val m1 (E + D)) as Hnn.
  { unfold val. apply Z.mul_nonneg_nonneg; [|lia]. assert (0 ≤ M / 2 ^ D) by (apply Z.div_pos; lia). lia. }
  exists (floor (val m1 (E + D))). split; [by apply Hr|]. split; [by apply floor_lt|].
  split; [intros Hd; by rewrite Hexact|].
  pose proof (floor_bounds (val m1 (E + D))) as Hf. pose proof (floor_lt _ _ (conj Hnn Hlt1)) as [Hf0 _].
  assert (0 ≤ val (floor (val m1 (E + D))) 0) as Hf0' by (apply Z.mul_nonneg_nonneg; [exact Hf0|by apply Z.pow_nonneg]).
  assert (0 < val 1 0 ∧ 0 ≤ val M E) as [Hone Hp] by (unfold val; split; [lia|apply Z.mul_nonneg_nonneg; lia]).
  destruct (decide (D = 0)) as [E0|Hd]; [rewrite Hexact0 in * by done; lia|].
  destruct (ulp_bound M E HM HE Hd) as [Hu|[Hu1 Hu2]];
    [change (dropped M E) with D in Hu|change (dropped M E) with D in Hu1]; lia.
Qed.

Lemma digits2_mul52 m :
  Zpos (digits2_pos (4503599627370496 * m)) = 52 + Zpos (digits2_pos m).
Proof. cbv [Pos.mul digits2_pos]. fold digits2_pos. lia. Qed.

(** An integral product below [2 ^ 53] loses no bit. *)
Lemma integral_dropped M E z :
  0 < M → -1900 ≤ E → z < 2 ^ 53 → val M E = val z 0 → (2 ^ dropped M E | M).
Proof.
  intros HM HE Hz Hv. destruct M as [|M|]; try lia. pose proof (digits2_bounds M) as [Hl _].
  unfold val in Hv. rewrite Z.add_0_l in Hv.
  assert (Zpos (digits2_pos M) + E ≤ 53) as Hd.
  { apply Z.nlt_ge. intros Hgt.
    assert (2 ^ 53 * 2 ^ 2000 ≤ Zpos M * 2 ^ (E + 2000)) as Hbig; [|lia].
    rewrite <- Z.pow_add_r by lia.
    transitivity (2 ^ (Zpos (digits2_pos M) - 1) * 2 ^ (E + 2000)); [|apply Z.mul_le_mono_nonneg_r; lia].
    rewrite <- Z.pow_add_r by lia. apply Z.pow_le_mono_r; lia. }
  destruct (decide (0 ≤ E)) as [HE0|HE0].
  - assert (dropped (Zpos M) E = 0) as -> by (unfold dropped, fexp, emin; cbn [Zdigits2]; lia).
    by exists (Zpos M); lia.
  - assert (0 ≤ dropped (Zpos M) E ≤ - E) as Hk by (unfold dropped, fexp, emin; cbn [Zdigits2]; lia).
    assert (Zpos M = z * 2 ^ (- E)) as HMz.
    { apply (Z.mul_reg_r _ _ (2 ^ (E + 2000))); [apply Z.pow_nonzero; lia|]. rewrite Hv, <- Z.mul_assoc.
      rewrite <- Z.pow_add_r by lia. do 2 f_equal. lia. }
    exists (z * 2 ^ (- E - dropped (Zpos M) E)). rewrite HMz at 1.
    rewrite <- Z.mul_assoc, <- Z.pow_add_r by lia. do 2 f_equal. lia.
Qed.

(** A product that does not saturate: [scale] is [mantissa * 2 ^ - k]. *)
Lemma conversion_ok m e scale ms k :
  double_of_Z scale = S754_finite false ms (- k) → Zpos ms = scale * 2 ^ k → 0 ≤ k ≤ 60 →
  -1074 ≤ e → 0 < scale →
  let M := Zpos (m * ms) in let E := e + - k in let product := val (Zpos m * scale) e in
  product ≤ val INT64_MAX 0 → (2 ^ dropped M E | M) ∨ product + val 1024 0 < val (2 ^ 63) 0 →
  (scale = 1 → (2 ^ dropped M E | M)) →
  ∃ r, int64_of_double (mul (S754_finite false m e) (double_of_Z scale)) = Some r ∧
    0 ≤ r ≤ INT64_MAX ∧ converts (S754_finite false m e) scale r.
Proof.
  intros Hs Hms Hk He H0 M E product Hp Hb H1.
  assert (val M E = product) as Hv.
  { unfold M, E, product, val. rewrite Pos2Z.inj_mul, Hms. replace (e + 2000) with (k + (e + - k + 2000)) by lia.
    rewrite (Z.pow_add_r 2 k) by lia. ring. }
  assert (val INT64_MAX 0 < val (2 ^ 63) 0) as Hmax by (apply Z.mul_lt_mono_pos_r; [done|reflexivity]).
  destruct (product_ok M E) as (r & Hr & Hr0 & Hex & Herr); [done|unfold E; lia|lia|by rewrite Hv|].
  rewrite Hs. exists r. split; [exact Hr|]. rewrite Hv in Hex, Herr.
  split; [change (2 ^ 63) with 9223372036854775808 in Hr0; lia|].
  unfold converts. fold product. rewrite Z.min_l by done. split; [intros E1; by apply Hex, H1|].
  split; [done|]. intros z Hz Hpz. rewrite Hex; [by rewrite Hpz, floor_val|].
  apply (integral_dropped M E z); [done|unfold E; lia|done|by rewrite Hv].
Qed.

(** From the threshold on. *)
Lemma saturated m e scale t :
  val t 0 ≤ val (Zpos m * scale) e → (scale = 1 → t = INT64_MAX) → 2 ^ 53 ≤ t →
  INT64_MAX - 1024 ≤ t ≤ INT64_MAX → converts (S754_finite false m e) scale INT64_MAX.
Proof.
  intros Hp H1 Ht Hb. unfold converts. set (p := val (Zpos m * scale) e) in *.
  assert (val INT64_MAX 0 - val 1024 0 ≤ val t 0) as Hlow.
  { unfold val. rewrite <- Z.mul_sub_distr_r. apply Z.mul_le_mono_nonneg_r; [by apply Z.pow_nonneg|lia]. }
  assert (val 1024 0 * 2 ^ 52 ≤ val INT64_MAX 0 - val 1024 0) as Hsmall by (vm_compute; discriminate).
  assert (0 < val 1 0) by reflexivity.
  split; [|split].
  - intros E1. rewrite Z.min_r by (by rewrite <- (H1 E1)). symmetry. apply floor_val.
  - assert (0 < val 1024 0) by reflexivity. lia.
  - intros z Hz E1. assert (val z 0 < val t 0); [|lia]. apply Z.mul_lt_mono_pos_r; [done|lia].
Qed.

Lemma converted value scale :
  valid_binary prec emax value = true → scale = 1 ∨ scale = 1000000 →
  ∃ r, nonnegative_double_to_int64 value (double_of_Z scale) = Some r ∧ 0 ≤ r ≤ INT64_MAX ∧
    converts value scale r.
Proof.
  intros Hv Hs. unfold nonnegative_double_to_int64.
  destruct value as [[]|[]| |[] m e]; try (by exists 0).
  { exists INT64_MAX. by destruct Hs as [->| ->]. }
  change (negb (SFltb (S754_zero false) (S754_finite false m e))) with false. cbn beta iota.
  pose proof (valid_mantissa m e Hv) as (He & Hm & Hm' & Hf). destruct Hs as [->| ->].
  - change (div (double_of_Z INT64_MAX) (double_of_Z 1)) with (S754_finite false 4503599627370496 11).
    rewrite leb_val by done. case_bool_decide as Hb.
    { exists INT64_MAX. split; [done|]. split; [done|]. apply (saturated m e 1 INT64_MAX); [|done..].
      rewrite Z.mul_1_r. etransitivity; [|exact Hb]. vm_compute. discriminate. }
    assert (e ≤ 10) as He10.
    { apply Z.nlt_ge. intros He11. apply Hb. unfold val. specialize (Hm' ltac:(lia)).
      apply Z.mul_le_mono_nonneg; [lia|exact Hm'|lia|apply Z.pow_le_mono_r; lia]. }
    assert ((2 ^ dropped (Zpos (m * 4503599627370496)) (e + - 52) | Zpos (m * 4503599627370496))) as Hd.
    { assert (dropped (Zpos (m * 4503599627370496)) (e + - 52) = 52) as ->.
      { unfold dropped. cbn [Zdigits2]. rewrite Pos.mul_comm, digits2_mul52.
        replace (52 + Zpos (digits2_pos m) + (e + - 52)) with (Zpos (digits2_pos m) + e) by lia. lia. }
      exists (Zpos m). rewrite Pos2Z.inj_mul. change (2 ^ 52) with 4503599627370496. lia. }
    apply (conversion_ok m e 1 4503599627370496 52); [reflexivity..|lia|lia|lia| |by left|done].
    rewrite Z.mul_1_r. unfold val. transitivity ((2 ^ 53 - 1) * 2 ^ (10 + 2000)); [|vm_compute; discriminate].
    apply Z.mul_le_mono_nonneg; [lia|lia|lia|apply Z.pow_le_mono_r; lia].
  - change (div (double_of_Z INT64_MAX) (double_of_Z 1000000)) with (S754_finite false 4722366482869645 (-9)).
    rewrite leb_val by done. case_bool_decide as Hb.
    { exists INT64_MAX. split; [done|]. split; [done|].
      apply (saturated m e 1000000 9223372036854775390); [|done|done|done].
      transitivity (val 4722366482869645 (-9) * 1000000); [vm_compute; discriminate|].
      replace (val (Zpos m * 1000000) e) with (val (Zpos m) e * 1000000) by (unfold val; ring). lia. }
    assert (val (Zpos m * 1000000) e + val 2048 0 ≤ val (2 ^ 63) 0) as Hp.
    { replace (val (Zpos m * 1000000) e) with (val (Zpos m) e * 1000000) by (unfold val; ring).
      assert (val (Zpos m) e ≤ val 4722366482869644 (-9)) as Hpred;
        [|assert (val 4722366482869644 (-9) * 1000000 + val 2048 0 ≤ val (2 ^ 63) 0) by (vm_compute; discriminate); lia].
      apply Z.nle_gt in Hb. destruct (Z.compare_spec e (-9)) as [->|Hlt|Hgt].
      - unfold val in *. apply Z.mul_lt_mono_pos_r in Hb; [|done]. apply Z.mul_le_mono_nonneg_r; [by apply Z.pow_nonneg|lia].
      - unfold val. transitivity (2 ^ 53 * 2 ^ (-10 + 2000)); [|vm_compute; discriminate].
        apply Z.mul_le_mono_nonneg; [lia|lia|lia|apply Z.pow_le_mono_r; lia].
      - exfalso. specialize (Hm' ltac:(lia)). revert Hb. unfold val. apply Z.le_ngt.
        transitivity (2 ^ 52 * 2 ^ (-8 + 2000)); [vm_compute; discriminate|].
        apply Z.mul_le_mono_nonneg; [lia|exact Hm'|lia|apply Z.pow_le_mono_r; lia]. }
    assert (val 1024 0 < val 2048 0 ∧ val (2 ^ 63) 0 - val 2048 0 ≤ val INT64_MAX 0) as [H1 H2]
      by (split; [reflexivity|vm_compute; discriminate]).
    apply (conversion_ok m e 1000000 8589934592000000 33); [reflexivity..|lia|lia|lia|lia|right; lia|done].
Qed.



(** ** The counters *)

Lemma next_count_min current bytes :
  0 ≤ current ≤ INT64_MAX → 0 ≤ bytes →
  next_count current bytes = Z.min INT64_MAX (current + bytes).
Proof. intros Hc Hb. unfold next_count. repeat case_bool_decide; lia. Qed.

Fixpoint add_all (add : Z → M (option curl_metrics_context) ()) (bs : list Z) :
    M (option curl_metrics_context) () :=
  match bs with [] => mret () | b :: bs => add b;; add_all add bs end.

Definition total_bytes (bs : list Z) : Z := foldr Z.add 0 bs.

Lemma total_bytes_nonneg bs : Forall (λ b, 0 ≤ b) bs → 0 ≤ total_bytes bs.
Proof. unfold total_bytes. induction 1; cbn in *; lia. Qed.

Lemma min_total c b bs :
  0 ≤ c ≤ INT64_MAX → 0 ≤ b → 0 ≤ total_bytes bs →
  Z.min INT64_MAX (add_bytes b c + total_bytes bs) = Z.min INT64_MAX (c + total_bytes (b :: bs)) ∧
  0 ≤ add_bytes b c ≤ INT64_MAX.
Proof.
  intros Hc Hb Ht. change (total_bytes (b :: bs)) with (b + total_bytes bs).
  unfold add_bytes. cbn [add_bytes_loop]. rewrite next_count_min by done. lia.
Qed.

(** A loop that other writers disturb adds to what it saw last. *)
Lemma disturbed_add b current seen :
  0 ≤ b → Forall (λ z, 0 ≤ z ≤ INT64_MAX) (current :: seen) →
  add_bytes_loop current b seen = Z.min INT64_MAX (List.last seen current + b).
Proof.
  intros Hb. revert current. induction seen as [|z seen IH]; intros current Hs; apply Forall_cons in Hs as [Hc Hs].
  - change (next_count current b = Z.min INT64_MAX (current + b)). apply next_count_min; [exact Hc|exact Hb].
  - cbn [add_bytes_loop]. rewrite IH by done. f_equal. f_equal. clear. revert z. induction seen as [|y l IH]; intros z; [done|]. destruct l; [done|apply (IH z)].
Qed.

(** C38: However the body arrives, the progress counters are the number of bytes
    counted, saturated at [INT64_MAX]: they neither wrap nor become negative.  A
    loop whose compare-and-swaps fail, the counter having been changed by other
    writers, adds its bytes to the value that it saw last. *)
Theorem metrics_counters_saturate bs c :
  0 ≤ download_progress (metrics c) ≤ INT64_MAX → 0 ≤ upload_progress (metrics c) ≤ INT64_MAX →
  Forall (λ b, 0 ≤ b) bs →
  add_all curl_metrics_add_downloaded bs (Some c) = Some ((), Some (c <| metrics ::= λ m,
    m <| download_progress := Z.min INT64_MAX (download_progress m + total_bytes bs) |> |>), []) ∧
  add_all curl_metrics_add_uploaded bs (Some c) = Some ((), Some (c <| metrics ::= λ m,
    m <| upload_progress := Z.min INT64_MAX (upload_progress m + total_bytes bs) |> |>), []) ∧
  ∀ b current seen, 0 ≤ b → Forall (λ z, 0 ≤ z ≤ INT64_MAX) (current :: seen) →
    add_bytes_loop current b seen = Z.min INT64_MAX (List.last seen current + b).
Proof.
  intros Hd Hu Hbs. split; [|split; [|by intros; apply disturbed_add]].
  - revert c Hd Hu. induction Hbs as [|b bs Hb Hbs IH]; intros [[] sd su] Hd Hu; cbn in *.
    + by rewrite Z.add_0_r, Z.min_r by lia.
    + destruct (min_total _ b bs Hd Hb (total_bytes_nonneg _ Hbs)) as [E Hr].
      unfold curl_metrics_add_downloaded at 1. cbv [mbind M_bind]. run_m.
      rewrite IH by done. cbn in *. by rewrite E.
  - revert c Hd Hu. induction Hbs as [|b bs Hb Hbs IH]; intros [[] sd su] Hd Hu; cbn in *.
    + by rewrite Z.add_0_r, Z.min_r by lia.
    + destruct (min_total _ b bs Hu Hb (total_bytes_nonneg _ Hbs)) as [E Hr].
      unfold curl_metrics_add_uploaded at 1. cbv [mbind M_bind]. run_m.
      rewrite IH by done. cbn in *. by rewrite E.
Qed.

Lemma metrics_counters_saturate_witness :
  add_all curl_metrics_add_downloaded [5; 9223372036854775800; 18446744073709551615]
    (Some (Context (Mk 0 0 7 0 0 0 0 0 0 0 0 0 0) true false)) =
  Some ((), Some (Context (Mk 0 0 INT64_MAX 0 0 0 0 0 0 0 0 0 0) true false), []).
Proof.
  refine (proj1 (metrics_counters_saturate _ (Context (Mk 0 0 7 0 0 0 0 0 0 0 0 0 0) true false) _ _ _)).
  - cbn. lia.
  - cbn. lia.
  - do 3 (apply List.Forall_cons; [lia|]). apply List.Forall_nil.
Defined.

(** ** The end of a transfer *)

Section finish_spec.
Context `{CurlInfo}.

(** Whether a feature of libcurl is there when compiled and when run. *)
Definition has (version : Z) : bool :=
  bool_decide (version ≤ LIBCURL_VERSION_NUM) && bool_decide (version ≤ default 0 runtime_version_num).

(** What a metric has to be, given what libcurl reports: the reported integer cut
    to the range of a metric, or the converted double before libcurl [version];
    nothing reported counts as 0. *)
Definition reports (version scale : Z) (easy : ptr) (info : CURLINFO) (z : Z) : Prop :=
  0 ≤ z ≤ INT64_MAX ∧
  if has version then z = Z.max 0 (Z.min INT64_MAX (default 0 (getinfo_off_t easy info)))
  else match getinfo_double easy info with Some value => converts value scale z | None => z = 0 end.
Definition reports_size : ptr → CURLINFO → Z → Prop := reports 0x073700 1.
Definition reports_time : ptr → CURLINFO → Z → Prop := reports 0x073d00 1000000.

Lemma off_t_reported easy info :
  0 ≤ get_off_t_info easy info ≤ INT64_MAX ∧
  get_off_t_info easy info = Z.max 0 (Z.min INT64_MAX (default 0 (getinfo_off_t easy info))).
Proof. unfold get_off_t_info. destruct (getinfo_off_t easy info); cbn; repeat case_bool_decide; lia. Qed.

Lemma double_reported easy info scale :
  scale = 1 ∨ scale = 1000000 →
  ∃ r, get_double_info easy info scale = Some r ∧ 0 ≤ r ≤ INT64_MAX ∧
    match getinfo_double easy info with Some value => converts value scale r | None => r = 0 end.
Proof.
  intros Hs. unfold get_double_info. destruct (getinfo_double easy info) as [v|] eqn:E; [|by exists 0].
  by apply converted; [eapply getinfo_double_valid|].
Qed.

Lemma size_info_ok easy info : ∃ r, size_info easy info = Some r ∧ reports_size easy info r.
Proof.
  unfold size_info, reports_size, reports, has, runtime_version. destruct (_ && _).
  - eexists. split; [done|]. apply off_t_reported.
  - apply double_reported. by left.
Qed.
Lemma time_info_ok easy info : ∃ r, time_info easy info = Some r ∧ reports_time easy info r.
Proof.
  unfold time_info, reports_time, reports, has, runtime_version. destruct (_ && _).
  - eexists. split; [done|]. apply off_t_reported.
  - apply double_reported. by right.
Qed.

(** The metrics [m] that a transfer ends with in the context [c]. *)
Record finished (easy : ptr) (c : curl_metrics_context) (m : curl_metrics) : Prop := Finished {
  fin_upload : if streamed_upload c then upload_progress m = upload_progress (metrics c)
    else reports_size easy SIZE_UPLOAD (upload_progress m);
  fin_download : if streamed_download c then download_progress m = download_progress (metrics c)
    else reports_size easy SIZE_DOWNLOAD (download_progress m);
  fin_upload_total : reports_size easy CONTENT_LENGTH_UPLOAD (upload_total m);
  fin_download_total : reports_size easy CONTENT_LENGTH_DOWNLOAD (download_total m);
  fin_upload_speed : reports_size easy SPEED_UPLOAD (upload_speed m);
  fin_download_speed : reports_size easy SPEED_DOWNLOAD (download_speed m);
  fin_namelookup : reports_time easy NAMELOOKUP_TIME (namelookup_time m);
  fin_connect : reports_time easy CONNECT_TIME (connect_time m);
  fin_appconnect : if has 0x071300 then reports_time easy APPCONNECT_TIME (appconnect_time m)
    else appconnect_time m = appconnect_time (metrics c);
  fin_pretransfer : reports_time easy PRETRANSFER_TIME (pretransfer_time m);
  fin_starttransfer : reports_time easy STARTTRANSFER_TIME (starttransfer_time m);
  fin_total : reports_time easy TOTAL_TIME (total_time m);
  fin_redirect : reports_time easy REDIRECT_TIME (redirect_time m)
}.

Lemma wp_store_metric (f : curl_metrics → Z) `{!Setter f} v (P : Z → Prop) Q c :
  (∃ z, v = Some z ∧ P z) →
  (∀ z, P z → Q () (c <| metrics ::= λ m, m <| f := z |> |>) []) → wp (store f v) Q c.
Proof. intros (z & -> & Hz) HQ. unfold store. wp_step. eapply wp_defined; [done|]. wp_steps. by apply HQ. Qed.

Ltac store_metric := first
  [ wp_step; eapply wp_store_metric; [first [apply size_info_ok|apply time_info_ok]|]
  | eapply wp_store_metric; [apply time_info_ok|]
  | wp_step; wp_step ];
  try (intros ? ?; cbn).

Lemma finish_ok easy c :
  ∃ m, curl_metrics_finish (Some easy) (Some c) = Some ((), Some (c <| metrics := m |>), []) ∧
    finished easy c m.
Proof.
  assert (wp (curl_metrics_finish (Some easy)) (λ _ o es, es = [] ∧
    ∃ m, o = Some (c <| metrics := m |>) ∧ finished easy c m) (Some c)) as Hw.
  { unfold curl_metrics_finish. apply wp_unless_null. wp_step. wp_step. cbn [id].
    change (bool_decide (0x071300 ≤ LIBCURL_VERSION_NUM) && bool_decide (0x071300 ≤ runtime_version))
      with (has 0x071300).
    destruct c as [[] d u]. cbn [streamed_download streamed_upload].
    destruct (has 0x071300) eqn:Ha, u, d; cbn [negb]; do 13 store_metric;
      (split; [done|]); eexists; (split; [reflexivity|]); split; cbn; rewrite ?Ha; assumption || reflexivity. }
  apply wp_run in Hw as ([] & o & es & Hr & -> & m & -> & Hm). eauto.
Qed.

(** Copying the metrics is defined. *)
Lemma finish_defined easy c : ∃ c', curl_metrics_finish easy (Some c) = Some ((), Some c', []).
Proof.
  destruct easy as [easy|]; [|by exists c]. destruct (finish_ok easy c) as (m & -> & _). eauto.
Qed.

(** C36: when a transfer ends, copying its metrics from libcurl is defined for
    every answer of libcurl, old or new.  Each metric becomes what libcurl reports
    for it - the integer, or the converted double of an old version - between 0 and
    [INT64_MAX], except that the byte counter of a streamed body keeps the exact
    count made by the callbacks and the TLS time is left alone where libcurl does
    not know it.  Without a handle nothing changes. *)
Theorem metrics_finish_keeps_streamed easy c :
  curl_metrics_finish None (Some c) = Some ((), Some c, []) ∧
  ∃ m, curl_metrics_finish (Some easy) (Some c) = Some ((), Some (c <| metrics := m |>), []) ∧
    finished easy c m.
Proof. split; [done|apply finish_ok]. Qed.

End finish_spec.

(** libcurl 7.50 reporting 1500.5 bytes and seconds for everything. *)
#[program] Definition sample_info : CurlInfo := {|
  LIBCURL_VERSION_NUM := 0x073200;
  runtime_version_num := Some 0x073200;
  getinfo_off_t _ _ := None;
  getinfo_double _ _ := Some (S754_finite false 6599268789911552 (-42))
|}.
Next Obligation. by intros _ _ v [= <-]. Qed.

Lemma metrics_finish_keeps_streamed_witness :
  ∃ m, curl_metrics_finish (H := sample_info) (Some 1%positive)
    (Some (Context (Mk 0 0 42 0 0 0 0 0 0 0 0 0 0) true false)) = Some ((), Some (Context m true false), []) ∧
    download_progress m = 42 ∧ upload_total m = 1500 ∧ total_time m = 1500500000.
Proof.
  destruct (metrics_finish_keeps_streamed (H := sample_info) 1%positive
    (Context (Mk 0 0 42 0 0 0 0 0 0 0 0 0 0) true false))
    as (_ & m & Hr & [_ Hd [_ Hu] _ _ _ _ _ _ _ _ [_ Ht] _]).
  exists m. split; [exact Hr|]. split; [exact Hd|]. split.
  - rewrite (proj1 Hu eq_refl). vm_compute. reflexivity.
  - apply (proj2 (proj2 Ht)); vm_compute; reflexivity.
Defined.

Example finish_sample :
  (m ← curl_metrics_finish (H := sample_info) (Some 1%positive); gets curl_metrics_snapshot)
    (Some (Context (Mk 0 0 42 0 0 0 0 0 0 0 0 0 0) true false)) =
  Some ([1500; 1500; 42; 1500; 1500; 1500; 1500500000; 1500500000; 1500500000; 1500500000;
         1500500000; 1500500000; 1500500000],
    Some (Context (Mk 1500 1500 42 1500 1500 1500 1500500000 1500500000 1500500000 1500500000
         1500500000 1500500000 1500500000) true false), []).
Proof. vm_compute. reflexivity. Qed.

End Metrics.
