(* ===== verification/Stream.v ===== *)
(** * Body streams ([cbits/stream.c])

    A bounded ring of chunks between libcurl's callbacks on the agent thread and
    a Haskell reader or writer.  Every section under [stream->mutex] is one
    atomic action with a name of its own: the operations compose them, and the
    interleaving model of [Flow.v] schedules the same sections. *)

From S2P Require Import Prelude Extras Headers Metrics.
Import Waker.

Open Scope Z_scope.
Open Scope record_scope.

Module Stream.

Inductive hcurl_stream_kind := HCURL_STREAM_DOWNLOAD | HCURL_STREAM_UPLOAD.
#[export] Instance kind_eq_dec : EqDecision hcurl_stream_kind.
Proof. solve_decision. Defined.

Inductive hcurl_stream_read_result :=
  | HCURL_STREAM_READ_CHUNK | HCURL_STREAM_READ_WOULD_BLOCK | HCURL_STREAM_READ_EOF
  | HCURL_STREAM_READ_ERROR | HCURL_STREAM_READ_CLOSED
  | HCURL_STREAM_READ_CHUNK_CONTROL_PENDING.
Inductive hcurl_stream_wait_result :=
  | HCURL_STREAM_WAIT_REGISTERED | HCURL_STREAM_WAIT_READY
  | HCURL_STREAM_WAIT_CONTROL_PENDING | HCURL_STREAM_WAIT_INVALID.
Inductive hcurl_stream_write_result :=
  | HCURL_STREAM_WRITE_OK | HCURL_STREAM_WRITE_WOULD_BLOCK | HCURL_STREAM_WRITE_TERMINAL
  | HCURL_STREAM_WRITE_CLOSED | HCURL_STREAM_WRITE_CONTROL_PENDING
  | HCURL_STREAM_WRITE_OUT_OF_MEMORY.
Inductive hcurl_stream_control_result :=
  | HCURL_STREAM_CONTROL_OK | HCURL_STREAM_CONTROL_RETRY | HCURL_STREAM_CONTROL_CLOSED.
#[export] Instance control_result_eq_dec : EqDecision hcurl_stream_control_result.
Proof. solve_decision. Defined.
#[export] Instance wait_result_eq_dec : EqDecision hcurl_stream_wait_result.
Proof. solve_decision. Defined.

Definition HCURL_STREAM_UPLOAD_UNSUPPORTED : Z := -1.

(** libcurl's callback constants. *)
Definition CURL_WRITEFUNC_PAUSE : Z := 0x10000001.
Definition CURL_READFUNC_PAUSE : Z := 0x10000001.
Definition CURL_READFUNC_ABORT : Z := 0x10000000.
Definition CURLPAUSE_RECV : Z := 1.

(** [hcurl_chunk_t]. *)
Record hcurl_chunk := Chunk {
  data : option bytes;
  chunk_length : Z;
  offset : Z
}.
#[export] Instance hcurl_chunk_eta : Eta hcurl_chunk :=
  λ c, Chunk (data c) (chunk_length c) (offset c).

Definition no_chunk : hcurl_chunk := Chunk None 0 0.

(** [struct hcurl_stream_s], without the mutex, the sender and the pointers to
    the header record and the metrics, which are in [stream_env]. *)
Record hcurl_stream := Mk {
  kind : hcurl_stream_kind;
  chunks : list hcurl_chunk;
  capacity : Z;
  head : Z;
  tail : Z;
  count : Z;
  finished : bool;
  closed : bool;
  paused : bool;
  terminal_set : bool;
  cancel_sent : bool;
  terminal_code : Z;
  read_waiter_present : bool;
  read_waiter : hs_waker;
  write_waiter_present : bool;
  write_waiter : hs_waker;
  transfer_id : Z;
  easy : option ptr
}.
#[export] Instance hcurl_stream_eta : Eta hcurl_stream := λ s,
  Mk (kind s) (chunks s) (capacity s) (head s) (tail s) (count s) (finished s) (closed s)
    (paused s) (terminal_set s) (cancel_sent s) (terminal_code s) (read_waiter_present s)
    (read_waiter s) (write_waiter_present s) (write_waiter s) (transfer_id s) (easy s).

(** A stream with what [stream->headers] and [stream->metrics] point to. *)
Record stream_env := Env {
  stream : hcurl_stream;
  headers : option HeaderData.header_data;
  metrics : option Metrics.curl_metrics_context
}.
#[export] Instance stream_env_eta : Eta stream_env :=
  λ e, Env (stream e) (headers e) (metrics e).

(** The code between [uv_mutex_lock] and [uv_mutex_unlock] of the stream. *)
Definition section {A} (m : M hcurl_stream A) : M stream_env A := locked (on_field stream m).

(** ** Creation *)

Definition sizeof_chunk : Z := 24.
Definition sizeof_stream : Z := 256.

(** [retained] is the answer of [message_sender_retain] for a sender that is not
    NULL; the reference is given back on failure. *)
Definition hcurl_stream_create `{Allocator} (uv_mutex_init : Z) (kind : hcurl_stream_kind)
    (capacity : Z) (retained : bool) (transfer_id : Z) : option hcurl_stream :=
  if bool_decide (capacity = 0) || bool_decide (SIZE_MAX / sizeof_chunk < capacity)
     || bool_decide (transfer_id = 0) || negb retained
  then None
  else match malloc sizeof_stream with
  | None => None
  | Some _ =>
      if negb (calloc capacity sizeof_chunk) || bool_decide (uv_mutex_init ≠ 0) then None
      else Some (Mk kind (replicate (Z.to_nat capacity) no_chunk) capacity 0 0 0
        false false false false false CURLE_OK false Waker.zero false Waker.zero
        transfer_id None)
  end.

(** ** Helpers *)

Definition get_chunk (i : Z) : M hcurl_stream hcurl_chunk :=
  s ← gets (λ s, s); defined (chunks s !! Z.to_nat i).
Definition set_chunk (i : Z) (c : hcurl_chunk) : M hcurl_stream () :=
  get_chunk i;; modify (λ s, s <| chunks ::= λ cs, <[Z.to_nat i := c]> cs |>).

(** [(i + 1) % stream->capacity]. *)
Definition advance (s : hcurl_stream) (i : Z) : Z := u64 (i + 1) mod capacity s.

(** Frees the chunk at the head and moves past it. *)
Definition pop_head : M hcurl_stream () :=
  s ← gets (λ s, s);
  set_chunk (head s) no_chunk;;
  modify (λ s, s <| head := advance s (head s) |> <| count := count s - 1 |>).

(** Stores [copy] at the tail. *)
Definition push_tail (copy : bytes) : M hcurl_stream () :=
  s ← gets (λ s, s);
  set_chunk (tail s) (Chunk (Some copy) (Zlen copy) 0);;
  modify (λ s, s <| tail := advance s (tail s) |> <| count := u64 (count s + 1) |>).

Fixpoint drop_loop (fuel : nat) : M hcurl_stream () :=
  s ← gets (λ s, s);
  if bool_decide (0 < count s) then
    match fuel with
    | O => fault
    | S fuel => pop_head;; drop_loop fuel
    end
  else mret ().

Definition drop_chunks_locked : M hcurl_stream () :=
  s ← gets (λ s, s);
  drop_loop (Z.to_nat (count s));;
  modify (λ s, s <| tail := head s |>).

Definition detach_read_waiter : M hcurl_stream (option hs_waker) :=
  s ← gets (λ s, s);
  if read_waiter_present s then
    modify (λ s, s <| read_waiter_present := false |>
                   <| read_waiter ::= λ w, w <| mvar := None |> |>);;
    mret (Some (read_waiter s))
  else mret None.
Definition detach_write_waiter : M hcurl_stream (option hs_waker) :=
  s ← gets (λ s, s);
  if write_waiter_present s then
    modify (λ s, s <| write_waiter_present := false |>
                   <| write_waiter ::= λ w, w <| mvar := None |> |>);;
    mret (Some (write_waiter s))
  else mret None.

Definition wake_detached {S} (w : option hs_waker) : M S () :=
  match w with Some w => wake_copy w | None => mret () end.

Definition checked_transfer_size (size count : Z) : option Z :=
  if bool_decide (size ≠ 0 ∧ SIZE_MAX / size < count) then None
  else Some (u64 (size * count)).

(** ** Completion and destruction *)

(** Wakes both waiters that a section detached. *)
Definition wake_both {S} (ws : option hs_waker * option hs_waker) : M S () :=
  wake_detached (ws.1);; wake_detached (ws.2).

Definition detach_both : M hcurl_stream (option hs_waker * option hs_waker) :=
  r ← detach_read_waiter; w ← detach_write_waiter; mret (r, w).

(** The stream is freed afterwards and its sender released. *)
Definition destroy_section : M hcurl_stream (option hs_waker * option hs_waker) :=
  modify (λ s, s <| closed := true |>);;
  drop_chunks_locked;;
  detach_both.

Definition hcurl_stream_destroy : M (option stream_env) () :=
  unless_null () (ws ← section destroy_section; wake_both ws).

Definition complete_section (code : Z) : M hcurl_stream (option hs_waker * option hs_waker) :=
  modify (λ s, if negb (terminal_set s)
               then s <| terminal_set := true |> <| terminal_code := code |> else s);;
  modify (λ s, s <| easy := None |> <| paused := false |>);;
  detach_both.

(** [hcurl_stream_complete] on a stream that is not NULL. *)
Definition complete (code : Z) : M stream_env () :=
  on_field headers (HeaderData.header_data_mark_complete code);;
  ws ← section (complete_section code);
  wake_both ws.

Definition hcurl_stream_complete (code : Z) : M (option stream_env) () :=
  unless_null () (complete code).

Definition hcurl_stream_normalize_completion (code : Z) : M (option stream_env) Z := λ e,
  match e with
  | None => Some (code, None, [])
  | Some e =>
      let s := stream e in
      let cancelled := closed s || cancel_sent s in
      Some (if cancelled then CURLE_ABORTED_BY_CALLBACK else code, Some e, [])
  end.

(** ** Control messages

    [enqueue tag] is the answer of [enqueue_outer_message], which is modelled in
    [Channel.v]. *)

Section control.
Context (enqueue : outer_message_types → enqueue_message_result).

Definition enqueue_control (tag : outer_message_types) :
    M stream_env hcurl_stream_control_result :=
  e ← gets (λ e, e);
  emit (Ev_enqueue_outer_message tag (transfer_id (stream e)));;
  mret (match enqueue tag with
        | ENQUEUE_MESSAGE_OK => HCURL_STREAM_CONTROL_OK
        | ENQUEUE_MESSAGE_CLOSED => HCURL_STREAM_CONTROL_CLOSED
        | ENQUEUE_MESSAGE_FULL | ENQUEUE_MESSAGE_OUT_OF_MEMORY => HCURL_STREAM_CONTROL_RETRY
        end).

(** The first section of [hcurl_stream_flush_resume]: whether a resume is due;
    the pause is cleared before the message is enqueued. *)
Definition flush_section : M hcurl_stream bool :=
  s ← gets (λ s, s);
  let needs_resume := paused s && negb (closed s) && negb (terminal_set s)
                      && negb (cancel_sent s) in
  (if needs_resume then modify (λ s, s <| paused := false |>) else mret ());;
  mret needs_resume.

(** Its last section: the pause is back after a failed enqueue. *)
Definition restore_pause_section : M hcurl_stream () :=
  modify (λ s, if negb (closed s) && negb (terminal_set s) && negb (cancel_sent s)
               then s <| paused := true |> else s).

Definition flush_resume : M stream_env hcurl_stream_control_result :=
  needs_resume ← section flush_section;
  if needs_resume : bool then
    result ← enqueue_control RESUME_REQUEST;
    match result with
    | HCURL_STREAM_CONTROL_CLOSED =>
        complete CURLE_ABORTED_BY_CALLBACK;;
        mret HCURL_STREAM_CONTROL_OK
    | HCURL_STREAM_CONTROL_RETRY => section restore_pause_section;; mret result
    | HCURL_STREAM_CONTROL_OK => mret result
    end
  else mret HCURL_STREAM_CONTROL_OK.

Definition hcurl_stream_flush_resume : M (option stream_env) hcurl_stream_control_result :=
  unless_null HCURL_STREAM_CONTROL_OK flush_resume.

(** The first section of [hcurl_stream_close]: whether a cancellation is due,
    and the waiters to wake. *)
Definition close_section : M hcurl_stream (bool * (option hs_waker * option hs_waker)) :=
  modify (λ s, s <| closed := true |> <| paused := false |>);;
  drop_chunks_locked;;
  ws ← detach_both;
  s ← gets (λ s, s);
  let needs_cancel := negb (terminal_set s) && negb (cancel_sent s) in
  (if needs_cancel then modify (λ s, s <| cancel_sent := true |>) else mret ());;
  mret (needs_cancel, ws).

Definition uncancel_section : M hcurl_stream () :=
  modify (λ s, if negb (terminal_set s) then s <| cancel_sent := false |> else s).

Definition hcurl_stream_close : M (option stream_env) hcurl_stream_control_result :=
  unless_null HCURL_STREAM_CONTROL_OK
    (out ← section close_section;
     let '(needs_cancel, ws) := out in
     wake_both ws;;
     if negb needs_cancel then mret HCURL_STREAM_CONTROL_OK
     else
       result ← enqueue_control CANCEL_REQUEST;
       match result with
       | HCURL_STREAM_CONTROL_CLOSED =>
           complete CURLE_ABORTED_BY_CALLBACK;;
           mret HCURL_STREAM_CONTROL_OK
       | HCURL_STREAM_CONTROL_RETRY => section uncancel_section;; mret result
       | HCURL_STREAM_CONTROL_OK => mret result
       end).

(** ** Download *)

(** The section of [hcurl_stream_try_read]: the chunk taken and whether the
    transfer was paused, or why there is none, with the terminal code. *)
Inductive read_step :=
  | Read_chunk (data : option bytes) (length : Z) (should_resume : bool)
  | Read_none (result : hcurl_stream_read_result) (code : Z).

Definition read_section : M hcurl_stream read_step :=
  s ← gets (λ s, s);
  if bool_decide (0 < count s) then
    chunk ← get_chunk (head s);
    pop_head;;
    mret (Read_chunk (data chunk) (chunk_length chunk) (paused s))
  else if closed s then mret (Read_none HCURL_STREAM_READ_CLOSED CURLE_ABORTED_BY_CALLBACK)
  else if terminal_set s then
    mret (Read_none (if bool_decide (terminal_code s = CURLE_OK) then HCURL_STREAM_READ_EOF
                     else HCURL_STREAM_READ_ERROR) (terminal_code s))
  else mret (Read_none HCURL_STREAM_READ_WOULD_BLOCK CURLE_OK).

(** The result with [*data], [*length] and [*terminal_code]; the caller owns the
    data. *)
Definition hcurl_stream_try_read :
    M (option stream_env) (hcurl_stream_read_result * option bytes * Z * Z) :=
  unless_null (HCURL_STREAM_READ_CLOSED, None, 0, CURLE_OK)
    (e ← gets (λ e, e);
     if bool_decide (kind (stream e) ≠ HCURL_STREAM_DOWNLOAD)
     then mret (HCURL_STREAM_READ_CLOSED, None, 0, CURLE_OK)
     else
       r ← section read_section;
       match r with
       | Read_chunk data length should_resume =>
           if should_resume then
             c ← flush_resume;
             mret (if bool_decide (c ≠ HCURL_STREAM_CONTROL_OK)
                   then HCURL_STREAM_READ_CHUNK_CONTROL_PENDING
                   else HCURL_STREAM_READ_CHUNK, data, length, CURLE_OK)
           else mret (HCURL_STREAM_READ_CHUNK, data, length, CURLE_OK)
       | Read_none result code => mret (result, None, 0, code)
       end).

(** ** Upload *)

Inductive write_step :=
  | Write_stored (needs_resume : bool)
  | Write_none (result : hcurl_stream_write_result) (code : Z).

Definition write_section `{Allocator} (data : bytes) (length : Z) : M hcurl_stream write_step :=
  s ← gets (λ s, s);
  if closed s then mret (Write_none HCURL_STREAM_WRITE_CLOSED CURLE_ABORTED_BY_CALLBACK)
  else if terminal_set s then mret (Write_none HCURL_STREAM_WRITE_TERMINAL (terminal_code s))
  else if finished s then
    mret (Write_none HCURL_STREAM_WRITE_CLOSED CURLE_ABORTED_BY_CALLBACK)
  else if bool_decide (length = 0) then mret (Write_none HCURL_STREAM_WRITE_OK CURLE_OK)
  else if bool_decide (count s = capacity s) then
    mret (Write_none HCURL_STREAM_WRITE_WOULD_BLOCK CURLE_OK)
  else match malloc length with
  | None => mret (Write_none HCURL_STREAM_WRITE_OUT_OF_MEMORY CURLE_OK)
  | Some copy =>
      src ← defined (read_bytes data length);
      copy ← defined (memcpy copy 0 src);
      push_tail copy;;
      mret (Write_stored (paused s))
  end.

(** [data] is given when [length] is not 0; [terminal_code] is given. *)
Definition hcurl_stream_try_write `{Allocator} (data : bytes) (length : Z) :
    M (option stream_env) (hcurl_stream_write_result * Z) :=
  unless_null (HCURL_STREAM_WRITE_CLOSED, CURLE_OK)
    (e ← gets (λ e, e);
     if bool_decide (kind (stream e) ≠ HCURL_STREAM_UPLOAD)
     then mret (HCURL_STREAM_WRITE_CLOSED, CURLE_OK)
     else
       r ← section (write_section data length);
       match r with
       | Write_none result code => mret (result, code)
       | Write_stored needs_resume =>
           if needs_resume then
             c ← flush_resume;
             mret (if bool_decide (c ≠ HCURL_STREAM_CONTROL_OK)
                   then HCURL_STREAM_WRITE_CONTROL_PENDING else HCURL_STREAM_WRITE_OK, CURLE_OK)
           else mret (HCURL_STREAM_WRITE_OK, CURLE_OK)
       end).

Definition finish_section : M hcurl_stream write_step :=
  s ← gets (λ s, s);
  if closed s then mret (Write_none HCURL_STREAM_WRITE_CLOSED CURLE_ABORTED_BY_CALLBACK)
  else if terminal_set s then mret (Write_none HCURL_STREAM_WRITE_TERMINAL (terminal_code s))
  else modify (λ s, s <| finished := true |>);; mret (Write_stored (paused s)).

Definition hcurl_stream_finish_upload : M (option stream_env) (hcurl_stream_write_result * Z) :=
  unless_null (HCURL_STREAM_WRITE_CLOSED, CURLE_OK)
    (e ← gets (λ e, e);
     if bool_decide (kind (stream e) ≠ HCURL_STREAM_UPLOAD)
     then mret (HCURL_STREAM_WRITE_CLOSED, CURLE_OK)
     else
       r ← section finish_section;
       match r with
       | Write_none result code => mret (result, code)
       | Write_stored needs_resume =>
           if needs_resume then
             c ← flush_resume;
             mret (if bool_decide (c ≠ HCURL_STREAM_CONTROL_OK)
                   then HCURL_STREAM_WRITE_CONTROL_PENDING else HCURL_STREAM_WRITE_OK, CURLE_OK)
           else mret (HCURL_STREAM_WRITE_OK, CURLE_OK)
       end).

End control.

(** ** libcurl's callbacks *)

(** The section of [hcurl_download_write_callback]. *)
Inductive deliver_step :=
  | Deliver_refused
  | Deliver_pause
  | Deliver_stored (easy_to_pause : option ptr) (waiter : option hs_waker).

Definition deliver_section `{Allocator} (data : bytes) (total : Z) :
    M hcurl_stream deliver_step :=
  s ← gets (λ s, s);
  if closed s || terminal_set s then mret Deliver_refused
  else if bool_decide (count s = capacity s) then
    modify (λ s, s <| paused := true |>);; mret Deliver_pause
  else match malloc total with
  | None => mret Deliver_refused
  | Some copy =>
      src ← defined (read_bytes data total);
      copy ← defined (memcpy copy 0 src);
      push_tail copy;;
      s ← gets (λ s, s);
      let full := bool_decide (count s = capacity s) in
      (if full then modify (λ s, s <| paused := true |>) else mret ());;
      w ← detach_read_waiter;
      mret (Deliver_stored (if full then easy s else None) w)
  end.

(** [pause easy] is the answer of [curl_easy_pause(easy, CURLPAUSE_RECV)]. *)
Definition hcurl_download_write_callback `{Allocator} (pause : ptr → Z) (data : bytes)
    (size count : Z) : M (option stream_env) Z :=
  unless_null 0
    (e ← gets (λ e, e);
     if bool_decide (kind (stream e) ≠ HCURL_STREAM_DOWNLOAD) then mret 0 else
     match checked_transfer_size size count with
     | None => mret 0
     | Some total =>
         if bool_decide (total = 0) then mret 0
         else
           on_field headers HeaderData.header_data_mark_body_started;;
           out ← section (deliver_section data total);
           match out with
           | Deliver_refused => mret 0
           | Deliver_pause => mret CURL_WRITEFUNC_PAUSE
           | Deliver_stored easy_to_pause waiter =>
               on_field metrics (Metrics.curl_metrics_add_downloaded total);;
               wake_detached waiter;;
               match easy_to_pause with
               | Some easy =>
                   emit (Ev_curl_easy_pause easy CURLPAUSE_RECV);;
                   mret (if bool_decide (pause easy ≠ CURLE_OK) then 0 else total)
               | None => mret total
               end
           end
     end).

(** The section of [hcurl_upload_read_callback]: the bytes copied to libcurl's
    buffer and the writer to wake, or the value returned. *)
Inductive feed_step :=
  | Feed_bytes (copied : bytes) (waiter : option hs_waker)
  | Feed_none (result : Z).

Definition feed_section (room : Z) : M hcurl_stream feed_step :=
  s ← gets (λ s, s);
  if closed s || (terminal_set s && bool_decide (terminal_code s ≠ CURLE_OK))
  then mret (Feed_none CURL_READFUNC_ABORT)
  else if bool_decide (count s = 0) then
    if finished s then mret (Feed_none 0)
    else modify (λ s, s <| paused := true |>);; mret (Feed_none CURL_READFUNC_PAUSE)
  else
    let was_full := bool_decide (count s = capacity s) in
    chunk ← get_chunk (head s);
    d ← defined (data chunk);
    let remaining := u64 (chunk_length chunk - offset chunk) in
    let copied := if bool_decide (remaining < room) then remaining else room in
    src ← defined (read_bytes (drop (Z.to_nat (offset chunk)) d) copied);
    let chunk := chunk <| offset := u64 (offset chunk + copied) |> in
    set_chunk (head s) chunk;;
    (if bool_decide (offset chunk = chunk_length chunk) then pop_head else mret ());;
    s ← gets (λ s, s);
    w ← (if was_full && bool_decide (count s < capacity s) then detach_write_waiter
         else mret None);
    mret (Feed_bytes src w).

(** The result and the bytes stored in [buffer]. *)
Definition hcurl_upload_read_callback (size count : Z) : M (option stream_env) (Z * bytes) :=
  unless_null (CURL_READFUNC_ABORT, [])
    (e ← gets (λ e, e);
     if bool_decide (kind (stream e) ≠ HCURL_STREAM_UPLOAD)
     then mret (CURL_READFUNC_ABORT, []) else
     match checked_transfer_size size count with
     | None => mret (CURL_READFUNC_ABORT, [])
     | Some room =>
         if bool_decide (room = 0) then mret (0, [])
         else
           out ← section (feed_section room);
           match out with
           | Feed_none result => mret (result, [])
           | Feed_bytes copied waiter =>
               on_field metrics (Metrics.curl_metrics_add_uploaded (Zlen copied));;
               wake_detached waiter;;
               mret (Zlen copied, copied)
           end
     end).

(** ** Waiting *)

Definition wait_read_section (mvar : ptr) (capability : Z) :
    M hcurl_stream hcurl_stream_wait_result :=
  s ← gets (λ s, s);
  if bool_decide (0 < count s) || closed s || terminal_set s
  then mret HCURL_STREAM_WAIT_READY
  else if paused s then mret HCURL_STREAM_WAIT_CONTROL_PENDING
  else if read_waiter_present s then mret HCURL_STREAM_WAIT_INVALID
  else
    modify (λ s, s <| read_waiter := Waker.Mk (Some mvar) capability false |>
                   <| read_waiter_present := true |>);;
    mret HCURL_STREAM_WAIT_REGISTERED.

Definition hcurl_stream_wait_read (mvar : option ptr) (capability : Z) :
    M (option stream_env) hcurl_stream_wait_result :=
  unless_null HCURL_STREAM_WAIT_INVALID
    (e ← gets (λ e, e);
     match mvar with
     | Some p =>
         if bool_decide (kind (stream e) ≠ HCURL_STREAM_DOWNLOAD)
         then mret HCURL_STREAM_WAIT_INVALID
         else section (wait_read_section p capability)
     | None => mret HCURL_STREAM_WAIT_INVALID
     end).

Definition wait_write_section (mvar : ptr) (capability : Z) :
    M hcurl_stream hcurl_stream_wait_result :=
  s ← gets (λ s, s);
  if bool_decide (count s < Stream.capacity s) || closed s || terminal_set s
  then mret HCURL_STREAM_WAIT_READY
  else if write_waiter_present s then mret HCURL_STREAM_WAIT_INVALID
  else
    modify (λ s, s <| write_waiter := Waker.Mk (Some mvar) capability false |>
                   <| write_waiter_present := true |>);;
    mret HCURL_STREAM_WAIT_REGISTERED.

Definition hcurl_stream_wait_write (mvar : option ptr) (capability : Z) :
    M (option stream_env) hcurl_stream_wait_result :=
  unless_null HCURL_STREAM_WAIT_INVALID
    (e ← gets (λ e, e);
     match mvar with
     | Some p =>
         if bool_decide (kind (stream e) ≠ HCURL_STREAM_UPLOAD)
         then mret HCURL_STREAM_WAIT_INVALID
         else section (wait_write_section p capability)
     | None => mret HCURL_STREAM_WAIT_INVALID
     end).

Definition cancel_read_section (p : option ptr) : M hcurl_stream bool :=
  s ← gets (λ s, s);
  if read_waiter_present s && bool_decide (mvar (read_waiter s) = p) then
    modify (λ s, s <| read_waiter_present := false |>
                   <| read_waiter ::= λ w, w <| mvar := None |> |>);;
    mret true
  else mret false.
Definition cancel_write_section (p : option ptr) : M hcurl_stream bool :=
  s ← gets (λ s, s);
  if write_waiter_present s && bool_decide (mvar (write_waiter s) = p) then
    modify (λ s, s <| write_waiter_present := false |>
                   <| write_waiter ::= λ w, w <| mvar := None |> |>);;
    mret true
  else mret false.

Definition hcurl_stream_cancel_wait_read (p : option ptr) : M (option stream_env) bool :=
  unless_null false
    (e ← gets (λ e, e);
     if bool_decide (kind (stream e) ≠ HCURL_STREAM_DOWNLOAD) || bool_decide (p = None)
     then mret false else section (cancel_read_section p)).
Definition hcurl_stream_cancel_wait_write (p : option ptr) : M (option stream_env) bool :=
  unless_null false
    (e ← gets (λ e, e);
     if bool_decide (kind (stream e) ≠ HCURL_STREAM_UPLOAD) || bool_decide (p = None)
     then mret false else section (cancel_write_section p)).

(** ** Installation

    [setopt] is the answer of the two [curl_easy_setopt] calls. *)

Definition hcurl_stream_install_download (given_easy : option ptr)
    (given_headers : option HeaderData.header_data)
    (given_metrics : option Metrics.curl_metrics_context) (setopt : Z * Z) :
    M (option stream_env) Z :=
  unless_null CURLE_BAD_FUNCTION_ARGUMENT
    (e ← gets (λ e, e);
     if bool_decide (given_easy = None)
        || bool_decide (kind (stream e) ≠ HCURL_STREAM_DOWNLOAD)
        || negb (from_option (λ _, true) false given_headers)
        || negb (from_option (λ _, true) false given_metrics)
     then mret CURLE_BAD_FUNCTION_ARGUMENT
     else
       section (modify (λ s, s <| easy := given_easy |>));;
       modify (λ e, e <| headers := given_headers |> <| metrics := given_metrics |>);;
       on_field metrics Metrics.curl_metrics_streamed_download;;
       mret (if bool_decide (setopt.1 ≠ CURLE_OK) then setopt.1 else setopt.2)).

(** [global_init] is the answer of [hcurl_global_init_once] and [version] that of
    [curl_version_info]. *)
Definition hcurl_stream_upload_supported (global_init : Z) (version : option Z) : bool :=
  if bool_decide (global_init ≠ CURLE_OK) then false
  else from_option (λ v, bool_decide (0x071300 ≤ v)) false version.

Definition hcurl_stream_install_upload (global_init : Z) (version : option Z)
    (given_easy : option ptr) (given_metrics : option Metrics.curl_metrics_context)
    (setopt : Z * Z) : M (option stream_env) Z :=
  unless_null CURLE_BAD_FUNCTION_ARGUMENT
    (e ← gets (λ e, e);
     if bool_decide (given_easy = None)
        || bool_decide (kind (stream e) ≠ HCURL_STREAM_UPLOAD)
        || negb (from_option (λ _, true) false given_metrics)
     then mret CURLE_BAD_FUNCTION_ARGUMENT
     else if negb (hcurl_stream_upload_supported global_init version)
     then mret HCURL_STREAM_UPLOAD_UNSUPPORTED
     else
       section (modify (λ s, s <| easy := given_easy |>));;
       modify (λ e, e <| metrics := given_metrics |>);;
       on_field metrics Metrics.curl_metrics_streamed_upload;;
       mret (if bool_decide (setopt.1 ≠ CURLE_OK) then setopt.1 else setopt.2)).

End Stream.
