(* ===== verification/StreamRing.v ===== *)
(** * The ring of chunks and the sections of a stream

    What a stream holds, as a list of chunks, and the effect of every section
    under its mutex on that list and on the waiters. *)

From S2P Require Import Prelude Extras Headers Metrics Stream.
Import Waker Stream.

Open Scope Z_scope.
Open Scope record_scope.

Module StreamRing.

(** A stored chunk is not consumed yet. *)
Definition chunk_ok (c : hcurl_chunk) : Prop :=
  ∃ b, data c = Some b ∧ chunk_length c = Zlen b ∧ 0 ≤ offset c < Zlen b ∧ Zlen b ≤ SIZE_MAX.

(** Its bytes that are still to be delivered. *)
Definition remaining (c : hcurl_chunk) : bytes :=
  drop (Z.to_nat (offset c)) (default [] (data c)).

(** The stream holds the chunks [l], oldest first. *)
Record holds (s : hcurl_stream) (l : list hcurl_chunk) : Prop := Holds {
  h_capacity : 0 < capacity s ≤ SIZE_MAX / sizeof_chunk;
  h_chunks : Zlen (chunks s) = capacity s;
  h_head : 0 ≤ head s < capacity s;
  h_count : count s = Zlen l ∧ Zlen l ≤ capacity s;
  h_tail : tail s = (head s + count s) mod capacity s;
  h_slots : ∀ i c, l !! i = Some c →
    chunks s !! Z.to_nat ((head s + Z.of_nat i) mod capacity s) = Some c ∧ chunk_ok c
}.

Lemma small_capacity s l : holds s l → capacity s ≤ 768614336404564650.
Proof. intros [H _ _ _ _ _]. change (SIZE_MAX / sizeof_chunk) with 768614336404564650 in H. lia. Qed.

Lemma advance_eq s l i : holds s l → 0 ≤ i < capacity s → advance s i = (i + 1) mod capacity s.
Proof.
  intros H Hi. pose proof (small_capacity s l H). unfold advance. by rewrite u64_small by lia.
Qed.

(** Consecutive slots of the ring, less than a capacity apart, differ. *)
Lemma slot_ne s l h i j :
  holds s l → 0 ≤ i < capacity s → 0 ≤ j < capacity s → i ≠ j →
  Z.to_nat ((h + i) mod capacity s) ≠ Z.to_nat ((h + j) mod capacity s).
Proof.
  intros H Hi Hj Hne He. destruct (h_capacity s l H) as [Hc _].
  pose proof (Z.mod_pos_bound (h + i) (capacity s) Hc).
  pose proof (Z.mod_pos_bound (h + j) (capacity s) Hc).
  apply Z2Nat.inj in He; [|lia..].
  pose proof (Z.div_mod (h + i) (capacity s) ltac:(lia)) as D1.
  pose proof (Z.div_mod (h + j) (capacity s) ltac:(lia)) as D2.
  assert ((h + i) / capacity s = (h + j) / capacity s ∨
    (h + i) / capacity s ≠ (h + j) / capacity s) as [E|E] by lia; [rewrite E in *; lia|nia].
Qed.

Lemma slot_lt s l h : holds s l → (Z.to_nat (h mod capacity s) < length (chunks s))%nat.
Proof.
  intros H. destruct (h_capacity s l H) as [Hc _]. pose proof (h_chunks s l H).
  pose proof (Z.mod_pos_bound h (capacity s) Hc). lia.
Qed.

(** The effects of [pop_head] and [push_tail]. *)
Definition popped (s : hcurl_stream) : hcurl_stream :=
  s <| chunks := <[Z.to_nat (head s) := no_chunk]> (chunks s) |>
    <| head := (head s + 1) mod capacity s |> <| count := count s - 1 |>.
Definition pushed (s : hcurl_stream) (copy : bytes) : hcurl_stream :=
  s <| chunks := <[Z.to_nat (tail s) := Chunk (Some copy) (Zlen copy) 0]> (chunks s) |>
    <| tail := (tail s + 1) mod capacity s |> <| count := count s + 1 |>.

Lemma head_chunk s c l :
  holds s (c :: l) → get_chunk (head s) s = Some (c, s, []) ∧ chunk_ok c ∧ 0 < count s.
Proof.
  intros H. pose proof H as [Hc Hch Hh [Hn Hle] Ht Hs].
  destruct (Hs 0%nat c eq_refl) as [Hslot Hok]. cbn in *.
  rewrite Z.add_0_r, Z.mod_small in Hslot by lia.
  split; [|split; [done|lia]]. unfold get_chunk. run_m. by rewrite Hslot.
Qed.

Lemma set_chunk_eq s l i c :
  holds s l → 0 ≤ i < capacity s →
  set_chunk i c s = Some ((), s <| chunks := <[Z.to_nat i := c]> (chunks s) |>, []).
Proof.
  intros H Hi. pose proof (h_chunks s l H). unfold set_chunk, get_chunk. run_m.
  destruct (chunks s !! Z.to_nat i) eqn:E; [done|]. apply lookup_ge_None in E. lia.
Qed.

Lemma pop_head_ok s c l :
  holds s (c :: l) → pop_head s = Some ((), popped s, []) ∧ holds (popped s) l.
Proof.
  intros H. pose proof H as [Hc Hch Hh [Hn Hle] Ht Hs]. cbn in Hn, Hle. split.
  - unfold pop_head. cbv [mbind M_bind gets modify].
    pose proof (advance_eq s _ _ H Hh) as Ha. unfold advance, popped in *.
    rewrite (set_chunk_eq s _ _ _ H Hh). cbn. by rewrite Ha.
  - unfold popped. split; cbn; try done.
    + by rewrite length_insert.
    + apply Z.mod_pos_bound. lia.
    + lia.
    + rewrite Ht. rewrite Zplus_mod_idemp_l. f_equal. lia.
    + intros i c' Hi. destruct (Hs (S i) c' Hi) as [Hslot Hok]. split; [|done].
      pose proof (lookup_lt_Some _ _ _ Hi).
      rewrite list_lookup_insert_ne.
      * rewrite <- Hslot. rewrite Zplus_mod_idemp_l. do 3 f_equal. lia.
      * rewrite Zplus_mod_idemp_l. rewrite <- (Z.mod_small (head s) (capacity s)) at 1 by lia.
        rewrite <- (Z.add_0_r (head s)) at 1. rewrite <- Z.add_assoc.
        apply (slot_ne s _ _ _ _ H); lia.
Qed.

Lemma push_tail_ok s l copy :
  holds s l → count s ≠ capacity s → 0 < Zlen copy ≤ SIZE_MAX →
  push_tail copy s = Some ((), pushed s copy, []) ∧
  holds (pushed s copy) (l ++ [Chunk (Some copy) (Zlen copy) 0]).
Proof.
  intros H Hne Hcopy. pose proof H as [Hc Hch Hh [Hn Hle] Ht Hs].
  pose proof (small_capacity s l H). pose proof (Z.mod_pos_bound (head s + count s) (capacity s)).
  split.
  - unfold push_tail. cbv [mbind M_bind gets modify].
    pose proof (advance_eq s _ (tail s) H ltac:(lia)) as Ha. unfold advance, pushed in *.
    rewrite (set_chunk_eq s _ _ _ H) by lia. cbn. by rewrite Ha, u64_small by lia.
  - unfold pushed. split; cbn; rewrite ?length_app, ?length_insert; cbn; try done; try lia.
    + rewrite Ht. rewrite Zplus_mod_idemp_l. f_equal. lia.
    + intros i c Hi. destruct (decide (i = length l)) as [->|].
      * rewrite list_lookup_middle in Hi by done. injection Hi as <-. rewrite Ht, Hn.
        rewrite list_lookup_insert_eq by (by apply (slot_lt s l)).
        split; [done|]. exists copy. cbn. split; [done|]. lia.
      * pose proof (lookup_lt_Some _ _ _ Hi) as Hlt. rewrite length_app in Hlt. cbn in Hlt.
        rewrite lookup_app_l in Hi by lia. destruct (Hs i c Hi) as [Hslot Hok].
        split; [|done]. rewrite list_lookup_insert_ne; [done|]. rewrite Ht, Hn.
        apply (slot_ne s l _ _ _ H); lia.
Qed.

(** Emptying the ring terminates. *)
Definition same_but_ring (s s' : hcurl_stream) : Prop :=
  s' = s <| chunks := chunks s' |> <| head := head s' |> <| tail := tail s' |>
         <| count := count s' |>.

Lemma drop_chunks_ok s l :
  holds s l → ∃ s', drop_chunks_locked s = Some ((), s', []) ∧ holds s' [] ∧ same_but_ring s s'.
Proof.
  intros H. unfold drop_chunks_locked. cbv [mbind M_bind gets].
  assert (∃ s', drop_loop (Z.to_nat (count s)) s = Some ((), s', []) ∧ holds s' [] ∧
    same_but_ring s s') as (s' & Hr & H' & Hs').
  { revert s H. induction l as [|c l IH]; intros s H.
    - exists s. destruct (h_count s [] H) as [Hn _]. cbn in Hn.
      replace (Z.to_nat (count s)) with 0%nat by lia. cbn [drop_loop].
      cbv [mbind M_bind gets]. rewrite bool_decide_false by lia.
      split; [done|]. split; [done|].
      unfold same_but_ring. by destruct s.
    - destruct (pop_head_ok s c l H) as [Hp Hl]. destruct (IH _ Hl) as (s' & Hr & H' & Hs').
      exists s'. destruct (h_count _ _ H) as [Hn _]. cbn in Hn.
      replace (Z.to_nat (count s)) with (S (Z.to_nat (count (popped s)))) by (cbn; lia).
      cbn [drop_loop]. cbv [mbind M_bind gets]. rewrite bool_decide_true by lia.
      rewrite Hp, Hr. split; [done|]. split; [done|].
      unfold same_but_ring in *. rewrite Hs'. by destruct s. }
  rewrite Hr. eexists. split; [reflexivity|]. destruct H'. destruct (h_count0) as [Hn _]. cbn in Hn.
  split; [split; cbn; try done|].
  - by rewrite Hn, Z.add_0_r, Z.mod_small.
  - unfold same_but_ring in *. rewrite Hs'. by destruct s.
Qed.

Lemma holds_same s s' l :
  holds s l → capacity s' = capacity s → chunks s' = chunks s → head s' = head s →
  tail s' = tail s → count s' = count s → holds s' l.
Proof. intros [] H1 H2 H3 H4 H5. split; rewrite ?H1, ?H2, ?H3, ?H4, ?H5; done. Qed.

(** ** The invariant of a stream *)

Definition waits (b : bool) (w : hs_waker) : list ptr :=
  if b then option_list (mvar w) else [].

(** The StablePtrs registered with a stream. *)
Definition pending (s : hcurl_stream) : list ptr :=
  waits (read_waiter_present s) (read_waiter s) ++ waits (write_waiter_present s) (write_waiter s).

(** A registered waker has its pointer and was not fired. *)
Definition fresh (w : hs_waker) : Prop := ∃ p c, w = Waker.Mk (Some p) c false.

Record sok (s : hcurl_stream) (l : list hcurl_chunk) : Prop := Sok {
  s_holds : holds s l;
  s_read : read_waiter_present s = true →
    kind s = HCURL_STREAM_DOWNLOAD ∧ l = [] ∧ closed s = false ∧ terminal_set s = false ∧
    fresh (read_waiter s);
  s_write : write_waiter_present s = true →
    kind s = HCURL_STREAM_UPLOAD ∧ Zlen l = capacity s ∧ closed s = false ∧
    terminal_set s = false ∧ fresh (write_waiter s);
  s_closed : closed s = true → l = [];
  s_whole : kind s = HCURL_STREAM_DOWNLOAD → Forall (λ c, offset c = 0) l
}.

Definition bytes_of (l : list hcurl_chunk) : bytes := concat (remaining <$> l).

(** What no step changes. *)
Definition shape (s : hcurl_stream) : hcurl_stream_kind * Z := (kind s, capacity s).

(** How a step that accepts the bytes [i] and gives out the bytes [o] changes
    what is stored: nothing is lost or reordered unless the stream is closed. *)
Definition moved (s : hcurl_stream) (l : list hcurl_chunk) (s' : hcurl_stream)
    (l' : list hcurl_chunk) (i o : bytes) : Prop :=
  shape s' = shape s ∧
  (closed s' = closed s ∧ bytes_of l ++ i = o ++ bytes_of l' ∧
    (closed s = true → i = [] ∧ o = []) ∨
   closed s' = true ∧ i = [] ∧ o = []).

(** A section: registered pointers [acc], detached or returned ones [out]. *)
Definition sec (s : hcurl_stream) (l : list hcurl_chunk) (s' : hcurl_stream)
    (l' : list hcurl_chunk) (acc out : list ptr) (i o : bytes) : Prop :=
  sok s' l' ∧ out ++ pending s' ≡ₚ acc ++ pending s ∧ moved s l s' l' i o.

Lemma moved_refl s l : moved s l s l [] [].
Proof. split; [done|]. left. split; [done|]. by rewrite app_nil_r. Qed.

Lemma sec_refl s l : sok s l → sec s l s l [] [] [] [].
Proof. intros H. split; [done|]. split; [done|]. apply moved_refl. Qed.

(** Flags that neither the waiters nor the ring depend on. *)
Lemma sec_flags s l s' :
  sok s l → capacity s' = capacity s → chunks s' = chunks s → head s' = head s →
  tail s' = tail s → count s' = count s → kind s' = kind s → closed s' = closed s →
  terminal_set s' = terminal_set s → read_waiter_present s' = read_waiter_present s →
  read_waiter s' = read_waiter s → write_waiter_present s' = write_waiter_present s →
  write_waiter s' = write_waiter s → sec s l s' l [] [] [] [].
Proof.
  intros [] H1 H2 H3 H4 H5 H6 H7 H8 H9 H10 H11 H12. split; [|split].
  - split; rewrite ?H1, ?H6, ?H7, ?H8, ?H9, ?H10, ?H11, ?H12; try done.
    by apply (holds_same s).
  - unfold pending. by rewrite H9, H10, H11, H12.
  - split; [by unfold shape; rewrite H1, H6|]. left. split; [done|]. by rewrite app_nil_r.
Qed.

(** *** Detaching waiters *)

Definition unread (s : hcurl_stream) : hcurl_stream :=
  if read_waiter_present s
  then s <| read_waiter_present := false |> <| read_waiter ::= λ w, w <| mvar := None |> |> else s.
Definition unwrite (s : hcurl_stream) : hcurl_stream :=
  if write_waiter_present s
  then s <| write_waiter_present := false |> <| write_waiter ::= λ w, w <| mvar := None |> |> else s.

Definition read_out (s : hcurl_stream) : option hs_waker :=
  if read_waiter_present s then Some (read_waiter s) else None.
Definition write_out (s : hcurl_stream) : option hs_waker :=
  if write_waiter_present s then Some (write_waiter s) else None.

Lemma unread_paused s b : unread (s <| paused := b |>) = (unread s) <| paused := b |>.
Proof. destruct s. unfold unread. cbn. by destruct read_waiter_present0. Qed.

Lemma detach_read_eq s : detach_read_waiter s = Some (read_out s, unread s, []).
Proof. unfold detach_read_waiter, read_out, unread. run_m. by destruct (read_waiter_present s). Qed.
Lemma detach_write_eq s : detach_write_waiter s = Some (write_out s, unwrite s, []).
Proof. unfold detach_write_waiter, write_out, unwrite. run_m. by destruct (write_waiter_present s). Qed.
Lemma detach_both_eq s :
  detach_both s = Some ((read_out s, write_out s), unwrite (unread s), []).
Proof.
  unfold detach_both. cbv [mbind M_bind mret M_ret]. rewrite detach_read_eq, detach_write_eq.
  unfold write_out, unread. by destruct (read_waiter_present s).
Qed.

(** The pointers of detached wakers, as they reach the runtime. *)
Definition ptrs (w : option hs_waker) : list ptr :=
  match w with Some w => option_list (mvar w) | None => [] end.

Lemma pending_unread s : ptrs (read_out s) ++ pending (unread s) = pending s.
Proof.
  unfold read_out, unread, pending, waits, ptrs.
  destruct (read_waiter_present s) eqn:E; cbn; [done|]. by rewrite E.
Qed.
Lemma pending_unwrite s : ptrs (write_out s) ++ pending (unwrite s) ≡ₚ pending s.
Proof.
  unfold write_out, unwrite, pending, waits, ptrs.
  destruct (write_waiter_present s) eqn:E; cbn; [|by rewrite E].
  rewrite app_nil_r. by rewrite Permutation_app_comm.
Qed.

Definition fresh_out (w : option hs_waker) : Prop := from_option fresh True w.

Lemma sok_unread s l : sok s l → sok (unread s) l ∧ fresh_out (read_out s).
Proof.
  intros H. pose proof H as []. unfold unread, read_out.
  destruct (read_waiter_present s) eqn:E; [|done].
  split; [split; cbn; try done; by apply (holds_same s)|].
  by destruct (s_read0 eq_refl) as (_ & _ & _ & _ & Hf).
Qed.
Lemma sok_unwrite s l : sok s l → sok (unwrite s) l ∧ fresh_out (write_out s).
Proof.
  intros H. pose proof H as []. unfold unwrite, write_out.
  destruct (write_waiter_present s) eqn:E; [|done].
  split; [split; cbn; try done; by apply (holds_same s)|].
  by destruct (s_write0 eq_refl) as (_ & _ & _ & _ & Hf).
Qed.

Lemma wake_detached_eq {S} (w : option hs_waker) (s : S) :
  fresh_out w → ∃ es, wake_detached w s = Some ((), s, es) ∧ fired es = ptrs w.
Proof.
  destruct w as [w|]; cbn; [|by exists []]. intros (p & c & ->). rewrite wake_copy_eq. by eexists.
Qed.

Lemma wake_both_eq {S} (r w : option hs_waker) (s : S) :
  fresh_out r → fresh_out w →
  ∃ es, wake_both (r, w) s = Some ((), s, es) ∧ fired es = ptrs r ++ ptrs w.
Proof.
  intros Hr Hw. destruct (wake_detached_eq r s Hr) as (e1 & H1 & F1).
  destruct (wake_detached_eq w s Hw) as (e2 & H2 & F2).
  exists (e1 ++ e2). unfold wake_both. cbv [mbind M_bind]. cbn. rewrite H1, H2.
  by rewrite fired_app, F1, F2.
Qed.

(** ** The sections *)

Lemma chunk_ok_remaining c : chunk_ok c → remaining c ≠ [] ∧ bytes_of [c] = remaining c.
Proof.
  intros (b & Hd & _ & Ho & _). unfold bytes_of, remaining. cbn. rewrite app_nil_r. split; [|done].
  rewrite Hd. cbn. intros E%(f_equal length). rewrite length_drop in E. cbn in E. lia.
Qed.

Lemma bytes_cons c l : bytes_of (c :: l) = remaining c ++ bytes_of l.
Proof. done. Qed.
Lemma bytes_snoc l c : bytes_of (l ++ [c]) = bytes_of l ++ remaining c.
Proof. unfold bytes_of. rewrite fmap_app, concat_app. cbn. by rewrite app_nil_r. Qed.

(** Taking the chunk at the head. *)
Lemma sec_pop s c l :
  sok s (c :: l) → write_waiter_present s = false → remaining c ≠ [] →
  sec s (c :: l) (popped s) l [] [] [] (remaining c).
Proof.
  intros [Hh Hr Hw Hc Ho] Hww Hrem. destruct (pop_head_ok s c l Hh) as [_ Hh'].
  assert (read_waiter_present s = false) as Hrw.
  { destruct (read_waiter_present s); [|done]. by destruct (Hr eq_refl) as (_ & ? & _). }
  split; [split; cbn; rewrite ?Hrw, ?Hww; try done|split].
  - intros Hcl. by specialize (Hc Hcl).
  - intros Hk. specialize (Ho Hk). by apply Forall_cons in Ho as [_ Ho].
  - done.
  - split; [done|]. left. split; [done|]. split; [by rewrite app_nil_r|].
    intros Hcl. by specialize (Hc Hcl).
Qed.

Lemma read_section_ok s l :
  sok s l → kind s = HCURL_STREAM_DOWNLOAD →
  ∃ r s' l', read_section s = Some (r, s', []) ∧
    match r with
    | Read_chunk d n resume =>
        ∃ b c, l = c :: l' ∧ d = Some b ∧ n = Zlen b ∧ b = remaining c ∧ resume = paused s ∧
          s' = popped s ∧ sec s l s' l' [] [] [] b
    | Read_none result code =>
        s' = s ∧ l' = l ∧ l = [] ∧
        (result, code) =
          (if closed s then (HCURL_STREAM_READ_CLOSED, CURLE_ABORTED_BY_CALLBACK)
           else if terminal_set s then
             (if bool_decide (terminal_code s = CURLE_OK) then HCURL_STREAM_READ_EOF
              else HCURL_STREAM_READ_ERROR, terminal_code s)
           else (HCURL_STREAM_READ_WOULD_BLOCK, CURLE_OK))
    end.
Proof.
  intros Hs Hk. pose proof Hs as [Hh Hr Hw Hc Ho]. unfold read_section.
  cbv [mbind M_bind gets mret M_ret]. destruct l as [|c l].
  - destruct (h_count s [] Hh) as [Hn _]. cbn in Hn. rewrite bool_decide_false by lia.
    destruct (closed s); [by eexists (Read_none _ _), s, []|].
    destruct (terminal_set s); by eexists (Read_none _ _), s, [].
  - destruct (head_chunk s c l Hh) as (Hg & Hok & Hn). rewrite bool_decide_true by done.
    rewrite Hg. destruct (pop_head_ok s c l Hh) as [Hp Hh']. rewrite Hp.
    eexists _, _, l. split; [reflexivity|]. cbn.
    pose proof Hok as (b & Hd & Hl & Hoff & Hmax).
    specialize (Ho Hk). apply Forall_cons in Ho as [Ho _].
    assert (remaining c = b) as Hrem by (unfold remaining; by rewrite Ho, Hd).
    exists b, c. do 6 (split; [done|]). rewrite <- Hrem. apply sec_pop; [done| |].
    + destruct (write_waiter_present s); [|done]. by destruct (Hw eq_refl) as (? & _); congruence.
    + by apply chunk_ok_remaining.
Qed.

(** Storing a chunk wakes a reader that sleeps. *)
Lemma sec_push s l copy :
  sok s l → count s ≠ capacity s → 0 < Zlen copy ≤ SIZE_MAX → closed s = false →
  push_tail copy s = Some ((), pushed s copy, []) ∧
  sec s l (unread (pushed s copy)) (l ++ [Chunk (Some copy) (Zlen copy) 0])
    [] (ptrs (read_out s)) copy [] ∧ fresh_out (read_out s).
Proof.
  intros Hs Hne Hcopy Hcl. pose proof Hs as [Hh Hr Hw Hc Ho].
  destruct (push_tail_ok s l copy Hh Hne Hcopy) as [Hp Hh']. split; [done|].
  destruct (sok_unread s l Hs) as [_ Hf]. split; [|done].
  destruct (h_count s l Hh) as [Hn Hle].
  assert (write_waiter_present s = false) as Hww.
  { destruct (write_waiter_present s); [|done]. destruct (Hw eq_refl) as (_ & ? & _). lia. }
  assert (unread (pushed s copy) = pushed (unread s) copy) as E
    by (unfold unread; cbn; by destruct (read_waiter_present s)).
  split; [|split].
  - unfold unread. cbn. destruct (read_waiter_present s) eqn:Erw.
    + split; cbn; rewrite ?Hww, ?Hcl; try done; [by apply (holds_same (pushed s copy))|].
      intros Hk. apply Forall_app. split; [by apply Ho|]. by repeat constructor.
    + split; cbn; rewrite ?Hww, ?Hcl, ?Erw; try done.
      intros Hk. apply Forall_app. split; [by apply Ho|]. by repeat constructor.
  - rewrite E. cbn. change (pending (pushed (unread s) copy)) with (pending (unread s)).
    by rewrite pending_unread.
  - split; [unfold unread; cbn; by destruct (read_waiter_present s)|]. left.
    split; [unfold unread; cbn; by destruct (read_waiter_present s)|].
    split; [|by rewrite Hcl]. by rewrite bytes_snoc.
Qed.

(** Copying [length] bytes into a fresh block. *)
Lemma copy_ok `{Allocator} d n blk :
  malloc n = Some blk → 0 < n → Zlen d = n →
  read_bytes d n = Some d ∧ memcpy blk 0 d = Some d.
Proof.
  intros Hm Hn Hd. apply malloc_length in Hm; [|lia]. rewrite <- Hd, read_bytes_all.
  split; [done|]. unfold memcpy. rewrite bool_decide_true by lia. cbn.
  rewrite drop_ge by lia. by rewrite app_nil_r.
Qed.

Lemma deliver_section_ok `{Allocator} s l d n :
  sok s l → kind s = HCURL_STREAM_DOWNLOAD → Zlen d = n → 0 < n ≤ SIZE_MAX →
  ∃ r s' l', deliver_section d n s = Some (r, s', []) ∧
    match r with
    | Deliver_refused => s' = s ∧ l' = l
    | Deliver_pause => s' = s <| paused := true |> ∧ l' = l ∧ count s = capacity s ∧
        sec s l s' l' [] [] [] []
    | Deliver_stored e w => fresh_out w ∧ l' = l ++ [Chunk (Some d) n 0] ∧
        sec s l s' l' [] (ptrs w) d [] ∧
        paused s' = paused s || bool_decide (count s' = capacity s') ∧
        e = (if bool_decide (count s' = capacity s') then easy s else None) ∧
        closed s = false ∧ terminal_set s = false
    end.
Proof.
  intros Hs Hk Hd Hn. unfold deliver_section. cbv [mbind M_bind gets mret M_ret].
  destruct (closed s || terminal_set s) eqn:Hct; [by eexists Deliver_refused, s, l|].
  apply orb_false_iff in Hct as [Hcl Htm].
  case_bool_decide as Hfull.
  { eexists Deliver_pause, _, l. split; [reflexivity|]. split; [done|]. split; [done|].
    split; [done|]. by apply sec_flags. }
  destruct (malloc n) as [blk|] eqn:Hm; [|by eexists Deliver_refused, s, l].
  destruct (copy_ok d n blk Hm ltac:(lia) Hd) as [Hrd Hcp].
  rewrite Hrd. cbn [defined]. rewrite Hcp. cbn [defined].
  destruct (sec_push s l d Hs Hfull ltac:(lia) Hcl) as (-> & Hsec & Hf). rewrite Hd in *.
  destruct (bool_decide (count (pushed s d) = capacity (pushed s d))) eqn:Hb.
  - cbn [modify]. rewrite detach_read_eq. eexists (Deliver_stored _ _), _, _.
    split; [reflexivity|]. split; [done|]. split; [done|].
    assert (sec s l (unread ((pushed s d) <| paused := true |>)) (l ++ [Chunk (Some d) n 0])
      [] (ptrs (read_out s)) d []) as Hsec'.
    { destruct Hsec as (H1 & H2 & H3). rewrite unread_paused.
      destruct (sec_flags _ _ ((unread (pushed s d)) <| paused := true |>) H1) as (K1 & K2 & K3);
        try done. }
    split; [done|]. unfold unread in *. cbn in Hb |- *.
    destruct (read_waiter_present s); cbn; rewrite Hb; by rewrite orb_true_r.
  - rewrite detach_read_eq. eexists (Deliver_stored _ _), _, _. split; [reflexivity|].
    split; [done|]. split; [done|]. split; [done|]. unfold unread. cbn in Hb |- *.
    destruct (read_waiter_present s); cbn; rewrite Hb; by rewrite orb_false_r.
Qed.

Lemma write_section_ok `{Allocator} s l d n :
  sok s l → kind s = HCURL_STREAM_UPLOAD → Zlen d = n → n ≤ SIZE_MAX →
  ∃ r s' l', write_section d n s = Some (r, s', []) ∧
    match r with
    | Write_stored resume => resume = paused s ∧ l' = l ++ [Chunk (Some d) n 0] ∧
        sec s l s' l' [] [] d [] ∧ paused s' = paused s
    | Write_none result code => s' = s ∧ l' = l ∧ (result = HCURL_STREAM_WRITE_OK → d = []) ∧
        result ≠ HCURL_STREAM_WRITE_CONTROL_PENDING
    end.
Proof.
  intros Hs Hk Hd Hn. unfold write_section. cbv [mbind M_bind gets mret M_ret].
  destruct (closed s) eqn:Hcl; [by eexists (Write_none _ _), s, l|].
  destruct (terminal_set s); [by eexists (Write_none _ _), s, l|].
  destruct (finished s); [by eexists (Write_none _ _), s, l|].
  case_bool_decide as H0.
  { eexists (Write_none _ _), s, l. split; [done|]. split; [done|]. split; [done|].
    split; [|done]. intros _. apply length_zero_iff_nil. lia. }
  case_bool_decide as Hfull; [by eexists (Write_none _ _), s, l|].
  destruct (malloc n) as [blk|] eqn:Hm; [|by eexists (Write_none _ _), s, l].
  destruct (copy_ok d n blk Hm ltac:(lia) Hd) as [Hrd Hcp].
  rewrite Hrd. cbn [defined]. rewrite Hcp. cbn [defined].
  destruct (sec_push s l d Hs Hfull ltac:(lia) Hcl) as (-> & Hsec & _). rewrite Hd in *.
  eexists (Write_stored _), _, _. split; [reflexivity|]. split; [done|]. split; [done|].
  assert (read_waiter_present s = false) as Hrw.
  { destruct (read_waiter_present s) eqn:E; [|done].
    destruct (s_read _ _ Hs E) as (E' & _). congruence. }
  unfold unread, read_out in Hsec. cbn in Hsec. rewrite Hrw in Hsec. done.
Qed.

(** Waiters are detached from a stream whose flags forbid new ones. *)
Lemma sec_detach s l :
  sok s l → sec s l (unwrite (unread s)) l [] (ptrs (read_out s) ++ ptrs (write_out s)) [] [] ∧
    fresh_out (read_out s) ∧ fresh_out (write_out s).
Proof.
  intros Hs. destruct (sok_unread s l Hs) as [H1 F1]. destruct (sok_unwrite _ l H1) as [H2 F2].
  assert (write_out (unread s) = write_out s) as E
    by (unfold write_out, unread; by destruct (read_waiter_present s)).
  rewrite E in F2. split; [|done]. split; [done|]. split.
  - rewrite <- app_assoc. rewrite <- E. rewrite pending_unwrite. cbn. by rewrite pending_unread.
  - assert (shape (unwrite (unread s)) = shape s ∧ closed (unwrite (unread s)) = closed s) as [Ek Ec].
    { unfold unwrite, unread. destruct (read_waiter_present s); cbn;
      by destruct (write_waiter_present s). }
    split; [done|]. left. split; [done|]. by rewrite app_nil_r.
Qed.

(** *** Feeding libcurl *)

(** The first chunk after [k] of its bytes were copied. *)
Definition consumed (c : hcurl_chunk) (k : Z) : hcurl_chunk := c <| offset := offset c + k |>.

Lemma consumed_split c k :
  chunk_ok c → 0 ≤ k ≤ Zlen (remaining c) →
  remaining c = take (Z.to_nat k) (remaining c) ++ remaining (consumed c k) ∧
  (k < Zlen (remaining c) → chunk_ok (consumed c k)).
Proof.
  intros (b & Hd & Hl & Ho & Hmax) Hk. unfold consumed, remaining in *. cbn. rewrite Hd in *. cbn in *.
  rewrite length_drop in Hk. split.
  - rewrite <- (take_drop (Z.to_nat k) (drop (Z.to_nat (offset c)) b)) at 1.
    rewrite drop_drop. do 2 f_equal. lia.
  - rewrite length_drop. intros Hlt. exists b. cbn. rewrite ?Hd. split; [done|]. split; [done|]. lia.
Qed.

Definition with_head (s : hcurl_stream) (c : hcurl_chunk) : hcurl_stream :=
  s <| chunks := <[Z.to_nat (head s) := c]> (chunks s) |>.

Lemma holds_with_head s c c' l :
  holds s (c :: l) → chunk_ok c' → holds (with_head s c') (c' :: l).
Proof.
  intros H Hok. pose proof H as [Hc Hch Hh [Hn Hle] Ht Hs]. unfold with_head.
  split; cbn; rewrite ?length_insert; try done.
  intros [|i] c0 Hi; cbn in Hi.
  - injection Hi as <-. rewrite Z.add_0_r, Z.mod_small by lia.
    rewrite list_lookup_insert_eq by lia. done.
  - destruct (Hs (S i) c0 Hi) as [Hslot Hok0]. split; [|done].
    pose proof (lookup_lt_Some _ _ _ Hi). rewrite list_lookup_insert_ne; [done|].
    rewrite <- (Z.mod_small (head s) (capacity s)) at 1 by lia.
    rewrite <- (Z.add_0_r (head s)) at 1. cbn in Hle. apply (slot_ne s _ _ _ _ H); lia.
Qed.

Lemma pop_with_head s c c' l :
  holds s (c :: l) → pop_head (with_head s c') = Some ((), popped s, []).
Proof.
  intros H. pose proof (h_head _ _ H) as Hh. pose proof (h_chunks _ _ H).
  unfold pop_head. cbv [mbind M_bind gets modify]. unfold set_chunk, get_chunk. run_m.
  rewrite list_lookup_insert_eq by lia. cbn.
  pose proof (advance_eq s _ _ H Hh) as Ha. unfold advance in *. cbn. rewrite Ha.
  unfold popped. cbn. by rewrite list_insert_insert_eq.
Qed.

Lemma sec_feed_part s c l k :
  sok s (c :: l) → kind s = HCURL_STREAM_UPLOAD → 0 ≤ k < Zlen (remaining c) →
  sec s (c :: l) (with_head s (consumed c k)) (consumed c k :: l) [] []
    [] (take (Z.to_nat k) (remaining c)).
Proof.
  intros Hs Hk Hlt. pose proof Hs as [Hh Hr Hw Hc Ho].
  assert (chunk_ok c) as Hok by (by destruct (head_chunk s c l Hh) as (_ & ? & _)).
  destruct (consumed_split c k Hok ltac:(lia)) as [Hsplit Hok']. split; [|split; [done|]].
  - split; cbn; try done; try congruence; [apply (holds_with_head s c); auto; apply Hok'; lia| |].
    + intros E. by destruct (Hr E) as (_ & ? & _).
    + intros E. by specialize (Hc E).
  - split; [done|]. left. split; [done|]. split; [|intros E; by specialize (Hc E)].
    rewrite app_nil_r, !bytes_cons, app_assoc. by rewrite <- Hsplit.
Qed.

Lemma sec_feed_whole s c l :
  sok s (c :: l) → kind s = HCURL_STREAM_UPLOAD →
  let detach := bool_decide (count s = capacity s) && bool_decide (count (popped s) < capacity s) in
  let s' := if detach then unwrite (popped s) else popped s in
  let w := if detach then write_out s else None in
  sec s (c :: l) s' l [] (ptrs w) [] (remaining c) ∧ fresh_out w.
Proof.
  intros Hs Hk detach s' w. pose proof Hs as [Hh Hr Hw Hc Ho].
  destruct (pop_head_ok s c l Hh) as [_ Hh']. destruct (h_count _ _ Hh) as [Hn Hle].
  assert (read_waiter_present s = false) as Hrw.
  { destruct (read_waiter_present s); [|done]. by destruct (Hr eq_refl) as (_ & ? & _). }
  assert (moved s (c :: l) s' l [] (remaining c)) as Hm.
  { split; [unfold s', unwrite; by destruct detach; cbn; destruct (write_waiter_present s)|]. left.
    split; [unfold s', unwrite; by destruct detach; cbn; destruct (write_waiter_present s)|].
    split; [by rewrite app_nil_r|]. intros E. by specialize (Hc E). }
  destruct detach eqn:Hd.
  - split; [split; [|split; [|done]]|by apply (sok_unwrite s (c :: l))].
    + unfold s', unwrite. cbn. destruct (write_waiter_present s) eqn:E;
        (split; cbn; rewrite ?Hrw, ?E; try done; try congruence;
         try (by apply (holds_same (popped s))); intros E2; by specialize (Hc E2)).
    + unfold s', w. change (write_out s) with (write_out (popped s)).
      by rewrite pending_unwrite.
  - assert (write_waiter_present s = false) as Hww.
    { destruct (write_waiter_present s); [|done]. destruct (Hw eq_refl) as (_ & Hfull & _).
      unfold detach in Hd. cbn in Hd. rewrite !bool_decide_true in Hd by lia. done. }
    split; [split; [|split; [done|done]]|done]. unfold s'.
    split; cbn; rewrite ?Hrw, ?Hww; try done; try congruence. intros E. by specialize (Hc E).
Qed.

Lemma feed_section_ok s l room :
  sok s l → kind s = HCURL_STREAM_UPLOAD → 0 < room ≤ SIZE_MAX →
  ∃ r s' l', feed_section room s = Some (r, s', []) ∧
    match r with
    | Feed_bytes copied w => fresh_out w ∧ sec s l s' l' [] (ptrs w) [] copied ∧
        0 < Zlen copied ≤ room ∧ paused s' = paused s
    | Feed_none result => sec s l s' l' [] [] [] [] ∧
        (result = CURL_READFUNC_PAUSE → l' = [] ∧ paused s' = true)
    end.
Proof.
  intros Hs Hk Hroom. pose proof Hs as [Hh Hr Hw Hc Ho]. unfold feed_section.
  cbv [mbind M_bind gets mret M_ret].
  destruct (closed s || _) eqn:Hct.
  { eexists (Feed_none _), s, l. split; [reflexivity|]. split; [by apply sec_refl|done]. }
  destruct l as [|c l].
  { destruct (h_count s [] Hh) as [Hn _]. cbn in Hn. rewrite bool_decide_true by done.
    destruct (finished s).
    - eexists (Feed_none _), s, []. split; [reflexivity|]. split; [by apply sec_refl|done].
    - eexists (Feed_none _), _, []. split; [reflexivity|]. split; [by apply sec_flags|done]. }
  destruct (head_chunk s c l Hh) as (Hg & Hok & Hn). rewrite bool_decide_false by lia.
  rewrite Hg. pose proof Hok as (b & Hd & Hl & Hoff & Hmax). rewrite Hd. cbn [defined].
  assert (remaining c = drop (Z.to_nat (offset c)) b) as Hrem by (unfold remaining; by rewrite Hd).
  assert (Zlen (remaining c) = Zlen b - offset c) as Hlen by (rewrite Hrem, length_drop; lia).
  rewrite <- Hrem. rewrite (u64_small (chunk_length c - offset c)) by lia.
  rewrite Hl. rewrite <- Hlen.
  set (k := if bool_decide (Zlen (remaining c) < room) then Zlen (remaining c) else room).
  assert (0 < k ≤ room ∧ k ≤ Zlen (remaining c)) as [Hk1 Hk2]
    by (clear Hct; unfold k; case_bool_decide; lia).
  rewrite read_bytes_take by lia. cbn [defined].
  rewrite (u64_small (offset c + k)) by lia.
  rewrite (set_chunk_eq s _ _ _ Hh) by (apply (h_head _ _ Hh)).
  fold (consumed c k). fold (with_head s (consumed c k)).
  assert (Zlen (take (Z.to_nat k) (remaining c)) = k) as Htk by (rewrite length_take; lia).
  destruct (decide (k = Zlen (remaining c))) as [Hwhole|Hpart].
  - rewrite (bool_decide_true (offset (consumed c k) = _)) by (cbn; lia).
    rewrite (pop_with_head s c _ l Hh).
    destruct (sec_feed_whole s c l Hs Hk) as [Hsec Hf]. cbn zeta in Hsec, Hf.
    rewrite take_ge by lia.
    change (capacity (popped s)) with (capacity s).
    destruct (bool_decide (count s = capacity s) && bool_decide (count (popped s) < capacity s)).
    + rewrite detach_write_eq. eexists (Feed_bytes _ _), _, l. split; [reflexivity|].
      split; [done|]. split; [exact Hsec|]. split; [lia|].
      unfold unwrite. by destruct (write_waiter_present (popped s)).
    + eexists (Feed_bytes _ _), _, l. split; [reflexivity|]. split; [done|].
      split; [exact Hsec|]. split; [lia|done].
  - rewrite (bool_decide_false (offset (consumed c k) = _)) by (cbn; lia). cbn.
    assert (bool_decide (count s = capacity s) && bool_decide (count s < capacity s) = false) as ->
      by (repeat case_bool_decide; cbn; try done; lia).
    eexists (Feed_bytes _ _), _, _. split; [reflexivity|]. split; [done|].
    split; [apply sec_feed_part; [done|done|lia]|]. split; [lia|done].
Qed.

(** *** Ending a stream *)

Lemma complete_section_ok s l code :
  sok s l → ∃ r w s', complete_section code s = Some ((r, w), s', []) ∧
    fresh_out r ∧ fresh_out w ∧ sec s l s' l [] (ptrs r ++ ptrs w) [] [] ∧
    pending s' = [] ∧ terminal_set s' = true ∧ paused s' = false ∧ easy s' = None ∧
    closed s' = closed s ∧ finished s' = finished s ∧
    terminal_code s' = (if terminal_set s then terminal_code s else code) ∧
    cancel_sent s' = cancel_sent s.
Proof.
  intros Hs. destruct (sec_detach s l Hs) as ((H1 & H2 & H3) & F1 & F2).
  unfold complete_section. cbv [mbind M_bind modify]. rewrite detach_both_eq.
  eexists _, _, _. split; [reflexivity|].
  set (s1 := if negb (terminal_set s) then _ else s).
  assert (read_out (s1 <| easy := None |> <| paused := false |>) = read_out s ∧
    write_out (s1 <| easy := None |> <| paused := false |>) = write_out s) as [-> ->]
    by (unfold s1, read_out, write_out; by destruct (terminal_set s)).
  split; [done|]. split; [done|].
  pose proof H1 as []. unfold s1, unread, unwrite, pending, waits in *. clear s1.
  destruct s; cbn in *.
  destruct terminal_set0, read_waiter_present0, write_waiter_present0; cbn in *;
    (split; [split; [split; cbn; try done; by eapply holds_same|split; done]|done]).
Qed.

Lemma close_section_ok s l :
  sok s l → ∃ b r w s', close_section s = Some ((b, (r, w)), s', []) ∧
    fresh_out r ∧ fresh_out w ∧ sec s l s' [] [] (ptrs r ++ ptrs w) [] [] ∧
    pending s' = [] ∧ closed s' = true ∧ paused s' = false ∧
    b = negb (terminal_set s) && negb (cancel_sent s) ∧
    cancel_sent s' = b || cancel_sent s ∧ terminal_set s' = terminal_set s.
Proof.
  intros Hs. pose proof Hs as [Hh Hr Hw Hc Ho].
  assert (holds (s <| closed := true |> <| paused := false |>) l) as Hh1 by (by apply (holds_same s)).
  destruct (drop_chunks_ok _ l Hh1) as (s1 & Hd & H1 & Hsame).
  destruct (sok_unread s l Hs) as [_ F1]. destruct (sok_unwrite s l Hs) as [_ F2].
  unfold close_section. cbv [mbind M_bind modify gets mret M_ret]. rewrite Hd, detach_both_eq.
  destruct s1 as [k1 cs1 c1 h1 t1 n1 f1 cl1 p1 ts1 ca1 tc1 rp1 rw1 wp1 ww1 ti1 e1].
  unfold same_but_ring in Hsame. destruct s as [k0 cs0 c0 h0 t0 n0 f0 cl0 p0 ts0 ca0 tc0 rp0 rw0 wp0 ww0 ti0 e0].
  cbn in Hsame. injection Hsame as -> -> -> -> -> -> -> -> -> -> -> -> -> ->.
  unfold read_out, write_out, unread, unwrite, pending, waits, sec, moved in *. cbn in *.
  exists (negb ts0 && negb ca0), (if rp0 then Some rw0 else None), (if wp0 then Some ww0 else None),
    (Mk k0 cs1 c0 h1 t1 n1 f0 true false ts0 (negb ts0 && negb ca0 || ca0) tc0
       false (if rp0 then rw0 <| mvar := None |> else rw0)
       false (if wp0 then ww0 <| mvar := None |> else ww0) ti0 e0). split.
  { destruct rp0, wp0, ts0, ca0; reflexivity. }
  split; [exact F1|]. split; [exact F2|]. split; [split; [|split]|].
  - destruct rp0, wp0, ts0, ca0; cbn; (split; cbn; try done; by eapply holds_same).
  - cbn. rewrite app_nil_r. by destruct rp0, wp0.
  - split; [by destruct rp0, wp0, ts0, ca0|]. right. by destruct rp0, wp0, ts0, ca0.
  - by destruct rp0, wp0, ts0, ca0.
Qed.

Lemma destroy_section_ok s l :
  sok s l → ∃ r w s', destroy_section s = Some ((r, w), s', []) ∧
    fresh_out r ∧ fresh_out w ∧ ptrs r ++ ptrs w ≡ₚ pending s ∧ pending s' = [] ∧
    holds s' [] ∧ closed s' = true.
Proof.
  intros Hs. assert (holds (s <| closed := true |>) l) as Hh1
    by (apply (holds_same s); [apply Hs|done..]).
  destruct (drop_chunks_ok _ l Hh1) as (s1 & Hd & H1 & Hsame).
  destruct (sec_detach s l Hs) as ((_ & Hp & _) & F1 & F2).
  unfold destroy_section. cbv [mbind M_bind modify]. rewrite Hd, detach_both_eq.
  assert (read_out s1 = read_out s ∧ write_out s1 = write_out s) as [-> ->].
  { unfold same_but_ring in Hsame. rewrite Hsame. done. }
  assert (closed s1 = true) as Hc by (unfold same_but_ring in Hsame; by rewrite Hsame).
  eexists _, _, _. split; [reflexivity|]. split; [done|]. split; [done|].
  assert (∀ s0, pending (unwrite (unread s0)) = []) as Hnil.
  { intros s0. unfold unwrite, unread, pending, waits. destruct s0; cbn.
    by destruct read_waiter_present0; cbn; destruct write_waiter_present0. }
  split; [by rewrite Hnil, app_nil_r in Hp|]. split; [apply Hnil|].
  unfold unwrite, unread. destruct (read_waiter_present s1); cbn;
    destruct (write_waiter_present _); cbn; (split; [by eapply holds_same|done]).
Qed.

(** *** Resuming *)

Lemma flush_section_eq s :
  flush_section s = Some (paused s && negb (closed s) && negb (terminal_set s) && negb (cancel_sent s),
    if paused s && negb (closed s) && negb (terminal_set s) && negb (cancel_sent s)
    then s <| paused := false |> else s, []).
Proof. unfold flush_section. run_m. by destruct (_ && negb (cancel_sent s)). Qed.

(** *** Waiting *)

Lemma moved_same s l s' : shape s' = shape s → closed s' = closed s → moved s l s' l [] [].
Proof. intros Hk Hc. split; [done|]. left. by rewrite app_nil_r. Qed.

Lemma wait_read_section_ok s l p c :
  sok s l → kind s = HCURL_STREAM_DOWNLOAD →
  ∃ r s', wait_read_section p c s = Some (r, s', []) ∧
    sec s l s' l (if decide (r = HCURL_STREAM_WAIT_REGISTERED) then [p] else []) [] [] [].
Proof.
  intros Hs Hk. pose proof Hs as [Hh Hr Hw Hc Hwh]. destruct (h_count _ _ Hh) as [Hn _].
  unfold wait_read_section. cbv [mbind M_bind gets].
  destruct (bool_decide (0 < count s) || closed s || terminal_set s) eqn:Hready;
    [by eexists _, s; split; [done|apply sec_refl]|].
  destruct (paused s); [by eexists _, s; split; [done|apply sec_refl]|].
  destruct (read_waiter_present s) eqn:Hp; [by eexists _, s; split; [done|apply sec_refl]|].
  apply orb_false_elim in Hready as [Hready Ht]. apply orb_false_elim in Hready as [H0 Hcl].
  apply bool_decide_eq_false in H0. assert (l = []) as -> by (apply length_zero_iff_nil; lia).
  eexists _, _. split; [reflexivity|]. rewrite decide_True by done. split; [|split].
  - split; cbn; try done. { by apply (holds_same s). }
    intros _. do 4 (split; [done|]). by eexists _, _.
  - unfold pending. cbn. by rewrite Hp.
  - by apply moved_same.
Qed.

Lemma wait_write_section_ok s l p c :
  sok s l → kind s = HCURL_STREAM_UPLOAD →
  ∃ r s', wait_write_section p c s = Some (r, s', []) ∧
    sec s l s' l (if decide (r = HCURL_STREAM_WAIT_REGISTERED) then [p] else []) [] [] [].
Proof.
  intros Hs Hk. pose proof Hs as [Hh Hr Hw Hc Hwh]. destruct (h_count _ _ Hh) as [Hn Hle].
  unfold wait_write_section. cbv [mbind M_bind gets].
  destruct (bool_decide (count s < capacity s) || closed s || terminal_set s) eqn:Hready;
    [by eexists _, s; split; [done|apply sec_refl]|].
  destruct (write_waiter_present s) eqn:Hp; [by eexists _, s; split; [done|apply sec_refl]|].
  apply orb_false_elim in Hready as [Hready Ht]. apply orb_false_elim in Hready as [H0 Hcl].
  apply bool_decide_eq_false in H0.
  eexists _, _. split; [reflexivity|]. rewrite decide_True by done. split; [|split].
  - split; cbn; try done. { by apply (holds_same s). }
    intros _. split; [done|]. split; [lia|]. do 2 (split; [done|]). by eexists _, _.
  - unfold pending. cbn. rewrite Hp. cbn. rewrite app_nil_r. apply Permutation_app_comm.
  - by apply moved_same.
Qed.

(** A new stream is empty. *)
Lemma create_ok `{Allocator} m k cap retained id s :
  hcurl_stream_create m k cap retained id = Some s → 0 ≤ cap →
  sok s [] ∧ pending s = [] ∧ capacity s = cap ∧ kind s = k ∧ closed s = false ∧
    terminal_set s = false ∧ paused s = false.
Proof.
  unfold hcurl_stream_create. intros Hcr Hcap. case_bool_decide as H0; [done|].
  case_bool_decide as H1; [done|]. destruct (_ || negb retained); [done|].
  destruct (malloc sizeof_stream); [|done]. destruct (_ || _); [done|]. injection Hcr as <-.
  split; [|done]. split; cbn; try done. split; cbn; try done; try lia.
  - rewrite length_replicate. lia.
Qed.

End StreamRing.
