(* ===== verification/StreamOps.v ===== *)
(** * What a stream guarantees over any sequence of operations

    The invariant of a stream with its header record, the effect of every
    operation on it, and the theorems about arbitrary sequences of operations:
    bytes keep their order and none is lost, waiters are woken exactly once, and
    an ended stream says so. *)

From S2P Require Import Prelude Extras Headers Metrics Stream StreamRing.
Import Waker Stream StreamRing.

Open Scope Z_scope.
Open Scope record_scope.

Module StreamOps.

(** ** Steps of a stream *)

Record ok (e : stream_env) (l : list hcurl_chunk) : Prop := Ok {
  ok_stream : sok (stream e) l;
  ok_headers : from_option HeaderData.wf True (headers e)
}.

(** The pointers registered with the stream and with its header record. *)
Definition owed (h : option HeaderData.header_data) : list ptr :=
  from_option HeaderData.pending [] h.
Definition all_pending (e : stream_env) : list ptr := pending (stream e) ++ owed (headers e).

(** Bytes [i] came in and [o] went out; what is stored follows, unless the
    stream is closed, which only loses bytes. *)
Record flows (s : hcurl_stream) (l : list hcurl_chunk) (s' : hcurl_stream)
    (l' : list hcurl_chunk) (i o : bytes) : Prop := Flows {
  f_shape : shape s' = shape s;
  f_closed : closed s = true → closed s' = true ∧ i = [] ∧ o = [];
  f_open : closed s' = false → bytes_of l ++ i = o ++ bytes_of l';
  f_lost : ∃ lost, bytes_of l ++ i = o ++ lost
}.

Lemma moved_flows s l s' l' i o : moved s l s' l' i o → flows s l s' l' i o.
Proof.
  intros [Hk [(Hc & Hb & Hcl)|(Hc & -> & ->)]].
  - split; [done| |done|by eexists]. intros E. rewrite Hc. split; [done|]. by apply Hcl.
  - split; [done|done|congruence|]. exists (bytes_of l). by rewrite app_nil_r.
Qed.

Lemma flows_trans s0 l0 s1 l1 s2 l2 i1 o1 i2 o2 :
  flows s0 l0 s1 l1 i1 o1 → flows s1 l1 s2 l2 i2 o2 → flows s0 l0 s2 l2 (i1 ++ i2) (o1 ++ o2).
Proof.
  intros [K1 C1 O1 [x1 L1]] [K2 C2 O2 [x2 L2]]. split.
  - congruence.
  - intros E. destruct (C1 E) as (E1 & -> & ->). by destruct (C2 E1) as (E2 & -> & ->).
  - intros E. destruct (closed s1) eqn:E1; [by destruct (C2 eq_refl); congruence|].
    rewrite app_assoc, O1 by done. rewrite <- !app_assoc. by rewrite <- O2.
  - destruct (closed s1) eqn:E1.
    + destruct (C2 eq_refl) as (_ & -> & ->). exists x1. by rewrite !app_nil_r.
    + exists x2. rewrite app_assoc, O1 by done. rewrite <- !app_assoc. by rewrite <- L2.
Qed.

(** A step of an operation: [acc] pointers were registered and [out] detached,
    fired or given back. *)
Record effect (e : stream_env) (l : list hcurl_chunk) (e' : stream_env)
    (l' : list hcurl_chunk) (acc out : list ptr) (i o : bytes) : Prop := Effect {
  e_ok : ok e' l';
  e_books : out ++ all_pending e' ≡ₚ acc ++ all_pending e;
  e_flows : flows (stream e) l (stream e') l' i o
}.

Lemma effect_trans e0 l0 e1 l1 e2 l2 a1 b1 i1 o1 a2 b2 i2 o2 :
  effect e0 l0 e1 l1 a1 b1 i1 o1 → effect e1 l1 e2 l2 a2 b2 i2 o2 →
  effect e0 l0 e2 l2 (a1 ++ a2) (b1 ++ b2) (i1 ++ i2) (o1 ++ o2).
Proof.
  intros [K1 B1 F1] [K2 B2 F2]. split; [done| |by eapply flows_trans].
  rewrite <- !app_assoc. rewrite B2. transitivity (a2 ++ (b1 ++ all_pending e1)); [solve_Permutation|].
  rewrite B1. solve_Permutation.
Qed.

Lemma effect_refl e l : ok e l → effect e l e l [] [] [] [].
Proof. intros H. split; [done|done|]. apply moved_flows, moved_refl. Qed.

(** A section of the stream alone. *)
Lemma effect_sec e l s' l' acc out i o :
  ok e l → sec (stream e) l s' l' acc out i o →
  effect e l (e <| stream := s' |>) l' acc out i o.
Proof.
  intros [_ Hh] (Hs & Hb & Hm). split; [by split| |by apply moved_flows].
  unfold all_pending. cbn. by rewrite !app_assoc, Hb.
Qed.

(** The metrics are no business of the waiters or of the ring. *)
Lemma effect_metrics e l m : ok e l → effect e l (e <| metrics := m |>) l [] [] [] [].
Proof. intros [Hs Hh]. split; [by split|done|]. apply moved_flows, moved_refl. Qed.

Lemma wp_section {A} (m : M hcurl_stream A) a s' es Q (e : stream_env) :
  m (stream e) = Some (a, s', es) → Q a (e <| stream := s' |>) es → wp (section m) Q e.
Proof. intros Hm HQ. unfold section, locked, wp, on_field. by rewrite Hm. Qed.

Lemma wp_wake_both r w Q (e : stream_env) :
  fresh_out r → fresh_out w →
  (∀ es, fired es = ptrs r ++ ptrs w → Q () e es) → wp (wake_both (r, w)) Q e.
Proof.
  intros Hr Hw HQ. destruct (wake_both_eq r w e Hr Hw) as (es & E & F). unfold wp. rewrite E. auto.
Qed.

Lemma wp_wake_detached w Q (e : stream_env) :
  fresh_out w → (∀ es, fired es = ptrs w → Q () e es) → wp (wake_detached w) Q e.
Proof.
  intros Hw HQ. destruct (wake_detached_eq w e Hw) as (es & E & F). unfold wp. rewrite E. auto.
Qed.

(** Whether [curl_easy_pause] was called. *)
Definition pauses (es : list event) : bool :=
  existsb (λ ev, match ev with Ev_curl_easy_pause _ _ => true | _ => false end) es.

(** [m] with the calls that it made. *)
Definition listen {S A} (m : M S A) : M S (A * list event) := λ s,
  match m s with Some (a, s', es) => Some ((a, es), s', es) | None => None end.

Lemma wp_listen {S A} (m : M S A) Q (s : S) :
  wp m (λ a s' es, Q (a, es) s' es) s → wp (listen m) Q s.
Proof. unfold wp, listen. by destruct (m s) as [[[a s'] es]|]. Qed.

(** ** The header record's share *)

Lemma pending_ready h : HeaderData.wf h → HeaderData.waiter_present h = false → HeaderData.pending h = [].
Proof. intros Hw Hp. by rewrite (HeaderData.pending_wf _ Hw), Hp. Qed.

Lemma wp_mark_complete code (e : stream_env) l :
  ok e l → wp (on_field headers (HeaderData.header_data_mark_complete code))
    (λ _ e' es, stream e' = stream e ∧ metrics e' = metrics e ∧
      effect e l e' l [] (fired es) [] []) e.
Proof.
  intros [Hs Hh]. apply wp_on_field. destruct (headers e) as [h|] eqn:E; cbn in Hh.
  - eapply wp_mono; [by apply HeaderData.mark_complete_spec|].
    intros [] h' es (h1 & -> & Hw1 & _ & -> & Hp & _). split; [done|]. split; [done|].
    split; [by split| |apply moved_flows, moved_refl].
    unfold all_pending. cbn. rewrite E. cbn. fold (HeaderData.pending h).
    rewrite (pending_ready h1 Hw1 Hp), app_nil_r. apply Permutation_app_comm.
  - unfold wp. cbn. destruct e as [s h m]. cbn in *. subst h. split; [done|]. split; [done|].
    by apply effect_refl.
Qed.

Lemma pauses_pending h : pauses (HeaderData.pending_event h) = false.
Proof. unfold HeaderData.pending_event. by repeat case_match. Qed.

Lemma wp_mark_body_started (e : stream_env) l :
  ok e l → wp (on_field headers HeaderData.header_data_mark_body_started)
    (λ _ e' es, stream e' = stream e ∧ pauses es = false ∧
      effect e l e' l [] (fired es) [] []) e.
Proof.
  intros [Hs Hh]. apply wp_on_field. destruct (headers e) as [h|] eqn:E; cbn in Hh.
  - eapply wp_mono; [by apply HeaderData.mark_body_started_spec|].
    intros [] h' es (h1 & -> & Hw1 & _ & -> & Hp & _). split; [done|]. split; [by apply pauses_pending|].
    split; [by split| |apply moved_flows, moved_refl].
    unfold all_pending. cbn. rewrite E. cbn. fold (HeaderData.pending h).
    rewrite (pending_ready h1 Hw1 Hp), app_nil_r. apply Permutation_app_comm.
  - unfold wp. cbn. destruct e as [s h m]. cbn in *. subst h. split; [done|]. split; [done|].
    by apply effect_refl.
Qed.

(** ** Completion and control *)

Lemma wp_complete code (e : stream_env) l :
  ok e l → wp (complete code) (λ _ e' es, effect e l e' l [] (fired es) [] [] ∧
    terminal_set (stream e') = true ∧ paused (stream e') = false ∧
    closed (stream e') = closed (stream e) ∧ metrics e' = metrics e ∧
    terminal_code (stream e') =
      (if terminal_set (stream e) then terminal_code (stream e) else code) ∧
    cancel_sent (stream e') = cancel_sent (stream e)) e.
Proof.
  intros Hok. unfold complete. wp_step. eapply wp_mono; [by apply wp_mark_complete|].
  intros [] e1 es1 (Hst & Hm & H1). wp_step.
  destruct (complete_section_ok (stream e1) l code) as
    (r & w & s' & Hr & Fr & Fw & Hsec & _ & Ht & Hp & _ & Hc & _ & Htc & Hca); [apply H1|].
  eapply wp_section; [exact Hr|]. apply wp_wake_both; [done..|]. intros es2 Hes2.
  pose proof (effect_sec _ _ _ _ _ _ _ _ (e_ok _ _ _ _ _ _ _ _ H1) Hsec) as H2.
  rewrite !fired_app. cbn. rewrite Hes2.
  split; [by apply (effect_trans _ _ _ _ _ _ [] _ [] [] [] _ [] [] H1 H2)|].
  cbn. rewrite <- Hst. done.
Qed.

Lemma wp_flush_resume enqueue (e : stream_env) l :
  ok e l → wp (flush_resume enqueue) (λ _ e' es, effect e l e' l [] (fired es) [] []) e.
Proof.
  intros Hok. unfold flush_resume. wp_step. eapply wp_section; [apply flush_section_eq|].
  destruct (_ && negb (cancel_sent (stream e))); [|wp_steps; destruct e; by apply effect_refl].
  assert (effect e l (e <| stream := (stream e) <| paused := false |> |>) l [] [] [] []) as H1.
  { apply effect_sec; [done|]. apply sec_flags; try done. apply Hok. }
  wp_step. unfold enqueue_control. wp_step. wp_step. wp_step. wp_step. wp_step.
  destruct (enqueue RESUME_REQUEST).
  - wp_steps. done.
  - wp_step. eapply wp_section; [reflexivity|]. wp_steps.
    apply (effect_trans _ _ _ _ _ _ [] [] [] [] [] [] [] [] H1).
    apply effect_sec; [apply H1|]. cbn.
    apply sec_flags; cbn; try (by destruct (_ && _)). apply H1.
  - wp_step. eapply wp_section; [reflexivity|]. wp_steps.
    apply (effect_trans _ _ _ _ _ _ [] [] [] [] [] [] [] [] H1).
    apply effect_sec; [apply H1|]. cbn.
    apply sec_flags; cbn; try (by destruct (_ && _)). apply H1.
  - wp_step. eapply wp_mono; [apply wp_complete; apply H1|].
    intros [] e2 es2 [H2 _]. wp_steps. rewrite !fired_app. cbn. rewrite app_nil_r.
    by apply (effect_trans _ _ _ _ _ _ [] [] [] [] [] _ [] [] H1 H2).
Qed.

(** ** Operations *)

(** The calls on a stream: its installation on a handle with the transfer's
    records and libcurl's answers, libcurl's callbacks ([pause] is what
    [curl_easy_pause] answers), the reader's or writer's calls with the answer of
    the control queue, and the completion by the agent. *)
Inductive op :=
  | Install_download (easy : option ptr) (headers : option HeaderData.header_data)
      (metrics : option Metrics.curl_metrics_context) (setopt : Z * Z)
  | Install_upload (global_init : Z) (version : option Z) (easy : option ptr)
      (metrics : option Metrics.curl_metrics_context) (setopt : Z * Z)
  | Deliver (data : bytes) (size count : Z) (pause : Z)
  | Try_read (enqueue : outer_message_types → enqueue_message_result)
  | Wait_read (p : ptr) (cap : Z)
  | Cancel_read (p : ptr)
  | Feed (size count : Z)
  | Try_write (data : bytes) (enqueue : outer_message_types → enqueue_message_result)
  | Finish (enqueue : outer_message_types → enqueue_message_result)
  | Wait_write (p : ptr) (cap : Z)
  | Cancel_write (p : ptr)
  | Flush (enqueue : outer_message_types → enqueue_message_result)
  | Close (enqueue : outer_message_types → enqueue_message_result)
  | Complete (code : Z).

(** What the callers see: pointers registered and given back, bytes accepted by
    the stream and bytes it gave out. *)
Record ledger := Ledger { acc : list ptr; ret : list ptr; bytes_in : bytes; bytes_out : bytes }.
Definition ledger_app (a b : ledger) : ledger :=
  Ledger (acc a ++ acc b) (ret a ++ ret b) (bytes_in a ++ bytes_in b) (bytes_out a ++ bytes_out b).
Definition nothing : ledger := Ledger [] [] [] [].

Definition accepted (r : hcurl_stream_write_result) : bool :=
  match r with HCURL_STREAM_WRITE_OK | HCURL_STREAM_WRITE_CONTROL_PENDING => true | _ => false end.

(** A block came in when the callback says so, and also when it stored the block
    and then failed to pause the transfer: it answers 0 then, and the reader gets
    the block all the same. *)
Definition came_in (data : bytes) (r : Z) (es : list event) : bytes :=
  if bool_decide (r = Zlen data) || pauses es then data else [].

(** What the header record of a stream owes. *)
Definition records_owed (oe : option stream_env) : list ptr :=
  from_option (λ e, owed (headers e)) [] oe.

(** An installation takes the pointers of the record that it leaves out of the
    books and enters those of the record that it brings. *)
Definition installing (m : M (option stream_env) Z) : M (option stream_env) ledger :=
  before ← gets records_owed; m;; after ← gets records_owed; mret (Ledger after before [] []).

Definition run_op `{Allocator} (o : op) : M (option stream_env) ledger :=
  match o with
  | Install_download easy headers metrics setopt =>
      installing (hcurl_stream_install_download easy headers metrics setopt)
  | Install_upload global_init version easy metrics setopt =>
      installing (hcurl_stream_install_upload global_init version easy metrics setopt)
  | Deliver data size count pause =>
      out ← listen (hcurl_download_write_callback (λ _, pause) data size count);
      mret (Ledger [] [] (came_in data (out.1) (out.2)) [])
  | Try_read enqueue =>
      r ← hcurl_stream_try_read enqueue;
      mret (Ledger [] [] [] (default [] (r.1.1.2)))
  | Wait_read p cap =>
      r ← hcurl_stream_wait_read (Some p) cap;
      mret (Ledger (if decide (r = HCURL_STREAM_WAIT_REGISTERED) then [p] else []) [] [] [])
  | Cancel_read p =>
      r ← hcurl_stream_cancel_wait_read (Some p);
      mret (Ledger [] (if r : bool then [p] else []) [] [])
  | Feed size count => r ← hcurl_upload_read_callback size count; mret (Ledger [] [] [] (r.2))
  | Try_write data enqueue =>
      r ← hcurl_stream_try_write enqueue data (Zlen data);
      mret (Ledger [] [] (if accepted (r.1) then data else []) [])
  | Finish enqueue => hcurl_stream_finish_upload enqueue;; mret nothing
  | Wait_write p cap =>
      r ← hcurl_stream_wait_write (Some p) cap;
      mret (Ledger (if decide (r = HCURL_STREAM_WAIT_REGISTERED) then [p] else []) [] [] [])
  | Cancel_write p =>
      r ← hcurl_stream_cancel_wait_write (Some p);
      mret (Ledger [] (if r : bool then [p] else []) [] [])
  | Flush enqueue => hcurl_stream_flush_resume enqueue;; mret nothing
  | Close enqueue => hcurl_stream_close enqueue;; mret nothing
  | Complete code => hcurl_stream_complete code;; mret nothing
  end.

(** An installed header record is well formed; libcurl's callbacks describe the
    block they pass, which is far below the callback constants; lengths are lengths
    of objects in memory. *)
Definition op_ok (o : op) : Prop :=
  match o with
  | Install_download _ headers _ _ => from_option HeaderData.wf True headers
  | Deliver data size count _ =>
      0 ≤ size ∧ 0 ≤ count ∧ size * count = Zlen data ∧ Zlen data < CURL_READFUNC_ABORT
  | Feed size count => 0 ≤ size ∧ 0 ≤ count
  | Try_write data _ => Zlen data ≤ SIZE_MAX
  | _ => True
  end.

(** The effect an operation must have. *)
Definition op_effect (e : stream_env) (l : list hcurl_chunk) (L : ledger)
    (oe : option stream_env) (es : list event) : Prop :=
  ∃ e' l', oe = Some e' ∧
    effect e l e' l' (acc L) (fired es ++ ret L) (bytes_in L) (bytes_out L).

Lemma effect_none e l L es :
  ok e l → L = nothing → es = [] → op_effect e l L (Some e) es.
Proof. intros Hok -> ->. exists e, l. split; [done|]. by apply effect_refl. Qed.

Lemma env_eta e : e <| stream := stream e |> = e.
Proof. by destruct e. Qed.

(** A step that only fires, then a section. *)
Lemma effect_then_sec e l e1 l1 s' l' b1 acc out i o :
  effect e l e1 l1 [] b1 [] [] → sec (stream e1) l1 s' l' acc out i o →
  effect e l (e1 <| stream := s' |>) l' acc (b1 ++ out) i o.
Proof.
  intros H1 Hsec.
  exact (effect_trans _ _ _ _ _ _ _ _ _ _ _ _ _ _ H1 (effect_sec _ _ _ _ _ _ _ _ (e_ok _ _ _ _ _ _ _ _ H1) Hsec)).
Qed.

Lemma checked_size size count n :
  0 ≤ size → 0 ≤ count → checked_transfer_size size count = Some n → n = size * count ∧ 0 ≤ n ≤ SIZE_MAX.
Proof.
  unfold checked_transfer_size. intros Hs Hc. case_bool_decide as Hg; [done|]. intros [= <-].
  assert (size * count ≤ SIZE_MAX) as Hle.
  { apply Z.nlt_ge. intros Hlt. apply Hg. by apply mul_overflow_guard. }
  rewrite u64_small by nia. nia.
Qed.

Lemma came_in_none data r es :
  (data ≠ [] → r ≠ Zlen data) → pauses es = false → came_in data r es = [].
Proof.
  intros Hr He. unfold came_in. rewrite He. case_bool_decide; [|done].
  destruct data; [done|by destruct (Hr ltac:(done))].
Qed.

Lemma came_in_all data r es : r = Zlen data ∨ pauses es = true → came_in data r es = data.
Proof. unfold came_in. intros [->| ->]; [by rewrite bool_decide_true|by rewrite orb_true_r]. Qed.

Lemma pauses_app es1 es2 : pauses (es1 ++ es2) = pauses es1 || pauses es2.
Proof. apply existsb_app. Qed.

Lemma came_in_nil r es : came_in [] r es = [].
Proof. unfold came_in. by destruct (_ || _). Qed.

(** What the write callback does: [data'] came in. *)
Lemma callback_effect `{Allocator} pause e l data size count :
  ok e l → op_ok (Deliver data size count pause) →
  wp (hcurl_download_write_callback (λ _, pause) data size count) (λ r oe es,
    ∃ e' l', oe = Some e' ∧ effect e l e' l' [] (fired es) (came_in data r es) []) (Some e).
Proof.
  intros Hok (Hs & Hc & Hd & Hmax). unfold CURL_READFUNC_ABORT in Hmax.
  assert (∀ r, (data ≠ [] → r ≠ Zlen data) → ∃ e' l', Some e = Some e' ∧
    effect e l e' l' [] (fired []) (came_in data r []) []) as Hnone.
  { intros r Hr. exists e, l. split; [done|]. rewrite came_in_none by done. by apply effect_refl. }
  assert (data ≠ [] → 0 ≠ Zlen data) as H0.
  { intros Hne E. apply Hne, length_zero_iff_nil. lia. }
  unfold hcurl_download_write_callback. apply wp_unless_null. wp_step. wp_step. wp_step.
  { wp_steps. by apply Hnone. }
  apply dec_stable in n as Hk.
  destruct (checked_transfer_size size count) as [total|] eqn:Ht; [|by wp_steps; apply Hnone].
  apply checked_size in Ht as [-> Ht]; [|done..]. rewrite Hd in *.
  wp_step; [by wp_steps; apply Hnone|].
  wp_step. eapply wp_mono; [by apply wp_mark_body_started|].
  intros [] e1 es1 (Hst & Hq & H1). wp_step.
  destruct (deliver_section_ok (stream e1) l data (Zlen data)) as (r & s' & l' & Hr & Hpost);
    [apply H1|by rewrite Hst|done|lia|].
  eapply wp_section; [exact Hr|]. destruct r as [| |ez w].
  - destruct Hpost as [-> ->]. rewrite env_eta. wp_steps.
    exists e1, l. split; [done|]. cbn [app]. rewrite !app_nil_r, came_in_none by done. done.
  - destruct Hpost as (-> & -> & _ & Hsec). wp_steps. unfold CURL_WRITEFUNC_PAUSE.
    eexists _, l. split; [done|]. cbn [app]. rewrite !app_nil_r.
    rewrite came_in_none by (done || lia).
    pose proof (effect_then_sec _ _ _ _ _ _ _ _ _ _ _ H1 Hsec) as H2. by rewrite app_nil_r in H2.
  - destruct Hpost as (Hf & -> & Hsec & _).
    pose proof (effect_then_sec _ _ _ _ _ _ _ _ _ _ _ H1 Hsec) as H3.
    wp_step. apply wp_on_field. unfold Metrics.curl_metrics_add_downloaded.
    match goal with |- wp (unless_null () (modify ?f)) ?Q ?o =>
      apply (wp_mono _ (λ _ o' es, es = []) _ o); [by destruct o|] end.
    intros [] m' es2 ->. wp_step. apply wp_wake_detached; [done|]. intros es3 Hes3.
    pose proof (effect_metrics _ _ m' (e_ok _ _ _ _ _ _ _ _ H3)) as H4.
    pose proof (effect_trans _ _ _ _ _ _ _ _ _ _ _ _ _ _ H3 H4) as H5.
    rewrite !app_nil_r in H5. cbn [app] in H5.
    assert (∀ r es4, fired es4 = [] → r = Zlen data ∨ pauses es4 = true →
      ∃ e' l2, Some (e1 <| stream := s' |> <| metrics := m' |>) = Some e' ∧
      effect e l e' l2 [] (fired (es1 ++ es3 ++ es4)) (came_in data r (es1 ++ es3 ++ es4)) [])
      as Hfin.
    { intros r es4 He4 Hin. eexists _, _. split; [reflexivity|].
      rewrite came_in_all by (rewrite !pauses_app; destruct Hin as [?| ->]; [by left|right; by rewrite !orb_true_r]).
      by rewrite !fired_app, Hes3, He4, app_nil_r. }
    destruct ez as [easy|]; wp_steps; cbn [app]; rewrite ?app_nil_r.
    + apply (Hfin _ [_]); [done|by right].
    + rewrite <- (app_nil_r es3). apply (Hfin _ []); [done|by left].
Qed.

Lemma deliver_effect `{Allocator} e l data size count pause :
  ok e l → op_ok (Deliver data size count pause) →
  wp (run_op (Deliver data size count pause)) (op_effect e l) (Some e).
Proof.
  intros Hok Ho. cbn [run_op]. wp_step. apply wp_listen.
  eapply wp_mono; [by apply callback_effect|]. intros r oe es (e' & l' & -> & He). wp_step.
  exists e', l'. split; [done|]. cbn. by rewrite !app_nil_r.
Qed.

(** A change of the records and of the handle: the waiters of the stream and
    what it stores are as before. *)
Lemma installed_effect e l h m z :
  ok e l → from_option HeaderData.wf True h →
  effect e l (Env ((stream e) <| easy := z |>) h m) l (owed h) (owed (headers e)) [] [].
Proof.
  intros [Hs Hh] Hh'. destruct (sec_flags (stream e) l ((stream e) <| easy := z |>) Hs)
    as (Hs' & Hp & Hm); try done.
  split; [by split| |by apply moved_flows].
  unfold all_pending. cbn [stream headers]. cbn in Hp. rewrite Hp. solve_Permutation.
Qed.

Lemma installing_effect (m : M (option stream_env) Z) e l :
  (∀ Q, (∀ r z h' m', from_option HeaderData.wf True h' →
    Q r (Some (Env ((stream e) <| easy := z |>) h' m')) []) → wp m Q (Some e)) →
  ok e l → wp (installing m) (op_effect e l) (Some e).
Proof.
  intros Hm Hok. unfold installing. wp_step. wp_step. wp_step. apply Hm. intros r z h' m' Hh.
  wp_steps. eexists _, l. split; [reflexivity|]. cbn [app fired acc ret bytes_in bytes_out records_owed].
  by apply installed_effect.
Qed.

Lemma install_download_effect `{Allocator} e l z h m setopt :
  ok e l → from_option HeaderData.wf True h →
  wp (run_op (Install_download z h m setopt)) (op_effect e l) (Some e).
Proof.
  intros Hok Hh. cbn [run_op]. apply installing_effect; [|done]. intros Q HQ.
  pose proof (λ r, HQ r (easy (stream e)) (headers e) (metrics e) (ok_headers _ _ Hok)) as Hsame.
  replace (Env _ _ _) with e in Hsame by (by destruct e as [[] ??]).
  unfold hcurl_stream_install_download. apply wp_unless_null. wp_step. wp_step.
  destruct (_ || _ || _ || _) eqn:E.
  { by wp_step. }
  destruct m as [mc|]; [|by destruct h, z; rewrite ?orb_true_r in E].
  wp_step. eapply wp_section; [reflexivity|]. wp_step. wp_step. wp_step. apply wp_on_field.
  apply wp_unless_null, wp_modify. wp_step. by apply HQ.
Qed.

Lemma install_upload_effect `{Allocator} e l global_init version z m setopt :
  ok e l → wp (run_op (Install_upload global_init version z m setopt)) (op_effect e l) (Some e).
Proof.
  intros Hok. cbn [run_op]. apply installing_effect; [|done]. intros Q HQ.
  pose proof (λ r, HQ r (easy (stream e)) (headers e) (metrics e) (ok_headers _ _ Hok)) as Hsame.
  replace (Env _ _ _) with e in Hsame by (by destruct e as [[] ??]).
  unfold hcurl_stream_install_upload. apply wp_unless_null. wp_step. wp_step.
  destruct (_ || _ || _) eqn:E; [by wp_step|].
  destruct (negb (hcurl_stream_upload_supported _ _)); [by wp_step|].
  destruct m as [mc|]; [|by rewrite orb_true_r in E].
  wp_step. eapply wp_section; [reflexivity|]. wp_step. wp_step. wp_step. apply wp_on_field.
  apply wp_unless_null, wp_modify. wp_step. apply HQ, Hok.
Qed.

(** An operation that is one section and nothing else. *)
Lemma sec_effect e l s' l' a b i o L es :
  ok e l → sec (stream e) l s' l' a b i o → acc L = a → fired es ++ ret L = b →
  bytes_in L = i → bytes_out L = o → op_effect e l L (Some (e <| stream := s' |>)) es.
Proof.
  intros Hok Hsec <- <- <- <-. eexists _, l'. split; [done|]. by apply effect_sec.
Qed.

(** A section followed by a step that only fires what it owes. *)
Lemma then_effect e l e1 l1 e2 l2 b1 i o L es es2 :
  effect e l e1 l1 [] b1 i o → effect e1 l1 e2 l2 [] (fired es2) [] [] →
  b1 = [] → fired es = fired es2 → acc L = [] → ret L = [] → bytes_in L = i → bytes_out L = o →
  op_effect e l L (Some e2) es.
Proof.
  intros H1 H2 -> He Ha Hr Hi Ho. exists e2, l2. split; [done|].
  pose proof (effect_trans _ _ _ _ _ _ _ _ _ _ _ _ _ _ H1 H2) as H3. cbn in H3.
  rewrite Ha, Hr, Hi, Ho, He, app_nil_r. by rewrite !app_nil_r in H3.
Qed.

Lemma try_read_effect `{Allocator} e l enqueue :
  ok e l → wp (run_op (Try_read enqueue)) (op_effect e l) (Some e).
Proof.
  intros Hok. cbn [run_op]. wp_step. unfold hcurl_stream_try_read. apply wp_unless_null.
  wp_step. wp_step. wp_step; [wp_steps; by apply effect_none|]. apply dec_stable in n as Hk.
  wp_step. destruct (read_section_ok (stream e) l (ok_stream _ _ Hok) Hk) as (r & s' & l' & Hr & Hpost).
  eapply wp_section; [exact Hr|]. destruct r as [d m resume|result code].
  - destruct Hpost as (b & c & -> & -> & -> & -> & _ & -> & Hsec).
    pose proof (effect_sec _ _ _ _ _ _ _ _ Hok Hsec) as H1. destruct resume.
    + wp_step. eapply wp_mono; [apply wp_flush_resume; apply H1|]. intros c' e2 es2 H2. wp_steps;
      (eapply (then_effect _ _ _ _ _ _ _ _ _ _ _ _ H1 H2); [done| |done..]);
      by rewrite !fired_app, !app_nil_r.
    + wp_steps. by eapply sec_effect.
  - destruct Hpost as (-> & -> & -> & _). wp_steps. rewrite env_eta. by apply effect_none.
Qed.

Lemma try_write_effect `{Allocator} e l data enqueue :
  ok e l → Zlen data ≤ SIZE_MAX →
  wp (run_op (Try_write data enqueue)) (op_effect e l) (Some e).
Proof.
  intros Hok Hd. cbn [run_op]. wp_step. unfold hcurl_stream_try_write. apply wp_unless_null.
  wp_step. wp_step. wp_step; [wp_steps; by apply effect_none|]. apply dec_stable in n as Hk.
  wp_step. destruct (write_section_ok (stream e) l data (Zlen data) (ok_stream _ _ Hok) Hk eq_refl Hd)
    as (r & s' & l' & Hr & Hpost).
  eapply wp_section; [exact Hr|]. destruct r as [resume|result code].
  - destruct Hpost as (_ & -> & Hsec & _). pose proof (effect_sec _ _ _ _ _ _ _ _ Hok Hsec) as H1.
    destruct resume.
    + wp_step. eapply wp_mono; [apply wp_flush_resume; apply H1|]. intros c' e2 es2 H2. wp_steps;
      (eapply (then_effect _ _ _ _ _ _ _ _ _ _ _ _ H1 H2); [done| |done|done| |done]);
      [by rewrite !fired_app, !app_nil_r|cbn; by destruct (bool_decide _)].
    + wp_steps. by eapply sec_effect.
  - destruct Hpost as (-> & -> & Hnil & Hne). wp_steps. rewrite env_eta. apply effect_none; [done| |done].
    destruct result; cbn; try done; by rewrite Hnil.
Qed.

Lemma finish_effect `{Allocator} e l enqueue :
  ok e l → wp (run_op (Finish enqueue)) (op_effect e l) (Some e).
Proof.
  intros Hok. cbn [run_op]. wp_step. unfold hcurl_stream_finish_upload. apply wp_unless_null.
  wp_step. wp_step. wp_step; [wp_steps; by apply effect_none|].
  wp_step. unfold finish_section.
  destruct (closed (stream e)) eqn:Hc.
  { eapply wp_section; [cbv [mbind M_bind gets]; rewrite Hc; reflexivity|].
    cbn beta iota. wp_steps. rewrite env_eta. by apply effect_none. }
  destruct (terminal_set (stream e)) eqn:Ht.
  { eapply wp_section; [cbv [mbind M_bind gets]; rewrite Hc, Ht; reflexivity|].
    cbn beta iota. wp_steps. rewrite env_eta. by apply effect_none. }
  eapply wp_section; [cbv [mbind M_bind gets]; rewrite Hc, Ht; reflexivity|].
  assert (effect e l (e <| stream := (stream e) <| finished := true |> |>) l [] [] [] []) as H1.
  { apply effect_sec; [done|]. apply sec_flags; try done. apply Hok. }
  cbn beta iota. destruct (paused (stream e)).
  - wp_step. eapply wp_mono; [apply wp_flush_resume; apply H1|]. intros c' e2 es2 H2. wp_steps;
    (eapply (then_effect _ _ _ _ _ _ _ _ _ _ _ _ H1 H2); [done| |done..]);
    by rewrite !fired_app, !app_nil_r.
  - wp_steps. by eexists _, l.
Qed.

Lemma flush_effect `{Allocator} e l enqueue :
  ok e l → wp (run_op (Flush enqueue)) (op_effect e l) (Some e).
Proof.
  intros Hok. cbn [run_op]. wp_step. unfold hcurl_stream_flush_resume. apply wp_unless_null.
  eapply wp_mono; [by apply wp_flush_resume|]. intros c' e2 es2 H2. wp_steps.
  exists e2, l. split; [done|]. cbn. by rewrite fired_app, !app_nil_r.
Qed.

Lemma complete_effect `{Allocator} e l code :
  ok e l → wp (run_op (Complete code)) (op_effect e l) (Some e).
Proof.
  intros Hok. cbn [run_op]. wp_step. unfold hcurl_stream_complete. apply wp_unless_null.
  eapply wp_mono; [by apply wp_complete|]. intros [] e2 es2 [H2 _]. wp_steps.
  exists e2, l. split; [done|]. cbn. by rewrite fired_app, !app_nil_r.
Qed.

Lemma close_effect `{Allocator} e l enqueue :
  ok e l → wp (run_op (Close enqueue)) (op_effect e l) (Some e).
Proof.
  intros Hok. cbn [run_op]. wp_step. unfold hcurl_stream_close. apply wp_unless_null. wp_step.
  destruct (close_section_ok (stream e) l (ok_stream _ _ Hok)) as (b & r & w & s' & Hr & Fr & Fw & Hsec & _).
  eapply wp_section; [exact Hr|]. cbn beta iota. wp_step. apply wp_wake_both; [done..|]. intros es1 Hes1.
  pose proof (effect_sec _ _ _ _ _ _ _ _ Hok Hsec) as H1. rewrite <- Hes1 in H1.
  assert (∀ e2 l2 es2, effect (e <| stream := s' |>) [] e2 l2 [] (fired es2) [] [] →
    op_effect e l nothing (Some e2) (([] ++ es1 ++ es2) ++ [])) as Hfin.
  { intros e2 l2 es2 H2. exists e2, l2. split; [done|]. cbn.
    rewrite !fired_app, !app_nil_r. by apply (effect_trans _ _ _ _ _ _ [] _ [] [] [] _ [] [] H1 H2). }
  destruct b; cbn [negb]; cycle 1.
  { wp_steps. apply (Hfin _ [] []). apply effect_refl. apply H1. }
  unfold enqueue_control. wp_step. wp_step. wp_step. wp_step. wp_step. wp_step.
  destruct (enqueue CANCEL_REQUEST).
  - wp_steps. apply (Hfin _ [] [_]). apply (effect_refl _ [] (e_ok _ _ _ _ _ _ _ _ H1)).
  - wp_step. eapply wp_section; [reflexivity|]. wp_steps. apply (Hfin _ [] [_]).
    apply effect_sec; [apply H1|]. cbn. apply sec_flags; cbn; try (by destruct (negb _)). apply H1.
  - wp_step. eapply wp_section; [reflexivity|]. wp_steps. apply (Hfin _ [] [_]).
    apply effect_sec; [apply H1|]. cbn. apply sec_flags; cbn; try (by destruct (negb _)). apply H1.
  - wp_step. eapply wp_mono; [apply wp_complete; apply H1|]. intros [] e2 es2 [H2 _]. wp_steps.
    apply (Hfin e2 [] (_ :: es2 ++ [])). cbn. by rewrite app_nil_r.
Qed.

Lemma wait_read_effect `{Allocator} e l p cap :
  ok e l → wp (run_op (Wait_read p cap)) (op_effect e l) (Some e).
Proof.
  intros Hok. cbn [run_op]. wp_step. unfold hcurl_stream_wait_read. apply wp_unless_null.
  wp_step. wp_step. wp_step; [wp_steps; by apply effect_none|]. apply dec_stable in n as Hk.
  destruct (wait_read_section_ok _ _ p cap (ok_stream _ _ Hok) Hk) as (r & s' & Hr & Hsec).
  eapply wp_section; [exact Hr|]. wp_step. by eapply sec_effect.
Qed.

Lemma wait_write_effect `{Allocator} e l p cap :
  ok e l → wp (run_op (Wait_write p cap)) (op_effect e l) (Some e).
Proof.
  intros Hok. cbn [run_op]. wp_step. unfold hcurl_stream_wait_write. apply wp_unless_null.
  wp_step. wp_step. wp_step; [wp_steps; by apply effect_none|]. apply dec_stable in n as Hk.
  destruct (wait_write_section_ok _ _ p cap (ok_stream _ _ Hok) Hk) as (r & s' & Hr & Hsec).
  eapply wp_section; [exact Hr|]. wp_step. by eapply sec_effect.
Qed.

Lemma cancel_read_effect `{Allocator} e l p :
  ok e l → wp (run_op (Cancel_read p)) (op_effect e l) (Some e).
Proof.
  intros Hok. cbn [run_op]. wp_step. unfold hcurl_stream_cancel_wait_read. apply wp_unless_null.
  wp_step. wp_step. wp_step; [wp_steps; by apply effect_none|].
  destruct (sok_unread _ _ (ok_stream _ _ Hok)) as [Hs _].
  pose proof (pending_unread (stream e)) as Hpend.
  assert (moved (stream e) l (unread (stream e)) l [] []) as Hm.
  { apply moved_same; unfold unread; by destruct (read_waiter_present (stream e)). }
  unfold read_out, unread in *.
  destruct (read_waiter_present (stream e) && bool_decide (mvar (read_waiter (stream e)) = Some p)) eqn:E.
  - apply andb_true_iff in E as [Hp Hq%bool_decide_eq_true]. rewrite Hp in *. eapply wp_section.
    { unfold cancel_read_section. cbv [mbind M_bind gets]. rewrite Hp, bool_decide_true by done. reflexivity. }
    cbn beta iota. wp_steps. eapply sec_effect; [done| |reflexivity..]. split; [done|]. split; [|done].
    rewrite <- Hpend. unfold ptrs. by rewrite Hq.
  - eapply wp_section.
    { unfold cancel_read_section. cbv [mbind M_bind gets]. rewrite E. reflexivity. }
    cbn beta iota. wp_steps. rewrite env_eta. by apply effect_none.
Qed.

Lemma cancel_write_effect `{Allocator} e l p :
  ok e l → wp (run_op (Cancel_write p)) (op_effect e l) (Some e).
Proof.
  intros Hok. cbn [run_op]. wp_step. unfold hcurl_stream_cancel_wait_write. apply wp_unless_null.
  wp_step. wp_step. wp_step; [wp_steps; by apply effect_none|].
  destruct (sok_unwrite _ _ (ok_stream _ _ Hok)) as [Hs _].
  pose proof (pending_unwrite (stream e)) as Hpend.
  assert (moved (stream e) l (unwrite (stream e)) l [] []) as Hm.
  { apply moved_same; unfold unwrite; by destruct (write_waiter_present (stream e)). }
  unfold write_out, unwrite in *.
  destruct (write_waiter_present (stream e) && bool_decide (mvar (write_waiter (stream e)) = Some p)) eqn:E.
  - apply andb_true_iff in E as [Hp Hq%bool_decide_eq_true]. rewrite Hp in *. eapply wp_section.
    { unfold cancel_write_section. cbv [mbind M_bind gets]. rewrite Hp, bool_decide_true by done. reflexivity. }
    cbn beta iota. wp_steps. eapply sec_effect; [done| |reflexivity..]. split; [done|]. split; [|done].
    rewrite <- Hpend. unfold ptrs. by rewrite Hq.
  - eapply wp_section.
    { unfold cancel_write_section. cbv [mbind M_bind gets]. rewrite E. reflexivity. }
    cbn beta iota. wp_steps. rewrite env_eta. by apply effect_none.
Qed.

Lemma feed_effect `{Allocator} e l size count :
  ok e l → 0 ≤ size → 0 ≤ count → wp (run_op (Feed size count)) (op_effect e l) (Some e).
Proof.
  intros Hok H0s H0c. cbn [run_op]. wp_step. unfold hcurl_upload_read_callback. apply wp_unless_null.
  wp_step. wp_step. wp_step; [wp_steps; by apply effect_none|]. apply dec_stable in n as Hk.
  destruct (checked_transfer_size size count) as [room|] eqn:Ht; cycle 1.
  { wp_steps. by apply effect_none. }
  apply checked_size in Ht as [_ Ht]; [|done..].
  wp_step; [wp_steps; by apply effect_none|].
  wp_step. destruct (feed_section_ok (stream e) l room (ok_stream _ _ Hok) Hk ltac:(lia))
    as (r & s' & l' & Hr & Hpost).
  eapply wp_section; [exact Hr|]. destruct r as [copied w|result].
  - destruct Hpost as (Hf & Hsec & _). pose proof (effect_sec _ _ _ _ _ _ _ _ Hok Hsec) as H1.
    wp_step. apply wp_on_field. unfold Metrics.curl_metrics_add_uploaded.
    match goal with |- wp (unless_null () (modify ?f)) ?Q ?o =>
      apply (wp_mono _ (λ _ o' es, es = []) _ o); [by destruct o|] end.
    intros [] m' es2 ->. wp_step. apply wp_wake_detached; [done|]. intros es3 Hes3. wp_steps.
    pose proof (effect_metrics _ _ m' (e_ok _ _ _ _ _ _ _ _ H1)) as H2.
    pose proof (effect_trans _ _ _ _ _ _ _ _ _ _ _ _ _ _ H1 H2) as H3.
    eexists _, l'. split; [reflexivity|]. cbn. rewrite !fired_app, Hes3, !app_nil_r.
    by rewrite !app_nil_r in H3.
  - destruct Hpost as [Hsec _]. wp_steps. by eapply sec_effect.
Qed.

(** ** Any sequence of operations *)

Lemma run_op_effect `{Allocator} e l o :
  ok e l → op_ok o → wp (run_op o) (op_effect e l) (Some e).
Proof.
  intros Hok Ho. destruct o.
  - by apply install_download_effect.
  - by apply install_upload_effect.
  - by apply deliver_effect.
  - by apply try_read_effect.
  - by apply wait_read_effect.
  - by apply cancel_read_effect.
  - destruct Ho. by apply feed_effect.
  - by apply try_write_effect.
  - by apply finish_effect.
  - by apply wait_write_effect.
  - by apply cancel_write_effect.
  - by apply flush_effect.
  - by apply close_effect.
  - by apply complete_effect.
Qed.

(** Operations with the allocator each one meets, and what they add up to. *)
Fixpoint run_ops (ops : list (Allocator * op)) : M (option stream_env) ledger :=
  match ops with
  | [] => mret nothing
  | (a, o) :: ops => L ← run_op (H := a) o; Ls ← run_ops ops; mret (ledger_app L Ls)
  end.

Lemma run_ops_effect ops e l :
  ok e l → Forall (λ ao, op_ok ao.2) ops → wp (run_ops ops) (op_effect e l) (Some e).
Proof.
  intros Hok Hops. revert e l Hok. induction Hops as [|[a o] ops Ho Hops IH]; intros e l Hok.
  { cbn. by apply effect_none. }
  cbn [run_ops]. wp_step. eapply wp_mono; [by apply (run_op_effect (H := a))|].
  intros L1 oe1 es1 (e1 & l1 & -> & H1). wp_step.
  eapply wp_mono; [apply IH, H1|]. intros L2 oe2 es2 (e2 & l2 & -> & H2). wp_step.
  exists e2, l2. split; [done|]. cbn. rewrite !fired_app. cbn. rewrite app_nil_r.
  destruct (effect_trans _ _ _ _ _ _ _ _ _ _ _ _ _ _ H1 H2) as [K B F].
  split; [done| |done]. rewrite <- B. solve_Permutation.
Qed.

(** A stream just created, with its transfer's records. *)
Lemma created `{Allocator} k cap id s h m :
  hcurl_stream_create 0 k cap true id = Some s → 0 ≤ cap → from_option HeaderData.wf True h →
  ok (Env s h m) [] ∧ pending s = [] ∧ capacity s = cap.
Proof.
  intros Hs Hcap Hh. destruct (create_ok _ _ _ _ _ _ Hs Hcap) as (Hok & ? & ? & _).
  split; [by split|done].
Qed.

Lemma wp_destroy (e : stream_env) l :
  ok e l → wp hcurl_stream_destroy (λ _ oe es, ∃ e', oe = Some e' ∧
    fired es ≡ₚ pending (stream e) ∧ pending (stream e') = [] ∧ headers e' = headers e) (Some e).
Proof.
  intros Hok. unfold hcurl_stream_destroy. apply wp_unless_null. wp_step.
  destruct (destroy_section_ok _ _ (ok_stream _ _ Hok)) as (r & w & s' & Hr & Fr & Fw & Hp & Hn & _).
  eapply wp_section; [exact Hr|]. apply wp_wake_both; [done..|]. intros es Hes.
  eexists. split; [reflexivity|]. by rewrite fired_app, Hes.
Qed.

(** [n] reads in a row. *)
Fixpoint try_reads (enqueue : outer_message_types → enqueue_message_result) (n : nat) :
    M (option stream_env) (list (hcurl_stream_read_result * option bytes * Z * Z)) :=
  match n with
  | O => mret []
  | S n => r ← hcurl_stream_try_read enqueue; rs ← try_reads enqueue n; mret (r :: rs)
  end.

(** What a reader sees of a chunk, and of the end of a transfer. *)
Definition saw_chunk (d : bytes) : hcurl_stream_read_result * option bytes * Z * Z :=
  (HCURL_STREAM_READ_CHUNK, Some d, Zlen d, CURLE_OK).
Definition saw_end (code : Z) : hcurl_stream_read_result * option bytes * Z * Z :=
  (if bool_decide (code = CURLE_OK) then HCURL_STREAM_READ_EOF else HCURL_STREAM_READ_ERROR,
   None, 0, code).

Lemma wp_reads_ended enqueue n (e : stream_env) l :
  sok (stream e) l → kind (stream e) = HCURL_STREAM_DOWNLOAD → closed (stream e) = false →
  terminal_set (stream e) = true → paused (stream e) = false →
  wp (try_reads enqueue n) (λ rs oe es, ∃ e', oe = Some e' ∧ es = [] ∧
    closed (stream e') = false ∧ terminal_code (stream e') = terminal_code (stream e) ∧
    rs = take n ((saw_chunk ∘ remaining <$> l) ++ replicate n (saw_end (terminal_code (stream e)))))
    (Some e).
Proof.
  intros Hs Hk Hc Ht Hp. revert e l Hs Hk Hc Ht Hp.
  induction n as [|n IH]; intros e l Hs Hk Hc Ht Hp; [cbn; by eexists|].
  cbn [try_reads]. wp_step. unfold hcurl_stream_try_read. apply wp_unless_null. wp_step. wp_step.
  rewrite bool_decide_false by (intros Hn; by apply Hn). wp_step.
  destruct (read_section_ok (stream e) l Hs Hk) as (r & s' & l' & Hr & Hpost).
  eapply wp_section; [exact Hr|]. destruct r as [d m resume|result code].
  - destruct Hpost as (b & c & -> & -> & -> & -> & -> & -> & Hsec & _). rewrite Hp. cbn beta iota.
    wp_step. wp_step. eapply wp_mono; [apply (IH (e <| stream := popped (stream e) |>) l'); done|].
    intros rs oe es (e' & -> & -> & ? & ? & ->). wp_step. exists e'. do 4 (split; [done|]).
    cbn [fmap list_fmap app take]. f_equal. rewrite replicate_S_end, app_assoc. symmetry. apply take_app_le.
    rewrite length_app, length_replicate. cbn. lia.
  - destruct Hpost as (-> & -> & -> & E). rewrite Hc, Ht in E. injection E as -> ->.
    rewrite env_eta. wp_step. wp_step. eapply wp_mono; [by apply (IH e [])|].
    intros rs oe es (e' & -> & -> & ? & ? & ->). wp_step. exists e'. do 4 (split; [done|]). done.
Qed.

(** ** The theorems *)

(** C10: A stream is a bounded first-in first-out pipe of bytes.  After any
    sequence of installations, libcurl callbacks and reader, writer, waiter and
    control calls, with any allocation failures and any answers of
    [curl_easy_pause], of [curl_easy_setopt] and of the control queue, the
    operations are free of undefined behaviour, the ring never holds more chunks
    than its capacity, what came out is a prefix of what came in, and while the
    stream is not closed the rest is exactly what it stores, in order.  A block came
    in when the write callback says so, or when it tried to pause the transfer after
    it: the callback answers 0 when that pause fails, but the block is stored. *)
Theorem stream_fifo `{Allocator} k cap id s h m ops :
  hcurl_stream_create 0 k cap true id = Some s → 0 ≤ cap → from_option HeaderData.wf True h →
  Forall (λ ao, op_ok ao.2) ops →
  wp (run_ops ops) (λ L oe _, ∃ e l, oe = Some e ∧ holds (stream e) l ∧ Zlen l ≤ cap ∧
    (∃ lost, bytes_in L = bytes_out L ++ lost) ∧
    (closed (stream e) = false → bytes_in L = bytes_out L ++ bytes_of l)) (Some (Env s h m)).
Proof.
  intros Hs Hcap Hh Hops. destruct (created _ _ _ _ h m Hs Hcap Hh) as (Hok & _ & Hc).
  eapply wp_mono; [by apply run_ops_effect|].
  intros L oe es (e & l & -> & [[Hsok _] _ [[= _ Hcap'] _ Ho Hl]]). exists e, l. split; [done|].
  split; [apply Hsok|]. split; [cbn in Hcap'; rewrite <- Hc, <- Hcap'; apply (h_count _ _ (s_holds _ _ Hsok))|]. done.
Qed.

(** A download of capacity one, installed on a handle with a reader waiting for the
    headers and one for the body.  The second block finds the ring full; the third is
    stored although the transfer cannot be paused. *)
Definition demo : hcurl_stream :=
  Mk HCURL_STREAM_DOWNLOAD [no_chunk] 1 0 0 0 false false false false false CURLE_OK
    false Waker.zero false Waker.zero 7 None.
Definition demo_ops : list (Allocator * op) :=
  (λ o, (alloc_always, o)) <$>
    [Install_download (Some 3%positive) (Some HeaderData.waiting)
       (Some (Metrics.Context (Metrics.Mk 0 0 0 0 0 0 0 0 0 0 0 0 0) false false)) (CURLE_OK, CURLE_OK);
     Wait_read 8 0; Deliver ["a"; "b"]%char 1 2 CURLE_OK; Deliver ["c"]%char 1 1 CURLE_OK;
     Try_read (λ _, ENQUEUE_MESSAGE_OK); Deliver ["c"]%char 1 1 CURLE_BAD_FUNCTION_ARGUMENT].

Lemma demo_created : hcurl_stream_create (H := alloc_always) 0 HCURL_STREAM_DOWNLOAD 1 true 7 = Some demo.
Proof. vm_compute. reflexivity. Defined.
Lemma demo_ops_ok : Forall (λ ao, op_ok ao.2) demo_ops.
Proof. apply List.Forall_cons; [apply HeaderData.waiting_wf|]. repeat constructor; cbn; done. Qed.

Lemma stream_fifo_witness :
  wp (run_ops demo_ops) (λ L oe _, bytes_in L = ["a"; "b"; "c"]%char ∧ bytes_out L = ["a"; "b"]%char)
    (Some (Env demo None None)) ∧
  wp (run_ops demo_ops) (λ L oe _, ∃ e l, oe = Some e ∧ holds (stream e) l ∧ Zlen l ≤ 1 ∧
    (∃ lost, bytes_in L = bytes_out L ++ lost) ∧
    (closed (stream e) = false → bytes_in L = bytes_out L ++ bytes_of l))
    (Some (Env demo None None)).
Proof.
  split; [vm_compute; done|].
  exact (stream_fifo (H := alloc_always) HCURL_STREAM_DOWNLOAD 1 7 demo None None demo_ops
    demo_created ltac:(lia) I demo_ops_ok).
Defined.

(** C19: A pointer registered to wait on a stream is used exactly once.  Over any
    sequence of operations followed by the destruction of the stream, the
    pointers fired into the runtime, those given back by a cancelled wait and those
    of the header records that were replaced or are left are together, with
    multiplicity, the registered ones and those that the header records brought
    along. *)
Theorem stream_waiters_linear `{Allocator} k cap id s h m ops :
  hcurl_stream_create 0 k cap true id = Some s → 0 ≤ cap → from_option HeaderData.wf True h →
  Forall (λ ao, op_ok ao.2) ops →
  wp (L ← run_ops ops; hcurl_stream_destroy;; mret L) (λ L oe es, ∃ e, oe = Some e ∧
    pending (stream e) = [] ∧ fired es ++ ret L ++ owed (headers e) ≡ₚ acc L ++ owed h)
    (Some (Env s h m)).
Proof.
  intros Hs Hcap Hh Hops. destruct (created _ _ _ _ h m Hs Hcap Hh) as (Hok & Hp & _).
  wp_step. eapply wp_mono; [by apply run_ops_effect|].
  intros L oe es (e & l & -> & [Hok' Hb _]). wp_step.
  eapply wp_mono; [by apply (wp_destroy _ l)|]. intros [] oe es' (e' & -> & He & Hn & Hhd). wp_step.
  exists e'. split; [done|]. split; [done|].
  unfold all_pending in Hb. cbn in Hb. rewrite Hp in Hb. cbn in Hb. rewrite <- Hb, <- He, Hhd.
  rewrite !fired_app. cbn. rewrite app_nil_r. solve_Permutation.
Qed.

Lemma stream_waiters_linear_witness :
  wp (L ← run_ops demo_ops; hcurl_stream_destroy;; mret L) (λ L oe es, ∃ e, oe = Some e ∧
    pending (stream e) = [] ∧ fired es ++ ret L ++ owed (headers e) ≡ₚ acc L ++ owed None)
    (Some (Env demo None None)) ∧
  wp (run_ops demo_ops) (λ L oe es, acc L = [9%positive; 8%positive] ∧ fired es = [9%positive; 8%positive])
    (Some (Env demo None None)).
Proof.
  split; [|vm_compute; done].
  exact (stream_waiters_linear (H := alloc_always) HCURL_STREAM_DOWNLOAD 1 7 demo None None demo_ops
    demo_created ltac:(lia) I demo_ops_ok).
Defined.

(** C18: The end of a transfer loses nothing.  When a download is completed after
    any sequence of operations and was not closed, a reader that goes on reading
    gets every byte that came in and was not yet read - also of a block after which
    the transfer could not be paused - chunk by chunk in order, and then the end of
    the stream for ever: the recorded terminal code, which is the first one a
    completion gave. *)
Theorem terminal_drains `{Allocator} cap id s h m ops code enqueue n :
  hcurl_stream_create 0 HCURL_STREAM_DOWNLOAD cap true id = Some s → 0 ≤ cap →
  from_option HeaderData.wf True h → Forall (λ ao, op_ok ao.2) ops →
  wp (run_ops ops) (λ L oe _, ∀ e, oe = Some e → closed (stream e) = false →
    wp (hcurl_stream_complete code;; try_reads enqueue n) (λ rs oe' _, ∃ e' ds,
      oe' = Some e' ∧ bytes_in L = bytes_out L ++ concat ds ∧
      terminal_code (stream e') =
        (if terminal_set (stream e) then terminal_code (stream e) else code) ∧
      rs = take n ((saw_chunk <$> ds) ++ replicate n (saw_end (terminal_code (stream e')))))
      (Some e)) (Some (Env s h m)).
Proof.
  intros Hs Hcap Hh Hops. destruct (created _ _ _ _ h m Hs Hcap Hh) as (Hok & _ & _).
  pose proof (create_ok _ _ _ _ _ _ Hs Hcap) as (_ & _ & _ & Hk & _).
  eapply wp_mono; [by apply run_ops_effect|].
  intros L oe _ (e & l & -> & [Hok' _ [[= Hk' _] _ Ho _]]) ? [= <-] Hcl. cbn in Hk', Ho.
  wp_step. unfold hcurl_stream_complete. apply wp_unless_null.
  eapply wp_mono; [by apply (wp_complete code e l)|].
  intros [] e1 es1 ([[Hs1 _] _ [[= Hk1 _] _ _ _]] & Ht & Hp & Hc1 & _ & Hcode & _).
  eapply wp_mono; [apply (wp_reads_ended enqueue n e1 l); congruence|].
  intros rs oe es2 (e2 & -> & _ & _ & Hcode2 & ->). exists e2, (remaining <$> l).
  split; [done|]. split; [by apply Ho|]. rewrite Hcode2. split; [done|].
  by rewrite list_fmap_compose.
Qed.

Lemma terminal_drains_witness :
  wp (run_ops demo_ops) (λ L oe _, ∀ e, oe = Some e → closed (stream e) = false →
    wp (hcurl_stream_complete CURLE_OK;; try_reads (λ _, ENQUEUE_MESSAGE_OK) 3) (λ rs oe' _, ∃ e' ds,
      oe' = Some e' ∧ bytes_in L = bytes_out L ++ concat ds ∧
      terminal_code (stream e') =
        (if terminal_set (stream e) then terminal_code (stream e) else CURLE_OK) ∧
      rs = take 3 ((saw_chunk <$> ds) ++ replicate 3 (saw_end (terminal_code (stream e')))))
      (Some e)) (Some (Env demo None None)) ∧
  wp (run_ops demo_ops;; hcurl_stream_complete CURLE_OK;; try_reads (λ _, ENQUEUE_MESSAGE_OK) 3)
    (λ rs _ _, rs = [saw_chunk ["c"]%char; saw_end CURLE_OK; saw_end CURLE_OK])
    (Some (Env demo None None)).
Proof.
  split; [|vm_compute; done].
  exact (terminal_drains (H := alloc_always) 1 7 demo None None demo_ops CURLE_OK _ 3
    demo_created ltac:(lia) I demo_ops_ok).
Defined.

End StreamOps.
