(* ===== verification/Flow.v ===== *)
(** * Pausing and resuming a transfer

    The interleaving model of one stream: reader and writer threads, and the
    agent that runs libcurl and handles the control messages, step through the
    sections of [Stream.v] and the calls between them.  The ghost fields
    [arrived] and [taken] are the bytes accepted and given out so far. *)

From S2P Require Import Prelude Extras Stream StreamRing.
Import Waker Stream StreamRing.

Open Scope Z_scope.
Open Scope record_scope.

Module Flow.

(** ** The interleaved system *)

(** Where a thread is in [hcurl_stream_flush_resume], alone or at the end of a
    read, a write or a finish, or in [hcurl_stream_close]. *)
Inductive tpc :=
  | Flushing | Resuming | Restoring
  | Cancelling | Uncancelling
  | Completing.

(** The agent: in its loop or in libcurl, about to pause from the write
    callback, or finishing a transfer it took from the registry. *)
Inductive apc := A_curl | A_pausing (easy : ptr) | A_finishing (code : Z).

Record sys := Sys {
  st : hcurl_stream;
  registered : bool;
  curl_paused : bool;
  agent : apc;
  resumes : nat;
  cancels : nat;
  threads : gmap nat tpc;
  arrived : bytes;
  taken : bytes
}.
#[export] Instance flow_sys_eta : Eta sys := λ x,
  Sys (st x) (registered x) (curl_paused x) (agent x) (resumes x) (cancels x) (threads x)
    (arrived x) (taken x).

(** A step is not enabled ([None]), undefined ([Some None]) or leads on. *)
Definition outcome : Type := option (option sys).
Definition go (x : sys) : outcome := Some (Some x).

(** A section on the stream, then [k]. *)
Definition atomically {A} (m : M hcurl_stream A) (x : sys) (k : A → sys → sys) : outcome :=
  Some match m (st x) with Some (a, s, _) => Some (k a (x <| st := s |>)) | None => None end.

Definition goto (t : nat) (p : tpc) (x : sys) : sys := x <| threads ::= <[t := p]> |>.
Definition return_ (t : nat) (x : sys) : sys := x <| threads ::= delete t |>.

(** Calls by threads, steps of threads with the answer that
    [enqueue_outer_message] gives when it is called, libcurl's callbacks, and
    the agent's handling of messages and ends of transfers. *)
Inductive action :=
  | Call_read (t : nat)
  | Call_write (t : nat) (alloc : Allocator) (data : bytes)
  | Call_finish (t : nat)
  | Call_flush (t : nat)
  | Call_close (t : nat)
  | Call_wait_read (mvar : ptr) (capability : Z)
  | Call_wait_write (mvar : ptr) (capability : Z)
  | Run (t : nat) (answer : enqueue_message_result)
  | Deliver (alloc : Allocator) (data : bytes)
  | Feed (room : Z)
  | Pause (answer : Z)
  | Take_resume (answer : Z)
  | Take_cancel
  | End (code : Z)
  | Finish_transfer.

Definition when (b : bool) (o : outcome) : outcome := if b then o else None.
Definition fresh_thread (t : nat) (x : sys) : bool := bool_decide (threads x !! t = None).
Definition of_kind (k : hcurl_stream_kind) (x : sys) : bool := bool_decide (kind (st x) = k).

(** The threads' calls, up to the first point where another thread may run. *)
Definition call_read (t : nat) (x : sys) : outcome :=
  atomically read_section x (λ r x,
    match r with
    | Read_chunk d _ resume =>
        let x := x <| taken ::= λ b, b ++ default [] d |> in
        if resume then goto t Flushing x else x
    | Read_none _ _ => x
    end).

Definition call_write (t : nat) (alloc : Allocator) (data : bytes) (x : sys) : outcome :=
  atomically (write_section (H := alloc) data (Zlen data)) x (λ r x,
    match r with
    | Write_stored resume =>
        let x := x <| arrived ::= λ b, b ++ data |> in
        if resume then goto t Flushing x else x
    | Write_none _ _ => x
    end).

Definition call_finish (t : nat) (x : sys) : outcome :=
  atomically finish_section x (λ r x,
    match r with
    | Write_stored true => goto t Flushing x
    | _ => x
    end).

Definition call_close (t : nat) (x : sys) : outcome :=
  atomically close_section x (λ out x,
    let '(needs_cancel, _) := out in if needs_cancel : bool then goto t Cancelling x else x).

(** One step of a thread inside [hcurl_stream_flush_resume] or
    [hcurl_stream_close]. *)
Definition run_thread (t : nat) (answer : enqueue_message_result) (p : tpc) (x : sys) : outcome :=
  match p with
  | Flushing =>
      atomically flush_section x (λ needs_resume x,
        if needs_resume : bool then goto t Resuming x else return_ t x)
  | Resuming =>
      go match answer with
         | ENQUEUE_MESSAGE_OK => return_ t (x <| resumes ::= S |>)
         | ENQUEUE_MESSAGE_CLOSED => goto t Completing x
         | ENQUEUE_MESSAGE_FULL | ENQUEUE_MESSAGE_OUT_OF_MEMORY => goto t Restoring x
         end
  | Restoring => atomically restore_pause_section x (λ _ x, return_ t x)
  | Cancelling =>
      go match answer with
         | ENQUEUE_MESSAGE_OK => return_ t (x <| cancels ::= S |>)
         | ENQUEUE_MESSAGE_CLOSED => goto t Completing x
         | ENQUEUE_MESSAGE_FULL | ENQUEUE_MESSAGE_OUT_OF_MEMORY => goto t Uncancelling x
         end
  | Uncancelling => atomically uncancel_section x (λ _ x, return_ t x)
  | Completing =>
      atomically (complete_section CURLE_ABORTED_BY_CALLBACK) x (λ _ x, return_ t x)
  end.

(** [hcurl_download_write_callback]: the section; [curl_easy_pause] follows when
    the ring became full. *)
Definition deliver (alloc : Allocator) (data : bytes) (x : sys) : outcome :=
  atomically (deliver_section (H := alloc) data (Zlen data)) x (λ out x,
    match out with
    | Deliver_refused => x
    | Deliver_pause => x <| curl_paused := true |>
    | Deliver_stored easy _ =>
        let x := x <| arrived ::= λ b, b ++ data |> in
        match easy with
        | Some easy => x <| agent := A_pausing easy |>
        | None => x
        end
    end).

(** [hcurl_upload_read_callback]. *)
Definition feed (room : Z) (x : sys) : outcome :=
  atomically (feed_section room) x (λ out x,
    match out with
    | Feed_none r => if bool_decide (r = CURL_READFUNC_PAUSE) then x <| curl_paused := true |> else x
    | Feed_bytes copied _ => x <| taken ::= λ b, b ++ copied |>
    end).

(** The transfer leaves the registry and is finished with [code]. *)
Definition detach (code : Z) (x : sys) : sys :=
  x <| registered := false |> <| agent := A_finishing code |>.

Definition act (a : action) (x : sys) : outcome :=
  match a with
  | Call_read t =>
      when (fresh_thread t x && of_kind HCURL_STREAM_DOWNLOAD x) (call_read t x)
  | Call_write t alloc data =>
      when (fresh_thread t x && of_kind HCURL_STREAM_UPLOAD x && bool_decide (Zlen data ≤ SIZE_MAX))
        (call_write t alloc data x)
  | Call_finish t => when (fresh_thread t x && of_kind HCURL_STREAM_UPLOAD x) (call_finish t x)
  | Call_flush t => when (fresh_thread t x) (go (goto t Flushing x))
  | Call_close t => when (fresh_thread t x) (call_close t x)
  | Call_wait_read p c =>
      when (of_kind HCURL_STREAM_DOWNLOAD x) (atomically (wait_read_section p c) x (λ _ x, x))
  | Call_wait_write p c =>
      when (of_kind HCURL_STREAM_UPLOAD x) (atomically (wait_write_section p c) x (λ _ x, x))
  | Run t answer => p ← threads x !! t; run_thread t answer p x
  | Deliver alloc data =>
      match agent x with
      | A_curl => when (of_kind HCURL_STREAM_DOWNLOAD x && registered x
                        && bool_decide (0 < Zlen data ≤ SIZE_MAX)) (deliver alloc data x)
      | _ => None
      end
  | Feed room =>
      match agent x with
      | A_curl => when (of_kind HCURL_STREAM_UPLOAD x && registered x
                        && bool_decide (0 < room ≤ SIZE_MAX)) (feed room x)
      | _ => None
      end
  | Pause answer =>
      match agent x with
      | A_pausing _ =>
          let x := x <| agent := A_curl |> in
          go (if bool_decide (answer = CURLE_OK) then x <| curl_paused := true |> else x)
      | _ => None
      end
  | Take_resume answer =>
      match agent x, resumes x with
      | A_curl, S n =>
          let x := x <| resumes := n |> in
          go (if negb (registered x) then x
              else if bool_decide (answer = CURLE_OK) then x <| curl_paused := false |>
              else detach answer x)
      | _, _ => None
      end
  | Take_cancel =>
      match agent x, cancels x with
      | A_curl, S n =>
          let x := x <| cancels := n |> in
          go (if registered x then detach CURLE_ABORTED_BY_CALLBACK x else x)
      | _, _ => None
      end
  | End code =>
      match agent x with
      | A_curl => when (registered x) (go (detach code x))
      | _ => None
      end
  | Finish_transfer =>
      match agent x with
      | A_finishing code =>
          atomically (complete_section code) (x <| agent := A_curl |>) (λ _ x, x)
      | _ => None
      end
  end.

Definition step (x y : sys) : Prop := ∃ a, act a x = Some (Some y).

(** A stream installed on a handle whose transfer is registered. *)
Definition initial (e : option ptr) (s : hcurl_stream) : sys :=
  Sys (s <| easy := e |>) true false A_curl 0 0 ∅ [] [].
Definition reachable (e : option ptr) (s : hcurl_stream) (x : sys) : Prop :=
  rtc step (initial e s) x.

Fixpoint run (acts : list action) (x : sys) : outcome :=
  match acts with
  | [] => go x
  | a :: acts =>
      match act a x with Some (Some y) => run acts y | o => o end
  end.

(** ** What sections keep *)

(** The stream's end is not nearer, and no pause was cleared. *)
Definition same_end (s s' : hcurl_stream) : Prop :=
  (closed s', terminal_set s', cancel_sent s') = (closed s, terminal_set s, cancel_sent s) ∧
  (paused s = true → paused s' = true).

#[export] Instance same_end_refl : Reflexive same_end.
Proof. done. Qed.
#[export] Instance same_end_trans : Transitive same_end.
Proof. intros s1 s2 s3 [E1 P1] [E2 P2]. split; [congruence|auto]. Qed.

Lemma keeps_set_chunk i c : keeps same_end (set_chunk i c).
Proof. unfold set_chunk, get_chunk. by keeps_tac. Qed.
Lemma keeps_pop_head : keeps same_end pop_head.
Proof. unfold pop_head. keeps_tac; [apply keeps_set_chunk|done]. Qed.
Lemma keeps_push_tail d : keeps same_end (push_tail d).
Proof. unfold push_tail. keeps_tac; [apply keeps_set_chunk|done]. Qed.
Lemma keeps_detach_read : keeps same_end detach_read_waiter.
Proof. unfold detach_read_waiter. by keeps_tac. Qed.
Lemma keeps_detach_write : keeps same_end detach_write_waiter.
Proof. unfold detach_write_waiter. by keeps_tac. Qed.

Lemma keeps_read : keeps same_end read_section.
Proof. unfold read_section, get_chunk. keeps_tac; apply keeps_pop_head. Qed.
Lemma keeps_write `{Allocator} d n : keeps same_end (write_section d n).
Proof. unfold write_section. keeps_tac; apply keeps_push_tail. Qed.
Lemma keeps_finish : keeps same_end finish_section.
Proof. unfold finish_section. by keeps_tac. Qed.
Lemma keeps_deliver `{Allocator} d n : keeps same_end (deliver_section d n).
Proof. unfold deliver_section. keeps_tac; by try (apply keeps_push_tail || apply keeps_detach_read). Qed.
Lemma keeps_feed n : keeps same_end (feed_section n).
Proof.
  unfold feed_section, get_chunk. keeps_tac;
    by try (apply keeps_set_chunk || apply keeps_pop_head || apply keeps_detach_write).
Qed.
Lemma keeps_wait_read p c : keeps same_end (wait_read_section p c).
Proof. unfold wait_read_section. by keeps_tac. Qed.
Lemma keeps_wait_write p c : keeps same_end (wait_write_section p c).
Proof. unfold wait_write_section. by keeps_tac. Qed.

(** ** The invariant *)

(** What the ring holds of the bytes that came and went. *)
Definition content (s : hcurl_stream) (arr tak : bytes) : Prop :=
  ∃ l, sok s l ∧ (closed s = false → arr = tak ++ bytes_of l) ∧ ∃ lost, arr = tak ++ lost.

Lemma content_moved s l s' l' arr tak i o :
  (closed s = false → arr = tak ++ bytes_of l) → (∃ lost, arr = tak ++ lost) →
  sok s' l' → moved s l s' l' i o → content s' (arr ++ i) (tak ++ o).
Proof.
  intros Ho [lost Hl] Hs' [_ [(Hc & Hb & Hcl)|(Hc & -> & ->)]]; exists l'; (split; [done|]).
  - destruct (closed s) eqn:E.
    + destruct (Hcl eq_refl) as [-> ->]. rewrite !app_nil_r. split; [congruence|by eexists].
    + specialize (Ho eq_refl). assert (arr ++ i = (tak ++ o) ++ bytes_of l') as ->.
      { rewrite Ho, <- !app_assoc. by rewrite Hb. }
      split; [done|by eexists].
  - rewrite !app_nil_r. split; [congruence|by exists lost].
Qed.

(** A thread that cleared the pause and has not finished with it. *)
Definition mid (p : tpc) : bool :=
  match p with Resuming | Restoring | Completing => true | _ => false end.
Definition mid_flush (th : gmap nat tpc) : Prop := ∃ t p, th !! t = Some p ∧ mid p = true.

Definition resume_due (x : sys) : Prop :=
  paused (st x) = true ∨ (0 < resumes x)%nat ∨ mid_flush (threads x).

Definition pausing (a : apc) : bool := match a with A_pausing _ => true | _ => false end.

Record inv (s0 : hcurl_stream) (x : sys) : Prop := Inv {
  i_content : content (st x) (arrived x) (taken x);
  i_shape : shape (st x) = shape s0;
  i_cancel : cancel_sent (st x) = true → closed (st x) = true;
  i_flow : registered x = true → curl_paused x || pausing (agent x) = true →
    closed (st x) = false → terminal_set (st x) = false → resume_due x
}.

Lemma mid_insert th t p :
  mid_flush th → (∀ q, th !! t = Some q → mid q = true → mid p = true) → mid_flush (<[t := p]> th).
Proof.
  intros (u & q & Hu & Hq) Ht. destruct (decide (t = u)) as [->|Hne].
  - exists u, p. rewrite lookup_insert_eq. eauto.
  - exists u, q. by rewrite lookup_insert_ne.
Qed.
Lemma mid_delete th t :
  mid_flush th → (∀ q, th !! t = Some q → mid q = false) → mid_flush (delete t th).
Proof.
  intros (u & q & Hu & Hq) Ht. exists u, q. rewrite lookup_delete_ne; [done|].
  intros ->. by rewrite (Ht q Hu) in Hq.
Qed.
Lemma mid_new th t p : mid p = true → mid_flush (<[t := p]> th).
Proof. intros Hp. exists t, p. by rewrite lookup_insert_eq. Qed.

(** A section that does not bring the stream nearer to its end, followed by
    nothing that takes a resume away. *)
Lemma inv_section s0 x s' l l' ac out i o y :
  inv s0 x → sok (st x) l → (closed (st x) = false → arrived x = taken x ++ bytes_of l) →
  same_end (st x) s' → sec (st x) l s' l' ac out i o →
  st y = s' → arrived y = arrived x ++ i → taken y = taken x ++ o →
  registered y = registered x → resumes y = resumes x →
  (curl_paused y || pausing (agent y) = true →
    paused s' = true ∨ curl_paused x || pausing (agent x) = true) →
  (mid_flush (threads x) → mid_flush (threads y)) → inv s0 y.
Proof.
  intros [[l0 (_ & _ & Hlost)] Hsh Hca Hfl] Hs Ho [[= E1 E2 E3] Hp] (Hs' & _ & Hm)
    Hst Harr Htak Hreg Hres Hpau Hth. split; rewrite ?Hst.
  - rewrite Harr, Htak. by eapply content_moved.
  - destruct Hm as [-> _]. done.
  - rewrite E3, E1. done.
  - rewrite E1, E2, Hreg. intros Hr Hpa Hc Ht. unfold resume_due. rewrite Hst, Hres.
    destruct (Hpau Hpa) as [?|Hpx]; [by left|]. destruct (Hfl Hr Hpx Hc Ht) as [?|[?|?]]; auto.
Qed.

Definition enabled_ok (s0 : hcurl_stream) (o : outcome) : Prop :=
  ∀ r, o = Some r → ∃ y, r = Some y ∧ inv s0 y.

Lemma atomically_run {A} (m : M hcurl_stream A) x k a s es :
  m (st x) = Some (a, s, es) → atomically m x k = go (k a (x <| st := s |>)).
Proof. unfold atomically. by intros ->. Qed.

Lemma enabled_go s0 x : inv s0 x → enabled_ok s0 (go x).
Proof. intros Hx r [= <-]. eauto. Qed.
Lemma enabled_when s0 b o : (b = true → enabled_ok s0 o) → enabled_ok s0 (when b o).
Proof. destruct b; [auto|done]. Qed.

(** ** Every step preserves it *)

(** The step is a section, by [Hsec], that keeps the end away, by [K]. *)
Ltac by_section K :=
  match goal with
  | Hx : inv _ ?x, Hs : sok (st ?x) _, Ho : closed (st ?x) = false → _, Hsec : sec (st ?x) _ _ _ _ _ _ _ |- _ =>
      refine (inv_section _ _ _ _ _ _ _ _ _ _ Hx Hs Ho _ Hsec _ _ _ _ _ _ _);
      [by eapply K|try done; by rewrite app_nil_r..|auto|auto]; try done
  end.

Lemma read_inv s0 x t :
  inv s0 x → threads x !! t = None → kind (st x) = HCURL_STREAM_DOWNLOAD →
  enabled_ok s0 (call_read t x).
Proof.
  intros Hx Ht Hk. destruct (i_content _ _ Hx) as (l & Hs & Ho & _).
  destruct (read_section_ok (st x) l Hs Hk) as (r & s' & l' & Hr & Hpost).
  unfold call_read. rewrite (atomically_run _ _ _ _ _ _ Hr). apply enabled_go.
  destruct r as [d n resume|result code].
  - destruct Hpost as (b & c & _ & -> & _ & _ & -> & _ & Hsec).
    destruct (paused (st x)); by_section keeps_read.
    cbn. intros Hm. apply mid_insert; [done|]. intros q Hq. congruence.
  - destruct Hpost as (-> & _). by destruct x.
Qed.

Lemma write_inv s0 x t alloc d :
  inv s0 x → threads x !! t = None → kind (st x) = HCURL_STREAM_UPLOAD → Zlen d ≤ SIZE_MAX →
  enabled_ok s0 (call_write t alloc d x).
Proof.
  intros Hx Ht Hk Hd. destruct (i_content _ _ Hx) as (l & Hs & Ho & _).
  destruct (write_section_ok (H := alloc) (st x) l d (Zlen d) Hs Hk eq_refl Hd) as (r & s' & l' & Hr & Hpost).
  unfold call_write. rewrite (atomically_run _ _ _ _ _ _ Hr). apply enabled_go.
  destruct r as [resume|result code].
  - destruct Hpost as (-> & _ & Hsec & _).
    destruct (paused (st x)); by_section keeps_write.
    cbn. intros Hm. apply mid_insert; [done|]. intros q Hq. congruence.
  - destruct Hpost as (-> & _). by destruct x.
Qed.

Lemma deliver_inv s0 x alloc d :
  inv s0 x → agent x = A_curl → kind (st x) = HCURL_STREAM_DOWNLOAD → 0 < Zlen d ≤ SIZE_MAX →
  enabled_ok s0 (deliver alloc d x).
Proof.
  intros Hx Ha Hk Hd. destruct (i_content _ _ Hx) as (l & Hs & Ho & _).
  destruct (deliver_section_ok (H := alloc) (st x) l d (Zlen d) Hs Hk eq_refl Hd) as (r & s' & l' & Hr & Hpost).
  unfold deliver. rewrite (atomically_run _ _ _ _ _ _ Hr). apply enabled_go.
  destruct r as [| |e w].
  - destruct Hpost as [-> _]. by destruct x.
  - destruct Hpost as (-> & -> & _ & Hsec). by_section keeps_deliver.
  - destruct Hpost as (_ & -> & Hsec & Hp & -> & _ & _).
    destruct (bool_decide (count s' = capacity s')); [rewrite orb_true_r in Hp|];
      [destruct (easy (st x))|]; by_section keeps_deliver.
Qed.

Lemma feed_inv s0 x room :
  inv s0 x → agent x = A_curl → kind (st x) = HCURL_STREAM_UPLOAD → 0 < room ≤ SIZE_MAX →
  enabled_ok s0 (feed room x).
Proof.
  intros Hx Ha Hk Hd. destruct (i_content _ _ Hx) as (l & Hs & Ho & _).
  destruct (feed_section_ok (st x) l room Hs Hk Hd) as (r & s' & l' & Hr & Hpost).
  unfold feed. rewrite (atomically_run _ _ _ _ _ _ Hr). apply enabled_go.
  destruct r as [copied w|result].
  - destruct Hpost as (_ & Hsec & _). by_section keeps_feed.
  - destruct Hpost as (Hsec & Hp). case_bool_decide as Hpause.
    + destruct (Hp Hpause) as [_ Hp']. by_section keeps_feed.
    + by_section keeps_feed.
Qed.

(** Control sections change the flags only. *)
Lemma content_flags s arr tak s' :
  content s arr tak → (∀ l, sok s l → sec s l s' l [] [] [] []) → closed s' = closed s →
  content s' arr tak.
Proof.
  intros (l & Hs & Ho & Hlost) Hsec _. destruct (Hsec l Hs) as (Hs' & _ & Hm).
  rewrite <- (app_nil_r arr), <- (app_nil_r tak). by eapply content_moved.
Qed.

Lemma run_flushing s0 x t ans :
  inv s0 x → threads x !! t = Some Flushing → enabled_ok s0 (run_thread t ans Flushing x).
Proof.
  intros [Hc Hsh Hca Hfl] Ht. cbn [run_thread]. unfold atomically, flush_section.
  cbv [mbind M_bind gets modify mret M_ret].
  destruct (paused (st x) && negb (closed (st x)) && negb (terminal_set (st x))
    && negb (cancel_sent (st x))) eqn:E; apply enabled_go; split; cbn; try done.
  - eapply content_flags; [exact Hc| |done]. intros l Hs. by apply sec_flags.
  - intros _ _ _ _. right. right. by apply mid_new.
  - intros Hr Hp Hcl Htm. destruct (Hfl Hr Hp Hcl Htm) as [Hpa|[Hq|Hm]].
    + rewrite Hpa, Hcl, Htm in E. cbn in E. apply negb_false_iff in E. rewrite Hca in Hcl; done.
    + right. by left.
    + right. right. apply mid_delete; [done|]. intros q Hq. cbn in Hq. by simplify_eq.
Qed.

Lemma run_resuming s0 x t ans :
  inv s0 x → threads x !! t = Some Resuming → enabled_ok s0 (run_thread t ans Resuming x).
Proof.
  intros [Hc Hsh Hca Hfl] Ht. cbn [run_thread]. apply enabled_go.
  destruct ans; split; try done; intros _ _ _ _; [right; left; cbn; lia|right; right; by apply mid_new..].
Qed.

Lemma run_restoring s0 x t ans :
  inv s0 x → threads x !! t = Some Restoring → enabled_ok s0 (run_thread t ans Restoring x).
Proof.
  intros [Hc Hsh Hca Hfl] Ht. cbn [run_thread].
  unfold atomically, restore_pause_section, modify. apply enabled_go.
  set (b := negb (closed (st x)) && negb (terminal_set (st x)) && negb (cancel_sent (st x))).
  assert (b = false → closed (st x) = false → terminal_set (st x) = false → False) as Hb.
  { unfold b. intros E Hcl Htm. rewrite Hcl, Htm in E. cbn in E. apply negb_false_iff in E.
    rewrite Hca in Hcl; done. }
  split; cbn; destruct b; try done; cbn.
  - eapply content_flags; [exact Hc| |done]. intros l Hs. by apply sec_flags.
  - intros _ _ _ _. by left.
  - intros _ _ Hcl Htm. by destruct Hb.
Qed.

Lemma run_cancelling s0 x t ans :
  inv s0 x → threads x !! t = Some Cancelling → enabled_ok s0 (run_thread t ans Cancelling x).
Proof.
  intros [Hc Hsh Hca Hfl] Ht. cbn [run_thread]. apply enabled_go.
  destruct ans; split; try done; intros Hr Hp Hcl Htm;
    (destruct (Hfl Hr Hp Hcl Htm) as [?|[?|Hm]]; [by left|right; by left|right; right]);
    ((apply mid_delete || apply mid_insert); [done|]; intros q Hq; cbn in Hq; by simplify_eq).
Qed.

Lemma run_uncancelling s0 x t ans :
  inv s0 x → threads x !! t = Some Uncancelling → enabled_ok s0 (run_thread t ans Uncancelling x).
Proof.
  intros [Hc Hsh Hca Hfl] Ht. cbn [run_thread].
  unfold atomically, uncancel_section, modify. apply enabled_go.
  assert (resume_due x → resume_due (return_ t x)) as Hdue.
  { intros [?|[?|Hm]]; [by left|right; by left|right; right].
    apply mid_delete; [done|]. intros q Hq. cbn in Hq. by simplify_eq. }
  unfold resume_due in *. split; cbn; destruct (terminal_set (st x)) eqn:Htm; cbn; try done;
    try (intros; congruence).
  - eapply content_flags; [exact Hc| |done]. intros l Hs. by apply sec_flags.
  - intros Hr Hp Hcl _. by apply Hdue, Hfl.
Qed.

(** The terminal state is set; nothing has to be resumed any more. *)
Lemma complete_inv s0 x code (f : sys → sys) :
  inv s0 x → (∀ y, st (f y) = st y ∧ arrived (f y) = arrived y ∧ taken (f y) = taken y) →
  enabled_ok s0 (atomically (complete_section code) x (λ _ y, f y)).
Proof.
  intros [(l & Hs & Ho & Hl) Hsh Hca _] Hf.
  destruct (complete_section_ok (st x) l code Hs) as
    (r & w & s' & Hr & _ & _ & (Hs' & _ & Hm) & _ & Ht & _ & _ & Hc & _ & _ & K).
  rewrite (atomically_run _ _ _ _ _ _ Hr). apply enabled_go.
  assert (st (f (x <| st := s' |>)) = s') as F1 by (etransitivity; [apply Hf|done]).
  assert (arrived (f (x <| st := s' |>)) = arrived x) as F2 by (etransitivity; [apply Hf|done]).
  assert (taken (f (x <| st := s' |>)) = taken x) as F3 by (etransitivity; [apply Hf|done]).
  split; cbv beta; rewrite ?F1, ?F2, ?F3.
  - rewrite <- (app_nil_r (arrived x)), <- (app_nil_r (taken x)). by eapply content_moved.
  - destruct Hm as [-> _]. done.
  - by rewrite K, Hc.
  - congruence.
Qed.

Lemma close_inv s0 x t : inv s0 x → enabled_ok s0 (call_close t x).
Proof.
  intros [(l & Hs & Ho & Hl) Hsh Hca _].
  destruct (close_section_ok (st x) l Hs) as
    (b & r & w & s' & Hr & _ & _ & (Hs' & _ & Hm) & _ & Hc & _).
  unfold call_close. rewrite (atomically_run _ _ _ _ _ _ Hr). apply enabled_go.
  assert (inv s0 (x <| st := s' |>)) as H1.
  { split; cbn; try congruence.
    - rewrite <- (app_nil_r (arrived x)), <- (app_nil_r (taken x)). by eapply content_moved.
    - destruct Hm as [-> _]. done. }
  destruct b; [|done]. destruct H1 as [H1 H2 H3 H4]. split; try done. cbn. congruence.
Qed.

(** A change of the agent's books. *)
Lemma inv_agent s0 x y :
  inv s0 x → st y = st x → arrived y = arrived x → taken y = taken x →
  (registered y = true → curl_paused y || pausing (agent y) = true →
    registered x = true ∧ curl_paused x || pausing (agent x) = true ∧
    threads y = threads x ∧ resumes y = resumes x) → inv s0 y.
Proof.
  intros [Hc Hsh Hca Hfl] H1 H2 H3 H4. split; rewrite ?H1, ?H2, ?H3; try done.
  intros Hr Hp. destruct (H4 Hr Hp) as (Hr' & Hp' & Ht & Hn).
  unfold resume_due. rewrite H1, Ht, Hn. by apply Hfl.
Qed.

Lemma run_thread_inv s0 x t ans p :
  inv s0 x → threads x !! t = Some p → enabled_ok s0 (run_thread t ans p x).
Proof.
  intros Hx Ht. destruct p; [by apply run_flushing|by apply run_resuming|by apply run_restoring|
    by apply run_cancelling|by apply run_uncancelling|].
  by apply complete_inv.
Qed.

Lemma wait_inv s0 x (m : M hcurl_stream hcurl_stream_wait_result) :
  inv s0 x → keeps same_end m →
  (∀ l, sok (st x) l → ∃ r s' ac, m (st x) = Some (r, s', []) ∧ sec (st x) l s' l ac [] [] []) →
  enabled_ok s0 (atomically m x (λ _ x, x)).
Proof.
  intros Hx K Hm. destruct (i_content _ _ Hx) as (l & Hs & Ho & _).
  destruct (Hm l Hs) as (r & s' & ac & Hr & Hsec).
  rewrite (atomically_run _ _ _ _ _ _ Hr). apply enabled_go. by_section K.
Qed.

Lemma finish_inv s0 x t :
  inv s0 x → threads x !! t = None → enabled_ok s0 (call_finish t x).
Proof.
  intros Hx Ht. destruct (i_content _ _ Hx) as (l & Hs & Ho & _). unfold call_finish.
  assert (∃ r s', finish_section (st x) = Some (r, s', []) ∧ sec (st x) l s' l [] [] [] [])
    as (r & s' & Hr & Hsec).
  { unfold finish_section. cbv [mbind M_bind gets modify mret M_ret].
    destruct (closed (st x)); [eexists _, _; split; [done|by apply sec_refl]|].
    destruct (terminal_set (st x)); [eexists _, _; split; [done|by apply sec_refl]|].
    eexists _, _. split; [done|]. by apply sec_flags. }
  rewrite (atomically_run _ _ _ _ _ _ Hr). apply enabled_go.
  destruct r as [[]|]; by_section keeps_finish.
  cbn. intros Hm. apply mid_insert; [done|]. intros q Hq. congruence.
Qed.

Lemma inv_call_flush s0 x t : inv s0 x → threads x !! t = None → inv s0 (goto t Flushing x).
Proof.
  intros [Hc Hsh Hca Hfl] Ht. split; try done. intros Hr Hp Hcl Htm.
  destruct (Hfl Hr Hp Hcl Htm) as [?|[?|Hm]]; [by left|right; by left|right; right].
  apply mid_insert; [done|]. intros q Hq. congruence.
Qed.

Lemma act_inv s0 x a : inv s0 x → enabled_ok s0 (act a x).
Proof.
  intros Hx. pose proof (i_content _ _ Hx) as (l & Hs & _). destruct a; cbn [act].
  - apply enabled_when. intros [Ht Hk]%andb_prop. apply read_inv; try done; by eapply bool_decide_eq_true.
  - apply enabled_when. intros [[Ht Hk]%andb_prop Hd]%andb_prop.
    apply write_inv; try done; by eapply bool_decide_eq_true.
  - apply enabled_when. intros [Ht Hk]%andb_prop. apply finish_inv; try done; by eapply bool_decide_eq_true.
  - apply enabled_when. intros Ht%bool_decide_eq_true. apply enabled_go. by apply inv_call_flush.
  - apply enabled_when. intros _. by apply close_inv.
  - apply enabled_when. intros Hk%bool_decide_eq_true.
    apply wait_inv; [done|apply keeps_wait_read|]. intros l' Hs'.
    destruct (wait_read_section_ok _ _ mvar0 capability0 Hs' Hk) as (r & s' & ?). eauto.
  - apply enabled_when. intros Hk%bool_decide_eq_true.
    apply wait_inv; [done|apply keeps_wait_write|]. intros l' Hs'.
    destruct (wait_write_section_ok _ _ mvar0 capability0 Hs' Hk) as (r & s' & ?). eauto.
  - destruct (threads x !! t) as [p|] eqn:Ht; [|done]. by apply run_thread_inv.
  - destruct (agent x) eqn:Ha; [|done..]. apply enabled_when. intros [[Hk _]%andb_prop Hd]%andb_prop.
    apply deliver_inv; try done; by eapply bool_decide_eq_true.
  - destruct (agent x) eqn:Ha; [|done..]. apply enabled_when. intros [[Hk _]%andb_prop Hd]%andb_prop.
    apply feed_inv; try done; by eapply bool_decide_eq_true.
  - destruct (agent x) eqn:Ha; [done| |done]. apply enabled_go.
    apply (inv_agent s0 x); [done|by destruct (bool_decide _)..|].
    intros Hr _. rewrite Ha, orb_true_r. by destruct (bool_decide _).
  - destruct (agent x) eqn:Ha; [|done..]. destruct (resumes x) eqn:Hn; [done|]. apply enabled_go.
    change (registered (x <| resumes := n |>)) with (registered x).
    destruct (registered x) eqn:Hreg; cbn [negb];
      [destruct (bool_decide (answer = CURLE_OK))|]; apply (inv_agent s0 x); try done; cbn.
    + by rewrite Ha.
    + congruence.
  - destruct (agent x) eqn:Ha; [|done..]. destruct (cancels x) eqn:Hn; [done|]. apply enabled_go.
    change (registered (x <| cancels := n |>)) with (registered x).
    destruct (registered x) eqn:Hreg; apply (inv_agent s0 x); try done; cbn; congruence.
  - destruct (agent x) eqn:Ha; [|done..]. apply enabled_when. intros _. apply enabled_go.
    by apply (inv_agent s0 x).
  - destruct (agent x) eqn:Ha; [done..|]. apply (complete_inv s0 _ code (λ y, y)); [|done].
    apply (inv_agent s0 x); try done. intros Hr. cbn in *. by rewrite Ha.
Qed.

Lemma flow_reachable_inv `{Allocator} k cap id e s x :
  hcurl_stream_create 0 k cap true id = Some s → 0 ≤ cap → reachable e s x → inv s x.
Proof.
  intros Hs Hcap. destruct (create_ok _ _ _ _ _ _ Hs Hcap) as (Hok & _ & _ & _ & Hcl & _ & _).
  assert (cancel_sent s = false) as Hca.
  { revert Hs. unfold hcurl_stream_create. repeat case_match; try done. by intros [= <-]. }
  assert (inv s (initial e s)) as H0.
  { split; cbn; [|done|congruence|done]. exists []. split; [|split; [done|by exists []]].
    eapply sec_flags; [exact Hok|done..]. }
  unfold reachable. revert H0. generalize (initial e s) as x0.
  intros x0 H0 Hr. induction Hr as [|x0 x1 x2 [a Ha] _ IH]; [done|]. apply IH.
  destruct (act_inv _ _ a H0 _ Ha) as (y & [= <-] & Hy). done.
Qed.

(** ** The theorems *)

(** C15: No resume is lost, whatever the interleaving.  As long as libcurl has
    the transfer paused, or is about to pause it, and the stream is neither
    closed nor ended, the pause flag is set for the next reader or writer, or a
    resume request is in the control queue, or a thread is between clearing the
    flag and having enqueued the request or put the flag back. *)
Theorem no_lost_resume `{Allocator} k cap id e s x :
  hcurl_stream_create 0 k cap true id = Some s → 0 ≤ cap → reachable e s x →
  registered x = true → curl_paused x || pausing (agent x) = true →
  closed (st x) = false → terminal_set (st x) = false →
  paused (st x) = true ∨ (0 < resumes x)%nat ∨
  ∃ t p, threads x !! t = Some p ∧ mid p = true.
Proof. intros Hs Hcap Hr. by apply (i_flow s x), (flow_reachable_inv _ _ _ _ _ _ Hs Hcap Hr). Qed.

(** C17: Interleaving keeps the stream a pipe.  In every reachable state of the
    threads, libcurl's callbacks and the agent, no step is undefined, what came
    out is a prefix of what was accepted, and the ring of a stream that is not
    closed holds exactly the rest. *)
Theorem interleaved_fifo `{Allocator} k cap id e s x :
  hcurl_stream_create 0 k cap true id = Some s → 0 ≤ cap → reachable e s x →
  (∀ a, act a x ≠ Some None) ∧ capacity (st x) = cap ∧
  ∃ l, holds (st x) l ∧ (∃ lost, arrived x = taken x ++ lost) ∧
    (closed (st x) = false → arrived x = taken x ++ bytes_of l).
Proof.
  intros Hs Hcap Hr. pose proof (flow_reachable_inv _ _ _ _ _ _ Hs Hcap Hr) as Hi.
  destruct (create_ok _ _ _ _ _ _ Hs Hcap) as (_ & _ & Hc & _).
  destruct (i_content _ _ Hi) as (l & Hok & Ho & Hl).
  split; [|split].
  - intros a Ha. destruct (act_inv _ _ a Hi _ Ha) as (y & [=] & _).
  - pose proof (i_shape _ _ Hi) as [= _ E]. congruence.
  - exists l. split; [apply Hok|done].
Qed.

(** What a stalled transfer needs: interrupted calls go on, a fresh thread
    flushes, and the control queue and libcurl accept. *)
Definition cooperative (a : action) : Prop :=
  match a with
  | Run _ ENQUEUE_MESSAGE_OK | Call_flush _ => True
  | Take_resume r => r = CURLE_OK
  | _ => False
  end.

Definition recovers (x : sys) : Prop :=
  ∃ acts y, Forall cooperative acts ∧ run acts x = Some (Some y) ∧
    (curl_paused y = false ∨ terminal_set (st y) = true).

Lemma recovers_step a x y :
  cooperative a → act a x = Some (Some y) → recovers y → recovers x.
Proof.
  intros Ha Hy (acts & z & Hc & Hr & Hz). exists (a :: acts), z. split; [by constructor|].
  split; [|done]. cbn [run]. by rewrite Hy.
Qed.

Lemma recovers_resume x :
  agent x = A_curl → registered x = true → (0 < resumes x)%nat → recovers x.
Proof.
  intros Ha Hreg Hn. destruct (resumes x) as [|n] eqn:E; [lia|].
  exists [Take_resume CURLE_OK], (x <| resumes := n |> <| curl_paused := false |>).
  split; [by repeat constructor|]. split; [|by left]. cbn [run act]. rewrite Ha, E. cbn. by rewrite Hreg.
Qed.

Lemma recovers_resuming x t :
  agent x = A_curl → registered x = true → threads x !! t = Some Resuming → recovers x.
Proof.
  intros Ha Hreg Ht. eapply (recovers_step (Run t ENQUEUE_MESSAGE_OK)); [done| |].
  - cbn [act]. rewrite Ht. reflexivity.
  - apply recovers_resume; cbn; [done|done|lia].
Qed.

Lemma recovers_paused x t :
  agent x = A_curl → registered x = true → threads x !! t = None → paused (st x) = true →
  closed (st x) = false → terminal_set (st x) = false → cancel_sent (st x) = false → recovers x.
Proof.
  intros Ha Hreg Ht Hp Hcl Htm Hca. eapply (recovers_step (Call_flush t)); [done| |].
  { cbn [act]. unfold fresh_thread. rewrite bool_decide_true by done. reflexivity. }
  eapply (recovers_step (Run t ENQUEUE_MESSAGE_OK)); [done| |].
  { cbn [act]. unfold goto. cbn. rewrite lookup_insert_eq. cbn.
    rewrite (atomically_run _ _ _ _ _ _ (flush_section_eq _)). cbn.
    rewrite Hp, Hcl, Htm, Hca. reflexivity. }
  apply (recovers_resuming _ t); [done|done|]. cbn. by rewrite lookup_insert_eq.
Qed.

(** C16: A stalled transfer can always be set going again.  In every reachable
    state where libcurl has the transfer paused and the stream is neither closed
    nor ended, letting interrupted calls go on and flushing, with a control
    queue that accepts and a libcurl that resumes, leads to a state where the
    transfer is not paused or has ended. *)
Theorem stalled_flow_recovers `{Allocator} k cap id e s x :
  hcurl_stream_create 0 k cap true id = Some s → 0 ≤ cap → reachable e s x →
  registered x = true → agent x = A_curl → curl_paused x = true →
  closed (st x) = false → terminal_set (st x) = false →
  ∃ acts y, Forall cooperative acts ∧ run acts x = Some (Some y) ∧
    (curl_paused y = false ∨ terminal_set (st y) = true).
Proof.
  intros Hs Hcap Hr Hreg Ha Hp Hcl Htm.
  pose proof (flow_reachable_inv _ _ _ _ _ _ Hs Hcap Hr) as [(l & Hok & _) _ Hca Hfl].
  assert (cancel_sent (st x) = false) as Hcs.
  { destruct (cancel_sent (st x)); [|done]. rewrite Hca in Hcl; done. }
  destruct Hfl as [Hpa|[Hn|(t & p & Ht & Hm)]]; [done|by rewrite Hp|done|done|..].
  - apply (recovers_paused x (base.fresh (dom (threads x) : gset nat))); try done.
    apply not_elem_of_dom, is_fresh.
  - by apply recovers_resume.
  - destruct p; try done.
    + by apply (recovers_resuming x t).
    + eapply (recovers_step (Run t ENQUEUE_MESSAGE_OK)); [done| |].
      { cbn [act]. rewrite Ht. cbn [mbind option_bind run_thread]. unfold atomically.
        cbv [restore_pause_section modify]. rewrite Hcl, Htm, Hcs. reflexivity. }
      apply (recovers_paused _ t); try done. cbn. by rewrite lookup_delete_eq.
    + destruct (complete_section_ok (st x) l CURLE_ABORTED_BY_CALLBACK Hok)
        as (r & w & s' & Hc & _ & _ & _ & _ & Hset & _).
      exists [Run t ENQUEUE_MESSAGE_OK], (return_ t (x <| st := s' |>)).
      split; [by repeat constructor|]. split; [|by right]. cbn [run act]. rewrite Ht.
      cbn [mbind option_bind run_thread]. by rewrite (atomically_run _ _ _ _ _ _ Hc).
Qed.

(** A download of capacity one that fills its ring, is paused, and whose reader
    stands between clearing the flag and enqueueing the request. *)
Definition demo : hcurl_stream :=
  Mk HCURL_STREAM_DOWNLOAD [no_chunk] 1 0 0 0 false false false false false CURLE_OK
    false Waker.zero false Waker.zero 7 None.
Definition demo_acts : list action :=
  [Deliver alloc_always ["a"]%char; Pause CURLE_OK; Call_read 1; Run 1 ENQUEUE_MESSAGE_OK].

Lemma paused_demo_created : hcurl_stream_create (H := alloc_always) 0 HCURL_STREAM_DOWNLOAD 1 true 7 = Some demo.
Proof. vm_compute. reflexivity. Defined.

Lemma flow_run_reachable e s acts x : run acts (initial e s) = Some (Some x) → reachable e s x.
Proof.
  unfold reachable. generalize (initial e s). induction acts as [|a acts IH]; intros x0 Hr.
  - injection Hr as ->. apply rtc_refl.
  - cbn [run] in Hr. destruct (act a x0) as [[x1|]|] eqn:E; [|done|done].
    eapply rtc_l; [by exists a|]. by apply IH.
Qed.

Definition demo_state : sys := default (initial None demo) (default None (run demo_acts (initial (Some 5%positive) demo))).
Lemma demo_reachable : reachable (Some 5%positive) demo demo_state.
Proof. apply (flow_run_reachable _ _ demo_acts). vm_compute. reflexivity. Defined.

Lemma no_lost_resume_witness :
  curl_paused demo_state = true ∧ paused (st demo_state) = false ∧ resumes demo_state = 0%nat ∧
  (paused (st demo_state) = true ∨ (0 < resumes demo_state)%nat ∨
   ∃ t p, threads demo_state !! t = Some p ∧ mid p = true).
Proof.
  split; [by vm_compute|]. split; [by vm_compute|]. split; [by vm_compute|].
  apply (no_lost_resume (H := alloc_always) _ _ _ _ _ _ paused_demo_created ltac:(lia) demo_reachable);
    by vm_compute.
Defined.

Lemma stalled_flow_recovers_witness :
  ∃ acts y, Forall cooperative acts ∧ run acts demo_state = Some (Some y) ∧
    (curl_paused y = false ∨ terminal_set (st y) = true).
Proof.
  apply (stalled_flow_recovers (H := alloc_always) _ _ _ _ _ _ paused_demo_created ltac:(lia) demo_reachable);
    by vm_compute.
Defined.

Lemma interleaved_fifo_witness :
  arrived demo_state = ["a"]%char ∧ taken demo_state = ["a"]%char ∧
  (∀ a, act a demo_state ≠ Some None) ∧ capacity (st demo_state) = 1 ∧
  ∃ l, holds (st demo_state) l ∧ (∃ lost, arrived demo_state = taken demo_state ++ lost) ∧
    (closed (st demo_state) = false → arrived demo_state = taken demo_state ++ bytes_of l).
Proof.
  split; [by vm_compute|]. split; [by vm_compute|].
  exact (interleaved_fifo (H := alloc_always) _ _ _ _ _ _ paused_demo_created ltac:(lia) demo_reachable).
Defined.

End Flow.
