(* ===== verification/Options.v ===== *)
(** * The option adapters ([cbits/options.c], [cbits/options.h])

    Fixed-arity functions in front of the variadic [curl_easy_setopt]: two that take
    an option of the library and are type-safe, and two raw ones that are not.  libcurl
    reads the variadic argument as the type that the number of the option says:
    from 0 a [long], from 10000 a pointer. *)

From S2P Require Import Prelude.

Open Scope Z_scope.

Module Options.

(** [enum hcurl_easy_option]. *)
Inductive hcurl_easy_option :=
  | HCURL_OPT_HTTP_VERSION
  | HCURL_OPT_PIPE_WAIT
  | HCURL_OPT_FOLLOW_LOCATION
  | HCURL_OPT_NO_SIGNAL
  | HCURL_OPT_SSL_VERIFY_PEER
  | HCURL_OPT_TCP_FAST_OPEN
  | HCURL_OPT_TCP_KEEP_ALIVE
  | HCURL_OPT_TIMEOUT_MS
  | HCURL_OPT_CONNECT_TIMEOUT_MS
  | HCURL_OPT_LOW_SPEED_TIME
  | HCURL_OPT_LOW_SPEED_LIMIT
  | HCURL_OPT_ACCEPT_ENCODING
  | HCURL_OPT_IP_RESOLVE
  | HCURL_OPT_SSL_VERIFY_HOST.
#[export] Instance hcurl_easy_option_eq_dec : EqDecision hcurl_easy_option.
Proof. solve_decision. Defined.

(** The numbers of [curl/curl.h]. *)
Abbreviation CURLOPT_LOW_SPEED_LIMIT := 19.
Abbreviation CURLOPT_LOW_SPEED_TIME := 20.
Abbreviation CURLOPT_FOLLOWLOCATION := 52.
Abbreviation CURLOPT_SSL_VERIFYPEER := 64.
Abbreviation CURLOPT_SSL_VERIFYHOST := 81.
Abbreviation CURLOPT_HTTP_VERSION := 84.
Abbreviation CURLOPT_NOSIGNAL := 99.
Abbreviation CURLOPT_IPRESOLVE := 113.
Abbreviation CURLOPT_TIMEOUT_MS := 155.
Abbreviation CURLOPT_CONNECTTIMEOUT_MS := 156.
Abbreviation CURLOPT_TCP_KEEPALIVE := 213.
Abbreviation CURLOPT_PIPEWAIT := 237.
Abbreviation CURLOPT_TCP_FASTOPEN := 244.
Abbreviation CURLOPT_ENCODING := 10102.
Abbreviation CURLOPT_ACCEPT_ENCODING := 10102.

(** The variadic argument. *)
Inductive argument := Arg_long (value : Z) | Arg_string (value : bytes).

(** What libcurl reads for an option. *)
Definition well_typed (opt : Z) (a : argument) : Prop :=
  match a with Arg_long _ => 0 ≤ opt < 10000 | Arg_string _ => 10000 ≤ opt < 20000 end.

(** libcurl: its state, the version compiled against, the variadic call. *)
Class Setopt := {
  state : Type;
  LIBCURL_VERSION_NUM : Z;
  curl_easy_setopt : ptr → Z → argument → state → Z * state
}.

Section options.
Context `{Setopt}.

Definition refuse : state → Z * state := λ c, (CURLE_BAD_FUNCTION_ARGUMENT, c).

(** Code for libcurl [version] and later. *)
Definition since (version : Z) (call : state → Z * state) : state → Z * state :=
  if bool_decide (version ≤ LIBCURL_VERSION_NUM) then call else refuse.

Definition hcurl_raw_easy_setopt_long (easy : option ptr) (opt value : Z) : state → Z * state :=
  match easy with
  | None => refuse
  | Some easy => curl_easy_setopt easy opt (Arg_long value)
  end.

Definition hcurl_raw_easy_setopt_string (easy : option ptr) (opt : Z) (value : option bytes) :
    state → Z * state :=
  match easy, value with
  | Some easy, Some value => curl_easy_setopt easy opt (Arg_string value)
  | _, _ => refuse
  end.

Definition hcurl_easy_setopt_long (easy : option ptr) (opt : hcurl_easy_option) (value : Z) :
    state → Z * state :=
  match easy with
  | None => refuse
  | Some easy =>
      match opt with
      | HCURL_OPT_HTTP_VERSION => curl_easy_setopt easy CURLOPT_HTTP_VERSION (Arg_long value)
      | HCURL_OPT_PIPE_WAIT =>
          since 0x072b00 (curl_easy_setopt easy CURLOPT_PIPEWAIT (Arg_long value))
      | HCURL_OPT_FOLLOW_LOCATION => curl_easy_setopt easy CURLOPT_FOLLOWLOCATION (Arg_long value)
      | HCURL_OPT_NO_SIGNAL => curl_easy_setopt easy CURLOPT_NOSIGNAL (Arg_long value)
      | HCURL_OPT_SSL_VERIFY_PEER => curl_easy_setopt easy CURLOPT_SSL_VERIFYPEER (Arg_long value)
      | HCURL_OPT_TCP_FAST_OPEN =>
          since 0x073100 (curl_easy_setopt easy CURLOPT_TCP_FASTOPEN (Arg_long value))
      | HCURL_OPT_TCP_KEEP_ALIVE =>
          since 0x071900 (curl_easy_setopt easy CURLOPT_TCP_KEEPALIVE (Arg_long value))
      | HCURL_OPT_TIMEOUT_MS => curl_easy_setopt easy CURLOPT_TIMEOUT_MS (Arg_long value)
      | HCURL_OPT_CONNECT_TIMEOUT_MS =>
          curl_easy_setopt easy CURLOPT_CONNECTTIMEOUT_MS (Arg_long value)
      | HCURL_OPT_LOW_SPEED_TIME => curl_easy_setopt easy CURLOPT_LOW_SPEED_TIME (Arg_long value)
      | HCURL_OPT_LOW_SPEED_LIMIT => curl_easy_setopt easy CURLOPT_LOW_SPEED_LIMIT (Arg_long value)
      | HCURL_OPT_IP_RESOLVE => curl_easy_setopt easy CURLOPT_IPRESOLVE (Arg_long value)
      | HCURL_OPT_SSL_VERIFY_HOST => curl_easy_setopt easy CURLOPT_SSL_VERIFYHOST (Arg_long value)
      | HCURL_OPT_ACCEPT_ENCODING => refuse
      end
  end.

Definition hcurl_easy_setopt_string (easy : option ptr) (opt : hcurl_easy_option)
    (value : option bytes) : state → Z * state :=
  match easy, value with
  | Some easy, Some value =>
      match opt with
      | HCURL_OPT_ACCEPT_ENCODING =>
          if bool_decide (0x071506 ≤ LIBCURL_VERSION_NUM)
          then curl_easy_setopt easy CURLOPT_ACCEPT_ENCODING (Arg_string value)
          else curl_easy_setopt easy CURLOPT_ENCODING (Arg_string value)
      | _ => refuse
      end
  | _, _ => refuse
  end.

(** ** Specification *)

(** The libcurl option that an option of the library stands for, and the version
    that has it. *)
Definition target (o : hcurl_easy_option) : Z * Z :=
  match o with
  | HCURL_OPT_HTTP_VERSION => (CURLOPT_HTTP_VERSION, 0)
  | HCURL_OPT_PIPE_WAIT => (CURLOPT_PIPEWAIT, 0x072b00)
  | HCURL_OPT_FOLLOW_LOCATION => (CURLOPT_FOLLOWLOCATION, 0)
  | HCURL_OPT_NO_SIGNAL => (CURLOPT_NOSIGNAL, 0)
  | HCURL_OPT_SSL_VERIFY_PEER => (CURLOPT_SSL_VERIFYPEER, 0)
  | HCURL_OPT_TCP_FAST_OPEN => (CURLOPT_TCP_FASTOPEN, 0x073100)
  | HCURL_OPT_TCP_KEEP_ALIVE => (CURLOPT_TCP_KEEPALIVE, 0x071900)
  | HCURL_OPT_TIMEOUT_MS => (CURLOPT_TIMEOUT_MS, 0)
  | HCURL_OPT_CONNECT_TIMEOUT_MS => (CURLOPT_CONNECTTIMEOUT_MS, 0)
  | HCURL_OPT_LOW_SPEED_TIME => (CURLOPT_LOW_SPEED_TIME, 0)
  | HCURL_OPT_LOW_SPEED_LIMIT => (CURLOPT_LOW_SPEED_LIMIT, 0)
  | HCURL_OPT_ACCEPT_ENCODING => (CURLOPT_ACCEPT_ENCODING, 0)
  | HCURL_OPT_IP_RESOLVE => (CURLOPT_IPRESOLVE, 0)
  | HCURL_OPT_SSL_VERIFY_HOST => (CURLOPT_SSL_VERIFYHOST, 0)
  end.

#[export] Instance target_inj : Inj (=) (=) (λ o, (target o).1).
Proof. intros [] []; cbn; congruence. Qed.

#[export] Instance well_typed_dec n a : Decision (well_typed n a).
Proof. destruct a; apply _. Defined.

(** An adapter either refuses and leaves libcurl alone, or makes the one call
    with the argument [a] for the option [o]. *)
Definition adapts (adapter : state → Z * state) (easy : option ptr) (o : hcurl_easy_option)
    (a : option argument) : Prop :=
  match easy, a with
  | Some e, Some a =>
      if bool_decide (well_typed (target o).1 a ∧ (target o).2 ≤ LIBCURL_VERSION_NUM)
      then adapter = curl_easy_setopt e (target o).1 a else adapter = refuse
  | _, _ => adapter = refuse
  end.

(** An adapter passes the caller's option number on, with the argument [a], or
    refuses a NULL. *)
Definition passes (adapter : state → Z * state) (easy : option ptr) (opt : Z)
    (a : option argument) : Prop :=
  match easy, a with
  | Some e, Some a => adapter = curl_easy_setopt e opt a
  | _, _ => adapter = refuse
  end.

Lemma since_adapts v n (e : ptr) a :
  well_typed n a → since v (curl_easy_setopt e n a) =
    if bool_decide (well_typed n a ∧ v ≤ LIBCURL_VERSION_NUM) then curl_easy_setopt e n a else refuse.
Proof.
  intros Hw. unfold since. rewrite (bool_decide_ext _ (well_typed n a ∧ v ≤ LIBCURL_VERSION_NUM)); [done|].
  by split; [|intros []].
Qed.

(** C40: what the four adapters pass to libcurl.  The two that take an option of
    the library are type-safe: libcurl is called with a [long] only for an option
    that it reads as a [long], and with a string only for one that it reads as a
    string; each option stands for its own option of libcurl; and a NULL handle or
    string, an option of the other type and an option that the libcurl compiled
    against does not have are refused with CURLE_BAD_FUNCTION_ARGUMENT, without a
    call.  The two raw ones refuse NULLs and otherwise pass the caller's number
    with a [long] or a string, whatever type libcurl reads for it: a [long] for
    CURLOPT_ACCEPT_ENCODING, or a string for CURLOPT_TIMEOUT_MS, gets through. *)
Theorem setopt_adapters_type_safe easy o value string :
  0 ≤ LIBCURL_VERSION_NUM →
  adapts (hcurl_easy_setopt_long easy o value) easy o (Some (Arg_long value)) ∧
  adapts (hcurl_easy_setopt_string easy o string) easy o (Arg_string <$> string) ∧
  (∀ o', (target o).1 = (target o').1 → o = o') ∧
  (∀ n, passes (hcurl_raw_easy_setopt_long easy n value) easy n (Some (Arg_long value)) ∧
    passes (hcurl_raw_easy_setopt_string easy n string) easy n (Arg_string <$> string)) ∧
  ∀ e s, easy = Some e → string = Some s →
    (∃ n, ¬ well_typed n (Arg_long value) ∧
      hcurl_raw_easy_setopt_long easy n value = curl_easy_setopt e n (Arg_long value)) ∧
    ∃ n, ¬ well_typed n (Arg_string s) ∧
      hcurl_raw_easy_setopt_string easy n string = curl_easy_setopt e n (Arg_string s).
Proof.
  intros Hv. split; [|split; [|split; [intros o'; apply target_inj|split]]].
  - destruct easy as [e|]; [|done]. unfold adapts, hcurl_easy_setopt_long.
    destruct o; cbn [target fst snd]; try (by rewrite bool_decide_true by (by split; [cbn; lia|]));
      try (rewrite since_adapts by (cbn; lia); by case_bool_decide).
    rewrite bool_decide_false; [done|]. cbn. lia.
  - destruct easy as [e|], string as [s|]; try done. unfold adapts, hcurl_easy_setopt_string.
    cbn [option_fmap option_map fmap].
    destruct o; cbn [target fst snd];
      try (rewrite bool_decide_false; [done|cbn; lia]).
    rewrite (bool_decide_true (well_typed _ _ ∧ _)); [|cbn; lia]. by case_bool_decide.
  - intros n. by destruct easy, string.
  - intros e s -> ->. split; [exists CURLOPT_ACCEPT_ENCODING|exists CURLOPT_TIMEOUT_MS]; (split; [cbn; lia|done]).
Qed.

End options.

(** A libcurl that remembers the last call. *)
#[export] Instance sample_setopt : Setopt := {|
  state := option (ptr * Z * argument);
  LIBCURL_VERSION_NUM := 0x073d00;
  curl_easy_setopt e n a _ := (CURLE_OK, Some (e, n, a))
|}.

Lemma setopt_adapters_type_safe_witness :
  adapts (hcurl_easy_setopt_long (Some 1%positive) HCURL_OPT_TIMEOUT_MS 30000) (Some 1%positive)
    HCURL_OPT_TIMEOUT_MS (Some (Arg_long 30000)) ∧
  hcurl_easy_setopt_long (Some 1%positive) HCURL_OPT_TIMEOUT_MS 30000 None =
    (CURLE_OK, Some (1%positive, CURLOPT_TIMEOUT_MS, Arg_long 30000)) ∧
  hcurl_easy_setopt_long (Some 1%positive) HCURL_OPT_ACCEPT_ENCODING 1 None =
    (CURLE_BAD_FUNCTION_ARGUMENT, None) ∧
  hcurl_raw_easy_setopt_long (Some 1%positive) CURLOPT_ACCEPT_ENCODING 30000 None =
    (CURLE_OK, Some (1%positive, CURLOPT_ACCEPT_ENCODING, Arg_long 30000)).
Proof.
  destruct (setopt_adapters_type_safe (Some 1%positive) HCURL_OPT_TIMEOUT_MS 30000 None) as (H1 & _ & _ & H4 & _);
    [cbn; lia|].
  split; [exact H1|]. split; [reflexivity|]. split; [reflexivity|].
  exact (f_equal (λ f, f None) (proj1 (H4 CURLOPT_ACCEPT_ENCODING))).
Defined.

End Options.
