(* ===== verification/Agent.v ===== *)
(** * The agent's handling of messages and transfers ([cbits/message_chan.c],
    [check_multi_info] of [cbits/curl_uv.c])

    What the agent thread does with the messages it receives and with the
    transfers that libcurl reports as done: the handlers, the completion of a
    transfer, and the shutdown.  The objects that messages point to are in
    memory, so that two transfers may share a record; libcurl is an interface. *)

From S2P Require Import Prelude Extras Headers Registry Metrics Stream.
Import EasyData.

Open Scope Z_scope.
Open Scope record_scope.

(** ** libcurl as the agent uses it

    Each call takes libcurl's state and gives its result code and the new state.
    [multi_info_read] gives whether the message is [CURLMSG_DONE], with its easy
    handle and result; [messages] is the number of queued messages. *)
Class Libcurl := {
  lib : Type;
  setopt_private : ptr → option ptr → lib → Z * lib;
  getinfo_private : ptr → lib → Z * option ptr;
  getinfo_response_code : ptr → lib → Z * Z;
  multi_add_handle : ptr → lib → Z * lib;
  multi_remove_handle : ptr → lib → Z * lib;
  easy_pause_cont : ptr → lib → Z * lib;
  easy_cleanup : ptr → lib → () * lib;
  multi_info_read : lib → option (bool * ptr * Z) * lib;
  messages : lib → nat
}.

(** What the agent relies on: [CURLOPT_PRIVATE] reads back what was set last,
    only added handles that were not removed are reported, and reading and
    removing only shorten the queue of messages. *)
Class LibcurlLaws `{Libcurl} := {
  private_of : lib → ptr → option ptr;
  added : lib → gset ptr;
  setopt_private_law e v c r c' : setopt_private e v c = (r, c') →
    (∀ e', private_of c' e' = if decide (e' = e ∧ r = CURLE_OK) then v else private_of c e') ∧
    added c' = added c ∧ (messages c' ≤ messages c)%nat;
  getinfo_private_law e c v : getinfo_private e c = (CURLE_OK, v) → v = private_of c e;
  multi_add_law e c r c' : multi_add_handle e c = (r, c') →
    private_of c' = private_of c ∧ added c' = (if decide (r = 0) then {[e]} ∪ added c else added c);
  multi_remove_law e c r c' : multi_remove_handle e c = (r, c') →
    private_of c' = private_of c ∧ added c' = added c ∖ {[e]} ∧ (messages c' ≤ messages c)%nat;
  easy_pause_law e c r c' : easy_pause_cont e c = (r, c') →
    private_of c' = private_of c ∧ added c' = added c;
  easy_cleanup_law e c c' : easy_cleanup e c = ((), c') →
    (∀ e', e' ≠ e → private_of c' e' = private_of c e') ∧ added c' = added c ∖ {[e]} ∧
    (messages c' ≤ messages c)%nat;
  multi_info_read_law c m c' : multi_info_read c = (m, c') →
    private_of c' = private_of c ∧ added c' = added c ∧
    match m with
    | Some (_, e, _) => e ∈ added c ∧ (messages c' < messages c)%nat
    | None => messages c' = messages c
    end
}.

Module Agent.

(** [outer_message_execute_payload_t] and [outer_message_t]. *)
Record execute_payload := Payload {
  transfer_id : Z;
  easy : option ptr;
  result : option ptr;
  metrics : option ptr;
  download_stream : option ptr;
  upload_stream : option ptr
}.

Inductive outer_message :=
  | Execute (payload : execute_payload)
  | Cancel (transfer_id : Z)
  | Resume (transfer_id : Z)
  | Stop.

(** A stream in memory, with the pointers to its header record and metrics. *)
Record stream_object := Object {
  object : Stream.hcurl_stream;
  headers_ptr : option ptr;
  metrics_ptr : option ptr
}.
#[export] Instance stream_object_eta : Eta stream_object :=
  λ o, Object (object o) (headers_ptr o) (metrics_ptr o).

Definition sizeof_transfer : Z := 64.

Section agent.
Context `{L : Libcurl} `{I : Metrics.CurlInfo}.

(** The context of the agent and the memory it reaches. *)
Record world := World {
  table : Registry.store;
  chan : list outer_message;
  results : gmap ptr hs_easy_data;
  streams : gmap ptr stream_object;
  header_objects : gmap ptr HeaderData.header_data;
  metric_objects : gmap ptr Metrics.curl_metrics_context;
  curl : lib
}.
#[export] Instance world_eta : Eta world := λ w,
  World (table w) (chan w) (results w) (streams w) (header_objects w) (metric_objects w) (curl w).

(** ** Objects in memory *)

(** A function called on a pointer to a completion record or to metrics. *)
Definition on_object {O A} (get : world → gmap ptr O) `{!Setter get} (p : option ptr)
    (m : M (option O) A) : M world A := λ w,
  match p with
  | None => match m None with Some (a, _, es) => Some (a, w, es) | None => None end
  | Some q =>
      match get w !! q with
      | None => None
      | Some o =>
          match m (Some o) with
          | Some (a, Some o', es) => Some (a, w <| get ::= <[q := o']> |>, es)
          | _ => None
          end
      end
  end.

(** The object a pointer field leads to; [None] is a dangling pointer. *)
Definition load {O} (objects : gmap ptr O) (p : option ptr) : option (option O) :=
  match p with
  | None => Some None
  | Some q => match objects !! q with Some o => Some (Some o) | None => None end
  end.
Definition save {O} (p : option ptr) (o : option O) (objects : gmap ptr O) : gmap ptr O :=
  match p, o with Some q, Some o => <[q := o]> objects | _, _ => objects end.

(** A function called on a pointer to a stream. *)
Definition on_stream {A} (p : option ptr) (m : M (option Stream.stream_env) A) : M world A := λ w,
  match p with
  | None => match m None with Some (a, _, es) => Some (a, w, es) | None => None end
  | Some q =>
      o ← streams w !! q;
      h ← load (header_objects w) (headers_ptr o);
      c ← load (metric_objects w) (metrics_ptr o);
      match m (Some (Stream.Env (object o) h c)) with
      | Some (a, Some e, es) =>
          Some (a, w <| streams ::= <[q := o <| object := Stream.stream e |>]> |>
                     <| header_objects ::= save (headers_ptr o) (Stream.headers e) |>
                     <| metric_objects ::= save (metrics_ptr o) (Stream.metrics e) |>, es)
      | _ => None
      end
  end.

(** A call of libcurl. *)
Definition call {A} (f : lib → A * lib) : M world A := λ w,
  let '(a, c) := f (curl w) in Some (a, w <| curl := c |>, []).

Definition set_active (p : ptr) (b : bool) : M world () :=
  on_field table
    (t ← Registry.node p;
     modify (λ s, s <| Registry.nodes ::= <[p := t <| Registry.active := b |>]> |>)).

(** [calloc(1, sizeof( transfer ))] and [free]. *)
Definition new_transfer `{Allocator} (t : Registry.transfer) : M world (option ptr) :=
  if calloc 1 sizeof_transfer then
    w ← gets (λ w, w);
    let p := base.fresh (dom (Registry.nodes (table w)) : gset ptr) in
    modify (λ w, w <| table ::= λ s, s <| Registry.nodes ::= <[p := t]> |> |>);;
    mret (Some p)
  else mret None.
Definition free_transfer (p : ptr) : M world () :=
  on_field table
    (Registry.node p;; modify (λ s, s <| Registry.nodes ::= delete p |>)).

(** ** Completion *)

Definition finish_detached_transfer (transfer : option ptr) (code : Z) : M world () :=
  match transfer with
  | None => mret ()
  | Some p =>
      t ← on_field table (Registry.node p);
      (if Registry.active t then
         call (multi_remove_handle (Registry.easy t));;
         emit (Ev_curl_multi_remove_handle (Registry.easy t));;
         set_active p false
       else mret ());;
      code ← on_stream (Registry.download_stream t) (Stream.hcurl_stream_normalize_completion code);
      code ← on_stream (Registry.upload_stream t) (Stream.hcurl_stream_normalize_completion code);
      on_object metric_objects (Registry.metrics t)
        (Metrics.curl_metrics_finish (Some (Registry.easy t)));;
      w ← gets (λ w, w);
      on_object results (Some (Registry.result t))
        (hs_easy_data_set_result (Some (getinfo_response_code (Registry.easy t) (curl w))) code);;
      call (setopt_private (Registry.easy t) None);;
      on_stream (Registry.download_stream t) (Stream.hcurl_stream_complete code);;
      on_stream (Registry.upload_stream t) (Stream.hcurl_stream_complete code);;
      call (easy_cleanup (Registry.easy t));;
      emit (Ev_curl_easy_cleanup (Registry.easy t));;
      on_object results (Some (Registry.result t)) hs_easy_data_wake;;
      free_transfer p
  end.

Definition fail_unregistered_transfer (easy result metrics download_stream upload_stream : option ptr)
    (code : Z) : M world () :=
  on_object metric_objects metrics (Metrics.curl_metrics_finish easy);;
  w ← gets (λ w, w);
  on_object results result
    (hs_easy_data_set_result ((λ e, getinfo_response_code e (curl w)) <$> easy) code);;
  on_stream download_stream (Stream.hcurl_stream_complete code);;
  on_stream upload_stream (Stream.hcurl_stream_complete code);;
  (match easy with
   | Some e => call (easy_cleanup e);; emit (Ev_curl_easy_cleanup e)
   | None => mret ()
   end);;
  on_object results result hs_easy_data_wake.

(** [complete_transfer] for a context and a handle that are not NULL. *)
Definition complete_transfer (easy : ptr) (code : Z) : M world () :=
  w ← gets (λ w, w);
  let '(r, private_data) := getinfo_private easy (curl w) in
  if bool_decide (r ≠ CURLE_OK) then mret ()
  else match private_data with
  | None => mret ()
  | Some p =>
      t ← on_field table (Registry.node p);
      registered ← on_field table (Registry.registry_remove (Registry.id t));
      if bool_decide (registered ≠ Some p) then mret ()
      else finish_detached_transfer (Some p) code
  end.

(** The loop of [check_multi_info]; every round takes a message. *)
Fixpoint info_loop (fuel : nat) : M world () :=
  match fuel with
  | O => fault
  | S fuel =>
      message ← call multi_info_read;
      match message with
      | None => mret ()
      | Some (done, easy, code) =>
          (if done : bool then complete_transfer easy code else mret ());;
          info_loop fuel
      end
  end.
Definition check_multi_info : M world () :=
  w ← gets (λ w, w); info_loop (S (messages (curl w))).

(** ** Messages *)

Definition fail_payload (payload : execute_payload) (code : Z) : M world () :=
  fail_unregistered_transfer (easy payload) (result payload) (metrics payload)
    (download_stream payload) (upload_stream payload) code.

Definition execute_transfer `{Allocator} (payload : execute_payload) : M world () :=
  match easy payload, result payload with
  | Some e, Some r =>
      if bool_decide (transfer_id payload = 0) then fail_payload payload CURLE_FAILED_INIT
      else
        transfer ← new_transfer (Registry.Transfer (transfer_id payload) e r (metrics payload)
          (download_stream payload) (upload_stream payload) false None);
        match transfer with
        | None => fail_payload payload CURLE_OUT_OF_MEMORY
        | Some p =>
            inserted ← on_field table (Registry.registry_insert (Some p));
            if negb inserted then
              fail_payload payload CURLE_FAILED_INIT;;
              free_transfer p
            else
              code ← call (setopt_private e (Some p));
              if bool_decide (code ≠ CURLE_OK) then
                on_field table (Registry.registry_remove (transfer_id payload));;
                fail_payload payload CURLE_FAILED_INIT;;
                free_transfer p
              else
                code ← call (multi_add_handle e);
                if bool_decide (code ≠ 0) then
                  on_field table (Registry.registry_remove (transfer_id payload));;
                  finish_detached_transfer (Some p) CURLE_FAILED_INIT
                else set_active p true
        end
  | _, _ =>
      if bool_decide (easy payload = None) && bool_decide (result payload = None)
         && bool_decide (download_stream payload = None)
         && bool_decide (upload_stream payload = None)
      then mret () else fail_payload payload CURLE_FAILED_INIT
  end.

Definition cancel_transfer (id : Z) : M world () :=
  transfer ← on_field table (Registry.registry_remove id);
  match transfer with
  | Some p => finish_detached_transfer (Some p) CURLE_ABORTED_BY_CALLBACK
  | None => mret ()
  end.

Definition resume_transfer (id : Z) : M world () :=
  transfer ← on_field table (Registry.registry_find id);
  match transfer with
  | None => mret ()
  | Some p =>
      t ← on_field table (Registry.node p);
      if negb (Registry.active t) then mret ()
      else
        code ← call (easy_pause_cont (Registry.easy t));
        if bool_decide (code ≠ CURLE_OK) then
          transfer ← on_field table (Registry.registry_remove id);
          finish_detached_transfer transfer code
        else check_multi_info
  end.

(** ** Shutdown *)

(** The chain of one bucket. *)
Fixpoint finish_chain (fuel : nat) (transfer : option ptr) (code : Z) : M world () :=
  match transfer, fuel with
  | None, _ => mret ()
  | Some _, O => fault
  | Some p, S fuel =>
      t ← on_field table (Registry.node p);
      on_field table (Registry.set_next p None);;
      finish_detached_transfer (Some p) code;;
      finish_chain fuel (Registry.next t) code
  end.

(** The buckets from [index] on, [n] of them. *)
Fixpoint finish_buckets (n : nat) (index : Z) (code : Z) : M world () :=
  match n with
  | O => mret ()
  | S n =>
      transfer ← on_field table (Registry.load_bucket index);
      on_field table (Registry.store_bucket index None);;
      fuel ← on_field table Registry.walk;
      finish_chain fuel transfer code;;
      finish_buckets n (index + 1) code
  end.

(** [mpscq_dequeue(context->chan)]. *)
Definition dequeue : M world (option outer_message) :=
  w ← gets (λ w, w);
  match chan w with
  | [] => mret None
  | m :: ms => modify (λ w, w <| chan := ms |>);; mret (Some m)
  end.

Fixpoint drain_loop (fuel : nat) (code : Z) : M world () :=
  message ← dequeue;
  match message, fuel with
  | None, _ => mret ()
  | Some _, O => fault
  | Some m, S fuel =>
      (match m with Execute payload => fail_payload payload code | _ => mret () end);;
      drain_loop fuel code
  end.

(** [message_sender_close], which comes first, is in [Channel.v]. *)
Definition shutdown_message_context (code : Z) : M world () :=
  w ← gets (λ w, w);
  let registry := Registry.registry (table w) in
  if bool_decide (Registry.buckets registry = None) then mret ()
  else
    finish_buckets (Z.to_nat (Registry.bucket_count registry)) 0 code;;
    on_field table (modify (λ s, s <| Registry.registry ::= λ r, r <| Registry.count := 0 |> |>));;
    w ← gets (λ w, w);
    drain_loop (length (chan w)) code;;
    on_field table Registry.registry_destroy.

(** ** The agent's steps *)

(** One message. *)
Definition dispatch `{Allocator} (m : outer_message) : M world () :=
  match m with
  | Execute payload => execute_transfer payload
  | Cancel id => cancel_transfer id
  | Resume id => resume_transfer id
  | Stop => shutdown_message_context CURLE_ABORTED_BY_CALLBACK;; emit Ev_uv_stop
  end.

(** [async_check_outer_messages]: every round takes a message. *)
Fixpoint async_loop `{Allocator} (fuel : nat) : M world () :=
  message ← dequeue;
  match message, fuel with
  | None, _ => mret ()
  | Some _, O => fault
  | Some m, S fuel => dispatch m;; async_loop fuel
  end.
Definition async_check_outer_messages `{Allocator} : M world () :=
  w ← gets (λ w, w); async_loop (length (chan w)).

End agent.
End Agent.
