(* ===== verification/AgentWorld.v ===== *)
(** * The agent's memory and the completion of a transfer

    The invariant of the memory that the agent reaches, the effect on it of the
    calls that complete a transfer, and the specification of
    [finish_detached_transfer] and [fail_unregistered_transfer]. *)

From S2P Require Import Prelude Extras Headers Registry Metrics Stream StreamRing StreamOps Agent.
Import Waker EasyData Agent.

Open Scope Z_scope.
Open Scope record_scope.

Module AgentWorld.

(** The handles that a sequence of calls cleans up. *)
Definition cleanup_of (e : event) : option ptr :=
  match e with Ev_curl_easy_cleanup p => Some p | _ => None end.
Definition cleanups (es : list event) : list ptr := omap cleanup_of es.
Definition no_cleanup (e : event) : Prop := cleanup_of e = None.

Lemma cleanups_app es1 es2 : cleanups (es1 ++ es2) = cleanups es1 ++ cleanups es2.
Proof. apply omap_app. Qed.
Lemma cleanups_none es : Forall no_cleanup es → cleanups es = [].
Proof. unfold no_cleanup. induction 1 as [|e es He _ IH]; [done|]. cbn. by rewrite He. Qed.

(** ** What completion calls say *)

Lemma says_wake_copy {S} w : says (S := S) no_cleanup (Waker.wake_copy w).
Proof. rewrite Waker.wake_copy_eq. apply says_emits. by repeat case_match; repeat constructor. Qed.

Lemma says_wake_detached {S} w : says (S := S) no_cleanup (Stream.wake_detached w).
Proof. unfold Stream.wake_detached. says_tac. apply says_wake_copy. Qed.

Lemma says_mark_complete code : says no_cleanup (HeaderData.header_data_mark_complete code).
Proof.
  unfold HeaderData.header_data_mark_complete, HeaderData.take_waiter, HeaderData.wake_taken.
  says_tac. apply says_wake_copy.
Qed.

Lemma says_section {A} P (m : M Stream.hcurl_stream A) : says P m → says P (Stream.section m).
Proof. intros Hm. unfold Stream.section. by says_tac. Qed.

Lemma says_complete code : says no_cleanup (Stream.hcurl_stream_complete code).
Proof.
  unfold Stream.hcurl_stream_complete, Stream.complete, Stream.wake_both. says_tac;
    try apply says_wake_detached; [apply says_mark_complete|].
  apply says_section. unfold Stream.complete_section, Stream.detach_both,
    Stream.detach_read_waiter, Stream.detach_write_waiter. says_tac.
Qed.

(** ** Calls on completion records *)

(** The record after [hs_easy_data_set_result] and after [hs_easy_data_wake]. *)
Definition with_result (info : option (Z * Z)) (code : Z) (d : hs_easy_data) : hs_easy_data :=
  if completed d then d
  else Mk code (match info with
                | Some (rc, status) => if bool_decide (rc = CURLE_OK) then status else response_code d
                | None => response_code d
                end) (waker d) (waker_fired d) true.
Definition with_wake (d : hs_easy_data) : hs_easy_data :=
  if completed d && negb (waker_fired d) then
    d <| waker_fired := true |>
      <| waker ::= λ w, match Waker.mvar w with Some _ => w <| Waker.waked := true |> | None => w end |>
  else d.

Lemma set_result_eq info code d :
  hs_easy_data_set_result info code (Some d) = Some ((), Some (with_result info code d), []).
Proof.
  unfold hs_easy_data_set_result, with_result. run_m. destruct d as [c r w f []]; [done|]. cbn.
  by destruct info as [[rc status]|]; [case_bool_decide|].
Qed.

Lemma wake_eq d :
  ∃ es, hs_easy_data_wake (Some d) = Some ((), Some (with_wake d), es) ∧ cleanups es = [].
Proof.
  unfold hs_easy_data_wake, with_wake, Waker.wake_up_waker.
  destruct d as [c r [[p|] cap []] [] []]; run_m; eexists; (split; [reflexivity|done]).
Qed.

(** The transfers in memory. *)
Abbreviation nodes w := (Registry.nodes (table w)).

Section world.
Context `{L : Libcurl} `{I : Metrics.CurlInfo}.

(** ** The invariant of the objects *)

Definition valid {O} (objects : gmap ptr O) (p : option ptr) : Prop :=
  from_option (λ q, is_Some (objects !! q)) True p.

Record objects_ok (w : world) : Prop := ObjectsOk {
  o_streams q o : streams w !! q = Some o → (∃ l, StreamRing.sok (object o) l) ∧
    valid (header_objects w) (headers_ptr o) ∧ valid (metric_objects w) (metrics_ptr o);
  o_headers h d : header_objects w !! h = Some d → HeaderData.wf d
}.

(** The addresses in use. *)
Definition addresses (w : world) : gset ptr * gset ptr * gset ptr * gset ptr :=
  (dom (results w), dom (streams w), dom (header_objects w), dom (metric_objects w)).

(** A call that changes streams and the records they point to. *)
Record touched (w w' : world) : Prop := Touched {
  t_table : table w' = table w;
  t_chan : chan w' = chan w;
  t_curl : curl w' = curl w;
  t_results : results w' = results w;
  t_addresses : addresses w' = addresses w;
  t_objects : objects_ok w';
  t_streams q o : streams w !! q = Some o → ∃ o', streams w' !! q = Some o' ∧
    (Stream.terminal_set (object o) = true → Stream.terminal_set (object o') = true) ∧
    Stream.closed (object o') = Stream.closed (object o) ∧
    Stream.cancel_sent (object o') = Stream.cancel_sent (object o)
}.

Lemma touched_refl w : objects_ok w → touched w w.
Proof. intros Hw. split; try done. eauto. Qed.

Lemma touched_trans w0 w1 w2 : touched w0 w1 → touched w1 w2 → touched w0 w2.
Proof.
  intros [A1 A2 A3 A4 A5 A6 A7] [B1 B2 B3 B4 B5 B6 B7]. split; try congruence; try done.
  intros q o Ho. destruct (A7 q o Ho) as (o1 & H1 & T1 & C1 & S1).
  destruct (B7 q o1 H1) as (o2 & H2 & T2 & C2 & S2). exists o2.
  split_and!; [done|auto|congruence..].
Qed.

Lemma valid_dom {O} (m m' : gmap ptr O) p : dom m' = dom m → valid m p → valid m' p.
Proof. intros Hd. destruct p as [q|]; [|done]. cbn. rewrite <- !elem_of_dom. by rewrite Hd. Qed.

Lemma dom_insert_same {O} (m : gmap ptr O) q o o' : m !! q = Some o → dom (<[q := o']> m) = dom m.
Proof. intros Hq. rewrite dom_insert_L. apply elem_of_dom_2 in Hq. set_solver. Qed.

(** [curl_metrics_finish] on an object in memory. *)
Lemma wp_metrics_finish p easy w :
  objects_ok w → valid (metric_objects w) p →
  wp (on_object metric_objects p (Metrics.curl_metrics_finish easy))
    (λ _ w' es, touched w w' ∧ es = []) w.
Proof.
  intros Hw Hv. unfold on_object, wp. destruct p as [q|]; cbn in Hv.
  - destruct Hv as [c Hc]. rewrite Hc.
    assert (∃ c', Metrics.curl_metrics_finish easy (Some c) = Some ((), Some c', [])) as (c' & ->).
    { destruct (Metrics.finish_defined easy c) as (c' & ->). by exists c'. }
    split; [|done]. split; try done.
    + unfold addresses. cbn. by rewrite (dom_insert_same _ _ _ _ Hc).
    + destruct Hw as [Hs Hh]. split; cbn; [|done]. intros r o Ho.
      destruct (Hs r o Ho) as (? & ? & Hv). split; [done|]. split; [done|].
      eapply valid_dom; [|done]. by apply (dom_insert_same _ _ _ _ Hc).
    + intros r o Ho. by exists o.
  - cbn. split; [|done]. by apply touched_refl.
Qed.

(** A call on a stream that keeps its invariant. *)
Definition kept (s s' : Stream.hcurl_stream) : Prop :=
  (Stream.terminal_set s = true → Stream.terminal_set s' = true) ∧
  Stream.closed s' = Stream.closed s ∧ Stream.cancel_sent s' = Stream.cancel_sent s.

Lemma load_valid {O} (m : gmap ptr O) p : valid m p → ∃ o, load m p = Some o.
Proof. destruct p as [q|]; [|by exists None]. intros [o Ho]. exists (Some o). cbn. by rewrite Ho. Qed.

Lemma dom_save {O} (m : gmap ptr O) p o : valid m p → dom (save p o m) = dom m.
Proof.
  destruct p as [q|]; [|done]. destruct o as [o|]; [|done]. intros [o' Ho'].
  by apply (dom_insert_same _ _ o').
Qed.

Lemma save_touched w q o s' h' c' :
  objects_ok w → streams w !! q = Some o → (∃ l, StreamRing.sok s' l) → kept (object o) s' →
  from_option HeaderData.wf True h' →
  touched w (w <| streams ::= <[q := o <| object := s' |>]> |>
               <| header_objects ::= save (headers_ptr o) h' |>
               <| metric_objects ::= save (metrics_ptr o) c' |>).
Proof.
  intros [Hs Hh] Ho Hs' (K1 & K2 & K3) Hh'. destruct (Hs q o Ho) as (_ & Vh & Vm).
  split; try done.
  - unfold addresses. cbn. by rewrite (dom_insert_same _ _ _ _ Ho), !dom_save.
  - split; cbn.
    + intros r o' Hr. assert ((∃ l, StreamRing.sok (object o') l) ∧
        valid (header_objects w) (headers_ptr o') ∧ valid (metric_objects w) (metrics_ptr o'))
        as (H1 & H2 & H3).
      { destruct (decide (r = q)) as [->|Hne].
        - rewrite lookup_insert_eq in Hr. injection Hr as <-. done.
        - rewrite lookup_insert_ne in Hr by done. by apply (Hs r). }
      split; [done|]. split; (eapply valid_dom; [by apply dom_save|done]).
    + intros h d Hd. unfold save in Hd. destruct (headers_ptr o) as [h0|]; [|by apply (Hh h)].
      destruct h' as [d'|]; [|by apply (Hh h)]. destruct (decide (h = h0)) as [->|Hne].
      * rewrite lookup_insert_eq in Hd. by injection Hd as <-.
      * rewrite lookup_insert_ne in Hd by done. by apply (Hh h).
  - intros r o1 Hr. cbn. destruct (decide (r = q)) as [->|Hne].
    + rewrite lookup_insert_eq. rewrite Ho in Hr. injection Hr as <-. by eexists.
    + rewrite lookup_insert_ne by done. by exists o1.
Qed.

Lemma wp_on_stream {A} p (m : M (option Stream.stream_env) A) w
    (P : A → Stream.hcurl_stream → Stream.hcurl_stream → Prop) (P0 : A → Prop) :
  objects_ok w → valid (streams w) p → says no_cleanup m →
  wp m (λ a _ _, P0 a) None →
  (∀ o h c l, StreamOps.ok (Stream.Env (object o) h c) l →
    wp m (λ a oe _, ∃ e l', oe = Some e ∧ StreamOps.ok e l' ∧ kept (object o) (Stream.stream e) ∧
      P a (object o) (Stream.stream e)) (Some (Stream.Env (object o) h c))) →
  wp (on_stream p m) (λ a w' es, touched w w' ∧ cleanups es = [] ∧
    match p with
    | None => P0 a
    | Some q => ∃ o o', streams w !! q = Some o ∧ streams w' !! q = Some o' ∧
        P a (object o) (object o')
    end) w.
Proof.
  intros Hw Hv Hsay H0 Hm. unfold on_stream, wp. destruct p as [q|].
  - destruct Hv as [o Ho]. rewrite Ho. cbn [mbind option_bind].
    destruct (o_streams w Hw q o Ho) as ([l Hl] & Vh & Vm).
    destruct (load_valid _ _ Vh) as [h Hlh]. destruct (load_valid _ _ Vm) as [c Hlc].
    rewrite Hlh, Hlc. cbn [mbind option_bind].
    assert (StreamOps.ok (Stream.Env (object o) h c) l) as Hok.
    { split; [done|]. cbn. unfold load in Hlh. destruct (headers_ptr o) as [r|]; [|by injection Hlh as <-].
      destruct (header_objects w !! r) as [d|] eqn:Hd; [|done]. injection Hlh as <-.
      by apply (o_headers w Hw r). }
    specialize (Hm o h c l Hok). pose proof (wp_says _ _ _ _ Hsay Hm) as H1. unfold wp in H1.
    destruct (m (Some _)) as [[[a oe] es]|]; [|done].
    destruct H1 as ((e & l' & -> & [Hsk Hhk] & Hk & HP) & Hes).
    split; [by apply save_touched; eauto|]. split; [by apply cleanups_none|].
    eexists _, _. split; [done|]. cbn. rewrite lookup_insert_eq. done.
  - pose proof (wp_says _ _ _ _ Hsay H0) as H1. unfold wp in H1.
    destruct (m None) as [[[a oe] es]|]; [|done]. destruct H1 as [HP Hes].
    split; [by apply touched_refl|]. split; [by apply cleanups_none|done].
Qed.

(** ** Calls on streams *)

Definition is_cancelled (s : Stream.hcurl_stream) : bool := Stream.closed s || Stream.cancel_sent s.

Definition stream_cancelled (w : world) (p : option ptr) : bool :=
  match p with
  | Some q => from_option (λ o, is_cancelled (object o)) false (streams w !! q)
  | None => false
  end.
Definition stream_ended (w : world) (p : option ptr) : bool :=
  match p with
  | Some q => from_option (λ o, Stream.terminal_set (object o)) false (streams w !! q)
  | None => true
  end.

Lemma touched_cancelled w w' p :
  touched w w' → valid (streams w) p → stream_cancelled w' p = stream_cancelled w p.
Proof.
  intros H. destruct p as [q|]; [|done]. intros [o Ho]. cbn. rewrite Ho.
  destruct (t_streams _ _ H q o Ho) as (o' & -> & _ & Hc & Hs). cbn. unfold is_cancelled. by rewrite Hc, Hs.
Qed.
Lemma touched_ended w w' p : touched w w' → stream_ended w p = true → stream_ended w' p = true.
Proof.
  intros H. destruct p as [q|]; [|done]. cbn. destruct (streams w !! q) as [o|] eqn:Ho; [|done].
  destruct (t_streams _ _ H q o Ho) as (o' & -> & Ht & _). done.
Qed.
Lemma touched_valid w w' p : touched w w' → valid (streams w) p → valid (streams w') p.
Proof. intros H. apply valid_dom. by injection (t_addresses _ _ H). Qed.

Lemma wp_normalize p code w :
  objects_ok w → valid (streams w) p →
  wp (on_stream p (Stream.hcurl_stream_normalize_completion code)) (λ a w' es,
    touched w w' ∧ cleanups es = [] ∧
    a = if stream_cancelled w p then CURLE_ABORTED_BY_CALLBACK else code) w.
Proof.
  intros Hw Hv. eapply wp_mono.
  - apply (wp_on_stream _ _ _ (λ a s _, a = if is_cancelled s then CURLE_ABORTED_BY_CALLBACK else code)
      (λ a, a = code)); [done..| |done|].
    + intros [e|] a s' es; cbn; intros [= <- <- <-]; constructor.
    + intros o h c l Hok. eexists _, l. split; [reflexivity|]. split; [done|]. by split.
  - intros a w' es (Ht & He & Hp). split; [done|]. split; [done|].
    destruct p as [q|]; [|done]. destruct Hp as (o & o' & Ho & _ & ->). cbn. by rewrite Ho.
Qed.

Lemma wp_stream_complete p code w :
  objects_ok w → valid (streams w) p →
  wp (on_stream p (Stream.hcurl_stream_complete code)) (λ _ w' es,
    touched w w' ∧ cleanups es = [] ∧ stream_ended w' p = true) w.
Proof.
  intros Hw Hv. eapply wp_mono.
  - apply (wp_on_stream _ _ _ (λ _ _ s', Stream.terminal_set s' = true) (λ _, True));
      [done..|apply says_complete|done|].
    intros o h c l Hok. unfold Stream.hcurl_stream_complete. apply wp_unless_null.
    eapply wp_mono; [by apply StreamOps.wp_complete|].
    intros [] e es ([Hok' _ _] & Ht & _ & Hc & _ & _ & Hca). exists e, l. by split_and!.
  - intros a w' es (Ht & He & Hp). split; [done|]. split; [done|].
    destruct p as [q|]; [|done]. destruct Hp as (o & o' & _ & Ho & Hend). cbn. by rewrite Ho.
Qed.

(** ** The invariant of the transfers *)

(** A transfer's pointers lead to objects. *)
Definition transfer_ok (w : world) (t : Registry.transfer) : Prop :=
  is_Some (results w !! Registry.result t) ∧ valid (metric_objects w) (Registry.metrics t) ∧
  valid (streams w) (Registry.download_stream t) ∧ valid (streams w) (Registry.upload_stream t).

Lemma transfer_ok_addresses w w' t :
  addresses w' = addresses w → transfer_ok w t → transfer_ok w' t.
Proof.
  intros [= E1 E2 E3 E4] (H1 & H2 & H3 & H4). split_and!;
    [|by eapply valid_dom..]. by apply (valid_dom (results w) _ (Some _)).
Qed.

Context `{!LibcurlLaws}.

(** Transfers have handles of their own; the active ones are those that libcurl
    drives, and their handles lead back to them. *)
Record curl_ok (w : world) : Prop := CurlOk {
  c_nodes p t : nodes w !! p = Some t → transfer_ok w t ∧
    (Registry.active t = true ↔ Registry.easy t ∈ added (curl w)) ∧
    (Registry.active t = true → private_of (curl w) (Registry.easy t) = Some p);
  c_easy p q t u : nodes w !! p = Some t → nodes w !! q = Some u →
    Registry.easy t = Registry.easy u → p = q;
  c_added e : e ∈ added (curl w) → ∃ p t, nodes w !! p = Some t ∧ Registry.easy t = e
}.

Definition memory_ok (w : world) : Prop := objects_ok w ∧ curl_ok w.

Lemma curl_ok_delete w w' p t :
  curl_ok w → nodes w !! p = Some t → nodes w' = delete p (nodes w) → addresses w' = addresses w →
  (∀ e, e ≠ Registry.easy t → private_of (curl w') e = private_of (curl w) e) →
  added (curl w') = added (curl w) ∖ {[Registry.easy t]} → curl_ok w'.
Proof.
  intros [Hn He Ha] Hp Hd Haddr Hpriv Hadd.
  assert (∀ q u, nodes w' !! q = Some u → nodes w !! q = Some u ∧ Registry.easy u ≠ Registry.easy t) as Hold.
  { intros q u Hq. rewrite Hd in Hq. apply lookup_delete_Some in Hq as [Hne Hq]. split; [done|].
    intros E. apply Hne. by apply (He p q t u). }
  split.
  - intros q u Hq. destruct (Hold q u Hq) as [Hq' Hne]. destruct (Hn q u Hq') as (H1 & H2 & H3).
    split; [by eapply transfer_ok_addresses|]. rewrite Hadd, H2. split; [set_solver|].
    intros Hact. rewrite Hpriv by done. apply H3. set_solver.
  - intros q r u v Hq Hr. apply (He q r u v); [by apply Hold|by apply Hold].
  - intros e. rewrite Hadd. intros [Hin Hne]%elem_of_difference. destruct (Ha e Hin) as (q & u & Hq & Hu).
    exists q, u. split; [|done]. rewrite Hd, lookup_delete_ne; [done|].
    intros <-. rewrite Hp in Hq. injection Hq as <-. apply Hne. set_solver.
Qed.

(** ** Steps *)

Lemma wp_call {A} (f : lib → A * lib) Q (w : world) :
  (∀ a c, f (curl w) = (a, c) → Q a (w <| curl := c |>) []) → wp (call f) Q w.
Proof. intros Hf. unfold wp, call. destruct (f (curl w)) as [a c] eqn:E. by apply Hf. Qed.

Lemma wp_node p t Q (w : world) :
  nodes w !! p = Some t → Q t w [] → wp (on_field table (Registry.node p)) Q w.
Proof.
  intros Hp HQ. unfold wp, on_field, Registry.node. run_m. rewrite Hp. by destruct w.
Qed.

Lemma wp_set_active p b t Q (w : world) :
  nodes w !! p = Some t →
  Q () (w <| table ::= λ s, s <| Registry.nodes ::= <[p := t <| Registry.active := b |>]> |> |>) [] →
  wp (set_active p b) Q w.
Proof.
  intros Hp HQ. unfold set_active. apply wp_on_field. unfold Registry.node. wp_steps.
  apply (wp_defined _ t); [done|]. wp_steps. exact HQ.
Qed.

Lemma wp_free p t Q (w : world) :
  nodes w !! p = Some t →
  Q () (w <| table ::= λ s, s <| Registry.nodes ::= delete p |> |>) [] → wp (free_transfer p) Q w.
Proof.
  intros Hp HQ. unfold free_transfer. apply wp_on_field. unfold Registry.node. wp_steps.
  apply (wp_defined _ t); [done|]. wp_steps. exact HQ.
Qed.

Lemma wp_set_result r info code d Q (w : world) :
  results w !! r = Some d →
  Q () (w <| results ::= <[r := with_result info code d]> |>) [] →
  wp (on_object results (Some r) (hs_easy_data_set_result info code)) Q w.
Proof. intros Hr HQ. unfold wp, on_object. by rewrite Hr, set_result_eq. Qed.

Lemma wp_wake r d Q (w : world) :
  results w !! r = Some d →
  (∀ es, cleanups es = [] → Q () (w <| results ::= <[r := with_wake d]> |>) es) →
  wp (on_object results (Some r) hs_easy_data_wake) Q w.
Proof.
  intros Hr HQ. unfold wp, on_object. rewrite Hr. destruct (wake_eq d) as (es & -> & He). by apply HQ.
Qed.

(** Changes of records and of the transfers' memory leave the objects alone. *)
Lemma objects_ok_same w w' :
  streams w' = streams w → header_objects w' = header_objects w →
  metric_objects w' = metric_objects w → objects_ok w → objects_ok w'.
Proof. intros E1 E2 E3 [H1 H2]. split; rewrite ?E1, ?E2, ?E3; done. Qed.

(** What completing the transfer [p] with the handle [e] leaves alone. *)
Record aside (p e : ptr) (w w' : world) : Prop := Aside {
  a_nodes : delete p (nodes w') = delete p (nodes w);
  a_node : is_Some (nodes w !! p) → is_Some (nodes w' !! p);
  a_registry : Registry.registry (table w') = Registry.registry (table w);
  a_chan : chan w' = chan w;
  a_addresses : addresses w' = addresses w;
  a_private e' : e' ≠ e → private_of (curl w') e' = private_of (curl w) e';
  a_added : added (curl w') ∖ {[e]} = added (curl w) ∖ {[e]};
  a_messages : (messages (curl w') ≤ messages (curl w))%nat
}.

#[local] Instance aside_refl p e : Reflexive (aside p e).
Proof. done. Qed.
#[local] Instance aside_trans p e : Transitive (aside p e).
Proof.
  intros w0 w1 w2 [A1 A2 A3 A4 A5 A6 A7 A8] [B1 B2 B3 B4 B5 B6 B7 B8]. split; try congruence.
  - auto.
  - intros e' He. by rewrite B6, A6.
  - lia.
Qed.

Lemma touched_aside p e w w' : touched w w' → aside p e w w'.
Proof.
  intros [E1 E2 E3 E4 E5 _ _]. split; rewrite ?E1, ?E2, ?E3; done.
Qed.

(** The first step: libcurl lets go of an active transfer. *)
Lemma wp_remove p t w :
  objects_ok w → nodes w !! p = Some t →
  wp (if Registry.active t then
        call (multi_remove_handle (Registry.easy t));;
        emit (Ev_curl_multi_remove_handle (Registry.easy t));;
        set_active p false
      else mret ()) (λ _ w' es, aside p (Registry.easy t) w w' ∧ objects_ok w' ∧
        results w' = results w ∧ streams w' = streams w ∧ cleanups es = []) w.
Proof.
  intros Hw Hp. destruct (Registry.active t) eqn:Hact; [|by apply wp_ret].
  wp_step. apply wp_call. intros r c Hc. destruct (multi_remove_law _ _ _ _ Hc) as (H1 & H2 & H3).
  wp_step. wp_step. apply (wp_set_active p false t); [done|].
  split; [split; cbn; try done|].
  - by rewrite delete_insert_eq.
  - intros _. rewrite lookup_insert_eq. by eexists.
  - intros e' He. by rewrite H1.
  - rewrite H2. set_solver.
  - split; [|done]. by apply (objects_ok_same w).
Qed.

(** The code that is published: a cancelled stream turns every code into the
    cancellation. *)
Definition normalized (w : world) (t : Registry.transfer) (code : Z) : Z :=
  if stream_cancelled w (Registry.download_stream t) || stream_cancelled w (Registry.upload_stream t)
  then CURLE_ABORTED_BY_CALLBACK else code.

(** The transfer [p] is finished: its result is published and its waker fired,
    its streams are at their end, and nothing else happened. *)
Record finished (w : world) (p : ptr) (t : Registry.transfer) (code : Z) (w' : world) : Prop := Finished {
  fin_nodes : nodes w' = delete p (nodes w);
  fin_registry : Registry.registry (table w') = Registry.registry (table w);
  fin_chan : chan w' = chan w;
  fin_addresses : addresses w' = addresses w;
  fin_messages : (messages (curl w') ≤ messages (curl w))%nat;
  fin_result : ∃ d info, results w !! Registry.result t = Some d ∧
    results w' = <[Registry.result t := with_wake (with_result info (normalized w t code) d)]> (results w);
  fin_download : stream_ended w' (Registry.download_stream t) = true;
  fin_upload : stream_ended w' (Registry.upload_stream t) = true
}.

(** The steps on the streams and metrics of a transfer before and after its result
    is published. *)
Lemma wp_normalize_both {B} t code (k : Z → M world B) Q w :
  objects_ok w → valid (streams w) (Registry.download_stream t) →
  valid (streams w) (Registry.upload_stream t) → valid (metric_objects w) (Registry.metrics t) →
  (∀ w' es, touched w w' → cleanups es = [] →
    wp (k (normalized w t code)) (λ b w2 es2, Q b w2 (es ++ es2)) w') →
  wp (code ← on_stream (Registry.download_stream t) (Stream.hcurl_stream_normalize_completion code);
      code ← on_stream (Registry.upload_stream t) (Stream.hcurl_stream_normalize_completion code);
      on_object metric_objects (Registry.metrics t)
        (Metrics.curl_metrics_finish (Some (Registry.easy t)));;
      k code) Q w.
Proof.
  intros Hw Vd Vu Vm Hk.
  wp_step. eapply wp_mono; [by apply wp_normalize|]. intros c2 w2 es2 (T2 & C2 & ->).
  wp_step. eapply wp_mono; [apply wp_normalize; [apply T2|by eapply touched_valid]|].
  intros c3 w3 es3 (T3 & C3 & ->). pose proof (touched_trans _ _ _ T2 T3) as T13.
  wp_step. eapply wp_mono.
  { apply wp_metrics_finish; [apply T3|]. eapply valid_dom; [|exact Vm]. by injection (t_addresses _ _ T13). }
  intros [] w4 es4 (T4 & ->). pose proof (touched_trans _ _ _ T13 T4) as T14.
  assert ((if stream_cancelled w2 (Registry.upload_stream t) then CURLE_ABORTED_BY_CALLBACK
           else if stream_cancelled w (Registry.download_stream t) then CURLE_ABORTED_BY_CALLBACK else code) =
          normalized w t code) as ->.
  { unfold normalized. rewrite (touched_cancelled _ _ _ T2 Vu).
    by destruct (stream_cancelled w (Registry.download_stream t)), (stream_cancelled w (Registry.upload_stream t)). }
  eapply wp_mono; [apply (Hk w4 (es2 ++ es3)); [done|by rewrite cleanups_app, C2, C3]|].
  intros b w5 es5. cbn beta. by rewrite <- (assoc_L (++) es2 es3).
Qed.

Lemma wp_complete_both {B} t code (k : M world B) Q w :
  objects_ok w → valid (streams w) (Registry.download_stream t) →
  valid (streams w) (Registry.upload_stream t) →
  (∀ w' es, touched w w' → cleanups es = [] → stream_ended w' (Registry.download_stream t) = true →
    stream_ended w' (Registry.upload_stream t) = true → wp k (λ b w2 es2, Q b w2 (es ++ es2)) w') →
  wp (on_stream (Registry.download_stream t) (Stream.hcurl_stream_complete code);;
      on_stream (Registry.upload_stream t) (Stream.hcurl_stream_complete code);; k) Q w.
Proof.
  intros Hw Vd Vu Hk.
  wp_step. eapply wp_mono; [by apply wp_stream_complete|]. intros [] w7 es7 (T7 & C7 & E7).
  wp_step. eapply wp_mono; [apply wp_stream_complete; [apply T7|by eapply touched_valid]|].
  intros [] w8 es8 (T8 & C8 & E8).
  eapply wp_mono; [apply (Hk w8 (es7 ++ es8)); [exact (touched_trans _ _ _ T7 T8)|by rewrite cleanups_app, C7, C8| |done]|].
  - by apply (touched_ended w7 w8 _ T8).
  - intros b w9 es9. cbn beta. by rewrite <- (assoc_L (++) es7 es8).
Qed.

Lemma finish_spec w p t code :
  memory_ok w → nodes w !! p = Some t →
  wp (finish_detached_transfer (Some p) code) (λ _ w' es,
    memory_ok w' ∧ finished w p t code w' ∧ cleanups es = [Registry.easy t]) w.
Proof.
  intros [Hobj Hcurl] Hp. destruct (c_nodes w Hcurl p t Hp) as ([[d Hd] (Vm & Vd & Vu)] & _).
  cbn [finish_detached_transfer]. wp_step. apply (wp_node p t); [done|].
  wp_step. eapply wp_mono; [by apply wp_remove|]. intros [] w1 es1 (A1 & O1 & R1 & S1 & C1).
  apply wp_normalize_both; rewrite ?S1; [done..| |].
  { eapply valid_dom; [|exact Vm]. by injection (a_addresses _ _ _ _ A1). }
  intros w4 es4 T14 C4.
  assert (results w4 !! Registry.result t = Some d) as Hd4 by (by rewrite (t_results _ _ T14), R1).
  wp_step. wp_step. wp_step. apply (wp_set_result _ _ _ d); [done|].
  match goal with |- context [with_result ?i ?c d] => set (d1 := with_result i c d) end.
  set (w5 := w4 <| results ::= <[Registry.result t := d1]> |>).
  assert (aside p (Registry.easy t) w w5) as A5.
  { transitivity w4; [transitivity w1; [done|by apply touched_aside]|]. split; try done.
    unfold addresses. cbn. by rewrite (dom_insert_same _ _ _ _ Hd4). }
  wp_step. apply wp_call. intros r6 c6 Hc6. destruct (setopt_private_law _ _ _ _ _ Hc6) as (P6 & H6 & M6).
  set (w6 := w5 <| curl := c6 |>). assert (aside p (Registry.easy t) w w6) as A6.
  { transitivity w5; [done|]. split; try done; cbn; [|by rewrite H6].
    intros e' He. rewrite P6, decide_False; [done|]. by intros [-> _]. }
  apply wp_complete_both; [by apply (objects_ok_same w4), T14|apply (touched_valid w1 w4); [done|by rewrite S1]..|].
  intros w8 es8 T68 C8 E7 E8.
  wp_step. apply wp_call. intros [] c9 Hc9. destruct (easy_cleanup_law _ _ _ Hc9) as (P9 & H9 & M9).
  wp_step. wp_step. wp_step.
  set (w9 := w8 <| curl := c9 |>).
  assert (results w9 !! Registry.result t = Some d1) as Hd9.
  { cbn. rewrite (t_results _ _ T68). cbn. apply lookup_insert_eq. }
  apply (wp_wake _ d1); [done|]. intros es10 C10.
  assert (aside p (Registry.easy t) w w8) as A8 by (transitivity w6; [done|by apply touched_aside]).
  assert (aside p (Registry.easy t) w8 w9) as A9.
  { split; try done; cbn. rewrite H9. set_solver. }
  destruct (a_node _ _ _ _ A8) as [t8 Ht8]; [by rewrite Hp|].
  apply (wp_free p t8); [done|].
  match goal with |- context [memory_ok ?w] => set (w11 := w) end.
  assert (nodes w11 = delete p (nodes w)) as N11 by (symmetry; etransitivity; [|symmetry; apply A8]; done).
  assert (addresses w11 = addresses w) as D11.
  { rewrite <- (a_addresses _ _ _ _ A8). unfold addresses. cbn.
    by rewrite (dom_insert_same _ _ _ _ Hd9). }
  split; [split|split].
  - apply (objects_ok_same w8); [done..|apply T68].
  - apply (curl_ok_delete w w11 p t); [done..| |].
    + intros e He. etransitivity; [by apply (a_private _ _ _ _ A9)|by apply (a_private _ _ _ _ A8)].
    + cbn. rewrite H9. apply (a_added _ _ _ _ A8).
  - split; try done.
    + etransitivity; [|apply A8]. done.
    + etransitivity; [|apply A8]. done.
    + cbn. pose proof (a_messages _ _ _ _ A8). lia.
    + eexists d, _. split; [done|]. cbn. rewrite (t_results _ _ T68). cbn.
      rewrite insert_insert_eq, (t_results _ _ T14), R1. unfold d1. do 3 f_equal. unfold normalized.
      unfold stream_cancelled. by rewrite S1.
  - rewrite !cleanups_app, C1, C4, C8, C10. done.
Qed.

(** ** A transfer that never entered the registry *)

Definition payload_ok (w : world) (pl : execute_payload) : Prop :=
  valid (results w) (result pl) ∧ valid (metric_objects w) (metrics pl) ∧
  valid (streams w) (download_stream pl) ∧ valid (streams w) (upload_stream pl).

Lemma payload_ok_addresses w w' pl : addresses w' = addresses w → payload_ok w pl → payload_ok w' pl.
Proof. intros [= E1 E2 E3 E4] (H1 & H2 & H3 & H4). split_and!; by eapply valid_dom. Qed.

(** Changes to the record at [r], if there is one. *)
Definition on_record (r : option ptr) (f : hs_easy_data → hs_easy_data)
    (m : gmap ptr hs_easy_data) : gmap ptr hs_easy_data :=
  match r with Some q => alter f q m | None => m end.

Lemma curl_ok_shrink w w' (e : option ptr) :
  curl_ok w → table w' = table w → addresses w' = addresses w →
  (∀ x, e = Some x → x ∉ added (curl w)) →
  (∀ x, e ≠ Some x → private_of (curl w') x = private_of (curl w) x) →
  added (curl w') = added (curl w) → curl_ok w'.
Proof.
  intros [Hn He Ha] Ht Haddr Hfree Hpriv Hadd. split; rewrite ?Ht, ?Hadd; [|done|done].
  intros p t Hp. destruct (Hn p t Hp) as (H1 & H2 & H3). split; [by eapply transfer_ok_addresses|].
  split; [done|]. intros Hact. rewrite Hpriv; [by apply H3|]. intros E.
  apply (Hfree _ E). by apply H2.
Qed.

(** The payload [pl] is failed: its record is published and woken, its streams
    are at their end. *)
Record failed (w : world) (pl : execute_payload) (code : Z) (w' : world) : Prop := Failed {
  fail_table : table w' = table w;
  fail_chan : chan w' = chan w;
  fail_addresses : addresses w' = addresses w;
  fail_messages : (messages (curl w') ≤ messages (curl w))%nat;
  fail_result : ∃ info, results w' = on_record (result pl) (with_wake ∘ with_result info code) (results w);
  fail_download : stream_ended w' (download_stream pl) = true;
  fail_upload : stream_ended w' (upload_stream pl) = true
}.

(** Calls that leave the transfers and libcurl alone. *)
Record quiet (w w' : world) : Prop := Quiet {
  q_table : table w' = table w;
  q_chan : chan w' = chan w;
  q_curl : curl w' = curl w;
  q_addresses : addresses w' = addresses w;
  q_objects : objects_ok w'
}.
#[local] Instance quiet_trans : Transitive quiet.
Proof. intros w0 w1 w2 [] []. split; try congruence; done. Qed.
Lemma touched_quiet w w' : touched w w' → quiet w w'.
Proof. by intros []. Qed.
Lemma quiet_valid w w' p : quiet w w' → valid (streams w) p → valid (streams w') p.
Proof. intros Hq. apply valid_dom. by injection (q_addresses _ _ Hq). Qed.
Lemma quiet_result w w' p : quiet w w' → valid (results w) p → valid (results w') p.
Proof. intros Hq. apply valid_dom. by injection (q_addresses _ _ Hq). Qed.

Lemma wp_quiet_result {A} (m : M (option hs_easy_data) A) f r w :
  objects_ok w → valid (results w) r →
  (∀ d, ∃ a es, m (Some d) = Some (a, Some (f d), es) ∧ cleanups es = []) →
  (∃ a, m None = Some (a, None, [])) →
  wp (on_object results r m) (λ _ w' es, quiet w w' ∧ cleanups es = [] ∧ streams w' = streams w ∧
    results w' = on_record r f (results w)) w.
Proof.
  intros Hw Hv Hm [a0 H0]. unfold wp, on_object. destruct r as [r|].
  - destruct Hv as [d Hd]. rewrite Hd. destruct (Hm d) as (a & es & -> & He).
    split; [|split_and!; [done|done|]].
    + split; try done; [|by apply (objects_ok_same w)].
      unfold addresses. cbn. by rewrite (dom_insert_same _ _ _ _ Hd).
    + cbn. apply map_eq. intros q. destruct (decide (q = r)) as [->|Hne].
      * by rewrite lookup_insert_eq, lookup_alter_eq, Hd.
      * by rewrite lookup_insert_ne, lookup_alter_ne.
  - rewrite H0. split_and!; try done.
Qed.

Lemma wp_cleanup_option e w :
  objects_ok w → (∀ x, e = Some x → x ∉ added (curl w)) →
  wp (match e with
      | Some e => call (easy_cleanup e);; emit (Ev_curl_easy_cleanup e)
      | None => mret ()
      end) (λ _ w' es, (∃ c, w' = w <| curl := c |> ∧ added c = added (curl w) ∧
        (∀ x, e ≠ Some x → private_of c x = private_of (curl w) x) ∧
        (messages c ≤ messages (curl w))%nat) ∧ cleanups es = option_list e) w.
Proof.
  intros Hw Hfree. destruct e as [e|].
  - wp_step. apply wp_call. intros [] c Hc. destruct (easy_cleanup_law _ _ _ Hc) as (H1 & H2 & H3).
    wp_step. split; [|done]. exists c. split_and!; [done| |intros x Hx; apply H1; congruence|done].
    rewrite H2. specialize (Hfree e eq_refl). set_solver.
  - wp_step. split; [|done]. exists (curl w). by destruct w.
Qed.

Lemma fail_spec w pl code :
  memory_ok w → payload_ok w pl → (∀ e, easy pl = Some e → e ∉ added (curl w)) →
  wp (fail_payload pl code) (λ _ w' es,
    memory_ok w' ∧ failed w pl code w' ∧ cleanups es = option_list (easy pl)) w.
Proof.
  intros [Hobj Hcurl] (Vr & Vm & Vd & Vu) Hfree. unfold fail_payload, fail_unregistered_transfer.
  wp_step. eapply wp_mono; [by apply wp_metrics_finish|]. intros [] w1 es1 (U1 & ->).
  pose proof (touched_quiet _ _ U1) as T1. wp_step. wp_step. wp_step. set (info := _ <$> easy pl).
  eapply wp_mono; [apply (wp_quiet_result _ (with_result info code)); [apply T1|by eapply quiet_result| |by eexists]|].
  { intros d. eexists _, _. split; [apply set_result_eq|done]. }
  intros a2 w2 es2 (T2 & C2 & _ & R2). assert (quiet w w2) as Q2 by (by transitivity w1).
  wp_step. eapply wp_mono; [apply wp_stream_complete; [apply T2|by eapply quiet_valid]|].
  intros [] w3 es3 (U3 & C3 & E3). pose proof (touched_quiet _ _ U3) as T3.
  assert (quiet w w3) as Q3 by (by transitivity w2).
  wp_step. eapply wp_mono; [apply wp_stream_complete; [apply T3|by eapply quiet_valid]|].
  intros [] w4 es4 (U4 & C4 & E4). pose proof (touched_quiet _ _ U4) as T4.
  assert (quiet w w4) as Q4 by (by transitivity w3).
  wp_step. eapply wp_mono; [apply wp_cleanup_option; [apply T4|]|].
  { rewrite (q_curl _ _ Q4). done. }
  intros [] w5 es5 ((c & -> & A5 & P5 & M5) & C5).
  eapply wp_mono; [apply (wp_quiet_result _ with_wake)| ].
  { by apply (objects_ok_same w4), T4. }
  { eapply (quiet_result w w4); done. }
  { intros d. destruct (wake_eq d) as (es & E & He). by eexists _, _. }
  { by eexists. }
  intros a6 w6 es6 (T6 & C6 & S6 & R6). rewrite (q_curl _ _ Q4) in A5, P5, M5.
  assert (addresses w6 = addresses w) as D6.
  { rewrite (q_addresses _ _ T6). apply (q_addresses _ _ Q4). }
  assert (table w6 = table w) as B6 by (rewrite (q_table _ _ T6); apply (q_table _ _ Q4)).
  assert (∀ p, stream_ended w4 p = true → stream_ended w6 p = true) as E6.
  { intros [q|]; [|done]. cbn. by rewrite S6. }
  pose proof (q_curl _ _ T6) as L6. cbn in L6. split; [split|split].
  - apply T6.
  - apply (curl_ok_shrink w w6 (easy pl)); rewrite ?L6; done.
  - split; [done| |done|by rewrite L6| |apply E6; by eapply touched_ended|by apply E6].
    + rewrite (q_chan _ _ T6). apply (q_chan _ _ Q4).
    + exists info. rewrite R6. cbn. rewrite (t_results _ _ U4), (t_results _ _ U3), R2, (t_results _ _ U1).
      destruct (result pl) as [r|]; [|done]. cbn. by rewrite alter_alter_eq.
  - rewrite !cleanups_app, C2, C3, C4, C5, C6. cbn. by rewrite app_nil_r.
Qed.

(** ** Answers *)

(** The record [r] has its result and its waker was fired. *)
Definition answered (w : world) (r : ptr) : Prop :=
  ∃ d, results w !! r = Some d ∧ completed d = true ∧ waker_fired d = true.

Lemma published info code d :
  completed (with_wake (with_result info code d)) = true ∧
  waker_fired (with_wake (with_result info code d)) = true.
Proof.
  unfold with_wake, with_result. by destruct d as [c rc wk [] []].
Qed.

Lemma answered_record w w' p info code :
  results w' = on_record p (with_wake ∘ with_result info code) (results w) →
  (∀ r, answered w r → answered w' r) ∧
  (∀ r, p = Some r → is_Some (results w !! r) → answered w' r).
Proof.
  intros E. unfold answered. rewrite E. split.
  - intros r (d & Hd & Hc & Hf). destruct p as [q|]; [|by exists d]. cbn.
    destruct (decide (r = q)) as [->|Hne].
    + rewrite lookup_alter_eq, Hd. eexists. split; [reflexivity|]. apply published.
    + rewrite lookup_alter_ne by done. by exists d.
  - intros r -> [d Hd]. cbn. rewrite lookup_alter_eq, Hd. eexists. split; [reflexivity|]. apply published.
Qed.

Lemma finished_record w p t code w' :
  finished w p t code w' → ∃ info, results w' =
    on_record (Some (Registry.result t)) (with_wake ∘ with_result info (normalized w t code)) (results w).
Proof.
  intros [_ _ _ _ _ (d & info & Hd & E) _ _]. exists info. rewrite E. cbn. apply map_eq. intros q.
  destruct (decide (q = Registry.result t)) as [->|Hne].
  - by rewrite lookup_insert_eq, lookup_alter_eq, Hd.
  - by rewrite lookup_insert_ne, lookup_alter_ne.
Qed.

End world.
End AgentWorld.
