(* ===== verification/AgentProps.v ===== *)
(** * The agent finishes every transfer exactly once

    The invariant that ties the registry, the transfers in memory, libcurl's
    handles and the queued messages together, and the specification of each
    handler. *)

From S2P Require Import Prelude Chain Extras Headers Registry Metrics Stream Agent AgentWorld.
Import Agent AgentWorld.

Open Scope Z_scope.
Open Scope record_scope.

Module AgentProps.
Section agent.
Context `{L : Libcurl} `{!LibcurlLaws} `{I : Metrics.CurlInfo}.

(** ** The invariant *)

(** The registry is [m]; after the shutdown it is gone. *)
Definition registry_is (s : Registry.store) (m : gmap Z ptr) : Prop :=
  Registry.registry_ok s m ∨ Registry.buckets (Registry.registry s) = None ∧ m = ∅.

(** The transfers in memory but for [D] are active and registered under their
    ids in [m]. *)
Record agent_ok (w : world) (m : gmap Z ptr) (D : gset ptr) : Prop := AgentOk {
  ag_memory : memory_ok w;
  ag_registry : registry_is (table w) m;
  ag_registered p t : nodes w !! p = Some t → p ∉ D →
    m !! Registry.id t = Some p ∧ Registry.active t = true;
  ag_live k p : m !! k = Some p → ∃ t, nodes w !! p = Some t ∧ Registry.id t = k
}.

(** The handles of the transfers in memory. *)
Definition live (w : world) : list ptr := (map_to_list (Registry.easy <$> nodes w)).*2.

Lemma live_table w w' : table w' = table w → live w' = live w.
Proof. unfold live. by intros ->. Qed.
Lemma live_easy w w' : Registry.easy <$> nodes w' = Registry.easy <$> nodes w → live w' = live w.
Proof. unfold live. by intros ->. Qed.

Lemma live_insert w w' p t :
  nodes w' = <[p := t]> (nodes w) → nodes w !! p = None → live w' ≡ₚ Registry.easy t :: live w.
Proof.
  intros Hn Hp. unfold live. rewrite Hn, fmap_insert, map_to_list_insert; [done|].
  by rewrite lookup_fmap, Hp.
Qed.
Lemma live_delete w w' p t :
  nodes w' = delete p (nodes w) → nodes w !! p = Some t → Registry.easy t :: live w' ≡ₚ live w.
Proof.
  intros Hn Hp. unfold live. rewrite Hn, fmap_delete.
  rewrite <- (map_to_list_delete (Registry.easy <$> nodes w) p (Registry.easy t)); [done|].
  by rewrite lookup_fmap, Hp.
Qed.

Lemma live_update w w' p t t' :
  nodes w' = <[p := t']> (nodes w) → nodes w !! p = Some t → Registry.easy t' = Registry.easy t →
  live w' = live w.
Proof.
  intros Hn Hp He. apply live_easy. rewrite Hn, fmap_insert. apply insert_id.
  by rewrite lookup_fmap, Hp, He.
Qed.

Lemma data_easy h h' :
  Registry.data h' = Registry.data h → Registry.easy <$> h' = Registry.easy <$> h.
Proof.
  intros Hd. apply (f_equal (fmap Registry.easy)) in Hd. unfold Registry.data in Hd.
  rewrite <- !map_fmap_compose in Hd. exact Hd.
Qed.

Lemma data_result h h' :
  Registry.data h' = Registry.data h → Registry.result <$> h' = Registry.result <$> h.
Proof.
  intros Hd. apply (f_equal (fmap Registry.result)) in Hd. unfold Registry.data in Hd.
  rewrite <- !map_fmap_compose in Hd. exact Hd.
Qed.

(** ** Records that wait for an answer *)

(** The completion record [r] belongs to a transfer in memory. *)
Definition pending (w : world) (r : ptr) : Prop :=
  ∃ p t, nodes w !! p = Some t ∧ Registry.result t = r.
Definition tracked (w : world) (r : ptr) : Prop := pending w r ∨ answered w r.
(** No record is forgotten. *)
Definition carries (w w' : world) : Prop := ∀ r, tracked w r → tracked w' r.
#[export] Instance carries_refl : Reflexive carries.
Proof. by intros w r. Qed.
#[export] Instance carries_trans : Transitive carries.
Proof. intros w0 w1 w2 H1 H2 r Hr. by apply H2, H1. Qed.

Lemma pending_result w r : pending w r ↔ ∃ p, (Registry.result <$> nodes w) !! p = Some r.
Proof.
  unfold pending. split; intros [p Hp]; exists p.
  - destruct Hp as (t & Hp & <-). by rewrite lookup_fmap, Hp.
  - rewrite lookup_fmap in Hp. destruct (nodes w !! p) as [t|]; [|done]. exists t. by injection Hp.
Qed.

Lemma carries_same w w' :
  Registry.result <$> nodes w' = Registry.result <$> nodes w → results w' = results w → carries w w'.
Proof.
  intros Hn Hr r [Hp|(d & Hd)].
  - left. rewrite pending_result, Hn. by apply pending_result.
  - right. exists d. by rewrite Hr.
Qed.
Lemma carries_data w w' :
  Registry.data (nodes w') = Registry.data (nodes w) → results w' = results w → carries w w'.
Proof. intros Hd. by apply carries_same, data_result. Qed.

(** A transfer goes away and its record is published. *)
Lemma carries_delete w w' p t info code :
  nodes w !! p = Some t → is_Some (results w !! Registry.result t) → nodes w' = delete p (nodes w) →
  results w' = on_record (Some (Registry.result t)) (with_wake ∘ with_result info code) (results w) →
  carries w w'.
Proof.
  intros Hp Hr Hn E. destruct (answered_record _ _ _ _ _ E) as [K G].
  intros r [(q & u & Hq & <-)|Ha]; [|right; by apply K].
  destruct (decide (q = p)) as [->|Hne].
  - right. rewrite Hp in Hq. injection Hq as <-. by apply G.
  - left. exists q, u. by rewrite Hn, lookup_delete_ne.
Qed.

(** ** Registry calls *)

(** A transfer but for its link. *)
Lemma same_data t t' :
  t' <| Registry.next := None |> = t <| Registry.next := None |> →
  Registry.id t' = Registry.id t ∧ Registry.easy t' = Registry.easy t ∧
  Registry.result t' = Registry.result t ∧ Registry.metrics t' = Registry.metrics t ∧
  Registry.download_stream t' = Registry.download_stream t ∧
  Registry.upload_stream t' = Registry.upload_stream t ∧ Registry.active t' = Registry.active t.
Proof. destruct t, t'. cbn. by intros [= -> -> -> -> -> -> ->]. Qed.

Lemma memory_ok_data w w' :
  memory_ok w → Registry.data (nodes w') = Registry.data (nodes w) → curl w' = curl w →
  results w' = results w → streams w' = streams w → header_objects w' = header_objects w →
  metric_objects w' = metric_objects w → memory_ok w'.
Proof.
  intros [Hobj [Hn He Ha]] Hd Hc E1 E2 E3 E4.
  assert (addresses w' = addresses w) as Haddr by (unfold addresses; by rewrite E1, E2, E3, E4).
  assert (∀ p t, nodes w' !! p = Some t → ∃ u, nodes w !! p = Some u ∧
    t <| Registry.next := None |> = u <| Registry.next := None |>) as Hback.
  { intros p t Hp. destruct (Registry.data_lookup _ _ _ _ (eq_sym Hd) Hp) as (u & ? & ?). eauto. }
  split; [by apply (objects_ok_same w)|]. split; rewrite ?Hc.
  - intros p t Hp. destruct (Hback p t Hp) as (u & Hu & E).
    destruct (same_data _ _ E) as (F1 & F2 & F3 & F4 & F5 & F6 & F7).
    destruct (Hn p u Hu) as (H1 & H2 & H3). rewrite F2, F7. split; [|done].
    apply (transfer_ok_addresses w); [done|]. unfold transfer_ok in *. by rewrite F3, F4, F5, F6.
  - intros p q t u Hp Hq. destruct (Hback p t Hp) as (t0 & Ht & Et). destruct (Hback q u Hq) as (u0 & Hu & Eu).
    destruct (same_data _ _ Et) as (_ & -> & _). destruct (same_data _ _ Eu) as (_ & -> & _).
    by apply (He p q t0 u0).
  - intros e Hin. destruct (Ha e Hin) as (p & t & Hp & Ht).
    destruct (Registry.data_lookup _ _ _ _ Hd Hp) as (t' & Ht' & E). exists p, t'.
    split; [done|]. destruct (same_data _ _ E) as (_ & -> & _). done.
Qed.

(** The rest of the world as it was, but for the table. *)
Definition table_only (w w' : world) : Prop := w' = w <| table := table w' |>.

Lemma wp_table {A} (m : M Registry.store A) Q w :
  wp m (λ a s es, Q a (w <| table := s |>) es) (table w) → wp (on_field table m) Q w.
Proof. apply wp_on_field. Qed.

Lemma wp_registry_remove w m D i :
  agent_ok w m D →
  wp (on_field table (Registry.registry_remove i)) (λ r w' es, r = m !! i ∧ es = [] ∧
    agent_ok w' (delete i m) (D ∪ option_to_set r) ∧ table_only w w' ∧
    Registry.data (nodes w') = Registry.data (nodes w) ∧ (m !! i = None → w' = w)) w.
Proof.
  intros [Hm Hr Hreg Hlive]. apply wp_table. destruct Hr as [Hr|[Hb ->]].
  - destruct (Registry.registry_remove_ok _ _ i Hr) as (s' & E & Hr' & Hd & Hsame). unfold wp. rewrite E.
    split; [done|]. split; [done|].
    split; [|split_and!; [done|done|intros Hi; rewrite (Hsame Hi); by destruct w]]. split.
    + by apply (memory_ok_data w).
    + by left.
    + intros p t Hp Hnot. destruct (Registry.data_lookup _ _ _ _ (eq_sym Hd) Hp) as (u & Hu & E1).
      destruct (same_data _ _ E1) as (<- & _ & _ & _ & _ & _ & <-).
      destruct (Hreg p u Hu ltac:(set_solver)) as [H1 H2]. split; [|done].
      rewrite lookup_delete_ne; [done|]. intros ->. apply Hnot. rewrite H1. set_solver.
    + intros k p [Hne Hk]%lookup_delete_Some. destruct (Hlive k p Hk) as (t & Ht & <-).
      by apply (Registry.data_id (nodes w) _ p t).
  - assert (∀ i, Registry.registry_remove i (table w) = Some (None, table w, [])) as E.
    { intros j. unfold Registry.registry_remove. run_m. rewrite Hb. done. }
    unfold wp. rewrite E. split; [done|]. split; [done|]. rewrite delete_empty.
    assert (w <| table := table w |> = w) as -> by (by destruct w). split; [|split; [by destruct w|done]].
    split; try done; [by right|]. intros p t Hp Hnot. apply Hreg; [done|set_solver].
Qed.

(** [settles]: the handles cleaned up, with those that are left, are those that
    there were. *)
Record settles (w w' : world) (es : list event) : Prop := Settles {
  set_chan : chan w' = chan w;
  set_addresses : addresses w' = addresses w;
  set_live : cleanups es ++ live w' ≡ₚ live w;
  set_carries : carries w w'
}.

Lemma settles_trans w0 w1 w2 e1 e2 :
  settles w0 w1 e1 → settles w1 w2 e2 → settles w0 w2 (e1 ++ e2).
Proof.
  intros [A1 A2 A3 A4] [B1 B2 B3 B4]. split; [congruence|congruence| |by transitivity w1].
  rewrite cleanups_app, <- A3, <- B3. solve_Permutation.
Qed.
Lemma settles_none w w' :
  chan w' = chan w → addresses w' = addresses w →
  Registry.data (nodes w') = Registry.data (nodes w) → results w' = results w → settles w w' [].
Proof.
  intros H1 H2 H3 H4. split; [done|done| |by apply carries_data].
  cbn. by rewrite (live_easy w w') by (by apply data_easy).
Qed.

Lemma table_only_rest w w' : table_only w w' →
  chan w' = chan w ∧ addresses w' = addresses w ∧ curl w' = curl w.
Proof. intros ->. done. Qed.
Lemma table_only_settles w w' :
  table_only w w' → Registry.data (nodes w') = Registry.data (nodes w) → settles w w' [].
Proof.
  intros Ht Hd. destruct (table_only_rest _ _ Ht) as (H1 & H2 & _).
  apply settles_none; [done..|]. by rewrite Ht.
Qed.

(** Finishing a transfer that is not registered any more. *)
Lemma wp_finish w m p t code :
  agent_ok w m {[p]} → nodes w !! p = Some t → (∀ k, m !! k ≠ Some p) →
  wp (finish_detached_transfer (Some p) code) (λ _ w' es, agent_ok w' m ∅ ∧
    finished w p t code w' ∧ settles w w' es ∧ cleanups es = [Registry.easy t]) w.
Proof.
  intros [Hm Hr Hreg Hlive] Hp Hnone.
  eapply wp_mono; [by apply finish_spec|]. intros [] w' es (Hm' & Hf & He).
  pose proof Hf as [F1 F2 F3 F4 F5 _ _ _].
  destruct (finished_record _ _ _ _ _ Hf) as [info Hres].
  assert (is_Some (results w !! Registry.result t)) as Hd by (apply (c_nodes w (proj2 Hm) p t Hp)).
  split; [split|split; [done|split; [split|]]]; try done.
  - assert (table w' = (table w) <| Registry.nodes := delete p (nodes w) |>) as E.
    { destruct (table w'), (table w). cbn in *. by subst. }
    destruct Hr as [Hr|[Hb ->]]; [left|right; by rewrite F2]. rewrite E.
    apply Registry.registry_ok_frame; [done|]. intros k q u Hk Hq. exists u. split; [|done].
    rewrite lookup_delete_ne; [done|]. intros <-. by apply (Hnone k).
  - intros q u Hq _. rewrite F1 in Hq. apply lookup_delete_Some in Hq as [Hne Hq].
    apply Hreg; [done|set_solver].
  - intros k q Hk. destruct (Hlive k q Hk) as (u & Hu & Hid). exists u. split; [|done].
    rewrite F1, lookup_delete_ne; [done|]. intros <-. by apply (Hnone k).
  - rewrite He. cbn. by eapply live_delete.
  - by eapply carries_delete.
Qed.

(** What is published of the transfer [t]: its record gets the code, which is
    the cancellation if a stream was closed, and both streams end. *)
Definition published_result (w : world) (t : Registry.transfer) (code : Z) (w' : world) : Prop :=
  (∃ d info, results w !! Registry.result t = Some d ∧
    results w' = <[Registry.result t := with_wake (with_result info (normalized w t code) d)]> (results w)) ∧
  stream_ended w' (Registry.download_stream t) = true ∧
  stream_ended w' (Registry.upload_stream t) = true.

Lemma finished_published w w1 p t t1 code w' :
  table_only w w1 → t1 <| Registry.next := None |> = t <| Registry.next := None |> →
  finished w1 p t1 code w' → published_result w t code w'.
Proof.
  intros T E [_ _ _ _ _ R D U]. destruct (same_data _ _ E) as (_ & _ & E1 & _ & E2 & E3 & _).
  unfold published_result, normalized in *. rewrite E1, E2, E3 in *. rewrite T in R. done.
Qed.

Lemma published_answered w t code w' : published_result w t code w' → answered w' (Registry.result t).
Proof.
  intros ((d & info & Hd & E) & _). eexists. rewrite E, lookup_insert_eq. split; [done|apply published].
Qed.

(** A registered transfer is taken from the registry and finished. *)
Lemma remove_not_left w m i p t :
  agent_ok w m ∅ → m !! i = Some p → nodes w !! p = Some t → ∀ k, delete i m !! k ≠ Some p.
Proof.
  intros Hok Hi Hp k [Hne Hk]%lookup_delete_Some.
  destruct (ag_live _ _ _ Hok i p Hi) as (u & Hu & Hid).
  destruct (ag_live _ _ _ Hok k p Hk) as (v & Hv & Hid'). congruence.
Qed.

Lemma wp_cancel w m i :
  agent_ok w m ∅ →
  wp (cancel_transfer i) (λ _ w' es, agent_ok w' (delete i m) ∅ ∧ settles w w' es ∧
    (messages (curl w') ≤ messages (curl w))%nat ∧
    match m !! i with
    | None => es = [] ∧ w' = w
    | Some p => ∃ t, nodes w !! p = Some t ∧ cleanups es = [Registry.easy t] ∧
        Registry.data (nodes w') = delete p (Registry.data (nodes w)) ∧ published_result w t CURLE_ABORTED_BY_CALLBACK w'
    end) w.
Proof.
  intros Hok. unfold cancel_transfer. wp_step. eapply wp_mono; [by apply wp_registry_remove|].
  intros r w1 es1 (-> & -> & Hok1 & Ht1 & Hd1 & Hsame). destruct (table_only_rest _ _ Ht1) as (T1 & T2 & T3).
  assert (settles w w1 []) as S1 by (by apply table_only_settles).
  destruct (m !! i) as [p|] eqn:Hi.
  - destruct (ag_live _ _ _ Hok i p Hi) as (t & Ht & Hid).
    destruct (Registry.data_lookup _ _ _ _ Hd1 Ht) as (t1 & Hp1 & E1).
    destruct (same_data _ _ E1) as (_ & Ee & _).
    eapply wp_mono; [apply (wp_finish w1 (delete i m) p t1)|].
    { by rewrite union_empty_l_L in Hok1. }
    { done. }
    { by apply (remove_not_left w m i p t). }
    intros [] w2 es2 (Hok2 & Hf & S2 & C2). split; [done|].
    split; [apply (settles_trans _ _ _ [] _ S1 S2)|]. split; [rewrite <- T3; apply (fin_messages _ _ _ _ _ Hf)|].
    exists t. split; [done|]. split; [by rewrite <- Ee|]. split; [|by eapply finished_published].
    rewrite (fin_nodes _ _ _ _ _ Hf), <- Hd1. apply fmap_delete.
  - wp_step. rewrite union_empty_l_L in Hok1. split; [done|]. split; [done|]. rewrite T3.
    split; [done|]. split; [done|by apply Hsame].
Qed.

(** ** Completions reported by libcurl *)

(** A change of libcurl's state that keeps what the agent relies on. *)
Lemma agent_ok_private w m D c :
  agent_ok w m D → (∀ e, e ∈ added (curl w) → private_of c e = private_of (curl w) e) →
  added c = added (curl w) → agent_ok (w <| curl := c |>) m D.
Proof.
  intros [[Hobj Hc] Hr Hreg Hlive] Hp Ha. split; [|done..]. split; [by apply (objects_ok_same w)|].
  destruct Hc as [H1 H2 H3]. split; cbn; rewrite ?Ha; try done.
  intros p t Hpt. destruct (H1 p t Hpt) as (K1 & K2 & K3). split; [done|]. split; [done|].
  intros Hact. rewrite Hp; [by apply K3|by apply K2].
Qed.

Lemma agent_ok_curl w m D c :
  agent_ok w m D → private_of c = private_of (curl w) → added c = added (curl w) →
  agent_ok (w <| curl := c |>) m D.
Proof. intros Hok Hp Ha. apply agent_ok_private; [done| |done]. intros e _. by rewrite Hp. Qed.

Lemma wp_complete_transfer w m e code :
  agent_ok w m ∅ → e ∈ added (curl w) →
  wp (complete_transfer e code) (λ _ w' es, (∃ m', m' ⊆ m ∧ agent_ok w' m' ∅) ∧ settles w w' es ∧
    (messages (curl w') ≤ messages (curl w))%nat ∧
    ((getinfo_private e (curl w)).1 = CURLE_OK → cleanups es = [e] ∧ ∃ p t, nodes w !! p = Some t ∧
      Registry.easy t = e ∧ nodes w' !! p = None ∧ published_result w t code w')) w.
Proof.
  intros Hok He. unfold complete_transfer. wp_step. wp_step.
  destruct (c_added w (proj2 (ag_memory _ _ _ Hok)) e He) as (p & t & Hp & Het).
  destruct (c_nodes w (proj2 (ag_memory _ _ _ Hok)) p t Hp) as (_ & Hact & Hpriv).
  destruct (getinfo_private e (curl w)) as [r v] eqn:Hg.
  assert (settles w w []) as S0 by (by apply settles_none).
  wp_step; [wp_step; split; [by exists m|]; split; [done|]; split; [done|]; done|].
  apply dec_stable in n as ->. apply getinfo_private_law in Hg as ->.
  assert (private_of (curl w) e = Some p) as ->.
  { rewrite <- Het. apply Hpriv, Hact. by rewrite Het. }
  destruct (ag_registered _ _ _ Hok p t Hp) as [Hm _]; [set_solver|].
  wp_step. apply (wp_node p t); [done|].
  wp_step. eapply wp_mono; [by apply wp_registry_remove|].
  intros r w1 es1 (-> & -> & Hok1 & Ht1 & Hd1 & _). destruct (table_only_rest _ _ Ht1) as (T1 & T2 & T3).
  rewrite Hm in *. rewrite bool_decide_false by (intros Hn; by apply Hn).
  assert (settles w w1 []) as S1 by (by apply table_only_settles).
  destruct (Registry.data_lookup _ _ _ _ Hd1 Hp) as (t1 & Hp1 & E1).
  destruct (same_data _ _ E1) as (_ & Ee & _). rewrite union_empty_l_L in Hok1.
  eapply wp_mono; [apply (wp_finish w1 _ p t1 code Hok1 Hp1)|].
  { by apply (remove_not_left w m (Registry.id t) p t). }
  intros [] w2 es2 (Hok2 & Hf & S2 & C2). split; [eexists; split; [|done]; apply delete_subseteq|].
  split; [apply (settles_trans _ _ _ [] _ S1 S2)|].
  split; [rewrite <- T3; apply (fin_messages _ _ _ _ _ Hf)|]. intros _. cbn [app].
  split; [by rewrite C2, Ee, Het|]. exists p, t. split; [done|]. split; [done|].
  split; [|by eapply finished_published]. rewrite (fin_nodes _ _ _ _ _ Hf). apply lookup_delete_eq.
Qed.

(** What a handler may do to the registry: only take transfers out. *)
Definition shrinks (w : world) (m : gmap Z ptr) (w' : world) (es : list event) : Prop :=
  (∃ m', m' ⊆ m ∧ agent_ok w' m' ∅) ∧ settles w w' es.

Lemma wp_info_loop fuel w m :
  agent_ok w m ∅ → (messages (curl w) < fuel)%nat →
  wp (info_loop fuel) (λ _ w' es, shrinks w m w' es) w.
Proof.
  revert w m. induction fuel as [|fuel IH]; intros w m Hok Hn; [lia|].
  cbn [info_loop]. wp_step. apply wp_call. intros message c Hc.
  destruct (multi_info_read_law _ _ _ Hc) as (L1 & L2 & L3).
  pose proof (agent_ok_curl w m ∅ c Hok L1 L2) as Hok1.
  assert (settles w (w <| curl := c |>) []) as S1 by (by apply settles_none).
  destruct message as [[[done e] code]|]; cycle 1.
  { wp_step. split; [by exists m|done]. }
  destruct L3 as [He Hlt]. wp_step.
  assert (wp (if done then complete_transfer e code else mret ()) (λ _ w' es,
      shrinks (w <| curl := c |>) m w' es ∧ (messages (curl w') ≤ messages c)%nat)
    (w <| curl := c |>)) as Hdone.
  { destruct done.
    - eapply wp_mono; [apply (wp_complete_transfer _ m); [done|cbn; by rewrite L2]|].
      intros [] w2 es2 (Hm & S2 & M2 & _). done.
    - wp_step. split; [|done]. split; [by exists m|]. by apply settles_none. }
  eapply wp_mono; [exact Hdone|]. intros [] w2 es2 [[(m2 & Hsub & Hok2) S2] M2].
  eapply wp_mono; [apply (IH w2 m2); [done|cbn in M2; lia]|].
  intros [] w3 es3 [(m3 & Hsub3 & Hok3) S3]. split; [exists m3; split; [by etransitivity|done]|].
  apply (settles_trans _ _ _ [] _ S1). by apply (settles_trans _ _ _ es2 _ S2).
Qed.

Lemma wp_check_multi_info w m :
  agent_ok w m ∅ → wp check_multi_info (λ _ w' es, shrinks w m w' es) w.
Proof. intros Hok. unfold check_multi_info. wp_step. wp_step. apply wp_info_loop; [done|lia]. Qed.

(** ** Resuming *)

Lemma wp_registry_find w m D i Q :
  agent_ok w m D → Q (m !! i) w [] → wp (on_field table (Registry.registry_find i)) Q w.
Proof.
  intros [_ Hr _ _] HQ. apply wp_table.
  assert (Registry.registry_find i (table w) = Some (m !! i, table w, [])) as E.
  { destruct Hr as [Hr|[Hb ->]]; [by apply Registry.registry_find_eq|].
    unfold Registry.registry_find. run_m. by rewrite Hb. }
  unfold wp. rewrite E. by destruct w.
Qed.

Lemma wp_resume w m i :
  agent_ok w m ∅ →
  wp (resume_transfer i) (λ _ w' es, shrinks w m w' es ∧ (m !! i = None → w' = w ∧ es = [])) w.
Proof.
  intros Hok. unfold resume_transfer. wp_step. apply (wp_registry_find w m ∅); [done|].
  destruct (m !! i) as [p|] eqn:Hi; cycle 1.
  { wp_step. split; [|done]. split; [by exists m|]. by apply settles_none. }
  destruct (ag_live _ _ _ Hok i p Hi) as (t & Hp & Hid).
  destruct (ag_registered _ _ _ Hok p t Hp) as [_ Hact]; [set_solver|].
  wp_step. apply (wp_node p t); [done|]. rewrite Hact. cbn [negb].
  wp_step. apply wp_call. intros r c Hc. destruct (easy_pause_law _ _ _ _ Hc) as [P1 A1].
  pose proof (agent_ok_curl w m ∅ c Hok P1 A1) as Hok1.
  assert (settles w (w <| curl := c |>) []) as S1 by (by apply settles_none).
  wp_step.
  - wp_step. eapply wp_mono; [by apply wp_registry_remove|].
    intros q w2 es2 (-> & -> & Hok2 & Ht2 & Hd2 & _). rewrite Hi in *.
    destruct (table_only_rest _ _ Ht2) as (T1 & T2 & T3).
    assert (settles (w <| curl := c |>) w2 []) as S2 by (by apply table_only_settles).
    destruct (Registry.data_lookup _ _ _ _ Hd2 Hp) as (t1 & Hp1 & E1). rewrite union_empty_l_L in Hok2.
    eapply wp_mono; [apply (wp_finish w2 _ p t1 r Hok2 Hp1)|].
    { by apply (remove_not_left w m i p t). }
    intros [] w3 es3 (Hok3 & _ & S3 & _). split; [|done].
    split; [eexists; split; [|done]; apply delete_subseteq|].
    apply (settles_trans _ _ _ [] _ S1). by apply (settles_trans _ _ _ [] _ S2).
  - eapply wp_mono; [by apply wp_check_multi_info|]. intros [] w2 es2 [Hm S2]. split; [|done].
    split; [done|]. by apply (settles_trans _ _ _ [] _ S1).
Qed.

(** ** Executing *)

Lemma elem_of_live w e : e ∈ live w ↔ ∃ p t, nodes w !! p = Some t ∧ Registry.easy t = e.
Proof.
  unfold live. rewrite list_elem_of_fmap. split.
  - intros ([p x] & -> & Hin%elem_of_map_to_list). rewrite lookup_fmap in Hin.
    destruct (nodes w !! p) as [t|] eqn:E; [|done]. injection Hin as <-. by exists p, t.
  - intros (p & t & Hp & <-). exists (p, Registry.easy t). split; [done|].
    apply elem_of_map_to_list. by rewrite lookup_fmap, Hp.
Qed.

Lemma added_live w m D e : agent_ok w m D → e ∈ added (curl w) → e ∈ live w.
Proof. intros Hok He. apply elem_of_live, c_added; [|done]. apply (ag_memory _ _ _ Hok). Qed.

Definition with_nodes (h : gmap ptr Registry.transfer) (w : world) : world :=
  w <| table ::= λ s, s <| Registry.nodes := h |> |>.

Lemma wp_new `{Allocator} t Q w :
  Q None w [] → (∀ p, nodes w !! p = None → Q (Some p) (with_nodes (<[p := t]> (nodes w)) w) []) →
  wp (new_transfer t) Q w.
Proof.
  intros Hnone Hsome. unfold new_transfer. destruct (calloc 1 sizeof_transfer); [|by wp_step].
  wp_steps. apply Hsome. apply not_elem_of_dom, is_fresh.
Qed.

Lemma agent_ok_new w m p t :
  agent_ok w m ∅ → nodes w !! p = None → transfer_ok w t → Registry.active t = false →
  Registry.easy t ∉ live w → agent_ok (with_nodes (<[p := t]> (nodes w)) w) m {[p]}.
Proof.
  intros Hok Hp Ht Hact Hfresh. pose proof Hok as [[Hobj [Hn He Ha]] Hr Hreg Hlive].
  assert (Registry.easy t ∉ added (curl w)) as Hna by (intros Hin; by apply Hfresh, (added_live w m ∅)).
  split; [split; [by apply (objects_ok_same w)|split]| | |]; cbn.
  - intros q u. rewrite lookup_insert_Some. intros [[<- <-]|[Hne Hq]].
    + split; [done|]. rewrite Hact. done.
    + by apply Hn.
  - intros q r u v. rewrite !lookup_insert_Some. intros [[<- <-]|[Hq1 Hq]] [[<- <-]|[Hr1 Hr2]] E; [done| | |].
    + destruct Hfresh. apply elem_of_live. by exists r, v.
    + destruct Hfresh. apply elem_of_live. by exists q, u.
    + by apply (He q r u v).
  - intros e Hin. destruct (Ha e Hin) as (q & u & Hq & Hu). exists q, u. split; [|done].
    rewrite lookup_insert_ne; [done|]. intros <-. congruence.
  - destruct Hr as [Hr|[Hb ->]]; [left|by right]. apply Registry.registry_ok_frame; [done|].
    intros k q u _ Hq. exists u. split; [|done]. rewrite lookup_insert_ne; [done|]. intros <-. congruence.
  - intros q u Hq Hnot. rewrite lookup_insert_ne in Hq by set_solver. apply Hreg; [done|set_solver].
  - intros k q Hk. destruct (Hlive k q Hk) as (u & Hu & Hid). exists u. split; [|done].
    rewrite lookup_insert_ne; [done|]. intros <-. congruence.
Qed.

Lemma wp_registry_insert `{Allocator} w m p t :
  agent_ok w m {[p]} → nodes w !! p = Some t →
  wp (on_field table (Registry.registry_insert (Some p))) (λ b w' es, es = [] ∧ table_only w w' ∧
    Registry.data (nodes w') = Registry.data (nodes w) ∧
    if b then m !! Registry.id t = None ∧ agent_ok w' (<[Registry.id t := p]> m) {[p]}
    else agent_ok w' m {[p]}) w.
Proof.
  intros [Hm Hr Hreg Hlive] Hp. apply wp_table. destruct Hr as [Hr|[Hb ->]]; cycle 1.
  { assert (Registry.registry_insert (Some p) (table w) = Some (false, table w, [])) as E.
    { unfold Registry.registry_insert. run_m. by rewrite Hb. }
    unfold wp. rewrite E. assert (w <| table := table w |> = w) as -> by (by destruct w).
    split; [done|]. split; [by destruct w|]. split; [done|]. split; try done. by right. }
  destruct (Registry.registry_insert_ok _ _ _ _ Hr Hp) as (s' & E & Hd & Hr'). unfold wp. rewrite E.
  split; [done|]. split; [done|]. split; [done|].
  assert (∀ q u, Registry.nodes s' !! q = Some u → q ∉ ({[p]} : gset ptr) →
    m !! Registry.id u = Some q ∧ Registry.active u = true) as Hreg'.
  { intros q u Hq Hnot. destruct (Registry.data_lookup _ _ _ _ (eq_sym Hd) Hq) as (v & Hv & E1).
    destruct (same_data _ _ E1) as (<- & _ & _ & _ & _ & _ & <-). by apply Hreg. }
  assert (∀ k q, m !! k = Some q → ∃ u, Registry.nodes s' !! q = Some u ∧ Registry.id u = k) as Hlive'.
  { intros k q Hk. destruct (Hlive k q Hk) as (u & Hu & <-). by apply (Registry.data_id (nodes w) _ q u). }
  destruct (m !! Registry.id t) as [q|] eqn:Hi; cbn.
  - rewrite decide_False in Hr' by done.
    split; [by apply (memory_ok_data w)|by left|done|done].
  - rewrite decide_True in Hr' by done. split; [done|].
    split; [by apply (memory_ok_data w)|by left| |].
    + intros q u Hq Hnot. destruct (Hreg' q u Hq Hnot) as [H1 H2]. split; [|done].
      rewrite lookup_insert_ne; [done|]. intros E1. rewrite E1 in Hi. congruence.
    + intros k q. rewrite lookup_insert_Some. intros [[<- <-]|[_ Hk]]; [|by apply Hlive'].
      by apply (Registry.data_id (nodes w) _ p t).
Qed.

(** A failed submission leaves the agent as it was. *)
Lemma agent_ok_failed w w' m D : agent_ok w m D → memory_ok w' → table w' = table w → agent_ok w' m D.
Proof. intros [_ Hr Hreg Hlive] Hm Ht. split; rewrite ?Ht; done. Qed.

Lemma failed_carries w pl code w' : failed w pl code w' → payload_ok w pl →
  carries w w' ∧ ∀ r, result pl = Some r → answered w' r.
Proof.
  intros [T _ _ _ [info E] _ _] (Hv & _). destruct (answered_record _ _ _ _ _ E) as [K G]. split.
  - intros r [(p & t & Hp & Hr)|Ha]; [left|right; by apply K]. exists p, t. by rewrite T.
  - intros r Hr. apply G; [done|]. by rewrite Hr in Hv.
Qed.

Lemma wp_fail_free w m p t pl code :
  agent_ok w m {[p]} → nodes w !! p = Some t → Registry.active t = false →
  easy pl = Some (Registry.easy t) → result pl = Some (Registry.result t) →
  (∀ k, m !! k ≠ Some p) → payload_ok w pl →
  wp (fail_payload pl code;; free_transfer p) (λ _ w' es,
    agent_ok w' m ∅ ∧ nodes w' = delete p (nodes w) ∧ chan w' = chan w ∧ addresses w' = addresses w ∧
    cleanups es = [Registry.easy t] ∧ carries w w' ∧ answered w' (Registry.result t)) w.
Proof.
  intros Hok Hp Hact Heasy Hresult Hnone Hpl. pose proof (ag_memory _ _ _ Hok) as Hmem.
  destruct (c_nodes w (proj2 Hmem) p t Hp) as (Htok & Hadd & _).
  assert (Registry.easy t ∉ added (curl w)) as Hna by (intros Hin%Hadd; congruence).
  wp_step. eapply wp_mono; [apply fail_spec; [done|done|]|].
  { intros e He. rewrite Heasy in He. by injection He as <-. }
  intros [] w1 es1 (Hm1 & Hf1 & C1). pose proof Hf1 as [T1 K1 A1 _ [info R1] _ _].
  pose proof (agent_ok_failed w w1 m {[p]} Hok Hm1 T1) as Hok1.
  apply (wp_free p t); [by rewrite T1|].
  match goal with |- context [agent_ok ?w _ _] => set (w2 := w) end.
  assert (nodes w2 = delete p (nodes w)) as N2 by (cbn; by rewrite T1).
  assert (nodes w1 = nodes w) as N1 by (by rewrite T1).
  assert (results w2 = on_record (Some (Registry.result t)) (with_wake ∘ with_result info code) (results w)) as R2
    by (cbn; by rewrite R1, Hresult).
  split; [|split; [done|split; [done|split; [done|split; [|split]]]]].
  - destruct Hok1 as [[Hobj Hc] Hr Hreg Hlive]. split.
    + split; [by apply (objects_ok_same w1)|].
      apply (curl_ok_delete w1 w2 p t); try done; [by rewrite N1|]. cbn.
      destruct (c_nodes w1 Hc p t) as (_ & Hadd1 & _); [by rewrite N1|].
      assert (Registry.easy t ∉ added (curl w1)) by (intros Hin%Hadd1; congruence). set_solver.
    + destruct Hr as [Hr|[Hb ->]]; [left|by right]. apply Registry.registry_ok_frame; [done|].
      intros k q u Hk Hq. exists u. split; [|done]. rewrite lookup_delete_ne; [done|].
      intros <-. by apply (Hnone k).
    + intros q u Hq _. rewrite N2 in Hq. apply lookup_delete_Some in Hq as [Hne Hq].
      apply Hreg; [by rewrite N1|set_solver].
    + intros k q Hk. destruct (Hlive k q Hk) as (u & Hu & Hid). exists u. split; [|done].
      rewrite N2, lookup_delete_ne, <- N1; [done|]. intros <-. by apply (Hnone k).
  - rewrite app_nil_r, C1, Heasy. done.
  - apply (carries_delete w w2 p t info code); [done|apply Htok|done..].
  - apply (answered_record _ _ _ _ _ R2); [done|apply Htok].
Qed.

(** The outcome of a submission: it is registered under an id that was free, or
    it failed, its handle is cleaned up and the other transfers are untouched. *)
Definition rejected (w : world) (pl : execute_payload) (w' : world) (es : list event) : Prop :=
  cleanups es = option_list (easy pl) ∧ Registry.data (nodes w') = Registry.data (nodes w) ∧
  ∀ r, result pl = Some r → answered w' r.
Definition entered (w : world) (m : gmap Z ptr) (pl : execute_payload) (w' : world)
    (m' : gmap Z ptr) (es : list event) : Prop :=
  cleanups es = [] ∧ m !! transfer_id pl = None ∧ ∃ p t, nodes w !! p = None ∧
    m' = <[transfer_id pl := p]> m ∧ nodes w' !! p = Some t ∧ easy pl = Some (Registry.easy t) ∧
    live w' ≡ₚ Registry.easy t :: live w.

Definition executed (w : world) (m : gmap Z ptr) (pl : execute_payload) (w' : world)
    (es : list event) : Prop :=
  ∃ m', agent_ok w' m' ∅ ∧ chan w' = chan w ∧ addresses w' = addresses w ∧ carries w w' ∧
    (∀ r, result pl = Some r → tracked w' r) ∧
    (m' = m ∧ rejected w pl w' es ∨ entered w m pl w' m' es).

Lemma data_delete_new (h : gmap ptr Registry.transfer) p t : h !! p = None → delete p (<[p := t]> h) = h.
Proof. intros Hp. by rewrite delete_insert_eq, delete_id. Qed.

Lemma data_delete h h' p : Registry.data h' = Registry.data h →
  Registry.data (delete p h') = Registry.data (delete p h).
Proof. unfold Registry.data. intros E. by rewrite !fmap_delete, E. Qed.

Lemma rejected_executed w m pl w' es :
  agent_ok w' m ∅ → chan w' = chan w → addresses w' = addresses w → carries w w' →
  rejected w pl w' es → executed w m pl w' es.
Proof.
  intros H1 H2 H3 H4 H5. exists m. split_and!; try done; [|by left]. intros r Hr. right. by apply H5.
Qed.

Lemma wp_fail_execute w m pl code :
  agent_ok w m ∅ → payload_ok w pl → (∀ e, easy pl = Some e → e ∉ live w) →
  wp (fail_payload pl code) (λ _ w' es, executed w m pl w' es ∧ failed w pl code w' ∧
    cleanups es = option_list (easy pl)) w.
Proof.
  intros Hok Hpl Hfresh. eapply wp_mono; [apply fail_spec; [apply Hok|done|]|].
  { intros e He Hin. by apply (Hfresh e He), (added_live w m ∅). }
  intros [] w' es (Hm & Hf & He). pose proof Hf as [T K A _ _ _ _].
  destruct (failed_carries _ _ _ _ Hf Hpl) as [C G]. split; [|done].
  apply rejected_executed; [by eapply agent_ok_failed|done|done|done|].
  split; [done|]. split; [by rewrite T|done].
Qed.

(** The new transfer is not in the registry. *)
Lemma new_unregistered w m D p : agent_ok w m D → nodes w !! p = None → ∀ k, m !! k ≠ Some p.
Proof. intros Hok Hp k Hk. destruct (ag_live _ _ _ Hok k p Hk) as (t & Ht & _). congruence. Qed.

(** The submission [pl] to [w] has its transfer [p] in memory, the registry being [m1]. *)
Record created (w : world) (m : gmap Z ptr) (pl : execute_payload) (w1 : world) (m1 : gmap Z ptr)
    (p : ptr) (t : Registry.transfer) : Prop := Created {
  cr_agent : agent_ok w1 m1 {[p]};
  cr_new : nodes w !! p = None;
  cr_unregistered k : m !! k ≠ Some p;
  cr_node : nodes w1 !! p = Some t;
  cr_others : Registry.data (delete p (nodes w1)) = Registry.data (nodes w);
  cr_id : Registry.id t = transfer_id pl;
  cr_easy : easy pl = Some (Registry.easy t);
  cr_result : result pl = Some (Registry.result t);
  cr_active : Registry.active t = false;
  cr_chan : chan w1 = chan w;
  cr_addresses : addresses w1 = addresses w;
  cr_carries : carries w w1
}.

Lemma created_data w m pl w1 m1 p t w2 m2 :
  created w m pl w1 m1 p t → agent_ok w2 m2 {[p]} → table_only w1 w2 →
  Registry.data (nodes w2) = Registry.data (nodes w1) → ∃ t2, created w m pl w2 m2 p t2.
Proof.
  intros [Hok Hnew Hun Hp Hd Hid He Hr Ha K A C] Hok2 T2 D2.
  destruct (Registry.data_lookup _ _ _ _ D2 Hp) as (t2 & Hp2 & E2).
  destruct (same_data _ _ E2) as (Eid & Eeasy & Eres & _ & _ & _ & Eact).
  pose proof (table_only_settles _ _ T2 D2) as [K2 A2 _ C2]. exists t2.
  split; try congruence; try done.
  - by rewrite (data_delete _ _ _ D2).
  - by transitivity w1.
Qed.

(** Giving up a transfer that is not in the registry. *)
Lemma wp_give_up w m pl w1 p t code :
  created w m pl w1 m p t → payload_ok w pl →
  wp (fail_payload pl code;; free_transfer p) (λ _ w' es, executed w m pl w' es) w1.
Proof.
  intros [Hok Hnew Hun Hp Hd Hid He Hr Ha K A C] Hpl.
  eapply wp_mono; [apply (wp_fail_free w1 m p t); try done; by apply (payload_ok_addresses w)|].
  intros [] w2 es2 (Hok2 & N2 & K2 & A2 & C2 & G2 & X2).
  apply rejected_executed; [done|congruence|congruence|by transitivity w1|].
  split; [by rewrite C2, He|]. split; [by rewrite N2|]. intros r Hr'. congruence.
Qed.

Lemma wp_give_up_attached w m pl w1 p t code :
  created w m pl w1 m p t →
  wp (finish_detached_transfer (Some p) code) (λ _ w' es, executed w m pl w' es) w1.
Proof.
  intros [Hok Hnew Hun Hp Hd Hid He Hr Ha K A C].
  eapply wp_mono; [by apply (wp_finish w1 m p t)|].
  intros [] w2 es2 (Hok2 & Hf & [K2 A2 _ G2] & C2).
  apply rejected_executed; [done|congruence|congruence|by transitivity w1|].
  split; [by rewrite C2, He|]. split; [by rewrite (fin_nodes _ _ _ _ _ Hf)|].
  intros r Hr'. rewrite Hr in Hr'. injection Hr' as <-.
  apply (published_answered w1 t code), (finished_published w1 w1 p t t); [|done..].
  by destruct w1.
Qed.

(** The registry forgets the new transfer. *)
Lemma wp_take_back {A} w m pl w1 p t (k : M world A) Q :
  created w m pl w1 (<[transfer_id pl := p]> m) p t → m !! transfer_id pl = None →
  (∀ w2 t2, created w m pl w2 m p t2 → wp k Q w2) →
  wp (on_field table (Registry.registry_remove (transfer_id pl));; k) Q w1.
Proof.
  intros Hc Hid Hk. wp_step. eapply wp_mono; [apply wp_registry_remove, Hc|].
  intros r w2 es2 (-> & -> & Hok2 & T2 & D2 & _). rewrite lookup_insert_eq in Hok2.
  rewrite delete_insert_id in Hok2 by done.
  assert ({[p]} ∪ option_to_set (Some p) = ({[p]} : gset ptr)) as E2 by set_solver. rewrite E2 in Hok2.
  destruct (created_data _ _ _ _ _ _ _ _ _ Hc Hok2 T2 D2) as [t2 Hc2].
  eapply wp_mono; [by eapply Hk|]. done.
Qed.

(** The new transfer is driven by libcurl. *)
Lemma agent_ok_activate w w' m p t :
  agent_ok w m {[p]} → nodes w !! p = Some t → m !! Registry.id t = Some p →
  table w' = (table w) <| Registry.nodes := <[p := t <| Registry.active := true |>]> (nodes w) |> →
  streams w' = streams w → header_objects w' = header_objects w →
  metric_objects w' = metric_objects w → addresses w' = addresses w →
  private_of (curl w') (Registry.easy t) = Some p →
  (∀ e, e ≠ Registry.easy t → private_of (curl w') e = private_of (curl w) e) →
  added (curl w') = {[Registry.easy t]} ∪ added (curl w) → agent_ok w' m ∅.
Proof.
  intros [[Hobj [Hn He Ha]] Hr Hreg Hlive] Hp Hm Ht E1 E2 E3 Haddr Hpriv Hpriv' Hadd.
  set (t' := t <| Registry.active := true |>) in *.
  assert (nodes w' = <[p := t']> (nodes w)) as N by (by rewrite Ht).
  assert (∀ q u, nodes w' !! q = Some u → q = p ∧ u = t' ∨ q ≠ p ∧ nodes w !! q = Some u) as Hcase.
  { intros q u. rewrite N, lookup_insert_Some. intros [[<- <-]|[? ?]]; auto. }
  assert (∀ q u, q ≠ p → nodes w !! q = Some u → nodes w' !! q = Some u) as Hold.
  { intros q u Hne Hq. by rewrite N, lookup_insert_ne. }
  assert (nodes w' !! p = Some t') as Hp' by (by rewrite N, lookup_insert_eq).
  split; [split; [by apply (objects_ok_same w)|split]| | |].
  - intros q u Hq. rewrite Hadd. destruct (Hcase q u Hq) as [[-> ->]|[Hne Hq']].
    + split; [apply (transfer_ok_addresses w); [done|by apply (Hn p t)]|]. split; [set_solver|done].
    + destruct (Hn q u Hq') as (H1 & H2 & H3).
      assert (Registry.easy u ≠ Registry.easy t) as Hue by (intros E; by apply Hne, (He q p u t)).
      split; [by apply (transfer_ok_addresses w)|]. split; [rewrite H2; set_solver|].
      intros Hact. rewrite Hpriv' by done. by apply H3.
  - intros q r u v Hq Hr0. destruct (Hcase q u Hq) as [[-> ->]|[Hne Hq']],
      (Hcase r v Hr0) as [[-> ->]|[Hne' Hr']]; intros E; [done| | |].
    + by apply (He p r t v).
    + by apply (He q p u t).
    + by apply (He q r u v).
  - intros e. rewrite Hadd, elem_of_union, elem_of_singleton. intros [->|Hin]; [by exists p, t'|].
    destruct (Ha e Hin) as (q & u & Hq & Hu). destruct (decide (q = p)) as [->|Hne].
    + exists p, t'. split; [done|]. rewrite Hp in Hq. by injection Hq as <-.
    + exists q, u. auto.
  - rewrite Ht. destruct Hr as [Hr|[Hb Hnil]]; [left|by right].
    apply Registry.registry_ok_frame; [done|]. intros k q u _ Hq.
    destruct (decide (q = p)) as [->|Hne].
    + rewrite lookup_insert_eq. rewrite Hp in Hq. injection Hq as <-. by eexists.
    + rewrite lookup_insert_ne by done. by exists u.
  - intros q u Hq _. destruct (Hcase q u Hq) as [[-> ->]|[Hne Hq']]; [done|].
    apply Hreg; [done|set_solver].
  - intros k q Hk. destruct (Hlive k q Hk) as (u & Hu & <-). destruct (decide (q = p)) as [->|Hne].
    + exists t'. split; [done|]. rewrite Hp in Hu. by injection Hu as <-.
    + exists u. auto.
Qed.

Lemma created_curl w m pl w1 m1 p t c :
  created w m pl w1 m1 p t → (∀ e, e ∈ added (curl w1) → private_of c e = private_of (curl w1) e) →
  added c = added (curl w1) → created w m pl (w1 <| curl := c |>) m1 p t.
Proof.
  intros [] Hp Ha. split; try done. by apply agent_ok_private.
Qed.

Lemma executed_active w m pl w1 p t w2 :
  created w m pl w1 (<[transfer_id pl := p]> m) p t → m !! transfer_id pl = None →
  w2 = w1 <| curl := curl w2 |>
    <| table ::= λ s, s <| Registry.nodes ::= <[p := t <| Registry.active := true |>]> |> |> →
  private_of (curl w2) = private_of (curl w1) → private_of (curl w1) (Registry.easy t) = Some p →
  added (curl w2) = {[Registry.easy t]} ∪ added (curl w1) → executed w m pl w2 [].
Proof.
  intros [Hok Hnew Hun Hp Hd Hid He Hr Ha K A C] Hfree E2 P2 P1 A2.
  assert (table w2 = (table w1) <| Registry.nodes := <[p := t <| Registry.active := true |>]> (nodes w1) |>) as T2
    by (by rewrite E2).
  assert (nodes w2 = <[p := t <| Registry.active := true |>]> (nodes w1)) as N2 by (by rewrite T2).
  assert (addresses w2 = addresses w1) as D2 by (by rewrite E2).
  assert (carries w1 w2) as C2.
  { apply carries_same; [|by rewrite E2]. rewrite N2, fmap_insert. apply insert_id. by rewrite lookup_fmap, Hp. }
  exists (<[transfer_id pl := p]> m).
  split; [|split; [by rewrite <- K, E2|split; [congruence|split; [by transitivity w1|split; [|right]]]]].
  - apply (agent_ok_activate w1 w2 _ p t); try done; try (by rewrite E2).
    + by rewrite Hid, lookup_insert_eq.
    + by rewrite P2.
    + intros e _. by rewrite P2.
  - intros r Hr'. apply C2. left. exists p, t. split; [done|congruence].
  - split; [done|]. split; [done|]. exists p, (t <| Registry.active := true |>).
    split; [done|]. split; [done|]. rewrite N2, lookup_insert_eq. split; [done|]. split; [done|]. cbn.
    rewrite (live_update w1 w2 p t _ N2 Hp eq_refl).
    rewrite <- (live_delete w1 (with_nodes (delete p (nodes w1)) w1) p t eq_refl Hp).
    apply perm_skip, reflexive_eq, live_easy, data_easy. exact Hd.
Qed.

(** A new transfer enters the registry, or its id is taken. *)
Lemma wp_enter `{Allocator} {A} w m pl p e r (k : bool → M world A) Q :
  let t := Registry.Transfer (transfer_id pl) e r (metrics pl) (download_stream pl) (upload_stream pl)
    false None in
  agent_ok w m ∅ → payload_ok w pl → e ∉ live w → easy pl = Some e → result pl = Some r →
  nodes w !! p = None →
  (∀ b w2 t2, created w m pl w2 (if b : bool then <[transfer_id pl := p]> m else m) p t2 →
    Registry.easy t2 = e → curl w2 = curl w → (b = true → m !! transfer_id pl = None) → wp (k b) Q w2) →
  wp (on_field table (Registry.registry_insert (Some p)) ≫= k) Q (with_nodes (<[p := t]> (nodes w)) w).
Proof.
  intros t Hok Hpl Hfresh Ee Er Hp Hk. set (w1 := with_nodes _ w).
  assert (transfer_ok w t) as Ht.
  { destruct Hpl as (H1 & H2 & H3 & H4). rewrite Er in H1. by split_and!. }
  pose proof (agent_ok_new w m p t Hok Hp Ht eq_refl Hfresh) as Hok1. fold w1 in Hok1.
  assert (nodes w1 !! p = Some t) as Hp1 by (apply lookup_insert_eq).
  assert (created w m pl w1 m p t) as Hc1.
  { split; try done; [by apply (new_unregistered w m ∅)| |].
    - cbn. by rewrite data_delete_new.
    - intros x [(q & u & Hq & Hx)|Ha]; [left|by right]. exists q, u. split; [|done]. cbn.
      rewrite lookup_insert_ne; [done|]. intros <-. congruence. }
  wp_step. eapply wp_mono; [by apply wp_registry_insert|].
  intros b w2 es2 (-> & T2 & D2 & Hb). destruct (table_only_rest _ _ T2) as (_ & _ & L2).
  assert (agent_ok w2 (if b then <[transfer_id pl := p]> m else m) {[p]}) as Hok2 by (by destruct b; [apply Hb|]).
  destruct (created_data _ _ _ _ _ _ _ _ _ Hc1 Hok2 T2 D2) as [t2 Hc2].
  eapply wp_mono; [apply (Hk b w2 t2 Hc2); [|done|]|done].
  - pose proof (cr_easy _ _ _ _ _ _ _ Hc2) as Ee2. congruence.
  - intros ->. apply Hb.
Qed.

Lemma wp_execute `{Allocator} w m pl :
  agent_ok w m ∅ → payload_ok w pl → (∀ e, easy pl = Some e → e ∉ live w) →
  wp (execute_transfer pl) (λ _ w' es, executed w m pl w' es) w.
Proof.
  intros Hok Hpl Hfresh. unfold execute_transfer.
  assert (∀ code, wp (fail_payload pl code) (λ _ w' es, executed w m pl w' es) w) as Hfail.
  { intros code. eapply wp_mono; [by apply (wp_fail_execute w m)|]. by intros [] w' es [? _]. }
  assert (wp (if bool_decide (easy pl = None) && bool_decide (result pl = None)
       && bool_decide (download_stream pl = None) && bool_decide (upload_stream pl = None)
    then mret () else fail_payload pl CURLE_FAILED_INIT) (λ _ w' es, executed w m pl w' es) w) as Hbad.
  { case_bool_decide as E1; [|by apply Hfail]. case_bool_decide as E2; [|by apply Hfail]. cbn [andb].
    wp_step; [|by apply Hfail]. wp_step. apply rejected_executed; try done. unfold rejected. by rewrite E1, E2. }
  destruct (easy pl) as [e|] eqn:Ee; [|done]. destruct (result pl) as [r|] eqn:Er; [|done]. clear Hbad.
  wp_step; [apply Hfail|].
  wp_step. apply wp_new; [apply Hfail|]. intros p Hp.
  apply (wp_enter w m pl p e r); try done; [by apply Hfresh|].
  intros b w2 t2 Hc2 He2 L2 Hid. destruct b; cbn [negb]; [|by eapply wp_give_up].
  specialize (Hid eq_refl). assert (e ∉ added (curl w2)) as Hna.
  { rewrite L2. intros Hin. by apply (Hfresh e eq_refl), (added_live w m ∅). }
  wp_step. apply wp_call. intros r3 c3 Hc3. destruct (setopt_private_law _ _ _ _ _ Hc3) as (P3 & A3 & _).
  assert (created w m pl (w2 <| curl := c3 |>) (<[transfer_id pl := p]> m) p t2) as Hcr3.
  { apply created_curl; [done| |done]. intros e' He'. rewrite P3, decide_False; [done|]. by intros [-> _]. }
  wp_step; [eapply wp_take_back; [done..|]; intros w4 t4 Hc4; by eapply wp_give_up|].
  apply dec_stable in n0 as ->. wp_step. apply wp_call. intros r4 c4 Hc4.
  destruct (multi_add_law _ _ _ _ Hc4) as (P4 & A4). wp_step.
  { rewrite decide_False in A4 by done. eapply wp_take_back; [|done|].
    - apply (created_curl _ _ _ _ _ _ _ c4 Hcr3); [|done]. intros e' _. by rewrite P4.
    - intros w5 t5 Hc5. by eapply wp_give_up_attached. }
  apply dec_stable in n0 as ->. rewrite decide_True in A4 by done.
  apply (wp_set_active p true t2); [apply Hc2|]. cbn [app].
  eapply (executed_active w m pl (w2 <| curl := c3 |>) p t2); try done; cbn.
  - by rewrite He2, P3, decide_True.
  - by rewrite He2.
Qed.

End agent.
End AgentProps.
