(* ===== verification/AgentStop.v ===== *)
(** * The agent's shutdown

    The loops of [shutdown_message_context]: every transfer of every bucket is
    finished, every queued submission fails, and the registry is gone. *)

From S2P Require Import Prelude Chain Extras Headers Registry Metrics Stream Agent AgentWorld AgentProps.
Import Agent AgentWorld AgentProps.

Open Scope Z_scope.
Open Scope record_scope.

Module AgentStop.
Section agent.
Context `{L : Libcurl} `{!LibcurlLaws} `{I : Metrics.CurlInfo}.

(** What the loops leave alone. *)
Record swept (w w' : world) (es : list event) : Prop := Swept {
  sw_memory : memory_ok w';
  sw_registry : Registry.registry (table w') = Registry.registry (table w);
  sw_settles : settles w w' es
}.

Lemma swept_refl w : memory_ok w → swept w w [].
Proof. intros Hw. split; [done|done|]. by apply settles_none. Qed.

Lemma swept_trans w0 w1 w2 e1 e2 : swept w0 w1 e1 → swept w1 w2 e2 → swept w0 w2 (e1 ++ e2).
Proof.
  intros [A1 A2 A3] [B1 B2 B3]. split; [done|congruence|]. by apply (settles_trans _ w1).
Qed.

(** Unlinking and finishing one transfer. *)
Lemma wp_sweep_one {A} w p t code (k : M world A) Q :
  memory_ok w → nodes w !! p = Some t →
  (∀ w1 es1, swept w w1 es1 → nodes w1 = delete p (nodes w) → wp k (λ a w' es, Q a w' (es1 ++ es)) w1) →
  wp (on_field table (Registry.set_next p None);; finish_detached_transfer (Some p) code;; k) Q w.
Proof.
  intros Hw Hp Hk. wp_step. apply wp_table. unfold wp at 1. rewrite (Registry.set_next_eq _ _ t None Hp).
  match goal with |- wp _ _ ?w => set (w1 := w) end.
  assert (nodes w1 = <[p := t <| Registry.next := None |>]> (nodes w)) as N1 by done.
  assert (Registry.data (nodes w1) = Registry.data (nodes w)) as D1
    by (rewrite N1; by apply Registry.data_set_next).
  wp_step. eapply wp_mono; [apply (finish_spec w1 p (t <| Registry.next := None |>))|].
  { by apply (memory_ok_data w). }
  { by rewrite N1, lookup_insert_eq. }
  intros [] w2 es2 (Hm & Hf & He). pose proof Hf as [F1 F2 F3 F4 _ _ _ _].
  destruct (finished_record _ _ _ _ _ Hf) as [info Hres].
  assert (nodes w2 = delete p (nodes w)) as N2 by (by rewrite F1, N1, delete_insert_eq).
  cbn [app]. apply Hk; [|done]. split; [done|by rewrite F2|]. split; [by rewrite F3|by rewrite F4| |].
  - rewrite He. cbn. by apply (live_delete w w2 p t).
  - apply (carries_delete w w2 p t info (normalized w1 (t <| Registry.next := None |>) code)); try done.
    apply (c_nodes w (proj2 Hw) p t Hp).
Qed.

Lemma wp_finish_chain fuel w p l code :
  memory_ok w → chain Registry.next (nodes w) p l → (length l ≤ fuel)%nat →
  wp (finish_chain fuel p code) (λ _ w' es, swept w w' es ∧
    (∀ q, q ∉ l → nodes w' !! q = nodes w !! q) ∧ (∀ q, q ∈ l → nodes w' !! q = None)) w.
Proof.
  revert w p l. induction fuel as [|fuel IH]; intros w p l Hw Hch Hf.
  { destruct l; [|cbn in Hf; lia]. cbn in Hch. subst p. cbn. split; [by apply swept_refl|].
    split; [done|]. by intros q ?%elem_of_nil. }
  destruct l as [|q l].
  { cbn in Hch. subst p. cbn. split; [by apply swept_refl|]. split; [done|]. by intros q ?%elem_of_nil. }
  pose proof (chain_nodup _ _ _ _ Hch) as [Hq Hnd]%NoDup_cons.
  destruct Hch as (-> & t & Ht & Hch). cbn [finish_chain].
  wp_step. apply (wp_node q t); [done|].
  apply (wp_sweep_one w q t); [done..|]. intros w1 es1 S1 N1.
  eapply wp_mono; [apply (IH w1 (Registry.next t) l)|].
  - apply (sw_memory _ _ _ S1).
  - rewrite N1. by apply chain_delete.
  - cbn in Hf. lia.
  - intros [] w2 es2 (S2 & K2 & G2). split; [by apply (swept_trans w w1 w2 es1 es2)|]. split.
    + intros r Hr. assert (r ≠ q ∧ r ∉ l) as [H1 H2] by (split; [intros ->; apply Hr; by left|intros Hin; apply Hr; by right]).
      rewrite K2, N1 by done. by apply lookup_delete_ne.
    + intros r [->|Hr]%elem_of_cons; [|by apply G2]. rewrite K2, N1 by done. apply lookup_delete_eq.
Qed.

(** Every transfer is in a bucket from [index] on. *)
Record buckets_left (w : world) (bs : list (option ptr)) (ls : nat → list ptr) (index : nat) : Prop := BucketsLeft {
  bl_memory : memory_ok w;
  bl_buckets : Registry.buckets (Registry.registry (table w)) = Some bs;
  bl_chains i p : (index ≤ i)%nat → bs !! i = Some p → chain Registry.next (nodes w) p (ls i);
  bl_nodes q : is_Some (nodes w !! q) → ∃ i, (index ≤ i < length bs)%nat ∧ q ∈ ls i;
  bl_disjoint i j q : (i < length bs)%nat → (j < length bs)%nat → q ∈ ls i → q ∈ ls j → i = j
}.

Lemma wp_finish_buckets n w bs ls index code :
  buckets_left w bs ls index → (index + n = length bs)%nat →
  wp (finish_buckets n (Z.of_nat index) code) (λ _ w' es, memory_ok w' ∧ settles w w' es ∧
    nodes w' = ∅ ∧ is_Some (Registry.buckets (Registry.registry (table w')))) w.
Proof.
  revert w bs index. induction n as [|n IH]; intros w bs index [Hm Hb Hch Hn Hd] Hlen.
  { cbn. split; [done|]. split; [by apply settles_none|]. split; [|by rewrite Hb].
    apply map_empty. intros q. destruct (nodes w !! q) eqn:E; [|done].
    destruct (Hn q ltac:(by eexists)) as (i & Hi & _). lia. }
  cbn [finish_buckets]. destruct (lookup_lt_is_Some_2 bs index ltac:(lia)) as [p Hp].
  wp_step. apply wp_table. unfold wp at 1. rewrite (Registry.load_bucket_eq _ bs _ p) by (by rewrite ?Nat2Z.id).
  assert (w <| table := table w |> = w) as -> by (by destruct w).
  wp_step. apply wp_table. unfold wp at 1.
  rewrite (Registry.store_bucket_eq _ bs (Z.of_nat index) None Hb) by lia. rewrite Nat2Z.id.
  match goal with |- wp _ _ ?w => set (w1 := w) end.
  assert (memory_ok w1) as Hm1 by (by apply (memory_ok_data w)).
  wp_step. apply wp_table. unfold Registry.walk. apply wp_gets. cbv beta.
  assert (w1 <| table := table w1 |> = w1) as -> by done.
  wp_step. eapply wp_mono; [apply (wp_finish_chain _ w1 p (ls index)); [done|by apply Hch|]|].
  { apply (chain_length Registry.next (nodes w1) p). by apply Hch. }
  intros [] w2 es2 ([Hm2 Hr2 S2] & K2 & G2).
  replace (Z.of_nat index + 1) with (Z.of_nat (S index)) by lia.
  eapply wp_mono; [apply (IH w2 (<[index := None]> bs) (S index)); [|rewrite length_insert; lia]|].
  - split; rewrite ?length_insert; try done.
    + by rewrite Hr2.
    + intros i q Hi Hq. rewrite list_lookup_insert_ne in Hq by lia.
      apply (chain_frame _ (nodes w)); [|by apply (Hch i q); [lia|]].
      intros r Hr. rewrite K2; [done|]. intros Hr'.
      assert (i = index) as ->; [|lia]. apply (Hd i index r); [by eapply lookup_lt_Some|lia|done|done].
    + intros q [t Hq]. destruct (decide (q ∈ ls index)) as [Hin|Hout]; [by rewrite G2 in Hq|].
      rewrite K2 in Hq by done. destruct (Hn q) as (i & Hi & Hqi); [by eexists|].
      exists i. split; [|done]. assert (i ≠ index) by (by intros ->). lia.
  - intros [] w3 es3 (Hm3 & S3 & N3 & B3). split; [done|]. split; [|done].
    apply (settles_trans w w2 w3 es2 es3); [|done]. by destruct S2.
Qed.

(** ** The queue *)

Definition submitted_easy (m : outer_message) : option ptr :=
  match m with Execute pl => easy pl | _ => None end.
Definition submitted_result (m : outer_message) : option ptr :=
  match m with Execute pl => result pl | _ => None end.
(** The handles of the queued submissions. *)
Definition queued (w : world) : list ptr := omap submitted_easy (chan w).

Definition message_ok (w : world) (m : outer_message) : Prop :=
  match m with Execute pl => payload_ok w pl | _ => True end.

Lemma message_ok_addresses w w' m : addresses w' = addresses w → message_ok w m → message_ok w' m.
Proof. destruct m; [|done..]. apply payload_ok_addresses. Qed.

(** The records that still have or will have their answer. *)
Definition owed (w : world) (r : ptr) : Prop := tracked w r ∨ r ∈ omap submitted_result (chan w).

Lemma wp_dequeue w Q :
  match chan w with
  | [] => Q None w []
  | m :: ms => Q (Some m) (w <| chan := ms |>) []
  end → wp dequeue Q w.
Proof. unfold dequeue. intros HQ. wp_step. wp_step. destruct (chan w); [by wp_step|]. by wp_steps. Qed.

Lemma no_nodes_added w e : memory_ok w → nodes w = ∅ → e ∉ added (curl w).
Proof. intros [_ Hc] Hn Hin. destruct (c_added w Hc e Hin) as (p & t & Hp & _). by rewrite Hn in Hp. Qed.

Lemma tracked_answered w r : nodes w = ∅ → tracked w r → answered w r.
Proof. intros Hn [(p & t & Hp & _)|Ha]; [|done]. by rewrite Hn in Hp. Qed.

Lemma owed_answered w r : nodes w = ∅ → chan w = [] → owed w r → answered w r.
Proof. intros Hn Hc [Hr|Hr]; [by apply tracked_answered|]. rewrite Hc in Hr. by apply elem_of_nil in Hr. Qed.

(** Draining fails every queued submission. *)
Lemma wp_drain_loop fuel w code :
  memory_ok w → nodes w = ∅ → Forall (message_ok w) (chan w) → (length (chan w) ≤ fuel)%nat →
  wp (drain_loop fuel code) (λ _ w' es, memory_ok w' ∧ table w' = table w ∧ chan w' = [] ∧
    addresses w' = addresses w ∧ cleanups es = queued w ∧ ∀ r, owed w r → answered w' r) w.
Proof.
  revert w. induction fuel as [|fuel IH]; intros w Hm Hn Hall Hf; cbn [drain_loop]; wp_step;
    apply wp_dequeue; unfold queued; destruct (chan w) as [|m ms] eqn:Hc;
    try (by wp_step; rewrite Hc; split_and!; try done; intros r; apply owed_answered); [cbn in Hf; lia|].
  apply Forall_cons in Hall as [Hmsg Hall].
  set (w1 := w <| chan := ms |>). assert (memory_ok w1) as Hm1 by (by apply (memory_ok_data w)).
  assert (wp (match m with Execute payload => fail_payload payload code | _ => mret () end)
    (λ _ w' es, memory_ok w' ∧ table w' = table w1 ∧ chan w' = chan w1 ∧
      addresses w' = addresses w1 ∧ cleanups es = option_list (submitted_easy m) ∧
      (∀ r, tracked w1 r ∨ submitted_result m = Some r → tracked w' r)) w1) as Hone.
  { destruct m as [pl| | |]; try (by wp_step; split_and!; try done; intros r [?|?]).
    assert (payload_ok w1 pl) as Hpl by (by apply (payload_ok_addresses w)).
    eapply wp_mono; [apply fail_spec; [done|done|]; intros e _; by apply no_nodes_added|].
    intros [] w' es (Hm' & Hfl & He). pose proof Hfl as [T K A _ _ _ _].
    destruct (failed_carries _ _ _ _ Hfl Hpl) as [C G]. split_and!; try done.
    intros r [Hr|Hr]; [by apply C|right; by apply G]. }
  wp_step. eapply wp_mono; [exact Hone|]. intros [] w2 es2 (Hm2 & T2 & K2 & A2 & C2 & G2).
  eapply wp_mono; [apply (IH w2); [done|by rewrite T2| |]|].
  - rewrite K2. eapply Forall_impl; [exact Hall|]. intros m' Hm'.
    apply (message_ok_addresses w); [|done]. by rewrite A2.
  - rewrite K2. cbn in Hf |- *. lia.
  - intros [] w3 es3 (Hm3 & T3 & K3 & A3 & C3 & G3). split; [done|]. split; [by rewrite T3, T2|].
    split; [done|]. split; [by rewrite A3, A2|]. split.
    + cbn [app]. rewrite cleanups_app, C2, C3. unfold queued. rewrite K2. cbn. by destruct (submitted_easy m).
    + intros r Hr. apply G3. unfold owed in Hr |- *. rewrite K2. rewrite Hc in Hr. cbn in Hr.
      destruct Hr as [Hr|Hr]; [left; apply G2; by left|].
      destruct (submitted_result m) as [r'|] eqn:Em; [|by right].
      apply elem_of_cons in Hr as [->|Hr]; [left; apply G2; by right|by right].
Qed.

(** ** The shutdown *)

Lemma agent_buckets w m bs :
  agent_ok w m ∅ → Registry.buckets (Registry.registry (table w)) = Some bs →
  Zlen bs = Registry.bucket_count (Registry.registry (table w)) ∧ ∃ ls, buckets_left w bs ls 0.
Proof.
  intros Hok Hb. pose proof (ag_registry _ _ _ Hok) as [[_ (bs' & ls & Hb' & Hn & Hp & Ht & Hc)]|[? _]]; [|congruence].
  rewrite Hb in Hb'. injection Hb' as <-. split; [done|]. exists ls. split; [apply Hok|done|..].
  - intros i p _ Hi. by apply (Ht i p).
  - intros q [t Hq]. destruct (ag_registered _ _ _ Hok q t Hq ltac:(set_solver)) as [Hm _].
    apply Hc in Hm as [(i & Hi & Hin) _]. exists i. split; [lia|done].
  - intros i j q. by apply (Registry.table_disjoint (nodes w)).
Qed.

Definition stopped (w : world) : Prop := Registry.buckets (Registry.registry (table w)) = None.

Lemma agent_stopped w m : agent_ok w m ∅ → stopped w → m = ∅ ∧ nodes w = ∅.
Proof.
  intros Hok Hs. pose proof (ag_registry _ _ _ Hok) as [[_ (bs & ls & Hb & _)]|[_ ->]].
  { unfold stopped in Hs. congruence. }
  split; [done|]. apply map_empty. intros q. destruct (nodes w !! q) as [t|] eqn:E; [|done].
  destruct (ag_registered _ _ _ Hok q t E ltac:(set_solver)) as [Hm _]. by rewrite lookup_empty in Hm.
Qed.

Lemma live_empty w : nodes w = ∅ → live w = [].
Proof. unfold live. intros ->. rewrite fmap_empty, map_to_list_empty. done. Qed.

Lemma wp_shutdown w m code :
  agent_ok w m ∅ → Forall (message_ok w) (chan w) → (stopped w → chan w = []) →
  wp (shutdown_message_context code) (λ _ w' es, agent_ok w' ∅ ∅ ∧ stopped w' ∧ chan w' = [] ∧
    addresses w' = addresses w ∧ cleanups es ≡ₚ live w ++ queued w ∧
    ∀ r, owed w r → answered w' r) w.
Proof.
  intros Hok Hall Hchan. unfold shutdown_message_context. wp_step. wp_step. wp_step.
  { wp_step. destruct (agent_stopped w m Hok e) as [-> Hn]. split; [done|]. split; [done|].
    split; [by apply Hchan|]. split; [done|]. rewrite live_empty by done.
    unfold queued. rewrite Hchan by done. split; [done|]. intros r. apply owed_answered; [done|by apply Hchan]. }
  destruct (Registry.buckets (Registry.registry (table w))) as [bs|] eqn:Hb; [|done].
  destruct (agent_buckets w m bs Hok Hb) as (Hlen & ls & Hleft).
  wp_step. eapply wp_mono; [apply (wp_finish_buckets _ w bs ls 0); [done|lia]|].
  intros [] w1 es1 (Hm1 & [K1 A1 V1 G1] & N1 & _).
  wp_step. apply wp_table. apply wp_modify. cbv beta.
  match goal with |- wp _ _ ?w => set (w2 := w) end.
  assert (memory_ok w2) as Hm2 by (by apply (memory_ok_data w1)).
  wp_step. wp_step. wp_step. eapply wp_mono.
  { apply (wp_drain_loop _ w2 code); [done|done| |done]. change (chan w2) with (chan w1).
    rewrite K1. eapply Forall_impl; [exact Hall|]. intros msg. apply message_ok_addresses. exact A1. }
  intros [] w3 es3 (Hm3 & T3 & K3 & A3 & C3 & G3).
  apply wp_table. unfold Registry.registry_destroy, Registry.set_registry. apply wp_modify. cbv beta.
  match goal with |- agent_ok ?w _ _ ∧ _ => set (w4 := w) end.
  assert (nodes w4 = ∅) as N4 by (cbn; rewrite T3; exact N1).
  split.
  { split; [by apply (memory_ok_data w3)|by right| |done]. intros p t Hp. by rewrite N4 in Hp. }
  split; [done|]. split; [done|]. split; [transitivity (addresses w3); [done|by rewrite A3]|]. split.
  - rewrite !cleanups_app, C3. change (cleanups []) with (@nil ptr). rewrite !app_nil_l, app_nil_r.
    rewrite <- V1, (live_empty w1 N1), app_nil_r. unfold queued. change (chan w2) with (chan w1).
    by rewrite K1.
  - intros r [Hr|Hr].
    + apply (G3 r). left. apply (G1 r) in Hr as [Hr|Hr]; [by left|by right].
    + apply (G3 r). right. change (chan w2) with (chan w1). by rewrite K1.
Qed.

End agent.
End AgentStop.
