(* ===== verification/AgentSample.v ===== *)
(** * A libcurl to run the agent with

    A small implementation of the interface of [Agent.v], which shows that the
    laws can hold and on which the theorems about the agent are instantiated. *)

From S2P Require Import Prelude Extras Headers Registry Metrics Stream.
From S2P Require Import StreamRing StreamOps Agent AgentWorld AgentProps AgentStop.
Import EasyData Agent AgentWorld AgentProps AgentStop.

Open Scope Z_scope.
Open Scope record_scope.

Module AgentSample.

(** The private pointers, the handles that are driven and the messages, of which
    those for other handles do not count. *)
Record sample_lib := SampleLib {
  privates : gmap ptr ptr;
  driven : gset ptr;
  inbox : list (bool * ptr * Z)
}.
#[export] Instance sample_lib_eta : Eta sample_lib := λ c,
  SampleLib (privates c) (driven c) (inbox c).

Definition readable (d : gset ptr) (l : list (bool * ptr * Z)) : list (bool * ptr * Z) :=
  filter (λ x, x.1.2 ∈ d) l.

(** Adding the handle 99 fails. *)
#[export] Instance sample_libcurl : Libcurl := {|
  lib := sample_lib;
  setopt_private e v c := (CURLE_OK, c <| privates ::= partial_alter (λ _, v) e |>);
  getinfo_private e c := (CURLE_OK, privates c !! e);
  getinfo_response_code e c := (CURLE_OK, 200);
  multi_add_handle e c := if decide (e = 99%positive) then (1, c) else (0, c <| driven ::= union {[e]} |>);
  multi_remove_handle e c := (0, c <| driven ::= λ d, d ∖ {[e]} |>);
  easy_pause_cont e c := (CURLE_OK, c);
  easy_cleanup e c := ((), c <| driven ::= λ d, d ∖ {[e]} |>);
  multi_info_read c :=
    match readable (driven c) (inbox c) with
    | [] => (None, c)
    | x :: l => (Some x, c <| inbox := l |>)
    end;
  messages c := length (readable (driven c) (inbox c))
|}.

Lemma readable_subset (d d' : gset ptr) l :
  d' ⊆ d → (length (readable d' l) ≤ length (readable d l))%nat.
Proof.
  intros Hd. unfold readable. induction l as [|x l IH]; [done|]. rewrite !filter_cons.
  do 2 case_decide; cbn; try lia. by exfalso; set_solver.
Qed.

Lemma readable_idemp d l : readable d (readable d l) = readable d l.
Proof.
  unfold readable. induction l as [|x l IH]; [done|]. rewrite filter_cons. case_decide; [|done].
  rewrite filter_cons, decide_True by done. by rewrite IH.
Qed.

Lemma readable_cons d l x l' :
  readable d l = x :: l' → x.1.2 ∈ d ∧ length (readable d l') = length l'.
Proof.
  intros E. pose proof (readable_idemp d l) as Hi. rewrite E in Hi.
  assert (x.1.2 ∈ d) as Hx.
  { assert (x ∈ readable d l) as [Hx _]%list_elem_of_filter by (rewrite E; by left). done. }
  split; [done|]. unfold readable in Hi. rewrite filter_cons_True in Hi by done.
  injection Hi as Hi. unfold readable. by rewrite Hi.
Qed.

#[export, program] Instance sample_laws : LibcurlLaws := {|
  private_of c e := privates c !! e;
  added c := driven c
|}.
Next Obligation.
  cbn. intros e v c r c' [= <- <-]. split; [|by split]. intros e'. cbn.
  destruct (decide (e' = e)) as [->|Hne].
  - rewrite lookup_partial_alter_eq. by rewrite decide_True.
  - rewrite lookup_partial_alter_ne by done. rewrite decide_False; [done|]. by intros [-> _].
Qed.
Next Obligation. cbn. by intros e c v [= <-]. Qed.
Next Obligation. cbn. intros e c r c'. destruct (decide (e = 99%positive)); by intros [= <- <-]. Qed.
Next Obligation.
  cbn. intros e c r c' [= <- <-]. split; [done|]. split; [done|]. cbn. apply readable_subset. set_solver.
Qed.
Next Obligation. cbn. by intros e c r c' [= <- <-]. Qed.
Next Obligation.
  cbn. intros e c c' [= <-]. split; [done|]. split; [done|]. cbn. apply readable_subset. set_solver.
Qed.
Next Obligation.
  cbn. intros c m c' E. destruct (readable (driven c) (inbox c)) as [|x l] eqn:R; injection E as <- <-.
  - by rewrite R.
  - destruct (readable_cons _ _ _ _ R) as [Hx Hl]. split; [done|]. split; [done|].
    destruct x as [[b e] z]. split; [done|].
    change (length (readable (driven c) l) < S (length l))%nat. rewrite Hl. lia.
Qed.

(** A world with two records, a stream and no transfers. *)
Definition sample_record : hs_easy_data := Mk (-1) 0 (Waker.Mk (Some 5%positive) 0 false) false false.
#[export] Instance sample_metrics_info : Metrics.CurlInfo := Metrics.sample_info.
Definition sample_world : world :=
  World (Registry.Store ∅ (Registry.Mk (Some (replicate 64 None)) 64 0)) []
    {[ 21%positive := sample_record; 22%positive := sample_record ]}
    {[ 11%positive := Object StreamOps.StreamOps.demo None None ]} ∅ ∅ (SampleLib ∅ ∅ []).

(** Two submissions with the same id. *)
Definition first_payload : execute_payload :=
  Payload 7 (Some 1%positive) (Some 21%positive) None (Some 11%positive) None.
Definition second_payload : execute_payload :=
  Payload 7 (Some 2%positive) (Some 22%positive) None None None.

Lemma sample_objects : objects_ok sample_world.
Proof.
  split.
  - intros q o. unfold sample_world. cbn. rewrite lookup_singleton_Some. intros [_ <-]. split; [|done].
    exists []. by apply (StreamRing.StreamRing.create_ok _ _ _ _ _ _ StreamOps.StreamOps.demo_created).
  - intros h d. unfold sample_world. cbn. by rewrite lookup_empty.
Qed.

(** What a step leads to. *)
Definition after (m : M world ()) (w : world) : world :=
  match m w with Some (_, w', _) => w' | None => w end.
Definition said (m : M world ()) (w : world) : list event :=
  match m w with Some (_, _, es) => es | None => [] end.
Lemma after_said m w : is_Some (m w) → m w = Some ((), after m w, said m w).
Proof. unfold after, said. intros [[[[] w'] es] E]. by rewrite E. Qed.

End AgentSample.
