(* ===== verification/Submit.v ===== *)
(** * Submissions ([enqueue_outer_message] of [cbits/message_chan.c])

    A message as the producers build it and as the agent takes it: a block that
    the ring points to, handed over through the gate of the sender.  [Channel.v]
    interleaves these calls; here they run one after the other, with the
    messages in memory, and implement the list of messages that the agent
    of [Agent.v] dequeues from. *)

From S2P Require Import Prelude Mpscq Sender Registry Metrics Agent AgentWorld AgentProps AgentStop AgentSample.
Import Agent.

Open Scope Z_scope.
Open Scope record_scope.

Module Submit.
#[local] Existing Instance Sender.message_sender_eta.
#[local] Existing Instance Mpscq.mpscq_eta.

Definition sizeof_outer_message : Z := 56.

(** The messages in memory, the ring of pointers to them, the sender and whether
    [uv_async_send] was called. *)
Record channel := Channel {
  memory : gmap ptr outer_message;
  ring : option Mpscq.mpscq;
  gate : option Sender.message_sender;
  async_pending : bool
}.
#[export] Instance channel_eta : Eta channel := λ c,
  Channel (memory c) (ring c) (gate c) (async_pending c).

(** The fields that the tag of a message selects. *)
Definition message_of (tag : outer_message_types) (payload : execute_payload) : outer_message :=
  match tag with
  | EXECUTE => Execute payload
  | CANCEL_REQUEST => Cancel (transfer_id payload)
  | RESUME_REQUEST => Resume (transfer_id payload)
  | STOP_AGENT => Stop
  end.

Definition message_at (p : ptr) : M channel outer_message :=
  c ← gets (λ c, c); defined (memory c !! p).
Definition destroy_outer_message (p : ptr) : M channel () :=
  message_at p;; modify (λ c, c <| memory ::= delete p |>).

(** A call on the sender that was not NULL. *)
Definition on_gate {A} (m : M Sender.message_sender A) : M channel A := λ c,
  match gate c with
  | None => None
  | Some s => match m s with Some (a, s', es) => Some (a, c <| gate := Some s' |>, es) | None => None end
  end.

(** [uv_async_send] on the handle of the sender, which must be there. *)
Definition uv_async_send : M channel () :=
  s ← on_gate (gets (λ s, s));
  if Sender.async_handle s then modify (λ c, c <| async_pending := true |>) else fault.

(** A block that is not in use. *)
Definition new_message (h : gmap ptr outer_message) : ptr := base.fresh (dom h : gset ptr).

(** The arguments but for the sender and the tag are those of [payload]. *)
Definition enqueue_outer_message `{Allocator} (tag : outer_message_types) (payload : execute_payload) :
    M channel enqueue_message_result :=
  c ← gets (λ c, c);
  match gate c with
  | None => mret ENQUEUE_MESSAGE_CLOSED
  | Some sender =>
      if Sender.is_closed (Sender.state sender) then mret ENQUEUE_MESSAGE_CLOSED
      else if negb (calloc 1 sizeof_outer_message) then mret ENQUEUE_MESSAGE_OUT_OF_MEMORY
      else
        let message := new_message (memory c) in
        modify (λ c, c <| memory ::= <[message := message_of tag payload]> |>);;
        entered ← on_gate Sender.message_sender_enter;
        if negb entered then destroy_outer_message message;; mret ENQUEUE_MESSAGE_CLOSED
        else
          enqueued ← on_field ring (Mpscq.mpscq_enqueue (Some message));
          if negb enqueued then
            destroy_outer_message message;;
            on_gate Sender.message_sender_leave;;
            mret ENQUEUE_MESSAGE_FULL
          else
            uv_async_send;;
            on_gate Sender.message_sender_leave;;
            mret ENQUEUE_MESSAGE_OK
  end.

(** What a round of the agent's loops does to the channel. *)
Definition receive : M channel (option outer_message) :=
  message ← on_field ring Mpscq.mpscq_dequeue;
  match message with
  | None => mret None
  | Some p => m ← message_at p; destroy_outer_message p;; mret (Some m)
  end.

Definition close : M channel () := on_field gate Sender.message_sender_close.

(** ** Specification

    The agent's list of messages, bounded, and whether the sender is closed. *)

Inductive call := Send (a : Allocator) (tag : outer_message_types) (payload : execute_payload)
  | Receive | Close.
Inductive answer := Sent (r : enqueue_message_result) | Received (m : option outer_message) | Closed.

Definition run_call (o : call) : M channel answer :=
  match o with
  | Send a tag payload => r ← enqueue_outer_message (H := a) tag payload; mret (Sent r)
  | Receive => m ← receive; mret (Received m)
  | Close => close;; mret Closed
  end.
Fixpoint run_calls (os : list call) : M channel (list answer) :=
  match os with
  | [] => mret []
  | o :: os => a ← run_call o; l ← run_calls os; mret (a :: l)
  end.

Section spec.
Context `{L : Libcurl}.

Definition send_answer (a : Allocator) (closed : bool) (capacity : Z) (w : world) : enqueue_message_result :=
  if closed then ENQUEUE_MESSAGE_CLOSED
  else if negb (calloc (H := a) 1 sizeof_outer_message) then ENQUEUE_MESSAGE_OUT_OF_MEMORY
  else if bool_decide (Zlen (chan w) < capacity) then ENQUEUE_MESSAGE_OK else ENQUEUE_MESSAGE_FULL.

(** A call on the world of the agent. *)
Definition spec_call (capacity : Z) (o : call) (s : world * bool) : option (answer * (world * bool)) :=
  let '(w, closed) := s in
  match o with
  | Send a tag payload =>
      let r := send_answer a closed capacity w in
      Some (Sent r, (match r with
                     | ENQUEUE_MESSAGE_OK => w <| chan ::= λ l, l ++ [message_of tag payload] |>
                     | _ => w
                     end, closed))
  | Receive => match dequeue w with Some (m, w', _) => Some (Received m, (w', closed)) | None => None end
  | Close => Some (Closed, (w, true))
  end.
Fixpoint spec_calls (capacity : Z) (os : list call) (s : world * bool) :
    option (list answer * (world * bool)) :=
  match os with
  | [] => Some ([], s)
  | o :: os =>
      match spec_call capacity o s with
      | Some (a, s1) =>
          match spec_calls capacity os s1 with Some (l, s2) => Some (a :: l, s2) | None => None end
      | None => None
      end
  end.

(** ** The calls implement it *)

(** The ring points to the messages of the list, in order, which are the only
    ones in memory; nobody is in the gate. *)
Record implements (capacity : Z) (c : channel) (w : world) (closed : bool) : Prop := Implements {
  im_ring : ∃ q ps, ring c = Some q ∧ Mpscq.holds q ps ∧ Mpscq.max q = capacity ∧
    NoDup ps ∧ dom (memory c) = list_to_set ps ∧ Forall2 (λ p m, memory c !! p = Some m) ps (chan w);
  im_gate : ∃ r, gate c = Some (Sender.Mk r (Sender.word closed 0) (negb closed))
}.

Lemma wp_gate {A} (m : M Sender.message_sender A) s s' a es Q c :
  gate c = Some s → m s = Some (a, s', es) → Q a (c <| gate := Some s' |>) es → wp (on_gate m) Q c.
Proof. intros Hg E HQ. unfold wp, on_gate. by rewrite Hg, E. Qed.

Lemma wp_message_at p m Q c : memory c !! p = Some m → Q m c [] → wp (message_at p) Q c.
Proof. intros Hp HQ. unfold message_at. wp_step. wp_step. unfold wp, defined. by rewrite Hp. Qed.
Lemma wp_destroy_message p m Q c :
  memory c !! p = Some m → Q () (c <| memory ::= delete p |>) [] → wp (destroy_outer_message p) Q c.
Proof. intros Hp HQ. unfold destroy_outer_message. wp_step. apply (wp_message_at p m); [done|]. by wp_step. Qed.

Lemma enter_empty r h : Sender.message_sender_enter (Sender.Mk r (Sender.word false 0) h) =
  Some (true, Sender.Mk r (Sender.word false 1) h, []).
Proof. reflexivity. Qed.
Lemma leave_alone r h : Sender.message_sender_leave (Sender.Mk r (Sender.word false 1) h) =
  Some (false, Sender.Mk r (Sender.word false 0) h, []).
Proof. reflexivity. Qed.

Lemma fresh_message (ps : list ptr) (h : gmap ptr outer_message) :
  dom h = list_to_set ps → (new_message h ∉ ps) ∧ h !! (new_message h) = None.
Proof.
  intros Hd. assert (new_message h ∉ (dom h : gset ptr)) as Hf by (unfold new_message; apply is_fresh).
  split; [|by apply not_elem_of_dom]. rewrite Hd in *. by rewrite elem_of_list_to_set in Hf.
Qed.

Lemma wp_enqueue_message a tag payload n c w closed :
  implements n c w closed →
  wp (enqueue_outer_message (H := a) tag payload) (λ r c' es, es = [] ∧ r = send_answer a closed n w ∧
    implements n c' (match r with
                     | ENQUEUE_MESSAGE_OK => w <| chan ::= λ l, l ++ [message_of tag payload] |>
                     | _ => w
                     end) closed) c.
Proof.
  intros [(q & ps & Hq & Hh & Hn & Hnd & Hdom & Hf) (r & Hg)]. unfold enqueue_outer_message.
  wp_step. wp_step. rewrite Hg. cbn [Sender.state]. rewrite Sender.is_closed_word by lia. unfold send_answer.
  destruct closed; [wp_step; split; [done|]; split; [done|]; split; [by exists q, ps|by exists r]|].
  destruct (calloc 1 sizeof_outer_message); cbn [negb];
    [|wp_step; split; [done|]; split; [done|]; split; [by exists q, ps|by exists r]].
  destruct (fresh_message ps (memory c) Hdom) as [Hfr Hnone]. set (p := new_message _) in *.
  pose proof (Forall2_length _ _ _ Hf) as Hlen.
  wp_step. wp_step. wp_step. eapply wp_gate; [exact Hg|apply enter_empty|]. cbn [negb]. wp_step.
  apply wp_on_field. cbn [ring set_field]. change (ring (c <| memory ::= _ |> <| gate := _ |>)) with (ring c).
  rewrite Hq. eapply wp_mono; [by apply (Mpscq.enqueue_refines q ps p)|].
  intros b q' es (q1 & -> & -> & Hmax & Hb & Hh1). rewrite Hn in Hmax, Hb.
  rewrite <- Hlen, <- Hb. destruct b; cbn [negb].
  - unfold uv_async_send. wp_step. wp_step. eapply wp_gate; [reflexivity|reflexivity|].
    cbn [Sender.async_handle]. wp_step. wp_step.
    eapply wp_gate; [reflexivity|apply leave_alone|]. wp_step. split; [done|]. split; [done|].
    split; [|by exists r]. exists q1, (ps ++ [p]). split; [done|]. split; [done|]. split; [done|].
    split; [apply NoDup_app; split; [done|]; split; [set_solver|apply NoDup_singleton]|].
    split; [cbn; rewrite dom_insert_L, Hdom; set_solver|]. apply Forall2_app.
    + eapply Forall2_impl; [exact Hf|]. intros x m Hx. cbn. rewrite lookup_insert_ne; [done|]. intros ->. cbn in Hx. congruence.
    + constructor; [apply lookup_insert_eq|constructor].
  - wp_step. apply (wp_destroy_message p (message_of tag payload)); [apply lookup_insert_eq|]. wp_step.
    eapply wp_gate; [reflexivity|apply leave_alone|]. wp_step. split; [done|]. split; [done|].
    split; [|by exists r]. exists q1, ps. cbn. rewrite delete_insert_id by done. by split.
Qed.

Lemma implements_chan n c w w' closed : chan w' = chan w → implements n c w closed → implements n c w' closed.
Proof. intros E [H1 H2]. split; [by rewrite E|done]. Qed.

Lemma wp_receive n c w closed :
  implements n c w closed →
  wp receive (λ m c' es, es = [] ∧ ∃ w', dequeue w = Some (m, w', []) ∧ implements n c' w' closed) c.
Proof.
  intros [(q & ps & Hq & Hh & Hn & Hnd & Hdom & Hf) (r & Hg)]. unfold receive.
  wp_step. apply wp_on_field. rewrite Hq. eapply wp_mono; [by apply (Mpscq.dequeue_refines q ps)|].
  intros o q' es (q1 & -> & -> & Hmax & -> & Hh1). unfold dequeue.
  destruct ps as [|p ps]; cbn [hd_error tl] in *.
  - apply Forall2_nil_inv_l in Hf. wp_step. split; [done|]. exists w. run_m. rewrite Hf. split; [done|].
    split; [|by exists r]. exists q1, []. rewrite Hf. split; [done|]. split; [done|]. split; [congruence|by split].
  - apply Forall2_cons_inv_l in Hf as (m & ms & Hp & Hf & Hc). wp_step.
    apply (wp_message_at p m); [done|]. wp_step. apply (wp_destroy_message p m); [done|]. wp_step.
    split; [done|]. exists (w <| chan := ms |>). run_m. rewrite Hc. split; [done|]. apply NoDup_cons in Hnd as [Hnp Hnd].
    split; [|by exists r]. exists q1, ps. split; [done|]. split; [done|]. split; [cbn; congruence|]. split; [done|].
    split; [cbn; rewrite dom_delete_L, Hdom; apply set_eq; intros x; set_solver|].
    apply Forall2_same_length_lookup. split; [by apply Forall2_length in Hf|].
    intros i x y Hx Hy. cbn. rewrite lookup_delete_ne; [by apply (Forall2_lookup_lr _ ps ms i x y Hf)|].
    intros <-. by apply Hnp, (list_elem_of_lookup_2 ps i).
Qed.

Lemma wp_close_channel n c w closed :
  implements n c w closed → wp close (λ _ c' es, es = [] ∧ implements n c' w true) c.
Proof.
  intros [H1 (r & Hg)]. unfold close. apply wp_on_field. rewrite Hg.
  assert (Sender.message_sender_close (Some (Sender.Mk r (Sender.word closed 0) (negb closed))) =
    Some ((), Some (Sender.Mk r (Sender.word true 0) false), [])) as E by (by destruct closed).
  unfold wp. rewrite E. split; [done|]. split; [done|]. by exists r.
Qed.

Lemma wp_run_call o n c w closed :
  implements n c w closed →
  wp (run_call o) (λ a c' es, es = [] ∧ ∃ w' closed', spec_call n o (w, closed) = Some (a, (w', closed')) ∧
    implements n c' w' closed') c.
Proof.
  intros Hi. destruct o as [a tag payload| |]; cbn [run_call spec_call]; wp_step.
  - eapply wp_mono; [by apply (wp_enqueue_message a tag payload n c w closed)|]. intros r c' es (-> & -> & Hi'). wp_step.
    split; [done|]. by eexists _, _.
  - eapply wp_mono; [by apply wp_receive|]. intros m c' es (-> & w' & E & Hi'). wp_step.
    split; [done|]. rewrite E. by exists w', closed.
  - eapply wp_mono; [by apply (wp_close_channel n c w closed)|]. intros [] c' es (-> & Hi'). wp_step.
    split; [done|]. by exists w, true.
Qed.

Lemma wp_run_calls os n c w closed :
  implements n c w closed →
  wp (run_calls os) (λ l c' es, es = [] ∧ ∃ w' closed', spec_calls n os (w, closed) = Some (l, (w', closed')) ∧
    implements n c' w' closed') c.
Proof.
  revert c w closed. induction os as [|o os IH]; intros c w closed Hi; cbn [run_calls spec_calls].
  { wp_step. split; [done|]. by exists w, closed. }
  wp_step. eapply wp_mono; [by apply wp_run_call|]. intros a c1 es1 (-> & w1 & b1 & -> & H1).
  wp_step. eapply wp_mono; [by apply IH|]. intros l c2 es2 (-> & w2 & b2 & E & H2).
  wp_step. split; [done|]. exists w2, b2. by rewrite E.
Qed.

Lemma implements_size n c w closed : implements n c w closed → size (memory c) = length (chan w).
Proof.
  intros [(q & ps & _ & _ & _ & Hnd & Hdom & Hf) _].
  rewrite <- (Forall2_length _ _ _ Hf), <- size_dom, Hdom. by apply size_list_to_set.
Qed.

(** ** Theorem *)

(** A channel that was just set up: a new ring, an open sender, no message. *)
Definition new_channel (q : Mpscq.mpscq) : channel :=
  Channel ∅ (Some q) (Some (Sender.Mk 1 0 true)) false.

(** C8: the list of messages that the agent's handlers dequeue from is what the
    ring, the blocks and the gate implement.  Whatever is submitted, received and
    closed, under any failures of the allocator, no call is undefined, every
    answer is the one that the list gives - accepted if and only if the sender is
    open, memory was granted and the list is below the capacity - each message is
    received as it was built and once, and the blocks in memory are those of the
    messages still in the list, so refused and received messages are freed. *)
Theorem agent_queue_implemented `{Allocator} given capacity q os w :
  Mpscq.mpscq_create given capacity = Some q → chan w = [] →
  ∃ answers c w' closed, run_calls os (new_channel q) = Some (answers, c, []) ∧
    spec_calls capacity os (w, false) = Some (answers, (w', closed)) ∧
    size (memory c) = length (chan w') ∧ Zlen (chan w') ≤ capacity.
Proof.
  intros Hq Hc. destruct (Mpscq.create_holds _ _ _ Hq) as [Hh Hm].
  assert (implements capacity (new_channel q) w false) as Hi.
  { split; [|by exists 1]. exists q, []. rewrite Hc. split; [done|]. split; [done|]. split; [done|].
    split; [constructor|]. split; [done|constructor]. }
  destruct (proj1 (wp_run _ _ _) (wp_run_calls os capacity _ w false Hi)) as (l & c & es & E & -> & w' & b & E' & H').
  exists l, c, w', b. split; [done|]. split; [done|]. split; [by apply (implements_size capacity c w' b)|].
  destruct H' as [(q' & ps & _ & (_ & Hl & _) & Hm' & _ & _ & Hf) _].
  rewrite <- (Forall2_length _ _ _ Hf). lia.
Qed.

End spec.

(** ** Instance *)

Import AgentSample.

Definition sample_calls : list call :=
  [Send alloc_always EXECUTE first_payload; Send alloc_never CANCEL_REQUEST first_payload;
   Send alloc_always CANCEL_REQUEST first_payload; Send alloc_always STOP_AGENT second_payload;
   Receive; Receive; Close; Send alloc_always RESUME_REQUEST first_payload; Receive].
Definition sample_ring : Mpscq.mpscq := Mpscq.Mk 0 0 0 2 [None; None] true.

Definition sample_answers : list answer :=
  [Sent ENQUEUE_MESSAGE_OK; Sent ENQUEUE_MESSAGE_OUT_OF_MEMORY; Sent ENQUEUE_MESSAGE_OK;
   Sent ENQUEUE_MESSAGE_FULL; Received (Some (Execute first_payload)); Received (Some (Cancel 7));
   Closed; Sent ENQUEUE_MESSAGE_CLOSED; Received None].

Lemma sample_spec :
  prod_map id snd <$> spec_calls 2 sample_calls (sample_world, false) = Some (sample_answers, true).
Proof. vm_compute. reflexivity. Qed.

Lemma agent_queue_implemented_witness :
  ∃ c w' closed, run_calls sample_calls (new_channel sample_ring) = Some (sample_answers, c, []) ∧
    size (memory c) = length (chan w') ∧ closed = true.
Proof.
  destruct (agent_queue_implemented (H := alloc_always) false 2 sample_ring sample_calls sample_world
    eq_refl eq_refl) as (l & c & w' & b & E & E' & Hs & _).
  exists c, w', b. pose proof sample_spec as S. rewrite E' in S. cbn in S.
  injection S as Sl Sb. rewrite E, Sl. split; [reflexivity|]. split; [exact Hs|exact Sb].
Defined.

End Submit.
