(* ===== verification/AgentHistory.v ===== *)
(** * Histories of the agent

    All interleavings of the agent's own steps with submissions by other threads
    and with whatever those threads do to the shared records, and the theorems
    about them. *)

From S2P Require Import Prelude Chain Extras Headers Registry Metrics.
From S2P Require Import Stream Agent AgentWorld AgentProps AgentStop AgentSample.
Import Agent AgentWorld AgentProps AgentStop.

Open Scope Z_scope.
Open Scope record_scope.

Module AgentHistory.
Section agent.
Context `{L : Libcurl} `{!LibcurlLaws} `{I : Metrics.CurlInfo}.

(** ** Steps *)

(** One round of [async_check_outer_messages]. *)
Definition handle_next `{A : Allocator} : M world () :=
  message ← dequeue;
  match message with Some m => dispatch m | None => mret () end.

(** The handles that the agent answers for. *)
Definition handles (w : world) : list ptr := live w ++ queued w.

(** What other threads and libcurl do meanwhile: they allocate, they change
    streams and records without breaking them, and messages of libcurl appear. *)
Record interference (w w' : world) : Prop := Interference {
  in_table : table w' = table w;
  in_chan : chan w' = chan w;
  in_results : dom (results w) ⊆ dom (results w');
  in_streams : dom (streams w) ⊆ dom (streams w');
  in_headers : dom (header_objects w) ⊆ dom (header_objects w');
  in_metrics : dom (metric_objects w) ⊆ dom (metric_objects w');
  in_objects : objects_ok w';
  in_answered r : answered w r → answered w' r;
  in_private : private_of (curl w') = private_of (curl w);
  in_added : added (curl w') = added (curl w)
}.

(** A step, with the calls that the agent makes and the messages submitted.  A
    message is accepted only before the shutdown ([Channel.v]), and it gives the
    agent a handle of its own. *)
Inductive step : world → list event → list outer_message → world → Prop :=
  | Step_message a w w' es : handle_next (A := a) w = Some ((), w', es) → step w es [] w'
  | Step_async a w w' es : async_check_outer_messages (H := a) w = Some ((), w', es) → step w es [] w'
  | Step_completions w w' es : check_multi_info w = Some ((), w', es) → step w es [] w'
  | Step_shutdown code w w' es : shutdown_message_context code w = Some ((), w', es) → step w es [] w'
  | Step_submit m w : ¬ stopped w → message_ok w m →
      (∀ e, submitted_easy m = Some e → e ∉ handles w) →
      step w [] [m] (w <| chan := chan w ++ [m] |>)
  | Step_others w w' : interference w w' → step w [] [] w'.

Inductive history (w : world) : list event → list outer_message → world → Prop :=
  | History_nil : history w [] [] w
  | History_snoc es subs w1 es' subs' w2 :
      history w es subs w1 → step w1 es' subs' w2 → history w (es ++ es') (subs ++ subs') w2.

(** After [init_async_check_messages], with libcurl driving nothing. *)
Record initial_world (w : world) : Prop := InitialWorld {
  iw_nodes : nodes w = ∅;
  iw_registry : Registry.registry_ok (table w) ∅;
  iw_chan : chan w = [];
  iw_objects : objects_ok w;
  iw_added : added (curl w) = ∅
}.

(** ** The registry stays open *)

(** Only the shutdown frees the buckets. *)
Definition still_open (s s' : Registry.store) : Prop :=
  Registry.buckets (Registry.registry s') = None → Registry.buckets (Registry.registry s) = None.
#[local] Instance still_open_refl : Reflexive still_open.
Proof. intros s. by unfold still_open. Qed.
#[local] Instance still_open_trans : Transitive still_open.
Proof. unfold still_open. auto. Qed.

Definition still_running (w w' : world) : Prop := still_open (table w) (table w').
#[local] Instance still_running_refl : Reflexive still_running.
Proof. intros w. unfold still_running. reflexivity. Qed.
#[local] Instance still_running_trans : Transitive still_running.
Proof. unfold still_running. intros w0 w1 w2. apply still_open_trans. Qed.

Ltac open_tac := keeps_tac; try (by unfold still_open).

Lemma keeps_set_next p n : keeps still_open (Registry.set_next p n).
Proof. unfold Registry.set_next, Registry.node. open_tac. Qed.
Lemma keeps_store_bucket i p : keeps still_open (Registry.store_bucket i p).
Proof. unfold Registry.store_bucket. open_tac. Qed.
Lemma keeps_load_bucket i : keeps still_open (Registry.load_bucket i).
Proof. unfold Registry.load_bucket. open_tac. Qed.
Lemma keeps_find i : keeps still_open (Registry.registry_find i).
Proof.
  unfold Registry.registry_find, Registry.walk. open_tac; try apply keeps_load_bucket.
  generalize a0 as p. induction a1 as [|n IH]; intros [p|]; cbn [Registry.find_loop];
    unfold Registry.node; open_tac.
Qed.
Lemma keeps_remove i : keeps still_open (Registry.registry_remove i).
Proof.
  unfold Registry.registry_remove, Registry.walk. open_tac.
  generalize (Registry.Bucket (Z.land (Registry.hash_transfer_id i) (Registry.bucket_count a - 1))) as c.
  induction a0 as [|n IH]; intros c; cbn [Registry.remove_loop]; unfold Registry.load_cursor,
    Registry.store_cursor, Registry.node; open_tac;
    try apply keeps_load_bucket; try apply keeps_store_bucket; try apply keeps_set_next; try apply IH.
Qed.
Lemma keeps_resize `{Allocator} : keeps still_open Registry.registry_resize.
Proof.
  unfold Registry.registry_resize, Registry.walk. open_tac.
  generalize (replicate (Z.to_nat (Registry.bucket_count a * 2)) (@None ptr)) as nb.
  generalize (take (Z.to_nat (Registry.bucket_count a)) a0) as old.
  induction old as [|p old IH]; intros nb; cbn [Registry.resize_loop]; open_tac.
  revert p nb. generalize (Registry.bucket_count a * 2) as c. clear. intros c.
  induction a1 as [|n IH]; intros [p|] nb; cbn [Registry.move_loop];
    unfold Registry.node; open_tac; try apply keeps_set_next; try apply IH.
Qed.
Lemma keeps_insert `{Allocator} p : keeps still_open (Registry.registry_insert p).
Proof.
  unfold Registry.registry_insert, Registry.node. open_tac; try apply keeps_find;
    try apply keeps_resize; try apply keeps_load_bucket; try apply keeps_set_next;
    try apply keeps_store_bucket.
Qed.

Lemma keeps_table {A} (m : M Registry.store A) :
  keeps still_open m → keeps still_running (on_field table m).
Proof.
  intros Hm w a w' es. unfold on_field. destruct (m (table w)) as [[[b s] e]|] eqn:E; [|done].
  intros [= <- <- <-]. by eapply Hm.
Qed.
Lemma running_table w w' : table w' = table w → still_running w w'.
Proof. unfold still_running. by intros ->. Qed.
Lemma keeps_results {A} p (m : M (option EasyData.hs_easy_data) A) :
  keeps still_running (on_object results p m).
Proof. intros w a w' es. unfold on_object. repeat case_match; try done; intros [= <- <- <-]; by apply running_table. Qed.
Lemma keeps_metric_objects {A} p (m : M (option Metrics.curl_metrics_context) A) :
  keeps still_running (on_object metric_objects p m).
Proof. intros w a w' es. unfold on_object. repeat case_match; try done; intros [= <- <- <-]; by apply running_table. Qed.
Lemma keeps_on_stream {A} p (m : M (option Stream.stream_env) A) : keeps still_running (on_stream p m).
Proof.
  intros w a w' es. unfold on_stream, mbind, option_bind. destruct p as [q|].
  - destruct (streams w !! q) as [o|]; [|done].
    destruct (load (header_objects w) (headers_ptr o)) as [h|]; [|done].
    destruct (load (metric_objects w) (metrics_ptr o)) as [c|]; [|done].
    destruct (m _) as [[[b [e1|]] e]|]; [|done..]. intros [= <- <- <-]. by apply running_table.
  - destruct (m None) as [[[b oe] e]|]; [|done]. intros [= <- <- <-]. by apply running_table.
Qed.
Lemma keeps_call {A} (f : lib → A * lib) : keeps still_running (call f).
Proof. intros w a w' es. unfold call. destruct (f (curl w)). intros [= <- <- <-]; by apply running_table. Qed.
Lemma keeps_emit_running e : keeps still_running (emit e).
Proof. intros w a w' es [= <- <- <-]. reflexivity. Qed.

Ltac running_step := first
  [apply keeps_table | apply keeps_results | apply keeps_metric_objects | apply keeps_on_stream
  | apply keeps_call | apply keeps_emit_running | apply keeps_find | apply keeps_remove
  | apply keeps_insert | progress unfold set_active, free_transfer, new_transfer, Registry.node
  | done | by unfold still_open | by unfold still_running, still_open].
Ltac running_tac := repeat (progress (keeps_tac; try running_step)).

Lemma keeps_finish_detached p code : keeps still_running (finish_detached_transfer p code).
Proof. unfold finish_detached_transfer. running_tac. Qed.
Lemma keeps_fail_payload pl code : keeps still_running (fail_payload pl code).
Proof. unfold fail_payload, fail_unregistered_transfer. running_tac. Qed.
Lemma keeps_complete_transfer e code : keeps still_running (complete_transfer e code).
Proof. unfold complete_transfer. running_tac; apply keeps_finish_detached. Qed.
Lemma keeps_check_multi_info : keeps still_running check_multi_info.
Proof.
  unfold check_multi_info. keeps_tac. generalize (S (messages (curl a))) as n.
  induction n as [|n IH]; cbn [info_loop]; running_tac; try apply IH; apply keeps_complete_transfer.
Qed.
Lemma keeps_execute `{Allocator} pl : keeps still_running (execute_transfer pl).
Proof.
  unfold execute_transfer. running_tac; try apply keeps_fail_payload; apply keeps_finish_detached.
Qed.
Lemma keeps_cancel i : keeps still_running (cancel_transfer i).
Proof. unfold cancel_transfer. running_tac; apply keeps_finish_detached. Qed.
Lemma keeps_resume i : keeps still_running (resume_transfer i).
Proof.
  unfold resume_transfer. running_tac; try apply keeps_finish_detached; apply keeps_check_multi_info.
Qed.

(** ** The invariant of histories *)

Record sys_ok (w : world) (m : gmap Z ptr) : Prop := SysOk {
  sys_agent : agent_ok w m ∅;
  sys_messages : Forall (message_ok w) (chan w);
  sys_stopped : stopped w → chan w = [];
  sys_handles : NoDup (handles w)
}.

(** A step that answers for the handles it no longer has and forgets no record. *)
Definition accounted (w : world) (subs : list outer_message) (es : list event) (w' : world) : Prop :=
  (∃ m', sys_ok w' m') ∧ cleanups es ++ handles w' ≡ₚ omap submitted_easy subs ++ handles w ∧
  ∀ r, owed w r ∨ r ∈ omap submitted_result subs → owed w' r.

Lemma handles_nodup (cs hs hs' : list ptr) : cs ++ hs' ≡ₚ hs → NoDup hs → NoDup hs'.
Proof. intros Hp Hn. rewrite <- Hp in Hn. by apply NoDup_app in Hn as (_ & _ & ?). Qed.

Lemma initial_ok w : initial_world w → sys_ok w ∅ ∧ handles w = [].
Proof.
  intros [Hn Hr Hc Ho Ha]. assert (live w = []) as Hl by (by apply live_empty).
  assert (handles w = []) as Hh by (unfold handles, queued; by rewrite Hl, Hc).
  split; [|done]. split; [|by rewrite Hc|done|rewrite Hh; constructor].
  split; [|by left| |done].
  - split; [done|]. split; rewrite ?Hn, ?Ha; [done|done|set_solver].
  - intros p t. by rewrite Hn.
Qed.

Lemma owed_carries w w' : carries w w' → chan w' = chan w → ∀ r, owed w r ∨ r ∈ @nil ptr → owed w' r.
Proof. intros C K r [[Hr|Hr]|[]%elem_of_nil]; [left; by apply C|right; by rewrite K]. Qed.

(** A handler that keeps the queue. *)
Lemma accounted_handler w m w' es :
  sys_ok w m → (∃ m', agent_ok w' m' ∅) → settles w w' es → (stopped w' → chan w' = []) →
  accounted w [] es w'.
Proof.
  intros [_ Hmsg _ Hnd] [m' Hok'] [K A V G] Hst.
  assert (cleanups es ++ handles w' ≡ₚ handles w) as Hp.
  { unfold handles, queued. rewrite K, <- V. by rewrite app_assoc. }
  split; [|split; [done|by apply owed_carries]]. exists m'. split; [done| |done|by eapply handles_nodup].
  rewrite K. eapply Forall_impl; [exact Hmsg|]. intros msg. by apply message_ok_addresses.
Qed.

(** ** One message *)

Lemma agent_ok_chan w m D ms : agent_ok w m D → agent_ok (w <| chan := ms |>) m D.
Proof. intros [[[H1 H2] [H3 H4 H5]] Hr Hreg Hlive]. by split. Qed.

(** The outcome of a step that took the message [msg] off the queue. *)
Definition handled (msg : outer_message) (w : world) (w' : world) (es : list event) : Prop :=
  (∃ m', sys_ok w' m') ∧
  cleanups es ++ handles w' ≡ₚ option_list (submitted_easy msg) ++ handles w ∧
  (∀ r, owed w r ∨ submitted_result msg = Some r → owed w' r) ∧
  (chan w' = chan w ∨ chan w' = []).

Lemma handled_running msg w w' m' es :
  agent_ok w' m' ∅ → chan w' = chan w → addresses w' = addresses w → ¬ stopped w →
  still_running w w' → Forall (message_ok w) (chan w) →
  NoDup (option_list (submitted_easy msg) ++ handles w) →
  cleanups es ++ live w' ≡ₚ option_list (submitted_easy msg) ++ live w →
  carries w w' → (∀ r, submitted_result msg = Some r → tracked w' r) → handled msg w w' es.
Proof.
  intros Hok K A Hns Hst Hmsg Hnd Hp C G.
  assert (cleanups es ++ handles w' ≡ₚ option_list (submitted_easy msg) ++ handles w) as Hp'.
  { unfold handles, queued. rewrite K, !app_assoc. by rewrite Hp. }
  split; [|split; [done|split; [|by auto]]]; cycle 1.
  { intros r [Hr|Hr]; [apply (owed_carries w w' C K); by left|left; by apply G]. }
  exists m'. split; [done| |by intros ?%Hst|by eapply handles_nodup].
  rewrite K. eapply Forall_impl; [exact Hmsg|]. intros x. by apply message_ok_addresses.
Qed.

Lemma settles_live w w' es : settles w w' es → cleanups es ++ live w' ≡ₚ live w.
Proof. by intros []. Qed.

Lemma wp_dispatch `{Allocator} w m msg :
  agent_ok w m ∅ → message_ok w msg → Forall (message_ok w) (chan w) → ¬ stopped w →
  NoDup (option_list (submitted_easy msg) ++ handles w) →
  wp (dispatch msg) (λ _ w' es, handled msg w w' es) w.
Proof.
  intros Hok Hmsg Hall Hns Hnd. destruct msg as [pl|i|i|]; cbn [dispatch].
  - eapply wp_mono; [apply (wp_keeps still_running); [apply keeps_execute|apply wp_execute]|]; try done.
    { intros e He. cbn in Hnd. rewrite He in Hnd. apply NoDup_cons in Hnd as [Hnd _].
      intros Hin. apply Hnd, elem_of_app. by left. }
    intros [] w' es ((m' & Hok' & K & A & C & G & Hcase) & Hst).
    apply (handled_running _ _ _ m'); try done. cbn.
    destruct Hcase as [[_ [He Hd]]|(He & _ & p & t & _ & _ & _ & Hpl & Hl)].
    + destruct Hd as [Hd _]. rewrite He. by rewrite (live_easy w w') by (by apply data_easy).
    + by rewrite He, Hpl, Hl.
  - eapply wp_mono; [apply (wp_keeps still_running); [apply keeps_cancel|by apply wp_cancel]|].
    intros [] w' es ((Hok' & Hs & _) & Hst). pose proof Hs as [K A V C].
    by apply (handled_running _ _ _ (delete i m)).
  - eapply wp_mono; [apply (wp_keeps still_running); [apply keeps_resume|by apply wp_resume]|].
    intros [] w' es ((((m' & _ & Hok') & Hs) & _) & Hst). pose proof Hs as [K A V C].
    by apply (handled_running _ _ _ m').
  - wp_step. eapply wp_mono; [by apply (wp_shutdown w m)|]. intros [] w' es (Hok' & Hs' & K & A & Hp & G).
    wp_step. unfold handled. rewrite cleanups_app, app_nil_r.
    assert (handles w' = []) as Hh.
    { unfold handles, queued. rewrite K, (live_empty w'); [done|]. by apply (agent_stopped w' ∅). }
    split; [|rewrite Hh, app_nil_r; split; [done|split; [|by auto]]]; cycle 1.
    { intros r [Hr|?]; [|done]. left. right. by apply G. }
    exists ∅. split; rewrite ?K, ?Hh; try done. constructor.
Qed.

(** ** The steps keep the invariant *)

Lemma accounted_refl w m : sys_ok w m → accounted w [] [] w.
Proof. intros Hok. split; [by exists m|]. split; [done|]. by intros r [?|[]%elem_of_nil]. Qed.

Lemma accounted_trans w0 w1 w2 s1 s2 e1 e2 :
  accounted w0 s1 e1 w1 → accounted w1 s2 e2 w2 → accounted w0 (s1 ++ s2) (e1 ++ e2) w2.
Proof.
  intros (_ & P1 & G1) (Hok & P2 & G2). split; [done|]. split.
  - rewrite cleanups_app, <- (assoc_L (++)), P2, omap_app.
    rewrite (Permutation_app_comm (omap _ s1)), <- (assoc_L (++)), <- P1. solve_Permutation.
  - intros r Hr. apply G2. rewrite omap_app, elem_of_app in Hr.
    destruct Hr as [Hr|[Hr|Hr]]; [left; apply G1; by left|left; apply G1; by right|by right].
Qed.

(** Taking a message and dispatching it. *)
Lemma wp_taken `{Allocator} w m msg ms :
  sys_ok w m → chan w = msg :: ms →
  wp (dispatch msg) (λ _ w' es, accounted w [] es w' ∧ (length (chan w') ≤ length ms)%nat)
    (w <| chan := ms |>).
Proof.
  intros [Hok Hall Hst Hnd] Hc. rewrite Hc in Hall. apply Forall_cons in Hall as [Hmsg Hall].
  assert (handles w ≡ₚ option_list (submitted_easy msg) ++ handles (w <| chan := ms |>)) as Hh.
  { unfold handles, queued. rewrite Hc. cbn [omap list_omap]. cbn. unfold live. cbn.
    destruct (submitted_easy msg); cbn; [|done]. by rewrite Permutation_middle. }
  eapply wp_mono.
  { apply (wp_dispatch _ m); [by apply agent_ok_chan|done|done| |by rewrite <- Hh].
    intros Hs. change (stopped w) in Hs. rewrite Hst in Hc by done. done. }
  intros [] w' es (Hok' & Hp & G & Hk'). split.
  - split; [done|]. split; [by rewrite Hp, Hh|].
    intros r [[Hr|Hr]|[]%elem_of_nil]; apply G; [left; by left|]. rewrite Hc in Hr. cbn in Hr.
    destruct (submitted_result msg) as [r'|]; [|left; by right].
    apply elem_of_cons in Hr as [->|Hr]; [by right|left; by right].
  - destruct Hk' as [->| ->]; cbn; lia.
Qed.

Lemma wp_handle_next `{Allocator} w m :
  sys_ok w m → wp handle_next (λ _ w' es, accounted w [] es w') w.
Proof.
  intros Hok. unfold handle_next. wp_step. apply wp_dequeue. destruct (chan w) as [|msg ms] eqn:Hc.
  - wp_step. by apply (accounted_refl w m).
  - cbn beta iota. eapply wp_mono; [by apply (wp_taken w m)|]. by intros [] w' es [? _].
Qed.

Lemma wp_async_loop `{Allocator} fuel w m :
  sys_ok w m → (length (chan w) ≤ fuel)%nat →
  wp (async_loop fuel) (λ _ w' es, accounted w [] es w' ∧ chan w' = []) w.
Proof.
  revert w m. induction fuel as [|fuel IH]; intros w m Hok Hf; cbn [async_loop]; wp_step;
    apply wp_dequeue; destruct (chan w) as [|msg ms] eqn:Hc;
    try (by wp_step; split; [by apply (accounted_refl w m)|]); [cbn in Hf; lia|].
  cbn beta iota. wp_step. eapply wp_mono; [by apply (wp_taken w m)|].
  intros [] w1 es1 [A1 Hl]. destruct (proj1 A1) as [m1 Hok1].
  eapply wp_mono; [apply (IH w1 m1); [done|cbn in Hf; lia]|]. intros [] w2 es2 [A2 Hc2].
  split; [|done]. cbn [app]. by apply (accounted_trans w w1 w2 [] []).
Qed.

Lemma wp_async `{Allocator} w m : sys_ok w m →
  wp async_check_outer_messages (λ _ w' es, accounted w [] es w' ∧ chan w' = []) w.
Proof.
  intros Hok. unfold async_check_outer_messages. wp_step. wp_step. by apply (wp_async_loop _ w m).
Qed.

Lemma wp_completions w m :
  sys_ok w m → wp check_multi_info (λ _ w' es, accounted w [] es w') w.
Proof.
  intros Hok. eapply wp_mono.
  { apply (wp_keeps still_running); [apply keeps_check_multi_info|apply (wp_check_multi_info w m), Hok]. }
  intros [] w' es (((m' & _ & Hok') & Hs) & Hst). apply (accounted_handler w m); [done|eauto|done|].
  intros ?%Hst. rewrite (set_chan _ _ _ Hs). by apply (sys_stopped w m).
Qed.

Lemma wp_shutdown_step w m code :
  sys_ok w m → wp (shutdown_message_context code) (λ _ w' es, accounted w [] es w' ∧ stopped w') w.
Proof.
  intros [Hok Hall Hst Hnd]. eapply wp_mono; [by apply (wp_shutdown w m)|].
  intros [] w' es (Hok' & Hs & K & A & Hp & G).
  assert (handles w' = []) as Hh.
  { unfold handles, queued. rewrite K, (live_empty w'); [done|]. by apply (agent_stopped w' ∅). }
  split; [|done]. split; [|split; [by rewrite Hh, app_nil_r|]]; cycle 1.
  { intros r [Hr|[]%elem_of_nil]. left. right. by apply G. }
  exists ∅.
  split; rewrite ?K, ?Hh; try done. constructor.
Qed.

Lemma submit_ok w m msg :
  sys_ok w m → ¬ stopped w → message_ok w msg →
  (∀ e, submitted_easy msg = Some e → e ∉ handles w) →
  accounted w [msg] [] (w <| chan := chan w ++ [msg] |>).
Proof.
  intros [Hok Hall Hst Hnd] Hns Hmsg Hnew.
  assert (handles (w <| chan := chan w ++ [msg] |>) ≡ₚ option_list (submitted_easy msg) ++ handles w) as Hh.
  { unfold handles, queued. cbn. rewrite omap_app, (assoc_L (++)). cbn.
    destruct (submitted_easy msg); cbn; [|by rewrite app_nil_r].
    by rewrite <- Permutation_cons_append. }
  split; [|split].
  2: { rewrite Hh. cbn. by destruct (submitted_easy msg). }
  2: { intros r [[Hr|Hr]|Hr]; [by left|right..]; cbn; rewrite omap_app, elem_of_app; [by left|by right]. }
  exists m. split; [by apply agent_ok_chan| |done|].
  - apply Forall_app. split; [done|]. by apply Forall_singleton.
  - rewrite Hh. destruct (submitted_easy msg) as [e|]; [|done]. by apply NoDup_cons; split; [apply Hnew|].
Qed.

Lemma valid_subset {O} (objects objects' : gmap ptr O) p :
  dom objects ⊆ dom objects' → valid objects p → valid objects' p.
Proof. intros Hd. destruct p as [q|]; [|done]. cbn. rewrite <- !elem_of_dom. apply Hd. Qed.

Lemma interference_ok w w' m : sys_ok w m → interference w w' → accounted w [] [] w'.
Proof.
  intros [[[Hobj [Hn He Ha]] Hr Hreg Hlive] Hall Hst Hnd] [T K D1 D2 D3 D4 O Hans Hp Hadd].
  assert (handles w' = handles w) as Hh by (unfold handles, queued; by rewrite K, (live_table w w')).
  split; [|split; [by rewrite Hh|]]; cycle 1.
  { intros r [[[(p & t & Hx)|Hx]|Hx]|[]%elem_of_nil].
    - left. left. exists p, t. by rewrite T.
    - left. right. by apply Hans.
    - right. by rewrite K. }
  exists m. split.
  - split; rewrite ?T; try done. split; [done|]. split; rewrite ?T, ?Hp, ?Hadd; try done.
    intros p t Hpt. destruct (Hn p t Hpt) as ((V1 & V2 & V3 & V4) & Hrest). split; [|done].
    split_and!; [by apply (valid_subset (results w) _ (Some _))|by eapply valid_subset..].
  - rewrite K. eapply Forall_impl; [exact Hall|]. intros [pl| | |]; [|done..].
    intros (V1 & V2 & V3 & V4). by split_and!; eapply valid_subset.
  - unfold stopped. by rewrite T, K.
  - by rewrite Hh.
Qed.

Lemma wp_outcome {S A} (m : M S A) Q s a s' es : wp m Q s → m s = Some (a, s', es) → Q a s' es.
Proof. unfold wp. intros HQ E. by rewrite E in HQ. Qed.

Lemma step_ok w m es subs w' : sys_ok w m → step w es subs w' → accounted w subs es w'.
Proof.
  intros Hok Hstep. destruct Hstep as [a w w' es E|a w w' es E|w w' es E|code w w' es E|msg w Hns Hmsg Hnew|w w' Hi].
  - exact (wp_outcome _ _ _ _ _ _ (wp_handle_next w m Hok) E).
  - exact (proj1 (wp_outcome _ _ _ _ _ _ (wp_async w m Hok) E)).
  - exact (wp_outcome _ _ _ _ _ _ (wp_completions w m Hok) E).
  - exact (proj1 (wp_outcome _ _ _ _ _ _ (wp_shutdown_step w m code Hok) E)).
  - by apply (submit_ok w m).
  - by apply (interference_ok w w' m).
Qed.

Lemma history_from w m es subs w' : sys_ok w m → history w es subs w' → accounted w subs es w'.
Proof.
  intros Hok Hh. induction Hh as [|es subs w1 es' subs' w2 Hh IH Hstep]; [by apply (accounted_refl w m)|].
  destruct (proj1 IH) as [m1 Hok1].
  pose proof (step_ok w1 m1 es' subs' w2 Hok1 Hstep) as A. by apply (accounted_trans w w1).
Qed.

Lemma history_accounted w es subs w' : initial_world w → history w es subs w' → accounted w subs es w'.
Proof. intros Hi. destruct (initial_ok w Hi) as [Hok _]. by apply (history_from w ∅). Qed.

(** ** What histories guarantee *)

Lemma stopped_handles w m : sys_ok w m → stopped w → handles w = [] ∧ nodes w = ∅ ∧ chan w = [].
Proof.
  intros [Hok _ Hst _] Hs. destruct (agent_stopped w m Hok Hs) as [_ Hn].
  unfold handles, queued. by rewrite (Hst Hs), (live_empty w Hn).
Qed.

Lemma reached w0 es subs w : initial_world w0 → history w0 es subs w → ∃ m, sys_ok w m.
Proof. intros Hi Hh. apply (history_accounted w0 es subs w Hi Hh). Qed.

Lemma wp_total {S A} (m : M S A) Q s :
  wp m Q s → ∃ a s' es, m s = Some (a, s', es) ∧ Q a s' es.
Proof. apply wp_run. Qed.

Lemma found_agent w m D i : agent_ok w m D → Registry.registry_find i (table w) = Some (m !! i, table w, []).
Proof.
  intros Hok. assert (wp (on_field table (Registry.registry_find i)) (λ r w' es, r = m !! i ∧ w' = w ∧ es = []) w) as Hf.
  { by apply (wp_registry_find w m D). }
  unfold wp, on_field in Hf. destruct (Registry.registry_find i (table w)) as [[[r s] es]|]; [|done].
  destruct Hf as (-> & Hw & ->). apply (f_equal table) in Hw. cbn in Hw. by subst s.
Qed.

Lemma found w m i : sys_ok w m → Registry.registry_find i (table w) = Some (m !! i, table w, []).
Proof. intros Hok. apply (found_agent w m ∅), Hok. Qed.

(** C1: in every history of the agent - messages handled one by one or in
    bulk, completions reported by libcurl, shutdowns, submissions and whatever
    other threads do to streams and records - each submitted handle is cleaned up
    exactly once or is still the agent's, and the completion record of each
    submission has its result and its wake-up or still has a transfer or a queued
    message that will give it; once the agent has stopped, every handle was
    cleaned up once and every record is answered. *)
Theorem transfers_answered w0 es subs w :
  initial_world w0 → history w0 es subs w →
  cleanups es ++ handles w ≡ₚ omap submitted_easy subs ∧
  (∀ r, r ∈ omap submitted_result subs → owed w r) ∧
  (stopped w → cleanups es ≡ₚ omap submitted_easy subs ∧
    ∀ r, r ∈ omap submitted_result subs → answered w r).
Proof.
  intros Hi Hh. destruct (history_accounted w0 es subs w Hi Hh) as ([m Hok] & Hp & Hr).
  destruct (initial_ok w0 Hi) as [_ H0]. rewrite H0, app_nil_r in Hp.
  assert (∀ r, r ∈ omap submitted_result subs → owed w r) as Ho by (intros r ?; apply Hr; by right).
  split; [done|]. split; [done|]. intros Hs. destruct (stopped_handles w m Hok Hs) as (Hh0 & Hn & Hc).
  rewrite Hh0, app_nil_r in Hp. split; [done|]. intros r Hin. by apply owed_answered, Ho.
Qed.

(** C11: whatever happened before, the agent never gets stuck: it can handle the
    next message, its loop over the queue ends with an empty queue within as many
    rounds as there are messages, reading libcurl's messages ends, and a shutdown
    ends with no handle left and the registry gone. *)
Theorem agent_always_proceeds `{Allocator} w0 es subs w code :
  initial_world w0 → history w0 es subs w →
  (∃ w' es', handle_next w = Some ((), w', es')) ∧
  (∃ w' es', async_check_outer_messages w = Some ((), w', es') ∧ chan w' = []) ∧
  (∃ w' es', check_multi_info w = Some ((), w', es')) ∧
  (∃ w' es', shutdown_message_context code w = Some ((), w', es') ∧ handles w' = [] ∧ stopped w').
Proof.
  intros Hi Hh. destruct (reached w0 es subs w Hi Hh) as [m Hok]. split_and!.
  - destruct (wp_total _ _ _ (wp_handle_next w m Hok)) as ([] & w' & es' & E & _). by exists w', es'.
  - destruct (wp_total _ _ _ (wp_async w m Hok)) as ([] & w' & es' & E & _ & Hc). by exists w', es'.
  - destruct (wp_total _ _ _ (wp_completions w m Hok)) as ([] & w' & es' & E & _). by exists w', es'.
  - destruct (wp_total _ _ _ (wp_shutdown_step w m code Hok)) as ([] & w' & es' & E & ([m' Hok'] & _) & Hs).
    exists w', es'. split; [done|]. split; [|done]. by apply (stopped_handles w' m').
Qed.

(** C12: a submission whose id is in use fails and only it fails: its handle is
    cleaned up, its record is answered, and every other transfer stays in memory
    and under its id as it was. *)
Theorem duplicate_id_fails_alone `{Allocator} w0 es subs w pl q :
  initial_world w0 → history w0 es subs w → payload_ok w pl →
  (∀ e, easy pl = Some e → e ∉ handles w) →
  Registry.registry_find (transfer_id pl) (table w) = Some (Some q, table w, []) →
  ∃ w' es', execute_transfer pl w = Some ((), w', es') ∧ cleanups es' = option_list (easy pl) ∧
    (∀ r, result pl = Some r → answered w' r) ∧
    Registry.data (nodes w') = Registry.data (nodes w) ∧
    ∀ i p, Registry.registry_find i (table w) = Some (p, table w, []) →
      Registry.registry_find i (table w') = Some (p, table w', []).
Proof.
  intros Hi Hh Hpl Hnew Hf. destruct (reached w0 es subs w Hi Hh) as [m Hok].
  rewrite (found w m _ Hok) in Hf. injection Hf as Hf.
  destruct (wp_total _ _ _ (wp_execute w m pl (sys_agent w m Hok) Hpl
    (λ e He Hin, Hnew e He (proj2 (elem_of_app _ _ e) (or_introl Hin)))))
    as ([] & w' & es' & E & m' & Hok' & _ & _ & _ & _ & [[-> (He & Hd & Ha)]|(_ & Hid & _)]);
    [|congruence].
  exists w', es'. split_and!; [done..|]. intros i p. rewrite (found w m _ Hok). intros [= <-].
  by apply (found_agent w' m ∅).
Qed.

(** C14: cancelling a transfer that is registered cleans its handle up, publishes
    the cancellation to its record, wakes its waiter, ends both streams, takes the
    id out of the registry and frees the transfer; every other id is found as
    before and every other transfer keeps its data.  Cancelling or resuming an id
    that is not registered - late, or never submitted - calls nothing and leaves
    the whole agent as it was. *)
Theorem control_messages w0 es subs w i p :
  initial_world w0 → history w0 es subs w →
  Registry.registry_find i (table w) = Some (p, table w, []) →
  match p with
  | Some p => ∃ t w' es', nodes w !! p = Some t ∧ cancel_transfer i w = Some ((), w', es') ∧
      cleanups es' = [Registry.easy t] ∧ published_result w t CURLE_ABORTED_BY_CALLBACK w' ∧
      Registry.data (nodes w') = delete p (Registry.data (nodes w)) ∧
      Registry.registry_find i (table w') = Some (None, table w', []) ∧
      ∀ j q, j ≠ i → Registry.registry_find j (table w) = Some (q, table w, []) →
        Registry.registry_find j (table w') = Some (q, table w', [])
  | None => resume_transfer i w = Some ((), w, []) ∧ cancel_transfer i w = Some ((), w, [])
  end.
Proof.
  intros Hi Hh Hf. destruct (reached w0 es subs w Hi Hh) as [m Hok].
  rewrite (found w m _ Hok) in Hf. injection Hf as <-.
  destruct (wp_total _ _ _ (wp_cancel w m i (sys_agent w m Hok)))
    as ([] & w' & es' & E & Hok' & _ & _ & Hc).
  destruct (m !! i) as [p|] eqn:Hm.
  - destruct Hc as (t & Ht & Hc & Hn & Hp). exists t, w', es'. split_and!; [done..| |].
    + rewrite (found_agent w' _ ∅ i Hok'). by rewrite lookup_delete_eq.
    + intros j q Hj. rewrite (found w m j Hok), (found_agent w' _ ∅ j Hok'). intros [= <-].
      by rewrite lookup_delete_ne.
  - destruct Hc as [-> ->]. split; [|done].
    destruct (wp_total _ _ _ (wp_resume w m i (sys_agent w m Hok))) as ([] & w2 & es2 & E2 & _ & Hr).
    by destruct (Hr Hm) as [-> ->].
Qed.

(** C13: when libcurl reports a driven handle as done, the agent publishes the
    reported code - or the cancellation, when one of the streams was closed - to
    the record of that transfer only, fires its waker, ends both streams, cleans
    the handle up once and frees the transfer. *)
Theorem completion_publishes w0 es subs w e code :
  initial_world w0 → history w0 es subs w → e ∈ added (curl w) →
  (getinfo_private e (curl w)).1 = CURLE_OK →
  ∃ p t w' es', nodes w !! p = Some t ∧ Registry.easy t = e ∧
    complete_transfer e code w = Some ((), w', es') ∧ cleanups es' = [e] ∧
    nodes w' !! p = None ∧ published_result w t code w'.
Proof.
  intros Hi Hh He Hg. destruct (reached w0 es subs w Hi Hh) as [m Hok].
  destruct (wp_total _ _ _ (wp_complete_transfer w m e code (sys_agent w m Hok) He))
    as ([] & w' & es' & E & _ & _ & _ & Hc).
  destruct (Hc Hg) as (Hce & p & t & Hp & Het & Hn & Hpub). by exists p, t, w', es'.
Qed.

End agent.

(** ** Instances *)

Import AgentSample.
#[local] Existing Instance alloc_always.

Definition push (m : outer_message) (w : world) : world := w <| chan := chan w ++ [m] |>.
(** The first submission is handled, then the second one, which has the same id,
    then the agent is told to stop. *)
Definition world1 : world := after handle_next (push (Execute first_payload) sample_world).
Definition world2 : world := after async_check_outer_messages (push (Execute second_payload) world1).
Definition world3 : world := after handle_next (push Stop world2).

Lemma sample_initial : initial_world sample_world.
Proof.
  split; [done| |done|exact sample_objects|done].
  refine (proj1 (Registry.registry_init_ok (Registry.Store ∅ (Registry.Mk None 0 0)) _ _)). reflexivity.
Defined.

Lemma history_next `{Libcurl} `{!LibcurlLaws} `{Metrics.CurlInfo} w0 es subs w m es' w' :
  history w0 es subs w → ¬ stopped w → message_ok w m →
  (∀ e, submitted_easy m = Some e → e ∉ handles w) →
  step (push m w) es' [] w' → history w0 (es ++ es') (subs ++ [m]) w'.
Proof.
  intros Hh Hs Hm Hn Hstep. rewrite <- (app_nil_r es), <- (app_nil_r (subs ++ [m])).
  apply (History_snoc w0 (es ++ []) (subs ++ [m]) (push m w)); [|done].
  apply (History_snoc w0 es subs w); [done|]. by apply Step_submit.
Qed.

Ltac sample_submit := first
  [ exact I
  | by intros ? [=]
  | intros ? [= <-]; apply (bool_decide_unpack _); vm_compute; exact I
  | vm_compute; discriminate
  | vm_compute; split_and!; (done || by eexists) ].
Ltac sample_step := apply after_said; vm_compute; by eexists.

Lemma history1 : history sample_world [] [Execute first_payload] world1.
Proof.
  apply (history_next sample_world [] [] sample_world _ [] _); [constructor|sample_submit..|].
  refine (Step_message alloc_always _ _ _ _). sample_step.
Defined.
Lemma history2 : history sample_world (said async_check_outer_messages (push (Execute second_payload) world1))
  [Execute first_payload; Execute second_payload] world2.
Proof.
  apply (history_next sample_world [] [Execute first_payload] world1 _ _ _ history1); [sample_submit..|].
  refine (Step_async alloc_always _ _ _ _). sample_step.
Defined.

Lemma history3 : history sample_world
  (said async_check_outer_messages (push (Execute second_payload) world1) ++ said handle_next (push Stop world2))
  [Execute first_payload; Execute second_payload; Stop] world3.
Proof.
  apply (history_next sample_world _ [Execute first_payload; Execute second_payload] world2 _ _ _ history2);
    [sample_submit..|].
  refine (Step_message alloc_always _ _ _ _). sample_step.
Defined.

Lemma transfers_answered_witness :
  answered world3 21%positive ∧ answered world3 22%positive ∧
  cleanups (said async_check_outer_messages (push (Execute second_payload) world1) ++
    said handle_next (push Stop world2)) ≡ₚ [1%positive; 2%positive].
Proof.
  destruct (transfers_answered sample_world _ _ world3 sample_initial history3) as (_ & _ & Hs).
  destruct Hs as [Hc Ha]; [by vm_compute|].
  split; [apply Ha; by left|]. split; [apply Ha; right; by left|]. exact Hc.
Defined.

Lemma agent_always_proceeds_witness :
  ∃ w' es', shutdown_message_context 42 world1 = Some ((), w', es') ∧ handles w' = [] ∧ stopped w'.
Proof. apply (agent_always_proceeds sample_world [] [Execute first_payload] world1 42 sample_initial history1). Defined.

Lemma duplicate_id_fails_alone_witness :
  ∃ w' es', execute_transfer second_payload world1 = Some ((), w', es') ∧ cleanups es' = [2%positive] ∧
    answered w' 22%positive ∧ Registry.data (nodes w') = Registry.data (nodes world1).
Proof.
  assert (message_ok world1 (Execute second_payload)) as Hpl by sample_submit.
  assert (∀ e, easy second_payload = Some e → e ∉ handles world1) as Hnew by sample_submit.
  assert (∃ q, Registry.registry_find 7 (table world1) = Some (Some q, table world1, [])) as [q Hq]
    by (vm_compute; by eexists).
  destruct (duplicate_id_fails_alone sample_world [] [Execute first_payload] world1 second_payload q
    sample_initial history1 Hpl Hnew Hq) as (w' & es' & E & Hc & Ha & Hd & _).
  exists w', es'. split; [exact E|]. split; [exact Hc|]. split; [|exact Hd]. apply Ha. reflexivity.
Defined.

Lemma control_messages_witness :
  (∃ t w' es', nodes world1 !! 1%positive = Some t ∧ cancel_transfer 7 world1 = Some ((), w', es') ∧
     cleanups es' = [Registry.easy t] ∧ published_result world1 t CURLE_ABORTED_BY_CALLBACK w' ∧
     Registry.data (nodes w') = delete 1%positive (Registry.data (nodes world1)) ∧
     Registry.registry_find 7 (table w') = Some (None, table w', []) ∧
     ∀ j q, j ≠ 7 → Registry.registry_find j (table world1) = Some (q, table world1, []) →
       Registry.registry_find j (table w') = Some (q, table w', [])) ∧
  resume_transfer 8 world1 = Some ((), world1, []) ∧ cancel_transfer 8 world1 = Some ((), world1, []).
Proof.
  split.
  - apply (control_messages sample_world [] [Execute first_payload] world1 7 (Some 1%positive)
      sample_initial history1). by vm_compute.
  - apply (control_messages sample_world [] [Execute first_payload] world1 8 None
      sample_initial history1). by vm_compute.
Defined.

Lemma completion_publishes_witness :
  ∃ p t w' es', nodes world1 !! p = Some t ∧ Registry.easy t = 1%positive ∧
    complete_transfer 1 28 world1 = Some ((), w', es') ∧ cleanups es' = [1%positive] ∧
    nodes w' !! p = None ∧ published_result world1 t 28 w'.
Proof.
  apply (completion_publishes sample_world [] [Execute first_payload] world1 1 28 sample_initial history1).
  - apply (bool_decide_unpack _). by vm_compute.
  - done.
Defined.

End AgentHistory.
