(* ===== verification/CurlUv.v ===== *)
(** * The reactor ([cbits/curl_uv.c], set-up and tear-down of [cbits/message_chan.c])

    What ties libcurl's sockets and timer to libuv's loop: the callbacks that
    libcurl calls, the callbacks that libuv calls, and the life of the blocks of
    memory they use.  libcurl and libuv are the environment: what they answer and
    the order in which they call back are inputs, their handles have the contract
    that their manuals give. *)

From S2P Require Import Prelude Sender Registry Metrics Agent AgentWorld AgentProps AgentStop AgentHistory.
Import Agent AgentWorld AgentProps AgentStop AgentHistory.

Open Scope Z_scope.
Open Scope record_scope.

Module CurlUv.
#[local] Existing Instance Sender.message_sender_eta.

(** ** Constants of libcurl and libuv *)

Abbreviation CURL_POLL_IN := 1.
Abbreviation CURL_POLL_OUT := 2.
Abbreviation CURL_POLL_INOUT := 3.
Abbreviation CURL_POLL_REMOVE := 4.
Abbreviation CURL_CSELECT_IN := 1.
Abbreviation CURL_CSELECT_OUT := 2.
Abbreviation CURL_CSELECT_ERR := 4.
Abbreviation UV_READABLE := 1.
Abbreviation UV_WRITABLE := 2.
Abbreviation CURLM_CALL_MULTI_PERFORM := (-1).
Abbreviation CURLM_OK := 0.
Abbreviation CURLM_BAD_SOCKET := 5.

(** ** State *)

(** [socket_context_t]: the descriptor, and of its poll handle the events watched
    while it is active and whether it is closing. *)
Record socket_context := Socket {
  socket_fd : Z;
  watched : option Z;
  closing : bool
}.
#[global] Instance socket_context_eta : Eta socket_context := λ c,
  Socket (socket_fd c) (watched c) (closing c).

Definition sizeof_socket_context : Z := 184.

(** The other blocks of the reactor: the loop, the async handle, the message
    context and the multi context with its timer. *)
Inductive block := Loop | Async_handle | Message_context | Multi_context.
#[export] Instance block_eq_dec : EqDecision block.
Proof. solve_decision. Defined.
#[export] Instance block_countable : Countable block.
Proof.
  refine (inj_countable' (λ b, match b with Loop => 0 | Async_handle => 1 | Message_context => 2
    | Multi_context => 3 end : nat)%nat
    (λ n, match n with 0 => Loop | 1 => Async_handle | 2 => Message_context | _ => Multi_context end)%nat _).
  by intros [].
Defined.

(** [loop->data], which libuv never sets. *)
Inductive user_data := Indeterminate | Null | Multi_context_pointer.
#[export] Instance user_data_eq_dec : EqDecision user_data.
Proof. solve_decision. Defined.

(** The options of the multi handle that hold a function or its argument. *)
Inductive multi_option := SOCKETFUNCTION | SOCKETDATA | TIMERFUNCTION | TIMERDATA.
#[export] Instance multi_option_eq_dec : EqDecision multi_option.
Proof. solve_decision. Defined.
#[export] Instance multi_option_countable : Countable multi_option.
Proof.
  refine (inj_countable' (λ b, match b with SOCKETFUNCTION => 0 | SOCKETDATA => 1 | TIMERFUNCTION => 2
    | TIMERDATA => 3 end : nat)%nat
    (λ n, match n with 0 => SOCKETFUNCTION | 1 => SOCKETDATA | 2 => TIMERFUNCTION | _ => TIMERDATA end)%nat _).
  by intros [].
Defined.

(** libuv visits handles, and runs the callbacks of closing ones, in an order of
    its own. *)
Class Libuv := handle_order : list ptr → list ptr.
Class LibuvLaws `{Libuv} := handle_order_perm l : handle_order l ≡ₚ l.

Section reactor.
Context `{L : Libcurl} `{I : Metrics.CurlInfo} `{U : Libuv}.

(** The agent with its messages, the socket contexts in memory, the sockets that
    libcurl knows with the pointer assigned to each, the options set, the timer,
    the other blocks, [loop->data] and the sender while it is in memory. *)
Record reactor := Reactor {
  agent : world;
  sockets : gmap ptr socket_context;
  known : gmap Z (option ptr);
  options : gset multi_option;
  timer : option Z;
  blocks : gset block;
  loop_data : user_data;
  sender : option Sender.message_sender
}.
#[global] Instance reactor_eta : Eta reactor := λ r,
  Reactor (agent r) (sockets r) (known r) (options r) (timer r) (blocks r) (loop_data r) (sender r).

(** ** Memory *)

Definition allocate (b : block) : M reactor () := modify (λ r, r <| blocks ::= union {[b]} |>).
(** Reading a block, and [free] of one. *)
Definition live (b : block) : M reactor () :=
  r ← gets (λ r, r); if bool_decide (b ∈ blocks r) then mret () else fault.
Definition free (b : block) : M reactor () :=
  live b;; modify (λ r, r <| blocks ::= λ bs, bs ∖ {[b]} |>).

Definition socket (p : ptr) : M reactor socket_context :=
  r ← gets (λ r, r); defined (sockets r !! p).
Definition set_socket (p : ptr) (c : socket_context) : M reactor () :=
  modify (λ r, r <| sockets ::= <[p := c]> |>).

(** ** Poll handles of libuv

    A handle is closed once; until its close callback has run its memory must
    stay; a closing handle is neither started nor stopped. *)

Definition uv_is_closing (p : ptr) : M reactor bool := c ← socket p; mret (closing c).
Definition uv_close (p : ptr) : M reactor () :=
  c ← socket p;
  if closing c then fault else set_socket p (c <| watched := None |> <| closing := true |>).
Definition uv_poll_start (p : ptr) (events answer : Z) : M reactor Z :=
  c ← socket p;
  if closing c then fault
  else if bool_decide (answer = 0) then set_socket p (c <| watched := Some events |>);; mret 0
  else mret answer.
Definition uv_poll_stop (p : ptr) : M reactor () :=
  c ← socket p;
  if closing c then fault else set_socket p (c <| watched := None |>).

(** ** Socket contexts *)

(** [destroy_socket_context_cb], called by libuv on a closing handle. *)
Definition destroy_socket_context_cb (p : ptr) : M reactor () :=
  socket p;; modify (λ r, r <| sockets ::= delete p |>).

Definition destroy_socket_context (context : option ptr) : M reactor () :=
  match context with
  | None => mret ()
  | Some p =>
      closing ← uv_is_closing p;
      if closing : bool then mret () else uv_close p
  end.

(** What the system answers during one callback. *)
Record answers := Answers {
  memory : Allocator;
  uv_poll_init_socket : Z;
  curl_multi_assign_code : Z;
  uv_poll_start_code : Z;
  uv_timer_start_code : Z;
  uv_timer_stop_code : Z
}.

Definition new_socket_context (a : answers) (fd : Z) : M reactor (option ptr) :=
  if negb (calloc (H := memory a) 1 sizeof_socket_context) then mret None
  else
    live Multi_context;;
    if bool_decide (uv_poll_init_socket a ≠ 0) then mret None
    else
      r ← gets (λ r, r);
      let p := base.fresh (dom (sockets r) : gset ptr) in
      set_socket p (Socket fd None false);;
      mret (Some p).

(** libcurl assigns pointers to sockets that it knows. *)
Definition curl_multi_assign (fd : Z) (p : option ptr) (answer : Z) : M reactor Z :=
  r ← gets (λ r, r);
  match known r !! fd with
  | None => mret CURLM_BAD_SOCKET
  | Some _ =>
      if bool_decide (answer = CURLM_OK)
      then modify (λ r, r <| known ::= <[fd := p]> |>);; mret CURLM_OK else mret answer
  end.

(** ** Callbacks of libcurl *)

(** The context that a socket is watched with: the one assigned, or a new one. *)
Definition context_for (a : answers) (fd : Z) (socket_data : option ptr) : M reactor (option ptr) :=
  unusable ← match socket_data with None => mret true | Some p => uv_is_closing p end;
  if unusable : bool then
    context ← new_socket_context a fd;
    match context with
    | None => mret None
    | Some p =>
        code ← curl_multi_assign fd (Some p) (curl_multi_assign_code a);
        if bool_decide (code ≠ CURLM_OK) then destroy_socket_context (Some p);; mret None
        else mret (Some p)
    end
  else mret socket_data.

Definition events_of (action : Z) : Z :=
  Z.lor (if bool_decide (action ≠ CURL_POLL_IN) then UV_WRITABLE else 0)
    (if bool_decide (action ≠ CURL_POLL_OUT) then UV_READABLE else 0).

(** The [userdata] is the multi context. *)
Definition curl_socket_function (a : answers) (fd action : Z) (socket_data : option ptr) : M reactor Z :=
  if bool_decide (action = CURL_POLL_IN) || bool_decide (action = CURL_POLL_OUT)
     || bool_decide (action = CURL_POLL_INOUT) then
    context ← context_for a fd socket_data;
    match context with
    | None => mret (-1)
    | Some p =>
        code ← uv_poll_start p (events_of action) (uv_poll_start_code a);
        mret (if bool_decide (code = 0) then 0 else -1)
    end
  else if bool_decide (action = CURL_POLL_REMOVE) then
    match socket_data with
    | None => mret ()
    | Some p =>
        uv_poll_stop p;;
        curl_multi_assign fd None (curl_multi_assign_code a);;
        destroy_socket_context (Some p)
    end;;
    mret 0
  else mret (-1).

Definition curl_timer_function (a : answers) (timeout_ms : Z) : M reactor Z :=
  live Multi_context;;
  if bool_decide (timeout_ms < 0) then
    if bool_decide (uv_timer_stop_code a = 0)
    then modify (λ r, r <| timer := None |>);; mret 0 else mret (-1)
  else if bool_decide (uv_timer_start_code a = 0)
    then modify (λ r, r <| timer := Some (u64 timeout_ms) |>);; mret 0 else mret (-1).

(** ** A call of libcurl

    Between its entry and its return libcurl calls back: it starts, changes and
    forgets sockets, sets its timer, and runs the body and header callbacks of
    transfers.  [Again] is a return with [CURLM_CALL_MULTI_PERFORM], after which
    it is called again; old versions forget a socket without a callback; [f] is what the call did to libcurl's own state. *)
Inductive library :=
  | Return (code : Z) (f : lib → lib)
  | Again (f : lib → lib) (next : library)
  | Socket_function (fd action : Z) (a : answers) (k : Z → library)
  | Timer_function (timeout_ms : Z) (a : answers) (k : Z → library)
  | Forget_socket (fd : Z) (k : library)
  | Transfer_callbacks (f : world → world) (k : library).

Definition libcurl_becomes (f : lib → lib) : M reactor () :=
  modify (λ r, r <| agent ::= λ w, w <| curl ::= f |> |>).

(** libcurl knows a socket from before the first callback on it until after the
    one that removes it. *)
Definition call_socket_function (a : answers) (fd action : Z) : M reactor Z :=
  live Multi_context;;
  r ← gets (λ r, r);
  (if bool_decide (action = CURL_POLL_REMOVE) then mret ()
   else match known r !! fd with
        | Some _ => mret ()
        | None => modify (λ r, r <| known ::= <[fd := None]> |>)
        end);;
  code ← curl_socket_function a fd action (mjoin (known r !! fd));
  (if bool_decide (action = CURL_POLL_REMOVE) then modify (λ r, r <| known ::= delete fd |>)
   else mret ());;
  mret code.

(** [drive_multi_socket]: the loop goes on as long as libcurl asks for it. *)
Fixpoint drive_multi_socket (call : library) : M reactor Z :=
  match call with
  | Return code f => libcurl_becomes f;; mret code
  | Again f next => libcurl_becomes f;; drive_multi_socket next
  | Socket_function fd action a k =>
      code ← call_socket_function a fd action;
      drive_multi_socket (k code)
  | Timer_function timeout_ms a k =>
      code ← curl_timer_function a timeout_ms;
      drive_multi_socket (k code)
  | Forget_socket fd k =>
      modify (λ r, r <| known ::= delete fd |>);;
      drive_multi_socket k
  | Transfer_callbacks f k =>
      modify (λ r, r <| agent ::= f |>);;
      drive_multi_socket k
  end.

(** ** Callbacks of libuv *)

Definition flags_of (status events : Z) : Z :=
  if bool_decide (status < 0) then CURL_CSELECT_ERR
  else Z.lor (if bool_decide (Z.land events UV_READABLE ≠ 0) then CURL_CSELECT_IN else 0)
         (if bool_decide (Z.land events UV_WRITABLE ≠ 0) then CURL_CSELECT_OUT else 0).

(** The tail of the callbacks, for [multi_context->messages]. *)
Definition read_messages : M reactor () :=
  live Multi_context;; live Message_context;; on_field agent check_multi_info.

(** Everything ends when the multi handle fails. *)
Definition end_everything (code : Z) : M reactor () :=
  live Multi_context;; live Message_context;;
  on_field agent (shutdown_message_context code);;
  live Loop;;
  emit Ev_uv_stop.

(** [call fd flags] is what libcurl does when it is told of the event. *)
Definition socket_callback (call : Z → Z → library) (p : ptr) (status events : Z) : M reactor () :=
  context ← socket p;
  live Multi_context;;
  code ← drive_multi_socket (call (socket_fd context) (flags_of status events));
  if bool_decide (code = CURLM_BAD_SOCKET) then
    closing ← uv_is_closing p;
    (if closing : bool then mret () else uv_poll_stop p;; destroy_socket_context (Some p));;
    read_messages
  else if bool_decide (code ≠ CURLM_OK) then end_everything CURLE_RECV_ERROR
  else read_messages.

Definition on_timeout (call : library) : M reactor () :=
  live Multi_context;;
  code ← drive_multi_socket call;
  if bool_decide (code ≠ CURLM_OK) then end_everything CURLE_OPERATION_TIMEDOUT else read_messages.

(** ** Set-up *)

(** What the system answers while an agent is set up. *)
Record setup := Setup {
  malloc_async : bool;
  calloc_messages : bool;
  sender_memory : Allocator;
  uv_mutex_init : Z;
  uv_cond_init : Z;
  registry_memory : Allocator;
  uv_async_init : Z;
  calloc_multi : bool;
  curl_multi_setopt : multi_option → Z;
  uv_timer_init : Z
}.

Definition allocate_if (ok : bool) (b : block) : M reactor () := if ok then allocate b else mret ().
(** [free] of a pointer that is NULL if [ok] is false. *)
Definition free_if (ok : bool) (b : block) : M reactor () := if ok then free b else mret ().

(** [message_sender_release] on the sender of the agent. *)
Definition release_sender : M reactor () :=
  freed ← on_field sender Sender.message_sender_release;
  if freed : bool then modify (λ r, r <| sender := None |>) else mret ().

Definition on_registry {A} (m : M Registry.store A) : M reactor A := on_field agent (on_field table m).

Definition init_async_check_messages (s : setup) : M reactor bool :=
  allocate_if (malloc_async s) Async_handle;;
  allocate_if (calloc_messages s) Message_context;;
  let new := Sender.message_sender_create (H := sender_memory s) (uv_mutex_init s) (uv_cond_init s) in
  modify (λ r, r <| sender := new |>);;
  if negb (malloc_async s) || negb (calloc_messages s) || bool_decide (new = None) then
    free_if (malloc_async s) Async_handle;;
    free_if (calloc_messages s) Message_context;;
    release_sender;;
    mret false
  else
    initialised ← on_registry (Registry.registry_init (H := registry_memory s));
    if negb initialised then
      free Async_handle;;
      free Message_context;;
      release_sender;;
      mret false
    else if bool_decide (uv_async_init s ≠ 0) then
      on_registry Registry.registry_destroy;;
      on_field sender Sender.message_sender_close;;
      release_sender;;
      free Message_context;;
      free Async_handle;;
      mret false
    else
      modify (λ r, r <| sender ::= fmap (λ s, s <| Sender.async_handle := true |>) |>);;
      mret true.

Definition message_sender_acquire : M reactor bool :=
  live Async_handle;; live Message_context;; on_field sender Sender.message_sender_retain.

Definition set_option (s : setup) (o : multi_option) : M reactor bool :=
  if bool_decide (curl_multi_setopt s o = CURLM_OK)
  then modify (λ r, r <| options ::= union {[o]} |>);; mret true else mret false.
(** [... != CURLM_OK || ...]: up to the first failure. *)
Fixpoint set_options (s : setup) (os : list multi_option) : M reactor bool :=
  match os with
  | [] => mret true
  | o :: os => ok ← set_option s o; if ok : bool then set_options s os else mret false
  end.
Definition clear_options : M reactor () := modify (λ r, r <| options := ∅ |>).

Definition bind_uv_curl_multi (s : setup) : M reactor bool :=
  if negb (calloc_multi s) then mret false
  else
    allocate Multi_context;;
    ok ← set_options s [SOCKETFUNCTION; SOCKETDATA; TIMERFUNCTION; TIMERDATA];
    if negb ok || bool_decide (uv_timer_init s ≠ 0) then
      clear_options;;
      free Multi_context;;
      mret false
    else
      live Loop;;
      modify (λ r, r <| loop_data := Multi_context_pointer |>);;
      mret true.

(** ** Tear-down *)

Definition destroy_message_context : M reactor () :=
  live Message_context;; release_sender;; free Message_context.

Fixpoint each {A} (f : A → M reactor ()) (l : list A) : M reactor () :=
  match l with [] => mret () | x :: l => f x;; each f l end.

Definition close_handle_cb (p : ptr) : M reactor () :=
  closing ← uv_is_closing p;
  if closing : bool then mret () else uv_close p.

(** [uv_walk] over the poll handles. *)
Definition uv_walk : M reactor () :=
  r ← gets (λ r, r); each close_handle_cb (handle_order (elements (dom (sockets r)))).

(** [uv_run] with every handle closed: the close callbacks of those that are
    closing. *)
Definition uv_run : M reactor () :=
  r ← gets (λ r, r);
  each destroy_socket_context_cb
    (handle_order (elements (dom (filter (λ pc, closing pc.2 = true) (sockets r))))).

(** [while (uv_loop_alive(loop))]. *)
Fixpoint run_loop (fuel : nat) : M reactor () :=
  r ← gets (λ r, r);
  if bool_decide (sockets r = ∅) then mret ()
  else match fuel with O => fault | S fuel => uv_run;; run_loop fuel end.

(** [curl_multi_cleanup], which may call back and forgets every socket. *)
Definition curl_multi_cleanup (call : library) : M reactor () :=
  drive_multi_socket call;;
  modify (λ r, r <| known := ∅ |> <| options := ∅ |>).

(** For a loop that is not NULL; [async] says whether the async handle is not,
    [multi] what the clean-up of a multi handle that is not NULL does. *)
Definition agent_shutdown (async : bool) (multi : option library) : M reactor () :=
  (if async then live Async_handle else mret ());;
  live Loop;;
  r ← gets (λ r, r);
  let multi_context := loop_data r in
  (if async then
     live Message_context;; on_field agent (shutdown_message_context CURLE_ABORTED_BY_CALLBACK)
   else mret ());;
  (match multi with Some call => curl_multi_cleanup call | None => mret () end);;
  uv_walk;;
  r ← gets (λ r, r);
  run_loop (size (sockets r));;
  (match multi_context with
   | Indeterminate => fault
   | Null => mret ()
   | Multi_context_pointer => free Multi_context
   end);;
  (if async then live Async_handle;; destroy_message_context;; free Async_handle else mret ());;
  free Loop.

End reactor.
End CurlUv.
