(* ===== verification/CurlUvSockets.v ===== *)
(** * The socket contexts of the reactor

    What the callbacks of libcurl do to the socket contexts, and what a whole
    call of libcurl does to the reactor and to its agent. *)

From S2P Require Import Prelude Sender Registry Metrics Agent AgentWorld AgentProps AgentStop AgentHistory.
From S2P Require Import CurlUv.
Import Agent AgentWorld AgentProps AgentStop AgentHistory CurlUv.

Open Scope Z_scope.
Open Scope record_scope.

Module CurlUvSockets.
Section reactor.
Context `{L : Libcurl} `{!LibcurlLaws} `{I : Metrics.CurlInfo}.

(** ** The invariant *)

(** The pointers that libcurl holds are to open contexts of their sockets. *)
Record sockets_ok (r : reactor) : Prop := SocketsOk {
  so_known fd p : known r !! fd = Some (Some p) →
    ∃ c, sockets r !! p = Some c ∧ socket_fd c = fd ∧ closing c = false;
  so_watched p c : sockets r !! p = Some c → closing c = true → watched c = None
}.

(** A context whose handle was stopped and closed. *)
Definition retired (c : socket_context) : socket_context := Socket (socket_fd c) None true.

(** libcurl's socket [fd] is watched by an open handle, for reading unless only
    writing is asked for, and the other way round. *)
Definition watching (fd action : Z) (r : reactor) : Prop :=
  ∃ p c events, known r !! fd = Some (Some p) ∧ sockets r !! p = Some c ∧ socket_fd c = fd ∧
    closing c = false ∧ watched c = Some events ∧ 0 ≤ events < 4 ∧
    Z.testbit events 0 = bool_decide (action ≠ CURL_POLL_OUT) ∧
    Z.testbit events 1 = bool_decide (action ≠ CURL_POLL_IN).

(** Memory and libuv and libcurl's answers allow a socket to be watched. *)
Definition granted (a : answers) : Prop :=
  calloc (H := memory a) 1 sizeof_socket_context = true ∧ uv_poll_init_socket a = 0 ∧
  curl_multi_assign_code a = CURLM_OK ∧ uv_poll_start_code a = 0.

(** What libcurl gets from the socket callback: the socket is watched, or a refusal
    with a cause; a socket that it removes has no watcher left; no other socket is
    concerned. *)
Record served (a : answers) (fd action : Z) (r : reactor) (code : Z) (r' : reactor) : Prop := Served {
  sv_watch : action = CURL_POLL_IN ∨ action = CURL_POLL_OUT ∨ action = CURL_POLL_INOUT →
    code = 0 ∧ watching fd action r' ∨ code = -1 ∧ ¬ granted a;
  sv_remove : action = CURL_POLL_REMOVE → code = 0 ∧ known r' !! fd = None ∧
    sockets r' = (if known r !! fd is Some (Some p) then alter retired p (sockets r) else sockets r);
  sv_others fd' : fd' ≠ fd → known r' !! fd' = known r !! fd'
}.

(** No context that is in memory goes away or changes its descriptor. *)
Definition persists (r r' : reactor) : Prop :=
  ∀ p c, sockets r !! p = Some c → ∃ c', sockets r' !! p = Some c' ∧ socket_fd c' = socket_fd c.

(** A callback changes only the contexts and what libcurl has assigned. *)
Record rearranged (r r' : reactor) : Prop := Rearranged {
  ra_ok : sockets_ok r';
  ra_persists : persists r r';
  ra_agent : agent r' = agent r;
  ra_options : options r' = options r;
  ra_timer : timer r' = timer r;
  ra_blocks : blocks r' = blocks r;
  ra_loop_data : loop_data r' = loop_data r;
  ra_sender : sender r' = sender r
}.

Lemma persists_refl r : persists r r.
Proof. intros p c Hp. by exists c. Qed.
Lemma persists_trans r0 r1 r2 : persists r0 r1 → persists r1 r2 → persists r0 r2.
Proof.
  intros H1 H2 p c Hp. destruct (H1 p c Hp) as (c1 & Hc1 & E1). destruct (H2 p c1 Hc1) as (c2 & Hc2 & E2).
  exists c2. by rewrite E2.
Qed.
Lemma persists_same r r' : sockets r' = sockets r → persists r r'.
Proof. intros E p c Hp. exists c. by rewrite E. Qed.
Lemma persists_set r r' p c :
  sockets r' = <[p := c]> (sockets r) → (∀ c', sockets r !! p = Some c' → socket_fd c = socket_fd c') →
  persists r r'.
Proof.
  intros E Hfd q d Hq. rewrite E. destruct (decide (q = p)) as [->|Hne].
  - exists c. rewrite lookup_insert_eq. by split; [|apply Hfd].
  - exists d. by rewrite lookup_insert_ne.
Qed.

Lemma sockets_ok_same r r' : sockets r' = sockets r → known r' = known r → sockets_ok r → sockets_ok r'.
Proof. intros E1 E2 [H1 H3]. split; rewrite ?E1, ?E2; done. Qed.

(** ** Handles *)

Lemma wp_live b Q r : b ∈ blocks r → Q () r [] → wp (live b) Q r.
Proof. intros Hb HQ. unfold live. wp_steps; [done|done]. Qed.
Lemma wp_socket p c Q r : sockets r !! p = Some c → Q c r [] → wp (socket p) Q r.
Proof. intros Hp HQ. unfold socket. wp_steps. by apply (wp_defined _ c). Qed.
Lemma wp_is_closing p c Q r :
  sockets r !! p = Some c → Q (closing c) r [] → wp (uv_is_closing p) Q r.
Proof. intros Hp HQ. unfold uv_is_closing. wp_step. apply (wp_socket p c); [done|]. by wp_step. Qed.
Lemma wp_close p c Q r :
  sockets r !! p = Some c → closing c = false →
  Q () (r <| sockets ::= <[p := c <| watched := None |> <| closing := true |>]> |>) [] →
  wp (uv_close p) Q r.
Proof.
  intros Hp Hc HQ. unfold uv_close. wp_step. apply (wp_socket p c); [done|]. rewrite Hc.
  unfold set_socket. by wp_step.
Qed.
Lemma wp_poll_stop p c Q r :
  sockets r !! p = Some c → closing c = false →
  Q () (r <| sockets ::= <[p := c <| watched := None |>]> |>) [] → wp (uv_poll_stop p) Q r.
Proof.
  intros Hp Hc HQ. unfold uv_poll_stop. wp_step. apply (wp_socket p c); [done|]. rewrite Hc.
  unfold set_socket. by wp_step.
Qed.
Lemma wp_poll_start p c events answer Q r :
  sockets r !! p = Some c → closing c = false →
  (answer = 0 → Q 0 (r <| sockets ::= <[p := c <| watched := Some events |>]> |>) []) →
  (answer ≠ 0 → Q answer r []) → wp (uv_poll_start p events answer) Q r.
Proof.
  intros Hp Hc H0 H1. unfold uv_poll_start. wp_step. apply (wp_socket p c); [done|]. rewrite Hc.
  wp_step; unfold set_socket; wp_steps; auto.
Qed.

(** ** Changes that keep the invariant *)

(** A context is assigned to the socket that it watches. *)
Lemma assigned_ok r r' p c :
  sockets_ok r → sockets r !! p = None → known r !! socket_fd c = Some None → closing c = false →
  sockets r' = <[p := c]> (sockets r) → known r' = <[socket_fd c := Some p]> (known r) → sockets_ok r'.
Proof.
  intros [H1 H3] Hp Hk Hc Es Ek. split; rewrite ?Es, ?Ek.
  - intros fd q. rewrite lookup_insert_Some. intros [[<- [= <-]]|[Hne Hq]].
    + exists c. by rewrite lookup_insert_eq.
    + destruct (H1 fd q Hq) as (d & Hd & Hfd & Hcl). exists d. rewrite lookup_insert_ne; [done|].
      intros ->. congruence.
  - intros q d. rewrite lookup_insert_Some. intros [[<- <-]|[Hne Hq]]; [congruence|by apply (H3 q d)].
Qed.

(** A context whose socket is no longer assigned to it is closed. *)
Lemma closed_ok r r' p c :
  sockets_ok r → closing c = true → watched c = None → sockets r' = <[p := c]> (sockets r) →
  (∀ fd q, known r' !! fd = Some (Some q) → q ≠ p ∧ known r !! fd = Some (Some q)) → sockets_ok r'.
Proof.
  intros [H1 H3] Hc Hw Es Hk. split; rewrite ?Es.
  - intros fd q Hq. destruct (Hk fd q Hq) as [Hne Hq']. destruct (H1 fd q Hq') as (d & Hd & ?).
    exists d. by rewrite lookup_insert_ne.
  - intros q d. rewrite lookup_insert_Some. intros [[<- <-]|[Hne Hq]]; [done|by apply (H3 q d)].
Qed.

(** An open context is watched otherwise. *)
Lemma watched_ok r r' p c e :
  sockets_ok r → sockets r !! p = Some c → closing c = false →
  sockets r' = <[p := c <| watched := e |>]> (sockets r) → known r' = known r → sockets_ok r'.
Proof.
  intros [H1 H3] Hp Hc Es Ek. split; rewrite ?Es, ?Ek.
  - intros fd q Hq. destruct (H1 fd q Hq) as (d & Hd & Hfd & Hcl). destruct (decide (q = p)) as [->|Hne].
    + exists (c <| watched := e |>). rewrite lookup_insert_eq. by replace c with d by congruence.
    + exists d. by rewrite lookup_insert_ne.
  - intros q d. rewrite lookup_insert_Some. intros [[<- <-]|[Hne Hq]]; [cbn; congruence|by apply (H3 q d)].
Qed.

(** libcurl forgets or notices a socket. *)
Lemma forgotten_ok r r' fd :
  sockets_ok r → sockets r' = sockets r → known r' = delete fd (known r) → sockets_ok r'.
Proof.
  intros [H1 H3] Es Ek. split; rewrite ?Es, ?Ek; [|done].
  intros fd' p [_ Hp]%lookup_delete_Some. by apply H1.
Qed.
Lemma noticed_ok r r' fd :
  sockets_ok r → sockets r' = sockets r → known r' = <[fd := None]> (known r) → sockets_ok r'.
Proof.
  intros [H1 H3] Es Ek. split; rewrite ?Es, ?Ek; [|done].
  intros fd' p [[_ ?]|[_ Hp]]%lookup_insert_Some; [done|]. by apply H1.
Qed.

(** ** Callbacks of libcurl *)

Lemma fresh_socket r : sockets r !! (base.fresh (dom (sockets r) : gset ptr)) = None.
Proof. apply not_elem_of_dom, is_fresh. Qed.

Lemma wp_context_for a fd d r :
  sockets_ok r → Multi_context ∈ blocks r → known r !! fd = Some d →
  wp (context_for a fd d) (λ o r' es, es = [] ∧ rearranged r r' ∧ dom (known r') = dom (known r) ∧
    (∀ p, o = Some p → ∃ c, sockets r' !! p = Some c ∧ closing c = false ∧ socket_fd c = fd ∧
      known r' !! fd = Some (Some p)) ∧
    (o = None → ¬ granted a) ∧ ∀ fd', fd' ≠ fd → known r' !! fd' = known r !! fd') r.
Proof.
  intros Hok Hm Hk. unfold context_for.
  assert (rearranged r r) as Hrefl by (split; [done|apply persists_refl|done..]).
  destruct d as [p|].
  { destruct (so_known r Hok fd p Hk) as (c & Hp & Hfd & Hc).
    wp_step. apply (wp_is_closing p c); [done|]. rewrite Hc. wp_step. split; [done|]. split; [done|].
    split; [done|]. split; [intros q [= <-]; by exists c|by split]. }
  wp_step. wp_step. wp_step. unfold new_socket_context.
  destruct (calloc 1 _) eqn:Hca; cbn [negb]; [|by wp_steps; split_and!; try done; intros _ (? & _); congruence].
  wp_step. apply wp_live; [done|]. wp_step; [by wp_steps; split_and!; try done; intros _ (_ & ? & _)|].
  wp_step. wp_step. wp_step. unfold set_socket. wp_step. wp_step.
  set (p := base.fresh _). set (c := Socket fd None false).
  pose proof (fresh_socket r) as Hp. fold p in Hp.
  wp_step. unfold curl_multi_assign. wp_step. wp_step. cbn. rewrite Hk.
  wp_step.
  - (* assigned *)
    wp_step. wp_step. wp_step. rewrite bool_decide_false by (by intros []). wp_step.
    match goal with |- context [rearranged r ?r'] => set (r2 := r') end.
    split; [done|]. split; [|split; [|split; [|split; [done|]]]].
    + split; try done; [by apply (assigned_ok r r2 p c)|]. apply (persists_set r r2 p c); [done|congruence].
    + cbn. rewrite dom_insert_L. apply elem_of_dom_2 in Hk. set_solver.
    + intros q [= <-]. exists c. split; [apply lookup_insert_eq|]. do 2 (split; [done|]). apply lookup_insert_eq.
    + intros fd' Hne. by apply lookup_insert_ne.
  - wp_step. rewrite bool_decide_true by done. wp_step. unfold destroy_socket_context. wp_step.
    apply (wp_is_closing p c); [apply lookup_insert_eq|]. cbn [closing c].
    apply (wp_close p c); [apply lookup_insert_eq|done|]. wp_step.
    match goal with |- context [rearranged r ?r'] => set (r2 := r') end.
    assert (sockets r2 = <[p := c <| closing := true |>]> (sockets r)) as E2 by (cbn; by rewrite insert_insert_eq).
    split; [done|]. split; [|split_and!; try done; by intros _ (_ & _ & ? & _)]. split; try done.
    + assert (∀ fd' q, known r !! fd' = Some (Some q) → q ≠ p) as Hne.
      { intros fd' q Hq ->. destruct (so_known r Hok fd' p Hq) as (? & ? & _). congruence. }
      apply (closed_ok r r2 p (c <| closing := true |>)); try done.
      intros fd' q Hq. split; [by eapply Hne|done].
    + apply (persists_set r r2 p (c <| closing := true |>)); [done|congruence].
Qed.

(** What libcurl knows after a callback on [fd]. *)
Definition known_after (fd action : Z) (K : gset Z) : gset Z :=
  if bool_decide (action = CURL_POLL_REMOVE) then K ∖ {[fd]} else {[fd]} ∪ K.

Lemma events_wanted action : 0 ≤ events_of action < 4 ∧
  Z.testbit (events_of action) 0 = bool_decide (action ≠ CURL_POLL_OUT) ∧
  Z.testbit (events_of action) 1 = bool_decide (action ≠ CURL_POLL_IN).
Proof. unfold events_of. by destruct (bool_decide (action ≠ CURL_POLL_IN)), (bool_decide (action ≠ CURL_POLL_OUT)). Qed.

Lemma wp_watch a fd action d r :
  sockets_ok r → Multi_context ∈ blocks r → action ≠ CURL_POLL_REMOVE → known r !! fd = Some d →
  wp (curl_socket_function a fd action d) (λ code r' es, es = [] ∧ rearranged r r' ∧
    dom (known r') = dom (known r) ∧ served a fd action r code r') r.
Proof.
  intros Hok Hm Ha Hk. unfold curl_socket_function. destruct (_ || _ : bool) eqn:Hact.
  - wp_step. eapply wp_mono; [by apply wp_context_for|].
    intros [p|] r1 es1 (-> & [O1 P1 A1 N1 T1 B1 D1 S1] & K1 & Hp & Hg & Ho);
      [|wp_step; split_and!; try done; split; [right; split; [done|by apply Hg]|done|done]].
    destruct (Hp p eq_refl) as (c & Hc & Hcl & Hfd & Hkn). wp_step.
    apply (wp_poll_start p c); [done..| |]; intros Hans; wp_step; cbn [app].
    + split; [done|]. split; [|split; [done|split; [|done|done]]].
      * split; try done; [by eapply (watched_ok r1)|].
        eapply persists_trans; [exact P1|]. eapply (persists_set r1); [done|]. cbn. congruence.
      * intros _. left. split; [done|]. exists p, (c <| watched := Some (events_of action) |>), (events_of action).
        split; [done|]. split; [apply lookup_insert_eq|]. do 3 (split; [done|]). apply events_wanted.
    + split; [done|]. split; [by split|]. split; [done|]. split; [|done|done].
      intros _. right. rewrite bool_decide_false by done. split; [done|]. by intros (_ & _ & _ & ?).
  - rewrite bool_decide_false by done. wp_step. split; [done|]. split; [|split; [done|split; [|done|done]]].
    + split; try done. apply persists_refl.
    + intros Hw. rewrite !orb_false_iff, !bool_decide_eq_false in Hact. lia.
Qed.

Lemma remove_eq a fd d :
  curl_socket_function a fd CURL_POLL_REMOVE d =
  (match d with
   | None => mret ()
   | Some p =>
       uv_poll_stop p;;
       curl_multi_assign fd None (curl_multi_assign_code a);;
       destroy_socket_context (Some p)
   end;;
   mret 0).
Proof. reflexivity. Qed.

Lemma served_gone a fd r r' :
  (∀ p, known r !! fd ≠ Some (Some p)) → sockets r' = sockets r → known r' = delete fd (known r) →
  served a fd CURL_POLL_REMOVE r 0 r'.
Proof.
  intros Hk Hs Hd. split; [lia| |intros fd' Hne; rewrite Hd; by apply lookup_delete_ne].
  intros _. rewrite Hd, lookup_delete_eq, Hs. destruct (known r !! fd) as [[p|]|]; [by destruct (Hk p)|done..].
Qed.

Lemma wp_unwatch a fd r :
  sockets_ok r →
  wp (code ← curl_socket_function a fd CURL_POLL_REMOVE (mjoin (known r !! fd));
      modify (λ r, r <| known ::= delete fd |>);; mret code)
    (λ code r' es, es = [] ∧ rearranged r r' ∧ known r' = delete fd (known r) ∧
      served a fd CURL_POLL_REMOVE r code r') r.
Proof.
  intros Hok. rewrite remove_eq.
  destruct (known r !! fd) as [[p|]|] eqn:Hk; cbn [mjoin option_join].
  - destruct (so_known r Hok fd p Hk) as (c & Hp & Hfd & Hc). wp_step. wp_step.
    wp_step. apply (wp_poll_stop p c); [done..|]. set (r1 := r <| sockets ::= _ |>). wp_step.
    assert (wp (curl_multi_assign fd None (curl_multi_assign_code a)) (λ _ r2 es, es = [] ∧
      ∃ k, r2 = r1 <| known := k |> ∧ delete fd k = delete fd (known r)) r1) as Hassign.
    { unfold curl_multi_assign. wp_step. wp_step. cbn. rewrite Hk. wp_step.
      - wp_step. wp_step. wp_step. split; [done|]. eexists. split; [reflexivity|]. apply delete_insert_eq.
      - wp_step. split; [done|]. exists (known r). split; [|done]. by destruct r. }
    eapply wp_mono; [exact Hassign|]. intros code r2 es2 (-> & k & -> & Hdel).
    unfold destroy_socket_context. wp_step.
    apply (wp_is_closing p (c <| watched := None |>)); [apply lookup_insert_eq|]. cbn [closing]. 
    change (closing (c <| watched := None |>)) with (closing c). rewrite Hc.
    apply (wp_close p (c <| watched := None |>)); [apply lookup_insert_eq|done|]. wp_steps.
    match goal with |- context [rearranged r ?r'] => set (r3 := r') end.
    assert (known r3 = delete fd (known r)) as K3 by (cbn; exact Hdel).
    set (c3 := c <| watched := None |> <| closing := true |>).
    assert (sockets r3 = <[p := c3]> (sockets r)) as E3 by (cbn; by rewrite insert_insert_eq).
    split; [done|]. split; [|split; [done|]].
    2:{ split; [lia| |intros fd' Hne; rewrite K3; by apply lookup_delete_ne].
        intros _. split; [done|]. rewrite K3, lookup_delete_eq. split; [done|]. rewrite Hk, E3.
        apply map_eq. intros q. destruct (decide (q = p)) as [->|Hne];
          [by rewrite lookup_insert_eq, lookup_alter_eq, Hp|by rewrite lookup_insert_ne, lookup_alter_ne]. }
    split; try done.
    + apply (closed_ok r r3 p c3); try done.
      intros fd' q. rewrite K3, lookup_delete_Some. intros [Hne Hq]. split; [|done]. intros ->.
      destruct (so_known r Hok fd' p Hq) as (c' & Hp' & Hfd' & _). congruence.
    + apply (persists_set r r3 p c3); [done|]. intros c' Hp'. cbn. congruence.
  - wp_steps. split; [done|]. split; [|split; [done|by apply served_gone; rewrite ?Hk]].
    split; try done; [|by apply persists_same]. by apply (forgotten_ok r _ fd).
  - wp_steps. split; [done|]. split; [|split; [done|by apply served_gone; rewrite ?Hk]].
    split; try done; [|by apply persists_same]. by apply (forgotten_ok r _ fd).
Qed.

Lemma wp_call_socket_function a fd action r :
  sockets_ok r → Multi_context ∈ blocks r →
  wp (call_socket_function a fd action) (λ code r' es, es = [] ∧ rearranged r r' ∧
    dom (known r') = known_after fd action (dom (known r)) ∧ served a fd action r code r') r.
Proof.
  intros Hok Hm. unfold call_socket_function, known_after. wp_step. apply wp_live; [done|].
  wp_step. wp_step. wp_step. destruct (decide (action = CURL_POLL_REMOVE)) as [->|Hne].
  - rewrite bool_decide_true by done. wp_step.
    eapply wp_mono; [by apply (wp_unwatch a fd)|]. intros code r2 es2 (-> & H2 & K2 & V2).
    split; [done|]. split; [done|]. split; [by rewrite K2, dom_delete_L|done].
  - rewrite bool_decide_false by done. destruct (known r !! fd) as [d|] eqn:Hk.
    + wp_step. cbn [mjoin option_join]. wp_step.
      eapply wp_mono; [by apply (wp_watch a fd action d)|]. intros code r2 es2 (-> & H2 & K2 & V2).
      do 3 wp_step. split; [done|]. split; [done|]. split; [|done]. rewrite K2. apply elem_of_dom_2 in Hk. set_solver.
    + wp_step. cbn [mjoin option_join]. wp_step. set (r1 := r <| known ::= _ |>).
      assert (known r1 !! fd = Some None) as Hk1 by (apply lookup_insert_eq).
      assert (sockets_ok r1) as Hok1 by (by apply (noticed_ok r r1 fd)).
      eapply wp_mono; [by apply (wp_watch a fd action None)|]. intros code r2 es2 (-> & [] & K2 & V2).
      do 3 wp_step. split; [done|]. split; [by split|]. split; [rewrite K2; cbn; by rewrite dom_insert_L|].
      destruct V2 as [V1 _ V3]. split; [done|done|]. intros fd' Hfd. rewrite (V3 fd' Hfd). by apply lookup_insert_ne.
Qed.

End reactor.
End CurlUvSockets.
