(* ===== verification/CurlUvSteps.v ===== *)
(** * Histories of the reactor

    What libcurl is relied on for during a call, and that the callbacks of libuv,
    whatever libcurl does when they call it, are safe and are histories of the
    agent. *)

From S2P Require Import Prelude Sender Registry Metrics Agent AgentWorld AgentProps AgentStop AgentHistory.
From S2P Require Import AgentSample CurlUv CurlUvSockets.
Import Agent AgentWorld AgentProps AgentStop AgentHistory CurlUv CurlUvSockets.

Open Scope Z_scope.
Open Scope record_scope.

Module CurlUvSteps.
Section reactor.
Context `{L : Libcurl} `{!LibcurlLaws} `{I : Metrics.CurlInfo}.

(** ** What libcurl may do during a call *)

(** A call that drives transfers adds and removes no handle. *)
Definition drives (f : lib → lib) : Prop :=
  ∀ c, private_of (f c) = private_of c ∧ added (f c) = added c.

(** libcurl knows the sockets [K] and was told of an event of [event_fd]: it
    answers [CURLM_BAD_SOCKET] only if it does not know that socket. *)
Fixpoint lawful (K : gset Z) (event_fd : option Z) (call : library) : Prop :=
  match call with
  | Return code f =>
      drives f ∧ code ≠ CURLM_CALL_MULTI_PERFORM ∧
      (code = CURLM_BAD_SOCKET → ∀ fd, event_fd = Some fd → fd ∉ K)
  | Again f next => drives f ∧ lawful K event_fd next
  | Socket_function fd action _ k => ∀ code, lawful (known_after fd action K) event_fd (k code)
  | Timer_function _ _ k => ∀ code, lawful K event_fd (k code)
  | Forget_socket fd k => lawful (K ∖ {[fd]}) event_fd k
  | Transfer_callbacks f k => (∀ w m, sys_ok w m → interference w (f w)) ∧ lawful K event_fd k
  end.

(** ** Histories of the agent *)

Lemma history_trans w0 e1 s1 w1 e2 s2 w2 :
  history w0 e1 s1 w1 → history w1 e2 s2 w2 → history w0 (e1 ++ e2) (s1 ++ s2) w2.
Proof.
  intros H1 H2. induction H2 as [|es subs w es' subs' w' H2 IH Hs]; [by rewrite !app_nil_r|].
  rewrite !(assoc_L (++)). by apply (History_snoc w0 _ _ w).
Qed.
Lemma history_step w es subs w' : step w es subs w' → history w es subs w'.
Proof.
  intros Hs. apply (History_snoc w [] [] w es subs w'); [constructor|done].
Qed.
Lemma history_ok w m es subs w' : sys_ok w m → history w es subs w' → ∃ m', sys_ok w' m'.
Proof. intros Hok Hh. apply (history_from w m es subs w' Hok Hh). Qed.
Lemma drives_step w m f : sys_ok w m → drives f → step w [] [] (w <| curl ::= f |>).
Proof.
  intros Hok Hf. apply Step_others. destruct (Hf (curl w)) as [Hp Ha].
  split; try done. apply (objects_ok_same w); [done..|]. apply Hok.
Qed.

(** ** A call *)

(** The blocks of a reactor that runs. *)
Definition running : gset block := {[ Loop; Async_handle; Message_context; Multi_context ]}.
Record reactor_ok (r : reactor) : Prop := ReactorOk {
  rk_agent : ∃ m, sys_ok (agent r) m;
  rk_sockets : sockets_ok r;
  rk_blocks : running ⊆ blocks r
}.

(** What a call does; [es] are the calls that the agent made. *)
Record driven (r : reactor) (es : list event) (r' : reactor) : Prop := Driven {
  dr_ok : reactor_ok r';
  dr_history : history (agent r) es [] (agent r');
  dr_persists : persists r r';
  dr_options : options r' = options r;
  dr_blocks : blocks r' = blocks r;
  dr_loop_data : loop_data r' = loop_data r;
  dr_sender : sender r' = sender r
}.

Lemma driven_trans r0 e1 r1 e2 r2 : driven r0 e1 r1 → driven r1 e2 r2 → driven r0 (e1 ++ e2) r2.
Proof.
  intros [A1 A2 A3 A4 A5 A6 A7] [B1 B2 B3 B4 B5 B6 B7]. split; try congruence; try done.
  - by apply (history_trans _ e1 [] (agent r1) e2 []).
  - by eapply persists_trans.
Qed.
Lemma driven_refl r : reactor_ok r → driven r [] r.
Proof. intros Hr. split; try done; [constructor|apply persists_refl]. Qed.

Lemma driven_rearranged r r' : reactor_ok r → rearranged r r' → driven r [] r'.
Proof.
  intros [Ha Hs Hb] [O P A N T B D S]. split; try done; [split|]; rewrite ?A, ?B; [done..|constructor].
Qed.

Lemma driven_agent r es w' :
  reactor_ok r → history (agent r) es [] w' → driven r es (r <| agent := w' |>).
Proof.
  intros [[m Ha] Hs Hb] Hh. split; try done; [|by apply persists_same].
  split; [|by apply (sockets_ok_same r)|done]. by apply (history_ok (agent r) m es []).
Qed.

Lemma driven_timer r t : reactor_ok r → driven r [] (r <| timer := t |>).
Proof.
  intros [Ha Hs Hb]. split; try done; [|constructor|by apply persists_same].
  split; [done|by apply (sockets_ok_same r)|done].
Qed.

Lemma driven_forgotten r fd : reactor_ok r → driven r [] (r <| known ::= delete fd |>).
Proof.
  intros [Ha Hs Hb]. split; try done; [|constructor|by apply persists_same].
  split; [done|by apply (forgotten_ok r _ fd)|done].
Qed.

Lemma block_running b r : reactor_ok r → b ∈ blocks r.
Proof. intros Hr. apply (rk_blocks r Hr). unfold running. destruct b; set_solver. Qed.

Lemma wp_timer_function a ms r :
  reactor_ok r → wp (curl_timer_function a ms) (λ _ r' es, es = [] ∧ driven r [] r' ∧ known r' = known r ∧
    agent r' = agent r) r.
Proof.
  intros Hr. unfold curl_timer_function. wp_step. apply wp_live; [by apply block_running|].
  wp_step; wp_step; wp_steps; (split; [done|]);
    (split; [first [by apply driven_timer | by apply driven_refl]|by split]).
Qed.

(** The agent's transfers and messages are as they were. *)
Definition same_work (r r' : reactor) : Prop :=
  table (agent r') = table (agent r) ∧ chan (agent r') = chan (agent r).
#[local] Instance same_work_trans : Transitive same_work.
Proof. intros r0 r1 r2 [A1 A2] [B1 B2]. split; congruence. Qed.
Lemma same_work_agent r r' : agent r' = agent r → same_work r r'.
Proof. intros E. unfold same_work. by rewrite E. Qed.

Lemma wp_drive call event_fd r :
  reactor_ok r → lawful (dom (known r)) event_fd call →
  wp (drive_multi_socket call) (λ code r' es, es = [] ∧ driven r [] r' ∧
    code ≠ CURLM_CALL_MULTI_PERFORM ∧
    (code = CURLM_BAD_SOCKET → ∀ fd, event_fd = Some fd → known r' !! fd = None) ∧ same_work r r') r.
Proof.
  revert r. induction call as [code f|f next IH|fd action a k IH|ms a k IH|fd k IH|f k IH]; intros r Hr Hl;
    cbn [drive_multi_socket lawful] in *.
  - destruct Hl as (Hf & Hc & Hbad). destruct (rk_agent r Hr) as [m Ha].
    unfold libcurl_becomes. wp_steps. split; [done|]. split; [|split; [done|split; [|done]]].
    + by apply driven_agent, history_step, (drives_step _ m).
    + intros Hcode fd Hfd. apply not_elem_of_dom. by apply Hbad.
  - destruct Hl as [Hf Hl]. destruct (rk_agent r Hr) as [m Ha]. unfold libcurl_becomes. wp_step. wp_step.
    match goal with |- wp _ _ ?r1 => assert (driven r [] r1) as D1
      by (by apply driven_agent, history_step, (drives_step _ m)); assert (same_work r r1) as W1 by done end.
    eapply wp_mono; [apply IH; [apply D1|done]|]. intros code r2 es2 (-> & D2 & ? & ? & W2).
    split; [done|]. split; [exact (driven_trans _ _ _ _ _ D1 D2)|]. split; [done|]. split; [done|].
    etransitivity; [exact W1|exact W2].
  - wp_step. eapply wp_mono; [apply wp_call_socket_function; [apply Hr|by apply block_running]|].
    intros code r1 es1 (-> & R1 & K1 & _). pose proof (driven_rearranged r r1 Hr R1) as D1.
    pose proof (same_work_agent _ _ (ra_agent _ _ R1)) as W1.
    eapply wp_mono; [apply IH; [apply D1|by rewrite K1]|]. intros code2 r2 es2 (-> & D2 & ? & ? & W2).
    split; [done|]. split; [exact (driven_trans _ _ _ _ _ D1 D2)|]. split; [done|]. split; [done|].
    etransitivity; [exact W1|exact W2].
  - wp_step. eapply wp_mono; [by apply wp_timer_function|]. intros code r1 es1 (-> & D1 & K1 & W1%same_work_agent).
    eapply wp_mono; [apply IH; [apply D1|by rewrite K1]|]. intros code2 r2 es2 (-> & D2 & ? & ? & W2).
    split; [done|]. split; [exact (driven_trans _ _ _ _ _ D1 D2)|]. split; [done|]. split; [done|].
    etransitivity; [exact W1|exact W2].
  - wp_step. wp_step.
    match goal with |- wp _ _ ?r1 => assert (driven r [] r1) as D1 by (by apply driven_forgotten); assert (same_work r r1) as W1 by done;
      assert (dom (known r1) = dom (known r) ∖ {[fd]}) as K1 by (apply dom_delete_L) end.
    eapply wp_mono; [apply IH; [apply D1|by rewrite K1]|]. intros code r2 es2 (-> & D2 & ? & ? & W2).
    split; [done|]. split; [exact (driven_trans _ _ _ _ _ D1 D2)|]. split; [done|]. split; [done|].
    etransitivity; [exact W1|exact W2].
  - destruct Hl as [Hf Hl]. destruct (rk_agent r Hr) as [m Ha]. wp_step. wp_step.
    match goal with |- wp _ _ ?r1 => assert (driven r [] r1) as D1
      by (by apply driven_agent, history_step, Step_others, (Hf _ m));
      assert (same_work r r1) as W1 by (split; [apply (in_table _ _ (Hf _ m Ha))|apply (in_chan _ _ (Hf _ m Ha))]) end.
    eapply wp_mono; [apply IH; [apply D1|done]|]. intros code r2 es2 (-> & D2 & ? & ? & W2).
    split; [done|]. split; [exact (driven_trans _ _ _ _ _ D1 D2)|]. split; [done|]. split; [done|].
    etransitivity; [exact W1|exact W2].
Qed.

(** ** The callbacks *)

Lemma wp_field_run {F A} (get : reactor → F) `{!Setter get} (m : M F A) Q r a f es :
  m (get r) = Some (a, f, es) → Q a (r <| get := f |>) es → wp (on_field get m) Q r.
Proof. intros E HQ. apply wp_on_field. unfold wp. by rewrite E. Qed.

Lemma wp_read_messages r : reactor_ok r → wp read_messages (λ _ r' es, driven r es r') r.
Proof.
  intros Hr. destruct (rk_agent r Hr) as [m Ha]. unfold read_messages.
  wp_step. apply wp_live; [by apply block_running|]. wp_step. apply wp_live; [by apply block_running|].
  destruct (wp_total _ _ _ (wp_completions (agent r) m Ha)) as ([] & w' & es & E & _).
  eapply wp_field_run; [exact E|]. by apply driven_agent, history_step, Step_completions.
Qed.

(** A callback made the agent's calls and then perhaps stopped the loop, the
    agent having no handle left. *)
Definition called_back (r : reactor) (es : list event) (r' : reactor) : Prop :=
  ∃ es', driven r es' r' ∧
    (es = es' ∨ es = es' ++ [Ev_uv_stop] ∧ stopped (agent r') ∧ handles (agent r') = []).

Lemma called_after r0 r1 es r2 : driven r0 [] r1 → called_back r1 es r2 → called_back r0 es r2.
Proof. intros D1 (es' & D2 & He). exists es'. split; [|done]. exact (driven_trans _ _ _ _ _ D1 D2). Qed.

Lemma wp_end_stops code r : reactor_ok r →
  wp (end_everything code) (λ _ r' es, ∃ es', driven r es' r' ∧ es = es' ++ [Ev_uv_stop] ∧
    stopped (agent r') ∧ handles (agent r') = []) r.
Proof.
  intros Hr. destruct (rk_agent r Hr) as [m Ha]. unfold end_everything.
  wp_step. apply wp_live; [by apply block_running|]. wp_step. apply wp_live; [by apply block_running|].
  destruct (wp_total _ _ _ (wp_shutdown_step (agent r) m code Ha)) as ([] & w' & es & E & [[m' Hw'] _] & Hs).
  wp_step. eapply wp_field_run; [exact E|]. wp_step. apply wp_live; [by apply (block_running _ r)|]. wp_step.
  exists es. split; [by apply driven_agent, history_step, (Step_shutdown code)|]. split; [done|].
  split; [done|]. by apply (stopped_handles w' m').
Qed.

Lemma wp_end_reactor code r : reactor_ok r → wp (end_everything code) (λ _ r' es, called_back r es r') r.
Proof.
  intros Hr. eapply wp_mono; [by apply wp_end_stops|]. intros [] r' es (es' & D & He).
  exists es'. by split; [|right].
Qed.

Lemma called_messages r es r' : driven r es r' → called_back r es r'.
Proof. intros D. exists es. by split; [|left]. Qed.

Lemma wp_retire {A} p c r (next : M reactor A) Q :
  sockets_ok r → sockets r !! p = Some c →
  wp next Q (r <| sockets ::= <[p := retired c]> |>) →
  wp (closing ← uv_is_closing p;
      (if closing : bool then mret () else uv_poll_stop p;; destroy_socket_context (Some p));;
      next) Q r.
Proof.
  intros Hs Hp HQ. wp_step. apply (wp_is_closing p c); [done|]. wp_step. destruct (closing c) eqn:Hc.
  - assert (retired c = c) as E
      by (pose proof (so_watched r Hs p c Hp Hc); destruct c; cbn in *; by subst).
    assert (r <| sockets ::= <[p := retired c]> |> = r) as Er
      by (rewrite E; destruct r; cbn in *; by rewrite insert_id).
    rewrite Er in HQ. by wp_step.
  - wp_step. apply (wp_poll_stop p c); [done..|]. unfold destroy_socket_context. wp_step.
    apply (wp_is_closing p (c <| watched := None |>)); [apply lookup_insert_eq|].
    change (closing (c <| watched := None |>)) with (closing c). rewrite Hc.
    apply (wp_close p (c <| watched := None |>)); [apply lookup_insert_eq|done|]. cbn [app].
    match goal with |- wp next _ ?r' => assert (r' = r <| sockets ::= <[p := retired c]> |>) as -> end;
      [destruct r; cbn; by rewrite insert_insert_eq|done].
Qed.

(** The watcher of a socket that libcurl does not know is retired. *)
Lemma driven_retired p c r :
  reactor_ok r → sockets r !! p = Some c → known r !! socket_fd c = None →
  driven r [] (r <| sockets ::= <[p := retired c]> |>).
Proof.
  intros [Ha Hs Hb] Hp Hk. set (r2 := r <| sockets ::= _ |>).
  split; try done; [split; try done|constructor|].
  - apply (closed_ok r r2 p (retired c)); try done. intros fd q Hq. change (known r2) with (known r) in Hq.
    split; [|done]. intros ->.
    destruct (so_known r Hs fd p Hq) as (c' & Hp' & Hfd & _). congruence.
  - apply (persists_set r r2 p (retired c)); [done|]. intros c' Hp'. cbn. congruence.
Qed.

Lemma wp_socket_callback call p c status events r :
  reactor_ok r → sockets r !! p = Some c →
  lawful (dom (known r)) (Some (socket_fd c)) (call (socket_fd c) (flags_of status events)) →
  wp (socket_callback call p status events) (λ _ r' es, called_back r es r') r.
Proof.
  intros Hr Hp Hl. unfold socket_callback. wp_step. apply (wp_socket p c); [done|].
  wp_step. apply wp_live; [by apply block_running|].
  wp_step. eapply wp_mono; [by apply (wp_drive _ (Some (socket_fd c)))|].
  intros code r1 es1 (-> & D1 & _ & Hbad & _). pose proof (dr_ok _ _ _ D1) as Hr1. wp_step; [|wp_step].
  - destruct (dr_persists _ _ _ D1 p c Hp) as (c1 & Hp1 & Hfd).
    assert (known r1 !! socket_fd c1 = None) as Hk by (rewrite Hfd; by apply Hbad).
    pose proof (driven_retired p c1 r1 Hr1 Hp1 Hk) as D2.
    apply (wp_retire p c1 r1); [apply Hr1|done|]. eapply wp_mono; [apply wp_read_messages, D2|]. intros [] r3 es3 D3.
    apply (called_after r r1); [done|]. eapply called_after; [exact D2|]. by apply called_messages.
  - eapply wp_mono; [by apply wp_end_reactor|]. intros [] r2 es2 C2. by apply (called_after r r1).
  - eapply wp_mono; [by apply wp_read_messages|]. intros [] r2 es2 D2.
    by apply (called_after r r1), called_messages.
Qed.

Lemma wp_on_timeout call r :
  reactor_ok r → lawful (dom (known r)) None call →
  wp (on_timeout call) (λ _ r' es, called_back r es r') r.
Proof.
  intros Hr Hl. unfold on_timeout. wp_step. apply wp_live; [by apply block_running|].
  wp_step. eapply wp_mono; [by apply (wp_drive _ None)|].
  intros code r1 es1 (-> & D1 & _). pose proof (dr_ok _ _ _ D1) as Hr1. wp_step.
  - eapply wp_mono; [by apply wp_end_reactor|]. intros [] r2 es2 C2. by apply (called_after r r1).
  - eapply wp_mono; [by apply wp_read_messages|]. intros [] r2 es2 D2.
    by apply (called_after r r1), called_messages.
Qed.

(** ** Histories *)

(** What happens to a reactor: the agent's steps, the callbacks that libcurl makes
    when the agent's handlers call it, an event of a watched socket, the timer
    (which libuv stops first), and the callback of a closing handle. *)
Inductive reactor_step : reactor → list event → list outer_message → reactor → Prop :=
  | Reactor_agent r es subs w' :
      step (agent r) es subs w' → reactor_step r es subs (r <| agent := w' |>)
  | Reactor_calls call code r r' es :
      lawful (dom (known r)) None call → drive_multi_socket call r = Some (code, r', es) →
      reactor_step r es [] r'
  | Reactor_poll call p c status events r r' es :
      sockets r !! p = Some c → watched c ≠ None →
      lawful (dom (known r)) (Some (socket_fd c)) (call (socket_fd c) (flags_of status events)) →
      socket_callback call p status events r = Some ((), r', es) → reactor_step r es [] r'
  | Reactor_timer call t r r' es :
      timer r = Some t → lawful (dom (known r)) None call →
      on_timeout call (r <| timer := None |>) = Some ((), r', es) → reactor_step r es [] r'
  | Reactor_closed p c r r' es :
      sockets r !! p = Some c → closing c = true →
      destroy_socket_context_cb p r = Some ((), r', es) → reactor_step r es [] r'.

Inductive reactor_history (r : reactor) : list event → list outer_message → reactor → Prop :=
  | Reactor_nil : reactor_history r [] [] r
  | Reactor_snoc es subs r1 es' subs' r2 :
      reactor_history r es subs r1 → reactor_step r1 es' subs' r2 →
      reactor_history r (es ++ es') (subs ++ subs') r2.

(** A reactor that was set up and has done nothing. *)
Record reactor_start (r : reactor) : Prop := ReactorStart {
  rs_agent : initial_world (agent r);
  rs_sockets : sockets r = ∅;
  rs_known : known r = ∅;
  rs_blocks : blocks r = running;
  rs_loop_data : loop_data r = Multi_context_pointer
}.

Lemma start_ok r : reactor_start r → reactor_ok r.
Proof.
  intros [Ha Hs Hk Hb _]. split; [exists ∅; by apply initial_ok|split|by rewrite Hb].
  - intros fd p. by rewrite Hk, lookup_empty.
  - intros p c. by rewrite Hs, lookup_empty.
Qed.

(** The calls of the agent, but for the one that stops the loop. *)
Definition agent_calls (es : list event) : list event := filter (λ e, e ≠ Ev_uv_stop) es.

(** What every step keeps. *)
Record follows (r : reactor) (es : list event) (subs : list outer_message) (r' : reactor) : Prop := Follows {
  fo_ok : reactor_ok r';
  fo_agent : ∃ es', history (agent r) es' subs (agent r') ∧ agent_calls es' = agent_calls es;
  fo_blocks : blocks r' = blocks r;
  fo_loop_data : loop_data r' = loop_data r;
  fo_sender : sender r' = sender r
}.

Lemma follows_trans r0 e1 s1 r1 e2 s2 r2 :
  follows r0 e1 s1 r1 → follows r1 e2 s2 r2 → follows r0 (e1 ++ e2) (s1 ++ s2) r2.
Proof.
  intros [A1 (f1 & A2 & A3) A4 A5 A6] [B1 (f2 & B2 & B3) B4 B5 B6]. split; try congruence.
  exists (f1 ++ f2). split; [by apply (history_trans _ f1 s1 (agent r1))|].
  unfold agent_calls in *. by rewrite !filter_app, A3, B3.
Qed.

Lemma follows_called r es r' : called_back r es r' → follows r es [] r'.
Proof.
  intros (es' & [D1 D2 D3 D4 D5 D6 D7] & He). split; try done. exists es'. split; [done|].
  destruct He as [->|[-> _]]; [done|]. unfold agent_calls. rewrite filter_app. cbn. by rewrite app_nil_r.
Qed.

Lemma follows_timer r t es r' : follows (r <| timer := t |>) es [] r' → follows r es [] r'.
Proof. by intros []. Qed.

Lemma wp_destroy_cb p c r :
  reactor_ok r → sockets r !! p = Some c → closing c = true →
  wp (destroy_socket_context_cb p) (λ _ r' es, es = [] ∧ follows r [] [] r') r.
Proof.
  intros [Ha Hs Hb] Hp Hc. unfold destroy_socket_context_cb. wp_step. apply (wp_socket p c); [done|].
  wp_step. split; [done|]. split; try done; [split; [done| |done]|by exists []; split; [constructor|]].
  destruct Hs as [H1 H3]. split; cbn.
  - intros fd q Hq. destruct (H1 fd q Hq) as (d & Hd & Hfd & Hcl). exists d. split; [|done].
    rewrite lookup_delete_ne; [done|]. intros ->. congruence.
  - intros q d [_ Hq]%lookup_delete_Some. by apply (H3 q d).
Qed.

Lemma reactor_step_follows r es subs r' : reactor_ok r → reactor_step r es subs r' → follows r es subs r'.
Proof.
  intros Hr Hs. destruct Hs as [r es subs w' Hs|call code r r' es Hl E|call p c status events r r' es Hp _ Hl E
    |call t r r' es _ Hl E|p c r r' es Hp Hc E].
  - destruct Hr as [[m Ha] Hso Hb]. split; try done.
    + split; [|by apply (sockets_ok_same r)|done].
      destruct (step_ok _ m _ _ _ Ha Hs) as [Hok _]. exact Hok.
    + exists es. split; [by apply history_step|done].
  - destruct (wp_outcome _ _ _ _ _ _ (wp_drive call None r Hr Hl) E) as (-> & D & _).
    apply follows_called. by apply called_messages.
  - apply follows_called. exact (wp_outcome _ _ _ _ _ _ (wp_socket_callback call p c status events r Hr Hp Hl) E).
  - apply (follows_timer r None), follows_called.
    exact (wp_outcome _ _ _ _ _ _ (wp_on_timeout call _ (dr_ok _ _ _ (driven_timer r None Hr)) Hl) E).
  - by destruct (wp_outcome _ _ _ _ _ _ (wp_destroy_cb p c r Hr Hp Hc) E) as [-> F].
Qed.

Lemma history_follows r es subs r' : reactor_ok r → reactor_history r es subs r' → follows r es subs r'.
Proof.
  intros Hr Hh. induction Hh as [|es subs r1 es' subs' r2 Hh IH Hs].
  - split; try done. exists []. split; [constructor|done].
  - apply (follows_trans r es subs r1); [done|]. apply reactor_step_follows; [apply IH|done].
Qed.

(** ** Theorems *)

Lemma wp_defined_run {S A} (m : M S A) Q s : wp m Q s → is_Some (m s).
Proof. intros (a & s' & es & E & _)%wp_run. by rewrite E. Qed.
Lemma wp_ran {S A} (m : M S A) s a s' es (Q : A → S → list event → Prop) :
  m s = Some (a, s', es) → Q a s' es → wp m Q s.
Proof. intros E HQ. unfold wp. by rewrite E. Qed.

(** The agent of [r] was ended and then the loop. *)
Definition ended (r : reactor) (outcome : option (() * reactor * list event)) : Prop :=
  ∃ r' es, outcome = Some ((), r', es ++ [Ev_uv_stop]) ∧ stopped (agent r') ∧ handles (agent r') = [] ∧
    cleanups es ≡ₚ handles (agent r) ∧ ∀ x, owed (agent r) x → answered (agent r') x.

Lemma end_everything_ends (m : M reactor ()) r r1 code :
  reactor_ok r → driven r [] r1 → (∀ Q, wp (end_everything code) Q r1 → wp m Q r) → ended r (m r).
Proof.
  intros Hr D1 Hm. destruct (rk_agent r Hr) as [a Ha].
  destruct (wp_total _ _ _ (Hm _ (wp_end_stops code r1 (dr_ok _ _ _ D1))))
    as ([] & r' & es & E & es' & D2 & -> & Hs & Hh).
  pose proof (driven_trans _ _ _ _ _ D1 D2) as D. cbn [app] in D.
  destruct (history_from _ a _ _ _ Ha (dr_history _ _ _ D)) as ([a' Ha'] & Hp & Ho).
  destruct (stopped_handles _ a' Ha' Hs) as (_ & Hn & Hc). rewrite Hh, app_nil_r in Hp.
  exists r', es'. split; [done|]. split; [done|]. split; [done|]. split; [done|].
  intros x Hx. apply owed_answered; [done..|]. apply Ho. by left.
Qed.

(** ** What the callbacks do, exactly *)

Lemma wp_equal {S A} (m : M S A) s x : wp m (λ a s' es, (a, s', es) = x) s → m s = Some x.
Proof. unfold wp. destruct (m s) as [[[a s'] es]|]; [by intros ->|done]. Qed.

(** The flags that libcurl is told for an event: an error, or the directions that
    libuv reports. *)
Record told (status events flags : Z) : Prop := Told {
  told_error : status < 0 → flags = CURL_CSELECT_ERR;
  told_ready : 0 ≤ status → 0 ≤ flags < 4 ∧
    Z.testbit flags 0 = Z.testbit events 0 ∧ Z.testbit flags 1 = Z.testbit events 1
}.

Lemma land_bit x n : 0 ≤ n → Z.land x (2 ^ n) = if Z.testbit x n then 2 ^ n else 0.
Proof.
  intros Hn. apply Z.bits_inj'. intros k Hk. rewrite Z.land_spec, Z.pow2_bits_eqb by done.
  destruct (Z.testbit x n) eqn:E; rewrite ?Z.pow2_bits_eqb, ?Z.bits_0 by done;
    destruct (Z.eqb_spec n k) as [<-|]; by rewrite ?E, ?andb_false_r.
Qed.

Lemma flags_told status events : told status events (flags_of status events).
Proof.
  unfold flags_of. split; intros Hs; [by rewrite bool_decide_true|]. rewrite bool_decide_false by lia.
  assert (Z.land events UV_READABLE = if Z.testbit events 0 then 1 else 0) as -> by (by apply (land_bit events 0)).
  assert (Z.land events UV_WRITABLE = if Z.testbit events 1 then 2 else 0) as -> by (by apply (land_bit events 1)).
  by destruct (Z.testbit events 0), (Z.testbit events 1).
Qed.

(** The callback of a poll handle, for each thing that libcurl may do and answer:
    the completed transfers are handled; first, the watcher of a socket that
    libcurl has dropped is closed; any other failure ends the agent and the loop. *)
Definition event_handled (r : reactor) (p : ptr) (c : socket_context) : Prop :=
  ∀ status events, ∃ flags, told status events flags ∧ ∀ call,
  lawful (dom (known r)) (Some (socket_fd c)) (call (socket_fd c) flags) →
  ∃ code r1, drive_multi_socket (call (socket_fd c) flags) r = Some (code, r1, []) ∧
    (code = CURLM_OK → ∃ w es, check_multi_info (agent r1) = Some ((), w, es) ∧
      socket_callback call p status events r = Some ((), r1 <| agent := w |>, es)) ∧
    (code = CURLM_BAD_SOCKET → ∃ c1 w es, sockets r1 !! p = Some c1 ∧
      check_multi_info (agent r1) = Some ((), w, es) ∧
      socket_callback call p status events r =
        Some ((), r1 <| sockets ::= <[p := retired c1]> |> <| agent := w |>, es)) ∧
    (code ≠ CURLM_OK → code ≠ CURLM_BAD_SOCKET → ∃ w es,
      shutdown_message_context CURLE_RECV_ERROR (agent r1) = Some ((), w, es) ∧
      socket_callback call p status events r = Some ((), r1 <| agent := w |>, es ++ [Ev_uv_stop])).

(** The callback of the timer. *)
Definition timeout_handled (r : reactor) : Prop :=
  ∀ call, lawful (dom (known r)) None call →
  ∃ code r1, drive_multi_socket call r = Some (code, r1, []) ∧
    (code = CURLM_OK → ∃ w es, check_multi_info (agent r1) = Some ((), w, es) ∧
      on_timeout call r = Some ((), r1 <| agent := w |>, es)) ∧
    (code ≠ CURLM_OK → ∃ w es,
      shutdown_message_context CURLE_OPERATION_TIMEDOUT (agent r1) = Some ((), w, es) ∧
      on_timeout call r = Some ((), r1 <| agent := w |>, es ++ [Ev_uv_stop])).

Lemma messages_run r : reactor_ok r →
  ∃ w es, check_multi_info (agent r) = Some ((), w, es) ∧ read_messages r = Some ((), r <| agent := w |>, es).
Proof.
  intros Hr. destruct (rk_agent r Hr) as [m Ha].
  destruct (wp_total _ _ _ (wp_completions (agent r) m Ha)) as ([] & w & es & E & _).
  exists w, es. split; [done|]. apply wp_equal. unfold read_messages.
  wp_step. apply wp_live; [by apply block_running|]. wp_step. apply wp_live; [by apply block_running|].
  by eapply wp_field_run.
Qed.

Lemma end_run code r : reactor_ok r →
  ∃ w es, shutdown_message_context code (agent r) = Some ((), w, es) ∧
    end_everything code r = Some ((), r <| agent := w |>, es ++ [Ev_uv_stop]).
Proof.
  intros Hr. destruct (rk_agent r Hr) as [m Ha].
  destruct (wp_total _ _ _ (wp_shutdown_step (agent r) m code Ha)) as ([] & w & es & E & _).
  exists w, es. split; [done|]. apply wp_equal. unfold end_everything.
  wp_step. apply wp_live; [by apply block_running|]. wp_step. apply wp_live; [by apply block_running|].
  wp_step. eapply wp_field_run; [exact E|]. wp_step. apply wp_live; [by apply (block_running _ r)|]. by wp_step.
Qed.

Lemma drive_run call event_fd r : reactor_ok r → lawful (dom (known r)) event_fd call →
  ∃ code r1, drive_multi_socket call r = Some (code, r1, []) ∧ driven r [] r1 ∧
    (code = CURLM_BAD_SOCKET → ∀ fd, event_fd = Some fd → known r1 !! fd = None).
Proof.
  intros Hr Hl.
  destruct (wp_total _ _ _ (wp_drive call event_fd r Hr Hl)) as (code & r1 & es & E & -> & D & _ & Hbad & _).
  by exists code, r1.
Qed.

Lemma poll_handled r p c : reactor_ok r → sockets r !! p = Some c → event_handled r p c.
Proof.
  intros Hr Hp status events. exists (flags_of status events). split; [apply flags_told|]. intros call Hl.
  destruct (drive_run _ _ r Hr Hl) as (code & r1 & E & D & Hbad). exists code, r1. split; [done|].
  pose proof (dr_ok _ _ _ D) as Hr1.
  destruct (dr_persists _ _ _ D p c Hp) as (c1 & Hp1 & Hfd).
  assert (∀ Q, wp (if bool_decide (code = CURLM_BAD_SOCKET) then
      (closing ← uv_is_closing p;
       (if (closing : bool) then mret () else uv_poll_stop p;; destroy_socket_context (Some p));;
       read_messages)
    else if bool_decide (code ≠ CURLM_OK) then end_everything CURLE_RECV_ERROR else read_messages) Q r1 →
    wp (socket_callback call p status events) Q r) as Hrun.
  { intros Q HQ. unfold socket_callback. wp_step. apply (wp_socket p c); [done|].
    wp_step. apply wp_live; [by apply block_running|]. wp_step. by apply (wp_ran _ _ _ _ _ _ E). }
  split; [|split].
  - intros ->. destruct (messages_run r1 Hr1) as (w & es & E1 & E2). exists w, es. split; [done|].
    apply wp_equal, Hrun. rewrite bool_decide_false, bool_decide_false by (done || by intros []).
    by apply (wp_ran _ _ _ _ _ _ E2).
  - intros ->. set (r2 := r1 <| sockets ::= <[p := retired c1]> |>).
    assert (known r1 !! socket_fd c1 = None) as Hk by (rewrite Hfd; by apply Hbad).
    destruct (messages_run r2 (dr_ok _ _ _ (driven_retired p c1 r1 Hr1 Hp1 Hk))) as (w & es & E1 & E2).
    exists c1, w, es. split; [done|]. split; [done|]. apply wp_equal, Hrun. rewrite bool_decide_true by done.
    apply (wp_retire p c1); [apply Hr1|done|]. by apply (wp_ran _ _ _ _ _ _ E2).
  - intros H0 Hb. destruct (end_run CURLE_RECV_ERROR r1 Hr1) as (w & es & E1 & E2). exists w, es. split; [done|].
    apply wp_equal, Hrun. rewrite bool_decide_false, bool_decide_true by done. by apply (wp_ran _ _ _ _ _ _ E2).
Qed.

Lemma timer_handled r : reactor_ok r → timeout_handled r.
Proof.
  intros Hr call Hl. destruct (drive_run _ _ r Hr Hl) as (code & r1 & E & D & _). exists code, r1.
  split; [done|]. pose proof (dr_ok _ _ _ D) as Hr1. split.
  - intros ->. destruct (messages_run r1 Hr1) as (w & es & E1 & E2). exists w, es. split; [done|].
    apply wp_equal. unfold on_timeout. wp_step. apply wp_live; [by apply block_running|].
    wp_step. apply (wp_ran _ _ _ _ _ _ E). rewrite bool_decide_false by (by intros []).
    by apply (wp_ran _ _ _ _ _ _ E2).
  - intros H0. destruct (end_run CURLE_OPERATION_TIMEDOUT r1 Hr1) as (w & es & E1 & E2). exists w, es.
    split; [done|]. apply wp_equal. unfold on_timeout. wp_step. apply wp_live; [by apply block_running|].
    wp_step. apply (wp_ran _ _ _ _ _ _ E). rewrite bool_decide_true by done.
    by apply (wp_ran _ _ _ _ _ _ E2).
Qed.

(** C3: the reactor carries the agent's work, and nothing else.  Its histories -
    events of sockets, time-outs and closing handles, with libcurl calling back in
    any order, plus the agent's own steps - are histories of the agent with the same
    submissions and the same calls but for the one that stops the loop.  In every
    reachable state an event of a socket tells libcurl its flags and a time-out
    calls it, and then, whatever libcurl did and answered, exactly this happens:
    the completed transfers are handled if it succeeded; they are also when libcurl
    has dropped the socket, whose watcher is closed; otherwise the agent is shut
    down with the code of that failure and the loop is stopped.  When libcurl asks
    for a socket to be watched, an open handle watches it for just the directions
    asked for, or memory or a call was refused and libcurl is told; when it removes
    a socket, the watcher is stopped and closed. *)
Theorem reactor_refines_agent r0 es subs r :
  reactor_start r0 → reactor_history r0 es subs r →
  (∃ es', history (agent r0) es' subs (agent r) ∧ agent_calls es' = agent_calls es) ∧
  (∀ p c, sockets r !! p = Some c → event_handled r p c) ∧
  timeout_handled (r <| timer := None |>) ∧
  ∀ a fd action, wp (call_socket_function a fd action)
    (λ code r' es, es = [] ∧ agent r' = agent r ∧ served a fd action r code r') r.
Proof.
  intros Hs Hh. pose proof (history_follows r0 es subs r (start_ok r0 Hs) Hh) as Hf.
  pose proof (fo_ok _ _ _ _ Hf) as Hr. split; [apply Hf|]. split; [|split].
  - intros p c. by apply poll_handled.
  - apply timer_handled, (driven_timer r None Hr).
  - intros a fd action. eapply wp_mono; [apply wp_call_socket_function; [apply Hr|by apply block_running]|].
    by intros code r' es' (-> & R & _ & V); destruct R.
Qed.

(** C4: in every reachable state the callbacks are safe, whatever libcurl does
    when they call it: an event of a socket, a time-out, a call made by a handler
    and the callback of a closing handle use no freed context, start, stop or
    close no closing handle, and return; and each pointer that libcurl holds is to
    a context in memory that is open and watches that socket. *)
Theorem reactor_callbacks_safe r0 es subs r :
  reactor_start r0 → reactor_history r0 es subs r →
  (∀ call p c status events, sockets r !! p = Some c →
    lawful (dom (known r)) (Some (socket_fd c)) (call (socket_fd c) (flags_of status events)) →
    is_Some (socket_callback call p status events r)) ∧
  (∀ call, lawful (dom (known r)) None call →
    is_Some (on_timeout call (r <| timer := None |>)) ∧ is_Some (drive_multi_socket call r)) ∧
  (∀ p c, sockets r !! p = Some c → closing c = true → is_Some (destroy_socket_context_cb p r)) ∧
  (∀ fd p, known r !! fd = Some (Some p) →
    ∃ c, sockets r !! p = Some c ∧ socket_fd c = fd ∧ closing c = false).
Proof.
  intros Hs Hh. pose proof (fo_ok _ _ _ _ (history_follows r0 es subs r (start_ok r0 Hs) Hh)) as Hr.
  split; [|split; [|split]].
  - intros call p c status events Hp Hl. by eapply wp_defined_run, (wp_socket_callback call p c).
  - intros call Hl. split; [|by eapply wp_defined_run, (wp_drive call None)].
    eapply wp_defined_run, (wp_on_timeout call); [apply (dr_ok _ _ _ (driven_timer r None Hr))|done].
  - intros p c Hp Hc. by eapply wp_defined_run, (wp_destroy_cb p c).
  - apply (rk_sockets r Hr).
Qed.

(** C6: a fatal answer of libcurl, to an event of a socket or to a time-out, ends
    the agent: every handle that it had is cleaned up once, every record that
    waits is answered, the agent is stopped, and then the loop is. *)
Theorem fatal_errors_end_everything r0 es subs r :
  reactor_start r0 → reactor_history r0 es subs r →
  (∀ call p c status events code r1, sockets r !! p = Some c →
    let told := call (socket_fd c) (flags_of status events) in
    lawful (dom (known r)) (Some (socket_fd c)) told →
    drive_multi_socket told r = Some (code, r1, []) → code ≠ CURLM_OK → code ≠ CURLM_BAD_SOCKET →
    ended r (socket_callback call p status events r)) ∧
  (∀ call code r1, lawful (dom (known r)) None call →
    drive_multi_socket call r = Some (code, r1, []) → code ≠ CURLM_OK → ended r (on_timeout call r)).
Proof.
  intros Hs Hh. pose proof (fo_ok _ _ _ _ (history_follows r0 es subs r (start_ok r0 Hs) Hh)) as Hr. split.
  - intros call p c status events code r1 Hp told Hl E H0 Hbad. apply (end_everything_ends _ r r1 CURLE_RECV_ERROR Hr).
    + exact (proj1 (proj2 (wp_outcome _ _ _ _ _ _ (wp_drive told _ r Hr Hl) E))).
    + unfold socket_callback. intros Q HQ. wp_step. apply (wp_socket p c); [done|].
      wp_step. apply wp_live; [by apply block_running|]. wp_step. apply (wp_ran _ _ _ _ _ _ E).
      rewrite bool_decide_false, bool_decide_true by done. exact HQ.
  - intros call code r1 Hl E H0. apply (end_everything_ends _ r r1 CURLE_OPERATION_TIMEDOUT Hr).
    + exact (proj1 (proj2 (wp_outcome _ _ _ _ _ _ (wp_drive call _ r Hr Hl) E))).
    + unfold on_timeout. intros Q HQ. wp_step. apply wp_live; [by apply block_running|].
      wp_step. apply (wp_ran _ _ _ _ _ _ E). rewrite bool_decide_true by done. exact HQ.
Qed.

End reactor.

(** ** Instances *)

Import AgentSample.

Definition willing : answers := Answers alloc_always 0 0 0 0 0.
Definition sample_reactor : reactor :=
  Reactor sample_world ∅ ∅ {[ SOCKETFUNCTION; SOCKETDATA; TIMERFUNCTION; TIMERDATA ]} None running
    Multi_context_pointer (Some (Sender.Mk 2 0 true)).
(** libcurl starts to watch the socket 9 and sets its timer. *)
Definition starting : library :=
  Socket_function 9 CURL_POLL_INOUT willing (λ _, Timer_function 100 willing (λ _, Return CURLM_OK id)).
(** Told of an event, it goes on, changes what it watches, or fails. *)
Definition reading (fd flags : Z) : library :=
  Again id (Socket_function fd CURL_POLL_IN willing (λ _, Return CURLM_OK id)).
Definition failing : library := Return 4 id.

Definition reactor1 : reactor :=
  match drive_multi_socket starting sample_reactor with Some (_, r, _) => r | None => sample_reactor end.
Definition reactor2 : reactor :=
  match socket_callback reading 1 0 UV_READABLE reactor1 with Some (_, r, _) => r | None => reactor1 end.

Lemma sample_start : reactor_start sample_reactor.
Proof. split; [exact sample_initial|done..]. Defined.

Lemma drives_id : drives (L := sample_libcurl) id.
Proof. by intros c. Defined.

Lemma reactor1_history : reactor_history sample_reactor [] [] reactor1.
Proof.
  apply (Reactor_snoc sample_reactor [] [] sample_reactor [] [] reactor1); [constructor|].
  apply (Reactor_calls starting CURLM_OK).
  - intros code1 code2. split; [exact drives_id|by split].
  - vm_compute. reflexivity.
Defined.

Lemma reading_lawful K fd e flags : lawful K (Some e) (reading fd flags).
Proof. split; [exact drives_id|]. intros code. split; [exact drives_id|by split]. Defined.

Lemma readable_told flags : told 0 UV_READABLE flags → flags = CURL_CSELECT_IN.
Proof.
  intros [_ Ht]. destruct (Ht ltac:(done)) as (Hr & H0 & H1).
  assert (flags = 0 ∨ flags = 1 ∨ flags = 2 ∨ flags = 3) as [-> |[-> |[-> | ->]]] by lia; done.
Qed.
Lemma reading_code r1 code :
  drive_multi_socket (reading 9 CURL_CSELECT_IN) reactor1 = Some (code, r1, []) → code = CURLM_OK.
Proof.
  intros E. assert (wp (drive_multi_socket (reading 9 CURL_CSELECT_IN)) (λ c _ _, c = CURLM_OK) reactor1) as Hw
    by (vm_compute; reflexivity).
  unfold wp in Hw. by rewrite E in Hw.
Qed.

Lemma reactor2_history : reactor_history sample_reactor [] [] reactor2.
Proof.
  apply (Reactor_snoc sample_reactor [] [] reactor1 [] [] reactor2 reactor1_history).
  eapply (Reactor_poll reading 1%positive (Socket 9 (Some 3) false) 0 UV_READABLE).
  - vm_compute. reflexivity.
  - done.
  - apply reading_lawful.
  - vm_compute. reflexivity.
Defined.

(** A read event of socket 9 in [reactor1], and a change of what is watched in
    [reactor2]. *)
Lemma reactor_refines_agent_witness :
  (∃ es', history (agent sample_reactor) es' [] (agent reactor2) ∧ agent_calls es' = agent_calls []) ∧
  (∃ r1 w es, drive_multi_socket (reading 9 CURL_CSELECT_IN) reactor1 = Some (CURLM_OK, r1, []) ∧
    check_multi_info (agent r1) = Some ((), w, es) ∧
    socket_callback reading 1 0 UV_READABLE reactor1 = Some ((), r1 <| agent := w |>, es)) ∧
  wp (call_socket_function willing 9 CURL_POLL_INOUT)
    (λ code r' _, code = 0 ∧ watching 9 CURL_POLL_INOUT r') reactor2.
Proof.
  split; [|split].
  - apply (reactor_refines_agent sample_reactor [] [] reactor2 sample_start reactor2_history).
  - destruct (reactor_refines_agent sample_reactor [] [] reactor1 sample_start reactor1_history)
      as (_ & Hpoll & _).
    destruct (Hpoll 1%positive (Socket 9 (Some 3) false) ltac:(vm_compute; reflexivity) 0 UV_READABLE)
      as (flags & Hf & Hcall).
    assert (flags = CURL_CSELECT_IN) as -> by (by apply readable_told).
    destruct (Hcall reading (reading_lawful _ 9 9 _)) as (code & r1 & E & Hok & _).
    assert (code = CURLM_OK) as -> by (by apply (reading_code r1)).
    destruct (Hok eq_refl) as (w & es & E1 & E2). by exists r1, w, es.
  - destruct (reactor_refines_agent sample_reactor [] [] reactor2 sample_start reactor2_history)
      as (_ & _ & _ & Hsock).
    eapply wp_mono; [apply (Hsock willing 9 CURL_POLL_INOUT)|]. intros code r' es (_ & _ & [Hw _ _]).
    destruct Hw as [Hw|[_ Hno]]; [by right; right|exact Hw|]. destruct Hno. by split_and!.
Defined.

Lemma reactor_callbacks_safe_witness :
  is_Some (socket_callback reading 1 0 UV_READABLE reactor2) ∧
  known reactor2 !! 9 = Some (Some 1%positive) ∧
  ∃ c, sockets reactor2 !! 1%positive = Some c ∧ socket_fd c = 9 ∧ closing c = false.
Proof.
  destruct (reactor_callbacks_safe sample_reactor [] [] reactor2 sample_start reactor2_history)
    as (Hpoll & _ & _ & Hknown).
  split; [|split].
  - apply (Hpoll reading 1%positive (Socket 9 (Some 1) false)); [vm_compute; reflexivity|apply reading_lawful].
  - vm_compute. reflexivity.
  - apply Hknown. vm_compute. reflexivity.
Defined.

Lemma fatal_errors_end_everything_witness :
  ended reactor2 (on_timeout failing reactor2).
Proof.
  destruct (fatal_errors_end_everything sample_reactor [] [] reactor2 sample_start reactor2_history) as [_ Ht].
  apply (Ht failing 4 reactor2); [|vm_compute; reflexivity|done].
  split; [exact drives_id|by split].
Defined.

End CurlUvSteps.
