(* ===== verification/CurlUvLife.v ===== *)
(** * The life of an agent ([init_async_check_messages], [bind_uv_curl_multi],
      [agent_shutdown])

    Setting an agent up takes everything it needs or nothing; tearing it down
    gives everything back. *)

From S2P Require Import Prelude Sender Registry Metrics Agent AgentWorld AgentProps AgentStop AgentHistory.
From S2P Require Import AgentSample CurlUv CurlUvSockets CurlUvSteps.
Import Agent AgentWorld AgentProps AgentStop AgentHistory CurlUv CurlUvSockets CurlUvSteps.

Open Scope Z_scope.
Open Scope record_scope.

Module CurlUvLife.
#[local] Existing Instance Sender.message_sender_eta.
Section reactor.
Context `{L : Libcurl} `{!LibcurlLaws} `{I : Metrics.CurlInfo} `{U : Libuv} `{!LibuvLaws}.

(** ** Blocks *)

Lemma wp_free_block b Q r : b ∈ blocks r → Q () (r <| blocks ::= λ bs, bs ∖ {[b]} |>) [] → wp (free b) Q r.
Proof. intros Hb HQ. unfold free. wp_step. apply wp_live; [done|]. by wp_step. Qed.

Lemma wp_release_sender s Q r :
  sender r = Some s → 1 ≤ Sender.references s →
  Q () (r <| sender := if bool_decide (Sender.references s = 1) then None
                       else Some (s <| Sender.references ::= λ n, u64 (n - 1) |>) |>) [] →
  wp release_sender Q r.
Proof.
  intros Hs Hr HQ. unfold release_sender. wp_step. apply wp_on_field. rewrite Hs.
  unfold Sender.message_sender_release. apply wp_unless_null. wp_steps.
  - rewrite bool_decide_true in HQ by done. exact HQ.
  - rewrite bool_decide_false in HQ by done. exact HQ.
Qed.
(** A sender that only the agent refers to, if there is one. *)
Definition own_sender (o : option Sender.message_sender) : Prop :=
  from_option (λ s, Sender.references s = 1) True o.
Lemma wp_release_own Q r :
  own_sender (sender r) → Q () (r <| sender := None |>) [] → wp release_sender Q r.
Proof.
  intros Hs HQ. destruct (sender r) as [s|] eqn:E.
  - cbn in Hs. apply (wp_release_sender s); [done|lia|]. by rewrite bool_decide_true.
  - unfold release_sender. wp_step. apply wp_on_field. rewrite E. cbn. destruct r; cbn in *. by subst.
Qed.

(** ** Set-up *)

(** A loop that was initialised, a multi handle that drives nothing and whose
    callbacks are not set, and nothing else. *)
Record unset (r : reactor) : Prop := Unset {
  un_agent : nodes (agent r) = ∅ ∧ chan (agent r) = [] ∧ objects_ok (agent r) ∧
    added (curl (agent r)) = ∅;
  un_sockets : sockets r = ∅;
  un_known : known r = ∅;
  un_options : options r = ∅;
  un_blocks : blocks r = {[ Loop ]};
  un_sender : sender r = None
}.

(** Nothing but the fields of the message context has changed. *)
Record restored (r r' : reactor) : Prop := Restored {
  re_agent : ∃ g, agent r' = (agent r) <| table ::= λ t, t <| Registry.registry := g |> |>;
  re_sockets : sockets r' = sockets r;
  re_known : known r' = known r;
  re_options : options r' = options r;
  re_timer : timer r' = timer r;
  re_blocks : blocks r' = blocks r;
  re_loop_data : loop_data r' = loop_data r;
  re_sender : sender r' = sender r
}.

(** Set up but not bound to libcurl: the sender is open, refers to the async
    handle and has one reference. *)
Record prepared (r r' : reactor) : Prop := Prepared {
  pr_agent : initial_world (agent r');
  pr_sockets : sockets r' = sockets r;
  pr_known : known r' = known r;
  pr_options : options r' = options r;
  pr_blocks : blocks r' = {[ Loop; Async_handle; Message_context ]};
  pr_loop_data : loop_data r' = loop_data r;
  pr_sender : sender r' = Some (Sender.Mk 1 0 true)
}.

Lemma registry_init_eq `{Allocator} g :
  Registry.registry_init g =
    Some (calloc Registry.INITIAL_BUCKET_COUNT Registry.sizeof_pointer,
      g <| Registry.registry := if calloc Registry.INITIAL_BUCKET_COUNT Registry.sizeof_pointer
            then Registry.Mk (Some (replicate 64 None)) 64 0 else Registry.Mk None 0 0 |>, []).
Proof. unfold Registry.registry_init. by destruct (calloc _ _). Qed.

Lemma wp_registry {A} (m : M Registry.store A) a g Q r :
  m (table (agent r)) = Some (a, g, []) → Q a (r <| agent ::= λ w, w <| table := g |> |>) [] →
  wp (on_registry m) Q r.
Proof.
  intros E HQ. unfold on_registry. apply wp_on_field, wp_on_field. unfold wp. rewrite E. exact HQ.
Qed.

Lemma sender_create_own `{Allocator} m c o :
  Sender.message_sender_create m c = o → o = None ∨ o = Some (Sender.Mk 1 0 false).
Proof.
  unfold Sender.message_sender_create. intros <-. destruct (malloc _); [|by left].
  case_bool_decide; [by left|]. case_bool_decide; [by left|by right].
Qed.

Ltac in_blocks :=
  cbn; rewrite ?elem_of_difference, ?elem_of_union, ?elem_of_singleton; intuition congruence.
Ltac life1 := match goal with
  | |- wp (free _) _ _ => apply wp_free_block; [in_blocks|]
  | |- wp (live _) _ _ => apply wp_live; [in_blocks|]
  | |- wp release_sender _ _ => apply wp_release_own; [done|]
  | |- wp (allocate_if _ _) _ _ => unfold allocate_if
  | |- wp (free_if _ _) _ _ => unfold free_if
  | |- wp (allocate _) _ _ => unfold allocate
  | |- wp clear_options _ _ => unfold clear_options
  | |- _ => wp_step
  end.
Ltac life := repeat life1.

Lemma agent_same (w : world) g :
  g = Registry.registry (table w) → w = w <| table ::= λ t, t <| Registry.registry := g |> |>.
Proof. intros ->. by destruct w as [[] ? ? ? ? ? ?]. Qed.

(** Giving back what was allocated. *)
Ltac gives_back Hb Hsend :=
  split; [reflexivity|]; split;
    [first [eexists; reflexivity | eexists; apply agent_same; reflexivity]|reflexivity..
    |cbn; rewrite Hb; apply set_eq; intros []; set_solver|reflexivity|cbn; rewrite ?Hsend; reflexivity].

Lemma close_new_sender :
  Sender.message_sender_close (Some (Sender.Mk 1 0 false)) =
    Some ((), Some (Sender.Mk 1 Sender.SENDER_CLOSED_BIT false), []).
Proof. reflexivity. Qed.

Lemma wp_init s r :
  unset r →
  wp (init_async_check_messages s) (λ ok r' es, es = [] ∧ if ok : bool then prepared r r' else restored r r') r.
Proof.
  intros [(Hn & Hc & Ho & Ha) Hs Hk Hopt Hb Hsend]. unfold init_async_check_messages.
  set (new := Sender.message_sender_create _ _).
  pose proof (sender_create_own _ _ new eq_refl) as Hnew. clearbody new.
  destruct (malloc_async s), (calloc_messages s), Hnew as [->| ->]; cbn [negb orb];
    try rewrite bool_decide_true by done; try rewrite bool_decide_false by done; life;
    try gives_back Hb Hsend.
  eapply wp_registry; [apply registry_init_eq|]. destruct (calloc _ _) eqn:E; cbn [negb]; [|life; gives_back Hb Hsend].
  life.
  - eapply wp_registry; [reflexivity|]. wp_step. eapply wp_field_run; [apply close_new_sender|].
    life. gives_back Hb Hsend.
  - split; [done|]. split; try done; cbn.
    + split; try done; [|by apply (objects_ok_same (agent r))].
      refine (proj1 (Registry.registry_init_ok (H := registry_memory s) (table (agent r)) _ _)).
      by rewrite registry_init_eq, E.
    + rewrite Hb. apply set_eq. intros []; set_solver.
Qed.

Lemma wp_set_options s os r :
  wp (set_options s os) (λ ok r' es, es = [] ∧ ∃ o, r' = r <| options := o |> ∧
    (ok = true → o = options r ∪ list_to_set os)) r.
Proof.
  revert r. induction os as [|o os IH]; intros r; cbn [set_options].
  - wp_step. split; [done|]. exists (options r). split; [by destruct r|set_solver].
  - wp_step. unfold set_option. wp_step.
    + wp_step. wp_step. wp_step. eapply wp_mono; [apply IH|]. intros ok r' es (-> & o' & -> & Ho).
      split; [done|]. exists o'. split; [done|]. intros Hok. rewrite (Ho Hok). cbn. set_solver.
    + wp_step. wp_step. split; [done|]. exists (options r). by split; [destruct r|].
Qed.

(** Bound: every callback of the multi handle is set to the multi context. *)
Record bound (r r' : reactor) : Prop := Bound {
  bo_start : reactor_start r';
  bo_options : options r' = {[ SOCKETFUNCTION; SOCKETDATA; TIMERFUNCTION; TIMERDATA ]};
  bo_sender : sender r' = sender r
}.

Lemma wp_bind_multi s r0 r :
  unset r0 → prepared r0 r →
  wp (bind_uv_curl_multi s) (λ ok r' es, es = [] ∧ if ok : bool then bound r r' else r' = r) r.
Proof.
  intros [_ Us Uk Uo _ _] [Pa Ps Pk Po Pb Pl Pd]. unfold bind_uv_curl_multi.
  assert (options r = ∅) as Ho by congruence.
  assert (∀ o, r <| blocks ::= union {[Multi_context]} |> <| options := o |> <| options := ∅ |>
    <| blocks ::= λ bs, bs ∖ {[Multi_context]} |> = r) as Hback.
  { intros o. destruct r. cbn in *. subst. f_equal. apply set_eq. intros []; set_solver. }
  destruct (calloc_multi s); cbn [negb]; [|by wp_step].
  life. eapply wp_mono; [apply wp_set_options|]. intros ok r1 es1 (-> & o & -> & Hok).
  destruct ok; cbn [negb orb]; [|life; split; [done|apply Hback]].
  wp_step; [life; split; [done|apply Hback]|].
  wp_step. apply wp_live; [cbn; rewrite Pb; in_blocks|]. life. split; [done|].
  split; cbn; [|rewrite (Hok eq_refl); cbn; rewrite Ho; set_solver|done].
  split; cbn; try done; [congruence|congruence|].
  rewrite Pb. unfold running. apply set_eq. intros []; set_solver.
Qed.

(** ** Tear-down *)

Lemma wp_close_each l r :
  (∀ p, p ∈ l → is_Some (sockets r !! p)) →
  wp (each close_handle_cb l) (λ _ r' es, es = [] ∧ (∃ m, r' = r <| sockets := m |>) ∧
    dom (sockets r') = dom (sockets r) ∧
    (∀ p c, sockets r !! p = Some c → closing c = true → sockets r' !! p = Some c) ∧
    (∀ p, p ∈ l → ∃ c, sockets r' !! p = Some c ∧ closing c = true)) r.
Proof.
  revert r. induction l as [|q l IH]; intros r Hl; cbn [each].
  { wp_step. split; [done|]. split; [by exists (sockets r); destruct r|]. split; [done|].
    split; [done|]. by intros p ?%elem_of_nil. }
  destruct (Hl q) as [d Hd]; [by left|]. unfold close_handle_cb. wp_step. wp_step.
  apply (wp_is_closing q d); [done|]. destruct (closing d) eqn:Hc.
  - wp_step. eapply wp_mono; [apply IH; intros p Hp; apply Hl; by right|].
    intros [] r' es (-> & Hm & Hdom & Hk & Hcl). split; [done|]. split; [done|]. split; [done|].
    split; [done|]. intros p [->|Hp]%elem_of_cons; [|by apply Hcl]. exists d. by split; [apply Hk|].
  - apply (wp_close q d); [done..|]. set (d' := d <| watched := None |> <| closing := true |>).
    match goal with |- wp _ _ ?r => set (r1 := r) end.
    assert (dom (sockets r1) = dom (sockets r)) as D1.
    { cbn. rewrite dom_insert_L. apply elem_of_dom_2 in Hd. set_solver. }
    eapply wp_mono; [apply IH|].
    { intros p Hp. apply elem_of_dom. rewrite D1. apply elem_of_dom, Hl. by right. }
    intros [] r' es (-> & (m & ->) & Hdom & Hk & Hcl). split; [done|].
    split; [by exists m|]. split; [by rewrite Hdom|]. split.
    + intros p c Hp Hpc. apply Hk; [|done]. cbn. rewrite lookup_insert_ne; [done|]. intros ->. congruence.
    + intros p [->|Hp]%elem_of_cons; [|by apply Hcl]. exists d'. split; [|done].
      apply Hk; [apply lookup_insert_eq|done].
Qed.

Lemma wp_destroy_each l r :
  NoDup l → (∀ p, p ∈ l → is_Some (sockets r !! p)) →
  wp (each destroy_socket_context_cb l) (λ _ r' es, es = [] ∧ (∃ m, r' = r <| sockets := m |>) ∧
    ∀ p, sockets r' !! p = if decide (p ∈ l) then None else sockets r !! p) r.
Proof.
  revert r. induction l as [|q l IH]; intros r Hnd Hl; cbn [each].
  { wp_step. split; [done|]. split; [by exists (sockets r); destruct r|]. intros p.
    rewrite decide_False; [done|]. apply not_elem_of_nil. }
  apply NoDup_cons in Hnd as [Hq Hnd]. destruct (Hl q) as [d Hd]; [by left|].
  unfold destroy_socket_context_cb. wp_step. wp_step. apply (wp_socket q d); [done|]. wp_step.
  eapply wp_mono; [apply IH; [done|]|].
  { intros p Hp. cbn. rewrite lookup_delete_ne; [apply Hl; by right|]. by intros ->. }
  intros [] r' es (-> & (m & ->) & Hk). split; [done|]. split; [by exists m|]. intros p. rewrite Hk. cbn.
  destruct (decide (p = q)) as [->|Hne].
  - rewrite (decide_True _ _ (list_elem_of_here q l)). case_decide; [done|]. apply lookup_delete_eq.
  - rewrite lookup_delete_ne by done. rewrite (decide_ext (p ∈ q :: l) (p ∈ l)); [done|].
    rewrite elem_of_cons. intuition.
Qed.

Lemma handle_order_elements (X : gset ptr) :
  NoDup (handle_order (elements X)) ∧ ∀ p, p ∈ handle_order (elements X) ↔ p ∈ X.
Proof.
  split; [rewrite handle_order_perm; apply NoDup_elements|]. intros p.
  by rewrite handle_order_perm, elem_of_elements.
Qed.

Lemma wp_tear_sockets Q r :
  (Q () (r <| sockets := ∅ |>) []) →
  wp (uv_walk;; r ← gets (λ r, r); run_loop (size (sockets r))) Q r.
Proof.
  intros HQ. wp_step. unfold uv_walk. wp_step. wp_step. eapply wp_mono; [apply wp_close_each|].
  { intros p Hp%handle_order_elements. by apply elem_of_dom. }
  intros [] r1 es1 (-> & (m & ->) & Hdom & _ & Hcl). cbn in Hdom, Hcl. wp_step. wp_step. cbn [sockets].
  set (r1 := r <| sockets := m |>). change (sockets r1) with m.
  assert (∀ p c, m !! p = Some c → closing c = true) as Hall.
  { intros p c Hp. destruct (Hcl p) as (c' & Hc' & ?); [|congruence].
    apply handle_order_elements. rewrite <- Hdom. by apply elem_of_dom_2 in Hp. }
  destruct (size m) as [|n] eqn:Hn; cbn [run_loop]; wp_step; wp_step.
  { apply map_size_empty_inv in Hn as ->. rewrite bool_decide_true by done. wp_step. exact HQ. }
  rewrite bool_decide_false by (intros E; cbn in E; rewrite E, map_size_empty in Hn; done).
  wp_step. unfold uv_run. wp_step. wp_step. cbn [sockets].
  assert (filter (λ pc, closing pc.2 = true) m = m) as Hf.
  { apply map_filter_id. intros p c Hp. by apply (Hall p c). }
  change (sockets r1) with m. rewrite Hf. eapply wp_mono; [apply wp_destroy_each; [apply handle_order_elements|]|].
  { intros p Hp%handle_order_elements. by apply elem_of_dom. }
  intros [] r2 es2 (-> & (m2 & ->) & Hk). assert (m2 = ∅) as ->.
  { apply map_empty. intros p. specialize (Hk p). cbn in Hk. rewrite Hk. case_decide as Hp; [done|].
    apply not_elem_of_dom. intros Hin. by apply Hp, handle_order_elements. }
  destruct n; cbn [run_loop]; wp_step; wp_step; (rewrite bool_decide_true by done); wp_step; exact HQ.
Qed.

(** The same before the rest of the tear-down. *)
Lemma wp_tear_rest (k : M reactor ()) Q r :
  wp k Q (r <| sockets := ∅ |>) → wp (uv_walk;; r ← gets (λ r, r); run_loop (size (sockets r));; k) Q r.
Proof.
  intros HQ. pose proof (wp_tear_sockets (λ _ r' es, r' = r <| sockets := ∅ |> ∧ es = []) r (conj eq_refl eq_refl)) as Ht.
  unfold wp, mbind, M_bind, gets in *. destruct (uv_walk r) as [[[[] r1] e1]|]; [|done].
  destruct (run_loop (size (sockets r1)) r1) as [[[[] r2] e2]|]; [|done]. destruct Ht as [-> He].
  cbn [app] in He. apply app_eq_nil in He as [-> ->]. destruct (k _) as [[[a r3] e3]|]; [|done]. exact HQ.
Qed.

(** The sender without the agent's reference. *)
Definition dropped (s : Sender.message_sender) : option Sender.message_sender :=
  if bool_decide (Sender.references s = 1) then None
  else Some (s <| Sender.references ::= λ n, u64 (n - 1) |>).

(** Nothing of the reactor is left, and its agent answered for everything. *)
Record torn_down (r r' : reactor) (es : list event) : Prop := TornDown {
  td_blocks : blocks r' = ∅;
  td_sockets : sockets r' = ∅;
  td_handles : handles (agent r') = [];
  td_cleanups : cleanups es ≡ₚ handles (agent r);
  td_answered x : owed (agent r) x → answered (agent r') x;
  td_sender : sender r' = mbind dropped (sender r)
}.

Lemma wp_stop_agent m r code Q :
  sys_ok (agent r) m →
  (∀ w' es, stopped w' → history (agent r) es [] w' → Q () (r <| agent := w' |>) es) →
  wp (on_field agent (shutdown_message_context code)) Q r.
Proof.
  intros Ha HQ. destruct (wp_total _ _ _ (wp_shutdown_step (agent r) m code Ha)) as ([] & w' & es & E & _ & Hs).
  eapply wp_field_run; [exact E|]. apply HQ; [done|]. by apply history_step, (Step_shutdown code).
Qed.

(** What a stopped agent has done, also when libcurl went on since. *)
Lemma stopped_answered w m es w' w2 m2 x :
  sys_ok w m → stopped w' → history w es [] w' → history w' [] [] w2 → sys_ok w2 m2 →
  table w2 = table w' → chan w2 = chan w' → owed w x → answered w2 x.
Proof.
  intros Hw Hs H1 H2 Hok T K Hx. destruct (history_from w m es [] w' Hw H1) as ([m' Hw'] & _ & Ho).
  destruct (history_from w' m' [] [] w2 Hw' H2) as (_ & _ & Ho2).
  assert (stopped w2) as Hs2 by (unfold stopped; by rewrite T).
  destruct (stopped_handles w2 m2 Hok Hs2) as (_ & Hn & Hc). apply owed_answered; [done..|].
  apply Ho2. left. apply Ho. by left.
Qed.

(** The last frees, with and without a multi context. *)
Lemma wp_free_rest s Q (r : reactor) (data : user_data) (bound : bool) :
  data = (if bound then Multi_context_pointer else Null) →
  blocks r = {[ Loop; Async_handle; Message_context ]} ∪ (if bound then {[ Multi_context ]} else ∅) →
  sender r = Some s → 1 ≤ Sender.references s →
  Q () (r <| blocks := ∅ |> <| sender := dropped s |>) [] →
  wp ((match data with
       | Indeterminate => fault
       | Null => mret ()
       | Multi_context_pointer => free Multi_context
       end);;
      (live Async_handle;; destroy_message_context;; free Async_handle);;
      free Loop) Q r.
Proof.
  intros -> Hb Hs Hr HQ. unfold destroy_message_context.
  assert (∀ b, b ≠ Multi_context → b ∈ blocks r) as Hin by (intros []; rewrite Hb; set_solver).
  assert (∀ (B : gset block) (r' : reactor), B = ∅ → r' = r <| blocks := B |> <| sender := dropped s |> → Q () r' [])
    as HQ' by (intros B r' -> ->; exact HQ).
  destruct bound; wp_step; [apply wp_free_block; [rewrite Hb; set_solver|]|wp_step].
  all: do 2 wp_step; (apply wp_live; [cbn; set_solver|]); do 2 wp_step;
    (apply wp_live; [cbn; set_solver|]); wp_step; (eapply wp_release_sender; [exact Hs|done|]);
    (apply wp_free_block; [cbn; set_solver|]); (apply wp_free_block; [cbn; set_solver|]);
    (apply wp_free_block; [cbn; set_solver|]).
  all: eapply HQ'; [|reflexivity]; cbn; rewrite Hb; set_solver.
Qed.

Lemma wp_tear_down s r call :
  reactor_ok r → blocks r = running → loop_data r = Multi_context_pointer →
  sender r = Some s → 1 ≤ Sender.references s → lawful (dom (known r)) None call →
  wp (agent_shutdown true (Some call)) (λ _ r' es, torn_down r r' es) r.
Proof.
  intros Hr Hb Hd Hs Href Hl. destruct (rk_agent r Hr) as [m Ha]. unfold agent_shutdown.
  wp_step. apply wp_live; [by apply block_running|]. wp_step. apply wp_live; [by apply block_running|].
  wp_step. wp_step. rewrite Hd. wp_step. wp_step. apply wp_live; [by apply block_running|].
  apply (wp_stop_agent m); [done|]. intros w1 es1 Hst1 Hh1. pose proof (driven_agent r es1 w1 Hr Hh1) as D1.
  set (r1 := r <| agent := w1 |>) in *. unfold curl_multi_cleanup. wp_step. wp_step.
  eapply wp_mono; [apply (wp_drive call None r1); [apply D1|done]|].
  intros code r2 es2 (-> & D2 & _ & _ & [T2 K2]). wp_step.
  set (r3 := r2 <| known := ∅ |> <| options := ∅ |>).
  pose proof (driven_trans _ _ _ _ _ D1 D2) as [D _ _ _ B2 L2 S2]. rewrite app_nil_r in *.
  apply wp_tear_rest. set (r4 := r3 <| sockets := ∅ |>).
  apply (wp_free_rest s _ r4 Multi_context_pointer true); [done|cbn; rewrite B2, Hb; unfold running; set_solver
    |cbn; by rewrite S2|done|].
  destruct (rk_agent r2 D) as [m2 Ha2].
  destruct (history_from _ m _ _ _ Ha Hh1) as ([m1 Ha1] & Hp & _).
  destruct (stopped_handles w1 m1 Ha1 Hst1) as (Hh & _). rewrite Hh, app_nil_r in Hp.
  split; try done.
  - cbn. apply (stopped_handles (agent r2) m2 Ha2). unfold stopped. rewrite T2. exact Hst1.
  - by rewrite !app_nil_r || idtac.
  - intros x Hx. by apply (stopped_answered (agent r) m es1 w1 (agent r2) m2 x Ha Hst1 Hh1 (dr_history _ _ _ D2)).
  - cbn. by rewrite Hs.
Qed.

Lemma wp_acquire r :
  Async_handle ∈ blocks r → Message_context ∈ blocks r → sender r = Some (Sender.Mk 1 0 true) →
  message_sender_acquire r = Some (true, r <| sender := Some (Sender.Mk 2 0 true) |>, []).
Proof.
  intros Ha Hm Hs. assert (wp message_sender_acquire (λ b r' es, b = true ∧
    r' = r <| sender := Some (Sender.Mk 2 0 true) |> ∧ es = []) r) as Hw.
  { unfold message_sender_acquire. wp_step. apply wp_live; [done|]. wp_step. apply wp_live; [done|].
    eapply wp_field_run; [rewrite Hs; vm_compute; reflexivity|done]. }
  destruct (wp_total _ _ _ Hw) as (b & r' & es & E & -> & -> & ->). exact E.
Qed.

Lemma fault_later {A B} (m : M reactor A) (k : A → M reactor B) r :
  (∀ a r' es, m r = Some (a, r', es) → k a r' = None) → (m ≫= k) r = None.
Proof.
  intros Hk. unfold mbind, M_bind. destruct (m r) as [[[a r'] es]|] eqn:E; [|done]. by rewrite (Hk a r' es).
Qed.
Lemma live_same b r u r' es : live b r = Some (u, r', es) → r' = r.
Proof. unfold live, gets, mbind, M_bind. case_bool_decide; by intros [= <- <- <-]. Qed.

(** An indeterminate pointer is not freed. *)
Lemma indeterminate_faults async multi r :
  loop_data r = Indeterminate → agent_shutdown async multi r = None.
Proof.
  intros Hd. unfold agent_shutdown. apply fault_later. intros [] r1 es1 E1.
  assert (r1 = r) as -> by (destruct async; [by apply live_same in E1|by injection E1]).
  apply fault_later. intros [] r2 es2 ->%live_same. apply fault_later. intros r3 r4 es3 [= <- <- <-].
  rewrite Hd. do 5 (apply fault_later; intros). done.
Qed.

(** The same for an agent that was never bound: [loop->data] is as it was. *)
Lemma wp_tear_unbound r0 r (Q : () → reactor → list event → Prop) :
  prepared r0 r →
  (loop_data r = Null → ∀ r' es, torn_down r r' es → Q () r' es) →
  (loop_data r = Multi_context_pointer → False) → loop_data r ≠ Indeterminate →
  wp (agent_shutdown true None) Q r.
Proof.
  intros [Pa Ps Pk Po Pb Pl Pd] HQ Hm Hi. destruct (loop_data r) eqn:Hd; [done| |by destruct Hm].
  destruct (initial_ok _ Pa) as [Ha _]. unfold agent_shutdown.
  wp_step. apply wp_live; [rewrite Pb; set_solver|]. wp_step. apply wp_live; [rewrite Pb; set_solver|].
  wp_step. wp_step. rewrite Hd. wp_step. wp_step. apply wp_live; [rewrite Pb; set_solver|].
  apply (wp_stop_agent ∅); [done|]. intros w1 es1 Hst1 Hh1. wp_step. wp_step.
  set (r1 := r <| agent := w1 |>).
  apply wp_tear_rest. set (r2 := r1 <| sockets := ∅ |>).
  apply (wp_free_rest (Sender.Mk 1 0 true) _ r2 Null false); [done|cbn; rewrite Pb; set_solver|done|done|].
  destruct (history_from _ ∅ _ _ _ Ha Hh1) as ([m1 Ha1] & Hp & _).
  destruct (stopped_handles w1 m1 Ha1 Hst1) as (Hh & _). rewrite Hh, app_nil_r in Hp.
  apply HQ; [done|]. split; try done.
  - by rewrite !app_nil_r || idtac.
  - intros x Hx. by apply (stopped_answered (agent r) ∅ es1 w1 w1 m1 x Ha Hst1 Hh1 (History_nil w1)).
  - cbn. by rewrite Pd.
Qed.

(** ** Theorems *)

(** C7: setting an agent up takes everything or nothing.  Whatever the allocator,
    libuv and libcurl answer, [init_async_check_messages] either returns NULL with
    every block and the sender given back, or a context with an empty registry, no
    message and an open sender that others can then acquire; and
    [bind_uv_curl_multi] either leaves everything as it was, with no callback of
    the multi handle set, or yields a reactor that is ready to run. *)
Theorem setup_all_or_nothing s r :
  unset r →
  ∃ ok r1, init_async_check_messages s r = Some (ok, r1, []) ∧
    if ok then prepared r r1 ∧
      message_sender_acquire r1 = Some (true, r1 <| sender := Some (Sender.Mk 2 0 true) |>, []) ∧
      ∃ ok' r2, bind_uv_curl_multi s r1 = Some (ok', r2, []) ∧ if ok' : bool then bound r1 r2 else r2 = r1
    else restored r r1.
Proof.
  intros Hr. destruct (wp_total _ _ _ (wp_init s r Hr)) as (ok & r1 & es & E & -> & H1).
  exists ok, r1. split; [done|]. destruct ok; [|done]. split; [done|]. split.
  - apply wp_acquire; [rewrite (pr_blocks _ _ H1); set_solver..|apply H1].
  - destruct (wp_total _ _ _ (wp_bind_multi s r r1 Hr H1)) as (ok' & r2 & es & E2 & -> & H2). by exists ok', r2.
Qed.

(** C5: tearing an agent down gives everything back.  After any history of the
    reactor, whatever libcurl still calls back during its clean-up,
    [agent_shutdown] returns, every block and every socket context is freed, the
    agent's reference to the sender is dropped, every handle is cleaned up once
    and every record that waits is answered. *)
Theorem shutdown_gives_everything_back s call r0 es subs r :
  reactor_start r0 → reactor_history r0 es subs r → sender r0 = Some s → 1 ≤ Sender.references s →
  lawful (dom (known r)) None call →
  ∃ r' es', agent_shutdown true (Some call) r = Some ((), r', es') ∧ torn_down r r' es'.
Proof.
  intros Hs Hh Hsend Href Hl. destruct (history_follows r0 es subs r (start_ok r0 Hs) Hh) as [Hr _ B D S].
  destruct (wp_total _ _ _ (wp_tear_down s r call Hr (eq_trans B (rs_blocks _ Hs)) (eq_trans D (rs_loop_data _ Hs))
    (eq_trans S Hsend) Href Hl)) as ([] & r' & es' & E & T). by exists r', es'.
Qed.

(** C39: tearing down an agent that was set up but could not be bound to libcurl is
    sound only when [loop->data] was NULL before: then everything is given back,
    but when it is indeterminate - libuv does not touch it, and a loop that
    comes from [malloc] holds anything - an indeterminate pointer is freed. *)
Theorem unbound_shutdown_needs_null_data s r r1 :
  unset r → init_async_check_messages s r = Some (true, r1, []) →
  (loop_data r = Null → ∃ r' es', agent_shutdown true None r1 = Some ((), r', es') ∧ torn_down r1 r' es') ∧
  (loop_data r = Indeterminate → agent_shutdown true None r1 = None).
Proof.
  intros Hr E. destruct (wp_outcome _ _ _ _ _ _ (wp_init s r Hr) E) as [_ H1]. split; intros Hd.
  - assert (loop_data r1 = Null) as Hd1 by (by rewrite (pr_loop_data _ _ H1)).
    destruct (wp_total _ _ _ (wp_tear_unbound r r1 (λ _ r' es, torn_down r1 r' es) H1 (λ _ _ _ T, T)
      ltac:(congruence) ltac:(congruence))) as ([] & r' & es' & E' & T). by exists r', es'.
  - apply indeterminate_faults. by rewrite (pr_loop_data _ _ H1).
Qed.

End reactor.

(** ** Instances *)

Import AgentSample.

#[export] Instance sample_libuv : Libuv := reverse.
#[export] Instance sample_libuv_laws : LibuvLaws.
Proof. exact reverse_Permutation. Qed.

(** A loop from [malloc], with the given [loop->data]. *)
Definition blank (data : user_data) : reactor :=
  Reactor (sample_world <| table := Registry.Store ∅ (Registry.Mk None 0 0) |>) ∅ ∅ ∅ None {[ Loop ]} data None.
(** Everything succeeds, or memory for the registry runs out. *)
Definition obliging (registry : Allocator) : setup :=
  Setup true true alloc_always 0 0 registry 0 true (λ _, CURLM_OK) 0.
Definition unbound (data : user_data) : reactor :=
  match init_async_check_messages (obliging alloc_always) (blank data) with Some (_, r, _) => r | None => blank data end.

Lemma blank_unset data : unset (blank data).
Proof.
  split; try done. split; [done|]. split; [done|]. split; [|done].
  apply (objects_ok_same sample_world); [done..|exact sample_objects].
Defined.

Definition verdict (o : option (bool * reactor * list event)) : bool :=
  match o with Some (ok, _, _) => ok | None => false end.

Lemma registry_refused : verdict (init_async_check_messages (obliging alloc_never) (blank Null)) = false.
Proof. vm_compute. reflexivity. Qed.
Lemma context_granted : verdict (init_async_check_messages (obliging alloc_always) (blank Null)) = true.
Proof. vm_compute. reflexivity. Qed.
Lemma binding_granted : verdict (bind_uv_curl_multi (obliging alloc_always) (unbound Null)) = true.
Proof. vm_compute. reflexivity. Qed.

Lemma setup_all_or_nothing_witness :
  (∃ r1, init_async_check_messages (obliging alloc_never) (blank Null) = Some (false, r1, []) ∧
     restored (blank Null) r1) ∧
  ∃ r1 r2, init_async_check_messages (obliging alloc_always) (blank Null) = Some (true, r1, []) ∧
    bind_uv_curl_multi (obliging alloc_always) r1 = Some (true, r2, []) ∧ bound r1 r2.
Proof.
  split.
  - destruct (setup_all_or_nothing (obliging alloc_never) _ (blank_unset Null)) as (ok & r1 & E & H1).
    pose proof registry_refused as V. rewrite E in V. cbn [verdict] in V. subst ok. by exists r1.
  - destruct (setup_all_or_nothing (obliging alloc_always) _ (blank_unset Null)) as (ok & r1 & E & H1).
    pose proof context_granted as V. rewrite E in V. cbn [verdict] in V. subst ok.
    destruct H1 as (_ & _ & ok & r2 & E2 & H2). exists r1, r2. split; [exact E|].
    pose proof binding_granted as V. unfold unbound in V. rewrite E, E2 in V. cbn [verdict] in V. subst ok.
    by split.
Defined.

Lemma shutdown_gives_everything_back_witness :
  ∃ r' es', agent_shutdown true (Some starting) reactor2 = Some ((), r', es') ∧ torn_down reactor2 r' es'.
Proof.
  apply (shutdown_gives_everything_back (Sender.Mk 2 0 true) starting sample_reactor [] [] reactor2 sample_start
    reactor2_history eq_refl).
  - vm_compute. discriminate.
  - intros code1 code2. split; [exact drives_id|by split].
Defined.

Lemma unbound_shutdown_needs_null_data_witness :
  (∃ r' es', agent_shutdown true None (unbound Null) = Some ((), r', es') ∧ torn_down (unbound Null) r' es') ∧
  agent_shutdown true None (unbound Indeterminate) = None.
Proof.
  split.
  - apply (unbound_shutdown_needs_null_data (obliging alloc_always) (blank Null) (unbound Null));
      [apply blank_unset|vm_compute; reflexivity|reflexivity].
  - apply (unbound_shutdown_needs_null_data (obliging alloc_always) (blank Indeterminate) (unbound Indeterminate));
      [apply blank_unset|vm_compute; reflexivity|reflexivity].
Defined.

End CurlUvLife.
